(* ===== verification/_CoqProject ===== *)
-Q . S2P
Prelude.v
Bytes.v
Sha256.v
Errors.v
Types.v
Batch.v
Header.v
BitSet.v
Certificate.v
Store.v
TxIndex.v
Dag.v
DagHistory.v
VoteTracker.v
Primary.v
Heap.v
AckTracker.v
Worker.v
Pool.v
Flow.v
Gc.v
Sync.v
BatchFetcher.v
Config.v
Scaler.v
Looseberry.v
Messages.v
MockNetwork.v
Locks.v
NodeRun.v
Cluster.v
LevelDB.v
LevelDBBatch.v
LevelDBCert.v
LevelDBTxIndex.v
Stores.v
Diagnostics.v
