(* ===== verification/Prelude.v ===== *)
(** * A verification of the Looseberry DAG mempool

    Looseberry is the mempool of a Byzantine fault tolerant chain in the style of
    Narwhal.  Clients add transactions; workers put them into batches, broadcast
    them and collect signed acknowledgements; the primary puts batches that a
    quorum acknowledged into a signed header of the current round, with the
    certificates of the previous round as parents; validators vote for headers,
    2f+1 votes make a certificate; certificates form a DAG, whose rounds are read
    out in a fixed order for consensus and pruned after commit.

    ** What models what

    Every file is a shallow embedding of one part, definition by definition:
    records for structs, one function per method, with the object's state passed
    and returned, errors as values, callbacks and sends as outputs, [now] for
    [time.Now()].  A method that runs under a mutex is one step; [tryCreateBatch],
    which releases the queue of the worker in between, is two ([take_txs] and
    [finishBatch]).

    - [Prelude], [Bytes], [Sha256]: fixed-width integers with their wrap-around,
      record update, the iteration order of a Go map as a parameter (class
      [RangeOrder]: some duplicate-free enumeration), big-endian encodings, and
      SHA-256 itself, so that digests are computed and not assumed.
    - [Errors] (types/errors.go), [Types] (hash, transaction, signature, signer;
      Ed25519 is a class with the correctness of signing as its law, and a toy
      instance for closed examples), [Batch], [Header], [BitSet] and
      [Certificate] (types/batch.go, header.go, vote.go, certificate.go,
      validator.go).
    - [Store] and [TxIndex] (store/store.go, memory_*.go): the store interfaces
      as classes of operations, with classes of laws that state what clients rely
      on, and the in-memory stores as instances that satisfy them.  The theorems
      about the DAG, the primary, the collector and the node are proved for any
      store with these laws.
    - [Dag], [DagHistory] (dag/dag.go): rounds, digest index, history cache,
      breadth-first causal history, ordered reading, pruning, loading.
    - [VoteTracker], [Primary], [BatchFetcher] (primary/): votes and evidence, the
      protocol handlers, fetching of missing batches.
    - [Heap], [AckTracker], [Worker], [Pool], [Scaler] (container/heap and
      worker/): the priority queue, acknowledgements, batch making, routing and
      scaling; loads are computed in the Standard Library's binary64 floats.
    - [Flow], [Gc] (gc/): back pressure, garbage collection and recovery over the
      shared stores.
    - [Sync] (network/sync.go): catch-up by request and response with retries.
    - [Config], [Looseberry] (config.go, looseberry.go, network/network.go): the
      configuration, and the node that wires the components over shared stores,
      with start, stop, every message handler and every callback.
    - [LevelDB], [LevelDBBatch], [LevelDBCert], [LevelDBTxIndex]
      (store/leveldb_*.go): the persistent stores over any key-value database;
      goleveldb and the cramberry codec are classes with their documented
      behaviour as laws, and a map with an enumeration codec as instances.
    - [Messages], [MockNetwork] (network/network.go, mock.go, the Clone methods of
      types/): messages and bounded channels; network objects by address, with
      their links, every broadcast, send and injection.
    - [NodeRun]: the running node, one step per message, tick of a loop or call of
      its interface (the message loop of looseberry.go and the loops of the
      primary, the workers, the scaler, the fetcher, the acknowledgement
      trackers, the sync manager and the collector).
    - [Locks]: the read-write lock of the node and the handlers that take it twice.
    - [Cluster]: nodes connected by network objects, with participants that send
      what they like.
    - [Stores]: the stores as interface values, chosen by the configuration
      (initializeStores).  [Diagnostics]: metrics, round counts, the second
      reader of the sync channels.

    ** What the theorems show

    - Certificates: what [Verify] accepts, exactly; two verified certificates of a
      3f+1 validator set share an honest voter; the signer mask; batch digests
      bind the batch up to a collision of SHA-256.
    - The DAG: the result of adding a certificate on every branch, a failing store
      included; an invariant of
      all operations; no two certificates of an author in a round; the DAG is
      closed under parents; the causal history is exactly the ancestors up to the
      depth limit, cached or not; the ordered reading does not depend on the
      iteration order of maps.
    - The vote tracker and the primary: a certificate is returned exactly when
      enough validators voted, each once; what a primary sends is valid; when it
      votes, when it advances, with failing stores and signers; the headers it
      makes are accepted by others; no batch digest is lost or duplicated unless
      the signer fails.
    - Workers: batches take the best transactions in order; the queue and its
      counters agree; after a failed save the transactions go back to the queue as
      far as the limits allow, whatever was added in between; nothing is lost when
      the pool shrinks; limits hold; a tick of the scaler adds or removes exactly
      one worker exactly when load, limits and cooldown ask for it.
    - Flow control, collection, synchronisation and fetching: pausing is exact;
      what a commit deletes, keeps and recovers; what a sync request returns and
      what a response can change; the number of retries sent is bounded by the
      number of requests; headers are released when, and only when, all their
      batches are there.
    - The stores refine maps, and their indexes agree with them; the persistent
      stores cannot be told from the in-memory ones by any sequence of operations
      (without equivocation, respectively shared transactions and, for the number
      of batches pruned, removed ones; closed examples show the differences with
      them).
    - The node: reaping is deduplicated, ordered and within the limit; orphan
      certificates are replayed until none can be added; batches enter headers
      only with a quorum of verified acknowledgement signatures.  A running node
      holds and sends only what is validly signed, whatever it receives except
      unverified certificate messages; the loops of its steps that no collection
      bounds end, except over ranges up to the last 64-bit round, exactly.
    - The lock of the node: goroutines that do not take it twice never block each
      other for good; the nested read lock of [onCertificateFormed] can.
    - The network: a transmission puts the message at the end of exactly the
      channels of the linked recipients that have room, with the error the
      sender sees; links stay symmetric and channels bounded.
    - The cluster: connected correct nodes never hold a certificate that does not
      verify, for every interleaving of deliveries, loops and faults of the links.
      Closed runs of four nodes follow a transaction from [AddTx] to the reaped
      batch of every node, on either kind of store, and show two correct nodes
      with different certificates of one author and round.
    Theorems and examples that are not claims of correctness show where the code
    departs from its comments (for instance [header_digest_ambiguous],
    [verify_accepts_repeated_vote], [unsigned_certificate_accepted]).

    ** Fuel and bounds

    Loops whose end is not structural take fuel and return [None] without it:
    the loop over rounds gets the length of the range (enough unless the range
    ends at the last 64-bit round, where the code does not end either:
    [sync_request_can_hang]), the replay of orphans one more than the buffer
    (each pass removes one), the history traversal the depth limit.  Unsigned
    integers are [Z] with [u16], [u32] and [u64] written out; [int] and [int64]
    values (lengths, sizes, times in nanoseconds) are plain [Z], except for the
    product of the scaler, which wraps.

    ** What is not modelled

    The inside of goleveldb and of the cramberry encoding and the opening of
    database files (outside the repository); a transport over a real network;
    locks and the scheduling of goroutines, apart from [Locks] (an interleaving is
    a sequence of steps, each under its lock; other operations between the two
    parts of [tryCreateBatch] are considered in [failed_batch_requeues] only; a
    send dispatched to a goroutine happens at
    once); the real-time spacing of tickers (a tick may happen at any time); panic
    recovery around callbacks; the completion callback of the sync manager, which
    the node does not install; logging and the duration metric of the
    collector. *)
From stdpp Require Export prelude gmap list sorting strings.
From stdpp Require Export fin_maps fin_map_dom.
From Stdlib Require Export ZArith Lia.

#[export] Set Default Goal Selector "!".

(** ** Machine integers

    Go's fixed-width unsigned integers are kept as [Z] with the wrap-around
    written out; [int] and [int64] values of the program (lengths, byte
    counters, nanosecond stamps) are plain [Z]. *)
Definition wrap (w : Z) (z : Z) : Z := z `mod` 2 ^ w.
Arguments wrap w z : simpl never.
Abbreviation u16 := (wrap 16).
Abbreviation u32 := (wrap 32).
Abbreviation u64 := (wrap 64).

Definition fits (w : Z) (z : Z) : Prop := (0 ≤ z < 2 ^ w)%Z.
Abbreviation is_u8 := (fits 8).
Abbreviation is_u16 := (fits 16).
Abbreviation is_u32 := (fits 32).
Abbreviation is_u64 := (fits 64).

#[export] Instance fits_dec w z : Decision (fits w z).
Proof. unfold fits; apply _. Defined.

Lemma wrap_fits w z : (0 ≤ w)%Z → fits w (wrap w z).
Proof. intros. apply Z.mod_pos_bound, Z.pow_pos_nonneg; lia. Qed.

Lemma wrap_id w z : fits w z → wrap w z = z.
Proof. intros. by apply Z.mod_small. Qed.

Lemma wrap_add_l w x y : wrap w (wrap w x + y) = wrap w (x + y).
Proof. apply Zplus_mod_idemp_l. Qed.

Lemma wrap_S w z : fits w z → (z + 1 < 2 ^ w)%Z → wrap w (z + 1) = (z + 1)%Z.
Proof. unfold fits. intros. apply Z.mod_small. lia. Qed.

(** A signed 64-bit value; [uint64(x)] of it is [u64 x]. *)
Definition is_i64 (z : Z) : Prop := (- 2 ^ 63 ≤ z < 2 ^ 63)%Z.

#[export] Instance is_i64_dec z : Decision (is_i64 z).
Proof. unfold is_i64; apply _. Defined.

Lemma u64_i64_inj x y : is_i64 x → is_i64 y → u64 x = u64 y → x = y.
Proof.
  unfold is_i64, wrap. intros Hx Hy E.
  pose proof (Z.div_mod x (2 ^ 64) ltac:(lia)). pose proof (Z.div_mod y (2 ^ 64) ltac:(lia)).
  pose proof (Z.mod_pos_bound x (2 ^ 64) ltac:(lia)). nia.
Qed.

(** ** Length of a slice or map, as Go's [int] *)
Abbreviation zlen l := (Z.of_nat (length l)).
Abbreviation zsize m := (Z.of_nat (size m)).

(** ** Record update

    [r <| f := v |>] replaces one field.  A record opts in with a [Settable]
    instance, its eta-expansion; the setter of a projection is derived from it
    by abstracting the projection out of the expansion. *)
Class Settable (R : Type) := mk_eta : R → R.
Class Setter {R T : Type} (f : R → T) := set_fld : (T → T) → R → R.
Arguments set_fld {R T} f {_} _ _ /.

Ltac derive_setter :=
  lazymatch goal with
  | |- @Setter ?R ?T ?f =>
      let inst := constr:(_ : Settable R) in
      let body := eval hnf in inst in
      lazymatch eval pattern f in body with
      | ?k _ =>
          let s := constr:(fun (g : T → T) => k (fun r => g (f r))) in
          let s := eval cbv beta in s in
          exact s
      end
  end.
#[export] Hint Extern 1 (Setter _) => derive_setter : typeclass_instances.

Declare Scope looseberry_scope.
Delimit Scope looseberry_scope with lb.
Open Scope looseberry_scope.
Notation "r <| f := v |>" := (set_fld f (λ _, v) r)
  (at level 1, f at level 0, v at level 99, left associativity,
   format "r  <| f  :=  v |>") : looseberry_scope.

(** ** Iteration over a Go map

    [for k, v := range m] visits every entry once, in an order the language
    leaves open.  Code whose result depends on the order takes it as a
    [RangeOrder] parameter; every theorem is stated for all of them. *)
Class RangeOrder (K V : Type) `{Countable K} := {
  range : gmap K V → list (K * V);
  range_perm m : range m ≡ₚ map_to_list m
}.

Definition range_sorted {K V} `{Countable K} : RangeOrder K V :=
  {| range := map_to_list; range_perm m := reflexivity _ |}.

Section range.
Context `{Countable K} {V : Type} {RO : RangeOrder K V}.
Implicit Types m : gmap K V.

Lemma elem_of_range m k v : (k, v) ∈ range m ↔ m !! k = Some v.
Proof. by rewrite range_perm, elem_of_map_to_list. Qed.

Lemma range_length m : length (range m) = size m.
Proof. by rewrite range_perm, length_map_to_list. Qed.

Lemma range_NoDup m : NoDup (range m).*1.
Proof. rewrite range_perm. apply NoDup_fst_map_to_list. Qed.

Lemma range_nil m : range m = [] ↔ m = ∅.
Proof.
  rewrite <-(map_to_list_empty_iff m). split; intros E.
  - apply Permutation_nil. by rewrite <-E, range_perm.
  - apply Permutation_nil. by rewrite <-E, range_perm.
Qed.
End range.

Lemma StronglySorted_weaken {A} (R R' : relation A) l :
  (∀ a b, R a b → R' a b) → StronglySorted R l → StronglySorted R' l.
Proof.
  intros HR. induction 1 as [|a l Hs IH Ha]; constructor; [done|].
  by eapply Forall_impl; [apply Ha | apply HR].
Qed.

(** ** [sort.Slice]

    [sort.Slice] leaves the order of elements that compare equal open; the
    model is a stable merge sort, and [sort_slice_unique] shows that on
    elements that are pairwise ordered every sorted permutation is the model's
    result, so nothing depends on the choice. *)
Section sort.
Context {A : Type} (less : A → A → bool).

Definition not_after (a b : A) : Prop := less b a = false.
#[export] Instance not_after_dec : RelDecision not_after.
Proof. intros a b. unfold not_after. apply _. Defined.

Definition sort_slice (l : list A) : list A := merge_sort not_after l.

Lemma sort_slice_perm l : sort_slice l ≡ₚ l.
Proof. apply merge_sort_Permutation. Qed.

Lemma elem_of_sort_slice x l : x ∈ sort_slice l ↔ x ∈ l.
Proof. by rewrite sort_slice_perm. Qed.

Lemma length_sort_slice l : length (sort_slice l) = length l.
Proof. by rewrite sort_slice_perm. Qed.

Class StrictWeak := {
  less_asym a b : less a b = true → less b a = false;
  less_trans_not a b c : less b a = false → less c b = false → less c a = false
}.

Context {SW : StrictWeak}.

#[local] Instance not_after_total : Total not_after.
Proof.
  intros a b. unfold not_after. destruct (less b a) eqn:E; [right | by left].
  by apply less_asym.
Qed.
#[local] Instance not_after_trans : Transitive not_after.
Proof. intros a b c. apply less_trans_not. Qed.

Lemma sort_slice_sorted l : StronglySorted not_after (sort_slice l).
Proof. apply StronglySorted_merge_sort; apply _. Qed.

Lemma sort_slice_unique l l' :
  l' ≡ₚ l → StronglySorted not_after l' →
  (∀ a b, a ∈ l → b ∈ l → less a b = false → less b a = false → a = b) →
  l' = sort_slice l.
Proof.
  intros Hp Hs Hu. apply (StronglySorted_unique_strong not_after); auto.
  - intros a b Ha Hb Hab Hba. rewrite Hp in Ha. rewrite sort_slice_perm in Hb. by apply Hu.
  - apply sort_slice_sorted.
  - by rewrite Hp, sort_slice_perm.
Qed.
End sort.

Arguments sort_slice {A} less l : simpl never.

Definition by_key {A} (key : A → Z) (a b : A) : bool := bool_decide (key a < key b)%Z.

#[export] Instance by_key_strict {A} (key : A → Z) : StrictWeak (by_key key).
Proof.
  unfold by_key. split; intros *; rewrite ?bool_decide_eq_true, ?bool_decide_eq_false; lia.
Qed.

Lemma sort_by_key_sorted {A} (key : A → Z) l :
  StronglySorted (λ a b, (key a ≤ key b)%Z) (sort_slice (by_key key) l).
Proof.
  eapply StronglySorted_weaken; [|apply sort_slice_sorted; apply _].
  intros a b. unfold not_after, by_key. rewrite bool_decide_eq_false. lia.
Qed.

Lemma sort_by_key_strict {A} (key : A → Z) l :
  NoDup (key <$> l) →
  StronglySorted (λ a b, (key a < key b)%Z) (sort_slice (by_key key) l).
Proof.
  intros Hnd. pose proof (sort_by_key_sorted key l) as Hs.
  rewrite <-(sort_slice_perm (by_key key) l) in Hnd.
  induction Hs as [|a l' Hs IH Ha]; [constructor|].
  rewrite fmap_cons, NoDup_cons in Hnd. destruct Hnd as [Hni Hnd].
  constructor; [by apply IH|].
  rewrite Forall_forall in Ha |- *. intros b Hb. specialize (Ha b Hb).
  assert (key a ≠ key b); [|lia]. intros E. apply Hni. rewrite E. set_solver.
Qed.

(** ** Sets of validators

    Inclusion-exclusion for finite sets, and the two counting arguments of the
    quorum rules: two large subsets of a finite set meet, and a large subset is
    not made of the excluded elements only. *)
Section counting.
Context `{Countable A}.
Implicit Types X Y U : gset A.

Lemma size_union_inter X Y : size (X ∪ Y) + size (X ∩ Y) = size X + size Y.
Proof.
  assert (size Y = size (X ∩ Y) + size (Y ∖ X)).
  { rewrite <-size_union by set_solver. f_equal. apply set_eq. intros x.
    destruct (decide (x ∈ X)); set_solver. }
  rewrite size_union_alt. lia.
Qed.

Lemma inter_size_lb X Y U :
  X ⊆ U → Y ⊆ U → size X + size Y ≤ size U + size (X ∩ Y).
Proof.
  intros HX HY. pose proof (size_union_inter X Y).
  assert (size (X ∪ Y) ≤ size U) by (apply subseteq_size; set_solver). lia.
Qed.

Lemma exists_outside X Y : size Y < size X → ∃ x, x ∈ X ∧ x ∉ Y.
Proof.
  intros Hlt. destruct (decide (X ⊆ Y)) as [Hs|Hs].
  - apply subseteq_size in Hs. lia.
  - destruct (set_choose_L (X ∖ Y)) as [x Hx]; [by intros ?%empty_difference_subseteq_L|]. exists x. set_solver.
Qed.

Lemma size_list_to_set_le (l : list A) : size (list_to_set l : gset A) ≤ length l.
Proof.
  induction l as [|x l IH]; [done|]. cbn [list_to_set foldr]. rewrite size_union_alt, size_singleton.
  assert (size (list_to_set l ∖ {[x]} : gset A) ≤ size (list_to_set l : gset A))
    by (apply subseteq_size; set_solver). simpl. lia.
Qed.

Lemma size_list_to_set_NoDup (l : list A) :
  NoDup l → size (list_to_set l : gset A) = length l.
Proof. apply size_list_to_set. Qed.
End counting.

(** ** Maps *)
Lemma length_filter_map `{Countable K} {A} (P : K * A → Prop) `{∀ x, Decision (P x)} (m : gmap K A) :
  length (filter P (map_to_list m)) = size (filter P m).
Proof.
  rewrite <-length_map_to_list, map_filter_alt. symmetry. apply Permutation_length, map_to_list_to_map.
  apply (NoDup_fmap_fst (filter P (map_to_list m))).
  - intros x a b [_ Ha]%list_elem_of_filter [_ Hb]%list_elem_of_filter.
    apply elem_of_map_to_list in Ha, Hb. congruence.
  - apply NoDup_filter, NoDup_map_to_list.
Qed.

(** ** Lists *)
Lemma take_elem_of {A} n (l : list A) x : x ∈ take n l → x ∈ l.
Proof. intros Hx. rewrite <-(take_drop n l). set_solver. Qed.

Lemma NoDup_take {A} n (l : list A) : NoDup l → NoDup (take n l).
Proof. intros Hnd. rewrite <-(take_drop n l) in Hnd. by apply NoDup_app in Hnd as [? _]. Qed.

Lemma StronglySorted_take {A} (R : relation A) n l :
  StronglySorted R l → StronglySorted R (take n l).
Proof.
  intros Hs. revert n. induction Hs as [|a l Hs IH Ha]; intros [|n]; simpl; try constructor; auto.
  rewrite Forall_forall in Ha |- *. intros x Hx. by apply Ha, (take_elem_of n).
Qed.

Lemma StronglySorted_lt_NoDup {A} (key : A → Z) l :
  StronglySorted (λ a b, (key a < key b)%Z) l → NoDup (key <$> l).
Proof.
  induction 1 as [|a l Hs IH Ha]; [constructor|].
  rewrite fmap_cons, NoDup_cons. split; [|done].
  intros (b & E & Hb)%list_elem_of_fmap. rewrite Forall_forall in Ha. specialize (Ha b Hb). lia.
Qed.

Lemma forallb_true {A} (f : A → bool) l : forallb f l = true ↔ ∀ x, x ∈ l → f x = true.
Proof. rewrite forallb_forall. by setoid_rewrite list_elem_of_In. Qed.

Lemma forallb_false {A} (f : A → bool) l : forallb f l = false ↔ ∃ x, x ∈ l ∧ f x = false.
Proof.
  induction l as [|x l IH]; cbn.
  - split; [done|]. by intros (x & ?%not_elem_of_nil & _).
  - rewrite andb_false_iff, IH. setoid_rewrite elem_of_cons. naive_solver.
Qed.

(** Summing loops, [for _, x := range l { total += f(x) }]. *)
Lemma fold_left_add_acc {A} (f : A → Z) l a :
  fold_left (λ t x, t + f x)%Z l a = (a + fold_left (λ t x, t + f x)%Z l 0)%Z.
Proof.
  revert a. induction l as [|x l IH]; intros a; cbn [fold_left]; [lia|].
  rewrite IH, (IH (0 + f x)%Z). lia.
Qed.

Lemma fold_left_add_cons {A} (f : A → Z) x l :
  fold_left (λ t x, t + f x)%Z (x :: l) 0%Z = (f x + fold_left (λ t x, t + f x)%Z l 0)%Z.
Proof. cbn [fold_left]. by rewrite fold_left_add_acc. Qed.

Lemma fold_left_add_app {A} (f : A → Z) l k :
  fold_left (λ t x, t + f x)%Z (l ++ k) 0%Z
  = (fold_left (λ t x, t + f x)%Z l 0 + fold_left (λ t x, t + f x)%Z k 0)%Z.
Proof. by rewrite fold_left_app, fold_left_add_acc. Qed.

Lemma fold_left_add_perm {A} (f : A → Z) l k :
  l ≡ₚ k → fold_left (λ t x, t + f x)%Z l 0%Z = fold_left (λ t x, t + f x)%Z k 0%Z.
Proof.
  induction 1 as [|x l k _ IH|x y l|l k m _ IH1 _ IH2]; rewrite ?fold_left_add_cons; lia.
Qed.

Lemma fold_left_add_nonneg {A} (f : A → Z) l :
  (∀ x, x ∈ l → 0 ≤ f x)%Z → (0 ≤ fold_left (λ t x, t + f x)%Z l 0)%Z.
Proof.
  induction l as [|x l IH]; intros Hf; [done|]. rewrite fold_left_add_cons.
  pose proof (Hf x (list_elem_of_here _ _)). assert (0 ≤ fold_left (λ t x, t + f x)%Z l 0)%Z; [|lia].
  apply IH. intros y Hy. apply Hf. by right.
Qed.

(** The number of elements that satisfy a boolean predicate. *)
Fixpoint count_if {A} (p : A → bool) (l : list A) : Z :=
  match l with
  | [] => 0
  | x :: l' => Z.b2z (p x) + count_if p l'
  end.

Section count.
Context {A B : Type}.
Implicit Types (p q : A → bool) (l : list A).

Lemma count_if_app p l k : count_if p (l ++ k) = (count_if p l + count_if p k)%Z.
Proof. induction l as [|x l IH]; simpl; lia. Qed.

Lemma count_if_fmap p (f : B → A) (l : list B) : count_if p (f <$> l) = count_if (p ∘ f) l.
Proof. induction l as [|x l IH]; [done|]. rewrite fmap_cons. cbn [count_if]. by rewrite IH. Qed.

Lemma count_if_ext p q l : (∀ x, x ∈ l → p x = q x) → count_if p l = count_if q l.
Proof.
  induction l as [|x l IH]; intros E; [done|]. cbn [count_if].
  rewrite E by left. rewrite IH; [done|]. intros. apply E. by right.
Qed.

Lemma count_if_filter p l : count_if p l = zlen (filter (λ x, p x = true) l).
Proof.
  induction l as [|x l IH]; [done|]. rewrite filter_cons. cbn [count_if]. rewrite IH.
  destruct (p x); case_decide; try done; cbn [length Z.b2z]; lia.
Qed.

Lemma count_if_set `{Countable A} p l (X : gset A) :
  NoDup l → (∀ x, x ∈ X ↔ x ∈ l ∧ p x = true) → count_if p l = zsize X.
Proof.
  intros Hnd HX. rewrite count_if_filter. f_equal.
  rewrite <-(size_list_to_set_NoDup (filter _ l)) by by apply NoDup_filter.
  f_equal. apply set_eq. intros x. rewrite elem_of_list_to_set, list_elem_of_filter, HX. naive_solver.
Qed.
End count.

(** ** Automation *)
Create HintDb lb.
#[export] Hint Resolve wrap_fits take_elem_of NoDup_take : lb.
Create Rewrite HintDb lb_len.
#[export] Hint Rewrite @length_fmap @length_app @length_sort_slice : lb_len.

(** A closed decidable proposition, by evaluation. *)
Ltac decided := apply (bool_decide_unpack _); vm_compute; exact I.

(** Case analysis on the guard of a handler: destruct the scrutinee of the
    first [match] or [if] of the goal and keep the equation. *)
Ltac go_case :=
  match goal with
  | |- context [match ?x with _ => _ end] =>
      lazymatch x with
      | context [match _ with _ => _ end] => fail
      | _ => let E := fresh "E" in destruct x eqn:E
      end
  end.
Ltac go_cases := repeat (go_case; simplify_eq/=).

Lemma some_default {A} (d : A) (o : option A) :
  (match o with Some _ => true | None => false end) = true → o = Some (default d o).
Proof. by destruct o. Qed.

Lemma StronglySorted_sublist {A} (R : A → A → Prop) l k : sublist l k → StronglySorted R k → StronglySorted R l.
Proof.
  induction 1 as [|x l k Hs IH|x l k Hs IH]; intros Hk; [done|..]; apply StronglySorted_inv in Hk as [Hk Hf].
  - constructor; [by apply IH|]. apply Forall_forall. intros y Hy. rewrite Forall_forall in Hf.
    apply Hf. by eapply elem_of_sublist.
  - by apply IH.
Qed.
