(* ===== verification/Bytes.v ===== *)
(** Byte strings: the big-endian encoders of [encoding/binary], the hexadecimal
    codec of [encoding/hex] and the SHA-256 function of [crypto/sha256] that
    the types of the repository are hashed with.

    A byte is a [Z] in [0, 256); a byte slice or array is a list of bytes. *)
From S2P Require Import Prelude.
Local Open Scope Z_scope.

Abbreviation bytes := (list Z).

Definition is_bytes (l : bytes) : Prop := Forall (fits 8) l.

#[export] Instance is_bytes_dec l : Decision (is_bytes l).
Proof. unfold is_bytes; apply _. Defined.

(** ** [binary.BigEndian] *)

(** [be_bytes n z]: the [n] bytes [PutUint(8n)] writes for [z]. *)
Fixpoint be_bytes (n : nat) (z : Z) : bytes :=
  match n with
  | O => []
  | S n' => (z / 256 ^ Z.of_nat n') mod 256 :: be_bytes n' z
  end.

Definition PutUint16 (z : Z) : bytes := be_bytes 2 z.
Definition PutUint32 (z : Z) : bytes := be_bytes 4 z.
Definition PutUint64 (z : Z) : bytes := be_bytes 8 z.

Arguments PutUint16 z : simpl never.
Arguments PutUint32 z : simpl never.
Arguments PutUint64 z : simpl never.

(** [be_val]: the number [Uint(8n)] reads back. *)
Definition be_val (l : bytes) : Z := fold_left (λ acc b, acc * 256 + b) l 0.

Lemma length_be_bytes n z : length (be_bytes n z) = n.
Proof. induction n; simpl; auto. Qed.

Lemma be_bytes_is_bytes n z : is_bytes (be_bytes n z).
Proof.
  induction n; constructor; [|done]. unfold fits. apply Z.mod_pos_bound. lia.
Qed.

Lemma be_val_acc l a : fold_left (λ acc b, acc * 256 + b) l a = a * 256 ^ zlen l + be_val l.
Proof.
  unfold be_val. revert a. induction l as [|b l IH]; intros a; simpl fold_left.
  - simpl. lia.
  - rewrite IH, (IH (0 * 256 + b)). cbn [length]. rewrite Nat2Z.inj_succ, Z.pow_succ_r by lia. lia.
Qed.

Lemma be_val_bytes n z : be_val (be_bytes n z) = z mod 256 ^ Z.of_nat n.
Proof.
  induction n as [|n IH]; [by rewrite Z.mod_1_r|].
  cbn [be_bytes]. unfold be_val. cbn [fold_left]. rewrite be_val_acc, IH, length_be_bytes.
  rewrite Nat2Z.inj_succ, Z.pow_succ_r by lia.
  assert (0 < 256 ^ Z.of_nat n) by (apply Z.pow_pos_nonneg; lia).
  rewrite (Z.mul_comm 256), Z.rem_mul_r by lia. lia.
Qed.

Lemma be_bytes_inj n x y :
  0 ≤ x < 256 ^ Z.of_nat n → 0 ≤ y < 256 ^ Z.of_nat n → be_bytes n x = be_bytes n y → x = y.
Proof.
  intros Hx Hy E%(f_equal be_val). rewrite !be_val_bytes, !Z.mod_small in E; auto.
Qed.

Lemma be_bytes_add n a z : be_bytes n (a * 256 ^ Z.of_nat n + z) = be_bytes n z.
Proof.
  revert a. induction n as [|n IH]; intros a; [done|]. cbn [be_bytes].
  rewrite Nat2Z.inj_succ, Z.pow_succ_r, Z.mul_assoc by lia. f_equal; [|apply IH].
  assert (0 < 256 ^ Z.of_nat n) by (apply Z.pow_pos_nonneg; lia).
  rewrite Z.div_add_l by lia. rewrite Z.add_comm, Z.mod_add by lia. done.
Qed.

Lemma be_val_bound l : is_bytes l → 0 ≤ be_val l < 256 ^ zlen l.
Proof.
  induction 1 as [|b l Hb Hl IH]; [done|]. unfold fits in Hb.
  unfold be_val. cbn [fold_left length]. rewrite be_val_acc, Nat2Z.inj_succ, Z.pow_succ_r by lia. nia.
Qed.

Lemma be_bytes_val l : is_bytes l → be_bytes (length l) (be_val l) = l.
Proof.
  induction 1 as [|b l Hb Hl IH]; [done|]. pose proof (be_val_bound l Hl). unfold fits in Hb.
  unfold be_val. cbn [fold_left length be_bytes]. rewrite be_val_acc. f_equal.
  - rewrite Z.div_add_l, Z.div_small, Z.add_0_r, Z.mod_small by lia. lia.
  - by rewrite be_bytes_add.
Qed.

Lemma PutUint16_inj x y : is_u16 x → is_u16 y → PutUint16 x = PutUint16 y → x = y.
Proof. intros. by apply (be_bytes_inj 2). Qed.
Lemma PutUint64_inj x y : is_u64 x → is_u64 y → PutUint64 x = PutUint64 y → x = y.
Proof. intros. by apply (be_bytes_inj 8). Qed.

(** Splitting concatenations of fixed-width fields. *)
Lemma be_app_inj n x y (k l : bytes) :
  be_bytes n x ++ k = be_bytes n y ++ l → be_bytes n x = be_bytes n y ∧ k = l.
Proof. apply app_inj_1. by rewrite !length_be_bytes. Qed.

Lemma concat_inj (n : nat) (ls ks : list bytes) :
  (0 < n)%nat → Forall (λ x, length x = n) ls → Forall (λ x, length x = n) ks →
  concat ls = concat ks → ls = ks.
Proof.
  intros Hn Hl. revert ks. induction Hl as [|x ls Hx Hl IH]; intros ks Hk.
  - destruct Hk as [|y ks Hy Hk]; [done|]. simpl. intros E.
    apply (f_equal length) in E. rewrite length_app, Hy in E. simpl in E. lia.
  - destruct Hk as [|y ks Hy Hk]; simpl; intros E.
    + apply (f_equal length) in E. rewrite length_app, Hx in E. simpl in E. lia.
    + apply app_inj_1 in E as [-> E]; [|lia]. f_equal. by apply IH.
Qed.

(** ** [encoding/hex] *)
Definition hex_digit (n : Z) : Z := if bool_decide (n < 10) then 48 + n else 87 + n.

Definition EncodeToString (l : bytes) : bytes :=
  b ← l; [hex_digit (b / 16); hex_digit (b mod 16)].

(** [fromHexChar]: the value of one digit, either case. *)
Definition fromHexChar (c : Z) : option Z :=
  if bool_decide (48 ≤ c ≤ 57) then Some (c - 48)
  else if bool_decide (97 ≤ c ≤ 102) then Some (c - 87)
  else if bool_decide (65 ≤ c ≤ 70) then Some (c - 55)
  else None.

Fixpoint DecodeString (s : bytes) : option bytes :=
  match s with
  | [] => Some []
  | [_] => None
  | a :: b :: s' =>
      hi ← fromHexChar a; lo ← fromHexChar b; rest ← DecodeString s';
      Some (hi * 16 + lo :: rest)
  end.

Lemma fromHexChar_digit n : 0 ≤ n < 16 → fromHexChar (hex_digit n) = Some n.
Proof.
  intros Hn. unfold hex_digit, fromHexChar. repeat case_bool_decide; try lia; f_equal; lia.
Qed.

Lemma decode_encode l : is_bytes l → DecodeString (EncodeToString l) = Some l.
Proof.
  induction 1 as [|b l Hb Hl IH]; [done|]. unfold fits in Hb.
  unfold EncodeToString in *. cbn. unfold EncodeToString in *.
  rewrite !fromHexChar_digit by (try apply Z.mod_pos_bound; try split;
    try apply Z.div_pos; try apply Z.div_lt_upper_bound; lia). cbn.
  cbn in IH. rewrite IH. cbn. do 2 f_equal. pose proof (Z.div_mod b 16). lia.
Qed.
