(* ===== verification/Sha256.v ===== *)
(** SHA-256 (FIPS 180-4), the function [crypto/sha256.Sum256] computes, on byte
    lists.  The compression function works on 32-bit words kept as [Z] in
    [0, 2^32).  [sha256_abc] checks the definition against the standard's test
    vector. *)
From S2P Require Import Prelude Bytes.
Local Open Scope Z_scope.

(** The constants of the standard: the first 32 bits of the fractional parts of
    the square roots (initial state) and cube roots (round constants) of the
    first primes. *)
Definition is_prime (n : Z) : bool :=
  forallb (λ d, negb (n mod d =? 0)) (seqZ 2 (n - 2)).
Definition primes (n : nat) : list Z := take n (filter (λ p, is_prime p = true) (seqZ 2 320)).

(** The integer cube root, by bisection on [lo, lo + 2^n). *)
Fixpoint cube_root (n : nat) (lo x : Z) : Z :=
  match n with
  | O => lo
  | S n' =>
      let mid := lo + 2 ^ Z.of_nat n' in
      cube_root n' (if mid * mid * mid <=? x then mid else lo) x
  end.

Definition round_constants : list Z :=
  Eval vm_compute in map (λ p, u32 (cube_root 36 0 (p * 2 ^ 96))) (primes 64).
Definition initial_words : list Z :=
  Eval vm_compute in map (λ p, u32 (Z.sqrt (p * 2 ^ 64))) (primes 8).

Record state := mk_state { sa : Z; sb : Z; sc : Z; sd : Z; se : Z; sf : Z; sg : Z; sh : Z }.

Definition initial_state : state :=
  let w i := nth i initial_words 0 in
  mk_state (w 0%nat) (w 1%nat) (w 2%nat) (w 3%nat) (w 4%nat) (w 5%nat) (w 6%nat) (w 7%nat).

Definition rotr (n x : Z) : Z := Z.lor (Z.shiftr x n) (u32 (Z.shiftl x (32 - n))).
Definition xor3 (x y z : Z) : Z := Z.lxor x (Z.lxor y z).

Definition big_sigma0 x := xor3 (rotr 2 x) (rotr 13 x) (rotr 22 x).
Definition big_sigma1 x := xor3 (rotr 6 x) (rotr 11 x) (rotr 25 x).
Definition small_sigma0 x := xor3 (rotr 7 x) (rotr 18 x) (Z.shiftr x 3).
Definition small_sigma1 x := xor3 (rotr 17 x) (rotr 19 x) (Z.shiftr x 10).
Definition choose x y z := Z.lxor (Z.land x y) (Z.land (Z.lxor x 0xffffffff) z).
Definition majority x y z := xor3 (Z.land x y) (Z.land x z) (Z.land y z).

(** The message schedule, latest word first. *)
Fixpoint extend_schedule (n : nat) (ws : list Z) : list Z :=
  match n with
  | O => ws
  | S n' =>
      let w i := nth i ws 0 in
      extend_schedule n' (u32 (small_sigma1 (w 1%nat) + w 6%nat + small_sigma0 (w 14%nat) + w 15%nat) :: ws)
  end.

Fixpoint words_of (l : bytes) : list Z :=
  match l with
  | a :: b :: c :: d :: l' => be_val [a; b; c; d] :: words_of l'
  | _ => []
  end.

Definition compression_round (s : state) (kw : Z * Z) : state :=
  let t1 := sh s + big_sigma1 (se s) + choose (se s) (sf s) (sg s) + kw.1 + kw.2 in
  let t2 := big_sigma0 (sa s) + majority (sa s) (sb s) (sc s) in
  mk_state (u32 (t1 + t2)) (sa s) (sb s) (sc s) (u32 (sd s + t1)) (se s) (sf s) (sg s).

Definition add_state (s t : state) : state :=
  mk_state (u32 (sa s + sa t)) (u32 (sb s + sb t)) (u32 (sc s + sc t)) (u32 (sd s + sd t))
           (u32 (se s + se t)) (u32 (sf s + sf t)) (u32 (sg s + sg t)) (u32 (sh s + sh t)).

Definition compress (s : state) (block : bytes) : state :=
  let ws := rev (extend_schedule 48 (rev (words_of block))) in
  add_state s (fold_left compression_round (combine round_constants ws) s).

Definition pad (l : bytes) : bytes :=
  let n := length l in
  l ++ [0x80] ++ replicate (Z.to_nat ((55 - Z.of_nat n) mod 64)) 0 ++ PutUint64 (8 * Z.of_nat n).

Fixpoint blocks (n : nat) (l : bytes) : list bytes :=
  match n with
  | O => []
  | S n' => take 64 l :: blocks n' (drop 64 l)
  end.

Definition digest_bytes (s : state) : bytes :=
  match s with
  | mk_state a b c d e f g h => concat (map PutUint32 [a; b; c; d; e; f; g; h])
  end.

Definition Sum256 (l : bytes) : bytes :=
  let p := pad l in
  digest_bytes (fold_left compress (blocks (length p / 64) p) initial_state).

Lemma length_Sum256 l : length (Sum256 l) = 32%nat.
Proof. unfold Sum256. by destruct (fold_left _ _ _). Qed.

Lemma Sum256_is_bytes l : is_bytes (Sum256 l).
Proof.
  unfold Sum256, is_bytes. destruct (fold_left _ _ _). apply Forall_concat. cbn [map].
  repeat (apply Forall_cons; split; [apply be_bytes_is_bytes|]). constructor.
Qed.

Arguments Sum256 l : simpl never.
#[global] Opaque Sum256.

(** The standard's test vector for the three bytes [abc]. *)
Example sha256_abc :
  Sum256 [0x61; 0x62; 0x63] =
  [0xba; 0x78; 0x16; 0xbf; 0x8f; 0x01; 0xcf; 0xea; 0x41; 0x41; 0x40; 0xde; 0x5d; 0xae; 0x22; 0x23;
   0xb0; 0x03; 0x61; 0xa3; 0x96; 0x17; 0x7a; 0x9c; 0xb4; 0x10; 0xff; 0x61; 0xf2; 0x00; 0x15; 0xad].
Proof. vm_compute. reflexivity. Qed.
