(* ===== verification/Errors.v ===== *)
(** The error values of types/errors.go.  A Go [error] is one of the package's
    sentinels, a fresh error of [fmt.Errorf] without [%w], or a wrapping one;
    [errors.Is] unwraps.  Functions that return [(T, error)] return a
    [result T]; functions that return only [error] return [option error] with
    [None] for [nil]. *)
From S2P Require Import Prelude.

Inductive error :=
  | ErrTxAlreadyExists | ErrTxValidationFailed
  | ErrMempoolFull | ErrWorkerBackpressure
  | ErrInvalidBatch | ErrBatchNotFound | ErrBatchTooLarge | ErrEmptyBatch | ErrBatchDigestMismatch
  | ErrInvalidHeader | ErrDuplicateHeader | ErrMissingParents | ErrInvalidParentRound
  | ErrHeaderTooFarAhead
  | ErrInvalidVote | ErrDuplicateVote | ErrVoteWrongHeader
  | ErrInvalidCertificate | ErrCertificateNotFound | ErrInsufficientQuorum
  | ErrInvalidSignature
  | ErrValidatorNotFound | ErrInvalidValidator | ErrEpochMismatch
  | ErrRoundMismatch | ErrRoundTooOld | ErrRoundNotAdvanced
  | ErrFlowControlPaused
  | ErrSyncRequired | ErrSyncTimeout | ErrSyncFailed
  | ErrNotRunning | ErrAlreadyRunning
  | Errorf (msg : string)
  | Wrapf (msg : string) (cause : error).

#[export] Instance error_eq_dec : EqDecision error.
Proof. solve_decision. Defined.

(** [errors.Is err target]: [target] occurs on the chain of causes. *)
Fixpoint errors_Is (err target : error) : bool :=
  bool_decide (err = target) ||
  match err with
  | Wrapf _ cause => errors_Is cause target
  | _ => false
  end.

Definition IsRetryable (err : error) : bool :=
  if errors_Is err ErrWorkerBackpressure then true
  else if errors_Is err ErrMempoolFull then true
  else if errors_Is err ErrFlowControlPaused then true
  else if errors_Is err ErrSyncTimeout then true
  else false.

Definition IsByzantine (err : error) : bool :=
  if errors_Is err ErrInvalidSignature then true
  else if errors_Is err ErrDuplicateHeader then true
  else if errors_Is err ErrDuplicateVote then true
  else if errors_Is err ErrInvalidBatch then true
  else if errors_Is err ErrInvalidHeader then true
  else if errors_Is err ErrInvalidVote then true
  else false.

Inductive result (A : Type) :=
  | Ok (a : A)
  | Err (e : error).
Arguments Ok {A} a.
Arguments Err {A} e.

#[export] Instance result_eq_dec {A} `{!EqDecision A} : EqDecision (result A).
Proof. solve_decision. Defined.

Definition is_Ok {A} (r : result A) : Prop := ∃ a, r = Ok a.

Definition result_bind {A B} (r : result A) (f : A → result B) : result B :=
  match r with Ok a => f a | Err e => Err e end.
Notation "'let?' x ':=' r 'in' k" := (result_bind r (λ x, k))
  (at level 10, x binder, r at level 100, k at level 200) : looseberry_scope.

(** The last error on a chain of wrappers. *)
Fixpoint root_cause (err : error) : error :=
  match err with
  | Wrapf _ cause => root_cause cause
  | _ => err
  end.

Definition is_wrapper (err : error) : bool :=
  match err with Wrapf _ _ => true | _ => false end.

Lemma errors_Is_root err target :
  is_wrapper target = false → errors_Is err target = bool_decide (root_cause err = target).
Proof.
  intros Ht. induction err; simpl; rewrite ?orb_false_r; try done.
  rewrite IHerr. rewrite bool_decide_eq_false_2; [done|].
  intros <-. done.
Qed.

(** The two classifications look at the root cause only, so wrapping an error
    never changes them, and no error is both retryable and Byzantine. *)
Lemma retryable_not_byzantine err : IsRetryable err && IsByzantine err = false.
Proof.
  unfold IsRetryable, IsByzantine. rewrite !errors_Is_root by done.
  repeat case_bool_decide; try done; congruence.
Qed.

Lemma classification_wrap msg err :
  IsRetryable (Wrapf msg err) = IsRetryable err ∧ IsByzantine (Wrapf msg err) = IsByzantine err.
Proof. unfold IsRetryable, IsByzantine. rewrite !errors_Is_root by done. done. Qed.
