(* ===== verification/Types.v ===== *)
(** The value types of the package types: hashes, signatures and keys
    (hash.go, signature.go), the signer (signer.go), transactions
    (transaction.go), batches (batch.go) and headers (header.go).

    Values are immutable in the model, so [Clone] is the identity and the
    fields a method assigns (a digest, a signature) are record updates.
    Ed25519 is a parameter with its documented contract, class [Ed25519];
    SHA-256 is the function of Sha256.v. *)
From S2P Require Import Prelude Bytes Sha256 Errors.
Local Open Scope Z_scope.

(** * hash.go *)
Definition HashSize : Z := 32.

Abbreviation Hash := bytes (only parsing).

Definition is_hash (h : Hash) : Prop := is_bytes h ∧ zlen h = HashSize.

#[export] Instance is_hash_dec h : Decision (is_hash h).
Proof. unfold is_hash; apply _. Defined.

Definition EmptyHash : Hash := replicate 32 0.

Definition Hash_String (h : Hash) : bytes := EncodeToString h.
Definition Hash_Equal (h other : Hash) : bool := bool_decide (h = other).
Definition Hash_IsEmpty (h : Hash) : bool := bool_decide (h = EmptyHash).
Definition MarshalText (h : Hash) : bytes := Hash_String h.

Definition HashFromBytes (b : bytes) : result Hash :=
  if bool_decide (zlen b ≠ HashSize) then Err (Errorf "invalid hash length") else Ok b.

Definition UnmarshalText (text : bytes) : result Hash :=
  match DecodeString text with
  | None => Err (Errorf "invalid hash hex")
  | Some decoded =>
      if bool_decide (zlen decoded ≠ HashSize) then Err (Errorf "invalid hash length") else Ok decoded
  end.

Definition HashFromHex (s : bytes) : result Hash :=
  match DecodeString s with
  | None => Err (Errorf "invalid hash hex")
  | Some decoded => HashFromBytes decoded
  end.

Definition HashBytes (data : bytes) : Hash := Sum256 data.
Definition HashConcat (left right : Hash) : Hash := Sum256 (left ++ right).

Lemma HashBytes_is_hash data : is_hash (HashBytes data).
Proof. split; [apply Sum256_is_bytes|]. unfold HashBytes. by rewrite length_Sum256. Qed.

Lemma hash_text_roundtrip h :
  is_hash h → UnmarshalText (MarshalText h) = Ok h ∧ HashFromHex (Hash_String h) = Ok h.
Proof.
  intros [Hb Hl]. unfold UnmarshalText, HashFromHex, MarshalText, Hash_String, HashFromBytes.
  rewrite decode_encode by done. rewrite bool_decide_eq_false_2 by lia. done.
Qed.

(** * signature.go and signer.go *)
Definition SignatureSize : Z := 64.
Definition PublicKeySize : Z := 32.
Definition PrivateKeySize : Z := 64.

Abbreviation Signature := bytes (only parsing).
Abbreviation PublicKey := bytes (only parsing).

Definition EmptySignature : Signature := replicate 64 0.
Definition EmptyPublicKey : PublicKey := replicate 32 0.

Definition Signature_IsEmpty (s : Signature) : bool := bool_decide (s = EmptySignature).
Definition Signature_Equal (s other : Signature) : bool := bool_decide (s = other).
Definition PublicKey_IsEmpty (pk : PublicKey) : bool := bool_decide (pk = EmptyPublicKey).

Definition SignatureFromBytes (b : bytes) : result Signature :=
  if bool_decide (zlen b ≠ SignatureSize) then Err (Errorf "invalid signature length") else Ok b.
Definition PublicKeyFromBytes (b : bytes) : result PublicKey :=
  if bool_decide (zlen b ≠ PublicKeySize) then Err (Errorf "invalid public key length") else Ok b.

(** The functions of [crypto/ed25519] the repository calls.  The law is the
    documented one: a signature made with a key generated from a seed verifies
    under the public key of that key. *)
Class Ed25519 := {
  NewKeyFromSeed : bytes → bytes;
  ed_Public : bytes → PublicKey;
  ed_Sign : bytes → bytes → Signature;
  ed_Verify : PublicKey → bytes → Signature → bool;
  ed_key_size seed : length seed = 32%nat → zlen (NewKeyFromSeed seed) = PrivateKeySize;
  ed_sign_verify seed msg :
    length seed = 32%nat →
    ed_Verify (ed_Public (NewKeyFromSeed seed)) msg (ed_Sign (NewKeyFromSeed seed) msg) = true
}.

(** The interface types.Signer. *)
Record Signer := mk_Signer {
  Sign : Hash → result Signature;
  Signer_PublicKey : PublicKey;
  Signer_ValidatorIndex : Z
}.

Section crypto.
Context `{Ed : Ed25519}.

Definition PublicKey_Verify (pk : PublicKey) (digest : Hash) (sig : Signature) : bool :=
  ed_Verify pk digest sig.

Definition NewEd25519Signer (privateKey : bytes) (validatorIndex : Z) : result Signer :=
  if bool_decide (zlen privateKey ≠ PrivateKeySize) then Err (Errorf "invalid private key size")
  else Ok {| Sign := λ digest, Ok (ed_Sign privateKey digest);
             Signer_PublicKey := ed_Public privateKey;
             Signer_ValidatorIndex := validatorIndex |}.

(** [GenerateEd25519Signer]: the random seed is an argument. *)
Definition GenerateEd25519Signer (seed : bytes) (validatorIndex : Z) : result Signer :=
  NewEd25519Signer (NewKeyFromSeed seed) validatorIndex.

(** A signer whose signatures verify under its own public key. *)
Definition good_signer (s : Signer) : Prop :=
  ∀ d, ∃ sig, Sign s d = Ok sig ∧ PublicKey_Verify (Signer_PublicKey s) d sig = true.

Lemma generated_signer_good seed idx :
  length seed = 32%nat →
  ∃ s, GenerateEd25519Signer seed idx = Ok s ∧ Signer_ValidatorIndex s = idx ∧ good_signer s.
Proof.
  intros Hs. unfold GenerateEd25519Signer, NewEd25519Signer.
  rewrite bool_decide_eq_false_2 by (rewrite ed_key_size by done; lia).
  eexists. split_and!; [done..|]. intros d. eexists. split; [done|]. by apply ed_sign_verify.
Qed.
End crypto.

(** A toy scheme that satisfies the contract, for evaluating closed examples:
    a signature is the public key followed by the message. *)
Definition toy_ed25519 : Ed25519.
Proof.
  refine {| NewKeyFromSeed := λ seed, seed ++ seed;
            ed_Public := λ sk, drop 32 sk;
            ed_Sign := λ sk m, drop 32 sk ++ m;
            ed_Verify := λ pk m sig, bool_decide (sig = pk ++ m) |}.
  - intros seed Hs. rewrite length_app, Hs. done.
  - intros seed m Hs. by apply bool_decide_eq_true.
Defined.

(** * transaction.go *)
Abbreviation Transaction := bytes (only parsing).
Definition Tx_Hash (tx : Transaction) : Hash := HashBytes tx.
Definition Tx_Size (tx : Transaction) : Z := zlen tx.
Definition Tx_IsEmpty (tx : Transaction) : bool := bool_decide (zlen tx = 0).

(** [Equal]: lengths first, then an index loop. *)
Fixpoint Tx_Equal_loop (tx other : Transaction) : bool :=
  match tx, other with
  | x :: tx', y :: other' => if bool_decide (x ≠ y) then false else Tx_Equal_loop tx' other'
  | _, _ => true
  end.
Definition Tx_Equal (tx other : Transaction) : bool :=
  if bool_decide (zlen tx ≠ zlen other) then false else Tx_Equal_loop tx other.

Lemma Tx_Equal_spec tx other : Tx_Equal tx other = bool_decide (tx = other).
Proof.
  unfold Tx_Equal. case_bool_decide as Hl; [by rewrite bool_decide_eq_false_2 by congruence|].
  assert (length tx = length other) as Hl' by lia. clear Hl.
  revert other Hl'. induction tx as [|x tx IH]; intros [|y other] Hl'; simpl in *; try done.
  case_bool_decide as Hxy; [by rewrite bool_decide_eq_false_2 by congruence|].
  rewrite IH by lia. apply bool_decide_ext. naive_solver.
Qed.
