(* ===== verification/Batch.v ===== *)
(** Batches of transactions (types/batch.go). *)
From S2P Require Import Prelude Bytes Sha256 Errors Types.
Local Open Scope Z_scope.

Record BatchDigest := mk_BatchDigest {
  BD_Digest : Hash;
  BD_WorkerID : Z;
  BD_ValidatorID : Z
}.

#[export] Instance BatchDigest_eq_dec : EqDecision BatchDigest.
Proof. solve_decision. Defined.

Record Batch := mk_Batch {
  WorkerID : Z;
  ValidatorID : Z;
  Batch_Round : Z;
  Transactions : list Transaction;
  Batch_Digest : Hash;
  Batch_Timestamp : Z
}.

#[export] Instance Batch_eq_dec : EqDecision Batch.
Proof. solve_decision. Defined.
#[export] Instance eta_Batch : Settable Batch := λ b,
  mk_Batch (WorkerID b) (ValidatorID b) (Batch_Round b) (Transactions b) (Batch_Digest b)
    (Batch_Timestamp b).

(** The bytes [ComputeDigest] hashes. *)
Definition Batch_preimage (b : Batch) : bytes :=
  PutUint16 (WorkerID b) ++ PutUint16 (ValidatorID b) ++ PutUint64 (Batch_Round b) ++
  PutUint64 (u64 (Batch_Timestamp b)) ++ concat (map Tx_Hash (Transactions b)).

Definition Batch_ComputeDigest (b : Batch) : Hash := HashBytes (Batch_preimage b).

(** [NewBatch]; [now] is [time.Now().UnixNano()]. *)
Definition NewBatch (workerID validatorID round : Z) (txs : list Transaction) (now : Z) : Batch :=
  let b := {| WorkerID := workerID; ValidatorID := validatorID; Batch_Round := round;
              Transactions := txs; Batch_Digest := EmptyHash; Batch_Timestamp := now |} in
  b <| Batch_Digest := Batch_ComputeDigest b |>.

Definition Batch_Size (b : Batch) : Z :=
  fold_left (λ total tx, total + Tx_Size tx) (Transactions b) 0.

Definition TxCount (b : Batch) : Z := zlen (Transactions b).
Definition Batch_IsEmpty (b : Batch) : bool := bool_decide (zlen (Transactions b) = 0).

Definition GetDigest (b : Batch) : BatchDigest :=
  {| BD_Digest := Batch_Digest b; BD_WorkerID := WorkerID b; BD_ValidatorID := ValidatorID b |}.

Definition Batch_Verify (b : Batch) : bool := Hash_Equal (Batch_Digest b) (Batch_ComputeDigest b).

(** The ranges of the Go field types. *)
Definition wf_Batch (b : Batch) : Prop :=
  is_u16 (WorkerID b) ∧ is_u16 (ValidatorID b) ∧ is_u64 (Batch_Round b) ∧ is_i64 (Batch_Timestamp b).

#[export] Instance wf_Batch_dec b : Decision (wf_Batch b).
Proof. unfold wf_Batch; apply _. Defined.

(** Everything about the batch but its digest field. *)
Definition same_content (b1 b2 : Batch) : Prop :=
  WorkerID b1 = WorkerID b2 ∧ ValidatorID b1 = ValidatorID b2 ∧ Batch_Round b1 = Batch_Round b2 ∧
  Batch_Timestamp b1 = Batch_Timestamp b2 ∧ Transactions b1 = Transactions b2.

(** What is hashed for a batch: its preimage and its transactions. *)
Definition hashed (b : Batch) : list bytes := Batch_preimage b :: Transactions b.

Lemma NewBatch_Verify w v r txs now : Batch_Verify (NewBatch w v r txs now) = true.
Proof. unfold Batch_Verify, Hash_Equal. by apply bool_decide_eq_true. Qed.

Lemma Batch_preimage_inj b1 b2 :
  wf_Batch b1 → wf_Batch b2 → Batch_preimage b1 = Batch_preimage b2 →
  WorkerID b1 = WorkerID b2 ∧ ValidatorID b1 = ValidatorID b2 ∧ Batch_Round b1 = Batch_Round b2 ∧
  Batch_Timestamp b1 = Batch_Timestamp b2 ∧
  map Tx_Hash (Transactions b1) = map Tx_Hash (Transactions b2).
Proof.
  intros (?&?&?&?) (?&?&?&?) E. unfold Batch_preimage, PutUint16, PutUint64 in E.
  repeat (apply be_app_inj in E as [?E E]).
  split_and!; [by apply PutUint16_inj.. | by apply PutUint64_inj | |].
  - apply u64_i64_inj; auto. apply PutUint64_inj; auto using wrap_fits with lia.
  - eapply (concat_inj 32); try done; try lia;
      apply Forall_forall; intros ? (?&<-&_)%list_elem_of_In%in_map_iff; apply length_Sum256.
Qed.

(** Equal lists of hashes come from equal lists, or two elements collide. *)
Lemma map_hash_inj (l1 l2 : list Transaction) :
  map Tx_Hash l1 = map Tx_Hash l2 →
  l1 = l2 ∨ ∃ x y, x ∈ l1 ∧ y ∈ l2 ∧ x ≠ y ∧ Sum256 x = Sum256 y.
Proof.
  revert l2. induction l1 as [|x l1 IH]; intros [|y l2] E; simplify_eq/=; [by left|].
  destruct (decide (x = y)) as [->|Hne].
  - destruct (IH _ H0) as [->|(x'&y'&?&?&?)]; [by left|right].
    exists x', y'. split_and!; [by right..|naive_solver|naive_solver].
  - right. exists x, y. split_and!; [left|left|done|exact H].
Qed.

Lemma digest_binding_lemma b1 b2 :
  wf_Batch b1 → wf_Batch b2 → Batch_ComputeDigest b1 = Batch_ComputeDigest b2 →
  same_content b1 b2 ∨
  ∃ x y, x ∈ hashed b1 ∧ y ∈ hashed b2 ∧ x ≠ y ∧ Sum256 x = Sum256 y.
Proof.
  intros W1 W2 E. destruct (decide (Batch_preimage b1 = Batch_preimage b2)) as [Ep|Hne].
  - destruct (Batch_preimage_inj b1 b2 W1 W2 Ep) as (?&?&?&?&Et).
    destruct (map_hash_inj _ _ Et) as [Htx|(x&y&?&?&?)]; [left; by repeat split|right].
    exists x, y. split_and!; [by right..|naive_solver|naive_solver].
  - right. exists (Batch_preimage b1), (Batch_preimage b2). split_and!; [left|left|done|exact E].
Qed.

(** C31. A batch digest binds the batch: two batches whose recomputed digests
    are equal have the same worker, validator, round, timestamp and
    transactions, unless two of the byte strings hashed for them are a SHA-256
    collision. *)
Theorem batch_digest_binding b1 b2 :
  wf_Batch b1 → wf_Batch b2 → Batch_Verify b1 = true → Batch_Verify b2 = true →
  Batch_Digest b1 = Batch_Digest b2 →
  b1 = b2 ∨ ∃ x y, x ∈ hashed b1 ∧ y ∈ hashed b2 ∧ x ≠ y ∧ Sum256 x = Sum256 y.
Proof.
  unfold Batch_Verify, Hash_Equal. rewrite !bool_decide_eq_true. intros W1 W2 V1 V2 E.
  rewrite V1, V2 in E. destruct (digest_binding_lemma b1 b2 W1 W2 E) as [(?&?&?&?&?)|?]; [left|by right].
  destruct b1, b2; simplify_eq/=. by rewrite V1, V2, E.
Qed.

Lemma batch_digest_binding_witness :
  let b := NewBatch 1 2 3 [[7; 8]] 1000 in
  wf_Batch b ∧ (b = b ∨ ∃ x y, x ∈ hashed b ∧ y ∈ hashed b ∧ x ≠ y ∧ Sum256 x = Sum256 y).
Proof.
  assert (wf_Batch (NewBatch 1 2 3 [[7; 8]] 1000)) as W by decided.
  split; [exact W|].
  apply batch_digest_binding; [exact W | exact W | apply NewBatch_Verify | apply NewBatch_Verify | reflexivity].
Defined.
