(* ===== verification/Header.v ===== *)
(** Headers, the vertex proposals of the DAG (types/header.go). *)
From S2P Require Import Prelude Bytes Sha256 Errors Types Batch.
Local Open Scope Z_scope.

Record CertificateRef := mk_CertificateRef {
  CR_Digest : Hash;
  CR_Round : Z
}.

#[export] Instance CertificateRef_eq_dec : EqDecision CertificateRef.
Proof. solve_decision. Defined.

Record Header := mk_Header {
  Author : Z;
  Round : Z;
  Epoch : Z;
  BatchRefs : list BatchDigest;
  Parents : list CertificateRef;
  Timestamp : Z;
  Digest : Hash;
  HSignature : Signature
}.

#[export] Instance Header_eq_dec : EqDecision Header.
Proof. solve_decision. Defined.
#[export] Instance eta_Header : Settable Header := λ h,
  mk_Header (Author h) (Round h) (Epoch h) (BatchRefs h) (Parents h) (Timestamp h) (Digest h)
    (HSignature h).

(** Go's [<] on strings. *)
Fixpoint String_less (a b : bytes) : bool :=
  match a, b with
  | _, [] => false
  | [], _ :: _ => true
  | x :: a', y :: b' =>
      if bool_decide (x < y) then true
      else if bool_decide (y < x) then false
      else String_less a' b'
  end.

Definition ref_less (r1 r2 : BatchDigest) : bool :=
  String_less (Hash_String (BD_Digest r1)) (Hash_String (BD_Digest r2)).

Definition ref_bytes (r : BatchDigest) : bytes :=
  BD_Digest r ++ PutUint16 (BD_WorkerID r) ++ PutUint16 (BD_ValidatorID r).

Definition parent_bytes (p : CertificateRef) : bytes := CR_Digest p ++ PutUint64 (CR_Round p).

(** The bytes [ComputeDigest] hashes: batch references sorted by digest,
    parents in the order given. *)
Definition Header_preimage (h : Header) : bytes :=
  PutUint16 (Author h) ++ PutUint64 (Round h) ++ PutUint64 (Epoch h) ++
  PutUint64 (u64 (Timestamp h)) ++
  concat (map ref_bytes (sort_slice ref_less (BatchRefs h))) ++
  concat (map parent_bytes (Parents h)).

Definition Header_ComputeDigest (h : Header) : Hash := HashBytes (Header_preimage h).

(** [NewHeader]; [now] is [time.Now().UnixNano()]. *)
Definition NewHeader (author round epoch : Z) (batchRefs : list BatchDigest)
    (parents : list CertificateRef) (now : Z) : Header :=
  let h := {| Author := author; Round := round; Epoch := epoch; BatchRefs := batchRefs;
              Parents := parents; Timestamp := now; Digest := EmptyHash;
              HSignature := EmptySignature |} in
  h <| Digest := Header_ComputeDigest h |>.

Definition Header_Sign (h : Header) (signer : Signer) : result Header :=
  let? sig := Sign signer (Digest h) in Ok (h <| HSignature := sig |>).

Definition Header_Verify `{Ed25519} (h : Header) (pk : PublicKey) : bool :=
  PublicKey_Verify pk (Digest h) (HSignature h).

Definition Header_IsSigned (h : Header) : bool := negb (Signature_IsEmpty (HSignature h)).
Definition ParentCount (h : Header) : Z := zlen (Parents h).
Definition BatchCount (h : Header) : Z := zlen (BatchRefs h).
Definition Header_IsEmpty (h : Header) : bool := bool_decide (zlen (BatchRefs h) = 0).

(** ** The order on digests *)
Lemma String_less_asym a b : String_less a b = true → String_less b a = false.
Proof.
  revert b. induction a as [|x a IH]; intros [|y b]; simpl; try done.
  repeat case_bool_decide; try lia; try done. apply IH.
Qed.

Lemma String_less_trans_not a b c :
  String_less b a = false → String_less c b = false → String_less c a = false.
Proof.
  revert b c. induction a as [|x a IH]; intros [|y b] [|z c]; simpl; try done.
  repeat case_bool_decide; try lia; try done. apply IH.
Qed.

Lemma String_less_total a b : String_less a b = false → String_less b a = false → a = b.
Proof.
  revert b. induction a as [|x a IH]; intros [|y b]; simpl; try done.
  repeat case_bool_decide; try lia; try done. intros.
  assert (x = y) as -> by lia. f_equal. by apply IH.
Qed.

#[export] Instance ref_less_strict : StrictWeak ref_less.
Proof.
  split; intros *; [apply String_less_asym | apply String_less_trans_not].
Qed.

Lemma Hash_String_inj h1 h2 :
  is_bytes h1 → is_bytes h2 → Hash_String h1 = Hash_String h2 → h1 = h2.
Proof. intros ?? E%(f_equal DecodeString). unfold Hash_String in E. rewrite !decode_encode in E; congruence. Qed.

(** The references of a header name their batches: digests are bytes, and a
    digest occurs with one worker and validator only. *)
Definition refs_ok (refs : list BatchDigest) : Prop :=
  (∀ r, r ∈ refs → is_bytes (BD_Digest r)) ∧
  (∀ r1 r2, r1 ∈ refs → r2 ∈ refs → BD_Digest r1 = BD_Digest r2 → r1 = r2).

Lemma sort_refs_perm refs refs' :
  refs' ≡ₚ refs → refs_ok refs → sort_slice ref_less refs' = sort_slice ref_less refs.
Proof.
  intros Hp [Hb Hu]. apply sort_slice_unique; [apply _| | apply sort_slice_sorted, _ |].
  - by rewrite sort_slice_perm.
  - intros r1 r2 H1 H2 L1 L2. apply Hu; auto. apply Hash_String_inj; auto.
    by apply String_less_total.
Qed.

(** The header digest does not depend on the order in which the batch
    references were collected. *)
Theorem header_digest_order_independent h refs :
  refs ≡ₚ BatchRefs h → refs_ok (BatchRefs h) →
  Header_ComputeDigest (h <| BatchRefs := refs |>) = Header_ComputeDigest h.
Proof.
  intros Hp Hok. unfold Header_ComputeDigest, Header_preimage. cbn.
  by rewrite (sort_refs_perm _ _ Hp Hok).
Qed.

Lemma header_digest_order_independent_witness :
  let r1 := mk_BatchDigest [1; 2] 0 3 in
  let r2 := mk_BatchDigest [0; 9] 1 3 in
  let h := NewHeader 1 5 0 [r1; r2] [] 7 in
  Header_ComputeDigest (h <| BatchRefs := [r2; r1] |>) = Header_ComputeDigest h.
Proof.
  apply header_digest_order_independent; [apply perm_swap|].
  split.
  - intros r [->|[->|[]%not_elem_of_nil]%elem_of_cons]%elem_of_cons;
      repeat constructor; vm_compute; congruence.
  - intros r1 r2 [->|[->|[]%not_elem_of_nil]%elem_of_cons]%elem_of_cons
      [->|[->|[]%not_elem_of_nil]%elem_of_cons]%elem_of_cons; simpl; congruence.
Defined.

(** ** Ambiguity of the header preimage

    A batch reference is 36 bytes and a parent reference 40 bytes, and neither
    list is preceded by its length, so the same bytes can be cut both ways. *)
Definition wf_ref (r : BatchDigest) : Prop :=
  is_hash (BD_Digest r) ∧ is_u16 (BD_WorkerID r) ∧ is_u16 (BD_ValidatorID r).
Definition wf_parent (p : CertificateRef) : Prop := is_hash (CR_Digest p) ∧ is_u64 (CR_Round p).

#[export] Instance wf_ref_dec r : Decision (wf_ref r).
Proof. unfold wf_ref; apply _. Defined.

Fixpoint read_parents (n : nat) (l : bytes) : list CertificateRef :=
  match n with
  | O => []
  | S n' => mk_CertificateRef (take 32 l) (be_val (take 8 (drop 32 l))) :: read_parents n' (drop 40 l)
  end.

Lemma length_read_parents n l : length (read_parents n l) = n.
Proof. revert l. induction n; intros; simpl; auto. Qed.

Lemma read_parents_ok n l :
  is_bytes l → length l = (40 * n)%nat →
  Forall wf_parent (read_parents n l) ∧ concat (map parent_bytes (read_parents n l)) = l.
Proof.
  revert l. induction n as [|n IH]; intros l Hb Hl.
  - destruct l; [by split; [constructor|]|simpl in Hl; lia].
  - cbn [read_parents map concat]. destruct (IH (drop 40 l)) as [IH1 IH2].
    { by apply Forall_drop. }
    { rewrite length_drop. lia. }
    assert (length (take 8 (drop 32 l)) = 8%nat) as L8 by (rewrite length_take, length_drop; lia).
    assert (is_bytes (take 8 (drop 32 l))) as B8 by (by apply Forall_take, Forall_drop).
    split.
    + constructor; [|done]. split; cbn.
      * split; [by apply Forall_take | unfold HashSize; rewrite length_take; lia].
      * pose proof (be_val_bound _ B8) as Hv. rewrite L8 in Hv. exact Hv.
    + rewrite IH2. unfold parent_bytes. cbn [CR_Digest CR_Round]. unfold PutUint64.
      pose proof (be_bytes_val _ B8) as E8. rewrite L8 in E8. rewrite E8, <-app_assoc.
      replace (drop 40 l) with (drop 8 (drop 32 l)) by (rewrite drop_drop; f_equal; lia).
      by rewrite !take_drop.
Qed.

Lemma refs_bytes_ok (refs : list BatchDigest) :
  Forall wf_ref refs →
  is_bytes (concat (map ref_bytes refs)) ∧ length (concat (map ref_bytes refs)) = (36 * length refs)%nat.
Proof.
  induction 1 as [|r refs ((Hb&Hl)&_) Hrefs [IH1 IH2]]; [by split; [constructor|]|].
  cbn [map concat]. unfold HashSize in Hl. split.
  - apply Forall_app. split; [|done]. unfold ref_bytes, PutUint16.
    rewrite !Forall_app. split_and!; [exact Hb | apply be_bytes_is_bytes..].
  - rewrite length_app, IH2. unfold ref_bytes, PutUint16.
    rewrite !length_app, !length_be_bytes. simpl. lia.
Qed.

(** The header digest does not bind the header: every well-formed header
    with ten batch references and no parents has the same digest as a
    well-formed header with no batch references and nine parents, all other
    hashed fields equal.  No property of SHA-256 is involved. *)
Theorem header_digest_ambiguous h :
  Forall wf_ref (BatchRefs h) → length (BatchRefs h) = 10%nat → Parents h = [] →
  ∃ parents, Forall wf_parent parents ∧ length parents = 9%nat ∧
    Header_ComputeDigest (h <| BatchRefs := [] |> <| Parents := parents |>) = Header_ComputeDigest h.
Proof.
  intros Hwf Hlen Hp.
  assert (Forall wf_ref (sort_slice ref_less (BatchRefs h))) as Hwf' by by rewrite sort_slice_perm.
  destruct (refs_bytes_ok _ Hwf') as [Hb Hl]. rewrite length_sort_slice, Hlen in Hl.
  destruct (read_parents_ok 9 _ Hb Hl) as [Hok Hcat].
  eexists. split_and!; [exact Hok | apply length_read_parents |].
  unfold Header_ComputeDigest, Header_preimage. cbn. rewrite Hp. cbn in Hcat |- *.
  rewrite Hcat, app_nil_r. done.
Qed.

Lemma header_digest_ambiguous_witness :
  let refs := map (λ i, mk_BatchDigest (replicate 32 i) 1 2) (seqZ 0 10) in
  ∃ parents, Forall wf_parent parents ∧ length parents = 9%nat ∧
    Header_ComputeDigest ((NewHeader 0 0 0 refs [] 0) <| BatchRefs := [] |> <| Parents := parents |>)
    = Header_ComputeDigest (NewHeader 0 0 0 refs [] 0).
Proof.
  apply header_digest_ambiguous; [decided | reflexivity..].
Defined.
