(* ===== verification/BitSet.v ===== *)
(** The signer mask of a certificate: [BitSet] of types/certificate.go, a slice
    of 64-bit words, and the bit count by Kernighan's loop. *)
From S2P Require Import Prelude.
Local Open Scope Z_scope.

Abbreviation BitSet := (list Z) (only parsing).

Definition NewBitSet (n : Z) : BitSet := replicate (Z.to_nat (Z.quot (n + 63) 64)) 0.

(** [bs[word]], where [word] was checked against the length. *)
Definition word_at (bs : BitSet) (word : Z) : Z := default 0 (bs !! Z.to_nat word).

Definition BitSet_Set (bs : BitSet) (i : Z) : BitSet :=
  let word := Z.quot i 64 in
  let bit := Z.rem i 64 in
  if bool_decide (word < zlen bs)
  then <[Z.to_nat word := Z.lor (word_at bs word) (u64 (Z.shiftl 1 bit))]> bs
  else bs.

Definition BitSet_Clear (bs : BitSet) (i : Z) : BitSet :=
  let word := Z.quot i 64 in
  let bit := Z.rem i 64 in
  if bool_decide (word < zlen bs)
  then <[Z.to_nat word := Z.ldiff (word_at bs word) (u64 (Z.shiftl 1 bit))]> bs
  else bs.

Definition BitSet_IsSet (bs : BitSet) (i : Z) : bool :=
  let word := Z.quot i 64 in
  let bit := Z.rem i 64 in
  if bool_decide (word >= zlen bs) then false
  else bool_decide (Z.land (word_at bs word) (u64 (Z.shiftl 1 bit)) ≠ 0).

(** [popCount]: [x &= x - 1] until [x] is 0.  [fuel] bounds the iterations;
    [popCount_loop_enough] shows that 64 always suffice. *)
Fixpoint popCount_loop (fuel : nat) (x count : Z) : option Z :=
  if bool_decide (x = 0) then Some count
  else match fuel with
       | O => None
       | S fuel' => popCount_loop fuel' (Z.land x (u64 (x - 1))) (count + 1)
       end.

Definition popCount (x : Z) : Z := default 0 (popCount_loop 64 x 0).

Definition BitSet_Count (bs : BitSet) : Z :=
  fold_left (λ count word, count + popCount word) bs 0.

(** ** Kernighan's loop counts the set bits *)

(** The reference: the number of positions whose bit is set. *)
Definition bits_set (n : nat) (x : Z) : Z :=
  count_if (Z.testbit x) (seqZ 0 (Z.of_nat n)).

Fixpoint pop_spec (n : nat) (x : Z) : Z :=
  match n with
  | O => 0
  | S n' => Z.b2z (Z.odd x) + pop_spec n' (Z.div2 x)
  end.

Lemma land_pred_even y : Z.land (2 * y) (2 * y - 1) = 2 * Z.land y (y - 1).
Proof.
  replace (2 * y - 1) with (2 * (y - 1) + 1) by lia.
  apply Z.bits_inj'. intros n Hn. rewrite Z.land_spec.
  destruct (decide (n = 0)) as [->|].
  - rewrite !Z.testbit_even_0. done.
  - replace n with (Z.succ (n - 1)) by lia.
    rewrite !Z.testbit_even_succ, Z.testbit_odd_succ, Z.land_spec by lia. done.
Qed.

Lemma land_pred_odd y : Z.land (2 * y + 1) (2 * y + 1 - 1) = 2 * y.
Proof.
  replace (2 * y + 1 - 1) with (2 * y) by lia.
  apply Z.bits_inj'. intros n Hn. rewrite Z.land_spec.
  destruct (decide (n = 0)) as [->|].
  - rewrite Z.testbit_even_0, andb_false_r. done.
  - replace n with (Z.succ (n - 1)) by lia.
    rewrite !Z.testbit_even_succ, Z.testbit_odd_succ by lia. by rewrite andb_diag.
Qed.

Lemma div2_cases x : ∃ y, (x = 2 * y ∨ x = 2 * y + 1) ∧ Z.div2 x = y.
Proof.
  exists (Z.div2 x). split; [|done]. pose proof (Z.div2_odd x). destruct (Z.odd x); simpl in *; lia.
Qed.

Lemma pop_spec_even n y : pop_spec (S n) (2 * y) = pop_spec n y.
Proof. cbn [pop_spec]. rewrite Z.odd_even, Z.div2_div. rewrite Z.mul_comm, Z.div_mul by lia. simpl. lia. Qed.

Lemma pop_spec_odd n y : pop_spec (S n) (2 * y + 1) = 1 + pop_spec n y.
Proof. cbn [pop_spec]. rewrite Z.odd_odd, Z.div2_div. rewrite (Z.mul_comm 2), Z.div_add_l, Z.add_0_r by lia. simpl. lia. Qed.

Lemma pop_spec_0 n : pop_spec n 0 = 0.
Proof. induction n as [|n IH]; [done|]. cbn [pop_spec Z.odd Z.div2 Z.b2z]. lia. Qed.

(** Clearing the lowest set bit removes one. *)
Lemma pop_spec_clear n x :
  0 < x < 2 ^ Z.of_nat n → pop_spec n (Z.land x (x - 1)) = pop_spec n x - 1.
Proof.
  revert x. induction n as [|n IH]; intros x Hx; [simpl in *; lia|].
  rewrite Nat2Z.inj_succ, Z.pow_succ_r in Hx by lia.
  destruct (div2_cases x) as (y&[->| ->]&_).
  - rewrite land_pred_even, !pop_spec_even. apply IH. lia.
  - rewrite land_pred_odd, pop_spec_even, pop_spec_odd. lia.
Qed.

Lemma pop_spec_range n x : 0 ≤ pop_spec n x ≤ Z.of_nat n.
Proof.
  revert x. induction n as [|n IH]; intros x; [done|]. cbn [pop_spec].
  specialize (IH (Z.div2 x)). destruct (Z.odd x); simpl; lia.
Qed.

Lemma pop_spec_pos n x : 0 < x < 2 ^ Z.of_nat n → 0 < pop_spec n x.
Proof.
  revert x. induction n as [|n IH]; intros x Hx; [simpl in *; lia|].
  rewrite Nat2Z.inj_succ, Z.pow_succ_r in Hx by lia.
  destruct (div2_cases x) as (y&[->| ->]&_).
  - rewrite pop_spec_even. apply IH. lia.
  - rewrite pop_spec_odd. pose proof (pop_spec_range n y). lia.
Qed.

Lemma land_fits w x y : 0 ≤ w → fits w x → fits w (Z.land x y).
Proof.
  intros Hw Hx. enough (Z.land x y = Z.land x y mod 2 ^ w) as -> by by apply wrap_fits.
  rewrite <-Z.land_ones by done. rewrite <-Z.land_assoc, (Z.land_comm y), Z.land_assoc.
  rewrite Z.land_ones by done. unfold fits in Hx. by rewrite Z.mod_small.
Qed.

Lemma lor_fits w x y : 0 ≤ w → fits w x → fits w y → fits w (Z.lor x y).
Proof.
  intros Hw Hx Hy. enough (Z.lor x y = Z.lor x y mod 2 ^ w) as -> by by apply wrap_fits.
  rewrite <-Z.land_ones by done. rewrite Z.land_lor_distr_l, !Z.land_ones by done.
  unfold fits in *. by rewrite !Z.mod_small.
Qed.

Lemma popCount_loop_enough fuel x c :
  is_u64 x → pop_spec 64 x ≤ Z.of_nat fuel →
  popCount_loop fuel x c = Some (c + pop_spec 64 x).
Proof.
  revert x c. induction fuel as [|fuel IH]; intros x c Hx Hf; cbn [popCount_loop];
    (case_bool_decide as H0; [subst; rewrite pop_spec_0; f_equal; lia|]);
    (assert (0 < x < 2 ^ Z.of_nat 64) as Hx' by (unfold fits in Hx; change (Z.of_nat 64) with 64; lia));
    pose proof (pop_spec_pos 64 x Hx'); [lia|].
  rewrite wrap_id by (unfold fits in *; lia).
  pose proof (pop_spec_clear 64 x Hx') as Hc.
  rewrite IH; [f_equal; lia| |lia]. by apply land_fits.
Qed.

Lemma pop_spec_bits n x : pop_spec n x = bits_set n x.
Proof.
  unfold bits_set. revert x. induction n as [|n IH]; intros x; [done|].
  rewrite Nat2Z.inj_succ, seqZ_cons, Z.pred_succ by lia. cbn [pop_spec count_if].
  rewrite IH, Z.bit0_odd. f_equal.
  rewrite <-(fmap_add_seqZ 1 0), count_if_fmap. apply count_if_ext.
  intros i Hi%elem_of_seqZ. cbn. rewrite Z.div2_spec, Z.shiftr_spec by lia. f_equal. lia.
Qed.

Lemma popCount_bits x : is_u64 x → popCount x = bits_set 64 x.
Proof.
  intros Hx. unfold popCount. pose proof (pop_spec_range 64 x).
  rewrite popCount_loop_enough by (auto; lia). cbn [default from_option id]. apply pop_spec_bits.
Qed.

(** ** Set and IsSet *)
Definition wf_BitSet (bs : BitSet) : Prop := Forall (fits 64) bs.

Lemma bit_mask b : 0 ≤ b < 64 → u64 (Z.shiftl 1 b) = 2 ^ b.
Proof.
  intros Hb. rewrite Z.shiftl_1_l. apply wrap_id. unfold fits.
  split; [apply Z.pow_nonneg; lia|]. apply Z.pow_lt_mono_r; lia.
Qed.

Lemma land_bit_testbit x b :
  0 ≤ b → bool_decide (Z.land x (2 ^ b) ≠ 0) = Z.testbit x b.
Proof.
  intros Hb. destruct (Z.testbit x b) eqn:E.
  - apply bool_decide_eq_true. intros H0%(f_equal (λ z, Z.testbit z b)).
    rewrite Z.land_spec, E, Z.pow2_bits_true, Z.bits_0 in H0 by done. done.
  - apply bool_decide_eq_false. intros []. apply Z.bits_inj'. intros n Hn.
    rewrite Z.land_spec, Z.bits_0. destruct (decide (n = b)) as [->|]; [by rewrite E|].
    by rewrite Z.pow2_bits_false, andb_false_r by congruence.
Qed.

(** A bit is set when its word is in range and has it. *)
Lemma IsSet_testbit bs i :
  0 ≤ i → BitSet_IsSet bs i =
    bool_decide (i / 64 < zlen bs) && Z.testbit (word_at bs (i / 64)) (i mod 64).
Proof.
  intros Hi. unfold BitSet_IsSet. rewrite Z.quot_div_nonneg, Z.rem_mod_nonneg by lia.
  pose proof (Z.mod_pos_bound i 64 ltac:(lia)).
  rewrite bit_mask, land_bit_testbit by lia.
  case_bool_decide; case_bool_decide; try lia; done.
Qed.

Lemma length_Set bs i : length (BitSet_Set bs i) = length bs.
Proof. unfold BitSet_Set. case_bool_decide; [apply length_insert|done]. Qed.

Lemma wf_Set bs i : 0 ≤ i → wf_BitSet bs → wf_BitSet (BitSet_Set bs i).
Proof.
  intros Hi Hbs. unfold BitSet_Set. case_bool_decide; [|done].
  apply Forall_insert; [done|].
  assert (is_u64 (word_at bs (Z.quot i 64))) as Hw.
  { unfold word_at. destruct (bs !! _) as [w|] eqn:E; [|done].
    unfold wf_BitSet in Hbs. rewrite Forall_lookup in Hbs. by apply Hbs in E. }
  by apply lor_fits; [|apply Hw|apply wrap_fits].
Qed.

Lemma div_mod_eq i j : i / 64 = j / 64 → i mod 64 = j mod 64 → i = j.
Proof. intros. rewrite (Z.div_mod i 64), (Z.div_mod j 64) by lia. congruence. Qed.

Lemma IsSet_Set bs i j :
  0 ≤ i → 0 ≤ j →
  BitSet_IsSet (BitSet_Set bs i) j =
    BitSet_IsSet bs j || (bool_decide (i = j) && bool_decide (i / 64 < zlen bs)).
Proof.
  intros Hi Hj. rewrite !IsSet_testbit, length_Set by done. unfold BitSet_Set.
  rewrite Z.quot_div_nonneg, Z.rem_mod_nonneg by lia.
  pose proof (Z.mod_pos_bound i 64 ltac:(lia)). pose proof (Z.mod_pos_bound j 64 ltac:(lia)).
  assert (0 ≤ i / 64) by (apply Z.div_pos; lia). assert (0 ≤ j / 64) by (apply Z.div_pos; lia).
  rewrite bit_mask by lia.
  destruct (decide (i / 64 < zlen bs)) as [Hw|Hw].
  2:{ rewrite !(bool_decide_eq_false_2 (i / 64 < _)) by done. by rewrite andb_false_r, orb_false_r. }
  rewrite !(bool_decide_eq_true_2 (i / 64 < _)) by done. rewrite andb_true_r.
  destruct (decide (j / 64 < zlen bs)) as [Hv|Hv].
  2:{ rewrite !(bool_decide_eq_false_2 (j / 64 < _)) by done.
      rewrite bool_decide_eq_false_2; [done|]. by intros ->. }
  rewrite !(bool_decide_eq_true_2 (j / 64 < _)) by done. simpl.
  unfold word_at. destruct (decide (i / 64 = j / 64)) as [E|E].
  - rewrite E, list_lookup_insert_eq by lia. cbn [default from_option id].
    rewrite Z.lor_spec. f_equal. destruct (decide (i mod 64 = j mod 64)) as [E'|E'].
    + rewrite E', Z.pow2_bits_true by lia. by rewrite bool_decide_eq_true_2 by by apply div_mod_eq.
    + rewrite Z.pow2_bits_false by done. rewrite bool_decide_eq_false_2; [done|]. by intros ->.
  - rewrite list_lookup_insert_ne by (intros ?%Z2Nat.inj; lia).
    rewrite bool_decide_eq_false_2 by by intros ->. by rewrite orb_false_r.
Qed.

Lemma IsSet_cons_lt w bs i : 0 ≤ i < 64 → BitSet_IsSet (w :: bs) i = Z.testbit w i.
Proof.
  intros Hi. rewrite IsSet_testbit, Z.div_small, Z.mod_small by lia.
  rewrite bool_decide_eq_true_2 by (simpl; lia). done.
Qed.

Lemma IsSet_cons_ge w bs i : 0 ≤ i → BitSet_IsSet (w :: bs) (64 + i) = BitSet_IsSet bs i.
Proof.
  intros Hi. rewrite !IsSet_testbit by lia. assert (0 ≤ i / 64) by (apply Z.div_pos; lia).
  replace ((64 + i) / 64) with (1 + i / 64) by (rewrite <-(Z.div_add_l 1 64 i) by lia; f_equal; lia).
  replace ((64 + i) mod 64) with (i mod 64)
    by (rewrite <-(Z.mod_add i 1 64) by lia; f_equal; lia).
  f_equal.
  - apply bool_decide_ext. cbn [length]. lia.
  - unfold word_at. replace (Z.to_nat (1 + i / 64)) with (S (Z.to_nat (i / 64))) by lia. done.
Qed.

(** [Count] is the number of indices [IsSet] reports. *)
Lemma Count_spec bs :
  wf_BitSet bs → BitSet_Count bs = count_if (BitSet_IsSet bs) (seqZ 0 (64 * zlen bs)).
Proof.
  induction 1 as [|w bs Hw Hbs IH]; [done|].
  unfold BitSet_Count. rewrite (fold_left_add_cons popCount).
  change (fold_left _ bs 0) with (BitSet_Count bs). rewrite IH.
  cbn [length]. rewrite Nat2Z.inj_succ. replace (64 * Z.succ (zlen bs)) with (64 + 64 * zlen bs) by lia.
  rewrite seqZ_app, count_if_app by lia. f_equal.
  - rewrite popCount_bits by done. unfold bits_set. apply count_if_ext.
    intros i Hi%elem_of_seqZ. symmetry. apply IsSet_cons_lt. lia.
  - rewrite <-(fmap_add_seqZ 64 0), count_if_fmap. apply count_if_ext.
    intros i Hi%elem_of_seqZ. symmetry. apply (IsSet_cons_ge w bs i). lia.
Qed.

(** ** The mask of a list of indices *)
Lemma Set_all bs (l : list Z) :
  wf_BitSet bs → Forall (λ i, 0 ≤ i) l →
  let bs' := fold_left BitSet_Set l bs in
  wf_BitSet bs' ∧ length bs' = length bs ∧
  ∀ j, 0 ≤ j → BitSet_IsSet bs' j =
    BitSet_IsSet bs j || (bool_decide (j ∈ l) && bool_decide (j / 64 < zlen bs)).
Proof.
  intros Hbs Hl. revert bs Hbs. induction Hl as [|i l Hi Hl IH]; intros bs Hbs.
  - split_and!; [done..|]. intros j Hj. by rewrite orb_false_r.
  - cbn [fold_left]. destruct (IH (BitSet_Set bs i)) as (W & L & S); [by apply wf_Set|].
    split_and!; [done| by rewrite L, length_Set |]. intros j Hj.
    rewrite S, IsSet_Set, length_Set by done. rewrite <-orb_assoc. f_equal.
    destruct (decide (i = j)) as [->|Hne].
    + rewrite (bool_decide_eq_true_2 (j = j)) by done.
      rewrite (bool_decide_eq_true_2 (j ∈ j :: l)) by left. by destruct (bool_decide _), (bool_decide _).
    + rewrite (bool_decide_eq_false_2 (i = j)) by done. simpl. f_equal. apply bool_decide_ext.
      rewrite elem_of_cons. naive_solver.
Qed.

Lemma NewBitSet_wf n : wf_BitSet (NewBitSet n).
Proof. apply Forall_replicate. done. Qed.

Lemma NewBitSet_IsSet n i : 0 ≤ i → BitSet_IsSet (NewBitSet n) i = false.
Proof.
  intros Hi. rewrite IsSet_testbit by done. unfold word_at, NewBitSet.
  destruct (_ !! _) as [w|] eqn:E; simpl; [|by rewrite Z.bits_0, andb_false_r].
  apply lookup_replicate in E as [-> _]. by rewrite Z.bits_0, andb_false_r.
Qed.
