(* ===== verification/Certificate.v ===== *)
(** Votes (types/vote.go), validator sets (types/validator.go) and certificates
    (types/certificate.go): a header with a quorum of votes.  The interface
    [ValidatorSet] is a record of operations; [ValidatorSetLaws] is what the
    rest of the system relies on, and [SimpleValidatorSet] implements it. *)
From S2P Require Import Prelude Bytes Errors Types Batch Header BitSet.
Local Open Scope Z_scope.

(** * vote.go *)
Record Vote := mk_Vote {
  HeaderDigest : Hash;
  Validator : Z;
  VSignature : Signature
}.

#[export] Instance Vote_eq_dec : EqDecision Vote.
Proof. solve_decision. Defined.
#[export] Instance eta_Vote : Settable Vote := λ v,
  mk_Vote (HeaderDigest v) (Validator v) (VSignature v).

Definition NewVote (headerDigest : Hash) (validator : Z) : Vote :=
  {| HeaderDigest := headerDigest; Validator := validator; VSignature := EmptySignature |}.

Definition Vote_Sign (v : Vote) (signer : Signer) : result Vote :=
  let? sig := Sign signer (HeaderDigest v) in Ok (v <| VSignature := sig |>).

Definition Vote_Verify `{Ed25519} (v : Vote) (pk : PublicKey) : bool :=
  PublicKey_Verify pk (HeaderDigest v) (VSignature v).

Definition Vote_IsSigned (v : Vote) : bool := negb (Signature_IsEmpty (VSignature v)).

(** * validator.go *)
Record ValidatorInfo := mk_ValidatorInfo {
  Index : Z;
  VPublicKey : PublicKey;
  Power : Z;
  Address : string
}.

(** The interface ValidatorSet. *)
Record ValidatorSet := mk_ValidatorSet {
  VS_Count : Z;
  GetByIndex : Z → option ValidatorInfo;
  Contains : Z → bool;
  VS_F : Z;
  Quorum : Z;
  VS_Epoch : Z;
  VerifySignature : Z → Hash → Signature → bool;
  VS_Validators : list ValidatorInfo
}.

(** What the comments of the interface promise. *)
Class ValidatorSetLaws `{Ed25519} (vs : ValidatorSet) := {
  vs_F : VS_F vs = Z.quot (VS_Count vs - 1) 3;
  vs_Quorum : Quorum vs = 2 * VS_F vs + 1;
  vs_Contains i : Contains vs i = bool_decide (is_Some (GetByIndex vs i));
  vs_VerifySignature i d s :
    VerifySignature vs i d s =
      match GetByIndex vs i with Some v => PublicKey_Verify (VPublicKey v) d s | None => false end;
  vs_members : gset Z;
  vs_members_spec i : i ∈ vs_members ↔ is_Some (GetByIndex vs i);
  vs_members_size : zsize vs_members ≤ VS_Count vs
}.
Arguments vs_members {_} vs {_}.

Record SimpleValidatorSet := mk_SimpleValidatorSet {
  validators : list ValidatorInfo;
  byIndex : gmap Z ValidatorInfo;
  svs_epoch : Z
}.

Definition NewSimpleValidatorSet (vals : list ValidatorInfo) (epoch : Z) : SimpleValidatorSet :=
  {| validators := vals;
     byIndex := fold_left (λ m v, <[Index v := v]> m) vals ∅;
     svs_epoch := epoch |}.

Definition Simple_Count (vs : SimpleValidatorSet) : Z := zlen (validators vs).
Definition Simple_GetByIndex (vs : SimpleValidatorSet) (index : Z) : option ValidatorInfo :=
  byIndex vs !! index.
Definition Simple_Contains (vs : SimpleValidatorSet) (index : Z) : bool :=
  match byIndex vs !! index with Some _ => true | None => false end.
Definition Simple_F (vs : SimpleValidatorSet) : Z := Z.quot (zlen (validators vs) - 1) 3.
Definition Simple_Quorum (vs : SimpleValidatorSet) : Z := 2 * Simple_F vs + 1.
Definition Simple_VerifySignature `{Ed25519} (vs : SimpleValidatorSet) (validatorIdx : Z)
    (digest : Hash) (sig : Signature) : bool :=
  match Simple_GetByIndex vs validatorIdx with
  | None => false
  | Some v => PublicKey_Verify (VPublicKey v) digest sig
  end.

(** A [SimpleValidatorSet] used where the code takes a [ValidatorSet]. *)
Definition simple `{Ed25519} (vs : SimpleValidatorSet) : ValidatorSet :=
  {| VS_Count := Simple_Count vs; GetByIndex := Simple_GetByIndex vs;
     Contains := Simple_Contains vs; VS_F := Simple_F vs; Quorum := Simple_Quorum vs;
     VS_Epoch := svs_epoch vs; VerifySignature := Simple_VerifySignature vs;
     VS_Validators := validators vs |}.

(** [NewSimpleValidatorSet] establishes this, and nothing changes the set. *)
Definition wf_Simple (vs : SimpleValidatorSet) : Prop :=
  (size (byIndex vs) ≤ length (validators vs))%nat.

Lemma NewSimple_wf vals epoch : wf_Simple (NewSimpleValidatorSet vals epoch).
Proof.
  unfold wf_Simple, NewSimpleValidatorSet. cbn [validators byIndex].
  enough (∀ (m : gmap Z ValidatorInfo), size (fold_left (λ m v, <[Index v := v]> m) vals m)
            ≤ size m + length vals)%nat as Hg.
  { specialize (Hg ∅). rewrite map_size_empty in Hg. lia. }
  induction vals as [|v vals IH]; intros m; cbn [fold_left length]; [lia|].
  specialize (IH (<[Index v := v]> m)). rewrite map_size_insert in IH.
  destruct (m !! Index v); simpl in *; lia.
Qed.

#[export] Instance simple_laws `{Ed25519} vs : wf_Simple vs → ValidatorSetLaws (simple vs).
Proof.
  intros Hwf. refine {| vs_members := dom (byIndex vs) |}; cbn; try done.
  - intros i. unfold Simple_Contains, Simple_GetByIndex.
    destruct (byIndex vs !! i); symmetry; [by apply bool_decide_eq_true_2 | ].
    apply bool_decide_eq_false_2. by intros [].
  - intros i. apply elem_of_dom.
  - rewrite size_dom. unfold wf_Simple in Hwf. unfold Simple_Count. lia.
Defined.

(** * certificate.go *)
Record Certificate := mk_Certificate {
  CHeader : Header;
  Votes : list Vote;
  SignerMask : BitSet
}.

#[export] Instance Certificate_eq_dec : EqDecision Certificate.
Proof. solve_decision. Defined.

Definition NewCertificate (header : Header) (votes : list Vote) : Certificate :=
  let sortedVotes := sort_slice (by_key Validator) votes in
  let mask := fold_left (λ mask v, BitSet_Set mask (Validator v)) sortedVotes (NewBitSet 256) in
  {| CHeader := header; Votes := sortedVotes; SignerMask := mask |}.

Definition CDigest (c : Certificate) : Hash := Digest (CHeader c).
Definition CRound (c : Certificate) : Z := Round (CHeader c).
Definition CAuthor (c : Certificate) : Z := Author (CHeader c).
Definition CEpoch (c : Certificate) : Z := Epoch (CHeader c).
Definition VoteCount (c : Certificate) : Z := zlen (Votes c).

Definition HasQuorum (c : Certificate) (validatorCount : Z) : bool :=
  let f := Z.quot (validatorCount - 1) 3 in
  let quorum := 2 * f + 1 in
  bool_decide (zlen (Votes c) >= quorum).

Definition HasVoteFrom (c : Certificate) (validatorIndex : Z) : bool :=
  BitSet_IsSet (SignerMask c) validatorIndex.

Definition GetRef (c : Certificate) : CertificateRef :=
  {| CR_Digest := CDigest c; CR_Round := CRound c |}.

(** The loop of [Verify]: the first vote that fails decides the error. *)
Fixpoint verify_votes `{Ed25519} (vs : ValidatorSet) (digest : Hash) (votes : list Vote) : option error :=
  match votes with
  | [] => None
  | vote :: votes' =>
      if negb (Hash_Equal (HeaderDigest vote) digest) then Some ErrInvalidVote
      else match GetByIndex vs (Validator vote) with
           | None => Some ErrValidatorNotFound
           | Some validator =>
               if negb (Vote_Verify vote (VPublicKey validator)) then Some ErrInvalidSignature
               else verify_votes vs digest votes'
           end
  end.

Definition Certificate_Verify `{Ed25519} (c : Certificate) (vs : ValidatorSet) : option error :=
  if negb (HasQuorum c (VS_Count vs)) then Some ErrInsufficientQuorum
  else match GetByIndex vs (Author (CHeader c)) with
       | None => Some ErrValidatorNotFound
       | Some author =>
           if negb (Header_Verify (CHeader c) (VPublicKey author)) then Some ErrInvalidSignature
           else verify_votes vs (Digest (CHeader c)) (Votes c)
       end.

(** ** Certificates made from votes *)
Definition wf_Vote (v : Vote) : Prop := is_u16 (Validator v).

#[export] Instance wf_Vote_dec v : Decision (wf_Vote v).
Proof. unfold wf_Vote; apply _. Defined.

(** The set of validators with a vote in a list. *)
Definition voters (votes : list Vote) : gset Z := list_to_set (Validator <$> votes).

Lemma elem_of_voters i votes : i ∈ voters votes ↔ ∃ v, v ∈ votes ∧ Validator v = i.
Proof. unfold voters. rewrite elem_of_list_to_set, list_elem_of_fmap. naive_solver. Qed.

Lemma voters_perm l l' : l ≡ₚ l' → voters l = voters l'.
Proof. intros Hp. apply set_eq. intros i. rewrite !elem_of_voters. by setoid_rewrite Hp. Qed.

Lemma NewCertificate_mask h votes i :
  Forall wf_Vote votes → 0 ≤ i →
  wf_BitSet (SignerMask (NewCertificate h votes)) ∧
  length (SignerMask (NewCertificate h votes)) = 4%nat ∧
  HasVoteFrom (NewCertificate h votes) i =
    bool_decide (i ∈ voters votes) && bool_decide (i < 256).
Proof.
  intros Hwf Hi. unfold HasVoteFrom, NewCertificate. cbn [SignerMask].
  set (sorted := sort_slice _ _).
  replace (fold_left _ sorted _) with (fold_left BitSet_Set (Validator <$> sorted) (NewBitSet 256)).
  2:{ generalize (NewBitSet 256). clear. induction sorted as [|v l IH]; intros m; [done|]. apply IH. }
  assert (Forall (λ i, 0 ≤ i) (Validator <$> sorted)) as Hnn.
  { apply Forall_fmap. unfold sorted. rewrite sort_slice_perm. eapply Forall_impl; [done|].
    unfold wf_Vote, fits. intros v ?. simpl. lia. }
  destruct (Set_all (NewBitSet 256) _ (NewBitSet_wf 256) Hnn) as (Hw & Hl & Hs).
  split_and!; [exact Hw | exact Hl |].
  rewrite Hs, NewBitSet_IsSet by done. cbn [orb]. f_equal.
  - apply bool_decide_ext. rewrite elem_of_voters, list_elem_of_fmap. unfold sorted.
    setoid_rewrite elem_of_sort_slice. naive_solver.
  - apply bool_decide_ext. change (zlen (NewBitSet 256)) with 4.
    Z.div_mod_to_equations. lia.
Qed.

(** [NewCertificate] keeps exactly the given votes, in increasing validator
    order; its mask reports a validator exactly when it voted and its index is
    below 256, and the mask's population count is the number of those
    validators. *)
Theorem certificate_mask h votes :
  Forall wf_Vote votes →
  let c := NewCertificate h votes in
  CHeader c = h ∧ Votes c ≡ₚ votes ∧
  StronglySorted (λ a b, Validator a ≤ Validator b) (Votes c) ∧
  (∀ i, is_u16 i → HasVoteFrom c i = true ↔ (∃ v, v ∈ votes ∧ Validator v = i) ∧ i < 256) ∧
  BitSet_Count (SignerMask c) = zsize (filter (λ i, i < 256) (voters votes)).
Proof.
  intros Hwf c. split_and!; [done | apply sort_slice_perm | apply sort_by_key_sorted | |].
  - intros i Hi. destruct (NewCertificate_mask h votes i Hwf) as (_ & _ & E); [apply Hi|].
    unfold c. rewrite E, andb_true_iff, !bool_decide_eq_true, elem_of_voters. done.
  - subst c. destruct (NewCertificate_mask h votes 0 Hwf) as (W & L & _); [done|].
    rewrite Count_spec, L by done. apply count_if_set; [apply NoDup_seqZ|].
    intros i. rewrite elem_of_filter, elem_of_seqZ. change (64 * Z.of_nat 4) with 256.
    destruct (decide (0 ≤ i)) as [Hi|Hi].
    + destruct (NewCertificate_mask h votes i Hwf Hi) as (_ & _ & E). unfold HasVoteFrom in E.
      rewrite E, andb_true_iff, !bool_decide_eq_true. split; [intros []; split_and!; auto; lia|naive_solver].
    + split; [|lia]. rewrite elem_of_voters. intros (_ & v & Hv & <-).
      rewrite Forall_forall in Hwf. apply Hwf in Hv. destruct Hv. lia.
Qed.

Lemma certificate_mask_witness :
  let votes := [mk_Vote [] 300 []; mk_Vote [] 7 []; mk_Vote [] 2 []] in
  let c := NewCertificate (NewHeader 1 5 0 [] [] 7) votes in
  HasVoteFrom c 7 = true ∧ HasVoteFrom c 300 = false ∧
  BitSet_Count (SignerMask c) = zsize (filter (λ i, i < 256) (voters votes)).
Proof.
  split; [by vm_compute|]. split; [by vm_compute|].
  refine (proj2 (proj2 (proj2 (proj2 (certificate_mask (NewHeader 1 5 0 [] [] 7) _ _))))).
  decided.
Defined.

(** ** Verification *)
Section verify.
Context `{Ed : Ed25519} (vs : ValidatorSet) {L : ValidatorSetLaws vs}.

(** The vote is for the digest and carries a known validator's signature. *)
Definition vote_ok (digest : Hash) (v : Vote) : Prop :=
  HeaderDigest v = digest ∧ VerifySignature vs (Validator v) digest (VSignature v) = true.

Lemma verify_votes_spec digest votes :
  verify_votes vs digest votes = None ↔ Forall (vote_ok digest) votes.
Proof using L.
  induction votes as [|v votes IH]; [by split; [constructor|]|].
  cbn [verify_votes]. rewrite Forall_cons. unfold vote_ok at 1. rewrite vs_VerifySignature.
  unfold Hash_Equal, Vote_Verify. case_bool_decide as Hd; cbn [negb]; [|naive_solver].
  rewrite <-Hd. destruct (GetByIndex vs (Validator v)) as [val|]; [|naive_solver].
  destruct (PublicKey_Verify _ _ _); cbn [negb]; [|naive_solver]. rewrite Hd, IH. naive_solver.
Qed.

Lemma vote_ok_member digest v : vote_ok digest v → Validator v ∈ vs_members vs.
Proof using L.
  intros [_ E]. rewrite vs_VerifySignature in E. apply vs_members_spec.
  destruct (GetByIndex vs (Validator v)); [by eexists|done].
Qed.

Lemma Certificate_Verify_spec c :
  Certificate_Verify c vs = None ↔
    Quorum vs ≤ VoteCount c ∧
    VerifySignature vs (CAuthor c) (CDigest c) (HSignature (CHeader c)) = true ∧
    Forall (vote_ok (CDigest c)) (Votes c).
Proof using L.
  unfold Certificate_Verify, HasQuorum, VoteCount, CAuthor, CDigest, Header_Verify.
  rewrite vs_Quorum, vs_F, vs_VerifySignature.
  case_bool_decide as Hq; cbn [negb].
  2:{ split; [done|]. intros [? _]. lia. }
  destruct (GetByIndex vs (Author (CHeader c))) as [a|]; [|naive_solver].
  destruct (PublicKey_Verify _ _ _); cbn [negb]; [|naive_solver].
  rewrite verify_votes_spec. split; [|naive_solver]. intros. split_and!; [lia|done..].
Qed.

(** C13. [Certificate.Verify] accepts a certificate exactly when it has at
    least a quorum of votes, the author is a validator whose signature on the
    header digest verifies, and every vote is for that digest with a
    verifying signature of a validator; and when it rejects, the error is one
    of the four of the code, [ErrInsufficientQuorum] exactly when votes are
    missing. *)
Theorem certificate_verify_spec c :
  (Certificate_Verify c vs = None ↔
    Quorum vs ≤ VoteCount c ∧
    VerifySignature vs (CAuthor c) (CDigest c) (HSignature (CHeader c)) = true ∧
    ∀ v, v ∈ Votes c → HeaderDigest v = CDigest c ∧
      VerifySignature vs (Validator v) (CDigest c) (VSignature v) = true) ∧
  (Certificate_Verify c vs = Some ErrInsufficientQuorum ↔ VoteCount c < Quorum vs) ∧
  (∀ e, Certificate_Verify c vs = Some e →
     e ∈ [ErrInsufficientQuorum; ErrValidatorNotFound; ErrInvalidSignature; ErrInvalidVote]).
Proof using L.
  split; [rewrite Certificate_Verify_spec, Forall_forall; done|].
  assert (∀ d votes e, verify_votes vs d votes = Some e →
    e ∈ [ErrValidatorNotFound; ErrInvalidSignature; ErrInvalidVote]) as Hv.
  { intros d. induction votes as [|v votes IH]; intros e; [done|]. cbn [verify_votes].
    repeat go_case; intros He; rewrite ?elem_of_cons; eauto; simplify_eq; eauto 6.
    rewrite <-!elem_of_cons. by apply IH. }
  unfold Certificate_Verify, HasQuorum, VoteCount. rewrite vs_Quorum, vs_F.
  case_bool_decide as Hq; cbn [negb].
  - split; [split; [|lia]|]; repeat go_case; try done; rewrite ?elem_of_cons; intros; simplify_eq; eauto 6.
    + specialize (Hv _ _ _ ltac:(eassumption)). set_solver.
    + rewrite !elem_of_cons; auto.
    + right. by eapply Hv.
    + rewrite !elem_of_cons; auto.
  - split; [|intros; simplify_eq; left]. split; [lia|done].
Qed.

Lemma voters_members c :
  Forall (vote_ok (CDigest c)) (Votes c) → voters (Votes c) ⊆ vs_members vs.
Proof using L.
  intros Hv i (v & Hin & <-)%elem_of_voters. rewrite Forall_forall in Hv.
  by eapply vote_ok_member, Hv.
Qed.

Lemma verified_voters_size c :
  Certificate_Verify c vs = None → NoDup (Validator <$> Votes c) →
  voters (Votes c) ⊆ vs_members vs ∧ Quorum vs ≤ zsize (voters (Votes c)).
Proof using L.
  intros (Hq & _ & Hv)%Certificate_Verify_spec Hnd. split; [by apply voters_members|].
  unfold voters. rewrite size_list_to_set_NoDup, length_fmap by done. done.
Qed.

(** C1. Certificates intersect in an honest validator: with n = 3f+1
    validators of which at most f are Byzantine, two certificates that verify
    and whose votes come from distinct validators contain votes of a common
    honest validator, which therefore signed both header digests. *)
Theorem certificates_share_honest_voter c1 c2 (byz : gset Z) :
  VS_Count vs = 3 * VS_F vs + 1 → zsize byz ≤ VS_F vs →
  Certificate_Verify c1 vs = None → NoDup (Validator <$> Votes c1) →
  Certificate_Verify c2 vs = None → NoDup (Validator <$> Votes c2) →
  ∃ i v1 v2, (i ∉ byz) ∧ v1 ∈ Votes c1 ∧ v2 ∈ Votes c2 ∧ Validator v1 = i ∧ Validator v2 = i ∧
    (VerifySignature vs i (CDigest c1) (VSignature v1) = true) ∧
    VerifySignature vs i (CDigest c2) (VSignature v2) = true.
Proof using L.
  intros Hn Hb V1 N1 V2 N2.
  destruct (verified_voters_size c1 V1 N1) as [S1 Q1], (verified_voters_size c2 V2 N2) as [S2 Q2].
  pose proof (inter_size_lb _ _ _ S1 S2). pose proof (vs_members_size (vs := vs)).
  rewrite vs_Quorum in *.
  destruct (exists_outside (voters (Votes c1) ∩ voters (Votes c2)) byz) as (i & Hi & Hnb); [lia|].
  apply elem_of_intersection in Hi as [(v1 & H1 & <-)%elem_of_voters (v2 & H2 & E)%elem_of_voters].
  apply Certificate_Verify_spec in V1 as (_ & _ & V1), V2 as (_ & _ & V2).
  rewrite Forall_forall in V1, V2. exists (Validator v1), v1, v2.
  split_and!; try done; [by apply V1 | rewrite <-E; by apply V2].
Qed.

(** [Certificate.Verify] does not require distinct voters: if a
    validator's signature on a header digest verifies both as the author's and
    as a vote, the certificate that repeats this one vote a quorum of times
    verifies.  (The quorum guarantee of the intersection theorem therefore
    needs its distinctness hypothesis.) *)
Theorem verify_accepts_repeated_vote h sig :
  VerifySignature vs (Author h) (Digest h) (HSignature h) = true →
  VerifySignature vs (Author h) (Digest h) sig = true →
  let v := mk_Vote (Digest h) (Author h) sig in
  let c := NewCertificate h (replicate (Z.to_nat (Quorum vs)) v) in
  Certificate_Verify c vs = None ∧ voters (Votes c) ⊆ {[ Author h ]}.
Proof using L.
  intros Hh Hs v c.
  assert (∀ x, x ∈ Votes c → x = v) as Hin.
  { intros x Hx. apply elem_of_sort_slice, elem_of_replicate in Hx. tauto. }
  split.
  - apply Certificate_Verify_spec. split_and!.
    + unfold VoteCount, c. cbn [Votes NewCertificate]. rewrite length_sort_slice, length_replicate. lia.
    + exact Hh.
    + apply Forall_forall. intros x ->%Hin. by split.
  - intros i (x & ->%Hin & <-)%elem_of_voters. by apply elem_of_singleton.
Qed.
End verify.

(** ** The quorum formula *)

(** With [n] validators, any two sets of [Simple_Quorum] validators have a
    common member outside any [Simple_F] of them. *)
Definition quorums_meet (vs : SimpleValidatorSet) : Prop :=
  let n := Simple_Count vs in
  ∀ X Y byz : gset Z, X ⊆ list_to_set (seqZ 0 n) → Y ⊆ list_to_set (seqZ 0 n) →
    Simple_Quorum vs ≤ zsize X → Simple_Quorum vs ≤ zsize Y → zsize byz ≤ Simple_F vs →
    ∃ i, i ∈ X ∧ i ∈ Y ∧ i ∉ byz.

Lemma size_seqZ_set a n : 0 ≤ n → zsize (list_to_set (seqZ a n) : gset Z) = n.
Proof. intros. rewrite size_list_to_set_NoDup, length_seqZ by apply NoDup_seqZ. lia. Qed.

(** The quorum 2f+1 with f = (n-1)/3 (integer division) makes any two
    quorums meet in an honest validator exactly when n = 3f+1: for the other
    validator counts there are two quorums whose common members can all be
    Byzantine. *)
Theorem quorum_meets_iff vs :
  1 ≤ Simple_Count vs →
  quorums_meet vs ↔ Simple_Count vs = 3 * Simple_F vs + 1.
Proof.
  unfold quorums_meet, Simple_Quorum, Simple_F, Simple_Count. set (n := zlen (validators vs)).
  intros Hn. rewrite Z.quot_div_nonneg by lia. set (f := (n - 1) / 3).
  assert (0 ≤ f ∧ 3 * f + 1 ≤ n ≤ 3 * f + 3) by (unfold f; Z.div_mod_to_equations; lia).
  split.
  - intros Hm. destruct (decide (n = 3 * f + 1)) as [|Hne]; [done|exfalso].
    set (q := 2 * f + 1). set (byz := list_to_set (seqZ (n - q) (q - (n - q))) : gset Z).
    destruct (Hm (list_to_set (seqZ 0 q)) (list_to_set (seqZ (n - q) q)) byz) as (i & Hx & Hy & Hb).
    + intros i. rewrite !elem_of_list_to_set, !elem_of_seqZ. lia.
    + intros i. rewrite !elem_of_list_to_set, !elem_of_seqZ. lia.
    + rewrite size_seqZ_set; lia.
    + rewrite size_seqZ_set; lia.
    + unfold byz. destruct (decide (0 ≤ q - (n - q))); [rewrite size_seqZ_set; lia|].
      rewrite seqZ_nil by lia. cbn. rewrite size_empty. lia.
    + apply Hb. unfold byz. rewrite !elem_of_list_to_set, !elem_of_seqZ in *. lia.
  - intros E X Y byz HX HY QX QY Hb. pose proof (inter_size_lb _ _ _ HX HY).
    pose proof (size_seqZ_set 0 n ltac:(lia)).
    destruct (exists_outside (X ∩ Y) byz) as (i & Hi & Hnb); [lia|]. exists i. set_solver.
Qed.

Lemma quorum_meets_iff_witness :
  let v i := mk_ValidatorInfo i [] 1 EmptyString in
  let six := NewSimpleValidatorSet (map v [0; 1; 2; 3; 4; 5]) 0 in
  Simple_Quorum six = 3 ∧ (quorums_meet six ↔ Simple_Count six = 3 * Simple_F six + 1).
Proof.
  split; [reflexivity|]. apply quorum_meets_iff. decided.
Defined.

(** ** A closed instance: four validators with the toy signature scheme *)
Module Toy.
#[local] Existing Instance toy_ed25519.

Definition seed (i : Z) : bytes := replicate 32 i.
Definition pk (i : Z) : PublicKey := ed_Public (NewKeyFromSeed (seed i)).
Definition info (i : Z) : ValidatorInfo := mk_ValidatorInfo i (pk i) 1 EmptyString.
Definition svs : SimpleValidatorSet := NewSimpleValidatorSet (map info [0; 1; 2; 3]) 0.
Definition vs : ValidatorSet := simple svs.
Definition signer (i : Z) : Signer :=
  {| Sign := λ d, Ok (ed_Sign (NewKeyFromSeed (seed i)) d);
     Signer_PublicKey := pk i; Signer_ValidatorIndex := i |}.

Definition laws : ValidatorSetLaws vs := simple_laws svs (NewSimple_wf _ _).

(** A signed header whose digest field is short, to keep evaluation small. *)
Definition header (author round : Z) (digest : Hash) (parents : list CertificateRef) : Header :=
  {| Author := author; Round := round; Epoch := 0; BatchRefs := []; Parents := parents;
     Timestamp := 0; Digest := digest; HSignature := ed_Sign (NewKeyFromSeed (seed author)) digest |}.
Definition vote (i : Z) (digest : Hash) : Vote :=
  mk_Vote digest i (ed_Sign (NewKeyFromSeed (seed i)) digest).
Definition cert (author round : Z) (digest : Hash) (parents : list CertificateRef)
    (by_ : list Z) : Certificate :=
  NewCertificate (header author round digest parents) (map (λ i, vote i digest) by_).
End Toy.
#[local] Existing Instance toy_ed25519.
#[local] Existing Instance Toy.laws.

Lemma certificate_verify_spec_witness :
  let c := Toy.cert 1 1 [5] [] [0; 1; 2] in
  Certificate_Verify c Toy.vs = None ∧
  (Certificate_Verify (Toy.cert 1 1 [5] [] [0; 1]) Toy.vs = Some ErrInsufficientQuorum ↔
     VoteCount (Toy.cert 1 1 [5] [] [0; 1]) < Quorum Toy.vs).
Proof.
  split.
  - apply certificate_verify_spec; [apply _|]. split_and!; [decided | by vm_compute |].
    intros v Hv. apply elem_of_sort_slice in Hv.
    repeat (apply elem_of_cons in Hv as [->|Hv]; [split; by vm_compute|]). by apply not_elem_of_nil in Hv.
  - apply certificate_verify_spec, _.
Defined.

Lemma certificates_share_honest_voter_witness :
  let c1 := Toy.cert 1 1 [5] [] [0; 1; 2] in
  let c2 := Toy.cert 1 1 [6] [] [1; 2; 3] in
  ∃ i v1 v2, (i ∉ ({[ 2 ]} : gset Z)) ∧ v1 ∈ Votes c1 ∧ v2 ∈ Votes c2 ∧
    Validator v1 = i ∧ Validator v2 = i ∧
    VerifySignature Toy.vs i (CDigest c1) (VSignature v1) = true ∧
    VerifySignature Toy.vs i (CDigest c2) (VSignature v2) = true.
Proof.
  apply certificates_share_honest_voter;
    first [apply _ | by vm_compute | decided].
Defined.

Lemma verify_accepts_repeated_vote_witness :
  let v := Toy.vote 1 [5] in
  let c := NewCertificate (Toy.header 1 1 [5] []) (replicate (Z.to_nat (Quorum Toy.vs)) v) in
  Certificate_Verify c Toy.vs = None ∧ voters (Votes c) ⊆ {[ 1 ]}.
Proof.
  refine (verify_accepts_repeated_vote Toy.vs (Toy.header 1 1 [5] []) _ _ _); by vm_compute.
Defined.
