(* ===== verification/Store.v ===== *)
(** The storage layer (package store): the interfaces of store.go as classes of
    operations, the contracts the rest of the system relies on as classes of
    laws, and the in-memory implementations (memory_batch.go, memory_cert.go,
    memory_txindex.go).  A method returns the new store where it writes. *)
From S2P Require Import Prelude Bytes Errors Types Batch Header BitSet Certificate.
Local Open Scope Z_scope.

(** * store.go *)
Class BatchStore (S : Type) := {
  SaveBatch : Batch → S → S * option error;
  GetBatch : Hash → S → result Batch;
  HasBatch : Hash → S → bool;
  GetBatchesByRound : Z → S → result (list Batch);
  DeleteBatchesBefore : Z → S → S * option error
}.

Class CertificateStore (S : Type) := {
  SaveCertificate : Certificate → S → S * option error;
  GetCertificate : Hash → S → result Certificate;
  HasCertificate : Hash → S → bool;
  GetCertificatesByRound : Z → S → result (list Certificate);
  GetCertificateForValidator : Z → Z → S → result Certificate;
  DeleteCertificatesBefore : Z → S → S * option error;
  HighestRound : S → Z
}.

(** An insertion that keeps an existing entry. *)
Definition insert_new {A} (k : Hash) (x : A) (m : gmap Hash A) : gmap Hash A :=
  match m !! k with Some _ => m | None => <[k := x]> m end.

(** What a batch store promises, on the map from digests to batches it stands
    for, while it is open and its invariant holds. *)
Class BatchStoreLaws (S : Type) `{BatchStore S} := {
  bs_ok : S → Prop;
  bs_view : S → gmap Hash Batch;
  bs_key s d b : bs_ok s → bs_view s !! d = Some b → Batch_Digest b = d;
  bs_save s b : bs_ok s →
    let r := SaveBatch b s in
    r.2 = None ∧ bs_ok r.1 ∧ bs_view r.1 = insert_new (Batch_Digest b) b (bs_view s);
  bs_get s d : bs_ok s →
    GetBatch d s = match bs_view s !! d with Some b => Ok b | None => Err ErrBatchNotFound end;
  bs_has s d : bs_ok s → HasBatch d s = bool_decide (is_Some (bs_view s !! d));
  bs_round s r : bs_ok s → ∃ l, GetBatchesByRound r s = Ok l ∧ NoDup (Batch_Digest <$> l) ∧
    ∀ b, b ∈ l ↔ bs_view s !! Batch_Digest b = Some b ∧ Batch_Round b = r;
  bs_delete s r : bs_ok s →
    let res := DeleteBatchesBefore r s in
    res.2 = None ∧ bs_ok res.1 ∧ bs_view res.1 = filter (λ p, r ≤ Batch_Round p.2) (bs_view s)
}.

(** The same for certificates.  A certificate store may keep one certificate
    per round and author only in its round index, so the round query is
    complete up to the author, and deletion only promises to keep what is at or
    above the round. *)
Class CertificateStoreLaws (S : Type) `{CertificateStore S} := {
  cs_ok : S → Prop;
  cs_view : S → gmap Hash Certificate;
  cs_key s d c : cs_ok s → cs_view s !! d = Some c → CDigest c = d;
  cs_save s c : cs_ok s →
    let r := SaveCertificate c s in
    r.2 = None ∧ cs_ok r.1 ∧ cs_view r.1 = insert_new (CDigest c) c (cs_view s);
  cs_get s d : cs_ok s →
    GetCertificate d s =
      match cs_view s !! d with Some c => Ok c | None => Err ErrCertificateNotFound end;
  cs_has s d : cs_ok s → HasCertificate d s = bool_decide (is_Some (cs_view s !! d));
  cs_round s r : cs_ok s → ∃ l, GetCertificatesByRound r s = Ok l ∧ NoDup (CDigest <$> l) ∧
    (∀ c, c ∈ l → cs_view s !! CDigest c = Some c ∧ CRound c = r) ∧
    (∀ d c, cs_view s !! d = Some c → CRound c = r → ∃ c', c' ∈ l ∧ CAuthor c' = CAuthor c);
  cs_delete s r : cs_ok s →
    let res := DeleteCertificatesBefore r s in
    res.2 = None ∧ cs_ok res.1 ∧ cs_view res.1 ⊆ cs_view s ∧
    ∀ d c, cs_view s !! d = Some c → r ≤ CRound c → cs_view res.1 !! d = Some c
}.

(** ** Two maps, one an index of the other

    The memory stores keep values by digest and the digests of each round in
    insertion order.  [append_at] is [m[k] = append(m[k], x)]; [delete_keys]
    deletes every key of a list. *)
Definition append_at `{Countable K} {A} (k : K) (x : A) (m : gmap K (list A)) : gmap K (list A) :=
  <[k := default [] (m !! k) ++ [x]]> m.
Definition delete_keys {A} (ks : list Hash) (m : gmap Hash A) : gmap Hash A :=
  fold_left (λ m k, delete k m) ks m.
Definition rounds_before {A} (round : Z) (m : gmap Z (list A)) : list Z :=
  filter (λ r, r < round) (map_to_list m).*1.

(** The loop [for _, d := range ds { if x, ok := m[d]; ok { append } }]. *)
Definition lookup_all {A} (m : gmap Hash A) (ds : list Hash) : list A :=
  omap (λ d, m !! d) ds.

Section indexed.
Context {A : Type} (key : A → Hash) (rnd : A → Z).

Record indexed (items : gmap Hash A) (byr : gmap Z (list Hash)) : Prop := {
  ix_key d a : items !! d = Some a → key a = d;
  ix_round r d : d ∈ default [] (byr !! r) ↔ ∃ a, items !! d = Some a ∧ rnd a = r;
  ix_nodup r ds : byr !! r = Some ds → NoDup ds ∧ ds ≠ []
}.

Lemma indexed_empty : indexed ∅ ∅.
Proof.
  split.
  - intros d a. by rewrite lookup_empty.
  - intros r d. rewrite lookup_empty. split; [intros []%not_elem_of_nil|].
    intros (a & E & _). by rewrite lookup_empty in E.
  - intros r ds. by rewrite lookup_empty.
Qed.

Lemma indexed_save items byr a :
  indexed items byr → items !! key a = None →
  indexed (<[key a := a]> items) (append_at (rnd a) (key a) byr).
Proof.
  intros [K R N] Hn. unfold append_at.
  assert (∀ r, (key a) ∉ default [] (byr !! r)) as Hni.
  { intros r (x & E & _)%R. congruence. }
  split.
  - intros d x [[<- <-]|[_ E]]%lookup_insert_Some; [done|]. by apply K.
  - intros r d. destruct (decide (r = rnd a)) as [->|Hr].
    + rewrite lookup_insert_eq. cbn [default from_option id].
      rewrite elem_of_app, list_elem_of_singleton, R. split.
      * intros [(x & E & Hx)| ->].
        -- exists x. split; [|done]. rewrite lookup_insert_ne; [done|]. intros <-. congruence.
        -- exists a. by rewrite lookup_insert_eq.
      * intros (x & [[<- <-]|[Hd E]]%lookup_insert_Some & Hx); [by right|left; eauto].
    + rewrite lookup_insert_ne by done. rewrite R. split.
      * intros (x & E & Hx). exists x. split; [|done]. rewrite lookup_insert_ne; [done|].
        intros <-. congruence.
      * intros (x & [[<- <-]|[Hd E]]%lookup_insert_Some & Hx); [congruence|eauto].
  - intros r ds [[<- <-]|[_ E]]%lookup_insert_Some; [|by eapply N].
    split; [|by destruct (default [] (byr !! rnd a))].
    apply NoDup_app. split_and!; [|set_solver|by apply NoDup_singleton].
    destruct (byr !! rnd a) eqn:E; [by eapply N|constructor].
Qed.

Lemma lookup_delete_keys (ks : list Hash) (m : gmap Hash A) d :
  delete_keys ks m !! d = if decide (d ∈ ks) then None else m !! d.
Proof.
  unfold delete_keys. revert m. induction ks as [|k ks IH]; intros m; cbn [fold_left].
  - by destruct (decide (d ∈ [])) as [[]%not_elem_of_nil|].
  - rewrite IH. destruct (decide (d ∈ ks)) as [H1|H1], (decide (d ∈ k :: ks)) as [H2|H2]; try done.
    + by destruct H2; right.
    + apply elem_of_cons in H2 as [->|]; [apply lookup_delete_eq|done].
    + rewrite lookup_delete_ne; [done|]. intros ->. apply H2. left.
Qed.

(** The deletion loop over the old rounds, on both maps. *)
Definition delete_rounds (rs : list Z) (items : gmap Hash A) (byr : gmap Z (list Hash)) :
    gmap Hash A * gmap Z (list Hash) :=
  fold_left (λ '(it, br) r, (delete_keys (default [] (br !! r)) it, delete r br)) rs (items, byr).

Lemma indexed_delete_round items byr r :
  indexed items byr →
  indexed (delete_keys (default [] (byr !! r)) items) (delete r byr) ∧
  delete_keys (default [] (byr !! r)) items = filter (λ p, rnd p.2 ≠ r) items.
Proof.
  intros [K R N].
  assert (delete_keys (default [] (byr !! r)) items = filter (λ p, rnd p.2 ≠ r) items) as E.
  { apply map_eq. intros d. rewrite lookup_delete_keys. apply option_eq. intros x.
    rewrite map_lookup_filter_Some. case_decide as Hd.
    - split; [done|]. intros [E Hx]. apply R in Hd as (y & Ey & Hy). simplify_eq/=.
    - split; [|naive_solver]. intros E. split; [done|]. intros Hx. apply Hd, R. eauto. }
  split; [|done]. rewrite E. split.
  - intros d a [Ha _]%map_lookup_filter_Some. by apply K.
  - intros r' d. destruct (decide (r = r')) as [->|Hne].
    + rewrite lookup_delete_eq. split; [intros []%not_elem_of_nil|].
      intros (a & [_ Ha]%map_lookup_filter_Some & Hr). done.
    + rewrite lookup_delete_ne by done. rewrite R. split.
      * intros (a & Ha & Hr). exists a. rewrite map_lookup_filter_Some. split_and!; auto. simpl. congruence.
      * intros (a & [Ha _]%map_lookup_filter_Some & Hr). eauto.
  - intros r' ds [_ H]%lookup_delete_Some. by eapply N.
Qed.

Lemma indexed_delete_rounds rs items byr :
  indexed items byr →
  let p := delete_rounds rs items byr in
  indexed p.1 p.2 ∧ p.1 = filter (λ q, rnd q.2 ∉ rs) items.
Proof.
  unfold delete_rounds. revert items byr. induction rs as [|r rs IH]; intros items byr Hix; cbn.
  - split; [done|]. symmetry. apply map_filter_id. intros ?? _. apply not_elem_of_nil.
  - destruct (indexed_delete_round items byr r Hix) as [Hix' E].
    destruct (IH _ _ Hix') as [H1 H2]. split; [exact H1|]. rewrite H2, E.
    rewrite map_filter_filter. apply map_filter_ext. intros d a _. simpl. rewrite elem_of_cons. tauto.
Qed.

Lemma indexed_delete_before round items byr :
  indexed items byr →
  let p := delete_rounds (rounds_before round byr) items byr in
  indexed p.1 p.2 ∧ p.1 = filter (λ q, round ≤ rnd q.2) items.
Proof.
  intros Hix p. destruct (indexed_delete_rounds (rounds_before round byr) items byr Hix) as [H1 H2].
  split; [done|]. unfold p. rewrite H2. apply map_filter_ext. intros d a Ha. simpl.
  unfold rounds_before. rewrite list_elem_of_filter. split.
  - intros Hn. destruct (decide (rnd a < round)); [|lia]. exfalso. apply Hn. split; [done|].
    assert (d ∈ default [] (byr !! rnd a)) as Hd by (apply (ix_round _ _ Hix); eauto).
    destruct (byr !! rnd a) as [ds|] eqn:E; [|by apply not_elem_of_nil in Hd].
    apply list_elem_of_fmap. exists (rnd a, ds). split; [done|]. by apply elem_of_map_to_list.
  - lia.
Qed.

Lemma indexed_lookup_all items byr r :
  indexed items byr →
  let l := lookup_all items (default [] (byr !! r)) in
  NoDup (key <$> l) ∧ ∀ a, a ∈ l ↔ items !! key a = Some a ∧ rnd a = r.
Proof.
  intros [K R N] l.
  assert (∀ a, a ∈ l ↔ items !! key a = Some a ∧ rnd a = r) as Hl.
  { intros a. unfold l, lookup_all. rewrite list_elem_of_omap. split.
    - intros (d & (x & E & Hx)%R & Hd). simplify_eq. pose proof (K _ _ E) as <-. done.
    - intros [E Hr]. exists (key a). split; [|done]. apply R. eauto. }
  split; [|done]. unfold l, lookup_all.
  assert (NoDup (default [] (byr !! r))) as Hnd.
  { destruct (byr !! r) eqn:E; [by eapply N|constructor]. }
  clear Hl l. revert Hnd. generalize (default [] (byr !! r)). clear R N.
  induction l as [|d l IH]; intros Hnd; [constructor|]. apply NoDup_cons in Hnd as [Hni Hnd].
  cbn [omap list_omap]. destruct (items !! d) as [a|] eqn:E; [|by apply IH].
  rewrite fmap_cons. apply NoDup_cons. split; [|by apply IH].
  rewrite (K _ _ E). intros (b & Hb & (d' & Hd' & Eb)%list_elem_of_omap)%list_elem_of_fmap.
  rewrite (K _ _ Eb) in Hb. congruence.
Qed.
End indexed.

(** * memory_batch.go *)
Record MemoryBatchStore := mk_MemoryBatchStore {
  batches : gmap Hash Batch;
  byRound : gmap Z (list Hash);
  mb_closed : bool
}.

Definition NewMemoryBatchStore : MemoryBatchStore := mk_MemoryBatchStore ∅ ∅ false.

Definition Memory_SaveBatch (batch : Batch) (s : MemoryBatchStore) : MemoryBatchStore * option error :=
  if mb_closed s then (s, Some ErrNotRunning)
  else match batches s !! Batch_Digest batch with
       | Some _ => (s, None)
       | None =>
           (mk_MemoryBatchStore (<[Batch_Digest batch := batch]> (batches s))
              (append_at (Batch_Round batch) (Batch_Digest batch) (byRound s)) (mb_closed s), None)
       end.

Definition Memory_GetBatch (digest : Hash) (s : MemoryBatchStore) : result Batch :=
  if mb_closed s then Err ErrNotRunning
  else match batches s !! digest with
       | None => Err ErrBatchNotFound
       | Some batch => Ok batch
       end.

Definition Memory_HasBatch (digest : Hash) (s : MemoryBatchStore) : bool :=
  if mb_closed s then false
  else match batches s !! digest with Some _ => true | None => false end.

Definition Memory_GetBatchesByRound (round : Z) (s : MemoryBatchStore) : result (list Batch) :=
  if mb_closed s then Err ErrNotRunning
  else match byRound s !! round with
       | None => Ok []
       | Some digests => Ok (lookup_all (batches s) digests)
       end.

Definition Memory_DeleteBatchesBefore (round : Z) (s : MemoryBatchStore) :
    MemoryBatchStore * option error :=
  if mb_closed s then (s, Some ErrNotRunning)
  else
    let roundsToDelete := rounds_before round (byRound s) in
    let '(bs, br) := delete_rounds roundsToDelete (batches s) (byRound s) in
    (mk_MemoryBatchStore bs br (mb_closed s), None).

Definition Memory_BatchStore_Close (s : MemoryBatchStore) : MemoryBatchStore * option error :=
  (mk_MemoryBatchStore ∅ ∅ true, None).
Definition Memory_BatchStore_Len (s : MemoryBatchStore) : Z := zsize (batches s).

#[export] Instance memory_batch_store : BatchStore MemoryBatchStore := {|
  SaveBatch := Memory_SaveBatch; GetBatch := Memory_GetBatch; HasBatch := Memory_HasBatch;
  GetBatchesByRound := Memory_GetBatchesByRound;
  DeleteBatchesBefore := Memory_DeleteBatchesBefore
|}.

Definition mb_ok (s : MemoryBatchStore) : Prop :=
  mb_closed s = false ∧ indexed Batch_Digest Batch_Round (batches s) (byRound s).

Lemma mb_ok_new : mb_ok NewMemoryBatchStore.
Proof. split; [done|apply indexed_empty]. Qed.

Lemma lookup_isSome_bool {A} (m : gmap Hash A) d :
  match m !! d with Some _ => true | None => false end = bool_decide (is_Some (m !! d)).
Proof. destruct (m !! d); [by rewrite bool_decide_eq_true_2|]. by rewrite bool_decide_eq_false_2 by by intros []. Qed.

(** The memory batch store meets the contract. *)
#[export] Instance memory_batch_laws : BatchStoreLaws MemoryBatchStore.
Proof.
  refine {| bs_ok := mb_ok; bs_view := batches |};
    cbn [SaveBatch GetBatch HasBatch GetBatchesByRound DeleteBatchesBefore memory_batch_store].
  - intros s d b [_ Hix]. apply (ix_key _ _ _ _ Hix).
  - intros s b [Hc Hix]. unfold Memory_SaveBatch, insert_new. rewrite Hc.
    destruct (batches s !! Batch_Digest b) eqn:E; cbn; split_and!; try done.
    split; [done|]. by apply (indexed_save Batch_Digest Batch_Round).
  - intros s d [Hc _]. unfold Memory_GetBatch. by rewrite Hc.
  - intros s d [Hc _]. unfold Memory_HasBatch. rewrite Hc. apply lookup_isSome_bool.
  - intros s r [Hc Hix]. unfold Memory_GetBatchesByRound. rewrite Hc.
    destruct (indexed_lookup_all _ _ _ _ r Hix) as [Hnd Hl].
    destruct (byRound s !! r); eexists; split_and!; done.
  - intros s r [Hc Hix]. unfold Memory_DeleteBatchesBefore. rewrite Hc.
    destruct (indexed_delete_before _ _ r _ _ Hix) as [H1 H2].
    destruct (delete_rounds _ _ _) as [bs br]. cbn in *. by split_and!.
Defined.

(** * memory_cert.go *)
Record MemoryCertificateStore := mk_MemoryCertificateStore {
  certs : gmap Hash Certificate;
  c_byRound : gmap Z (list Hash);
  byValidator : gmap Z (gmap Z Hash);
  mc_closed : bool
}.

Definition NewMemoryCertificateStore : MemoryCertificateStore :=
  mk_MemoryCertificateStore ∅ ∅ ∅ false.

Definition Memory_SaveCertificate (cert : Certificate) (s : MemoryCertificateStore) :
    MemoryCertificateStore * option error :=
  if mc_closed s then (s, Some ErrNotRunning)
  else
    let digest := CDigest cert in
    match certs s !! digest with
    | Some _ => (s, None)
    | None =>
        let round := CRound cert in
        (mk_MemoryCertificateStore (<[digest := cert]> (certs s))
           (append_at round digest (c_byRound s))
           (<[round := <[CAuthor cert := digest]> (default ∅ (byValidator s !! round))]> (byValidator s))
           (mc_closed s), None)
    end.

Definition Memory_GetCertificate (digest : Hash) (s : MemoryCertificateStore) : result Certificate :=
  if mc_closed s then Err ErrNotRunning
  else match certs s !! digest with
       | None => Err ErrCertificateNotFound
       | Some cert => Ok cert
       end.

Definition Memory_HasCertificate (digest : Hash) (s : MemoryCertificateStore) : bool :=
  if mc_closed s then false
  else match certs s !! digest with Some _ => true | None => false end.

Definition Memory_GetCertificatesByRound (round : Z) (s : MemoryCertificateStore) :
    result (list Certificate) :=
  if mc_closed s then Err ErrNotRunning
  else match c_byRound s !! round with
       | None => Ok []
       | Some digests => Ok (lookup_all (certs s) digests)
       end.

Definition Memory_GetCertificateForValidator (round validator : Z) (s : MemoryCertificateStore) :
    result Certificate :=
  if mc_closed s then Err ErrNotRunning
  else match byValidator s !! round with
       | None => Err ErrCertificateNotFound
       | Some validatorMap =>
           match validatorMap !! validator with
           | None => Err ErrCertificateNotFound
           | Some digest =>
               match certs s !! digest with
               | None => Err ErrCertificateNotFound
               | Some cert => Ok cert
               end
           end
       end.

Definition Memory_DeleteCertificatesBefore (round : Z) (s : MemoryCertificateStore) :
    MemoryCertificateStore * option error :=
  if mc_closed s then (s, Some ErrNotRunning)
  else
    let roundsToDelete := rounds_before round (c_byRound s) in
    let '(cs, br) := delete_rounds roundsToDelete (certs s) (c_byRound s) in
    let bv := fold_left (λ m r, delete r m) roundsToDelete (byValidator s) in
    (mk_MemoryCertificateStore cs br bv (mc_closed s), None).

Definition Memory_CertificateStore_Close (s : MemoryCertificateStore) :
    MemoryCertificateStore * option error :=
  (mk_MemoryCertificateStore ∅ ∅ ∅ true, None).

Definition Memory_HighestRound (s : MemoryCertificateStore) : Z :=
  fold_left (λ highest round, if bool_decide (round > highest) then round else highest)
    (map_to_list (c_byRound s)).*1 0.

Definition Memory_CertificateStore_Len (s : MemoryCertificateStore) : Z := zsize (certs s).

#[export] Instance memory_certificate_store : CertificateStore MemoryCertificateStore := {|
  SaveCertificate := Memory_SaveCertificate; GetCertificate := Memory_GetCertificate;
  HasCertificate := Memory_HasCertificate; GetCertificatesByRound := Memory_GetCertificatesByRound;
  GetCertificateForValidator := Memory_GetCertificateForValidator;
  DeleteCertificatesBefore := Memory_DeleteCertificatesBefore;
  HighestRound := Memory_HighestRound
|}.

(** The validator index points at a stored certificate of that round and
    author, and every stored certificate's author is indexed. *)
Record mc_ok (s : MemoryCertificateStore) : Prop := {
  mc_open : mc_closed s = false;
  mc_indexed : indexed CDigest CRound (certs s) (c_byRound s);
  mc_validator r v d : default ∅ (byValidator s !! r) !! v = Some d →
    ∃ c, certs s !! d = Some c ∧ CRound c = r ∧ CAuthor c = v;
  mc_author d c : certs s !! d = Some c →
    is_Some (default ∅ (byValidator s !! CRound c) !! CAuthor c)
}.

Lemma mc_ok_new : mc_ok NewMemoryCertificateStore.
Proof.
  split; [done|apply indexed_empty| |].
  - intros r v d. cbn. by rewrite lookup_empty.
  - intros d c. cbn. by rewrite lookup_empty.
Qed.

Lemma mc_ok_save s c : mc_ok s → certs s !! CDigest c = None → mc_ok (Memory_SaveCertificate c s).1.
Proof.
  intros [Hc Hix Hv Ha] E. unfold Memory_SaveCertificate. rewrite Hc, E.
  split; cbn; [done | by apply (indexed_save CDigest CRound) | |].
  - intros r v d. destruct (decide (r = CRound c)) as [->|Hr].
    + rewrite lookup_insert_eq. cbn.
      intros [[<- <-]|[Hne H]]%lookup_insert_Some; [exists c; by rewrite lookup_insert_eq|].
      destruct (Hv _ _ _ H) as (c' & E' & ?). exists c'. rewrite lookup_insert_ne by congruence. done.
    + rewrite lookup_insert_ne by done. intros H. destruct (Hv _ _ _ H) as (c' & E' & ?).
      exists c'. rewrite lookup_insert_ne by congruence. done.
  - intros d c'. destruct (decide (CRound c' = CRound c)) as [Er|Hr].
    + rewrite Er, lookup_insert_eq. cbn. rewrite lookup_insert_is_Some.
      intros [[<- <-]|[Hne H]]%lookup_insert_Some; [by left|].
      destruct (decide (CAuthor c = CAuthor c')) as [|Hne']; [by left|right]. split; [done|].
      rewrite <-Er. by eapply Ha.
    + rewrite (lookup_insert_ne (byValidator s)) by done. intros [[<- <-]|[Hne H]]%lookup_insert_Some; [done|]. by eapply Ha.
Qed.

Lemma lookup_delete_all {A} (ks : list Z) (m : gmap Z A) r :
  fold_left (λ m r, delete r m) ks m !! r = if decide (r ∈ ks) then None else m !! r.
Proof.
  revert m. induction ks as [|k ks IH]; intros m; cbn [fold_left].
  - by destruct (decide (r ∈ [])) as [[]%not_elem_of_nil|].
  - rewrite IH. destruct (decide (r ∈ ks)) as [H1|H1], (decide (r ∈ k :: ks)) as [H2|H2]; try done.
    + by destruct H2; right.
    + apply elem_of_cons in H2 as [->|]; [apply lookup_delete_eq|done].
    + rewrite lookup_delete_ne; [done|]. intros ->. apply H2. left.
Qed.

Lemma mc_ok_delete s round :
  mc_ok s → let s' := (Memory_DeleteCertificatesBefore round s).1 in
  mc_ok s' ∧ certs s' = filter (λ q, round ≤ CRound q.2) (certs s).
Proof.
  intros [Hc Hix Hv Ha]. unfold Memory_DeleteCertificatesBefore. rewrite Hc.
  destruct (indexed_delete_before _ _ round _ _ Hix) as [H1 H2].
  destruct (delete_rounds _ _ _) as [cs br]. cbn in *. split; [|done]. subst cs.
  split; cbn; [done|done| |].
  - intros r v d. rewrite lookup_delete_all. case_decide as Hr; [cbn; by rewrite lookup_empty|].
    intros H. destruct (Hv _ _ _ H) as (c & E & Er & Ev). exists c.
    rewrite map_lookup_filter_Some. split_and!; auto. cbn.
    unfold rounds_before in Hr. rewrite list_elem_of_filter in Hr.
    destruct (decide (round ≤ CRound c)); [done|]. destruct Hr. split; [lia|].
    assert (d ∈ default [] (c_byRound s !! r)) as Hd by (apply (ix_round _ _ _ _ Hix); eauto).
    destruct (c_byRound s !! r) as [ds|] eqn:Eds; [|by apply not_elem_of_nil in Hd].
    apply list_elem_of_fmap. exists (r, ds). split; [done|]. by apply elem_of_map_to_list.
  - intros d c [E Hr]%map_lookup_filter_Some. cbn in Hr. rewrite lookup_delete_all.
    rewrite decide_False; [by eapply Ha|]. unfold rounds_before. rewrite list_elem_of_filter. lia.
Qed.

(** The memory certificate store meets the contract. *)
#[export] Instance memory_certificate_laws : CertificateStoreLaws MemoryCertificateStore.
Proof.
  refine {| cs_ok := mc_ok; cs_view := certs |};
    cbn [SaveCertificate GetCertificate HasCertificate GetCertificatesByRound
         DeleteCertificatesBefore memory_certificate_store].
  - intros s d b Hok. apply (ix_key _ _ _ _ (mc_indexed s Hok)).
  - intros s c Hok. destruct (certs s !! CDigest c) eqn:E.
    + unfold Memory_SaveCertificate, insert_new. by rewrite (mc_open _ Hok), E.
    + split_and!; [| by apply mc_ok_save |];
        unfold Memory_SaveCertificate, insert_new; by rewrite (mc_open _ Hok), E.
  - intros s d Hok. unfold Memory_GetCertificate. by rewrite (mc_open _ Hok).
  - intros s d Hok. unfold Memory_HasCertificate. rewrite (mc_open _ Hok). apply lookup_isSome_bool.
  - intros s r Hok. unfold Memory_GetCertificatesByRound. rewrite (mc_open _ Hok).
    destruct (indexed_lookup_all _ _ _ _ r (mc_indexed _ Hok)) as [Hnd Hl].
    exists (lookup_all (certs s) (default [] (c_byRound s !! r))). split_and!; [|done| |].
    + by destruct (c_byRound s !! r).
    + intros c. apply Hl.
    + intros d c E Er. exists c. split; [|done]. apply Hl.
      by rewrite (ix_key _ _ _ _ (mc_indexed _ Hok) _ _ E).
  - intros s r Hok. destruct (mc_ok_delete s r Hok) as [H1 H2].
    split_and!; [|done| |].
    + unfold Memory_DeleteCertificatesBefore. rewrite (mc_open _ Hok). by destruct (delete_rounds _ _ _).
    + rewrite H2. apply map_filter_subseteq.
    + intros d c E Hr. rewrite H2, map_lookup_filter_Some. done.
Defined.

(** ** Refinement of the batch store by a finite map

    The writes of a batch store as a trace, on an implementation and on the
    map of the specification. *)
Inductive batch_op := OpSave (b : Batch) | OpDeleteBefore (round : Z).

Definition batch_step {S} `{BatchStore S} (s : S) (op : batch_op) : S * option error :=
  match op with
  | OpSave b => SaveBatch b s
  | OpDeleteBefore r => DeleteBatchesBefore r s
  end.

(** The state after a trace, and whether some write failed. *)
Definition batch_run {S} `{BatchStore S} (s : S) (ops : list batch_op) : S * bool :=
  fold_left (λ '(s, failed) op,
    let '(s', err) := batch_step s op in
    (s', match err with Some _ => true | None => failed end)) ops (s, false).

Definition spec_step (m : gmap Hash Batch) (op : batch_op) : gmap Hash Batch :=
  match op with
  | OpSave b => insert_new (Batch_Digest b) b m
  | OpDeleteBefore r => filter (λ p, r ≤ Batch_Round p.2) m
  end.

Section refinement.
Context {S : Type} {BS : BatchStore S} {BL : BatchStoreLaws S}.

Lemma batch_step_refines s op :
  bs_ok s → let r := batch_step s op in
  r.2 = None ∧ bs_ok r.1 ∧ bs_view r.1 = spec_step (bs_view s) op.
Proof. intros Hok. destruct op; [by apply bs_save | by apply bs_delete]. Qed.

Lemma batch_run_refines s ops :
  bs_ok s → let r := batch_run s ops in
  r.2 = false ∧ bs_ok r.1 ∧ bs_view r.1 = fold_left spec_step ops (bs_view s).
Proof.
  unfold batch_run. revert s. induction ops as [|op ops IH]; intros s Hok; [done|]. cbn [fold_left].
  destruct (batch_step_refines s op Hok) as (E & Hok' & Hv).
  destruct (batch_step s op) as [s' err]. cbn in *. subst err.
  destruct (IH s' Hok') as (Hf & Hok'' & Hv'). split_and!; [exact Hf|exact Hok''|]. rewrite Hv'. by f_equal.
Qed.
End refinement.

(** C30. The memory batch store refines a finite map: after any trace of
    [SaveBatch] and [DeleteBatchesBefore] on a fresh store no write has failed,
    and every query answers as the map does, where saving keeps an existing
    batch of the same digest and deletion keeps exactly the batches at or above
    the round; the round query lists each matching batch once. *)
Theorem memory_batch_store_refines ops :
  let r := batch_run NewMemoryBatchStore ops in
  let m := fold_left spec_step ops ∅ in
  r.2 = false ∧
  (∀ d, GetBatch d r.1 = match m !! d with Some b => Ok b | None => Err ErrBatchNotFound end) ∧
  (∀ d, HasBatch d r.1 = bool_decide (is_Some (m !! d))) ∧
  (∀ round, ∃ l, GetBatchesByRound round r.1 = Ok l ∧ NoDup (Batch_Digest <$> l) ∧
     ∀ b, b ∈ l ↔ m !! Batch_Digest b = Some b ∧ Batch_Round b = round).
Proof.
  intros r m. pose proof (batch_run_refines NewMemoryBatchStore ops) as H.
  destruct (H mb_ok_new) as (Hf & Hok & Hv).
  change (bs_view NewMemoryBatchStore) with (∅ : gmap Hash Batch) in Hv.
  fold r m in Hf, Hok, Hv. split; [done|]. rewrite <-Hv.
  split_and!; [intros d; by apply bs_get | intros d; by apply bs_has | intros k; by apply bs_round].
Qed.

(** ** The validator and round indexes of the memory certificate store *)
Lemma fold_max l a :
  let m := fold_left (λ highest round, if bool_decide (round > highest) then round else highest) l a in
  a ≤ m ∧ (∀ x, x ∈ l → x ≤ m) ∧ (m = a ∨ m ∈ l).
Proof.
  revert a. induction l as [|x l IH]; intros a; cbn [fold_left].
  - split_and!; [lia| |by left]. by intros x ?%not_elem_of_nil.
  - case_bool_decide; destruct (IH (if bool_decide (x > a) then x else a)) as (H1 & H2 & H3);
      case_bool_decide; try lia; (split_and!; [lia| |]).
    + intros y [->|Hy]%elem_of_cons; [lia|by apply H2].
    + destruct H3 as [->|]; right; [left|by right].
    + intros y [->|Hy]%elem_of_cons; [lia|by apply H2].
    + destruct H3 as [->|]; [by left|right; by right].
Qed.

(** Traces of the certificate store. *)
Inductive cert_op := CSave (c : Certificate) | CDeleteBefore (round : Z).

Definition cert_step {S} `{CertificateStore S} (s : S) (op : cert_op) : S :=
  match op with
  | CSave c => (SaveCertificate c s).1
  | CDeleteBefore r => (DeleteCertificatesBefore r s).1
  end.

Lemma cert_run_ok {S} `{CertificateStoreLaws S} (s : S) ops :
  cs_ok s → cs_ok (fold_left cert_step ops s).
Proof.
  revert s. induction ops as [|op ops IH]; intros s Hok; [done|]. apply IH.
  destruct op; [by apply cs_save | by apply cs_delete].
Qed.

(** After any trace of writes on a fresh memory certificate store,
    [GetCertificateForValidator] finds a certificate exactly when one of that
    round and author is stored, and what it returns is stored and has that
    round and author; [HighestRound] is the largest round of a stored
    certificate, 0 if there is none. *)
Theorem memory_certificate_store_indexes ops :
  let s := fold_left cert_step ops NewMemoryCertificateStore in
  (∀ r v, match Memory_GetCertificateForValidator r v s with
          | Ok c => Memory_GetCertificate (CDigest c) s = Ok c ∧ CRound c = r ∧ CAuthor c = v
          | Err e => e = ErrCertificateNotFound ∧
              ∀ d c, Memory_GetCertificate d s = Ok c → ¬ (CRound c = r ∧ CAuthor c = v)
          end) ∧
  (∀ d c, Memory_GetCertificate d s = Ok c → CRound c ≤ Memory_HighestRound s) ∧
  (Memory_HighestRound s = 0 ∨
   ∃ d c, Memory_GetCertificate d s = Ok c ∧ CRound c = Memory_HighestRound s).
Proof.
  intros s. pose proof (cert_run_ok NewMemoryCertificateStore ops) as Hok.
  specialize (Hok mc_ok_new). change (mc_ok s) in Hok. destruct Hok as [Hc Hix Hv Ha].
  assert (∀ d c, Memory_GetCertificate d s = Ok c ↔ certs s !! d = Some c) as Hget.
  { intros d c. unfold Memory_GetCertificate. rewrite Hc. destruct (certs s !! d); naive_solver. }
  split_and!.
  - intros r v. unfold Memory_GetCertificateForValidator. rewrite Hc.
    destruct (default ∅ (byValidator s !! r) !! v) as [d|] eqn:E.
    + destruct (Hv _ _ _ E) as (c & Ec & Hr & Hau). destruct (byValidator s !! r) as [vm|]; [|done].
      cbn in E. rewrite E, Ec, Hget. by rewrite (ix_key _ _ _ _ Hix _ _ Ec).
    + assert (∀ d c, Memory_GetCertificate d s = Ok c → ¬ (CRound c = r ∧ CAuthor c = v)) as Hno.
      { intros d c Hd%Hget [<- <-]. destruct (Ha _ _ Hd) as [? E']. congruence. }
      destruct (byValidator s !! r) as [vm|]; [|done]. cbn in E. by rewrite E.
  - intros d c Hd%Hget. unfold Memory_HighestRound.
    destruct (fold_max (map_to_list (c_byRound s)).*1 0) as (_ & Hmax & _). apply Hmax.
    assert (d ∈ default [] (c_byRound s !! CRound c)) as Hin by (apply (ix_round _ _ _ _ Hix); eauto).
    destruct (c_byRound s !! CRound c) as [ds|] eqn:E; [|by apply not_elem_of_nil in Hin].
    apply list_elem_of_fmap. exists (CRound c, ds). split; [done|]. by apply elem_of_map_to_list.
  - unfold Memory_HighestRound.
    destruct (fold_max (map_to_list (c_byRound s)).*1 0) as (_ & _ & [->|Hin]); [by left|right].
    apply list_elem_of_fmap in Hin as ([r ds] & -> & E%elem_of_map_to_list). cbn.
    destruct (ix_nodup _ _ _ _ Hix _ _ E) as [_ Hne]. destruct ds as [|d ds]; [done|].
    assert (d ∈ default [] (c_byRound s !! r)) as Hd by (rewrite E; left).
    apply (ix_round _ _ _ _ Hix) in Hd as (c & Ec & Er). exists d, c. by rewrite Hget.
Qed.
