(* ===== verification/TxIndex.v ===== *)
(** The transaction index (store/memory_txindex.go): transaction hashes to
    batch digests and back, with the round of each indexed batch. *)
From S2P Require Import Prelude Bytes Errors Types Batch Store.
Local Open Scope Z_scope.

(** The operations of the interface TxIndex (store/store.go) other components
    call. *)
Class TxIndex (I : Type) := {
  TI_HasTx : Hash → I → bool;
  TI_AddBatch : Batch → I → I * option error;
  TI_GetBatchForTx : Hash → I → result Hash;
  TI_RemoveTxsForBatch : Hash → I → I * option error;
  TI_PruneOlderThan : Z → I → I * result Z
}.

(** What an index promises, on the map from transactions to batches it stands
    for, while it is open and its invariant holds. *)
Class TxIndexLaws (I : Type) `{TxIndex I} := {
  ix_ok : I → Prop;
  ix_view : I → gmap Hash Hash;
  ix_has i t : ix_ok i → TI_HasTx t i = bool_decide (is_Some (ix_view i !! t));
  ix_add i b : ix_ok i →
    let r := TI_AddBatch b i in
    r.2 = None ∧ ix_ok r.1 ∧
    ∀ t, ix_view r.1 !! t =
      match ix_view i !! t with
      | Some b' => Some b'
      | None => if decide (t ∈ map Tx_Hash (Transactions b)) then Some (Batch_Digest b) else None
      end;
  ix_remove i b : ix_ok i →
    let r := TI_RemoveTxsForBatch b i in
    r.2 = None ∧ ix_ok r.1 ∧
    ∀ t, ix_view r.1 !! t = (ix_view i !! t ≫= λ b', if decide (b' = b) then None else Some b');
  ix_prune i round : ix_ok i →
    let r := TI_PruneOlderThan round i in
    is_Ok r.2 ∧ ix_ok r.1 ∧ ix_view r.1 ⊆ ix_view i
}.

Record MemoryTxIndex := mk_MemoryTxIndex {
  txToBatch : gmap Hash Hash;
  batchToTxs : gmap Hash (list Hash);
  batchRounds : gmap Hash Z;
  ti_closed : bool
}.

#[export] Instance eta_MemoryTxIndex : Settable MemoryTxIndex := λ x,
  mk_MemoryTxIndex (txToBatch x) (batchToTxs x) (batchRounds x) (ti_closed x).

Definition NewMemoryTxIndex : MemoryTxIndex := mk_MemoryTxIndex ∅ ∅ ∅ false.

Definition TxIndex_AddTx (txHash batchHash : Hash) (idx : MemoryTxIndex) :
    MemoryTxIndex * option error :=
  if ti_closed idx then (idx, Some ErrNotRunning)
  else match txToBatch idx !! txHash with
       | Some existing =>
           if Hash_Equal existing batchHash then (idx, None) else (idx, Some ErrTxAlreadyExists)
       | None =>
           (idx <| txToBatch := <[txHash := batchHash]> (txToBatch idx) |>
                <| batchToTxs := append_at batchHash txHash (batchToTxs idx) |>, None)
       end.

Definition GetBatchForTx (txHash : Hash) (idx : MemoryTxIndex) : result Hash :=
  if ti_closed idx then Err ErrNotRunning
  else match txToBatch idx !! txHash with
       | None => Err ErrBatchNotFound
       | Some batchHash => Ok batchHash
       end.

Definition HasTx (txHash : Hash) (idx : MemoryTxIndex) : bool :=
  if ti_closed idx then false
  else match txToBatch idx !! txHash with Some _ => true | None => false end.

Definition RemoveTxsForBatch (batchHash : Hash) (idx : MemoryTxIndex) :
    MemoryTxIndex * option error :=
  if ti_closed idx then (idx, Some ErrNotRunning)
  else match batchToTxs idx !! batchHash with
       | None => (idx, None)
       | Some txHashes =>
           (idx <| txToBatch := delete_keys txHashes (txToBatch idx) |>
                <| batchToTxs := delete batchHash (batchToTxs idx) |>, None)
       end.

Definition TxIndex_Close (idx : MemoryTxIndex) : MemoryTxIndex * option error :=
  (mk_MemoryTxIndex ∅ ∅ ∅ true, None).

Definition TxIndex_Len (idx : MemoryTxIndex) : Z := zsize (txToBatch idx).

(** One iteration of the loop of [AddBatch]. *)
Definition index_tx (batchHash : Hash) (idx : MemoryTxIndex) (tx : Transaction) : MemoryTxIndex :=
  let txHash := Tx_Hash tx in
  match txToBatch idx !! txHash with
  | Some existing => idx
  | None =>
      idx <| txToBatch := <[txHash := batchHash]> (txToBatch idx) |>
          <| batchToTxs := append_at batchHash txHash (batchToTxs idx) |>
  end.

Definition TxIndex_AddBatch (batch : Batch) (idx : MemoryTxIndex) : MemoryTxIndex * option error :=
  if ti_closed idx then (idx, Some ErrNotRunning)
  else
    let batchHash := Batch_Digest batch in
    let idx := idx <| batchRounds := <[batchHash := Batch_Round batch]> (batchRounds idx) |> in
    (fold_left (index_tx batchHash) (Transactions batch) idx, None).

(** One iteration of the removal loop of [PruneOlderThan]. *)
Definition prune_batch (idx : MemoryTxIndex) (batchHash : Hash) : MemoryTxIndex :=
  let idx :=
    match batchToTxs idx !! batchHash with
    | Some txHashes =>
        idx <| txToBatch := delete_keys txHashes (txToBatch idx) |>
            <| batchToTxs := delete batchHash (batchToTxs idx) |>
    | None => idx
    end in
  idx <| batchRounds := delete batchHash (batchRounds idx) |>.

Definition batches_older (round : Z) (idx : MemoryTxIndex) : list Hash :=
  (filter (λ p, p.2 < round) (map_to_list (batchRounds idx))).*1.

Definition PruneOlderThan (round : Z) (idx : MemoryTxIndex) : MemoryTxIndex * result Z :=
  if ti_closed idx then (idx, Err ErrNotRunning)
  else
    let batchesToPrune := batches_older round idx in
    (fold_left prune_batch batchesToPrune idx, Ok (zlen batchesToPrune)).

#[export] Instance memory_tx_index : TxIndex MemoryTxIndex := {|
  TI_HasTx := HasTx; TI_AddBatch := TxIndex_AddBatch; TI_GetBatchForTx := GetBatchForTx;
  TI_RemoveTxsForBatch := RemoveTxsForBatch; TI_PruneOlderThan := PruneOlderThan
|}.

(** ** The two directions agree *)
Definition ti_ok (idx : MemoryTxIndex) : Prop :=
  ti_closed idx = false ∧
  ∀ t b, txToBatch idx !! t = Some b ↔ t ∈ default [] (batchToTxs idx !! b).

Lemma ti_ok_new : ti_ok NewMemoryTxIndex.
Proof.
  split; [done|]. intros t b. cbn. rewrite !lookup_empty. split; [done|]. by intros ?%not_elem_of_nil.
Qed.

Lemma ti_ok_add idx t b :
  ti_ok idx → txToBatch idx !! t = None →
  ti_ok (idx <| txToBatch := <[t := b]> (txToBatch idx) |>
             <| batchToTxs := append_at b t (batchToTxs idx) |>).
Proof.
  intros [Hc H] Hn. split; [done|]. intros t' b'. cbn. unfold append_at.
  rewrite lookup_insert_Some. destruct (decide (b = b')) as [->|Hb].
  - rewrite lookup_insert_eq. cbn. rewrite elem_of_app, list_elem_of_singleton, <-H.
    split; [naive_solver|]. intros [E| ->]; [|by left]. right. split; [congruence|done].
  - rewrite lookup_insert_ne by done. rewrite <-H. split; [naive_solver|].
    intros E. right. split; [congruence|done].
Qed.

Lemma index_tx_ok b idx tx : ti_ok idx → ti_ok (index_tx b idx tx).
Proof. intros H. unfold index_tx. destruct (_ !! _) eqn:E; [done|]. by apply ti_ok_add. Qed.

(** Indexing the transactions of a batch: existing entries stay, every
    transaction of the batch is found, a new entry points at the batch. *)
Lemma index_txs_spec b txs idx :
  let idx' := fold_left (index_tx b) txs idx in
  batchRounds idx' = batchRounds idx ∧ ti_closed idx' = ti_closed idx ∧
  ∀ t, txToBatch idx' !! t =
    match txToBatch idx !! t with
    | Some b' => Some b'
    | None => if decide (t ∈ map Tx_Hash txs) then Some b else None
    end.
Proof.
  revert idx. induction txs as [|tx txs IH]; intros idx; cbn [fold_left map].
  - split_and!; [done..|]. intros t. destruct (_ !! _); [done|].
    rewrite decide_False; [done|]. apply not_elem_of_nil.
  - destruct (IH (index_tx b idx tx)) as (H1 & H2 & H3). split_and!.
    + rewrite H1. unfold index_tx. by destruct (_ !! _).
    + rewrite H2. unfold index_tx. by destruct (_ !! _).
    + intros t. rewrite H3. unfold index_tx.
      destruct (txToBatch idx !! Tx_Hash tx) as [b'|] eqn:E.
      * destruct (txToBatch idx !! t) eqn:Et; [done|]. apply decide_ext.
        rewrite elem_of_cons. split; [auto|]. intros [->|]; [congruence|done].
      * cbn. destruct (decide (t = Tx_Hash tx)) as [->|Hne].
        -- rewrite lookup_insert_eq, E. rewrite decide_True; [done|left].
        -- rewrite lookup_insert_ne by done. destruct (txToBatch idx !! t); [done|].
           apply decide_ext. rewrite elem_of_cons. naive_solver.
Qed.

Lemma prune_batch_spec idx b :
  ti_ok idx → ti_ok (prune_batch idx b) ∧
  ∀ t, txToBatch (prune_batch idx b) !! t =
    match txToBatch idx !! t with
    | Some b' => if decide (b' = b) then None else Some b'
    | None => None
    end.
Proof.
  intros [Hc H].
  assert (∀ t, txToBatch (prune_batch idx b) !! t =
    match txToBatch idx !! t with
    | Some b' => if decide (b' = b) then None else Some b'
    | None => None
    end) as Hs.
  { intros t. unfold prune_batch. destruct (batchToTxs idx !! b) as [l|] eqn:E; cbn.
    - rewrite lookup_delete_keys. case_decide as Ht.
      + assert (txToBatch idx !! t = Some b) as -> by (apply H; by rewrite E). by rewrite decide_True.
      + destruct (txToBatch idx !! t) as [b'|] eqn:Et; [|done]. rewrite decide_False; [done|].
        intros ->. apply H in Et. by rewrite E in Et.
    - destruct (txToBatch idx !! t) as [b'|] eqn:Et; [|done]. rewrite decide_False; [done|].
      intros ->. apply H in Et. rewrite E in Et. by apply not_elem_of_nil in Et. }
  split; [|done]. split; [unfold prune_batch; by destruct (_ !! _)|].
  intros t b'. rewrite Hs. destruct (decide (b' = b)) as [->|Hne]; unfold prune_batch.
  - destruct (batchToTxs idx !! b) eqn:E; cbn.
    + rewrite lookup_delete_eq. cbn. split; [|by intros ?%not_elem_of_nil].
      destruct (_ !! t); [|done]. case_decide; [done|]. naive_solver.
    + rewrite E. cbn. split; [|by intros ?%not_elem_of_nil].
      destruct (_ !! t); [|done]. case_decide; [done|]. naive_solver.
  - assert (batchToTxs (prune_batch idx b) !! b' = batchToTxs idx !! b') as E.
    { unfold prune_batch. destruct (batchToTxs idx !! b); cbn; [by rewrite lookup_delete_ne|done]. }
    unfold prune_batch in E. rewrite E, <-H. destruct (_ !! t); [|done]. case_decide; naive_solver.
Qed.

Lemma prune_batches_spec bs idx :
  ti_ok idx → let idx' := fold_left prune_batch bs idx in
  ti_ok idx' ∧
  ∀ t, txToBatch idx' !! t =
    match txToBatch idx !! t with
    | Some b => if decide (b ∈ bs) then None else Some b
    | None => None
    end.
Proof.
  revert idx. induction bs as [|b bs IH]; intros idx Hok; cbn [fold_left].
  - split; [done|]. intros t. destruct (_ !! _); [|done]. rewrite decide_False; [done|apply not_elem_of_nil].
  - destruct (prune_batch_spec idx b Hok) as [Hok' Hs]. destruct (IH _ Hok') as [Hok'' Hs'].
    split; [done|]. intros t. rewrite Hs', Hs. destruct (txToBatch idx !! t) as [b'|]; [|done].
    destruct (decide (b' = b)) as [->|Hne].
    + rewrite decide_True; [done|left].
    + apply decide_ext. rewrite elem_of_cons. naive_solver.
Qed.

(** ** Traces *)
Inductive index_op :=
  | OpAddTx (t b : Hash) | OpAddBatch (b : Batch) | OpRemove (b : Hash) | OpPrune (round : Z).

Definition index_step (idx : MemoryTxIndex) (op : index_op) : MemoryTxIndex :=
  match op with
  | OpAddTx t b => (TxIndex_AddTx t b idx).1
  | OpAddBatch b => (TxIndex_AddBatch b idx).1
  | OpRemove b => (RemoveTxsForBatch b idx).1
  | OpPrune r => (PruneOlderThan r idx).1
  end.

Lemma index_step_ok idx op : ti_ok idx → ti_ok (index_step idx op).
Proof.
  intros Hok. pose proof Hok as [Hc H]. destruct op as [t b|b|b|r]; cbn.
  - unfold TxIndex_AddTx. rewrite Hc. destruct (_ !! _) eqn:E; [by destruct (Hash_Equal _ _)|].
    by apply ti_ok_add.
  - unfold TxIndex_AddBatch. rewrite Hc. cbn [fst].
    set (idx' := idx <| batchRounds := _ |>).
    assert (ti_ok idx') as Hok' by done. revert Hok'. generalize idx'.
    induction (Transactions b) as [|tx txs IH]; intros i Hi; [done|]. by apply IH, index_tx_ok.
  - unfold RemoveTxsForBatch. rewrite Hc. destruct (batchToTxs idx !! b) as [l|] eqn:E; [|done].
    destruct (prune_batch_spec idx b Hok) as [[_ Hp] _]. unfold prune_batch in Hp. rewrite E in Hp.
    by split.
  - unfold PruneOlderThan. rewrite Hc. by apply prune_batches_spec.
Qed.

Lemma RemoveTxsForBatch_spec idx b t :
  ti_ok idx → txToBatch (RemoveTxsForBatch b idx).1 !! t =
    (txToBatch idx !! t ≫= λ b', if decide (b' = b) then None else Some b').
Proof.
  intros Hok. destruct (prune_batch_spec idx b Hok) as [_ Hs]. specialize (Hs t).
  transitivity (txToBatch (prune_batch idx b) !! t); [|rewrite Hs; by destruct (_ !! t)].
  unfold RemoveTxsForBatch, prune_batch. destruct Hok as [-> _]. by destruct (batchToTxs idx !! b).
Qed.

#[export] Instance memory_index_laws : TxIndexLaws MemoryTxIndex.
Proof.
  refine {| ix_ok := ti_ok; ix_view := txToBatch |}.
  - intros i t [Hc _]. cbn. unfold HasTx. rewrite Hc. symmetry.
    destruct (txToBatch i !! t); [by apply bool_decide_eq_true_2|by apply bool_decide_eq_false_2; intros []].
  - intros i b Hok. split_and!; [|by apply (index_step_ok i (OpAddBatch b))|]; cbn;
      unfold TxIndex_AddBatch; destruct Hok as [-> _]; [done|]. cbn [fst]. intros t.
    edestruct (index_txs_spec (Batch_Digest b) (Transactions b)) as (_ & _ & ->). done.
  - intros i b Hok. split_and!; [|by apply (index_step_ok i (OpRemove b))|]; cbn.
    + unfold RemoveTxsForBatch. destruct Hok as [-> _]. by destruct (_ !! _).
    + intros t. by apply RemoveTxsForBatch_spec.
  - intros i r Hok. split_and!; [|by apply (index_step_ok i (OpPrune r))|]; cbn;
      unfold PruneOlderThan; pose proof Hok as [-> _]; [by eexists|]. cbn [fst].
    destruct (prune_batches_spec (batches_older r i) i Hok) as [_ Hs].
    apply map_subseteq_spec. intros t b. rewrite Hs. destruct (_ !! t); [|done]. by case_decide.
Defined.

Lemma index_run_ok ops : ti_ok (fold_left index_step ops NewMemoryTxIndex).
Proof.
  enough (∀ idx, ti_ok idx → ti_ok (fold_left index_step ops idx)) as Hg by apply Hg, ti_ok_new.
  induction ops as [|op ops IH]; intros idx Hok; [done|]. by apply IH, index_step_ok.
Qed.

(** Indexing and pruning of transactions, in every state a fresh index
    reaches: [AddBatch] makes every transaction of the batch findable, points
    new ones at the batch and never changes an existing entry;
    [PruneOlderThan] removes exactly the transactions whose batch was indexed
    with a smaller round and returns how many batches it pruned. *)
Theorem tx_index_add_and_prune ops batch round :
  let idx := fold_left index_step ops NewMemoryTxIndex in
  (TxIndex_AddBatch batch idx).2 = None ∧
  (∀ t, GetBatchForTx t (TxIndex_AddBatch batch idx).1 =
     match GetBatchForTx t idx with
     | Ok b => Ok b
     | Err e => if decide (t ∈ map Tx_Hash (Transactions batch)) then Ok (Batch_Digest batch) else Err e
     end) ∧
  (∀ t, GetBatchForTx t (PruneOlderThan round idx).1 =
     match GetBatchForTx t idx with
     | Ok b => match batchRounds idx !! b with
               | Some r => if decide (r < round) then Err ErrBatchNotFound else Ok b
               | None => Ok b
               end
     | Err e => Err e
     end) ∧
  (PruneOlderThan round idx).2 = Ok (zsize (filter (λ p, p.2 < round) (batchRounds idx))).
Proof.
  intros idx. pose proof (index_run_ok ops) as Hok. fold idx in Hok. pose proof Hok as [Hc H].
  unfold TxIndex_AddBatch, PruneOlderThan, GetBatchForTx. rewrite Hc. cbn [fst snd].
  split_and!; [done| | |].
  - intros t. edestruct (index_txs_spec (Batch_Digest batch) (Transactions batch)) as (_ & E2 & E3).
    rewrite E2, E3. cbn. rewrite Hc. destruct (txToBatch idx !! t); [done|]. by case_decide.
  - intros t. destruct (prune_batches_spec (batches_older round idx) idx Hok) as [[E1 _] E2].
    rewrite E1, E2. destruct (txToBatch idx !! t) as [b|]; [|done].
    unfold batches_older. destruct (batchRounds idx !! b) as [r|] eqn:Er.
    + destruct (decide (r < round)) as [Hlt|Hge].
      * rewrite decide_True; [done|]. apply list_elem_of_fmap. exists (b, r). split; [done|].
        apply list_elem_of_filter. split; [done|]. by apply elem_of_map_to_list.
      * rewrite decide_False; [done|]. intros ([b' r'] & -> & Hin)%list_elem_of_fmap.
        apply list_elem_of_filter in Hin as [Hlt Hin]. apply elem_of_map_to_list in Hin. cbn in *. congruence.
    + rewrite decide_False; [done|]. intros ([b' r'] & -> & Hin)%list_elem_of_fmap.
      apply list_elem_of_filter in Hin as [Hlt Hin]. apply elem_of_map_to_list in Hin. cbn in *. congruence.
  - do 2 f_equal. unfold batches_older. rewrite length_fmap. apply length_filter_map.
Qed.
