(* ===== verification/Dag.v ===== *)
(** The certificate DAG (dag/dag.go): rounds of certificates by author, the
    digest index, the persistent store behind them, and the cache of causal
    histories.  Every method holds the DAG's mutexes for its whole effect, so
    each is one atomic state change.  The store is any implementation of the
    interface [CertificateStore], or absent ([certStore == nil]). *)
From S2P Require Import Prelude Bytes Errors Types Batch Header BitSet Certificate Store.
Local Open Scope Z_scope.

Record Config := mk_Config {
  MaxCachedRounds : Z;
  MaxHistoryDepth : Z;
  MaxHistoryCacheSize : Z
}.

Definition DefaultConfig : Config :=
  {| MaxCachedRounds := 100; MaxHistoryDepth := 1000; MaxHistoryCacheSize := 1000 |}.

(** * RoundData *)
Record RoundData := mk_RoundData {
  RD_Round : Z;
  Certificates : gmap Z Certificate;
  committed : bool
}.
#[export] Instance eta_RoundData : Settable RoundData := λ rd,
  mk_RoundData (RD_Round rd) (Certificates rd) (committed rd).

Definition NewRoundData (round : Z) : RoundData := mk_RoundData round ∅ false.

Definition RD_AddCertificate (rd : RoundData) (cert : Certificate) : RoundData :=
  rd <| Certificates := <[CAuthor cert := cert]> (Certificates rd) |>.
Definition RD_GetCertificate (rd : RoundData) (validator : Z) : option Certificate :=
  Certificates rd !! validator.
Definition RD_HasCertificate (rd : RoundData) (validator : Z) : bool :=
  match Certificates rd !! validator with Some _ => true | None => false end.
Definition RD_Count (rd : RoundData) : Z := zsize (Certificates rd).
Definition SetCommitted (rd : RoundData) : RoundData := rd <| committed := true |>.
Definition GetAllCertificates {RO : RangeOrder Z Certificate} (rd : RoundData) : list Certificate :=
  (range (Certificates rd)).*2.

(** * The DAG *)
Record DAG (S : Type) := mk_DAG {
  rounds : gmap Z RoundData;
  certIndex : gmap Hash Certificate;
  highestRound : Z;
  committedRound : Z;
  hasCommitted : bool;
  certStore : option S;
  dag_cfg : Config;
  historyCache : gmap Hash (list Certificate);
  historyCacheKeys : list Hash
}.
Arguments mk_DAG {S}.
Arguments rounds {S}.
Arguments certIndex {S}.
Arguments highestRound {S}.
Arguments committedRound {S}.
Arguments hasCommitted {S}.
Arguments certStore {S}.
Arguments dag_cfg {S}.
Arguments historyCache {S}.
Arguments historyCacheKeys {S}.

#[export] Instance eta_DAG {S} : Settable (DAG S) := λ d,
  mk_DAG (rounds d) (certIndex d) (highestRound d) (committedRound d) (hasCommitted d)
    (certStore d) (dag_cfg d) (historyCache d) (historyCacheKeys d).

Section dag.
Context {S : Type} {CS : CertificateStore S} {RO : RangeOrder Z Certificate}.
Implicit Types d : DAG S.

Definition New (certStore : option S) (cfg : Config) : DAG S :=
  mk_DAG ∅ ∅ 0 0 false certStore cfg ∅ [].

Definition hasCertificateLocked d (digest : Hash) : bool :=
  match certIndex d !! digest with
  | Some _ => true
  | None => match certStore d with
            | Some s => HasCertificate digest s
            | None => false
            end
  end.

Definition head_round_above (newRound : Z) (history : list Certificate) : bool :=
  match history with
  | [] => false
  | c :: _ => bool_decide (CRound c > newRound)
  end.

Definition invalidateHistoryCacheForCertificate d (newCert : Certificate) : DAG S :=
  let newRound := CRound newCert in
  let keysToRemove :=
    (filter (λ p, head_round_above newRound p.2 = true) (map_to_list (historyCache d))).*1 in
  let d := d <| historyCache := delete_keys keysToRemove (historyCache d) |> in
  if bool_decide (zlen keysToRemove > 0)
  then d <| historyCacheKeys := filter (λ key, key ∉ keysToRemove) (historyCacheKeys d) |>
  else d.

Definition invalidateHistoryCacheLocked d : DAG S :=
  d <| historyCache := ∅ |> <| historyCacheKeys := [] |>.

Definition AddCertificate (cert : option Certificate) d : DAG S * option error :=
  match cert with
  | None => (d, Some ErrInvalidCertificate)
  | Some cert =>
      let round := CRound cert in
      let author := CAuthor cert in
      let digest := CDigest cert in
      let rd := default (NewRoundData round) (rounds d !! round) in
      let d := d <| rounds := <[round := rd]> (rounds d) |> in
      if RD_HasCertificate rd author then (d, Some ErrDuplicateHeader)
      else if bool_decide (round > 0) &&
              negb (forallb (λ p, hasCertificateLocked d (CR_Digest p)) (Parents (CHeader cert)))
      then (d, Some ErrMissingParents)
      else
        let d := d <| rounds := <[round := RD_AddCertificate rd cert]> (rounds d) |> in
        let d := d <| certIndex := <[digest := cert]> (certIndex d) |> in
        let d := if bool_decide (round > highestRound d) then d <| highestRound := round |> else d in
        let d := invalidateHistoryCacheForCertificate d cert in
        match certStore d with
        | None => (d, None)
        | Some s => let '(s', err) := SaveCertificate cert s in (d <| certStore := Some s' |>, err)
        end
  end.

Definition GetCertificate d (digest : Hash) : result Certificate :=
  match certIndex d !! digest with
  | Some cert => Ok cert
  | None => match certStore d with
            | Some s => Store.GetCertificate digest s
            | None => Err ErrCertificateNotFound
            end
  end.

Definition HasCertificate d (digest : Hash) : bool :=
  match certIndex d !! digest with
  | Some _ => true
  | None => match certStore d with
            | Some s => Store.HasCertificate digest s
            | None => false
            end
  end.

Definition GetRound d (round : Z) : option RoundData := rounds d !! round.

Definition GetCertificatesForRound d (round : Z) : list Certificate :=
  match rounds d !! round with
  | None => match certStore d with
            | Some s => match GetCertificatesByRound round s with Ok certs => certs | Err _ => [] end
            | None => []
            end
  | Some rd => GetAllCertificates rd
  end.

Definition GetCertificateForValidator d (round validator : Z) : option Certificate :=
  match rounds d !! round with
  | None => match certStore d with
            | Some s => match Store.GetCertificateForValidator round validator s with
                        | Ok cert => Some cert
                        | Err _ => None
                        end
            | None => None
            end
  | Some rd => RD_GetCertificate rd validator
  end.

Definition SetCommittedRound d (round : Z) : DAG S :=
  let d := d <| committedRound := round |> <| hasCommitted := true |> in
  d <| rounds := map_imap (λ r rd, Some (if bool_decide (r ≤ round) then SetCommitted rd else rd))
                   (rounds d) |>.

Definition CanAdvanceToRound d (round quorum : Z) : bool :=
  if bool_decide (round = 0) then true
  else match rounds d !! u64 (round - 1) with
       | None => false
       | Some prevRound => bool_decide (RD_Count prevRound >= quorum)
       end.

Definition CertificateCount d (round : Z) : Z :=
  match rounds d !! round with
  | None => 0
  | Some rd => RD_Count rd
  end.

(** ** Causal history: breadth first through parent references *)

(** The state of the traversal: [queue], [visited] and [result]. *)
Record bfs := mk_bfs {
  queue : list Certificate;
  visited : gset Hash;
  bfs_result : list Certificate
}.

Definition visit_parent d (st : bfs) (parentRef : CertificateRef) : bfs :=
  if decide (CR_Digest parentRef ∈ visited st) then st
  else
    let vis := {[ CR_Digest parentRef ]} ∪ visited st in
    match GetCertificate d (CR_Digest parentRef) with
    | Ok parentCert => mk_bfs (queue st ++ [parentCert]) vis (bfs_result st)
    | Err _ => mk_bfs (queue st) vis (bfs_result st)
    end.

(** [levelSize] iterations of the inner loop, each popping the queue's head. *)
Fixpoint bfs_inner d (levelSize : nat) (st : bfs) : bfs :=
  match levelSize with
  | O => st
  | Datatypes.S n =>
      match queue st with
      | [] => st
      | current :: rest =>
          bfs_inner d n
            (fold_left (visit_parent d) (Parents (CHeader current))
               (mk_bfs rest (visited st) (bfs_result st ++ [current])))
      end
  end.

(** The outer loop, [depthLeft = MaxHistoryDepth - depth]. *)
Fixpoint bfs_outer d (depthLeft : nat) (st : bfs) : bfs :=
  match depthLeft with
  | O => st
  | Datatypes.S n =>
      match queue st with
      | [] => st
      | _ => bfs_outer d n (bfs_inner d (length (queue st)) st)
      end
  end.

Definition traverse d (cert : Certificate) : list Certificate :=
  bfs_result (bfs_outer d (Z.to_nat (MaxHistoryDepth (dag_cfg d)))
                (mk_bfs [cert] {[ CDigest cert ]} [])).

(** Dropping the [n] oldest keys. *)
Fixpoint evict (n : nat) (cache : gmap Hash (list Certificate)) (keys : list Hash) :
    gmap Hash (list Certificate) * list Hash :=
  match n, keys with
  | Datatypes.S n', oldKey :: keys' => evict n' (delete oldKey cache) keys'
  | _, _ => (cache, keys)
  end.

Definition CausalHistory d (cert : option Certificate) : DAG S * list Certificate :=
  match cert with
  | None => (d, [])
  | Some cert =>
      let digest := CDigest cert in
      match historyCache d !! digest with
      | Some cached => (d, cached)
      | None =>
          let result := traverse d cert in
          let size := MaxHistoryCacheSize (dag_cfg d) in
          let '(cache, keys) :=
            if bool_decide (size > 0) && bool_decide (zlen (historyCacheKeys d) >= size)
            then
              let evictCount := Z.quot size 10 in
              let evictCount := if bool_decide (evictCount < 1) then 1 else evictCount in
              evict (Z.to_nat evictCount) (historyCache d) (historyCacheKeys d)
            else (historyCache d, historyCacheKeys d) in
          (d <| historyCache := <[digest := result]> cache |>
             <| historyCacheKeys := keys ++ [digest] |>, result)
      end
  end.

(** ** Ordered certificates *)
Definition ordered_round d (round : Z) : list Certificate :=
  sort_slice (by_key CAuthor) (GetCertificatesForRound d round).

(** The loop [for round := fromRound; round <= toRound; round++]; [None] when
    [fuel] iterations did not end it. *)
Fixpoint ordered_loop d (fuel : nat) (round toRound : Z) (result : list Certificate) :
    option (list Certificate) :=
  if bool_decide (round ≤ toRound)
  then match fuel with
       | O => None
       | Datatypes.S n =>
           let certs := GetCertificatesForRound d round in
           let result := if bool_decide (zlen certs = 0) then result else result ++ ordered_round d round in
           ordered_loop d n (u64 (round + 1)) toRound result
       end
  else Some result.

Definition GetOrderedCertificates d (fromRound toRound : Z) : option (list Certificate) :=
  if bool_decide (fromRound > toRound) then Some []
  else ordered_loop d (Z.to_nat (toRound - fromRound + 1)) fromRound toRound [].

(** ** Pruning and loading *)
Definition round_digests (rd : RoundData) : list Hash := CDigest <$> (map_to_list (Certificates rd)).*2.

Definition PruneRound d (round : Z) : DAG S :=
  let d := match rounds d !! round with
           | None => d
           | Some rd => d <| certIndex := delete_keys (round_digests rd) (certIndex d) |>
           end in
  let d := d <| rounds := delete round (rounds d) |> in
  d <| historyCache := ∅ |> <| historyCacheKeys := [] |>.

Definition PruneRoundsBefore d (round : Z) : DAG S :=
  let d :=
    fold_left (λ d '(r, rd),
      if bool_decide (r < round)
      then d <| certIndex := delete_keys (round_digests rd) (certIndex d) |>
             <| rounds := delete r (rounds d) |>
      else d) (map_to_list (rounds d)) d in
  d <| historyCache := ∅ |> <| historyCacheKeys := [] |>.

Definition RoundCount d : Z := zsize (rounds d).

Definition load_certs (certs : list Certificate) (rd : RoundData) (index : gmap Hash Certificate) :
    RoundData * gmap Hash Certificate :=
  fold_left (λ '(rd, index) cert, (RD_AddCertificate rd cert, <[CDigest cert := cert]> index))
    certs (rd, index).

Definition LoadRound d (round : Z) : DAG S * option error :=
  match certStore d with
  | None => (d, None)
  | Some s =>
      match GetCertificatesByRound round s with
      | Err err => (d, Some err)
      | Ok certs =>
          let '(rd, index) := load_certs certs (NewRoundData round) (certIndex d) in
          let d := d <| certIndex := index |> <| rounds := <[round := rd]> (rounds d) |> in
          (if bool_decide (round > highestRound d) then d <| highestRound := round |> else d, None)
      end
  end.

(** The loop of [LoadRoundsFrom]: [fuel] iterations from [round]. *)
Fixpoint load_rounds (fuel : nat) (round highest : Z) d : option (DAG S * option error) :=
  if bool_decide (round ≤ highest)
  then match fuel with
       | O => None
       | Datatypes.S n =>
           let '(d, err) := LoadRound d round in
           match err with
           | Some e => Some (d, Some e)
           | None => load_rounds n (u64 (round + 1)) highest d
           end
       end
  else Some (d, None).

Definition LoadRoundsFrom d (fromRound : Z) : option (DAG S * option error) :=
  match certStore d with
  | None => Some (d, None)
  | Some s =>
      let highest := HighestRound s in
      load_rounds (Z.to_nat (highest - fromRound + 1)) fromRound highest d
  end.
End dag.

(** ** State invariant *)

(** The certificate the DAG holds in memory for a round and author. *)
Definition mem_cert {S} (d : DAG S) (r a : Z) : option Certificate :=
  rounds d !! r ≫= λ rd, Certificates rd !! a.

(** Lookups return certificates of the digest asked for. *)
Definition keyed {S} `{CertificateStore S} (d : DAG S) : Prop := ∀ dg c, GetCertificate d dg = Ok c → CDigest c = dg.

Record dag_ok {S} `{CertificateStoreLaws S} (d : DAG S) : Prop := {
  ok_placed r a c : mem_cert d r a = Some c → CRound c = r ∧ CAuthor c = a ∧ r ≤ highestRound d;
  ok_index dg c : certIndex d !! dg = Some c → CDigest c = dg;
  ok_store s : certStore d = Some s → cs_ok s;
  ok_keys_nodup : NoDup (historyCacheKeys d);
  ok_keys k : k ∈ historyCacheKeys d ↔ is_Some (historyCache d !! k);
  ok_cache_size : 0 < MaxHistoryCacheSize (dag_cfg d) →
    zlen (historyCacheKeys d) ≤ MaxHistoryCacheSize (dag_cfg d)
}.

Section invariant.
Context {S : Type} {CS : CertificateStore S} {CL : CertificateStoreLaws S}.
Implicit Types d : DAG S.

Lemma dag_ok_keyed d : dag_ok d → keyed d.
Proof.
  intros Hok dg c. unfold GetCertificate.
  destruct (certIndex d !! dg) as [c'|] eqn:E; [intros; simplify_eq; by apply (ok_index _ Hok)|].
  destruct (certStore d) as [s|] eqn:Es; [|done]. pose proof (ok_store _ Hok s Es) as Hs.
  rewrite cs_get by done. destruct (cs_view s !! dg) eqn:Ev; [|done].
  intros; simplify_eq. by eapply cs_key.
Qed.

Lemma has_get d dg : dag_ok d → HasCertificate d dg = true ↔ is_Ok (GetCertificate d dg).
Proof.
  intros Hok. unfold HasCertificate, GetCertificate, is_Ok.
  destruct (certIndex d !! dg) as [c'|] eqn:E; [naive_solver|].
  destruct (certStore d) as [s|] eqn:Es; [|naive_solver]. pose proof (ok_store _ Hok s Es) as Hs.
  rewrite cs_get, cs_has, bool_decide_eq_true by done. unfold is_Some.
  destruct (cs_view s !! dg); naive_solver.
Qed.

Lemma dag_ok_New cs cfg : (∀ s, cs = Some s → cs_ok s) → dag_ok (New cs cfg).
Proof.
  intros Hs. split; cbn.
  - intros r a c. unfold mem_cert. cbn. by rewrite lookup_empty.
  - intros dg c. by rewrite lookup_empty.
  - done.
  - constructor.
  - intros k. rewrite lookup_empty. split; [by intros ?%not_elem_of_nil|by intros []].
  - lia.
Qed.

(** ** AddCertificate *)
Definition parents_present d (c : Certificate) : bool :=
  forallb (λ p, HasCertificate d (CR_Digest p)) (Parents (CHeader c)).

(** The error of [AddCertificate], from the state before the call. *)
Definition add_error d (c : Certificate) : option error :=
  if bool_decide (is_Some (mem_cert d (CRound c) (CAuthor c))) then Some ErrDuplicateHeader
  else if bool_decide (CRound c > 0) && negb (parents_present d c) then Some ErrMissingParents
  else None.

Lemma invalidate_frame d c :
  let d' := invalidateHistoryCacheForCertificate d c in
  rounds d' = rounds d ∧ certIndex d' = certIndex d ∧ highestRound d' = highestRound d ∧
  committedRound d' = committedRound d ∧ hasCommitted d' = hasCommitted d ∧
  certStore d' = certStore d ∧ dag_cfg d' = dag_cfg d.
Proof. unfold invalidateHistoryCacheForCertificate. by case_bool_decide. Qed.

Lemma has_author d c :
  RD_HasCertificate (default (NewRoundData (CRound c)) (rounds d !! CRound c)) (CAuthor c)
  = bool_decide (is_Some (mem_cert d (CRound c) (CAuthor c))).
Proof.
  unfold RD_HasCertificate, mem_cert. destruct (rounds d !! CRound c) as [rd|]; cbn.
  - destruct (Certificates rd !! CAuthor c); [by rewrite bool_decide_eq_true_2|].
    by rewrite bool_decide_eq_false_2 by by intros [].
  - by rewrite lookup_empty.
Qed.

(** What a call changes: an error leaves everything but an empty entry for the
    round as it was. *)
Definition touch_round d (r : Z) : DAG S :=
  d <| rounds := <[r := default (NewRoundData r) (rounds d !! r)]> (rounds d) |>.

Lemma mem_cert_touch d r0 r a : mem_cert (touch_round d r0) r a = mem_cert d r a.
Proof.
  unfold mem_cert, touch_round. cbn. destruct (decide (r0 = r)) as [->|Hne].
  - rewrite lookup_insert_eq. cbn. destruct (rounds d !! r); [done|]. cbn. apply lookup_empty.
  - by rewrite lookup_insert_ne.
Qed.

(** The state after an accepted certificate, before it is stored. *)
Definition place d (c : Certificate) : DAG S :=
  let rd := default (NewRoundData (CRound c)) (rounds d !! CRound c) in
  d <| rounds := <[CRound c := RD_AddCertificate rd c]> (rounds d) |>
    <| certIndex := <[CDigest c := c]> (certIndex d) |>
    <| highestRound := Z.max (CRound c) (highestRound d) |>.
Definition accept d (c : Certificate) : DAG S :=
  invalidateHistoryCacheForCertificate (place d c) c.

(** What saving the certificate answers. *)
Definition save_error d (c : Certificate) : option error :=
  match certStore d with Some s => (SaveCertificate c s).2 | None => None end.

Lemma AddCertificate_result d c :
  AddCertificate (Some c) d =
    match add_error d c with
    | Some e => (touch_round d (CRound c), Some e)
    | None => (match certStore d with
               | None => accept d c
               | Some s => (accept d c) <| certStore := Some (SaveCertificate c s).1 |>
               end, save_error d c)
    end.
Proof.
  unfold AddCertificate, add_error, save_error. rewrite has_author.
  case_bool_decide; [done|].
  change (forallb _ (Parents (CHeader c))) with (parents_present d c).
  destruct (bool_decide (CRound c > 0) && negb (parents_present d c)) eqn:E; [done|]. cbv zeta.
  set (d1 := d <| rounds := _ |> <| rounds := _ |> <| certIndex := _ |>).
  assert ((if bool_decide (CRound c > highestRound d1) then d1 <| highestRound := CRound c |> else d1)
    = place d c) as ->.
  { clear E. unfold d1, place. cbn. rewrite insert_insert_eq. case_bool_decide; f_equal; lia. }
  fold (accept d c).
  assert (certStore (accept d c) = certStore d) as Es by apply (invalidate_frame (place d c) c).
  rewrite Es. destruct (certStore d) as [s|] eqn:Ed; [|done]. by destruct (SaveCertificate c s).
Qed.

Lemma AddCertificate_cases d c :
  (∀ s, certStore d = Some s → cs_ok s) →
  let r := AddCertificate (Some c) d in
  r.2 = add_error d c ∧
  r.1 = match add_error d c with
        | Some _ => touch_round d (CRound c)
        | None => match certStore d with
                  | None => accept d c
                  | Some s => (accept d c) <| certStore := Some (SaveCertificate c s).1 |>
                  end
        end.
Proof.
  intros Hs. cbv zeta. rewrite AddCertificate_result. unfold save_error. destruct (add_error d c); [done|].
  destruct (certStore d) as [s|]; [|done]. by destruct (cs_save s c (Hs s eq_refl)) as (H1 & _).
Qed.

Lemma accept_frame d c :
  certStore (accept d c) = certStore d ∧ dag_cfg (accept d c) = dag_cfg d ∧
  highestRound (accept d c) = Z.max (CRound c) (highestRound d) ∧
  certIndex (accept d c) = <[CDigest c := c]> (certIndex d) ∧
  ∀ r a, mem_cert (accept d c) r a =
    if decide (r = CRound c ∧ a = CAuthor c) then Some c else mem_cert d r a.
Proof.
  unfold accept, mem_cert.
  destruct (invalidate_frame (place d c) c) as (-> & -> & -> & _ & _ & -> & ->).
  cbn. split_and!; [done..|]. intros r a.
  destruct (decide (r = CRound c)) as [->|Hr].
  - rewrite lookup_insert_eq. cbn. destruct (decide (a = CAuthor c)) as [->|Ha].
    + rewrite lookup_insert_eq. by rewrite decide_True.
    + rewrite lookup_insert_ne by congruence. rewrite decide_False by tauto.
      destruct (rounds d !! CRound c); [done|]. cbn. apply lookup_empty.
  - rewrite lookup_insert_ne by congruence. by rewrite decide_False by tauto.
Qed.

Lemma mem_cert_store d s r a : mem_cert (d <| certStore := s |>) r a = mem_cert d r a.
Proof. done. Qed.

Lemma AddCertificate_mem d c r a :
  (∀ s, certStore d = Some s → cs_ok s) →
  mem_cert (AddCertificate (Some c) d).1 r a =
    if decide (add_error d c = None ∧ r = CRound c ∧ a = CAuthor c) then Some c else mem_cert d r a.
Proof.
  intros Hs. destruct (AddCertificate_cases d c Hs) as [_ E]. rewrite E. clear E.
  destruct (add_error d c) as [e|].
  - rewrite mem_cert_touch, decide_False by naive_solver. done.
  - assert (∀ d', mem_cert d' r a = mem_cert (accept d c) r a → mem_cert d' r a =
      if decide (None = @None error ∧ r = CRound c ∧ a = CAuthor c) then Some c else mem_cert d r a) as Hd.
    { intros d' ->. destruct (accept_frame d c) as (_&_&_&_& ->). apply decide_ext. tauto. }
    destruct (certStore d); by apply Hd.
Qed.

Lemma AddCertificate_get d c dg :
  dag_ok d →
  GetCertificate (AddCertificate (Some c) d).1 dg =
    if decide (add_error d c = None ∧ dg = CDigest c) then Ok c else GetCertificate d dg.
Proof.
  intros Hok. pose proof (ok_store _ Hok) as Hs.
  destruct (AddCertificate_cases d c Hs) as [_ E]. rewrite E. clear E.
  destruct (add_error d c) as [e|]; [by rewrite decide_False by naive_solver|].
  destruct (accept_frame d c) as (E1 & _ & _ & E2 & _).
  destruct (decide (dg = CDigest c)) as [->|Hne].
  - rewrite decide_True by done. unfold GetCertificate.
    destruct (certStore d); cbn; by rewrite E2, lookup_insert_eq.
  - rewrite decide_False by tauto. unfold GetCertificate.
    destruct (certStore d) as [s|] eqn:Es; cbn; rewrite E2, lookup_insert_ne by congruence.
    + destruct (certIndex d !! dg); [done|].
      destruct (cs_save s c (Hs s eq_refl)) as (_ & Hs' & Ev). rewrite !cs_get by auto.
      rewrite Ev. unfold insert_new. destruct (cs_view s !! CDigest c); [done|].
      by rewrite lookup_insert_ne by congruence.
    + by rewrite E1.
Qed.

(** What can be looked up is the same. *)
Definition same_lookups d d' : Prop :=
  (∀ r a, mem_cert d' r a = mem_cert d r a) ∧ ∀ dg, GetCertificate d' dg = GetCertificate d dg.


(** ** Every method keeps the invariant *)

(** The part of the invariant about the history cache. *)
Record cache_ok (size : Z) (cache : gmap Hash (list Certificate)) (keys : list Hash) : Prop := {
  co_nodup : NoDup keys;
  co_keys k : k ∈ keys ↔ is_Some (cache !! k);
  co_size : 0 < size → zlen keys ≤ size
}.

Lemma dag_ok_cache d :
  dag_ok d → cache_ok (MaxHistoryCacheSize (dag_cfg d)) (historyCache d) (historyCacheKeys d).
Proof. intros []. by split. Qed.

Lemma cache_ok_empty size : cache_ok size ∅ [].
Proof.
  split; [constructor| |cbn; lia]. intros k. rewrite lookup_empty.
  split; [by intros ?%not_elem_of_nil|by intros []].
Qed.

Lemma cache_ok_invalidate d c :
  let size := MaxHistoryCacheSize (dag_cfg d) in
  cache_ok size (historyCache d) (historyCacheKeys d) →
  let d' := invalidateHistoryCacheForCertificate d c in
  cache_ok size (historyCache d') (historyCacheKeys d').
Proof.
  intros size [Hn Hk Hs] d'. unfold d', invalidateHistoryCacheForCertificate.
  set (ks := (filter _ _).*1). case_bool_decide as Hl; cbn.
  - split.
    + by apply NoDup_filter.
    + intros k. rewrite lookup_delete_keys, list_elem_of_filter, Hk. case_decide; [|tauto].
      split; [tauto|by intros []].
    + intros H0. pose proof (length_filter (λ key, key ∉ ks) (historyCacheKeys d)). specialize (Hs H0). lia.
  - assert (ks = []) as -> by (destruct ks; [done|cbn in Hl; lia]). by split.
Qed.

Lemma evict_spec n cache keys :
  NoDup keys → (∀ k, k ∈ keys ↔ is_Some (cache !! k)) →
  let r := evict n cache keys in
  r.2 = drop n keys ∧ NoDup r.2 ∧ ∀ k, k ∈ r.2 ↔ is_Some (r.1 !! k).
Proof.
  revert cache keys. induction n as [|n IH]; intros cache keys Hn Hk; [done|].
  destruct keys as [|k0 keys]; [done|]. cbn [evict drop].
  apply NoDup_cons in Hn as [Hni Hn]. apply IH; [done|].
  intros k. destruct (decide (k = k0)) as [->|Hne].
  - rewrite lookup_delete_eq. split; [done|by intros []].
  - rewrite lookup_delete_ne by congruence. rewrite <-Hk, elem_of_cons. naive_solver.
Qed.

Lemma cache_ok_CausalHistory d c :
  let size := MaxHistoryCacheSize (dag_cfg d) in
  cache_ok size (historyCache d) (historyCacheKeys d) →
  let d' := (CausalHistory d c).1 in
  cache_ok size (historyCache d') (historyCacheKeys d').
Proof.
  intros size Hok d'. unfold d', CausalHistory. destruct c as [c|]; [|done].
  destruct (historyCache d !! CDigest c) eqn:E; [done|]. destruct Hok as [Hn Hk Hs].
  assert (∀ cache keys, NoDup keys → (∀ k, k ∈ keys ↔ is_Some (cache !! k)) →
    (CDigest c) ∉ keys → (0 < size → zlen keys + 1 ≤ size) →
    cache_ok size (<[CDigest c := traverse d c]> cache) (keys ++ [CDigest c])) as Hadd.
  { intros cache keys Hn' Hk' Hni Hs'. split.
    - apply NoDup_app. split_and!; [done| |apply NoDup_singleton].
      intros x Hx ->%list_elem_of_singleton. done.
    - intros k. rewrite elem_of_app, list_elem_of_singleton, lookup_insert_is_Some, Hk'.
      destruct (decide (CDigest c = k)); naive_solver.
    - rewrite length_app. cbn. lia. }
  assert ((CDigest c) ∉ historyCacheKeys d) as Hni by (intros [? H]%Hk; congruence).
  fold size. destruct (bool_decide (size > 0) && _) eqn:Eb; cbn.
  - apply andb_true_iff in Eb as [H1%bool_decide_eq_true H2%bool_decide_eq_true].
    set (n := Z.to_nat _). pose proof (evict_spec n _ _ Hn Hk) as (E2 & Hn' & Hk').
    destruct (evict n _ _) as [cache keys]. cbn in *. apply Hadd; try done.
    + subst keys. intros Hd. apply Hni. rewrite <-(take_drop n (historyCacheKeys d)). apply elem_of_app. by right.
    + intros _. subst keys. rewrite length_drop. specialize (Hs ltac:(lia)).
      assert (1 ≤ n)%nat by (unfold n; case_bool_decide; lia). lia.
  - apply Hadd; try done. intros H0. specialize (Hs H0).
    rewrite (bool_decide_eq_true_2 (size > 0)) in Eb by lia. cbn in Eb.
    apply bool_decide_eq_false in Eb. lia.
Qed.

(** Assembling the invariant from its parts. *)
Lemma dag_ok_intro d :
  (∀ r a c, mem_cert d r a = Some c → CRound c = r ∧ CAuthor c = a ∧ r ≤ highestRound d) →
  (∀ dg c, certIndex d !! dg = Some c → CDigest c = dg) →
  (∀ s, certStore d = Some s → cs_ok s) →
  cache_ok (MaxHistoryCacheSize (dag_cfg d)) (historyCache d) (historyCacheKeys d) → dag_ok d.
Proof. intros ??? []. by split. Qed.

Lemma dag_ok_touch d r : dag_ok d → dag_ok (touch_round d r).
Proof.
  intros Hok. apply dag_ok_intro; try apply Hok; [|by apply dag_ok_cache in Hok].
  intros r' a c. rewrite mem_cert_touch. apply (ok_placed _ Hok).
Qed.

Lemma dag_ok_accept d c : dag_ok d → dag_ok (accept d c).
Proof.
  intros Hok. destruct (accept_frame d c) as (E1 & E2 & E3 & E4 & E5).
  apply dag_ok_intro.
  - intros r a x. rewrite E5, E3. case_decide as Hd.
    + intros; simplify_eq. split_and!; [naive_solver..|]. lia.
    + intros Hm. destruct (ok_placed _ Hok _ _ _ Hm) as (?&?&?). split_and!; [done..|lia].
  - intros dg x. rewrite E4. intros [[<- <-]|[_ H]]%lookup_insert_Some; [done|]. by apply (ok_index _ Hok).
  - rewrite E1. apply (ok_store _ Hok).
  - rewrite E2. apply (cache_ok_invalidate (place d c)). by apply dag_ok_cache in Hok.
Qed.

Lemma dag_ok_AddCertificate d c : dag_ok d → dag_ok (AddCertificate c d).1.
Proof.
  intros Hok. destruct c as [c|]; [|done]. pose proof (ok_store _ Hok) as Hs.
  destruct (AddCertificate_cases d c Hs) as [_ E]. rewrite E. clear E.
  destruct (add_error d c); [by apply dag_ok_touch|].
  pose proof (dag_ok_accept d c Hok) as Ha. destruct (certStore d) as [s|] eqn:Es; [|done].
  apply dag_ok_intro; cbn; try apply Ha; [|by apply dag_ok_cache in Ha].
  intros s' [= <-]. by apply cs_save, Hs.
Qed.

Lemma mem_cert_commit d round r a : mem_cert (SetCommittedRound d round) r a = mem_cert d r a.
Proof.
  unfold mem_cert, SetCommittedRound. cbn. rewrite map_lookup_imap.
  destruct (rounds d !! r); cbn; [|done]. by case_bool_decide.
Qed.

Lemma dag_ok_SetCommittedRound d r : dag_ok d → dag_ok (SetCommittedRound d r).
Proof.
  intros Hok. apply dag_ok_intro; try apply Hok; [|by apply dag_ok_cache in Hok].
  intros r' a c. rewrite mem_cert_commit. apply (ok_placed _ Hok).
Qed.

Lemma CausalHistory_frame d c :
  let d' := (CausalHistory d c).1 in
  rounds d' = rounds d ∧ certIndex d' = certIndex d ∧ highestRound d' = highestRound d ∧
  certStore d' = certStore d ∧ dag_cfg d' = dag_cfg d.
Proof.
  unfold CausalHistory. destruct c as [c|]; [|done]. destruct (historyCache d !! CDigest c); [done|].
  by destruct (bool_decide _ && _); [destruct (evict _ _ _)|].
Qed.

Lemma dag_ok_CausalHistory d c : dag_ok d → dag_ok (CausalHistory d c).1.
Proof.
  intros Hok. destruct (CausalHistory_frame d c) as (E1 & E2 & E3 & E4 & E5).
  apply dag_ok_intro; rewrite ?E1, ?E2, ?E3, ?E4, ?E5; try apply Hok.
  - unfold mem_cert. rewrite E1. apply (ok_placed _ Hok).
  - by apply cache_ok_CausalHistory, dag_ok_cache.
Qed.

(** Certificates and index entries only go away. *)
Definition dag_sub d' d : Prop :=
  (∀ r a c, mem_cert d' r a = Some c → mem_cert d r a = Some c) ∧
  (∀ dg c, certIndex d' !! dg = Some c → certIndex d !! dg = Some c) ∧
  highestRound d' = highestRound d ∧ certStore d' = certStore d ∧ dag_cfg d' = dag_cfg d.

Lemma dag_ok_sub d' d :
  dag_ok d → dag_sub d' d → dag_ok (d' <| historyCache := ∅ |> <| historyCacheKeys := [] |>).
Proof.
  intros Hok (H1 & H2 & H3 & H4 & H5). apply dag_ok_intro; cbn.
  - intros r a c Hm%H1. rewrite H3. by apply (ok_placed _ Hok).
  - intros dg c Hm%H2. by apply (ok_index _ Hok).
  - rewrite H4. apply Hok.
  - apply cache_ok_empty.
Qed.

Lemma dag_sub_drop d r ks :
  dag_sub (d <| certIndex := delete_keys ks (certIndex d) |> <| rounds := delete r (rounds d) |>) d.
Proof.
  split_and!; cbn; try done.
  - intros r' a c. unfold mem_cert. cbn. destruct (decide (r = r')) as [->|].
    + by rewrite lookup_delete_eq.
    + by rewrite lookup_delete_ne.
  - intros dg c. rewrite lookup_delete_keys. by case_decide.
Qed.

Lemma dag_sub_trans d1 d2 d3 : dag_sub d1 d2 → dag_sub d2 d3 → dag_sub d1 d3.
Proof. intros (?&?&?&?&?) (?&?&?&?&?). split_and!; eauto; congruence. Qed.

Lemma dag_ok_PruneRound d r : dag_ok d → dag_ok (PruneRound d r).
Proof.
  intros Hok. unfold PruneRound. apply (dag_ok_sub _ d Hok).
  destruct (rounds d !! r) as [rd|]; [exact (dag_sub_drop d r (round_digests rd))|exact (dag_sub_drop d r [])].
Qed.

Lemma dag_ok_PruneRoundsBefore d round : dag_ok d → dag_ok (PruneRoundsBefore d round).
Proof.
  intros Hok. unfold PruneRoundsBefore. apply (dag_ok_sub _ d Hok).
  assert (∀ l d', dag_sub d' d → dag_sub (fold_left (λ d '(r, rd),
      if bool_decide (r < round)
      then d <| certIndex := delete_keys (round_digests rd) (certIndex d) |>
             <| rounds := delete r (rounds d) |>
      else d) l d') d) as Hg; [|by apply Hg].
  induction l as [|[r rd] l IH]; intros d' Hd; [done|]. cbn [fold_left]. apply IH.
  case_bool_decide; [|done]. eapply dag_sub_trans; [exact (dag_sub_drop d' r (round_digests rd))|done].
Qed.

Lemma load_certs_spec certs rd index :
  let p := load_certs certs rd index in
  (∀ a c, Certificates p.1 !! a = Some c → Certificates rd !! a = Some c ∨ (c ∈ certs ∧ CAuthor c = a)) ∧
  (∀ dg c, p.2 !! dg = Some c → index !! dg = Some c ∨ (c ∈ certs ∧ CDigest c = dg)).
Proof.
  unfold load_certs. revert rd index. induction certs as [|x certs IH]; intros rd index; cbn [fold_left].
  - split; eauto.
  - destruct (IH (RD_AddCertificate rd x) (<[CDigest x := x]> index)) as [H1 H2]. split.
    + intros a c [H|[H ?]]%H1; [|right; split; [by right|done]]. cbn in H.
      apply lookup_insert_Some in H as [[<- <-]|[_ H]]; [right; split; [left|done]|by left].
    + intros dg c [H|[H ?]]%H2; [|right; split; [by right|done]].
      apply lookup_insert_Some in H as [[<- <-]|[_ H]]; [right; split; [left|done]|by left].
Qed.

Lemma dag_ok_LoadRound d round : dag_ok d → dag_ok (LoadRound d round).1.
Proof.
  intros Hok. unfold LoadRound. destruct (certStore d) as [s|] eqn:Es; [|done].
  pose proof (ok_store _ Hok s Es) as Hs. destruct (cs_round s round Hs) as (l & -> & Hnd & Hl & _).
  pose proof (load_certs_spec l (NewRoundData round) (certIndex d)) as [H1 H2].
  destruct (load_certs _ _ _) as [rd index]. cbn in *.
  set (d1 := d <| certIndex := index |> <| rounds := <[round := rd]> (rounds d) |>).
  assert (∀ h, round ≤ h → highestRound d ≤ h → dag_ok (d1 <| highestRound := h |>)) as Hd1.
  { intros h Hr Hh. apply dag_ok_intro; cbn; [| | |by apply dag_ok_cache in Hok].
    - intros r a c. unfold mem_cert. cbn. destruct (decide (round = r)) as [->|].
      + rewrite lookup_insert_eq. cbn. intros [H|[H <-]]%H1; [by rewrite lookup_empty in H|].
        apply Hl in H as [_ <-]. done.
      + rewrite lookup_insert_ne by done. intros H%(ok_placed _ Hok). split_and!; [naive_solver..|].
        destruct H as (_ & _ & H). lia.
    - intros dg c [H|[H <-]]%H2; [by apply (ok_index _ Hok)|done].
    - apply Hok. }
  case_bool_decide.
  - apply Hd1; cbn; lia.
  - apply (Hd1 (highestRound d)); cbn in *; lia.
Qed.
End invariant.

(** ** Runs

    The state-changing methods as operations, and sequences of them. *)
Inductive dag_op :=
  | DAdd (c : option Certificate)
  | DCommit (round : Z)
  | DHistory (c : option Certificate)
  | DPrune (round : Z)
  | DPruneBefore (round : Z)
  | DLoad (round : Z).

Section runs.
Context {S : Type} {CS : CertificateStore S} {CL : CertificateStoreLaws S}.
Implicit Types d : DAG S.

Definition dag_exec d (op : dag_op) : DAG S :=
  match op with
  | DAdd c => (AddCertificate c d).1
  | DCommit r => SetCommittedRound d r
  | DHistory c => (CausalHistory d c).1
  | DPrune r => PruneRound d r
  | DPruneBefore r => PruneRoundsBefore d r
  | DLoad r => (LoadRound d r).1
  end.

Definition dag_run d (ops : list dag_op) : DAG S := fold_left dag_exec ops d.

Lemma dag_exec_ok d op : dag_ok d → dag_ok (dag_exec d op).
Proof.
  intros Hok. destruct op; cbn; eauto using dag_ok_AddCertificate, dag_ok_SetCommittedRound,
    dag_ok_CausalHistory, dag_ok_PruneRound, dag_ok_PruneRoundsBefore, dag_ok_LoadRound.
Qed.

Lemma dag_exec_cfg d op : dag_ok d → dag_cfg (dag_exec d op) = dag_cfg d.
Proof.
  intros Hok. destruct op as [[c|]|r|c|r|r|r]; cbn [dag_exec]; try done.
  - destruct (AddCertificate_cases d c (ok_store _ Hok)) as [_ ->].
    destruct (accept_frame d c) as (_ & E & _). destruct (add_error d c); [done|].
    by destruct (certStore d).
  - apply CausalHistory_frame.
  - unfold PruneRound. by destruct (rounds d !! r).
  - unfold PruneRoundsBefore. set (f := λ (d : DAG S) '(r, rd), _). cbn.
    assert (∀ l d', dag_cfg (fold_left f l d') = dag_cfg d') as Hl; [|apply Hl].
    induction l as [|[r0 rd] l IH]; intros d'; [done|]. cbn. rewrite IH. unfold f. by case_bool_decide.
  - unfold LoadRound. repeat go_case; done.
Qed.

Lemma dag_run_ok d ops : dag_ok d → dag_ok (dag_run d ops).
Proof.
  unfold dag_run. revert d. induction ops as [|op ops IH]; intros d Hok; [done|].
  by apply IH, dag_exec_ok.
Qed.

Lemma dag_run_cfg d ops : dag_ok d → dag_cfg (dag_run d ops) = dag_cfg d.
Proof.
  unfold dag_run. revert d. induction ops as [|op ops IH]; intros d Hok; [done|]. cbn.
  rewrite IH by by apply dag_exec_ok. by apply dag_exec_cfg.
Qed.

Lemma mem_cert_PruneRound d round r a :
  mem_cert (PruneRound d round) r a = if decide (r = round) then None else mem_cert d r a.
Proof.
  assert (rounds (PruneRound d round) = delete round (rounds d)) as E
    by (unfold PruneRound; by destruct (rounds d !! round)).
  unfold mem_cert. rewrite E.
  case_decide as Hr; [by rewrite Hr, lookup_delete_eq|by rewrite lookup_delete_ne].
Qed.

Lemma mem_cert_PruneRoundsBefore d round r a :
  mem_cert (PruneRoundsBefore d round) r a = if decide (r < round) then None else mem_cert d r a.
Proof.
  unfold PruneRoundsBefore. set (f := λ (d : DAG S) '(r, rd), _).
  assert (∀ l d', rounds (fold_left f l d') !! r =
    if decide (r < round ∧ r ∈ l.*1) then None else rounds d' !! r) as Hl.
  { induction l as [|[r0 rd] l IH]; intros d'.
    - cbn. rewrite decide_False; [done|]. intros [_ ?%not_elem_of_nil]. done.
    - cbn [fold_left]. rewrite IH. rewrite fmap_cons. cbn [fst].
      destruct (decide (r < round ∧ r ∈ l.*1)) as [[H1 H2]|Hn].
      { rewrite decide_True; [done|]. split; [done|by right]. }
      unfold f at 1. case_bool_decide as Hr; cbn.
      + destruct (decide (r = r0)) as [->|Hne].
        * rewrite lookup_delete_eq, decide_True; [done|]. split; [done|left].
        * rewrite lookup_delete_ne by congruence. rewrite decide_False; [done|].
          rewrite elem_of_cons. tauto.
      + rewrite decide_False; [done|]. rewrite elem_of_cons. intros [? [->|?]]; [done|tauto]. }
  unfold mem_cert. cbn. rewrite Hl. destruct (decide (r < round)) as [Hr|Hr].
  - destruct (rounds d !! r) as [rd|] eqn:E; [|by destruct (decide (_ ∧ _))].
    rewrite decide_True; [done|]. split; [done|].
    apply list_elem_of_fmap. exists (r, rd). split; [done|]. by apply elem_of_map_to_list.
  - by rewrite decide_False by tauto.
Qed.

(** The operation does not drop or reload round [r]. *)
Definition keeps (r : Z) (op : dag_op) : Prop :=
  match op with
  | DPrune r' | DLoad r' => r' ≠ r
  | DPruneBefore r' => r' ≤ r
  | _ => True
  end.

Lemma dag_exec_keeps d op r a c :
  dag_ok d → keeps r op → mem_cert d r a = Some c → mem_cert (dag_exec d op) r a = Some c.
Proof.
  intros Hok Hk Hm. destruct op as [[x|]|round|x|round|round|round]; cbn [dag_exec keeps] in *.
  - rewrite AddCertificate_mem by apply Hok. case_decide as Hd; [|done].
    destruct Hd as (He & -> & ->). unfold add_error in He. rewrite Hm in He.
    by rewrite bool_decide_eq_true_2 in He.
  - done.
  - by rewrite mem_cert_commit.
  - destruct (CausalHistory_frame d x) as (E & _). unfold mem_cert. by rewrite E.
  - rewrite mem_cert_PruneRound, decide_False; [done|congruence].
  - rewrite mem_cert_PruneRoundsBefore, decide_False; [done|lia].
  - unfold LoadRound. destruct (certStore d) as [s|]; [|done].
    destruct (GetCertificatesByRound round s); [|done]. destruct (load_certs _ _ _) as [rd index].
    assert (∀ d', rounds d' = <[round := rd]> (rounds d) → mem_cert d' r a = Some c) as Hl.
    { intros d' E. unfold mem_cert. rewrite E, lookup_insert_ne by done. exact Hm. }
    cbn. case_bool_decide; by apply Hl.
Qed.

Lemma dag_run_keeps d ops r a c :
  dag_ok d → Forall (keeps r) ops → mem_cert d r a = Some c → mem_cert (dag_run d ops) r a = Some c.
Proof.
  unfold dag_run. intros Hok Hk. revert d Hok. induction Hk as [|op ops Hop Hk IH]; intros d Hok Hm; [done|].
  cbn. apply IH; [by apply dag_exec_ok|by apply dag_exec_keeps].
Qed.

(** C3. The invariant of the DAG: starting from an empty DAG, after any
    sequence of calls, a certificate held for a round and author has that round
    and author and is not above [HighestRound]; a certificate found by digest
    has that digest; and the history cache and its key queue hold the same
    digests, each once, at most [MaxHistoryCacheSize] of them when the bound is
    positive. *)
Theorem dag_invariant cs cfg ops :
  (∀ s, cs = Some s → cs_ok s) →
  let d := dag_run (New cs cfg) ops in
  (∀ r a c, mem_cert d r a = Some c → CRound c = r ∧ CAuthor c = a ∧ r ≤ highestRound d) ∧
  (∀ dg c, GetCertificate d dg = Ok c → CDigest c = dg) ∧
  NoDup (historyCacheKeys d) ∧ (∀ k, k ∈ historyCacheKeys d ↔ is_Some (historyCache d !! k)) ∧
  (0 < MaxHistoryCacheSize cfg → zsize (historyCache d) ≤ MaxHistoryCacheSize cfg).
Proof.
  intros Hs d. assert (dag_ok d) as Hok by (by apply dag_run_ok, dag_ok_New).
  assert (dag_cfg d = cfg) as Hcfg by (by apply dag_run_cfg, dag_ok_New).
  pose proof (dag_ok_cache d Hok) as [Hn Hk Hsz].
  split_and!; [apply Hok | apply (dag_ok_keyed d Hok) | done | done |].
  rewrite Hcfg in Hsz. intros H0. specialize (Hsz H0).
  assert (dom (historyCache d) = list_to_set (historyCacheKeys d)) as E.
  { apply set_eq. intros k. by rewrite elem_of_dom, elem_of_list_to_set, Hk. }
  by rewrite <-size_dom, E, size_list_to_set_NoDup.
Qed.

(** C11. No equivocation enters the DAG: once a certificate is held for a round
    and author, it stays the one held there through any sequence of calls that
    neither prunes nor reloads that round, and every certificate offered for
    that round and author is rejected with [ErrDuplicateHeader]. *)
Theorem dag_no_equivocation d ops r a c c' :
  dag_ok d → mem_cert d r a = Some c → Forall (keeps r) ops →
  CRound c' = r → CAuthor c' = a →
  let d' := dag_run d ops in
  GetCertificateForValidator d' r a = Some c ∧
  (AddCertificate (Some c') d').2 = Some ErrDuplicateHeader.
Proof.
  intros Hok Hm Hk <- <- d'. assert (dag_ok d') as Hok' by by apply dag_run_ok.
  assert (mem_cert d' (CRound c') (CAuthor c') = Some c) as Hm' by by apply dag_run_keeps.
  split.
  - unfold GetCertificateForValidator, RD_GetCertificate. unfold mem_cert in Hm'.
    by destruct (rounds d' !! CRound c').
  - destruct (AddCertificate_cases d' c' (ok_store _ Hok')) as [-> _]. unfold add_error.
    by rewrite Hm', bool_decide_eq_true_2.
Qed.
End runs.

(** ** Closed examples *)
#[local] Existing Instance toy_ed25519.

Module DagExample.
Definition genesis : Certificate := Toy.cert 0 0 [10] [] [0; 1; 2].
Definition child : Certificate := Toy.cert 1 1 [11] [GetRef genesis] [0; 1; 2].
Definition rival : Certificate := Toy.cert 0 0 [12] [] [1; 2; 3].
Definition store : MemoryCertificateStore := NewMemoryCertificateStore.
Definition empty : DAG MemoryCertificateStore := New (Some store) DefaultConfig.
Definition two : list dag_op := [DAdd (Some genesis); DAdd (Some child)].
End DagExample.

Lemma example_fresh : ∀ s, Some DagExample.store = Some s → cs_ok s.
Proof. intros s [= <-]. exact mc_ok_new. Qed.

Lemma example_ok ops : dag_ok (dag_run DagExample.empty ops).
Proof. apply dag_run_ok, dag_ok_New, example_fresh. Qed.


Lemma dag_invariant_witness :
  let d := dag_run DagExample.empty DagExample.two in
  CRound DagExample.child = 1 ∧ CAuthor DagExample.child = 1 ∧ 1 ≤ highestRound d.
Proof.
  apply (proj1 (dag_invariant (Some DagExample.store) DefaultConfig DagExample.two example_fresh)).
  by vm_compute.
Defined.

Lemma dag_no_equivocation_witness :
  let d := dag_run DagExample.empty DagExample.two in
  let d' := dag_run d [DPruneBefore 0; DCommit 1] in
  GetCertificateForValidator d' 0 0 = Some DagExample.genesis ∧
  (AddCertificate (Some DagExample.rival) d').2 = Some ErrDuplicateHeader.
Proof.
  apply dag_no_equivocation;
    [apply example_ok | by vm_compute | repeat constructor; vm_compute; congruence | by vm_compute | by vm_compute].
Defined.
