(* ===== verification/DagHistory.v ===== *)
(** Queries on the certificate DAG (dag/dag.go): the breadth-first traversal of
    [CausalHistory] and its cache, and the deterministic order of
    [GetOrderedCertificates].  The definitions are in Dag.v. *)
From S2P Require Import Prelude Bytes Errors Types Batch Header BitSet Certificate Store Dag.
Local Open Scope Z_scope.

(** ** Correctness of the traversal *)
Section traversal.
Context {S : Type} {CS : CertificateStore S}.
Implicit Types d : DAG S.

(** [c'] is found under a parent reference of [c]. *)
Definition parent_step d (c c' : Certificate) : Prop :=
  ∃ p, p ∈ Parents (CHeader c) ∧ GetCertificate d (CR_Digest p) = Ok c'.

(** [c'] is an ancestor of [c] over a path of [n] parent references. *)
Inductive ancestor d (c : Certificate) : nat → Certificate → Prop :=
  | ancestor_self : ancestor d c 0 c
  | ancestor_parent n c1 c2 :
      ancestor d c n c1 → parent_step d c1 c2 → ancestor d c (Datatypes.S n) c2.

(** Everything reached so far, in order. *)
Definition reached (st : bfs) : list Certificate := bfs_result st ++ queue st.

Record bfs_inv d (st : bfs) : Prop := {
  inv_visited dg c : dg ∈ visited st → GetCertificate d dg = Ok c → c ∈ reached st;
  inv_closed c c' : c ∈ bfs_result st → parent_step d c c' → c' ∈ reached st;
  inv_nodup : NoDup (CDigest <$> reached st);
  inv_digests c : c ∈ reached st → CDigest c ∈ visited st
}.

Context d (Hkey : keyed d).

Record visits (st st' : bfs) (ps : list CertificateRef) (new : list Certificate) : Prop := {
  vs_queue : queue st' = queue st ++ new;
  vs_result : bfs_result st' = bfs_result st;
  vs_new c : c ∈ new → ∃ p, p ∈ ps ∧ GetCertificate d (CR_Digest p) = Ok c;
  vs_visited dg c : dg ∈ visited st' → GetCertificate d dg = Ok c → c ∈ reached st';
  vs_seen p : p ∈ ps → CR_Digest p ∈ visited st';
  vs_nodup : NoDup (CDigest <$> reached st');
  vs_digests c : c ∈ reached st' → CDigest c ∈ visited st';
  vs_mono : visited st ⊆ visited st'
}.

Lemma visit_parent_spec p st :
  (∀ dg c, dg ∈ visited st → GetCertificate d dg = Ok c → c ∈ reached st) →
  NoDup (CDigest <$> reached st) → (∀ c, c ∈ reached st → CDigest c ∈ visited st) →
  ∃ new, visits st (visit_parent d st p) [p] new.
Proof using Hkey.
  intros Hv Hn Hd. unfold visit_parent. case_decide as Hin.
  { exists []. split; rewrite ?app_nil_r; try done.
    - by intros ? ?%not_elem_of_nil.
    - by intros q ->%list_elem_of_singleton. }
  destruct (GetCertificate d (CR_Digest p)) as [c|e] eqn:E.
  - exists [c]. split; cbn [queue bfs_result visited]; try done; unfold reached in *; cbn [queue bfs_result].
    + intros x ->%list_elem_of_singleton. exists p. split; [left|done].
    + intros dg x Hdg Ex. apply elem_of_union in Hdg as [->%elem_of_singleton|Hdg].
      * assert (x = c) as -> by congruence. rewrite !elem_of_app. do 2 right. left.
      * specialize (Hv _ _ Hdg Ex). rewrite !elem_of_app in *. tauto.
    + intros q ->%list_elem_of_singleton. set_solver.
    + rewrite app_assoc, fmap_app. apply NoDup_app. split_and!; [done| |apply NoDup_singleton].
      intros x (y & -> & Hy)%list_elem_of_fmap Hx%list_elem_of_singleton.
      apply Hin. rewrite <-(Hkey _ _ E), <-Hx. by apply Hd.
    + intros x. rewrite app_assoc, elem_of_app. intros [Hx| ->%list_elem_of_singleton].
      * apply elem_of_union_r. by apply Hd.
      * rewrite (Hkey _ _ E). set_solver.
    + set_solver.
  - exists []. split; cbn [queue bfs_result visited]; unfold reached in *; cbn [queue bfs_result];
      rewrite ?app_nil_r; try done.
    + by intros ? ?%not_elem_of_nil.
    + intros dg x [->%elem_of_singleton|Hdg]%elem_of_union Ex; [congruence|]. by eapply Hv.
    + intros q ->%list_elem_of_singleton. set_solver.
    + intros x Hx. apply elem_of_union_r. by apply Hd.
    + set_solver.
Qed.

Lemma visits_trans st1 st2 st3 p ps new1 new2 :
  visits st1 st2 [p] new1 → visits st2 st3 ps new2 → visits st1 st3 (p :: ps) (new1 ++ new2).
Proof using.
  intros [Q1 R1 N1 V1 S1 ND1 D1 M1] [Q2 R2 N2 V2 S2 ND2 D2 M2].
  split; try done.
  - by rewrite Q2, Q1, app_assoc.
  - by rewrite R2, R1.
  - intros c [Hc|Hc]%elem_of_app.
    + destruct (N1 _ Hc) as (q & ->%list_elem_of_singleton & ?). exists p. split; [left|done].
    + destruct (N2 _ Hc) as (q & ? & ?). exists q. split; [by right|done].
  - intros q [->|Hq]%elem_of_cons; [|by apply S2]. apply M2, S1. left.
  - by etrans.
Qed.

Lemma visit_parents_spec ps st :
  (∀ dg c, dg ∈ visited st → GetCertificate d dg = Ok c → c ∈ reached st) →
  NoDup (CDigest <$> reached st) → (∀ c, c ∈ reached st → CDigest c ∈ visited st) →
  ∃ new, visits st (fold_left (visit_parent d) ps st) ps new.
Proof using Hkey.
  revert st. induction ps as [|p ps IH]; intros st Hv Hn Hd; cbn [fold_left].
  - exists []. split; rewrite ?app_nil_r; try done; by intros ? ?%not_elem_of_nil.
  - destruct (visit_parent_spec p st Hv Hn Hd) as [new1 V1].
    destruct (IH (visit_parent d st p)) as [new2 V2];
      [apply (vs_visited _ _ _ _ V1) | apply (vs_nodup _ _ _ _ V1) | apply (vs_digests _ _ _ _ V1) |].
    exists (new1 ++ new2). by eapply visits_trans.
Qed.

(** One certificate of the inner loop. *)
Lemma pop_spec_inv current rest st :
  bfs_inv d st → queue st = current :: rest →
  let st' := fold_left (visit_parent d) (Parents (CHeader current))
               (mk_bfs rest (visited st) (bfs_result st ++ [current])) in
  bfs_inv d st' ∧ bfs_result st' = bfs_result st ++ [current] ∧
  ∃ new, queue st' = rest ++ new ∧ ∀ c, c ∈ new → parent_step d current c.
Proof using Hkey.
  intros [Hv Hc Hn Hd] Hq. cbv zeta.
  set (st1 := mk_bfs rest (visited st) (bfs_result st ++ [current])).
  assert (reached st1 = reached st) as Hr.
  { unfold reached. cbn [queue bfs_result st1]. by rewrite Hq, <-app_assoc. }
  destruct (visit_parents_spec (Parents (CHeader current)) st1) as [new V]; rewrite ?Hr; try done.
  destruct V as [Vq Vr Vn Vv Vs Vnd Vd Vm].
  set (st' := fold_left _ _ st1) in *. cbn [queue bfs_result st1] in *.
  split_and!; [|done|].
  - split; try done. intros c c' Hin Hp. rewrite Vr in Hin.
    apply elem_of_app in Hin as [Hin|Hin].
    + specialize (Hc _ _ Hin Hp). rewrite <-Hr in Hc. unfold reached in *. rewrite Vr, Vq.
      cbn [queue bfs_result st1] in *. rewrite !elem_of_app in *. tauto.
    + apply list_elem_of_singleton in Hin as ->. destruct Hp as (p & Hp & E). by eapply Vv, E; apply Vs.
  - exists new. split; [done|]. intros c Hin. destruct (Vn _ Hin) as (p & Hp & E). by exists p.
Qed.

Lemma bfs_inner_spec (cur next : list Certificate) st :
  bfs_inv d st → queue st = cur ++ next →
  let st' := bfs_inner d (length cur) st in
  bfs_inv d st' ∧ bfs_result st' = bfs_result st ++ cur ∧
  ∃ new, queue st' = next ++ new ∧ ∀ c, c ∈ new → ∃ c0, c0 ∈ cur ∧ parent_step d c0 c.
Proof using Hkey.
  revert next st. induction cur as [|c cur IH]; intros next st Hi Hq; cbn [length bfs_inner].
  - split_and!; [done| by rewrite app_nil_r |]. exists []. rewrite app_nil_r. split; [done|].
    by intros ? ?%not_elem_of_nil.
  - rewrite Hq. cbn [app].
    destruct (pop_spec_inv c (cur ++ next) st Hi Hq) as (Hi' & Hr & new & Hq' & Hnew).
    rewrite <-app_assoc in Hq'. destruct (IH (next ++ new) _ Hi' Hq') as (Hi2 & Hr2 & new2 & Hq2 & Hnew2).
    split_and!; [exact Hi2| by rewrite Hr2, Hr, <-app_assoc |].
    exists (new ++ new2). split; [by rewrite Hq2, app_assoc|].
    intros x [Hx|Hx]%elem_of_app.
    + exists c. split; [left|by apply Hnew].
    + destruct (Hnew2 _ Hx) as (c0 & ? & ?). exists c0. split; [by right|done].
Qed.

(** The state after [j] levels, from [c0]. *)
Definition level (c0 : Certificate) (j : nat) (st : bfs) : Prop :=
  bfs_inv d st ∧
  (∀ c, c ∈ bfs_result st → ∃ k, (k < j)%nat ∧ ancestor d c0 k c) ∧
  (∀ c, c ∈ queue st → ancestor d c0 j c) ∧
  (∀ k c, (k < j)%nat → ancestor d c0 k c → c ∈ bfs_result st) ∧
  (∀ c, ancestor d c0 j c → c ∈ reached st).

Lemma level_step c0 j st :
  level c0 j st → level c0 (Datatypes.S j) (bfs_inner d (length (queue st)) st).
Proof using Hkey.
  intros (Hi & Hs & Hq & Hc & Hcj).
  destruct (bfs_inner_spec (queue st) [] st Hi) as (Hi' & Hr & new & Hq' & Hnew); [by rewrite app_nil_r|].
  set (st' := bfs_inner _ _ _) in *. cbn [app] in Hq'.
  assert (∀ k c, (k ≤ j)%nat → ancestor d c0 k c → c ∈ bfs_result st') as Hall.
  { intros k c Hk Ha. rewrite Hr, elem_of_app. destruct (decide (k = j)) as [->|].
    - apply Hcj in Ha. unfold reached in Ha. by apply elem_of_app in Ha.
    - left. by apply (Hc k); [lia|]. }
  split_and!; [done| | | |].
  - intros c. rewrite Hr. intros [Hin|Hin]%elem_of_app.
    + destruct (Hs _ Hin) as (k & ? & ?). exists k. split; [lia|done].
    + exists j. split; [lia|]. by apply Hq.
  - intros c Hin. rewrite Hq' in Hin. destruct (Hnew _ Hin) as (c1 & Hc1 & Hp).
    by eapply ancestor_parent; [apply Hq|].
  - intros k c Hk. apply Hall. lia.
  - intros c Ha. inversion Ha as [|n c1 ? Ha1 Hp]; subst.
    by eapply (inv_closed _ _ Hi'); [eapply Hall|].
Qed.

Lemma bfs_outer_spec c0 depth j st :
  level c0 j st →
  let st' := bfs_outer d depth st in
  NoDup (CDigest <$> bfs_result st') ∧
  ∀ c, c ∈ bfs_result st' ↔ ∃ k, (k < j + depth)%nat ∧ ancestor d c0 k c.
Proof using Hkey.
  revert j st. induction depth as [|n IH]; intros j st HL; cbn [bfs_outer].
  - destruct HL as (Hi & Hs & Hq & Hc & Hcj). split.
    + pose proof (inv_nodup _ _ Hi) as Hn. unfold reached in Hn. rewrite fmap_app in Hn.
      by apply NoDup_app in Hn as [? _].
    + intros c. rewrite Nat.add_0_r. split; [apply Hs|]. intros (k & Hk & Ha). by eapply Hc.
  - destruct (queue st) as [|q qs] eqn:Eq.
    + destruct HL as (Hi & Hs & Hq & Hc & Hcj).
      assert (∀ k c, ancestor d c0 k c → c ∈ bfs_result st) as Hall.
      { intros k c Ha. destruct (decide (k < j)%nat) as [Hk|Hk]; [by eapply Hc|].
        assert (∀ m c, (j ≤ m)%nat → ancestor d c0 m c → c ∈ bfs_result st) as Hge;
          [|by apply (Hge k); [lia|]].
        clear c k Ha Hk. intros m. induction m as [|m IHm]; intros c Hm Ha.
        - replace j with 0%nat in * by lia. apply Hcj in Ha. unfold reached in Ha.
          by rewrite Eq, app_nil_r in Ha.
        - destruct (decide (j = Datatypes.S m)) as [->|].
          { apply Hcj in Ha. unfold reached in Ha. by rewrite Eq, app_nil_r in Ha. }
          inversion Ha as [|? c1 ? Ha1 Hp]; subst.
          assert (c1 ∈ bfs_result st) as H1 by (apply IHm; [lia|done]).
          pose proof (inv_closed _ _ Hi _ _ H1 Hp) as Hr. unfold reached in Hr.
          by rewrite Eq, app_nil_r in Hr. }
      split.
      * pose proof (inv_nodup _ _ Hi) as Hn. unfold reached in Hn. by rewrite Eq, app_nil_r in Hn.
      * intros c. split; [|intros (k & _ & Ha); by eapply Hall].
        intros Hin. destruct (Hs _ Hin) as (k & ? & ?). exists k. split; [lia|done].
    + rewrite <-Eq. apply level_step in HL. destruct (IH _ _ HL) as [Hnd Hm]. split; [done|].
      intros c. rewrite Hm. replace (j + Datatypes.S n)%nat with (Datatypes.S j + n)%nat by lia. done.
Qed.

Lemma traverse_spec c0 :
  GetCertificate d (CDigest c0) = Ok c0 →
  NoDup (CDigest <$> traverse d c0) ∧
  ∀ c, c ∈ traverse d c0 ↔
    ∃ k, Z.of_nat k < MaxHistoryDepth (dag_cfg d) ∧ ancestor d c0 k c.
Proof using Hkey.
  intros Hc0. unfold traverse.
  destruct (bfs_outer_spec c0 (Z.to_nat (MaxHistoryDepth (dag_cfg d))) 0
              (mk_bfs [c0] {[ CDigest c0 ]} [])) as [Hnd Hm].
  - split_and!.
    + split; cbn.
      * intros dg c ->%elem_of_singleton E. assert (c = c0) as -> by congruence. unfold reached. cbn. left.
      * intros c c' ?%not_elem_of_nil. done.
      * apply NoDup_singleton.
      * intros c ->%list_elem_of_singleton. set_solver.
    + intros c ?%not_elem_of_nil. done.
    + intros c ->%list_elem_of_singleton. constructor.
    + intros; lia.
    + intros c Ha. inversion Ha; subst. unfold reached. cbn. left.
  - split; [done|]. intros c. rewrite Hm. split; intros (k & ? & ?); exists k; (split; [lia|done]).
Qed.
End traversal.

(** ** Causal closure and the history cache *)
Section closure.
Context {S : Type} {CS : CertificateStore S} {CL : CertificateStoreLaws S}.
Implicit Types d : DAG S.

(** Every parent of a certificate the DAG can find can be found. *)
Definition causally_closed d : Prop :=
  ∀ dg c p, GetCertificate d dg = Ok c → p ∈ Parents (CHeader c) → is_Ok (GetCertificate d (CR_Digest p)).

(** Operations of a node that does not drop rounds, on certificates that follow
    the protocol: round 0 has no parents, a digest names one certificate, and
    histories are asked for certificates of the DAG. *)
Definition regular d (op : dag_op) : Prop :=
  match op with
  | DAdd (Some c) =>
      (CRound c = 0 → Parents (CHeader c) = []) ∧ 0 ≤ CRound c ∧
      ∀ x, GetCertificate d (CDigest c) = Ok x → x = c
  | DHistory (Some c) => GetCertificate d (CDigest c) = Ok c
  | DAdd None | DHistory None | DCommit _ => True
  | _ => False
  end.

Fixpoint regular_run d (ops : list dag_op) : Prop :=
  match ops with
  | [] => True
  | op :: ops' => regular d op ∧ regular_run (dag_exec d op) ops'
  end.

(** [d'] finds everything [d] finds. *)
Definition extends d d' : Prop :=
  dag_cfg d' = dag_cfg d ∧ ∀ dg c, GetCertificate d dg = Ok c → GetCertificate d' dg = Ok c.

Lemma visit_parent_extends d d' p st :
  extends d d' → is_Ok (GetCertificate d (CR_Digest p)) → visit_parent d' st p = visit_parent d st p.
Proof.
  intros [_ He] [c Hc]. unfold visit_parent. by rewrite Hc, (He _ _ Hc).
Qed.

(** On a closed DAG every certificate the traversal meets has known parents. *)
Definition queue_known d (st : bfs) : Prop :=
  ∀ c, c ∈ queue st → GetCertificate d (CDigest c) = Ok c.

Lemma visit_parents_extends d d' ps st :
  keyed d → extends d d' → (∀ p, p ∈ ps → is_Ok (GetCertificate d (CR_Digest p))) →
  queue_known d st →
  fold_left (visit_parent d') ps st = fold_left (visit_parent d) ps st ∧
  queue_known d (fold_left (visit_parent d) ps st).
Proof.
  intros Hkey He. revert st. induction ps as [|p ps IH]; intros st Hp Hq; [done|]. cbn [fold_left].
  rewrite (visit_parent_extends d d') by (done || apply Hp; left).
  apply IH; [intros; apply Hp; by right|]. destruct (Hp p) as [c Hc]; [left|].
  unfold visit_parent. case_decide; [done|]. rewrite Hc.
  intros x [Hx| ->%list_elem_of_singleton]%elem_of_app; [by apply Hq|].
  by rewrite (Hkey _ _ Hc).
Qed.

Lemma bfs_inner_extends d d' n st :
  keyed d → extends d d' → causally_closed d → queue_known d st →
  bfs_inner d' n st = bfs_inner d n st ∧ queue_known d (bfs_inner d n st).
Proof.
  intros Hkey He Hc. revert st. induction n as [|n IH]; intros st Hq; [done|]. cbn [bfs_inner].
  destruct (queue st) as [|c rest] eqn:Eq; [done|].
  edestruct (visit_parents_extends d d' (Parents (CHeader c))) as [-> Hq']; [done|done| | |by apply IH].
  - intros p. apply Hc with (CDigest c), Hq. rewrite Eq. left.
  - intros x Hx. apply Hq. rewrite Eq. by right.
Qed.

Lemma traverse_extends d d' c :
  keyed d → extends d d' → causally_closed d → GetCertificate d (CDigest c) = Ok c →
  traverse d' c = traverse d c.
Proof.
  intros Hkey He Hc Hg. unfold traverse. rewrite (proj1 He).
  set (st := mk_bfs _ _ _).
  assert (queue_known d st) as Hq by (intros x ->%list_elem_of_singleton; done).
  f_equal. clearbody st. revert st Hq. generalize (Z.to_nat (MaxHistoryDepth (dag_cfg d))).
  induction n as [|n IH]; intros st Hq; [done|]. cbn [bfs_outer].
  destruct (queue st) eqn:Eq; [done|]. rewrite <-Eq.
  destruct (bfs_inner_extends d d' (length (queue st)) st Hkey He Hc Hq) as [-> Hq']. by apply IH.
Qed.

(** The state a regular run keeps: the invariant, closure, and a cache in which
    every history is the one the traversal computes now. *)
Record coherent d : Prop := {
  coh_ok : dag_ok d;
  coh_closed : causally_closed d;
  coh_mem r a c : mem_cert d r a = Some c → GetCertificate d (CDigest c) = Ok c;
  coh_cache dg l : historyCache d !! dg = Some l →
    ∃ c, CDigest c = dg ∧ GetCertificate d dg = Ok c ∧ l = traverse d c
}.

Lemma get_frame d d' :
  certIndex d' = certIndex d → certStore d' = certStore d →
  ∀ dg, GetCertificate d' dg = GetCertificate d dg.
Proof. intros E1 E2 dg. unfold GetCertificate. by rewrite E1, E2. Qed.

Lemma coherent_add d c :
  coherent d → regular d (DAdd (Some c)) → coherent (AddCertificate (Some c) d).1.
Proof.
  intros [Hok Hcl Hmem Hca] (Hr0 & Hr & Hu). set (d' := (AddCertificate (Some c) d).1).
  pose proof (AddCertificate_get d c) as Hget.
  assert (extends d d') as Hext.
  { split; [by apply (dag_exec_cfg d (DAdd (Some c)))|]. intros dg x Hx. unfold d'. rewrite Hget by done.
    case_decide as Hd; [|done]. destruct Hd as [_ ->]. by rewrite (Hu x Hx). }
  assert (∀ dg l, historyCache d' !! dg = Some l → historyCache d !! dg = Some l) as Hsub.
  { intros dg l. unfold d'. destruct (AddCertificate_cases d c (ok_store _ Hok)) as [_ ->].
    destruct (add_error d c); [done|].
    assert (historyCache (accept d c) !! dg = Some l → historyCache d !! dg = Some l) as Ha.
    { unfold accept, invalidateHistoryCacheForCertificate. case_bool_decide; cbn;
        rewrite lookup_delete_keys; by case_decide. }
    destruct (certStore d); exact Ha. }
  split.
  - by apply dag_ok_AddCertificate.
  - intros dg x p Hx Hp. unfold d' in Hx. rewrite Hget in Hx by done. case_decide as Hd.
    + destruct Hd as [He ->]. simplify_eq. unfold add_error in He. case_bool_decide as H1; [done|].
      destruct (decide (CRound x > 0)) as [Hpos|Hz].
      2:{ rewrite Hr0 in Hp by lia. by apply not_elem_of_nil in Hp. }
      rewrite bool_decide_eq_true_2 in He by done. cbn in He.
      destruct (parents_present d x) eqn:Hpp; [|done]. unfold parents_present in Hpp.
      rewrite forallb_true in Hpp. destruct (proj1 (has_get d _ Hok) (Hpp p Hp)) as [y Hy].
      exists y. by apply Hext.
    + destruct (Hcl _ _ _ Hx Hp) as [y Hy]. exists y. by apply Hext.
  - intros r a x Hm. unfold d' in *. rewrite AddCertificate_mem in Hm by apply Hok.
    rewrite Hget by done. case_decide as Hd; [simplify_eq; by rewrite decide_True by naive_solver|].
    pose proof (Hmem _ _ _ Hm) as Hx. case_decide as Hd2; [|done]. destruct Hd2 as [_ E].
    rewrite E in Hx. by rewrite (Hu x Hx).
  - intros dg l Hl%Hsub. destruct (Hca _ _ Hl) as (x & Hx & Hg & ->). exists x. split_and!; [done|by apply Hext|].
    symmetry. apply traverse_extends; try done; [by apply dag_ok_keyed|by rewrite Hx].
Qed.

Lemma coherent_same_lookup d d' :
  coherent d → dag_ok d' → dag_cfg d' = dag_cfg d →
  (∀ dg, GetCertificate d' dg = GetCertificate d dg) →
  (∀ r a, mem_cert d' r a = mem_cert d r a) →
  (∀ dg l, historyCache d' !! dg = Some l →
     historyCache d !! dg = Some l ∨
     ∃ c, CDigest c = dg ∧ GetCertificate d dg = Ok c ∧ l = traverse d c) →
  coherent d'.
Proof.
  intros [Hok Hcl Hmem Hca] Hok' Hcfg Hg Hm Hc. split; [done| | |].
  - intros dg c p. rewrite !Hg. apply Hcl.
  - intros r a c. rewrite Hm, Hg. apply Hmem.
  - intros dg l Hl. assert (∃ c, CDigest c = dg ∧ GetCertificate d dg = Ok c ∧ l = traverse d c)
      as (c & E1 & E2 & ->) by (destruct (Hc _ _ Hl); [by apply Hca|done]).
    exists c. rewrite Hg. split_and!; [done..|]. symmetry.
    apply traverse_extends; [by apply dag_ok_keyed| |done|by rewrite E1].
    split; [done|]. intros dg' x. by rewrite Hg.
Qed.

Lemma coherent_history d c :
  coherent d → regular d (DHistory (Some c)) →
  coherent (CausalHistory d (Some c)).1 ∧ (CausalHistory d (Some c)).2 = traverse d c.
Proof.
  intros Hco Hr. cbn in Hr. pose proof Hco as [Hok Hcl Hmem Hca].
  destruct (CausalHistory_frame d (Some c)) as (E1 & E2 & E3 & E4 & E5). split.
  - apply (coherent_same_lookup d); try done.
    + by apply dag_ok_CausalHistory.
    + by apply get_frame.
    + intros r a. unfold mem_cert. by rewrite E1.
    + intros dg l. unfold CausalHistory. destruct (historyCache d !! CDigest c) eqn:Ec; [by left|].
      assert (∀ cache keys, (∀ k x, cache !! k = Some x → historyCache d !! k = Some x) →
        ∀ n, let r := evict n cache keys in ∀ k x, r.1 !! k = Some x → historyCache d !! k = Some x) as Hev.
      { intros cache keys Hin n. revert cache keys Hin.
        induction n as [|n IH]; intros cache keys Hin; [done|]. destruct keys as [|k0 keys]; [done|].
        cbn [evict]. apply IH. intros k x [_ Hk]%lookup_delete_Some. by apply Hin. }
      destruct (bool_decide _ && _); [|cbn].
      * set (n := Z.to_nat _). specialize (Hev (historyCache d) (historyCacheKeys d) (λ _ _ H, H) n).
        destruct (evict n _ _) as [cache keys]. cbn in *.
        intros [[<- <-]|[_ Hl]]%lookup_insert_Some; [right; by exists c|left; by apply Hev].
      * intros [[<- <-]|[_ Hl]]%lookup_insert_Some; [right; by exists c|by left].
  - unfold CausalHistory. destruct (historyCache d !! CDigest c) as [l|] eqn:Ec.
    + destruct (Hca _ _ Ec) as (x & Hx & Hg & ->). assert (x = c) as -> by congruence. done.
    + by destruct (bool_decide _ && _); [destruct (evict _ _ _)|].
Qed.

Lemma coherent_exec d op : coherent d → regular d op → coherent (dag_exec d op).
Proof.
  intros Hco Hr. destruct op as [[c|]|r|[c|]|r|r|r]; try done; cbn [dag_exec].
  - by apply coherent_add.
  - apply (coherent_same_lookup d); try done.
    + apply dag_ok_SetCommittedRound, Hco.
    + apply mem_cert_commit.
    + intros dg l Hl. by left.
  - by apply coherent_history.
Qed.

Lemma coherent_run d ops : coherent d → regular_run d ops → coherent (dag_run d ops).
Proof.
  unfold dag_run. revert d. induction ops as [|op ops IH]; intros d Hco; cbn; [done|].
  intros [Hr Hrun]. apply IH; [by apply coherent_exec|done].
Qed.

(** An empty DAG over an empty store, or without one. *)
Definition fresh_store (cs : option S) : Prop := ∀ s, cs = Some s → cs_ok s ∧ cs_view s = ∅.

Lemma coherent_New cs cfg : fresh_store cs → coherent (New cs cfg).
Proof.
  intros Hs. assert (∀ dg c, GetCertificate (New cs cfg) dg ≠ Ok c) as Hn.
  { intros dg c. unfold GetCertificate. cbn. rewrite lookup_empty. destruct cs as [s|]; [|done].
    destruct (Hs s eq_refl) as [Hok Hv]. rewrite cs_get, Hv, lookup_empty by done. done. }
  split.
  - apply dag_ok_New. intros s E. by apply Hs.
  - intros dg c p H. by apply Hn in H.
  - intros r a c. unfold mem_cert. cbn. by rewrite lookup_empty.
  - intros dg l. cbn. by rewrite lookup_empty.
Qed.

(** C6. Causal history is exact, cached or not: in every state a regular run
    reaches (no pruning, no loading, as for causal closure), for a certificate of
    the DAG [CausalHistory] returns, each once, exactly the certificates reachable
    from it over fewer than [MaxHistoryDepth] parent references. *)
Theorem causal_history_exact cs cfg ops c :
  fresh_store cs → regular_run (New cs cfg) ops →
  let d := dag_run (New cs cfg) ops in
  GetCertificate d (CDigest c) = Ok c →
  let h := (CausalHistory d (Some c)).2 in
  NoDup (CDigest <$> h) ∧
  ∀ x, x ∈ h ↔ ∃ k, Z.of_nat k < MaxHistoryDepth cfg ∧ ancestor d c k x.
Proof.
  intros Hs Hr d Hg h. assert (coherent d) as Hco by (by apply coherent_run; [apply coherent_New|]).
  pose proof (coherent_history d c Hco Hg) as [_ E]. unfold h. rewrite E.
  assert (dag_cfg d = cfg) as Hcfg.
  { apply (dag_run_cfg (New cs cfg)), dag_ok_New. intros s Es. by apply Hs. }
  rewrite <-Hcfg.
  apply traverse_spec; [apply dag_ok_keyed, Hco|done].
Qed.

(** C5. The DAG is causally closed: in every state a regular run reaches (calls
    from a new DAG with an empty store that only the DAG writes, no pruning and no
    loading, a digest names one certificate, round 0 has no parents), every
    certificate held in memory is found under its digest, and so is each of its
    parents, their parents, and so on down to certificates without parents. *)
Theorem dag_causally_closed cs cfg ops r a c :
  fresh_store cs → regular_run (New cs cfg) ops →
  let d := dag_run (New cs cfg) ops in
  mem_cert d r a = Some c →
  GetCertificate d (CDigest c) = Ok c ∧
  ∀ k x p, ancestor d c k x → p ∈ Parents (CHeader x) → is_Ok (GetCertificate d (CR_Digest p)).
Proof.
  intros Hs Hr d Hm. assert (coherent d) as Hco by (by apply coherent_run; [apply coherent_New|]).
  destruct Hco as [Hok Hcl Hmem _]. pose proof (Hmem _ _ _ Hm) as Hg. split; [done|].
  intros k x p Ha Hp. assert (∃ dg, GetCertificate d dg = Ok x) as [dg Hx]; [|by eapply Hcl].
  destruct Ha as [|k x1 x2 _ (q & _ & Hq)]; eauto.
Qed.
End closure.

(** ** Deterministic order *)
Definition cert_before (a b : Certificate) : Prop :=
  CRound a < CRound b ∨ CRound a = CRound b ∧ CAuthor a < CAuthor b.

#[export] Instance cert_before_trans : Transitive cert_before.
Proof. intros a b c. unfold cert_before. lia. Qed.

Lemma cert_before_unique (l1 l2 : list Certificate) :
  StronglySorted cert_before l1 → StronglySorted cert_before l2 → (∀ c, c ∈ l1 ↔ c ∈ l2) → l1 = l2.
Proof.
  assert (∀ l, StronglySorted cert_before l → NoDup l) as Hnd.
  { intros l Hl. induction Hl as [|c l Hl IH Hc]; constructor; [|done].
    rewrite Forall_forall in Hc. intros Hin%Hc. unfold cert_before in Hin. lia. }
  intros H1 H2 Hm. apply (StronglySorted_unique_strong cert_before); try done.
  - intros a b _ _. unfold cert_before. lia.
  - apply NoDup_Permutation; auto.
Qed.

Section ordered.
Context {S : Type} {CS : CertificateStore S} {CL : CertificateStoreLaws S}.
Implicit Types d : DAG S.

(** Round [r] is answered from memory. *)
Definition in_memory d (r : Z) : Prop := is_Some (rounds d !! r) ∨ certStore d = None.

Lemma round_certs d {RO : RangeOrder Z Certificate} r :
  dag_ok d → in_memory d r →
  NoDup (CAuthor <$> GetCertificatesForRound d r) ∧
  ∀ c, c ∈ GetCertificatesForRound d r ↔ CRound c = r ∧ mem_cert d r (CAuthor c) = Some c.
Proof.
  intros Hok Hin. unfold GetCertificatesForRound. pose proof (λ a c, ok_placed _ Hok r a c) as Hp.
  unfold mem_cert in *. destruct (rounds d !! r) as [rd|] eqn:E.
  - cbn in *. unfold GetAllCertificates.
    assert (∀ k c, (k, c) ∈ range (Certificates rd) → CAuthor c = k) as Hk.
    { intros k c H%elem_of_range. by apply Hp in H as (_ & ? & _). }
    split.
    + assert (CAuthor <$> (range (Certificates rd)).*2 = (range (Certificates rd)).*1) as ->;
        [|apply range_NoDup].
      rewrite <-list_fmap_compose. apply list_fmap_ext. intros i [k c] Hi. cbn.
      eapply Hk, list_elem_of_lookup_2, Hi.
    + intros c. rewrite list_elem_of_fmap. split.
      * intros ([k x] & -> & Hx). cbn. pose proof (Hk _ _ Hx) as <-. apply elem_of_range in Hx.
        split; [by apply (Hp _ _ Hx)|done].
      * intros [_ Hc]. exists (CAuthor c, c). split; [done|]. by apply elem_of_range.
  - destruct Hin as [[? ?]| ->]; [congruence|]. split; [constructor|].
    intros c. split; [by intros ?%not_elem_of_nil|]. by intros [_ ?].
Qed.

Lemma ordered_loop_spec d {RO : RangeOrder Z Certificate} n r to acc :
  0 ≤ r → r + Z.of_nat n = to + 1 → to < 2 ^ 64 - 1 →
  ordered_loop d n r to acc = Some (acc ++ concat (map (ordered_round d) (seqZ r (Z.of_nat n)))).
Proof.
  revert r acc. induction n as [|n IH]; intros r acc Hr Hn Hto; cbn [ordered_loop].
  - rewrite bool_decide_eq_false_2 by lia. cbn. by rewrite app_nil_r.
  - rewrite bool_decide_eq_true_2 by lia.
    rewrite wrap_id by (unfold fits; lia). rewrite IH by lia.
    rewrite (seqZ_cons r) by lia. cbn [map concat]. replace (Z.pred _) with (Z.of_nat n) by lia.
    replace (Z.succ r) with (r + 1) by lia. f_equal.
    case_bool_decide as Hl; [|by rewrite app_assoc].
    assert (ordered_round d r = []) as ->; [|done].
    apply length_zero_iff_nil. unfold ordered_round. rewrite length_sort_slice. lia.
Qed.

Lemma ordered_sorted d {RO : RangeOrder Z Certificate} r n :
  dag_ok d → (∀ r', r ≤ r' < r + Z.of_nat n → in_memory d r') →
  let l := concat (map (ordered_round d) (seqZ r (Z.of_nat n))) in
  StronglySorted cert_before l ∧
  ∀ c, c ∈ l ↔ r ≤ CRound c < r + Z.of_nat n ∧ mem_cert d (CRound c) (CAuthor c) = Some c.
Proof.
  intros Hok. revert r. induction n as [|n IH]; intros r Hin.
  - cbn. split; [constructor|]. intros c. split; [by intros ?%not_elem_of_nil|]. lia.
  - rewrite Nat2Z.inj_succ, seqZ_cons, Z.pred_succ by lia. cbn [map concat].
    destruct (IH (Z.succ r)) as [IHs IHm]; [intros; apply Hin; lia|].
    destruct (round_certs d r Hok) as [Hnd Hm]; [apply Hin; lia|].
    assert (∀ c, c ∈ ordered_round d r ↔ CRound c = r ∧ mem_cert d r (CAuthor c) = Some c) as Hm'.
    { intros c. unfold ordered_round. rewrite elem_of_sort_slice. apply Hm. }
    split.
    + apply StronglySorted_app_2; [| |done].
      * intros a b Ha%Hm' Hb%IHm. unfold cert_before. lia.
      * pose proof (sort_by_key_strict CAuthor _ Hnd) as Hs. fold (ordered_round d r) in Hs.
        assert (∀ c, c ∈ ordered_round d r → CRound c = r) as Hr by (intros c Hc%Hm'; tauto).
        revert Hs Hr. generalize (ordered_round d r). induction 1 as [|a l Hs' IH' Ha]; intros Hr; constructor.
        -- apply IH'. intros. apply Hr. by right.
        -- rewrite Forall_forall in Ha |- *. intros b Hb. unfold cert_before. right.
           split; [|by apply Ha]. rewrite !Hr; [done|by right|left].
    + intros c. rewrite elem_of_app, Hm', IHm. split.
      * intros [[<- ?]|[? ?]]; (split; [lia|done]).
      * intros [Hc ?]. destruct (decide (CRound c = r)) as [<-|]; [by left|right]. split; [lia|done].
Qed.

(** The loop over a range, for a fixed iteration order of the maps. *)
Lemma ordered_range d {RO : RangeOrder Z Certificate} from to :
  dag_ok d → 0 ≤ from → to < 2 ^ 64 - 1 → (∀ r, from ≤ r ≤ to → in_memory d r) →
  ∃ l, GetOrderedCertificates d from to = Some l ∧ StronglySorted cert_before l ∧
    ∀ c, c ∈ l ↔ from ≤ CRound c ≤ to ∧ mem_cert d (CRound c) (CAuthor c) = Some c.
Proof.
  intros Hok Hfrom Hto Hin. unfold GetOrderedCertificates. case_bool_decide as Hgt.
  - exists []. split_and!; [done|constructor|]. intros c. split; [by intros ?%not_elem_of_nil|lia].
  - set (n := Z.to_nat (to - from + 1)). rewrite ordered_loop_spec by lia.
    destruct (ordered_sorted d from n Hok) as [Hs Hm]; [intros; apply Hin; lia|].
    eexists. split_and!; [done|exact Hs|]. intros c. cbn [app]. rewrite Hm. split; intros [? ?]; (split; [lia|done]).
Qed.

(** C12. [GetOrderedCertificates] terminates and is deterministic: for rounds
    answered from memory (below the last 64-bit round) it returns exactly the
    certificates held for the rounds of the range, strictly ordered by round and
    then author, whatever order the maps are iterated in. *)
Theorem ordered_certificates_deterministic d from to :
  dag_ok d → 0 ≤ from ≤ to → to < 2 ^ 64 - 1 → (∀ r, from ≤ r ≤ to → in_memory d r) →
  ∃ l, StronglySorted cert_before l ∧
    (∀ c, c ∈ l ↔ from ≤ CRound c ≤ to ∧ mem_cert d (CRound c) (CAuthor c) = Some c) ∧
    ∀ RO : RangeOrder Z Certificate, GetOrderedCertificates d from to = Some l.
Proof.
  intros Hok Hft Hto Hin.
  assert (∀ RO : RangeOrder Z Certificate, ∃ l, GetOrderedCertificates d from to = Some l ∧
    StronglySorted cert_before l ∧
    ∀ c, c ∈ l ↔ from ≤ CRound c ≤ to ∧ mem_cert d (CRound c) (CAuthor c) = Some c) as Hex
    by (intros RO; apply ordered_range; [done|lia|done|done]).
  destruct (Hex range_sorted) as (l & _ & Hs & Hm). exists l. split_and!; [done..|].
  intros RO. destruct (Hex RO) as (l' & -> & Hs' & Hm'). f_equal.
  apply cert_before_unique; try done. intros c. by rewrite Hm, Hm'.
Qed.
End ordered.

(** ** Closed examples *)
#[local] Existing Instance toy_ed25519.

Lemma example_fresh_store : fresh_store (Some DagExample.store).
Proof. intros s [= <-]. split; [exact mc_ok_new|done]. Qed.

Lemma example_regular : regular_run DagExample.empty (DagExample.two ++ [DHistory (Some DagExample.child)]).
Proof. split_and!; try (by vm_compute); intros; by vm_compute in *. Qed.

Lemma causal_history_exact_witness :
  let d := dag_run DagExample.empty (DagExample.two ++ [DHistory (Some DagExample.child)]) in
  let h := (CausalHistory d (Some DagExample.child)).2 in
  h = [DagExample.child; DagExample.genesis] ∧
  ∀ x, x ∈ h ↔ ∃ k, Z.of_nat k < 1000 ∧ ancestor d DagExample.child k x.
Proof.
  split; [by vm_compute|].
  refine (proj2 (causal_history_exact (Some DagExample.store) DefaultConfig _ DagExample.child
    example_fresh_store example_regular _)). by vm_compute.
Defined.

Lemma dag_causally_closed_witness :
  let d := dag_run DagExample.empty (DagExample.two ++ [DHistory (Some DagExample.child)]) in
  GetCertificate d [11] = Ok DagExample.child ∧
  ∀ k x p, ancestor d DagExample.child k x → p ∈ Parents (CHeader x) →
    is_Ok (GetCertificate d (CR_Digest p)).
Proof.
  exact (dag_causally_closed (Some DagExample.store) DefaultConfig _ 1 1 DagExample.child
    example_fresh_store example_regular ltac:(by vm_compute)).
Defined.

Lemma ordered_certificates_deterministic_witness :
  let d := dag_run DagExample.empty DagExample.two in
  ∃ l, StronglySorted cert_before l ∧
    (∀ c, c ∈ l ↔ 0 ≤ CRound c ≤ 1 ∧ mem_cert d (CRound c) (CAuthor c) = Some c) ∧
    ∀ RO : RangeOrder Z Certificate, GetOrderedCertificates d 0 1 = Some l.
Proof.
  apply ordered_certificates_deterministic; [apply example_ok | lia | lia |].
  intros r Hr. left. assert (r = 0 ∨ r = 1) as [-> | ->] by lia; vm_compute; by eexists.
Defined.
