(* ===== verification/VoteTracker.v ===== *)
(** Vote tracking (primary/vote_tracker.go): headers waiting for votes, the
    votes of every validator, and the evidence of double votes.  Each method
    runs under the tracker's mutex and is one atomic step; [now] is
    [time.Now()] at the call. *)
From S2P Require Import Prelude Bytes Errors Types Batch Header BitSet Certificate.
Local Open Scope Z_scope.

Record DoubleVoteEvidence := mk_DoubleVoteEvidence {
  ValidatorID : Z;
  HeaderID : Hash;
  Vote1 : Vote;
  Vote2 : Vote;
  DV_Timestamp : Z
}.

Record PendingHeader := mk_PendingHeader {
  PH_Header : Header;
  PH_Votes : gmap Z Vote;
  CreatedAt : Z
}.
#[export] Instance eta_PendingHeader : Settable PendingHeader := λ p,
  mk_PendingHeader (PH_Header p) (PH_Votes p) (CreatedAt p).

Record VoteTracker := mk_VoteTracker {
  pending : gmap Hash PendingHeader;
  timeout : Z;
  vt_closed : bool;
  validatorVotes : gmap Z (gmap Hash Vote);
  doubleVotes : list DoubleVoteEvidence
}.
#[export] Instance eta_VoteTracker : Settable VoteTracker := λ vt,
  mk_VoteTracker (pending vt) (timeout vt) (vt_closed vt) (validatorVotes vt) (doubleVotes vt).

Definition NewVoteTracker (timeout : Z) : VoteTracker := mk_VoteTracker ∅ timeout false ∅ [].

Definition TrackHeader (now : Z) (header : Header) (vt : VoteTracker) : VoteTracker :=
  if vt_closed vt then vt
  else match pending vt !! Digest header with
       | Some _ => vt
       | None => vt <| pending := <[Digest header := mk_PendingHeader header ∅ now]> (pending vt) |>
       end.

Definition HasHeader (digest : Hash) (vt : VoteTracker) : bool :=
  match pending vt !! digest with Some _ => true | None => false end.

Definition GetHeader (digest : Hash) (vt : VoteTracker) : option Header :=
  match pending vt !! digest with
  | None => None
  | Some p => Some (PH_Header p)
  end.

Definition tracked_votes (digest : Hash) (vt : VoteTracker) : Z :=
  match pending vt !! digest with
  | None => 0
  | Some p => zsize (PH_Votes p)
  end.

(** The collection loop of [formCertificateLocked]: append, then stop once
    [quorum] votes are there. *)
Fixpoint collect_votes (quorum : Z) (l votes : list Vote) : list Vote :=
  match l with
  | [] => votes
  | vote :: l' =>
      let votes := votes ++ [vote] in
      if bool_decide (zlen votes >= quorum) then votes else collect_votes quorum l' votes
  end.

Section tracker.
Context {RV : RangeOrder Z Vote} {RP : RangeOrder Hash PendingHeader}.

Definition formCertificateLocked (p : PendingHeader) (quorum : Z) : Certificate :=
  NewCertificate (PH_Header p) (collect_votes quorum (range (PH_Votes p)).*2 []).

(** The end of every branch of [RecordVote] that looks at the quorum. *)
Definition check_quorum (p : PendingHeader) (quorum : Z) : option Certificate :=
  if bool_decide (zsize (PH_Votes p) >= quorum) then Some (formCertificateLocked p quorum) else None.

Definition RecordVote (now : Z) (vote : Vote) (quorum : Z) (vt : VoteTracker) :
    VoteTracker * option Certificate :=
  if vt_closed vt then (vt, None)
  else match pending vt !! HeaderDigest vote with
  | None => (vt, None)
  | Some p =>
      match validatorVotes vt !! Validator vote ≫= λ vs, vs !! HeaderDigest vote with
      | Some existingVote =>
          let vt :=
            if Signature_Equal (VSignature existingVote) (VSignature vote) then vt
            else vt <| doubleVotes := doubleVotes vt ++
                   [{| ValidatorID := Validator vote; HeaderID := HeaderDigest vote;
                       Vote1 := existingVote; Vote2 := vote; DV_Timestamp := now |}] |> in
          (vt, check_quorum p quorum)
      | None =>
          let vvs := default ∅ (validatorVotes vt !! Validator vote) in
          let vt := vt <| validatorVotes := <[Validator vote := vvs]> (validatorVotes vt) |> in
          match PH_Votes p !! Validator vote with
          | Some _ => (vt, check_quorum p quorum)
          | None =>
              let p := p <| PH_Votes := <[Validator vote := vote]> (PH_Votes p) |> in
              let vt := vt <| pending := <[HeaderDigest vote := p]> (pending vt) |>
                           <| validatorVotes :=
                                <[Validator vote := <[HeaderDigest vote := vote]> vvs]> (validatorVotes vt) |> in
              (vt, check_quorum p quorum)
          end
      end
  end.

(** [RemoveHeader]: the digest leaves every validator's votes, and validators
    without votes leave the map. *)
Definition RemoveHeader (digest : Hash) (vt : VoteTracker) : VoteTracker :=
  vt <| validatorVotes :=
          filter (λ p, size p.2 ≠ 0%nat) ((delete digest) <$> validatorVotes vt) |>
     <| pending := delete digest (pending vt) |>.

Definition PendingHeadersOlderThan (now minAge : Z) (vt : VoteTracker) : list Header :=
  if vt_closed vt then []
  else
    let cutoff := now - minAge in
    PH_Header <$> filter (λ p, CreatedAt p < cutoff) (range (pending vt)).*2.

Definition GetPendingCount (vt : VoteTracker) : Z := zsize (pending vt).

Definition GetTimedOut (now : Z) (vt : VoteTracker) : list Header :=
  let cutoff := now - timeout vt in
  PH_Header <$> filter (λ p, CreatedAt p < cutoff) (range (pending vt)).*2.

Definition RemoveTimedOut (now : Z) (vt : VoteTracker) : VoteTracker * list Header :=
  let cutoff := now - timeout vt in
  (vt <| pending := filter (λ p, ¬ CreatedAt p.2 < cutoff) (pending vt) |>,
   PH_Header <$> filter (λ p, CreatedAt p < cutoff) (range (pending vt)).*2).

Definition VoteTracker_Close (vt : VoteTracker) : VoteTracker :=
  mk_VoteTracker ∅ (timeout vt) true ∅ [].

Definition GetDoubleVoteEvidence (vt : VoteTracker) : list DoubleVoteEvidence := doubleVotes vt.
Definition ClearDoubleVoteEvidence (vt : VoteTracker) : VoteTracker := vt <| doubleVotes := [] |>.
Definition HasDoubleVoteEvidence (vt : VoteTracker) : bool := bool_decide (zlen (doubleVotes vt) > 0).

(** ** Certificates carry a quorum of distinct votes *)
Lemma collect_votes_take quorum l acc :
  zlen acc < quorum → collect_votes quorum l acc = acc ++ take (Z.to_nat quorum - length acc) l.
Proof.
  revert acc. induction l as [|v l IH]; intros acc Hq; cbn [collect_votes].
  - by rewrite take_nil, app_nil_r.
  - replace (Z.to_nat quorum - length acc)%nat with (S (Z.to_nat quorum - S (length acc))) by lia.
    cbn [take]. rewrite length_app. cbn [length]. case_bool_decide as Hl.
    + replace (Z.to_nat quorum - S (length acc))%nat with 0%nat by lia. done.
    + rewrite IH by (rewrite length_app; cbn; lia). rewrite length_app. cbn [length].
      rewrite <-app_assoc. cbn [app]. do 3 f_equal. lia.
Qed.

(** What is recorded for a header under its digest. *)
Record pending_ok (d : Hash) (p : PendingHeader) : Prop := {
  po_digest : Digest (PH_Header p) = d;
  po_vote v vote : PH_Votes p !! v = Some vote → Validator vote = v ∧ HeaderDigest vote = d
}.

Lemma formed_certificate d p quorum :
  pending_ok d p → 1 ≤ quorum → quorum ≤ zsize (PH_Votes p) →
  let c := formCertificateLocked p quorum in
  CHeader c = PH_Header p ∧ VoteCount c = quorum ∧ NoDup (Validator <$> Votes c) ∧
  ∀ v, v ∈ Votes c → HeaderDigest v = d ∧ PH_Votes p !! Validator v = Some v.
Proof.
  intros [Hd Hv] H1 Hq c. unfold c, formCertificateLocked.
  rewrite collect_votes_take by (cbn; lia). cbn [app length]. rewrite Nat.sub_0_r.
  set (l := (range (PH_Votes p)).*2).
  assert (length l = size (PH_Votes p)) as Hl by (unfold l; rewrite length_fmap; apply range_length).
  assert (∀ v, v ∈ l → PH_Votes p !! Validator v = Some v ∧ HeaderDigest v = d) as Hin.
  { intros v ([k x] & -> & Hx%elem_of_range)%list_elem_of_fmap. cbn.
    destruct (Hv _ _ Hx) as [-> ->]. done. }
  assert (NoDup (Validator <$> l)) as Hnd.
  { assert (Validator <$> l = (range (PH_Votes p)).*1) as ->; [|apply range_NoDup].
    unfold l. rewrite <-list_fmap_compose. apply list_fmap_ext. intros i [k x] Hx. cbn.
    eapply Hv, elem_of_range, list_elem_of_lookup_2, Hx. }
  split_and!; [done| | |].
  - unfold VoteCount, NewCertificate. cbn [Votes]. rewrite length_sort_slice, length_take. lia.
  - cbn [Votes NewCertificate]. rewrite sort_slice_perm, fmap_take. by apply NoDup_take.
  - intros v Hx. cbn [Votes NewCertificate] in Hx. apply elem_of_sort_slice, take_elem_of, Hin in Hx. tauto.
Qed.

(** ** State invariant *)

(** The vote recorded for a validator and a header, over all headers. *)
Definition voted (vt : VoteTracker) (v : Z) (d : Hash) : option Vote :=
  validatorVotes vt !! v ≫= λ vs, vs !! d.

(** [P] holds of every vote the tracker was given. *)
Record vt_ok (P : Vote → Prop) (vt : VoteTracker) : Prop := {
  vo_pending d p : pending vt !! d = Some p → pending_ok d p;
  vo_recorded d p v vote : pending vt !! d = Some p → PH_Votes p !! v = Some vote →
    voted vt v d = Some vote;
  vo_voted v d vote : voted vt v d = Some vote → Validator vote = v ∧ HeaderDigest vote = d ∧ P vote;
  vo_evidence e : e ∈ doubleVotes vt →
    Validator (Vote1 e) = ValidatorID e ∧ Validator (Vote2 e) = ValidatorID e ∧
    HeaderDigest (Vote1 e) = HeaderID e ∧ HeaderDigest (Vote2 e) = HeaderID e ∧
    VSignature (Vote1 e) ≠ VSignature (Vote2 e)
}.

Lemma vt_ok_new P t : vt_ok P (NewVoteTracker t).
Proof.
  split; cbn; unfold voted; cbn.
  - intros d p. by rewrite lookup_empty.
  - intros d p v vote. by rewrite lookup_empty.
  - intros v d vote. by rewrite lookup_empty.
  - by intros e ?%not_elem_of_nil.
Qed.

(** [RecordVote] on a tracked header, as one case analysis. *)
Definition add_vote (vote : Vote) (p : PendingHeader) : PendingHeader :=
  match PH_Votes p !! Validator vote with
  | Some _ => p
  | None => p <| PH_Votes := <[Validator vote := vote]> (PH_Votes p) |>
  end.

(** The header's entry after the call. *)
Definition pending_after (vote : Vote) (vt : VoteTracker) (p : PendingHeader) : PendingHeader :=
  match voted vt (Validator vote) (HeaderDigest vote) with
  | Some _ => p
  | None => add_vote vote p
  end.

Definition evidence_after (now : Z) (vote : Vote) (vt : VoteTracker) : list DoubleVoteEvidence :=
  match voted vt (Validator vote) (HeaderDigest vote) with
  | Some v1 =>
      if bool_decide (VSignature v1 = VSignature vote) then []
      else [mk_DoubleVoteEvidence (Validator vote) (HeaderDigest vote) v1 vote now]
  | None => []
  end.

Lemma RecordVote_spec P now vote quorum vt p :
  vt_ok P vt → vt_closed vt = false → pending vt !! HeaderDigest vote = Some p →
  let r := RecordVote now vote quorum vt in
  let p' := pending_after vote vt p in
  r.2 = check_quorum p' quorum ∧
  pending r.1 = <[HeaderDigest vote := p']> (pending vt) ∧
  doubleVotes r.1 = doubleVotes vt ++ evidence_after now vote vt ∧
  vt_closed r.1 = false ∧ timeout r.1 = timeout vt ∧
  ∀ v d, voted r.1 v d =
    if decide (voted vt (Validator vote) (HeaderDigest vote) = None ∧
               v = Validator vote ∧ d = HeaderDigest vote)
    then Some vote else voted vt v d.
Proof.
  intros Hok Hc Hp. unfold RecordVote, pending_after, evidence_after. rewrite Hc, Hp.
  change (validatorVotes vt !! Validator vote ≫= λ vs, vs !! HeaderDigest vote)
    with (voted vt (Validator vote) (HeaderDigest vote)).
  destruct (voted vt (Validator vote) (HeaderDigest vote)) as [v1|] eqn:E.
  - unfold Signature_Equal. split_and!.
    + done.
    + rewrite insert_id by done. by case_bool_decide.
    + case_bool_decide; cbn; by rewrite ?app_nil_r.
    + by case_bool_decide.
    + by case_bool_decide.
    + intros v d. rewrite decide_False by naive_solver. by case_bool_decide.
  - destruct (PH_Votes p !! Validator vote) as [v1|] eqn:Ev.
    { pose proof (vo_recorded _ _ Hok _ _ _ _ Hp Ev). congruence. }
    unfold add_vote. rewrite Ev. cbn. split_and!; try done; [by rewrite app_nil_r|].
    intros v d. unfold voted. cbn. rewrite insert_insert_eq.
    destruct (decide (v = Validator vote)) as [->|Hv].
    + rewrite lookup_insert_eq. cbn. destruct (decide (d = HeaderDigest vote)) as [->|Hd].
      * rewrite lookup_insert_eq. by rewrite decide_True.
      * rewrite lookup_insert_ne by congruence. rewrite decide_False by naive_solver.
        by destruct (validatorVotes vt !! Validator vote).
    + rewrite lookup_insert_ne by congruence. by rewrite decide_False by naive_solver.
Qed.

Lemma RecordVote_skip now vote quorum vt :
  vt_closed vt = true ∨ pending vt !! HeaderDigest vote = None →
  RecordVote now vote quorum vt = (vt, None).
Proof. unfold RecordVote. intros [-> | ->]; [done|]. by destruct (vt_closed vt). Qed.

Lemma pending_ok_after P vote vt p :
  vt_ok P vt → pending vt !! HeaderDigest vote = Some p →
  pending_ok (HeaderDigest vote) (pending_after vote vt p).
Proof.
  intros Hok Hp. pose proof (vo_pending _ _ Hok _ _ Hp) as [Hd Hv].
  unfold pending_after, add_vote. repeat case_match; try done.
  split; cbn; [done|]. intros v x [[<- <-]|[_ Hx]]%lookup_insert_Some; [done|]. by apply Hv.
Qed.

Lemma vt_ok_RecordVote (P : Vote → Prop) now vote quorum vt :
  P vote → vt_ok P vt → vt_ok P (RecordVote now vote quorum vt).1.
Proof.
  intros HP Hok. destruct (vt_closed vt) eqn:Hc; [by rewrite RecordVote_skip by by left|].
  destruct (pending vt !! HeaderDigest vote) as [p|] eqn:Hp; [|by rewrite RecordVote_skip by by right].
  destruct (RecordVote_spec P now vote quorum vt p Hok Hc Hp) as (_ & Ep & Ee & _ & _ & Ev).
  set (vt' := (RecordVote now vote quorum vt).1) in *. split.
  - intros d q. rewrite Ep. intros [[<- <-]|[_ Hq]]%lookup_insert_Some.
    + by eapply pending_ok_after.
    + by apply (vo_pending _ _ Hok).
  - intros d q v x. rewrite Ep, Ev. intros [[<- <-]|[Hd Hq]]%lookup_insert_Some Hx.
    + unfold pending_after, add_vote in Hx.
      destruct (voted vt (Validator vote) (HeaderDigest vote)) eqn:Hvv;
        [|destruct (PH_Votes p !! Validator vote) eqn:Hpv].
      * rewrite decide_False by naive_solver. by eapply (vo_recorded _ _ Hok).
      * pose proof (vo_recorded _ _ Hok _ _ _ _ Hp Hpv). congruence.
      * cbn in Hx. apply lookup_insert_Some in Hx as [[<- <-]|[Hne Hx]]; [by rewrite decide_True|].
        rewrite decide_False by naive_solver. by eapply (vo_recorded _ _ Hok).
    + rewrite decide_False by naive_solver. by eapply (vo_recorded _ _ Hok).
  - intros v d x. rewrite Ev. case_decide as Hd; [naive_solver|]. apply (vo_voted _ _ Hok).
  - intros e. rewrite Ee. intros [He|He]%elem_of_app; [by apply (vo_evidence _ _ Hok)|].
    unfold evidence_after in He. case_match eqn:Hv; [|by apply not_elem_of_nil in He].
    case_bool_decide; [by apply not_elem_of_nil in He|]. apply list_elem_of_singleton in He as ->. cbn.
    destruct (vo_voted _ _ Hok _ _ _ Hv) as (-> & -> & _). done.
Qed.

Lemma vt_ok_TrackHeader P now h vt : vt_ok P vt → vt_ok P (TrackHeader now h vt).
Proof.
  intros Hok. unfold TrackHeader. destruct (vt_closed vt); [done|].
  destruct (pending vt !! Digest h) eqn:E; [done|]. split; cbn; try apply Hok.
  - intros d p [[<- <-]|[_ Hp]]%lookup_insert_Some; [|by apply (vo_pending _ _ Hok)].
    split; cbn; [done|]. intros v x. by rewrite lookup_empty.
  - intros d p v x [[<- <-]|[_ Hp]]%lookup_insert_Some; cbn; [by rewrite lookup_empty|].
    by apply (vo_recorded _ _ Hok).
Qed.

Lemma voted_RemoveHeader digest vt v d :
  voted (RemoveHeader digest vt) v d = if decide (d = digest) then None else voted vt v d.
Proof.
  unfold voted, RemoveHeader. cbn.
  destruct (validatorVotes vt !! v) as [vs|] eqn:E.
  - destruct (decide (size (delete digest vs) = 0%nat)) as [Hz|Hz].
    + rewrite (proj2 (map_lookup_filter_None _ _ _)).
      2:{ right. intros x. rewrite lookup_fmap, E. cbn. intros [= <-] Hn. by apply Hn. }
      cbn. case_decide as Hd; [done|]. apply map_size_empty_inv in Hz.
      rewrite <-(lookup_delete_ne vs digest d), Hz by congruence. by rewrite lookup_empty.
    + rewrite (proj2 (map_lookup_filter_Some _ _ _ (delete digest vs))).
      2:{ split; [|done]. by rewrite lookup_fmap, E. }
      cbn. case_decide as Hd; [subst; apply lookup_delete_eq|by apply lookup_delete_ne].
  - rewrite (proj2 (map_lookup_filter_None _ _ _)).
    2:{ left. by rewrite lookup_fmap, E. }
    cbn. by case_decide.
Qed.

Lemma vt_ok_RemoveHeader P digest vt : vt_ok P vt → vt_ok P (RemoveHeader digest vt).
Proof.
  intros Hok. split; cbn.
  - intros d p [_ Hp]%lookup_delete_Some. by apply (vo_pending _ _ Hok).
  - intros d p v x [Hd Hp]%lookup_delete_Some Hx. rewrite voted_RemoveHeader, decide_False by done.
    by eapply (vo_recorded _ _ Hok).
  - intros v d x. rewrite voted_RemoveHeader. case_decide; [done|]. apply (vo_voted _ _ Hok).
  - apply (vo_evidence _ _ Hok).
Qed.

Lemma vt_ok_RemoveTimedOut P now vt : vt_ok P vt → vt_ok P (RemoveTimedOut now vt).1.
Proof.
  intros Hok. split; cbn; try apply Hok.
  - intros d p [Hp _]%map_lookup_filter_Some. by apply (vo_pending _ _ Hok).
  - intros d p v x [Hp _]%map_lookup_filter_Some. by apply (vo_recorded _ _ Hok).
Qed.

Lemma vt_ok_Close P vt : vt_ok P (VoteTracker_Close vt).
Proof. destruct (vt_ok_new P (timeout vt)). by split. Qed.

(** ** Tracked headers *)

(** [Q] holds of every header that is tracked. *)
Definition headers_sat (Q : Header → Prop) (vt : VoteTracker) : Prop :=
  ∀ d p, pending vt !! d = Some p → Q (PH_Header p).

Lemma headers_sat_track Q now h vt : Q h → headers_sat Q vt → headers_sat Q (TrackHeader now h vt).
Proof.
  intros Hh HQ. unfold TrackHeader. destruct (vt_closed vt); [done|].
  destruct (pending vt !! Digest h); [done|]. intros d p. cbn.
  intros [[<- <-]|[_ Hp]]%lookup_insert_Some; [done|by eapply HQ].
Qed.

Lemma headers_sat_record P Q now vote quorum vt :
  vt_ok P vt → headers_sat Q vt → headers_sat Q (RecordVote now vote quorum vt).1.
Proof.
  intros Hok HQ. destruct (vt_closed vt) eqn:Hc; [by rewrite RecordVote_skip by by left|].
  destruct (pending vt !! HeaderDigest vote) as [p|] eqn:Hp; [|by rewrite RecordVote_skip by by right].
  destruct (RecordVote_spec P now vote quorum vt p Hok Hc Hp) as (_ & Ep & _).
  intros d q. rewrite Ep. intros [[<- <-]|[_ Hq]]%lookup_insert_Some; [|by eapply HQ].
  assert (PH_Header (pending_after vote vt p) = PH_Header p) as ->; [|by eapply HQ].
  unfold pending_after, add_vote. by repeat case_match.
Qed.

Lemma headers_sat_remove Q digest vt : headers_sat Q vt → headers_sat Q (RemoveHeader digest vt).
Proof. intros HQ d p. cbn. intros [_ Hp]%lookup_delete_Some. by eapply HQ. Qed.

Lemma headers_sat_timeout Q now vt : headers_sat Q vt → headers_sat Q (RemoveTimedOut now vt).1.
Proof. intros HQ d p. cbn. intros [Hp _]%map_lookup_filter_Some. by eapply HQ. Qed.

(** ** Runs *)
Inductive vote_op :=
  | VTrack (now : Z) (h : Header)
  | VRecord (now : Z) (vote : Vote) (quorum : Z)
  | VRemove (digest : Hash)
  | VTimeout (now : Z)
  | VClear
  | VClose.

Definition vote_exec (vt : VoteTracker) (op : vote_op) : VoteTracker :=
  match op with
  | VTrack now h => TrackHeader now h vt
  | VRecord now vote quorum => (RecordVote now vote quorum vt).1
  | VRemove d => RemoveHeader d vt
  | VTimeout now => (RemoveTimedOut now vt).1
  | VClear => ClearDoubleVoteEvidence vt
  | VClose => VoteTracker_Close vt
  end.

Lemma vote_exec_ok (P : Vote → Prop) vt op :
  (∀ now vote quorum, op = VRecord now vote quorum → P vote) → vt_ok P vt → vt_ok P (vote_exec vt op).
Proof.
  intros HP Hok. destruct op; cbn [vote_exec];
    eauto using vt_ok_TrackHeader, vt_ok_RecordVote, vt_ok_RemoveHeader, vt_ok_RemoveTimedOut, vt_ok_Close.
  destruct Hok. split; try done. by intros e ?%not_elem_of_nil.
Qed.

Definition vote_run (t : Z) (ops : list vote_op) : VoteTracker :=
  fold_left vote_exec ops (NewVoteTracker t).

Lemma vote_run_ok t ops : vt_ok (λ _, True) (vote_run t ops).
Proof.
  unfold vote_run. enough (∀ vt, vt_ok (λ _, True) vt → vt_ok (λ _, True) (fold_left vote_exec ops vt))
    as Hg by apply Hg, vt_ok_new.
  induction ops as [|op ops IH]; intros vt Hok; [done|]. cbn. by apply IH, vote_exec_ok.
Qed.

(** The certificate of a call that forms one. *)
Lemma RecordVote_certificate P now vote quorum vt c :
  vt_ok P vt → P vote → 1 ≤ quorum → (RecordVote now vote quorum vt).2 = Some c →
  GetHeader (HeaderDigest vote) vt = Some (CHeader c) ∧ CDigest c = HeaderDigest vote ∧
  VoteCount c = quorum ∧ NoDup (Validator <$> Votes c) ∧
  ∀ v, v ∈ Votes c → HeaderDigest v = CDigest c ∧ P v.
Proof.
  intros Hok HP Hq Hr. destruct (vt_closed vt) eqn:Hc; [by rewrite RecordVote_skip in Hr by by left|].
  destruct (pending vt !! HeaderDigest vote) as [p|] eqn:Hp; [|by rewrite RecordVote_skip in Hr by by right].
  pose proof (vt_ok_RecordVote P now vote quorum vt HP Hok) as Hok'.
  destruct (RecordVote_spec P now vote quorum vt p Hok Hc Hp) as (Er & Ep & _).
  rewrite Er in Hr. unfold check_quorum in Hr. case_bool_decide as Hn; [|done]. simplify_eq.
  pose proof (pending_ok_after P vote vt p Hok Hp) as Hpo.
  destruct (formed_certificate _ _ quorum Hpo Hq) as (Eh & Ec & Hnd & Hv); [lia|].
  assert (PH_Header (pending_after vote vt p) = PH_Header p) as Eh'.
  { unfold pending_after, add_vote. by repeat case_match. }
  assert (CDigest (formCertificateLocked (pending_after vote vt p) quorum) = HeaderDigest vote) as Ed.
  { unfold CDigest. rewrite Eh. apply Hpo. }
  split_and!; try done.
  - unfold GetHeader. by rewrite Hp, Eh, Eh'.
  - intros v Hin. rewrite Ed. destruct (Hv v Hin) as [Hd Hl]. split; [done|].
    eapply (vo_voted _ _ Hok' (Validator v) (HeaderDigest vote)).
    eapply (vo_recorded _ _ Hok'); [|exact Hl]. by rewrite Ep, lookup_insert_eq.
Qed.

(** C4. Certificates are formed from a quorum of distinct votes: in every state
    of a tracker, when [RecordVote] with a quorum of at least one vote returns a
    certificate, it is for the header tracked under the vote's digest, and it holds exactly [quorum] votes, all
    for that digest and from pairwise distinct validators, whatever order the
    vote map is iterated in. *)
Theorem record_vote_certificate t ops now vote quorum c :
  let vt := vote_run t ops in
  1 ≤ quorum → (RecordVote now vote quorum vt).2 = Some c →
  GetHeader (HeaderDigest vote) vt = Some (CHeader c) ∧ CDigest c = HeaderDigest vote ∧
  VoteCount c = quorum ∧ NoDup (Validator <$> Votes c) ∧
  ∀ v, v ∈ Votes c → HeaderDigest v = CDigest c.
Proof.
  intros vt Hq Hr. destruct (RecordVote_certificate _ now vote quorum vt c (vote_run_ok t ops) I Hq Hr)
    as (H1 & H2 & H3 & H4 & H5). split_and!; try done. intros v Hv. by apply H5.
Qed.

(** Double-vote evidence, exactly: in every state of a tracker that is open
    and tracks the header, [RecordVote] appends one piece of evidence if the
    validator's recorded vote for the same header has another signature, and
    nothing otherwise; in particular votes of one validator for two different
    headers are never evidence.  Every piece of evidence holds two votes of its
    validator for its header with different signatures. *)
Theorem double_vote_evidence t ops now vote quorum :
  let vt := vote_run t ops in
  vt_closed vt = false → HasHeader (HeaderDigest vote) vt = true →
  let vt' := (RecordVote now vote quorum vt).1 in
  doubleVotes vt' = doubleVotes vt ++
    match voted vt (Validator vote) (HeaderDigest vote) with
    | Some v1 =>
        if bool_decide (VSignature v1 = VSignature vote) then []
        else [mk_DoubleVoteEvidence (Validator vote) (HeaderDigest vote) v1 vote now]
    | None => []
    end ∧
  ∀ e, e ∈ GetDoubleVoteEvidence vt' →
    Validator (Vote1 e) = ValidatorID e ∧ Validator (Vote2 e) = ValidatorID e ∧
    HeaderDigest (Vote1 e) = HeaderID e ∧ HeaderDigest (Vote2 e) = HeaderID e ∧
    VSignature (Vote1 e) ≠ VSignature (Vote2 e).
Proof.
  intros vt Hc Hh vt'. pose proof (vote_run_ok t ops) as Hok. fold vt in Hok.
  unfold HasHeader in Hh. destruct (pending vt !! HeaderDigest vote) as [p|] eqn:Hp; [|done].
  destruct (RecordVote_spec _ now vote quorum vt p Hok Hc Hp) as (_ & _ & Ee & _).
  split; [exact Ee|]. apply (vo_evidence (λ _, True)). by apply vt_ok_RecordVote.
Qed.

(** ** A quorum of distinct voters is enough *)

(** Recording votes until one forms a certificate. *)
Fixpoint record_all (now : Z) (votes : list Vote) (quorum : Z) (vt : VoteTracker) : option Certificate :=
  match votes with
  | [] => None
  | vote :: votes' =>
      match RecordVote now vote quorum vt with
      | (_, Some c) => Some c
      | (vt', None) => record_all now votes' quorum vt'
      end
  end.

Lemma record_all_spec P now votes quorum vt d p :
  vt_ok P vt → vt_closed vt = false → pending vt !! d = Some p → Forall P votes →
  (∀ v, voted vt v d = PH_Votes p !! v) → zsize (dom (PH_Votes p)) < quorum →
  Forall (λ v, HeaderDigest v = d) votes →
  is_Some (record_all now votes quorum vt) ↔ quorum ≤ zsize (dom (PH_Votes p) ∪ voters votes).
Proof.
  revert vt p. induction votes as [|vote votes IH]; intros vt p Hok Hc Hp HP Hsync Hlt Hall.
  - cbn [record_all]. split; [by intros []|]. unfold voters. cbn. rewrite union_empty_r_L. lia.
  - apply Forall_cons in HP as [HP1 HP]. apply Forall_cons in Hall as [Hd Hall]. subst d.
    destruct (RecordVote_spec P now vote quorum vt p Hok Hc Hp) as (Er & Ep & _ & Hc' & _ & Ev).
    pose proof (vt_ok_RecordVote P now vote quorum vt HP1 Hok) as Hok'.
    cbn [record_all]. destruct (RecordVote now vote quorum vt) as [vt' r]. cbn [fst snd] in *. subst r.
    set (p' := pending_after vote vt p) in *.
    assert (dom (PH_Votes p') = {[Validator vote]} ∪ dom (PH_Votes p)) as Edom.
    { unfold p', pending_after, add_vote. rewrite Hsync.
      destruct (PH_Votes p !! Validator vote) eqn:E.
      - apply elem_of_dom_2 in E. set_solver.
      - cbn. by rewrite dom_insert_L. }
    assert (dom (PH_Votes p) ∪ voters (vote :: votes) = dom (PH_Votes p') ∪ voters votes) as ->.
    { rewrite Edom. unfold voters. cbn. set_solver. }
    unfold check_quorum. rewrite <-size_dom. case_bool_decide as Hq.
    + split; [|by eexists]. intros _.
      assert (size (dom (PH_Votes p')) ≤ size (dom (PH_Votes p') ∪ voters votes))%nat
        by (apply subseteq_size; set_solver). lia.
    + apply IH; try done; [by rewrite Ep, lookup_insert_eq| |lia].
      intros v. rewrite Ev. unfold p', pending_after, add_vote. rewrite !Hsync.
      destruct (PH_Votes p !! Validator vote) eqn:E; [by rewrite decide_False by naive_solver|].
      cbn. destruct (decide (v = Validator vote)) as [->|Hv].
      * by rewrite lookup_insert_eq, decide_True.
      * rewrite lookup_insert_ne by congruence. by rewrite decide_False by naive_solver.
Qed.

(** C15. Votes make a certificate exactly when enough distinct validators sent
    them: if a header is freshly tracked and no vote for its digest is on
    record, recording a list of votes for it forms a certificate at some vote
    if and only if the list has votes of at least [quorum] distinct
    validators. *)
Theorem quorum_of_votes_certifies t ops now h votes quorum :
  let vt := vote_run t ops in
  vt_closed vt = false → HasHeader (Digest h) vt = false → (∀ v, voted vt v (Digest h) = None) →
  1 ≤ quorum → Forall (λ v, HeaderDigest v = Digest h) votes →
  is_Some (record_all now votes quorum (TrackHeader now h vt)) ↔ quorum ≤ zsize (voters votes).
Proof.
  intros vt Hc Hh Hn Hq Hv. pose proof (vote_run_ok t ops) as Hok. fold vt in Hok.
  pose proof (vt_ok_TrackHeader _ now h vt Hok) as Hok'.
  unfold HasHeader in Hh. destruct (pending vt !! Digest h) eqn:Hp; [done|].
  assert (TrackHeader now h vt =
    vt <| pending := <[Digest h := mk_PendingHeader h ∅ now]> (pending vt) |>) as E.
  { unfold TrackHeader. by rewrite Hc, Hp. }
  rewrite (record_all_spec (λ _, True) now votes quorum _ (Digest h) (mk_PendingHeader h ∅ now)); try done.
  - cbn. by rewrite dom_empty_L, union_empty_l_L.
  - by rewrite E.
  - rewrite E. cbn. by rewrite lookup_insert_eq.
  - apply Forall_true. done.
  - intros v. rewrite E. cbn. rewrite lookup_empty. apply Hn.
  - cbn. rewrite dom_empty_L, size_empty. lia.
Qed.

(** A timed-out header leaves its votes behind: after [RemoveTimedOut]
    dropped a header, tracking it again and recording the vote of a validator
    that had voted before does not add the vote, so the header stays without
    the votes of all earlier voters. *)
Theorem retracked_header_ignores_old_voters t ops now h now' vote quorum :
  let vt := vote_run t ops in
  vt_closed vt = false → is_Some (voted vt (Validator vote) (Digest h)) → HeaderDigest vote = Digest h →
  HasHeader (Digest h) (RemoveTimedOut now vt).1 = false →
  let vt' := TrackHeader now' h (RemoveTimedOut now vt).1 in
  tracked_votes (Digest h) (RecordVote now' vote quorum vt').1 = 0.
Proof.
  intros vt Hc [v1 Hv] Hd Hh vt'. pose proof (vote_run_ok t ops) as Hok. fold vt in Hok.
  pose proof (vt_ok_TrackHeader _ now' h _ (vt_ok_RemoveTimedOut _ now vt Hok)) as Hok'. fold vt' in Hok'.
  unfold HasHeader in Hh. destruct (pending (RemoveTimedOut now vt).1 !! Digest h) eqn:Hp; [done|].
  assert (pending vt' !! Digest h = Some (mk_PendingHeader h ∅ now') ∧ vt_closed vt' = false) as [Hp' Hc'].
  { unfold vt', TrackHeader. rewrite Hp. cbn. rewrite Hc. cbn. by rewrite lookup_insert_eq. }
  assert (voted vt' (Validator vote) (Digest h) = Some v1) as Hv'.
  { unfold vt', TrackHeader. rewrite Hp. cbn. rewrite Hc. exact Hv. }
  rewrite <-Hd in Hp', Hv'.
  destruct (RecordVote_spec _ now' vote quorum vt' _ Hok' Hc' Hp') as (_ & Ep & _).
  unfold tracked_votes. rewrite <-Hd, Ep, lookup_insert_eq. unfold pending_after. rewrite Hv'. cbn.
  by rewrite map_size_empty.
Qed.
End tracker.

(** ** Closed examples *)
#[local] Existing Instance toy_ed25519.
#[local] Existing Instance range_sorted.

Module VoteExample.
Definition h : Header := Toy.header 0 1 [7] [].
Definition ops : list vote_op :=
  [VTrack 0 h; VRecord 1 (Toy.vote 0 [7]) 3; VRecord 2 (Toy.vote 3 [7]) 3].
End VoteExample.

Lemma record_vote_certificate_witness :
  let vt := vote_run 30 VoteExample.ops in
  let c := NewCertificate VoteExample.h [Toy.vote 0 [7]; Toy.vote 1 [7]; Toy.vote 3 [7]] in
  GetHeader [7] vt = Some (CHeader c) ∧ CDigest c = [7] ∧
  VoteCount c = 3 ∧ NoDup (Validator <$> Votes c) ∧
  ∀ v, v ∈ Votes c → HeaderDigest v = CDigest c.
Proof. apply (record_vote_certificate 30 VoteExample.ops 3 (Toy.vote 1 [7]) 3); [lia|by vm_compute]. Defined.

Lemma double_vote_evidence_witness :
  let vt := vote_run 30 VoteExample.ops in
  let vote := mk_Vote [7] 3 [0] in
  doubleVotes (RecordVote 3 vote 3 vt).1 =
    [] ++ [mk_DoubleVoteEvidence 3 [7] (Toy.vote 3 [7]) vote 3].
Proof.
  exact (proj1 (double_vote_evidence 30 VoteExample.ops 3 (mk_Vote [7] 3 [0]) 3 ltac:(by vm_compute)
    ltac:(by vm_compute))).
Defined.

Lemma quorum_of_votes_certifies_witness :
  let votes := [Toy.vote 2 [7]; Toy.vote 2 [7]; Toy.vote 0 [7]; Toy.vote 1 [7]] in
  is_Some (record_all 5 votes 3 (TrackHeader 5 VoteExample.h (vote_run 30 []))) ↔ 3 ≤ zsize (voters votes).
Proof.
  apply quorum_of_votes_certifies; try (by vm_compute). repeat constructor.
Defined.

Lemma retracked_header_ignores_old_voters_witness :
  let vt' := TrackHeader 101 VoteExample.h (RemoveTimedOut 100 (vote_run 30 VoteExample.ops)).1 in
  tracked_votes [7] (RecordVote 101 (Toy.vote 3 [7]) 3 vt').1 = 0.
Proof.
  apply (retracked_header_ignores_old_voters 30 VoteExample.ops 100 VoteExample.h 101 (Toy.vote 3 [7]) 3);
    try (by vm_compute). vm_compute. by eexists.
Defined.
