(* ===== verification/Primary.v ===== *)
(** The primary (primary/primary.go): header creation, voting and certificate
    formation.  Handlers take the state to a new state and the list of the
    callbacks they invoke, in order.  The fetcher and the acknowledgement
    checker, other components reached through interfaces, are the answers they
    give: [fetcher] ([RequestBatchesForHeader], [None] when none is installed)
    and [hasAckQuorum] ([HasBatchAckQuorum], likewise).  [now] is [time.Now()]. *)
From S2P Require Import Prelude Bytes Errors Types Batch Header BitSet Certificate Store VoteTracker.
Local Open Scope Z_scope.

Record Config := mk_Config {
  HeaderTimeout : Z;
  MaxBatchesPerHeader : Z;
  VoteTimeout : Z;
  MaxRoundGap : Z;
  AllowEmptyHeaders : bool
}.

(** Durations in nanoseconds. *)
Definition DefaultConfig : Config :=
  {| HeaderTimeout := 500 * 10 ^ 6; MaxBatchesPerHeader := 100; VoteTimeout := 30 * 10 ^ 9;
     MaxRoundGap := 10; AllowEmptyHeaders := true |}.

Record pendingVoteEntry := mk_pendingVoteEntry {
  pe_votes : list Vote;
  pe_createdAt : Z
}.

(** The callbacks of a primary. *)
Inductive output :=
  | OutCertificate (cert : Certificate)
  | OutHeader (header : Header)
  | OutVote (vote : Vote) (to : Z).

Record Primary (S B : Type) := mk_Primary {
  validatorID : Z;
  signer : Signer;
  p_cfg : Config;
  currentRound : Z;
  p_epoch : Z;
  batchDigests : list BatchDigest;
  voteTracker : VoteTracker;
  pendingVotes : gmap Hash pendingVoteEntry;
  maxPendingAge : Z;
  p_certStore : S;
  p_batchStore : B;
  validatorSet : ValidatorSet;
  running : bool
}.
Arguments mk_Primary {S B}.
Arguments validatorID {S B}.
Arguments signer {S B}.
Arguments p_cfg {S B}.
Arguments currentRound {S B}.
Arguments p_epoch {S B}.
Arguments batchDigests {S B}.
Arguments voteTracker {S B}.
Arguments pendingVotes {S B}.
Arguments maxPendingAge {S B}.
Arguments p_certStore {S B}.
Arguments p_batchStore {S B}.
Arguments validatorSet {S B}.
Arguments running {S B}.

#[export] Instance eta_Primary {S B} : Settable (Primary S B) := λ p,
  mk_Primary (validatorID p) (signer p) (p_cfg p) (currentRound p) (p_epoch p) (batchDigests p)
    (voteTracker p) (pendingVotes p) (maxPendingAge p) (p_certStore p) (p_batchStore p)
    (validatorSet p) (running p).

Section primary.
Context `{Ed : Ed25519} {S B : Type} {CS : CertificateStore S} {BS : BatchStore B}.
Context {RV : RangeOrder Z Vote} {RP : RangeOrder Hash PendingHeader}.
Context (fetcher : option (Header → bool)) (hasAckQuorum : option (Hash → bool)).
Implicit Types p : Primary S B.

Definition New (validatorID : Z) (signer : Signer) (cfg : Config) (certStore : S) (batchStore : B)
    (vs : ValidatorSet) : Primary S B :=
  mk_Primary validatorID signer cfg 0 0 [] (NewVoteTracker (VoteTimeout cfg)) ∅
    (2 * VoteTimeout cfg) certStore batchStore vs false.

Definition Start p : Primary S B * option error :=
  if running p then (p, Some ErrAlreadyRunning) else (p <| running := true |>, None).

Definition Stop p : Primary S B * option error :=
  if running p
  then (p <| running := false |> <| voteTracker := VoteTracker_Close (voteTracker p) |>, None)
  else (p, Some ErrNotRunning).

Definition SetRound p (round : Z) : Primary S B := p <| currentRound := round |>.
Definition SetEpoch p (epoch : Z) : Primary S B := p <| p_epoch := epoch |>.
Definition UpdateValidatorSet p (vs : ValidatorSet) : Primary S B := p <| validatorSet := vs |>.
Definition AddBatchDigest p (digest : BatchDigest) : Primary S B :=
  p <| batchDigests := batchDigests p ++ [digest] |>.

Definition validateHeader p (header : Header) : option error :=
  if bool_decide (Round header < currentRound p) then Some ErrRoundMismatch
  else if bool_decide (Round header > u64 (currentRound p + MaxRoundGap (p_cfg p)))
  then Some ErrRoundMismatch
  else if bool_decide (Epoch header ≠ p_epoch p) then Some ErrEpochMismatch
  else match GetByIndex (validatorSet p) (Author header) with
  | None => Some ErrValidatorNotFound
  | Some author =>
      let quorum := Quorum (validatorSet p) in
      if negb (Header_Verify header (VPublicKey author)) then Some ErrInvalidSignature
      else if bool_decide (Round header > 0) then
        if bool_decide (zlen (Parents header) < quorum) then Some ErrMissingParents
        else if negb (forallb (λ parent, HasCertificate (CR_Digest parent) (p_certStore p)) (Parents header))
        then Some ErrMissingParents
        else None
      else None
  end.

(** Whether every batch of the header is here; with a fetcher, its answer. *)
Definition batches_available p (header : Header) : bool :=
  match fetcher with
  | Some requestBatchesForHeader => requestBatchesForHeader header
  | None => forallb (λ batchRef, HasBatch (BD_Digest batchRef) (p_batchStore p)) (BatchRefs header)
  end.

Definition HandleHeader p (header : Header) : list output * option error :=
  if negb (running p) then ([], Some ErrNotRunning)
  else match validateHeader p header with
  | Some err => ([], Some err)
  | None =>
      if negb (batches_available p header) then ([], None)
      else match Vote_Sign (NewVote (Digest header) (validatorID p)) (signer p) with
           | Err err => ([], Some err)
           | Ok vote => ([OutVote vote (Author header)], None)
           end
  end.

(** A formed certificate: store it, stop tracking the header, notify. *)
Definition certificate_formed p (cert : Certificate) (headerDigest : Hash) : Primary S B * list output :=
  let p := p <| p_certStore := (SaveCertificate cert (p_certStore p)).1 |> in
  let p := p <| voteTracker := RemoveHeader headerDigest (voteTracker p) |> in
  (p, [OutCertificate cert]).

(** [RecordVote] on the primary's tracker. *)
Definition record_vote (now : Z) (vote : Vote) (quorum : Z) p : Primary S B * option Certificate :=
  let '(vt, cert) := RecordVote now vote quorum (voteTracker p) in
  (p <| voteTracker := vt |>, cert).

Definition buffer_vote (now : Z) (vote : Vote) p : Primary S B :=
  let entry := default (mk_pendingVoteEntry [] now) (pendingVotes p !! HeaderDigest vote) in
  p <| pendingVotes := <[HeaderDigest vote :=
         mk_pendingVoteEntry (pe_votes entry ++ [vote]) (pe_createdAt entry)]> (pendingVotes p) |>.

Definition HandleVote (now : Z) (vote : option Vote) p : Primary S B * list output * option Certificate :=
  match vote with
  | None => (p, [], None)
  | Some vote =>
      if negb (running p) then (p, [], None)
      else match GetByIndex (validatorSet p) (Validator vote) with
      | None => (p, [], None)
      | Some validator =>
          if negb (Vote_Verify vote (VPublicKey validator)) then (p, [], None)
          else if negb (HasHeader (HeaderDigest vote) (voteTracker p))
          then (buffer_vote now vote p, [], None)
          else
            let quorum := Quorum (validatorSet p) in
            match record_vote now vote quorum p with
            | (p, Some cert) =>
                let '(p, out) := certificate_formed p cert (HeaderDigest vote) in (p, out, Some cert)
            | (p, None) => (p, [], None)
            end
      end
  end.

Definition tryAdvanceRound p : Primary S B * bool :=
  match GetCertificatesByRound (currentRound p) (p_certStore p) with
  | Err _ => (p, false)
  | Ok certs =>
      let quorum := Quorum (validatorSet p) in
      if bool_decide (zlen certs >= quorum)
      then (p <| currentRound := u64 (currentRound p + 1) |>, true)
      else (p, false)
  end.

Definition HandleCertificate (cert : Certificate) p : Primary S B * option error :=
  if negb (running p) then (p, Some ErrNotRunning)
  else match Certificate_Verify cert (validatorSet p) with
  | Some err => (p, Some err)
  | None =>
      let '(s, err) := SaveCertificate cert (p_certStore p) in
      let p := p <| p_certStore := s |> in
      match err with
      | Some err => (p, Some err)
      | None => ((tryAdvanceRound p).1, None)
      end
  end.

Definition selectParents p (round : Z) : list CertificateRef :=
  if bool_decide (round = 0) then []
  else match GetCertificatesByRound (u64 (round - 1)) (p_certStore p) with
  | Err _ => []
  | Ok certs =>
      if bool_decide (zlen certs = 0) then []
      else
        let certs := sort_slice (by_key CAuthor) certs in
        let quorum := Quorum (validatorSet p) in
        let certs := if bool_decide (zlen certs > quorum) then take (Z.to_nat quorum) certs else certs in
        GetRef <$> certs
  end.

(** The loop of [processPendingVotes]: stop at the vote that forms the
    certificate. *)
Fixpoint record_pending (now : Z) (headerDigest : Hash) (quorum : Z) (votes : list Vote) p :
    Primary S B * list output :=
  match votes with
  | [] => (p, [])
  | vote :: votes' =>
      match record_vote now vote quorum p with
      | (p, Some cert) => certificate_formed p cert headerDigest
      | (p, None) => record_pending now headerDigest quorum votes' p
      end
  end.

Definition processPendingVotes (now : Z) (headerDigest : Hash) p : Primary S B * list output :=
  match pendingVotes p !! headerDigest with
  | None => (p, [])
  | Some entry =>
      let p := p <| pendingVotes := delete headerDigest (pendingVotes p) |> in
      record_pending now headerDigest (Quorum (validatorSet p)) (pe_votes entry) p
  end.

Definition cleanupPendingVotes (now : Z) p : Primary S B :=
  let cutoff := now - maxPendingAge p in
  let p := p <| pendingVotes := filter (λ q, ¬ pe_createdAt q.2 < cutoff) (pendingVotes p) |> in
  p <| voteTracker := (RemoveTimedOut now (voteTracker p)).1 |>.

(** Splitting the snapshot of the queue into digests that are ready and the
    rest, in queue order. *)
Definition ack_ready (d : BatchDigest) : bool :=
  match hasAckQuorum with None => true | Some h => h (BD_Digest d) end.

Fixpoint split_ready (max : Z) (snapshot ready remaining : list BatchDigest) :
    list BatchDigest * list BatchDigest :=
  match snapshot with
  | [] => (ready, remaining)
  | d :: snapshot' =>
      if bool_decide (zlen ready >= max) then split_ready max snapshot' ready (remaining ++ [d])
      else if ack_ready d then split_ready max snapshot' (ready ++ [d]) remaining
      else split_ready max snapshot' ready (remaining ++ [d])
  end.

(** The part of [tryCreateHeader] after the digests were chosen. *)
Definition build_header (now : Z) (digests : list BatchDigest) p : Primary S B * list output :=
  let round := currentRound p in
  let parents := selectParents p round in
  if bool_decide (round > 0) && bool_decide (zlen parents = 0) && bool_decide (zlen digests = 0)
  then (p, [])
  else
    let header := NewHeader (validatorID p) round (p_epoch p) digests parents now in
    match Header_Sign header (signer p) with
    | Err _ => (p, [])
    | Ok header =>
        let p := p <| voteTracker := TrackHeader now header (voteTracker p) |> in
        let '(p, out1) :=
          match Vote_Sign (NewVote (Digest header) (validatorID p)) (signer p) with
          | Err _ => (p, [])
          | Ok selfVote =>
              match record_vote now selfVote (Quorum (validatorSet p)) p with
              | (p, Some cert) =>
                  let '(p, out) := certificate_formed p cert (Digest header) in
                  ((tryAdvanceRound p).1, out)
              | (p, None) => (p, [])
              end
          end in
        let '(p, out2) := processPendingVotes now (Digest header) p in
        (p, out1 ++ out2 ++ [OutHeader header])
    end.

(** [tryCreateHeader].  The queue's mutex is released while the snapshot is
    classified; [arrived] are the digests [AddBatchDigest] appends meanwhile (on
    an early return, during the call). *)
Definition tryCreateHeader (now : Z) (arrived : list BatchDigest) p : Primary S B * list output :=
  if negb (running p) then (p <| batchDigests := batchDigests p ++ arrived |>, [])
  else if bool_decide (zlen (batchDigests p) = 0) && negb (AllowEmptyHeaders (p_cfg p))
  then (p <| batchDigests := batchDigests p ++ arrived |>, [])
  else
    let snapshot := batchDigests p in
    let p := p <| batchDigests := [] |> in
    let p := p <| batchDigests := batchDigests p ++ arrived |> in
    if bool_decide (zlen snapshot > 0) then
      let '(ready, remaining) := split_ready (MaxBatchesPerHeader (p_cfg p)) snapshot [] [] in
      let p := if bool_decide (zlen remaining > 0)
               then p <| batchDigests := remaining ++ batchDigests p |> else p in
      build_header now ready p
    else build_header now [] p.

(** ** The digest queue *)
Lemma split_ready_spec max snapshot ready remaining :
  let '(ready', remaining') := split_ready max snapshot ready remaining in
  ∃ inc rest, ready' = ready ++ inc ∧ remaining' = remaining ++ rest ∧
    snapshot ≡ₚ inc ++ rest ∧ sublist inc snapshot ∧ sublist rest snapshot ∧
    Forall (λ d, ack_ready d = true) inc ∧ (zlen ready ≤ max → zlen ready' ≤ max).
Proof.
  revert ready remaining. induction snapshot as [|d l IH]; intros ready remaining; cbn [split_ready].
  - exists [], []. rewrite !app_nil_r. split_and!; try done; constructor.
  - assert (∀ rem, let '(ready', remaining') := split_ready max l ready (rem ++ [d]) in
      ∃ inc rest, ready' = ready ++ inc ∧ remaining' = rem ++ rest ∧ d :: l ≡ₚ inc ++ rest ∧
        sublist inc (d :: l) ∧ sublist rest (d :: l) ∧ Forall (λ d, ack_ready d = true) inc ∧
        (zlen ready ≤ max → zlen ready' ≤ max)) as Hskip.
    { intros rem. specialize (IH ready (rem ++ [d])). destruct (split_ready _ _ _ _) as [r' m'].
      destruct IH as (inc & rest & -> & -> & Hp & Hi & Hr & Hf & Hl).
      exists inc, (d :: rest). rewrite <-app_assoc. split_and!; try done.
      - by rewrite Hp, Permutation_middle.
      - by apply sublist_cons.
      - by apply sublist_skip. }
    case_bool_decide as Hm; [apply Hskip|]. destruct (ack_ready d) eqn:Ea; [|apply Hskip].
    specialize (IH (ready ++ [d]) remaining). destruct (split_ready _ _ _ _) as [r' m'].
    destruct IH as (inc & rest & -> & -> & Hp & Hi & Hr & Hf & Hl).
    exists (d :: inc), rest. rewrite <-app_assoc. split_and!; try done.
    + by rewrite Hp.
    + by apply sublist_skip.
    + by apply sublist_cons.
    + by constructor.
    + intros _. rewrite <-app_assoc in Hl. apply Hl. rewrite length_app. cbn. lia.
Qed.

Lemma record_vote_frame now vote q p :
  (record_vote now vote q p).1 = p <| voteTracker := (RecordVote now vote q (voteTracker p)).1 |> ∧
  (record_vote now vote q p).2 = (RecordVote now vote q (voteTracker p)).2.
Proof. unfold record_vote. by destruct (RecordVote _ _ _ _). Qed.

Lemma tryAdvanceRound_frame p :
  (tryAdvanceRound p).1 = p ∨ (tryAdvanceRound p).1 = p <| currentRound := u64 (currentRound p + 1) |>.
Proof. unfold tryAdvanceRound. repeat case_match; eauto. Qed.

Lemma record_pending_queue now d q votes p :
  batchDigests (record_pending now d q votes p).1 = batchDigests p.
Proof.
  revert p. induction votes as [|v votes IH]; intros p; [done|]. cbn [record_pending].
  destruct (record_vote_frame now v q p) as [E _]. destruct (record_vote now v q p) as [p' [c|]]; cbn in *.
  - by subst.
  - rewrite IH. by subst.
Qed.

Lemma processPendingVotes_queue now d p :
  batchDigests (processPendingVotes now d p).1 = batchDigests p.
Proof.
  unfold processPendingVotes. destruct (pendingVotes p !! d); [|done]. by rewrite record_pending_queue.
Qed.

Lemma build_header_queue now digests p : batchDigests (build_header now digests p).1 = batchDigests p.
Proof.
  unfold build_header. destruct (_ && _ && _); [done|].
  destruct (Header_Sign _ _) as [h|]; [|done]. destruct (Vote_Sign _ _) as [v|].
  - set (p1 := p <| voteTracker := _ |>).
    destruct (record_vote_frame now v (Quorum (validatorSet p1)) p1) as [E _].
    destruct (record_vote now v _ p1) as [p2 [c|]]; cbn [fst] in E; subst p2.
    + cbn [certificate_formed]. set (p2 := _ <| voteTracker := _ |>).
      pose proof (processPendingVotes_queue now (Digest h) (tryAdvanceRound p2).1) as Eq.
      destruct (processPendingVotes _ _ _) as [p3 out]. cbn [fst] in *. rewrite Eq.
      by destruct (tryAdvanceRound_frame p2) as [-> | ->].
    + pose proof (processPendingVotes_queue now (Digest h)
        (p1 <| voteTracker := (RecordVote now v (Quorum (validatorSet p1)) (voteTracker p1)).1 |>)) as Eq.
      destruct (processPendingVotes _ _ _) as [p3 out]. exact Eq.
  - pose proof (processPendingVotes_queue now (Digest h)
      (p <| voteTracker := TrackHeader now h (voteTracker p) |>)) as Eq.
    destruct (processPendingVotes _ _ _) as [p3 out]. exact Eq.
Qed.

(** A header with batches is sent, or signing it fails. *)
Lemma build_header_sends now digests p :
  digests ≠ [] →
  (∃ h, OutHeader h ∈ (build_header now digests p).2 ∧ BatchRefs h = digests) ∨
  ((build_header now digests p).2 = [] ∧ ∃ h e, BatchRefs h = digests ∧ Sign (signer p) (Digest h) = Err e).
Proof.
  intros Hne. unfold build_header.
  rewrite (bool_decide_eq_false_2 (zlen digests = 0)), andb_false_r by (destruct digests; [done|cbn; lia]).
  set (h := NewHeader _ _ _ _ _ _). unfold Header_Sign.
  destruct (Sign (signer p) (Digest h)) as [sig|e] eqn:Es; [left|right; split; [done|by exists h, e]]. cbn [result_bind].
  exists (h <| HSignature := sig |>). split; [|done].
  destruct (match Vote_Sign _ _ with Ok _ => _ | Err _ => _ end) as [p1 out1].
  destruct (processPendingVotes _ _ _) as [p2 out2]. cbn [snd].
  rewrite !elem_of_app. right. right. by apply list_elem_of_singleton.
Qed.

(** C19. What becomes of the queued batch digests in [tryCreateHeader], also when
    digests arrive while it classifies the queue (with a non-negative
    [MaxBatchesPerHeader]): the old queue splits into the digests chosen and the
    rest; the new queue is the rest, in its old order, followed by the arrivals;
    the chosen ones are in queue order, acknowledged by a quorum and at most
    [MaxBatchesPerHeader].  Unless there are none, they are exactly the batch
    references of a header that is sent, or the signer failed on the header that
    refers to them; then nothing is sent and the chosen digests are lost. *)
Theorem try_create_header_conserves_digests now arrived p :
  0 ≤ MaxBatchesPerHeader (p_cfg p) →
  let r := tryCreateHeader now arrived p in
  ∃ included rest,
    batchDigests p ≡ₚ included ++ rest ∧ batchDigests r.1 = rest ++ arrived ∧
    sublist included (batchDigests p) ∧ sublist rest (batchDigests p) ∧
    Forall (λ d, ack_ready d = true) included ∧ zlen included ≤ MaxBatchesPerHeader (p_cfg p) ∧
    (included = [] ∨ (∃ h, OutHeader h ∈ r.2 ∧ BatchRefs h = included) ∨
      (r.2 = [] ∧ ∃ h e, BatchRefs h = included ∧ Sign (signer p) (Digest h) = Err e)).
Proof.
  intros Hm r.
  assert (batchDigests r.1 = batchDigests p ++ arrived → ∃ included rest,
    batchDigests p ≡ₚ included ++ rest ∧ batchDigests r.1 = rest ++ arrived ∧
    sublist included (batchDigests p) ∧ sublist rest (batchDigests p) ∧
    Forall (λ d, ack_ready d = true) included ∧ zlen included ≤ MaxBatchesPerHeader (p_cfg p) ∧
    (included = [] ∨ (∃ h, OutHeader h ∈ r.2 ∧ BatchRefs h = included) ∨
      (r.2 = [] ∧ ∃ h e, BatchRefs h = included ∧ Sign (signer p) (Digest h) = Err e))) as Hnone.
  { intros E. exists [], (batchDigests p).
    split_and!; [done|done|apply sublist_nil_l|done|constructor|cbn; lia|by left]. }
  unfold r, tryCreateHeader in *.
  destruct (negb (running p)); [by apply Hnone|].
  destruct (bool_decide (zlen (batchDigests p) = 0) && _); [by apply Hnone|]. clear Hnone.
  case_bool_decide as Hl.
  - cbn [p_cfg]. pose proof (split_ready_spec (MaxBatchesPerHeader (p_cfg p)) (batchDigests p) [] []) as Hsp.
    cbn. cbn in Hsp. destruct (split_ready _ _ _ _) as [ready remaining].
    destruct Hsp as (inc & rest & -> & -> & Hp & Hi & Hr & Hf & Hlen). cbn [app] in *.
    exists inc, rest. split_and!; try done.
    + rewrite build_header_queue. case_bool_decide as Hz; cbn; [done|].
      destruct rest; [done|cbn in Hz; lia].
    + apply Hlen. done.
    + destruct inc as [|d inc]; [by left|right].
      match goal with |- context [build_header now _ ?q] =>
        pose proof (build_header_sends now (d :: inc) q ltac:(done)) as Hb end.
      case_bool_decide; exact Hb.
  - assert (batchDigests p = []) as E by (destruct (batchDigests p); [done|cbn in Hl; lia]).
    exists [], []. rewrite build_header_queue, E. cbn. split_and!; try done. by left.
Qed.
End primary.

(** ** What a primary sends is valid *)
Section validity.
Context `{Ed : Ed25519} {S B : Type} {CS : CertificateStore S} {BS : BatchStore B}.
Context {RV : RangeOrder Z Vote} {RP : RangeOrder Hash PendingHeader}.
Context (vs : ValidatorSet) {L : ValidatorSetLaws vs}.
Implicit Types p : Primary S B.

Definition vote_valid (v : Vote) : Prop :=
  VerifySignature vs (Validator v) (HeaderDigest v) (VSignature v) = true.
Definition header_signed (h : Header) : Prop :=
  VerifySignature vs (Author h) (Digest h) (HSignature h) = true.
Definition cert_good (c : Certificate) : Prop :=
  Certificate_Verify c vs = None ∧ NoDup (Validator <$> Votes c).

Definition output_valid (o : output) : Prop :=
  match o with
  | OutCertificate c => cert_good c
  | OutHeader h => header_signed h ∧ Digest h = Header_ComputeDigest h
  | OutVote v _ => vote_valid v
  end.

(** The signer's signatures verify under the validator's registered key. *)
Definition registered (id : Z) (s : Signer) : Prop :=
  ∀ d sig, Sign s d = Ok sig → VerifySignature vs id d sig = true.

Record primary_ok p : Prop := {
  po_vs : validatorSet p = vs;
  po_signer : registered (validatorID p) (signer p);
  po_tracker : vt_ok vote_valid (voteTracker p);
  po_headers : headers_sat header_signed (voteTracker p);
  po_buffer d e v : pendingVotes p !! d = Some e → v ∈ pe_votes e → vote_valid v
}.

Lemma quorum_pos : 1 ≤ Quorum vs.
Proof using L.
  rewrite vs_Quorum, vs_F. pose proof (vs_members_size (vs := vs)).
  destruct (decide (1 ≤ VS_Count vs)).
  - assert (0 ≤ (VS_Count vs - 1) ÷ 3) by (apply Z.quot_pos; lia). lia.
  - replace (VS_Count vs) with 0 by lia. done.
Qed.

Lemma primary_ok_tracker p vt :
  primary_ok p → vt_ok vote_valid vt → headers_sat header_signed vt → primary_ok (p <| voteTracker := vt |>).
Proof using. intros [] ??. by split. Qed.

Lemma primary_ok_store p s : primary_ok p → primary_ok (p <| p_certStore := s |>).
Proof using. intros []. by split. Qed.

Lemma record_vote_ok now v p :
  primary_ok p → vote_valid v →
  let r := record_vote now v (Quorum (validatorSet p)) p in
  primary_ok r.1 ∧ ∀ c, r.2 = Some c → cert_good c.
Proof using L.
  intros Hok Hv. destruct (record_vote_frame now v (Quorum (validatorSet p)) p) as [E1 E2].
  cbv zeta. rewrite E1, E2. pose proof Hok as [Evs Hs Ht Hh Hb]. split.
  - apply primary_ok_tracker; [done|by apply vt_ok_RecordVote|by eapply headers_sat_record].
  - intros c Hc. rewrite Evs in Hc.
    destruct (RecordVote_certificate vote_valid now v (Quorum vs) (voteTracker p) c Ht Hv quorum_pos Hc)
      as (Hg & Hd & Hn & Hnd & Hvs). split; [|done].
    apply (Certificate_Verify_spec vs c). split_and!; [lia| |].
    + unfold GetHeader in Hg. destruct (pending (voteTracker p) !! HeaderDigest v) as [ph|] eqn:Hp; [|done].
      apply Hh in Hp. injection Hg as Hg. rewrite Hg in Hp. exact Hp.
    + apply Forall_forall. intros x Hx. destruct (Hvs x Hx) as [E Hval]. split; [done|].
      unfold vote_valid in Hval. by rewrite E in Hval.
Qed.

Lemma certificate_formed_ok p c d :
  primary_ok p → cert_good c →
  primary_ok (certificate_formed p c d).1 ∧ Forall output_valid (certificate_formed p c d).2.
Proof using.
  intros Hok Hc. unfold certificate_formed. cbn [fst snd]. split; [|by apply Forall_singleton].
  apply primary_ok_tracker; [by apply primary_ok_store| |].
  - apply vt_ok_RemoveHeader, Hok.
  - apply headers_sat_remove, Hok.
Qed.

Lemma tryAdvanceRound_ok p : primary_ok p → primary_ok (tryAdvanceRound p).1.
Proof using. intros Hok. destruct (tryAdvanceRound_frame p) as [-> | ->]; [done|]. destruct Hok. by split. Qed.

Lemma record_pending_ok now d votes p :
  primary_ok p → Forall vote_valid votes →
  let r := record_pending now d (Quorum (validatorSet p)) votes p in
  primary_ok r.1 ∧ Forall output_valid r.2.
Proof using L.
  intros Hok Hv. revert p Hok. induction Hv as [|v votes Hv Hvs IH]; intros p Hok; [done|].
  cbn [record_pending]. destruct (record_vote_ok now v p Hok Hv) as [Hok' Hc].
  assert (validatorSet (record_vote now v (Quorum (validatorSet p)) p).1 = validatorSet p) as Evs.
  { by rewrite (proj1 (record_vote_frame now v (Quorum (validatorSet p)) p)). }
  destruct (record_vote now v _ p) as [p' [c|]]; cbn [fst snd] in *.
  - by apply certificate_formed_ok; [|apply Hc].
  - rewrite <-Evs. by apply IH.
Qed.

Lemma processPendingVotes_ok now d p :
  primary_ok p → let r := processPendingVotes now d p in primary_ok r.1 ∧ Forall output_valid r.2.
Proof using L.
  intros Hok. unfold processPendingVotes. destruct (pendingVotes p !! d) as [e|] eqn:E; [|done].
  apply (record_pending_ok now d (pe_votes e) (p <| pendingVotes := delete d (pendingVotes p) |>)).
  - destruct Hok as [? ? ? ? Hb]. split; try done. intros d' e' v. cbn. intros [_ H]%lookup_delete_Some. by eapply Hb.
  - apply Forall_forall. intros v. by eapply (po_buffer _ Hok).
Qed.

Lemma build_header_ok now digests p :
  primary_ok p → let r := build_header now digests p in primary_ok r.1 ∧ Forall output_valid r.2.
Proof using L.
  intros Hok. unfold build_header. destruct (_ && _ && _); [done|].
  set (h0 := NewHeader _ _ _ _ _ _). unfold Header_Sign.
  destruct (Sign (signer p) (Digest h0)) as [sig|] eqn:Es; [|done]. cbn [result_bind].
  set (h := h0 <| HSignature := sig |>).
  assert (header_signed h) as Hh by (by apply (po_signer _ Hok)).
  set (p1 := p <| voteTracker := TrackHeader now h (voteTracker p) |>).
  assert (primary_ok p1) as Hok1.
  { apply primary_ok_tracker; [done|apply vt_ok_TrackHeader, Hok|by apply headers_sat_track, Hok]. }
  assert (∀ p2 out1, primary_ok p2 → Forall output_valid out1 →
    let r := let '(p3, out2) := processPendingVotes now (Digest h) p2 in (p3, out1 ++ out2 ++ [OutHeader h]) in
    primary_ok r.1 ∧ Forall output_valid r.2) as Hfin.
  { intros p2 out1 Hok2 Ho1. destruct (processPendingVotes_ok now (Digest h) p2 Hok2) as [Hok3 Ho2].
    destruct (processPendingVotes now (Digest h) p2) as [p3 out2]. cbn [fst snd] in *. split; [done|].
    rewrite !Forall_app. split_and!; try done. by apply Forall_singleton. }
  unfold Vote_Sign. cbn [NewVote HeaderDigest].
  destruct (Sign (signer p1) (Digest h)) as [sig'|] eqn:Es'; cbn [result_bind]; [|by apply Hfin].
  set (v := (NewVote (Digest h) (validatorID p1)) <| VSignature := sig' |>).
  assert (vote_valid v) as Hv by (by apply (po_signer _ Hok1)).
  destruct (record_vote_ok now v p1 Hok1 Hv) as [Hok2 Hc].
  destruct (record_vote now v (Quorum (validatorSet p1)) p1) as [p2 [c|]]; cbn [fst snd] in *.
  - destruct (certificate_formed_ok p2 c (Digest h) Hok2 (Hc c eq_refl)) as [Hok3 Ho].
    destruct (certificate_formed p2 c (Digest h)) as [p3 out]. apply Hfin; [|done].
    by apply tryAdvanceRound_ok.
  - by apply Hfin.
Qed.

Lemma tryCreateHeader_ok hasAck now arrived p :
  primary_ok p → let r := tryCreateHeader hasAck now arrived p in
  primary_ok r.1 ∧ Forall output_valid r.2.
Proof using L.
  intros Hok. assert (∀ q, primary_ok (p <| batchDigests := q |>)) as Hq by (destruct Hok; by split).
  unfold tryCreateHeader. destruct (negb (running p)); [split; [apply Hq|constructor]|].
  destruct (_ && _); [split; [apply Hq|constructor]|].
  case_bool_decide.
  - destruct (split_ready _ _ _ _ _) as [ready remaining].
    apply build_header_ok. case_bool_decide; apply Hq.
  - apply build_header_ok, Hq.
Qed.

Lemma HandleVote_ok now v p :
  primary_ok p → let r := HandleVote now v p in
  primary_ok r.1.1 ∧ Forall output_valid r.1.2 ∧ ∀ c, r.2 = Some c → cert_good c.
Proof using L.
  intros Hok. unfold HandleVote. destruct v as [v|]; [|done].
  destruct (negb (running p)); [done|]. rewrite (po_vs _ Hok).
  destruct (GetByIndex vs (Validator v)) as [val|] eqn:Ev; [|done].
  unfold Vote_Verify. destruct (PublicKey_Verify _ _ _) eqn:Epk; cbn [negb]; [|done].
  assert (vote_valid v) as Hv by (unfold vote_valid; by rewrite vs_VerifySignature, Ev).
  destruct (HasHeader _ _); cbn [negb].
  - destruct (record_vote_ok now v p Hok Hv) as [Hok' Hc]. rewrite (po_vs _ Hok) in *.
    destruct (record_vote now v (Quorum vs) p) as [p' [c|]]; cbn [fst snd] in *; [|done].
    destruct (certificate_formed_ok p' c (HeaderDigest v) Hok' (Hc c eq_refl)) as [H1 H2].
    destruct (certificate_formed p' c (HeaderDigest v)) as [p2 out]. split_and!; try done.
  - split_and!; try done. cbn [fst]. destruct Hok as [E1 E2 E3 E4 Hb]. split; try done.
    intros d e x. unfold buffer_vote. cbn. intros [[<- <-]|[_ He]]%lookup_insert_Some; [|by eapply Hb].
    cbn. rewrite elem_of_app, list_elem_of_singleton. intros [Hx| ->]; [|done].
    destruct (pendingVotes p !! HeaderDigest v) as [e|] eqn:He; [by eapply Hb|].
    by apply not_elem_of_nil in Hx.
Qed.

Lemma HandleHeader_ok fetcher h p :
  primary_ok p → Forall output_valid (HandleHeader fetcher p h).1.
Proof using.
  intros Hok. unfold HandleHeader. destruct (negb (running p)); [constructor|].
  destruct (validateHeader p h); [constructor|]. destruct (negb _); [constructor|].
  unfold Vote_Sign. cbn [NewVote HeaderDigest].
  destruct (Sign (signer p) (Digest h)) as [sig|] eqn:Es; cbn; [|constructor].
  apply Forall_singleton. by apply (po_signer _ Hok).
Qed.

Lemma HandleCertificate_ok c p : primary_ok p → primary_ok (HandleCertificate c p).1.
Proof using.
  intros Hok. unfold HandleCertificate. destruct (negb (running p)); [done|].
  destruct (Certificate_Verify c _); [done|]. destruct (SaveCertificate c _) as [s [e|]].
  - by apply primary_ok_store.
  - by apply tryAdvanceRound_ok, primary_ok_store.
Qed.

(** The events of a primary's life; the answers of the fetcher and of the
    acknowledgement checker may differ from event to event. *)
Inductive primary_op :=
  | PHeader (fetcher : option (Header → bool)) (h : Header)
  | PVote (now : Z) (v : option Vote)
  | PCertificate (c : Certificate)
  | PTick (hasAck : option (Hash → bool)) (now : Z) (arrived : list BatchDigest)
  | PCleanup (now : Z)
  | PDigest (d : BatchDigest)
  | PSetRound (r : Z)
  | PSetEpoch (e : Z)
  | PStart
  | PStop.

Definition primary_exec p (op : primary_op) : Primary S B * list output :=
  match op with
  | PHeader fetcher h => (p, (HandleHeader fetcher p h).1)
  | PVote now v => (HandleVote now v p).1
  | PCertificate c => ((HandleCertificate c p).1, [])
  | PTick hasAck now arrived => tryCreateHeader hasAck now arrived p
  | PCleanup now => (cleanupPendingVotes now p, [])
  | PDigest d => (AddBatchDigest p d, [])
  | PSetRound r => (SetRound p r, [])
  | PSetEpoch e => (SetEpoch p e, [])
  | PStart => ((Start p).1, [])
  | PStop => ((Stop p).1, [])
  end.

Fixpoint primary_run p (ops : list primary_op) : Primary S B * list output :=
  match ops with
  | [] => (p, [])
  | op :: ops' =>
      let '(p, out) := primary_exec p op in
      let '(p, outs) := primary_run p ops' in (p, out ++ outs)
  end.

Lemma primary_exec_ok p op :
  primary_ok p → primary_ok (primary_exec p op).1 ∧ Forall output_valid (primary_exec p op).2.
Proof using L.
  intros Hok. destruct op; cbn [primary_exec].
  - split; [done|by apply HandleHeader_ok].
  - by destruct (HandleVote_ok now v p Hok) as (? & ? & _).
  - split; [by apply HandleCertificate_ok|constructor].
  - by apply tryCreateHeader_ok.
  - split; [|constructor]. unfold cleanupPendingVotes. cbn [fst]. apply primary_ok_tracker.
    + destruct Hok as [? ? ? ? Hb]. split; try done. intros d e v. cbn.
      intros [He _]%map_lookup_filter_Some. by eapply Hb.
    + apply vt_ok_RemoveTimedOut, Hok.
    + apply headers_sat_timeout, Hok.
  - split; [|constructor]. destruct Hok; by split.
  - split; [|constructor]. destruct Hok; by split.
  - split; [|constructor]. destruct Hok; by split.
  - split; [|constructor]. unfold Start. destruct (running p); [done|]. destruct Hok; by split.
  - split; [|constructor]. unfold Stop. destruct (running p); [|done].
    destruct Hok as [? ? ? ? Hb]. split; try done. apply vt_ok_Close.
Qed.

Lemma primary_run_ok p ops :
  primary_ok p → primary_ok (primary_run p ops).1 ∧ Forall output_valid (primary_run p ops).2.
Proof using L.
  revert p. induction ops as [|op ops IH]; intros p Hok; [done|]. cbn [primary_run].
  destruct (primary_exec_ok p op Hok) as [Hok1 Ho1]. destruct (primary_exec p op) as [p1 out].
  destruct (IH p1 Hok1) as [Hok2 Ho2]. destruct (primary_run p1 ops) as [p2 outs].
  cbn [fst snd] in *. split; [done|]. by apply Forall_app.
Qed.

Lemma primary_ok_New id s cfg cs bs : registered id s → primary_ok (New id s cfg cs bs vs).
Proof using.
  intros Hs. split; try done. apply vt_ok_new.
Qed.

(** C7. Everything a primary sends is valid: for a fixed validator set in which
    the primary's key is registered, after any sequence of received headers,
    votes and certificates, ticks, cleanups and restarts, every certificate
    handed to the callback verifies and has votes of distinct validators, every
    header sent is signed by its author and carries its computed digest, and
    every vote sent verifies. *)
Theorem primary_outputs_valid id s cfg cs bs ops o :
  registered id s → o ∈ (primary_run (New id s cfg cs bs vs) ops).2 → output_valid o.
Proof using L.
  intros Hs Ho. destruct (primary_run_ok (New id s cfg cs bs vs) ops) as [_ Hall].
  - by apply primary_ok_New.
  - rewrite Forall_forall in Hall. by apply Hall.
Qed.
End validity.

(** ** Validation, voting and round advance *)
Section protocol.
Context `{Ed : Ed25519} {S B : Type} {CS : CertificateStore S} {CL : CertificateStoreLaws S}.
Context {BS : BatchStore B} {RV : RangeOrder Z Vote} {RP : RangeOrder Hash PendingHeader}.
Context (vs : ValidatorSet) {L : ValidatorSetLaws vs}.
Implicit Types p : Primary S B.

(** When a header is acceptable to a primary. *)
Record acceptable p (h : Header) : Prop := {
  acc_round : currentRound p ≤ Round h ≤ u64 (currentRound p + MaxRoundGap (p_cfg p));
  acc_epoch : Epoch h = p_epoch p;
  acc_signed : header_signed vs h;
  acc_count : 0 < Round h → Quorum vs ≤ zlen (Parents h);
  acc_parents q : 0 < Round h → q ∈ Parents h → HasCertificate (CR_Digest q) (p_certStore p) = true
}.

Lemma validateHeader_spec p h :
  validatorSet p = vs → validateHeader p h = None ↔ acceptable p h.
Proof using L.
  intros Evs. unfold validateHeader. rewrite Evs.
  assert (header_signed vs h ↔ ∃ a, GetByIndex vs (Author h) = Some a ∧ Header_Verify h (VPublicKey a) = true) as Hsig.
  { unfold header_signed, Header_Verify. rewrite vs_VerifySignature.
    destruct (GetByIndex vs (Author h)); naive_solver. }
  case_bool_decide as H1; [split; [done|intros []; lia]|].
  case_bool_decide as H2; [split; [done|intros []; lia]|].
  case_bool_decide as H3; [split; [done|by intros []]|].
  destruct (GetByIndex vs (Author h)) as [a|] eqn:Ea.
  2:{ split; [done|]. intros [_ _ Hs _ _]. apply Hsig in Hs as (x & ? & _). congruence. }
  destruct (Header_Verify h (VPublicKey a)) eqn:Ev; cbn [negb].
  2:{ split; [done|]. intros [_ _ Hs _ _]. apply Hsig in Hs as (x & ? & ?). congruence. }
  assert (header_signed vs h) as Hs by (apply Hsig; eauto).
  case_bool_decide as H4; [|split; [|done]; intros _; split; try done; try lia; naive_solver].
  case_bool_decide as H5; [split; [done|intros [_ _ _ Hc _]; lia]|].
  destruct (forallb _ (Parents h)) eqn:Ef; cbn [negb].
  - split; [|done]. intros _. rewrite forallb_true in Ef. split; try done; [lia..|].
    intros q _ Hq. by apply Ef.
  - split; [done|]. intros [_ _ _ _ Hp]. apply forallb_false in Ef as (q & Hq & Hf).
    rewrite Hp in Hf; [done|lia|done].
Qed.

(** C16. What [HandleHeader] checks before it votes, exactly: a running primary
    votes, to the author and for the header's digest, if and only if the round is
    in its window, the epoch is its own, the author's signature verifies, above
    round 0 there are at least a quorum of parent references, each naming a stored
    certificate, the batches are here and its signer works; the vote verifies when
    its signer holds the key registered for it.  Otherwise it sends nothing, and a
    failing signer's error is returned.  The rounds of the parents and whether
    they are distinct are not among the checks, although the documentation asks
    for 2f+1 certificates of the previous round. *)
Theorem handle_header_votes fetcher p h :
  validatorSet p = vs → running p = true →
  let r := HandleHeader fetcher p h in
  (acceptable p h ∧ batches_available fetcher p h = true →
     match Sign (signer p) (Digest h) with
     | Ok _ => ∃ v, r = ([OutVote v (Author h)], None) ∧ HeaderDigest v = Digest h ∧ Validator v = validatorID p ∧
                 (registered vs (validatorID p) (signer p) → vote_valid vs v)
     | Err e => r = ([], Some e)
     end) ∧
  (¬ (acceptable p h ∧ batches_available fetcher p h = true) → r.1 = []).
Proof using L.
  intros Evs Hr r. unfold r, HandleHeader. rewrite Hr. cbn [negb].
  pose proof (validateHeader_spec p h Evs) as Hv.
  destruct (validateHeader p h) as [e|].
  { split; [|done]. intros [H%Hv _]. done. }
  assert (acceptable p h) as Ha by by apply Hv. destruct (batches_available fetcher p h); cbn [negb].
  - split; [|by intros []]. intros _. unfold Vote_Sign. cbn [NewVote HeaderDigest].
    destruct (Sign (signer p) (Digest h)) as [sig|e] eqn:Es; [|done]. cbn. eexists. split_and!; [done..|].
    intros Hreg. by apply Hreg.
  - split; [by intros [_ ?]|done].
Qed.

(** Nothing stops a primary from voting for equivocating headers: two
    acceptable headers of one author for one round with different digests both
    get its vote. *)
Theorem votes_for_equivocating_headers fetcher p h1 h2 :
  validatorSet p = vs → running p = true → (∀ d, is_Ok (Sign (signer p) d)) →
  Author h1 = Author h2 → Round h1 = Round h2 → Digest h1 ≠ Digest h2 →
  acceptable p h1 → batches_available fetcher p h1 = true →
  acceptable p h2 → batches_available fetcher p h2 = true →
  let outs := (primary_run p [PHeader fetcher h1; PHeader fetcher h2]).2 in
  ∃ v1 v2, outs = [OutVote v1 (Author h1); OutVote v2 (Author h1)] ∧
    Validator v1 = Validator v2 ∧ HeaderDigest v1 = Digest h1 ∧ HeaderDigest v2 = Digest h2.
Proof using L.
  intros Evs Hr Hs Ha _ _ A1 B1 A2 B2 outs. unfold outs.
  assert (∀ h, acceptable p h → batches_available fetcher p h = true →
    ∃ v, (HandleHeader fetcher p h).1 = [OutVote v (Author h)] ∧
      Validator v = validatorID p ∧ HeaderDigest v = Digest h) as Hv.
  { intros h A%validateHeader_spec Bh; [|done]. unfold HandleHeader. rewrite Hr, A, Bh. cbn.
    unfold Vote_Sign. cbn. destruct (Hs (Digest h)) as [sig ->]. cbn. eauto. }
  destruct (Hv h1 A1 B1) as (v1 & E1 & V1 & D1), (Hv h2 A2 B2) as (v2 & E2 & V2 & D2).
  exists v1, v2. cbn [primary_run primary_exec]. rewrite E1, E2, <-Ha. cbn. split_and!; congruence.
Qed.

(** ** Round advance *)

(** The certificates the store lists for a round. *)
Definition listed (s : S) (round : Z) : list Certificate :=
  match GetCertificatesByRound round s with Ok l => l | Err _ => [] end.

(** C17. [HandleCertificate], branch by branch and for any store: a stopped primary
    answers [ErrNotRunning]; a certificate that does not verify is rejected with
    the error of [Certificate.Verify]; both change nothing.  When saving it fails,
    that error is returned and only the store has changed.  Otherwise the
    certificate is saved, and the round moves on by one (wrapping at 64 bits)
    exactly when the store then lists at least a quorum of certificates for the
    current round; nothing else changes.  Over a store that keeps its contract,
    saving does not fail and adds the certificate unless its digest is stored. *)
Theorem handle_certificate_advances c p :
  validatorSet p = vs →
  let r := HandleCertificate c p in
  let '(s, err) := SaveCertificate c (p_certStore p) in
  (running p = false → r = (p, Some ErrNotRunning)) ∧
  (running p = true → ∀ e, Certificate_Verify c vs = Some e → r = (p, Some e)) ∧
  (running p = true → Certificate_Verify c vs = None →
     (∀ e, err = Some e → r = (p <| p_certStore := s |>, Some e)) ∧
     (err = None →
        r = (p <| p_certStore := s |>
               <| currentRound := if bool_decide (Quorum vs ≤ zlen (listed s (currentRound p)))
                                  then u64 (currentRound p + 1) else currentRound p |>, None)) ∧
     (cs_ok (p_certStore p) →
        err = None ∧ cs_ok s ∧ cs_view s = insert_new (CDigest c) c (cs_view (p_certStore p)))).
Proof using L.
  intros Evs r. destruct (SaveCertificate c (p_certStore p)) as [s err] eqn:Es. unfold r, HandleCertificate. rewrite Evs, Es.
  split_and!; [by intros ->|by intros -> e ->|]. intros -> ->. cbn [negb]. split_and!.
  - by intros e ->.
  - intros ->. f_equal. unfold tryAdvanceRound, listed. cbn. rewrite Evs. pose proof (quorum_pos vs) as Hq.
    destruct (GetCertificatesByRound (currentRound p) s) as [l|e]; [|by rewrite bool_decide_eq_false_2 by (cbn; lia); destruct p].
    destruct (decide (Quorum vs ≤ zlen l)).
    + by rewrite (bool_decide_eq_true_2 (zlen l >= _)), (bool_decide_eq_true_2 (_ ≤ _)) by lia.
    + rewrite (bool_decide_eq_false_2 (zlen l >= _)), (bool_decide_eq_false_2 (_ ≤ _)) by lia. by destruct p.
  - intros Hs. pose proof (cs_save (p_certStore p) c Hs) as Hsv. cbv zeta in Hsv. by rewrite Es in Hsv.
Qed.

(** ** Headers of an honest primary are accepted *)
Lemma selectParents_spec p round l :
  validatorSet p = vs → cs_ok (p_certStore p) → is_u64 round → 0 < round →
  GetCertificatesByRound (round - 1) (p_certStore p) = Ok l → Quorum vs ≤ zlen l →
  zlen (selectParents p round) = Quorum vs ∧
  ∀ q, q ∈ selectParents p round →
    CR_Round q = round - 1 ∧ HasCertificate (CR_Digest q) (p_certStore p) = true.
Proof using L.
  intros Evs Hs Hu H0 El Hq. pose proof (quorum_pos vs) as Hq1.
  destruct (cs_round (p_certStore p) (round - 1) Hs) as (l' & El' & _ & Hl & _).
  assert (l' = l) as -> by congruence. unfold selectParents.
  rewrite bool_decide_eq_false_2 by lia. rewrite wrap_id by (unfold fits in *; lia).
  rewrite El, bool_decide_eq_false_2 by lia. rewrite Evs, length_sort_slice.
  assert (∀ c, c ∈ sort_slice (by_key CAuthor) l →
    CRound c = round - 1 ∧ HasCertificate (CDigest c) (p_certStore p) = true) as Hin.
  { intros c Hc%elem_of_sort_slice%Hl. rewrite cs_has by done. destruct Hc as [-> ->].
    by rewrite bool_decide_eq_true_2. }
  case_bool_decide as Hgt.
  - split; [rewrite length_fmap, length_take, length_sort_slice; lia|].
    intros q (c & -> & Hc%take_elem_of)%list_elem_of_fmap. by apply Hin.
  - split; [rewrite length_fmap, length_sort_slice; lia|].
    intros q (c & -> & Hc)%list_elem_of_fmap. by apply Hin.
Qed.

Lemma no_header_in_pending now d q votes p h : OutHeader h ∉ (record_pending now d q votes p).2.
Proof using.
  revert p. induction votes as [|v votes IH]; intros p; [apply not_elem_of_nil|]. cbn [record_pending].
  destruct (record_vote now v q p) as [p' [c|]]; [|apply IH].
  cbn. intros Hin%list_elem_of_singleton. done.
Qed.

Lemma build_header_header now digests p h :
  OutHeader h ∈ (build_header now digests p).2 →
  ∃ sig, let h0 := NewHeader (validatorID p) (currentRound p) (p_epoch p) digests
                     (selectParents p (currentRound p)) now in
    Sign (signer p) (Digest h0) = Ok sig ∧ h = h0 <| HSignature := sig |>.
Proof using.
  unfold build_header. destruct (_ && _ && _); [by intros ?%not_elem_of_nil|].
  set (h0 := NewHeader _ _ _ _ _ _). unfold Header_Sign.
  destruct (Sign (signer p) (Digest h0)) as [sig|] eqn:Es; [|by intros ?%not_elem_of_nil].
  cbn [result_bind]. set (h1 := h0 <| HSignature := sig |>).
  assert (∀ p2, OutHeader h ∉ (processPendingVotes now (Digest h1) p2).2) as Hpv.
  { intros p2. unfold processPendingVotes. destruct (pendingVotes p2 !! _); [|apply not_elem_of_nil].
    apply no_header_in_pending. }
  intros Hin. exists sig. split; [done|].
  assert (∀ p2 out1, OutHeader h ∉ out1 →
    OutHeader h ∈ (let '(p3, out2) := processPendingVotes now (Digest h1) p2 in
                   (p3, out1 ++ out2 ++ [OutHeader h1])).2 → h = h1) as Hfin.
  { intros p2 out1 Hn Hx. specialize (Hpv p2). destruct (processPendingVotes now (Digest h1) p2) as [p3 out2].
    cbn [snd] in *. rewrite !elem_of_app in Hx. destruct Hx as [?|[?|Hx%list_elem_of_singleton]]; [done|done|congruence]. }
  destruct (Vote_Sign _ _) as [v|]; [|by eapply Hfin, Hin; apply not_elem_of_nil].
  destruct (record_vote now v _ _) as [p2 [c|]]; [|by eapply Hfin, Hin; apply not_elem_of_nil].
  eapply Hfin, Hin. cbn. by intros ?%list_elem_of_singleton.
Qed.

(** The batches of a header sent by a tick have an acknowledgement quorum. *)
Lemma tryCreateHeader_refs hasAck now arrived p h :
  OutHeader h ∈ (tryCreateHeader hasAck now arrived p).2 → Forall (λ d, ack_ready hasAck d = true) (BatchRefs h).
Proof using.
  unfold tryCreateHeader. destruct (negb (running p)); [by intros ?%not_elem_of_nil|].
  destruct (bool_decide (zlen (batchDigests p) = 0) && _); [by intros ?%not_elem_of_nil|]. case_bool_decide.
  - pose proof (split_ready_spec hasAck (MaxBatchesPerHeader (p_cfg p)) (batchDigests p) [] []) as Hsp.
    cbn. cbn in Hsp. destruct (split_ready _ _ _ _) as [ready rem].
    destruct Hsp as (inc & rest & -> & _ & _ & _ & _ & Hf & _).
    intros (sig & _ & ->)%build_header_header. exact Hf.
  - intros (sig & _ & ->)%build_header_header. constructor.
Qed.

(** C18. Honest headers are accepted: a header that a primary with its registered
    key sends, when its store keeps its contract and, above round 0, lists a
    quorum of certificates for the previous round, refers above round 0 to exactly
    a quorum of stored certificates of the previous round, and it passes the
    validation of every primary of the same epoch and validator set that stores
    the certificates it refers to and whose round window contains it. *)
Theorem created_header_accepted hasAck now arrived p p' h :
  validatorSet p = vs → validatorSet p' = vs → registered vs (validatorID p) (signer p) →
  cs_ok (p_certStore p) → is_u64 (currentRound p) →
  (0 < currentRound p → Quorum vs ≤ zlen (listed (p_certStore p) (currentRound p - 1))) →
  OutHeader h ∈ (tryCreateHeader hasAck now arrived p).2 →
  (∀ q, q ∈ Parents h → HasCertificate (CR_Digest q) (p_certStore p') = true) →
  p_epoch p' = p_epoch p →
  currentRound p' ≤ currentRound p ≤ u64 (currentRound p' + MaxRoundGap (p_cfg p')) →
  (0 < Round h → zlen (Parents h) = Quorum vs ∧
     ∀ q, q ∈ Parents h → CR_Round q = Round h - 1 ∧ HasCertificate (CR_Digest q) (p_certStore p) = true) ∧
  validateHeader p' h = None.
Proof using L.
  intros Evs Evs' Hreg Hs Hu Hq Hin Hsub He Hr.
  assert (∃ digests q, OutHeader h ∈ (build_header now digests (p <| batchDigests := q |>)).2)
    as (digests & q0 & Hb).
  { unfold tryCreateHeader in Hin. destruct (negb (running p)); [by apply not_elem_of_nil in Hin|].
    destruct (_ && _); [by apply not_elem_of_nil in Hin|].
    case_bool_decide; [destruct (split_ready _ _ _ _ _) as [ready rem]; case_bool_decide|];
      eexists _, _; exact Hin. }
  apply build_header_header in Hb as (sig & Es & ->).
  set (p0 := p <| batchDigests := q0 |>) in *.
  assert (0 < currentRound p → zlen (selectParents p0 (currentRound p)) = Quorum vs ∧
    ∀ q, q ∈ selectParents p0 (currentRound p) →
      CR_Round q = currentRound p - 1 ∧ HasCertificate (CR_Digest q) (p_certStore p) = true) as Hpar.
  { intros H0. specialize (Hq H0). unfold listed in Hq.
    destruct (cs_round (p_certStore p) (currentRound p - 1) Hs) as (l & El & _). rewrite El in Hq.
    by destruct (selectParents_spec p0 (currentRound p) l) as [Hlen Hin']. }
  split; [exact Hpar|]. apply (validateHeader_spec p' _ Evs'). split; cbn; try done.
  - by apply Hreg.
  - intros [Hlen _]%Hpar. cbn in *. lia.
  - intros q _ Hqin. by apply Hsub.
Qed.
End protocol.

(** ** Closed examples *)
#[local] Existing Instance toy_ed25519.
#[local] Existing Instance Toy.laws.
#[local] Existing Instance range_sorted.

Module PrimaryExample.
Definition primary (i : Z) : Primary MemoryCertificateStore MemoryBatchStore :=
  (Start (New i (Toy.signer i) DefaultConfig NewMemoryCertificateStore NewMemoryBatchStore Toy.vs)).1.
Definition ref (d : Hash) : BatchDigest := mk_BatchDigest d 0 0.
Definition queued : Primary MemoryCertificateStore MemoryBatchStore :=
  AddBatchDigest (AddBatchDigest (primary 0) (ref [1])) (ref [2]).
Definition acked (d : Hash) : bool := bool_decide (d = [2]).
Definition first : Header :=
  let h := NewHeader 0 0 0 [] [] 5 in h <| HSignature := ed_Sign (NewKeyFromSeed (Toy.seed 0)) (Digest h) |>.
Definition first_cert : Certificate :=
  NewCertificate first (map (λ i, Toy.vote i (Digest first)) [0; 1; 2]).
Definition events : list primary_op :=
  [PTick None 5 []; PVote 6 (Some (Toy.vote 2 (Digest first)));
   PVote 7 (Some (Toy.vote 2 (Digest first))); PVote 8 (Some (Toy.vote 1 (Digest first)))].
Definition broken : Signer :=
  {| Sign := λ _, Err (Errorf "no key"); Signer_PublicKey := Toy.pk 0; Signer_ValidatorIndex := 0 |}.
(** The certificates of round 0, and primaries that received three of them. *)
Definition genesis (i : Z) : Certificate := Toy.cert i 0 [50 + i] [] [0; 1; 2].
Definition with_certs (i : Z) (from : list Z) : Primary MemoryCertificateStore MemoryBatchStore :=
  fold_left (λ p j, (HandleCertificate (genesis j) p).1) from (primary i).
Definition sender := with_certs 0 [2; 0; 1].
Definition receiver := with_certs 3 [1; 3; 0; 2].
Definition second : Header :=
  let h := NewHeader 0 1 0 [] (GetRef ∘ genesis <$> [0; 1; 2]) 9 in
  h <| HSignature := ed_Sign (NewKeyFromSeed (Toy.seed 0)) (Digest h) |>.
(** A header of round 2 that refers three times to one certificate of round 0. *)
Definition stale : Header := Toy.header 1 2 [9] (replicate 3 (GetRef (genesis 0))).
End PrimaryExample.

Lemma toy_registered i : 0 ≤ i < 4 → registered Toy.vs i (Toy.signer i).
Proof.
  intros Hi d sig E. assert (ed_Sign (NewKeyFromSeed (Toy.seed i)) d = sig) as <- by (unfold Toy.signer in E; cbn [Sign] in E; congruence).
  clear E. rewrite vs_VerifySignature.
  assert (GetByIndex Toy.vs i = Some (Toy.info i)) as ->.
  { assert (i = 0 ∨ i = 1 ∨ i = 2 ∨ i = 3) as [-> | [-> | [-> | ->]]] by lia; by vm_compute. }
  change (ed_Verify (ed_Public (NewKeyFromSeed (Toy.seed i))) d (ed_Sign (NewKeyFromSeed (Toy.seed i)) d) = true).
  apply ed_sign_verify, length_replicate.
Qed.

Lemma toy_signs i d : is_Ok (Sign (Toy.signer i) d).
Proof. by eexists. Qed.

Lemma try_create_header_conserves_digests_witness :
  let p := PrimaryExample.queued in
  let r := tryCreateHeader (Some PrimaryExample.acked) 9 [PrimaryExample.ref [3]] p in
  batchDigests r.1 = [PrimaryExample.ref [1]; PrimaryExample.ref [3]] ∧
  ∃ included rest,
    batchDigests p ≡ₚ included ++ rest ∧ batchDigests r.1 = rest ++ [PrimaryExample.ref [3]] ∧
    sublist included (batchDigests p) ∧ sublist rest (batchDigests p) ∧
    Forall (λ d, ack_ready (Some PrimaryExample.acked) d = true) included ∧ zlen included ≤ 100 ∧
    (included = [] ∨ (∃ h, OutHeader h ∈ r.2 ∧ BatchRefs h = included) ∨
      (r.2 = [] ∧ ∃ h e, BatchRefs h = included ∧ Sign (signer p) (Digest h) = Err e)).
Proof.
  split; [by vm_compute|].
  apply (try_create_header_conserves_digests (Some PrimaryExample.acked) 9 [PrimaryExample.ref [3]]
           PrimaryExample.queued); decided.
Defined.

(** With a signer that fails, the acknowledged digest is neither sent nor queued. *)
Example failing_signer_loses_digests :
  let p := PrimaryExample.queued <| signer := PrimaryExample.broken |> in
  let r := tryCreateHeader (Some PrimaryExample.acked) 9 [] p in
  batchDigests p = [PrimaryExample.ref [1]; PrimaryExample.ref [2]] ∧ r.2 = [] ∧ batchDigests r.1 = [PrimaryExample.ref [1]].
Proof. split_and!; by vm_compute. Qed.

Lemma primary_outputs_valid_witness :
  output_valid Toy.vs (OutCertificate PrimaryExample.first_cert).
Proof.
  apply (primary_outputs_valid Toy.vs 0 (Toy.signer 0) DefaultConfig NewMemoryCertificateStore
           NewMemoryBatchStore (PStart :: PrimaryExample.events)); [apply toy_registered; lia|].
  assert ((primary_run (New 0 (Toy.signer 0) DefaultConfig NewMemoryCertificateStore NewMemoryBatchStore
             Toy.vs) (PStart :: PrimaryExample.events)).2
    = [OutHeader PrimaryExample.first; OutCertificate PrimaryExample.first_cert]) as -> by (by vm_compute).
  right. left.
Defined.

Lemma toy_acceptable :
  acceptable Toy.vs (PrimaryExample.primary 0) (Toy.header 1 0 [9] []) ∧
  acceptable Toy.vs (PrimaryExample.primary 0) (Toy.header 1 0 [8] []).
Proof. split; apply (validateHeader_spec Toy.vs (PrimaryExample.primary 0)); done. Qed.

Lemma handle_header_votes_witness :
  ∃ v, HandleHeader None (PrimaryExample.primary 0) (Toy.header 1 0 [9] []) = ([OutVote v 1], None) ∧
    HeaderDigest v = [9] ∧ Validator v = 0 ∧ vote_valid Toy.vs v.
Proof.
  destruct (proj1 (handle_header_votes Toy.vs None (PrimaryExample.primary 0) (Toy.header 1 0 [9] []) eq_refl eq_refl)
    (conj (proj1 toy_acceptable) eq_refl)) as (v & Hr & Hd & Hv & Hval).
  exists v. split_and!; [exact Hr|exact Hd|exact Hv|]. apply Hval, (toy_registered 0). lia.
Defined.

(** Parents of any round, and the same one three times, get a vote. *)
Example stale_parents_get_a_vote :
  let p := PrimaryExample.with_certs 0 [0; 1; 2] in
  Round PrimaryExample.stale = 2 ∧ (CR_Round <$> Parents PrimaryExample.stale) = [0; 0; 0] ∧
  match (HandleHeader None p PrimaryExample.stale).1 with [OutVote v 1] => HeaderDigest v = [9] | _ => False end.
Proof. split_and!; by vm_compute. Qed.

Lemma votes_for_equivocating_headers_witness :
  let h1 := Toy.header 1 0 [9] [] in
  let h2 := Toy.header 1 0 [8] [] in
  ∃ v1 v2, (primary_run (PrimaryExample.primary 0) [PHeader None h1; PHeader None h2]).2
      = [OutVote v1 1; OutVote v2 1] ∧
    Validator v1 = Validator v2 ∧ HeaderDigest v1 = [9] ∧ HeaderDigest v2 = [8].
Proof.
  refine (votes_for_equivocating_headers Toy.vs None (PrimaryExample.primary 0) (Toy.header 1 0 [9] [])
    (Toy.header 1 0 [8] []) eq_refl eq_refl (toy_signs 0) eq_refl eq_refl _ _ _ _ _);
    [done|apply toy_acceptable|by vm_compute|apply toy_acceptable|by vm_compute].
Defined.

(** The third certificate of round 0 moves the round; a store that was closed
    refuses it. *)
Lemma handle_certificate_advances_witness :
  let p := PrimaryExample.with_certs 0 [2; 0] in
  let q := (PrimaryExample.primary 0) <| p_certStore := (Memory_CertificateStore_Close NewMemoryCertificateStore).1 |> in
  (HandleCertificate (PrimaryExample.genesis 1) p).2 = None ∧ currentRound p = 0 ∧
  currentRound (HandleCertificate (PrimaryExample.genesis 1) p).1 = 1 ∧
  is_Some (HandleCertificate (PrimaryExample.genesis 1) q).2 ∧
  currentRound (HandleCertificate (PrimaryExample.genesis 1) q).1 = 0.
Proof.
  pose proof (handle_certificate_advances Toy.vs (PrimaryExample.genesis 1) (PrimaryExample.with_certs 0 [2; 0]) eq_refl) as H.
  cbv zeta in H. destruct (SaveCertificate (PrimaryExample.genesis 1) (p_certStore (PrimaryExample.with_certs 0 [2; 0]))) as [s err] eqn:E.
  assert (err = None) as -> by (apply (f_equal snd) in E; vm_compute in E; exact (eq_sym E)).
  destruct H as (_ & _ & H). destruct (H ltac:(by vm_compute) ltac:(by vm_compute)) as (_ & H' & _).
  assert (Quorum Toy.vs ≤ zlen (listed s (currentRound (PrimaryExample.with_certs 0 [2; 0])))) as Hq.
  { apply (f_equal fst) in E. cbn [fst] in E. rewrite <-E. apply (bool_decide_eq_true_1 (_ ≤ _)). by vm_compute. }
  cbv zeta. rewrite (H' eq_refl). split_and!.
  - reflexivity.
  - by vm_compute.
  - cbn [fst currentRound set_fld]. rewrite (bool_decide_eq_true_2 _ Hq). by vm_compute.
  - vm_compute. by eexists.
  - by vm_compute.
Defined.

(** A header of round 1, whose sender and receiver got the certificates of round 0
    in different orders, the receiver one more. *)
Lemma created_header_accepted_witness :
  Round PrimaryExample.second = 1 ∧ zlen (Parents PrimaryExample.second) = 3 ∧
  validateHeader PrimaryExample.receiver PrimaryExample.second = None.
Proof.
  assert (cs_ok (p_certStore PrimaryExample.sender)) as Hok.
  { unfold PrimaryExample.sender, PrimaryExample.with_certs.
    assert (cs_ok (p_certStore (PrimaryExample.primary 0))) as H by exact mc_ok_new. revert H. generalize (PrimaryExample.primary 0).
    induction [2; 0; 1] as [|j js IH]; intros p Hp; [exact Hp|]. apply IH. unfold HandleCertificate. destruct (negb _); [exact Hp|].
    destruct (Certificate_Verify _ _); [exact Hp|].
    pose proof (cs_save (p_certStore p) (PrimaryExample.genesis j) Hp) as Hs. cbv zeta in Hs.
    destruct (SaveCertificate _ _) as [s' [e|]]; destruct Hs as (_ & Hs & _); [exact Hs|]. cbn [fst].
    by destruct (tryAdvanceRound_frame (p <| p_certStore := s' |>)) as [-> | ->]. }
  destruct (created_header_accepted Toy.vs None 9 [] PrimaryExample.sender PrimaryExample.receiver PrimaryExample.second) as [Hp Hv].
  - by vm_compute.
  - by vm_compute.
  - apply (toy_registered 0). lia.
  - exact Hok.
  - decided.
  - intros _. apply (bool_decide_eq_true_1 (_ ≤ _)). by vm_compute.
  - assert ((tryCreateHeader None 9 [] PrimaryExample.sender).2 = [OutHeader PrimaryExample.second]) as -> by (by vm_compute). left.
  - apply Forall_forall. apply (bool_decide_eq_true_1 (Forall _ _)). by vm_compute.
  - by vm_compute.
  - apply (bool_decide_eq_true_1 (_ ∧ _)). by vm_compute.
  - split_and!; [by vm_compute|apply Hp; by vm_compute|exact Hv].
Defined.
