(* ===== verification/Heap.v ===== *)
(** The binary heap of Go's container/heap on a slice, as the worker's priority
    queue uses it: [Push] and [Pop] with their sift-up and sift-down loops.
    Indices are [nat]; the slice is a list. *)
From S2P Require Import Prelude.
Local Open Scope nat_scope.

Section heap.
Context {A : Type} `{Inhabited A} (less : A → A → bool).
Implicit Types l : list A.

Definition swap (i j : nat) l : list A := <[i := l !!! j]> (<[j := l !!! i]> l).

Definition parent (j : nat) : nat := (j - 1) / 2.

(** [up]: [i := (j-1)/2; if i == j || !Less(j, i) break; Swap(i, j); j = i].
    The parent of a positive index is smaller, so [S j] iterations suffice. *)
Fixpoint up (fuel : nat) l (j : nat) : list A :=
  match fuel with
  | O => l
  | S n =>
      let i := parent j in
      if decide (i = j) then l
      else if negb (less (l !!! j) (l !!! i)) then l
      else up n (swap i j l) i
  end.

(** [down] on the first [n] elements, from index [i]; the index grows, so [n]
    iterations suffice. *)
Fixpoint down (fuel : nat) l (i n : nat) : list A :=
  match fuel with
  | O => l
  | S f =>
      let j1 := 2 * i + 1 in
      if decide (n ≤ j1) then l
      else
        let j2 := j1 + 1 in
        let j := if bool_decide (j2 < n) && less (l !!! j2) (l !!! j1) then j2 else j1 in
        if negb (less (l !!! j) (l !!! i)) then l
        else down f (swap i j l) j n
  end.

Definition Push (x : A) l : list A :=
  let l := l ++ [x] in up (length l) l (length l - 1).

(** [Pop] of a non-empty heap: the element and the rest. *)
Definition Pop l : A * list A :=
  let n := length l - 1 in
  let l := swap 0 n l in
  let l := down (S n) l 0 n in
  (l !!! n, take n l).

(** ** Swapping *)
Lemma length_swap i j l : length (swap i j l) = length l.
Proof. unfold swap. by rewrite !length_insert. Qed.

Lemma lookup_swap i j l k :
  i < length l → j < length l →
  swap i j l !!! k = if decide (k = i) then l !!! j else if decide (k = j) then l !!! i else l !!! k.
Proof.
  intros Hi Hj. unfold swap. destruct (decide (k = i)) as [->|Hk].
  - by rewrite list_lookup_total_insert_eq by (rewrite length_insert; lia).
  - rewrite list_lookup_total_insert_ne by done. destruct (decide (k = j)) as [->|].
    + by rewrite list_lookup_total_insert_eq.
    + by rewrite list_lookup_total_insert_ne.
Qed.

Lemma swap_perm i j l : i < length l → j < length l → swap i j l ≡ₚ l.
Proof.
  intros Hi Hj. unfold swap. apply Permutation_insert_swap; by apply list_lookup_lookup_total_lt.
Qed.

(** ** The heap order *)
Context {SW : StrictWeak less}.

(** [a] need not come after [b]. *)
Abbreviation le a b := (less b a = false).

Lemma le_refl a : le a a.
Proof. destruct (less a a) eqn:E; [|done]. pose proof (less_asym _ a a E). congruence. Qed.

Lemma le_trans a b c : le a b → le b c → le a c.
Proof. apply (less_trans_not less). Qed.

(** Every element of the first [n] is not before its parent. *)
Definition heap_upto (n : nat) l : Prop :=
  ∀ k, 0 < k < n → le (l !!! parent k) (l !!! k).
Definition heap l : Prop := heap_upto (length l) l.

Lemma parent_lt k : 0 < k → parent k < k.
Proof. intros. unfold parent. apply Nat.Div0.div_lt_upper_bound; lia. Qed.

Lemma parent_children k i : 0 < k → parent k = i ↔ k = 2 * i + 1 ∨ k = 2 * i + 2.
Proof.
  intros. unfold parent. split.
  - intros <-. pose proof (Nat.div_mod (k - 1) 2). pose proof (Nat.mod_upper_bound (k - 1) 2). lia.
  - intros [-> | ->].
    + replace (2 * i + 1 - 1) with (i * 2) by lia. by rewrite Nat.div_mul.
    + replace (2 * i + 2 - 1) with (1 + i * 2) by lia. rewrite Nat.div_add by lia. done.
Qed.

(** The root comes first. *)
Lemma heap_root n l k : heap_upto n l → k < n → le (l !!! 0) (l !!! k).
Proof.
  intros Hh. induction k as [k IH] using lt_wf_ind. intros Hk.
  destruct (decide (k = 0)) as [->|]; [apply le_refl|].
  eapply le_trans; [apply (IH (parent k))|by apply Hh; lia]; pose proof (parent_lt k); lia.
Qed.

(** ** Sift up *)
Definition up_inv l (j : nat) : Prop :=
  (∀ k, 0 < k < length l → k ≠ j → le (l !!! parent k) (l !!! k)) ∧
  (∀ k, 0 < k < length l → parent k = j → 0 < j → le (l !!! parent j) (l !!! k)).

Lemma up_spec fuel l j :
  j < fuel → j < length l → up_inv l j →
  heap (up fuel l j) ∧ up fuel l j ≡ₚ l.
Proof.
  revert l j. induction fuel as [|fuel IH]; intros l j Hf Hj [H1 H2]; [lia|]. cbn [up].
  destruct (decide (parent j = j)) as [Ep|Ep].
  { assert (j = 0) as -> by (destruct j; [done|pose proof (parent_lt (S j)); lia]).
    split; [|done]. intros k Hk. apply H1; lia. }
  assert (0 < j) as H0 by (destruct j; [done|lia]). pose proof (parent_lt j H0).
  destruct (less (l !!! j) (l !!! parent j)) eqn:El; cbn [negb].
  - set (i := parent j) in *.
    assert (up_inv (swap i j l) i) as Hinv.
    { split; rewrite length_swap.
      - intros k Hk Hki. rewrite !lookup_swap by lia.
        destruct (decide (k = i)) as [|_]; [done|]. destruct (decide (k = j)) as [->|Hkj].
        + fold i. rewrite decide_True by done. by apply less_asym.
        + destruct (decide (parent k = i)) as [Ek|Hpi].
          * eapply le_trans; [by apply less_asym, El|]. pose proof (H1 k Hk Hkj) as Hk'. by rewrite Ek in Hk'.
          * destruct (decide (parent k = j)) as [Ek|]; [|by apply H1]. by apply H2.
      - intros k Hk Hpk Hi. pose proof (parent_lt i Hi). pose proof (parent_lt k).
        rewrite !lookup_swap by lia.
        rewrite (decide_False (P := parent i = i)) by lia. rewrite (decide_False (P := parent i = j)) by lia.
        rewrite (decide_False (P := k = i)) by lia.
        assert (le (l !!! parent i) (l !!! i)) as Hii by (apply H1; lia).
        destruct (decide (k = j)) as [->|Hkj]; [done|].
        eapply le_trans; [exact Hii|]. rewrite <-Hpk. by apply H1. }
    destruct (IH (swap i j l) i) as [IH1 IH2]; [lia|rewrite length_swap; lia|done|].
    split; [done|]. rewrite IH2. apply swap_perm; lia.
  - split; [|done]. intros k Hk. destruct (decide (k = j)) as [->|]; [done|by apply H1].
Qed.

(** [Push] keeps the heap order and adds the element. *)
Lemma Push_spec x l : heap l → heap (Push x l) ∧ Push x l ≡ₚ x :: l.
Proof.
  intros Hh. unfold Push. rewrite length_app. cbn [length].
  destruct (up_spec (length l + 1) (l ++ [x]) (length l + 1 - 1)) as [H1 H2].
  - lia.
  - rewrite length_app. cbn. lia.
  - split; rewrite length_app; cbn [length].
    + intros k Hk Hne. pose proof (parent_lt k). rewrite !lookup_total_app_l by lia. apply Hh. lia.
    + intros k Hk Hp. pose proof (parent_lt k). lia.
  - split; [done|]. by rewrite H2, Permutation_app_comm.
Qed.

(** ** Sift down *)
Definition down_inv l (i n : nat) : Prop :=
  (∀ k, 0 < k < n → parent k ≠ i → le (l !!! parent k) (l !!! k)) ∧
  (∀ k, 0 < k < n → parent k = i → 0 < i → le (l !!! parent i) (l !!! k)).

Lemma down_spec fuel l i n :
  n ≤ fuel + i → i < n → n ≤ length l → down_inv l i n →
  heap_upto n (down fuel l i n) ∧ down fuel l i n ≡ₚ l ∧
  (∀ k, n ≤ k → down fuel l i n !!! k = l !!! k).
Proof.
  revert l i. induction fuel as [|fuel IH]; intros l i Hf Hi Hn [H1 H2]; [lia|]. cbn [down].
  destruct (decide (n ≤ 2 * i + 1)) as [Hj|Hj].
  { split_and!; [|done|done]. intros k Hk. apply H1; [done|]. intros E.
    apply parent_children in E; lia. }
  set (j := if bool_decide (2 * i + 1 + 1 < n) && less (l !!! (2 * i + 1 + 1)) (l !!! (2 * i + 1))
            then 2 * i + 1 + 1 else 2 * i + 1).
  assert (j < n ∧ i < j ∧ parent j = i ∧
    ∀ k, 0 < k < n → parent k = i → le (l !!! j) (l !!! k)) as (Hjn & Hij & Hpj & Hmin).
  { unfold j. case_bool_decide as Hb; cbn [andb].
    - destruct (less (l !!! (2 * i + 1 + 1)) (l !!! (2 * i + 1))) eqn:E.
      + split_and!; [lia|lia|apply parent_children; lia|]. intros k Hk Hp.
        apply parent_children in Hp as [-> | ->]; [by apply less_asym| |lia].
        replace (2 * i + 2) with (2 * i + 1 + 1) by lia. apply le_refl.
      + split_and!; [lia|lia|apply parent_children; lia|]. intros k Hk Hp.
        apply parent_children in Hp as [-> | ->]; [apply le_refl| |lia].
        by replace (2 * i + 2) with (2 * i + 1 + 1) by lia.
    - split_and!; [lia|lia|apply parent_children; lia|]. intros k Hk Hp.
      apply parent_children in Hp as [-> | ->]; [apply le_refl|lia|lia]. }
  clearbody j. destruct (less (l !!! j) (l !!! i)) eqn:El; cbn [negb].
  - assert (down_inv (swap i j l) j n) as Hinv.
    { split.
      - intros k Hk Hpk. pose proof (parent_lt k). rewrite !lookup_swap by lia.
        destruct (decide (parent k = i)) as [Ep|Hpi].
        + destruct (decide (k = i)) as [->|]; [lia|].
          destruct (decide (k = j)) as [->|]; [by apply less_asym|]. by apply Hmin.
        + rewrite (decide_False (P := parent k = j)) by done.
          destruct (decide (k = i)) as [->|]; [apply (H2 j); lia|].
          destruct (decide (k = j)) as [->|]; [done|]. by apply H1.
      - intros k Hk Hpk H0. pose proof (parent_lt k). rewrite Hpj. rewrite !lookup_swap by lia.
        rewrite (decide_True (P := i = i)) by done.
        rewrite (decide_False (P := k = i)), (decide_False (P := k = j)) by lia.
        rewrite <-Hpk. apply H1; lia. }
    destruct (IH (swap i j l) j) as (IH1 & IH2 & IH3); [lia|lia|rewrite length_swap; lia|done|].
    split_and!; [done|rewrite IH2; apply swap_perm; lia|].
    intros k Hk. rewrite IH3, lookup_swap by lia.
    by rewrite (decide_False (P := k = i)), (decide_False (P := k = j)) by lia.
  - split_and!; [|done|done]. intros k Hk. destruct (decide (parent k = i)) as [E|]; [|by apply H1].
    rewrite E. eapply le_trans; [exact El|by apply Hmin].
Qed.

Lemma last_snoc_perm l n : length l = S n → l = take n l ++ [l !!! n].
Proof.
  intros Hl. rewrite <-(take_drop n l) at 1. f_equal.
  rewrite (drop_S l (l !!! n)) by (apply list_lookup_lookup_total_lt; lia).
  by rewrite drop_ge by lia.
Qed.

(** [Pop] of a non-empty heap returns an element that comes before all others
    and leaves a heap of the others. *)
Lemma Pop_spec l :
  heap l → l ≠ [] →
  let '(x, l') := Pop l in
  x = l !!! 0 ∧ l ≡ₚ x :: l' ∧ heap l' ∧ (∀ y, y ∈ l → le x y).
Proof.
  intros Hh Hne. destruct (length l) as [|n] eqn:El; [by destruct l|]. unfold Pop. rewrite El.
  replace (S n - 1) with n by lia.
  set (l1 := swap 0 n l). assert (length l1 = S n) as El1 by (unfold l1; by rewrite length_swap).
  assert (l1 ≡ₚ l) as Hp1 by (apply swap_perm; lia).
  assert (l1 !!! n = l !!! 0) as Hlast.
  { unfold l1. rewrite lookup_swap by lia. destruct (decide (n = 0)) as [->|]; [done|]. by rewrite decide_True. }
  assert (heap_upto n (down (S n) l1 0 n) ∧ down (S n) l1 0 n ≡ₚ l1 ∧
    (∀ k, n ≤ k → down (S n) l1 0 n !!! k = l1 !!! k)) as (D1 & D2 & D3).
  { destruct (decide (n = 0)) as [->|].
    - split_and!; [intros k; lia| |]; cbn [down]; by rewrite decide_True by lia.
    - apply down_spec; [lia..|]. split.
      + intros k Hk Hpk. pose proof (parent_lt k). unfold l1. rewrite !lookup_swap by lia.
        rewrite !decide_False by lia. apply Hh. lia.
      + lia. }
  set (l2 := down (S n) l1 0 n) in *.
  assert (length l2 = S n) as El2 by (by rewrite D2).
  assert (l2 !!! n = l !!! 0) as Hx by (by rewrite D3, Hlast by lia).
  split_and!; [done|..].
  - rewrite <-Hp1, <-D2. rewrite (last_snoc_perm l2 n El2) at 1. by rewrite Permutation_app_comm.
  - intros k. rewrite length_take, El2. intros Hk. pose proof (parent_lt k).
    rewrite !list_lookup_total_alt, !lookup_take_lt, <-!list_lookup_total_alt by lia. apply D1. lia.
  - intros y Hy. rewrite Hx. apply list_elem_of_lookup_total in Hy as (k & Hk & <-).
    eapply heap_root; [exact Hh|done].
Qed.
End heap.
