(* ===== verification/AckTracker.v ===== *)
(** Acknowledgement tracking (worker/ack_tracker.go): batches waiting for acks,
    the validators that acknowledged each, and the quorum callback.  Each method
    runs under the tracker's mutex; [now] is [time.Now()].  A call that invokes
    the callback returns its arguments. *)
From S2P Require Import Prelude Bytes Errors Types Batch.
Local Open Scope Z_scope.

(** [Acks map[uint16]bool] only ever holds [true], so it is a set. *)
Record PendingBatch := mk_PendingBatch {
  PB_Batch : Batch;
  Acks : gset Z;
  PB_CreatedAt : Z
}.

Record AckTracker := mk_AckTracker {
  at_pending : gmap Hash PendingBatch;
  quorum : Z;
  at_timeout : Z;
  at_closed : bool;
  quorumCallback : bool
}.
#[export] Instance eta_AckTracker : Settable AckTracker := λ t,
  mk_AckTracker (at_pending t) (quorum t) (at_timeout t) (at_closed t) (quorumCallback t).

Definition NewAckTracker (quorum timeout : Z) : AckTracker :=
  mk_AckTracker ∅ quorum timeout false false.

Definition TrackBatch (now : Z) (batch : Batch) (t : AckTracker) : AckTracker :=
  if at_closed t then t
  else match at_pending t !! Batch_Digest batch with
       | Some _ => t
       | None =>
           t <| at_pending := <[Batch_Digest batch := mk_PendingBatch batch ∅ now]> (at_pending t) |>
       end.

(** The new tracker, whether quorum is reached, and the callback's arguments. *)
Definition RecordAck (now : Z) (batchDigest : Hash) (validator : Z) (t : AckTracker) :
    AckTracker * bool * option (Hash * Z) :=
  if at_closed t then (t, false, None)
  else match at_pending t !! batchDigest with
  | None => (t, false, None)
  | Some p =>
      if decide (validator ∈ Acks p) then (t, bool_decide (zsize (Acks p) >= quorum t), None)
      else
        let wasBelow := bool_decide (zsize (Acks p) < quorum t) in
        let acks := {[ validator ]} ∪ Acks p in
        let t := t <| at_pending :=
                   <[batchDigest := mk_PendingBatch (PB_Batch p) acks (PB_CreatedAt p)]> (at_pending t) |> in
        let atQuorum := bool_decide (zsize acks >= quorum t) in
        (t, atQuorum,
         if wasBelow && atQuorum && quorumCallback t then Some (batchDigest, now - PB_CreatedAt p) else None)
  end.

Definition SetQuorumCallback (installed : bool) (t : AckTracker) : AckTracker :=
  t <| quorumCallback := installed |>.

Definition AT_HasQuorum (batchDigest : Hash) (t : AckTracker) : bool :=
  match at_pending t !! batchDigest with
  | None => false
  | Some p => bool_decide (zsize (Acks p) >= quorum t)
  end.

Definition GetPending (batchDigest : Hash) (t : AckTracker) : option PendingBatch :=
  at_pending t !! batchDigest.

Definition PendingBelowQuorum {RB : RangeOrder Hash PendingBatch} (now minAge : Z) (t : AckTracker) : list Batch :=
  if at_closed t then []
  else
    let cutoff := now - minAge in
    PB_Batch <$> filter (λ p, zsize (Acks p) < quorum t ∧ PB_CreatedAt p < cutoff) (range (at_pending t)).*2.

Definition RemoveBatch (batchDigest : Hash) (t : AckTracker) : AckTracker :=
  t <| at_pending := delete batchDigest (at_pending t) |>.

Definition AckCount (batchDigest : Hash) (t : AckTracker) : Z :=
  match at_pending t !! batchDigest with
  | None => 0
  | Some p => zsize (Acks p)
  end.

Definition AT_PendingCount (t : AckTracker) : Z := zsize (at_pending t).

Definition AT_GetTimedOut {RB : RangeOrder Hash PendingBatch} (now : Z) (t : AckTracker) : list Batch :=
  let cutoff := now - at_timeout t in
  PB_Batch <$> filter (λ p, PB_CreatedAt p < cutoff) (range (at_pending t)).*2.

Definition AT_RemoveTimedOut {RB : RangeOrder Hash PendingBatch} (now : Z) (t : AckTracker) :
    AckTracker * list Batch :=
  let cutoff := now - at_timeout t in
  (t <| at_pending := filter (λ p, ¬ PB_CreatedAt p.2 < cutoff) (at_pending t) |>,
   PB_Batch <$> filter (λ p, PB_CreatedAt p < cutoff) (range (at_pending t)).*2).

Definition AT_UpdateQuorum (q : Z) (t : AckTracker) : AckTracker := t <| quorum := q |>.

Definition AT_Close (t : AckTracker) : AckTracker :=
  if at_closed t then t else t <| at_closed := true |> <| at_pending := ∅ |>.

(** ** Counting acks *)

(** Recording a list of acks for one batch: the tracker and the callbacks. *)
Fixpoint record_acks (now : Z) (d : Hash) (vals : list Z) (t : AckTracker) :
    AckTracker * list (Hash * Z) :=
  match vals with
  | [] => (t, [])
  | v :: vals' =>
      let '(t, _, fired) := RecordAck now d v t in
      let '(t, rest) := record_acks now d vals' t in
      (t, match fired with Some x => [x] | None => [] end ++ rest)
  end.

Lemma record_acks_spec now d vals t p :
  at_closed t = false → at_pending t !! d = Some p → quorumCallback t = true →
  let r := record_acks now d vals t in
  let acks := Acks p ∪ list_to_set vals in
  at_pending r.1 !! d = Some (mk_PendingBatch (PB_Batch p) acks (PB_CreatedAt p)) ∧
  quorum r.1 = quorum t ∧
  r.2 = if bool_decide (zsize (Acks p) < quorum t ≤ zsize acks) then [(d, now - PB_CreatedAt p)] else [].
Proof.
  revert t p. induction vals as [|v vals IH]; intros t p Hc Hp Hcb; cbn [record_acks].
  - cbn. rewrite union_empty_r_L. destruct p. cbn. split_and!; [done..|].
    by rewrite bool_decide_eq_false_2 by lia.
  - unfold RecordAck. rewrite Hc, Hp. destruct (decide (v ∈ Acks p)) as [Hin|Hni].
    + destruct (IH t p Hc Hp Hcb) as (H1 & H2 & H3).
      destruct (record_acks now d vals t) as [t' fired]. cbn in *. cbn [list_to_set foldr].
      assert (Acks p ∪ ({[v]} ∪ list_to_set vals) = Acks p ∪ list_to_set vals) as E by set_solver.
      rewrite E. done.
    + set (p' := mk_PendingBatch (PB_Batch p) ({[v]} ∪ Acks p) (PB_CreatedAt p)).
      set (t1 := t <| at_pending := <[d := p']> (at_pending t) |>).
      destruct (IH t1 p') as (H1 & H2 & H3); try done; [cbn; by rewrite lookup_insert_eq|].
      destruct (record_acks now d vals t1) as [t' fired]. cbn [fst snd] in *.
      assert (Acks p ∪ list_to_set (v :: vals) = Acks p' ∪ list_to_set vals) as E.
      { cbn. set_solver. }
      rewrite E. split_and!; [exact H1|done|]. subst fired. cbn [quorum t1 PB_CreatedAt p' quorumCallback].
      change (quorum t1) with (quorum t). change (quorumCallback t1) with (quorumCallback t).
      rewrite Hcb, andb_true_r.
      assert (size ({[v]} ∪ Acks p) = S (size (Acks p))) as Esz.
      { rewrite size_union by set_solver. by rewrite size_singleton. }
      assert (size (Acks p') ≤ size (Acks p' ∪ list_to_set vals))%nat
        by (apply subseteq_size; set_solver).
      cbn [Acks p'] in *. rewrite Esz in *.
      repeat case_bool_decide; cbn; try done; lia.
Qed.

(** One ack changes one entry, by one validator. *)
Lemma RecordAck_grows now d v t d' p' :
  at_pending (RecordAck now d v t).1.1 !! d' = Some p' →
  ∃ p, at_pending t !! d' = Some p ∧ Acks p' ⊆ Acks p ∪ (if decide (d' = d) then {[ v ]} else ∅).
Proof.
  unfold RecordAck. destruct (at_closed t); [by exists p'; split; [|set_solver]|].
  destruct (at_pending t !! d) as [p|] eqn:E; [|by exists p'; split; [|set_solver]].
  destruct (decide (v ∈ Acks p)); [by exists p'; split; [|set_solver]|]. cbn.
  intros [[<- <-]|[Hne ?]]%lookup_insert_Some.
  - exists p. split; [done|]. rewrite decide_True by done. cbn. set_solver.
  - exists p'. split; [done|]. set_solver.
Qed.

Lemma RecordAck_quorum now d v t : quorum (RecordAck now d v t).1.1 = quorum t.
Proof. unfold RecordAck. repeat case_match; done. Qed.

(** C24. The quorum callback fires once: for an open tracker with a callback and
    a positive quorum, recording acks of a freshly tracked batch fires the
    callback exactly once if at least [quorum] distinct validators acknowledged,
    with the batch's digest and age, and never otherwise; repeated acks of one
    validator count once, and [HasQuorum] says exactly whether the quorum was
    reached. *)
Theorem ack_quorum_fires_once now0 now batch vals t :
  at_closed t = false → quorumCallback t = true → at_pending t !! Batch_Digest batch = None →
  1 ≤ quorum t →
  let r := record_acks now (Batch_Digest batch) vals (TrackBatch now0 batch t) in
  let n := zsize (list_to_set vals : gset Z) in
  AckCount (Batch_Digest batch) r.1 = n ∧
  AT_HasQuorum (Batch_Digest batch) r.1 = bool_decide (quorum t ≤ n) ∧
  r.2 = if bool_decide (quorum t ≤ n) then [(Batch_Digest batch, now - now0)] else [].
Proof.
  intros Hc Hcb Hp Hq.
  assert (TrackBatch now0 batch t =
    t <| at_pending := <[Batch_Digest batch := mk_PendingBatch batch ∅ now0]> (at_pending t) |>) as E.
  { unfold TrackBatch. by rewrite Hc, Hp. }
  rewrite E. set (t1 := t <| at_pending := _ |>).
  destruct (record_acks_spec now (Batch_Digest batch) vals t1 (mk_PendingBatch batch ∅ now0)) as (H1 & H2 & H3);
    try done; [cbn; by rewrite lookup_insert_eq|].
  cbn [Acks PB_CreatedAt] in *. rewrite union_empty_l_L, size_empty in *.
  change (quorum t1) with (quorum t) in *.
  unfold AckCount, AT_HasQuorum. rewrite H1, H2, H3. cbn [Acks]. split_and!; [done|..].
  - apply bool_decide_ext. lia.
  - rewrite (bool_decide_ext _ (quorum t ≤ zsize (list_to_set vals : gset Z))); [done|]. lia.
Qed.

Lemma ack_quorum_fires_once_witness :
  let b := mk_Batch 0 0 0 [] [4] 0 in
  let t := SetQuorumCallback true (NewAckTracker 3 1000) in
  (record_acks 9 [4] [1; 1; 0; 2; 3] (TrackBatch 5 b t)).2 = [([4], 4)].
Proof.
  refine (proj2 (proj2 (ack_quorum_fires_once 5 9 (mk_Batch 0 0 0 [] [4] 0) [1; 1; 0; 2; 3] _ _ _ _ _)));
    by vm_compute.
Defined.

(** Once its timeout has passed a batch is dropped with its acks, quorum or
    not. *)
Lemma timeout_forgets_quorum {RB : RangeOrder Hash PendingBatch} now d p t :
  at_pending t !! d = Some p → PB_CreatedAt p < now - at_timeout t →
  AT_HasQuorum d (AT_RemoveTimedOut now t).1 = false.
Proof.
  intros Hp Hold. unfold AT_HasQuorum, AT_RemoveTimedOut. cbn.
  destruct (filter _ _ !! d) as [q|] eqn:E; [|done].
  apply map_lookup_filter_Some in E as [Eq Hn]. cbn in Hn. assert (q = p) as -> by congruence. lia.
Qed.
