(* ===== verification/Worker.v ===== *)
(** A worker (worker/worker.go): the priority queue of pending transactions and
    the creation of batches.  The batch store and the transaction index are
    shared by all workers of a pool, so the operations that use them take and
    return them; [None] stands for a nil store or index.  [validator] is the
    installed [TxValidator], if any. *)
From S2P Require Import Prelude Bytes Errors Types Batch Store TxIndex Heap AckTracker.
Local Open Scope Z_scope.

Record Config := mk_Config {
  BatchSize : Z;
  BatchBytes : Z;
  BatchTimeout : Z;
  MaxPendingTxs : Z;
  MaxPendingBytes : Z;
  AckTimeout : Z
}.

(** Durations in nanoseconds. *)
Definition DefaultConfig : Config :=
  {| BatchSize := 1000; BatchBytes := 512 * 1024; BatchTimeout := 100 * 10 ^ 6;
     MaxPendingTxs := 10000; MaxPendingBytes := 50 * 1024 * 1024; AckTimeout := 30 * 10 ^ 9 |}.

(** types/admission.go *)
Record TxAdmission := mk_TxAdmission { Priority : Z; Sender : string }.

Record pendingEntry := mk_pendingEntry {
  tx : Transaction;
  priority : Z;
  sequence : Z
}.

#[export] Instance pendingEntry_eq_dec : EqDecision pendingEntry.
Proof. solve_decision. Defined.
#[export] Instance pendingEntry_inhabited : Inhabited pendingEntry := populate (mk_pendingEntry [] 0 0).

(** [priorityQueue.Less]: higher priority first, then earlier sequence. *)
Definition Less (a b : pendingEntry) : bool :=
  if bool_decide (priority a ≠ priority b) then bool_decide (priority a > priority b)
  else bool_decide (sequence a < sequence b).

(** The order of the queue, independently of the code: a higher priority, or an
    equal one and an earlier arrival. *)
Definition outranks (a b : pendingEntry) : Prop :=
  priority b < priority a ∨ priority a = priority b ∧ sequence a < sequence b.

Lemma Less_outranks a b : Less a b = true ↔ outranks a b.
Proof. unfold Less, outranks. repeat case_bool_decide; split; try done; lia. Qed.

Lemma not_outranks a b : Less a b = false ↔ ¬ outranks a b.
Proof. rewrite <-Less_outranks. by destruct (Less a b). Qed.

Record Worker := mk_Worker {
  id : Z;
  w_validatorID : Z;
  cfg : Config;
  w_round : Z;
  w_epoch : Z;
  w_pending : list pendingEntry;
  pendingSet : gset Hash;
  pendingBytes : Z;
  pendingSeq : Z;
  ackTracker : AckTracker;
  w_running : bool
}.
#[export] Instance eta_Worker : Settable Worker := λ w,
  mk_Worker (id w) (w_validatorID w) (cfg w) (w_round w) (w_epoch w) (w_pending w) (pendingSet w)
    (pendingBytes w) (pendingSeq w) (ackTracker w) (w_running w).

Definition New (id validatorID : Z) (cfg : Config) (quorum : Z) : Worker :=
  mk_Worker id validatorID cfg 0 0 [] ∅ 0 0 (NewAckTracker quorum (AckTimeout cfg)) false.

Definition Start (w : Worker) : Worker * option error :=
  if w_running w then (w, Some ErrAlreadyRunning) else (w <| w_running := true |>, None).

Definition SetRound (w : Worker) (round : Z) : Worker := w <| w_round := round |>.
Definition SetEpoch (w : Worker) (epoch : Z) : Worker := w <| w_epoch := epoch |>.
Definition UpdateQuorum (w : Worker) (quorum : Z) : Worker :=
  w <| ackTracker := AT_UpdateQuorum quorum (ackTracker w) |>.
Definition Worker_RecordAck (now : Z) (batchDigest : Hash) (validator : Z) (w : Worker) :
    Worker * bool * option (Hash * Z) :=
  let '(t, reached, fired) := RecordAck now batchDigest validator (ackTracker w) in
  (w <| ackTracker := t |>, reached, fired).

Definition PendingCount (w : Worker) : Z := zlen (w_pending w).

(** Adding an entry to the queue and its books. *)
Definition push_tx (t : Transaction) (prio : Z) (w : Worker) : Worker :=
  let seq := u64 (pendingSeq w + 1) in
  w <| pendingSeq := seq |>
    <| w_pending := Push Less (mk_pendingEntry t prio seq) (w_pending w) |>
    <| pendingSet := {[ Tx_Hash t ]} ∪ pendingSet w |>
    <| pendingBytes := pendingBytes w + Tx_Size t |>.

Section worker.
Context {I B : Type} {TI : TxIndex I} {BS : BatchStore B}.
Context (validator : option (Transaction → result TxAdmission)).

Definition index_has (index : option I) (txHash : Hash) : bool :=
  match index with Some i => TI_HasTx txHash i | None => false end.

(** [AddTx]: the worker, whether batch creation is triggered, the error. *)
Definition AddTx (index : option I) (t : Transaction) (w : Worker) : Worker * bool * option error :=
  if negb (w_running w) then (w, false, Some ErrNotRunning)
  else
    match match validator with Some v => v t | None => Ok (mk_TxAdmission 0 EmptyString) end with
    | Err err => (w, false, Some (Wrapf "validation" ErrTxValidationFailed))
    | Ok admission =>
        let txHash := Tx_Hash t in
        if decide (txHash ∈ pendingSet w) then (w, false, None)
        else if index_has index txHash then (w, false, None)
        else if bool_decide (zlen (w_pending w) >= MaxPendingTxs (cfg w))
        then (w, false, Some ErrWorkerBackpressure)
        else if bool_decide (pendingBytes w + Tx_Size t > MaxPendingBytes (cfg w))
        then (w, false, Some ErrWorkerBackpressure)
        else
          let w := push_tx t (Priority admission) w in
          let shouldTrigger :=
            bool_decide (zlen (w_pending w) >= BatchSize (cfg w)) ||
            (bool_decide (BatchBytes (cfg w) > 0) && bool_decide (pendingBytes w >= BatchBytes (cfg w))) in
          (w, shouldTrigger, None)
    end.

Definition DrainPending (w : Worker) : Worker * list Transaction :=
  if bool_decide (zlen (w_pending w) = 0) then (w, [])
  else
    (w <| w_pending := [] |> <| pendingSet := ∅ |> <| pendingBytes := 0 |>, tx <$> w_pending w).

Definition Worker_HasTx (index : option I) (txHash : Hash) (w : Worker) : bool :=
  if decide (txHash ∈ pendingSet w) then true else index_has index txHash.

(** The selection loop of [tryCreateBatch], at most [n] more entries: peek at
    the top, stop if it does not fit, otherwise pop it. *)
Fixpoint select_txs (limit : Z) (n : nat) (q : list pendingEntry) (set : gset Hash)
    (chosen : list pendingEntry) (batchBytes : Z) : list pendingEntry * gset Hash * list pendingEntry * Z :=
  match n with
  | O => (q, set, chosen, batchBytes)
  | S n' =>
      let top := q !!! 0%nat in
      let txBytes := Tx_Size (tx top) in
      if bool_decide (limit > 0) && bool_decide (zlen chosen > 0) && bool_decide (batchBytes + txBytes > limit)
      then (q, set, chosen, batchBytes)
      else
        let '(entry, q') := Pop Less q in
        select_txs limit n' q' (set ∖ {[ Tx_Hash (tx entry) ]}) (chosen ++ [entry]) (batchBytes + txBytes)
  end.

(** [requeueTransactions]: stop at the first transaction that does not fit. *)
Fixpoint requeueTransactions (txs : list Transaction) (w : Worker) : Worker :=
  match txs with
  | [] => w
  | t :: txs' =>
      if decide (Tx_Hash t ∈ pendingSet w) then requeueTransactions txs' w
      else if bool_decide (zlen (w_pending w) >= MaxPendingTxs (cfg w)) then w
      else if bool_decide (pendingBytes w + Tx_Size t > MaxPendingBytes (cfg w)) then w
      else requeueTransactions txs' (push_tx t 0 w)
  end.

(** The locked part of [tryCreateBatch]: the entries taken. *)
Definition take_txs (w : Worker) : Worker * list pendingEntry :=
  let maxCount := Z.min (BatchSize (cfg w)) (zlen (w_pending w)) in
  let '(q, set, chosen, batchBytes) :=
    select_txs (BatchBytes (cfg w)) (Z.to_nat maxCount) (w_pending w) (pendingSet w) [] 0 in
  (w <| w_pending := q |> <| pendingSet := set |> <| pendingBytes := pendingBytes w - batchBytes |>, chosen).

Record created := mk_created {
  c_worker : Worker;
  c_store : option B;
  c_index : option I;
  c_batch : option Batch
}.

(** The rest of [tryCreateBatch], which runs after the lock of the queue is
    released: other operations may have changed the worker in between. *)
Definition finishBatch (now : Z) (store : option B) (index : option I) (txs : list Transaction) (w : Worker) : created :=
  let batch := NewBatch (id w) (w_validatorID w) (w_round w) txs now in
  let '(store, err) :=
    match store with
    | Some s => let '(s, err) := SaveBatch batch s in (Some s, err)
    | None => (None, None)
    end in
  match err with
  | Some _ => mk_created (requeueTransactions txs w) store index None
  | None =>
      let index := match index with Some i => Some (TI_AddBatch batch i).1 | None => None end in
      let t := TrackBatch now batch (ackTracker w) in
      let '(t, _, _) := RecordAck now (Batch_Digest batch) (w_validatorID w) t in
      mk_created (w <| ackTracker := t |>) store index (Some batch)
  end.

(** [tryCreateBatch] with nothing happening between its two parts: the batch
    handed to the callback, if one was created. *)
Definition tryCreateBatch (now : Z) (store : option B) (index : option I) (w : Worker) : created :=
  if bool_decide (zlen (w_pending w) = 0) then mk_created w store index None
  else let '(w, chosen) := take_txs w in finishBatch now store index (tx <$> chosen) w.

(** [Stop]: the batch loop makes a last batch before it ends; then the ack
    tracker is closed. *)
Definition Stop (now : Z) (store : option B) (index : option I) (w : Worker) : created * option error :=
  if w_running w then
    let r := tryCreateBatch now store index (w <| w_running := false |>) in
    (mk_created ((c_worker r) <| ackTracker := AT_Close (ackTracker (c_worker r)) |>)
       (c_store r) (c_index r) (c_batch r), None)
  else (mk_created w store index None, Some ErrNotRunning).
End worker.

(** ** The order of the queue *)
#[export] Instance Less_strict : StrictWeak Less.
Proof.
  split; unfold Less; intros *; repeat case_bool_decide; try done; lia.
Qed.

Definition entry_hash (e : pendingEntry) : Hash := Tx_Hash (tx e).
Definition total_bytes (l : list pendingEntry) : Z := fold_left (λ t e, t + Tx_Size (tx e)) l 0.

Arguments total_bytes l : simpl never.

Lemma total_bytes_nonneg l : 0 ≤ total_bytes l.
Proof. apply fold_left_add_nonneg. intros. unfold Tx_Size. lia. Qed.

Lemma total_bytes_app l k : total_bytes (l ++ k) = total_bytes l + total_bytes k.
Proof. apply fold_left_add_app. Qed.

Lemma total_bytes_cons e l : total_bytes (e :: l) = Tx_Size (tx e) + total_bytes l.
Proof. apply (fold_left_add_cons (λ e, Tx_Size (tx e))). Qed.

Lemma total_bytes_perm l k : l ≡ₚ k → total_bytes l = total_bytes k.
Proof. apply fold_left_add_perm. Qed.

(** ** State invariant: the books of the queue agree with it *)
Record worker_ok (w : Worker) : Prop := {
  wk_heap : heap Less (w_pending w);
  wk_set h : h ∈ pendingSet w ↔ h ∈ entry_hash <$> w_pending w;
  wk_nodup : NoDup (entry_hash <$> w_pending w);
  wk_bytes : pendingBytes w = total_bytes (w_pending w);
  wk_count : zlen (w_pending w) ≤ MaxPendingTxs (cfg w);
  wk_limit : pendingBytes w ≤ MaxPendingBytes (cfg w)
}.

Lemma worker_ok_New i v c q : 0 ≤ MaxPendingTxs c → 0 ≤ MaxPendingBytes c → worker_ok (New i v c q).
Proof.
  intros. split; cbn; [|intros h|constructor|done|lia|lia].
  - intros k Hk. cbn in Hk. lia.
  - split; [set_solver|by intros ?%not_elem_of_nil].
Qed.

Lemma push_tx_ok t prio w :
  worker_ok w → (Tx_Hash t) ∉ pendingSet w → zlen (w_pending w) < MaxPendingTxs (cfg w) →
  pendingBytes w + Tx_Size t ≤ MaxPendingBytes (cfg w) →
  worker_ok (push_tx t prio w) ∧
  w_pending (push_tx t prio w) ≡ₚ mk_pendingEntry t prio (u64 (pendingSeq w + 1)) :: w_pending w.
Proof.
  intros [Hh Hs Hn Hb Hc Hl] Hni Hlen Hby. unfold push_tx. set (e := mk_pendingEntry _ _ _).
  destruct (Push_spec Less e (w_pending w) Hh) as [H1 H2]. split; [|exact H2].
  split; cbn.
  - done.
  - intros h. rewrite H2, fmap_cons, elem_of_cons, elem_of_union, elem_of_singleton, Hs. done.
  - rewrite H2, fmap_cons. apply NoDup_cons. split; [|done]. by rewrite <-Hs.
  - rewrite (total_bytes_perm _ _ H2), total_bytes_cons, Hb. cbn. lia.
  - rewrite H2. cbn. lia.
  - lia.
Qed.

(** ** Selection takes the front of the order *)
Record selected (limit : Z) (n : nat) (q q' inc : list pendingEntry) (b b' : Z) (first : bool) : Prop := {
  sel_perm : q ≡ₚ inc ++ q';
  sel_heap : heap Less q';
  sel_sorted : StronglySorted (not_after Less) inc;
  sel_front a c : a ∈ inc → c ∈ q' → not_after Less a c;
  sel_count : (length inc ≤ n)%nat;
  sel_bytes : b' = b + total_bytes inc;
  sel_cap : 0 < limit → (length inc ≤ 1)%nat ∧ first = true ∨ inc = [] ∨ b' ≤ limit;
  sel_stop : (length inc < n)%nat → 0 < limit ∧ limit < b' + Tx_Size (tx (q' !!! 0%nat))
}.

Lemma selected_nil limit n q b first :
  heap Less q → (n = 0%nat ∨ 0 < limit ∧ limit < b + Tx_Size (tx (q !!! 0%nat))) →
  selected limit n q q [] b b first.
Proof.
  intros Hh Hs. split; [done|done|constructor| |cbn; lia| |by auto| ].
  - by intros a c ?%not_elem_of_nil.
  - change (total_bytes []) with 0. lia.
  - cbn. intros. destruct Hs; [lia|done].
Qed.

Lemma select_txs_spec limit n q set chosen b :
  heap Less q → (n ≤ length q)%nat → b = total_bytes chosen →
  let '(q', set', chosen', b') := select_txs limit n q set chosen b in
  ∃ inc, chosen' = chosen ++ inc ∧
    set' = set ∖ list_to_set (entry_hash <$> inc) ∧
    selected limit n q q' inc b b' (bool_decide (chosen = [])).
Proof.
  revert q set chosen b. induction n as [|n IH]; intros q set chosen b Hh Hn Hb; cbn [select_txs].
  - exists []. rewrite app_nil_r. cbn. rewrite difference_empty_L.
    split_and!; [done..|]. apply selected_nil; auto.
  - assert (q ≠ []) as Hne by (destruct q; [cbn in Hn; lia|done]).
    pose proof (Pop_spec Less q Hh Hne) as HP.
    destruct (bool_decide (limit > 0) && bool_decide (zlen chosen > 0) &&
              bool_decide (b + Tx_Size (tx (q !!! 0%nat)) > limit)) eqn:Estop.
    + rewrite !andb_true_iff, !bool_decide_eq_true in Estop. exists []. rewrite app_nil_r. cbn.
      rewrite difference_empty_L. split_and!; [done..|]. apply selected_nil; [done|].
      destruct Estop as [[? _] Hs]. right. split; [lia|]. apply Z.gt_lt. exact Hs.
    + destruct (Pop Less q) as [x q1]. destruct HP as (-> & Hp & Hh1 & Hmin).
      set (x := q !!! 0%nat) in *.
      specialize (IH q1 (set ∖ {[Tx_Hash (tx x)]}) (chosen ++ [x]) (b + Tx_Size (tx x)) Hh1).
      destruct (select_txs limit n q1 _ _ _) as [[[q' set'] chosen'] b'].
      destruct IH as (inc & -> & -> & Hsel).
      { apply Permutation_length in Hp. cbn in Hp. lia. }
      { rewrite total_bytes_app, total_bytes_cons. change (total_bytes []) with 0. lia. }
      destruct Hsel as [Sp Sh Ss Sf Sc Sb Scap Sstop]. exists (x :: inc).
      rewrite <-app_assoc. split_and!; [done| |].
      { rewrite fmap_cons. cbn. unfold entry_hash at 2. set_solver. }
      assert (bool_decide (chosen ++ [x] = []) = false) as Enil by (by apply bool_decide_eq_false_2; destruct chosen).
      split.
      * rewrite Hp, Sp. done.
      * done.
      * constructor; [done|]. apply Forall_forall. intros y Hy. apply Hmin. rewrite Hp, Sp, elem_of_cons, elem_of_app. auto.
      * intros a c [->|Ha]%elem_of_cons Hc; [|by apply Sf].
        apply Hmin. rewrite Hp, Sp, elem_of_cons, elem_of_app. auto.
      * cbn. lia.
      * rewrite total_bytes_cons. lia.
      * intros H0. rewrite Enil in Scap. destruct (Scap H0) as [[_ ?]|[->|?]]; [done| |by right; right].
        destruct (decide (chosen = [])) as [->|Hch].
        { left. split; [cbn; lia|]. by apply bool_decide_eq_true_2. }
        right. right. rewrite Sb. rewrite !andb_false_iff, !bool_decide_eq_false in Estop.
        change (total_bytes []) with 0 in *.
        destruct Estop as [[?|?]|?]; [lia| |lia].
        destruct chosen; [done|cbn in *; lia].
      * cbn. intros Hlt. apply Sstop. lia.
Qed.

Lemma take_txs_spec w :
  worker_ok w →
  let '(w', chosen) := take_txs w in
  worker_ok w' ∧ cfg w' = cfg w ∧
  selected (BatchBytes (cfg w)) (Z.to_nat (Z.min (BatchSize (cfg w)) (zlen (w_pending w))))
    (w_pending w) (w_pending w') chosen 0 (total_bytes chosen) true ∧
  w' = w <| w_pending := w_pending w' |> <| pendingSet := pendingSet w' |>
         <| pendingBytes := pendingBytes w' |>.
Proof.
  intros [Hh Hs Hn Hb Hc Hl]. unfold take_txs. set (n := Z.to_nat _).
  pose proof (select_txs_spec (BatchBytes (cfg w)) n (w_pending w) (pendingSet w) [] 0 Hh
    ltac:(unfold n; lia) eq_refl) as Hsel.
  destruct (select_txs _ _ _ _ _ _) as [[[q set] chosen] b].
  destruct Hsel as (inc & -> & -> & Hsel). cbn [app] in *. pose proof Hsel as [Sp Sh _ _ _ Sb _ _].
  rewrite Z.add_0_l in Sb. subst b. rewrite Sp, fmap_app in Hn. apply NoDup_app in Hn as (_ & Hdis & Hn2).
  split_and!; [|done|exact Hsel|done]. split; cbn.
  - done.
  - intros h. rewrite elem_of_difference, Hs, Sp, fmap_app, elem_of_app, elem_of_list_to_set.
    split; [tauto|]. intros Hh'. split; [by right|]. intros Hi. by eapply Hdis.
  - done.
  - rewrite Hb, (total_bytes_perm _ _ Sp), total_bytes_app. lia.
  - rewrite Sp, length_app in Hc. lia.
  - pose proof (total_bytes_nonneg inc). lia.
Qed.

Lemma push_tx_frame t prio w :
  cfg (push_tx t prio w) = cfg w ∧ pendingSet (push_tx t prio w) = {[ Tx_Hash t ]} ∪ pendingSet w ∧
  pendingBytes (push_tx t prio w) = pendingBytes w + Tx_Size t.
Proof. done. Qed.

(** Requeueing what fits keeps everything. *)
Lemma requeue_spec txs w :
  worker_ok w → NoDup (map Tx_Hash txs) → (∀ t, t ∈ txs → (Tx_Hash t) ∉ pendingSet w) →
  zlen (w_pending w) + zlen txs ≤ MaxPendingTxs (cfg w) →
  pendingBytes w + fold_left (λ s t, s + Tx_Size t) txs 0 ≤ MaxPendingBytes (cfg w) →
  worker_ok (requeueTransactions txs w) ∧
  tx <$> w_pending (requeueTransactions txs w) ≡ₚ txs ++ (tx <$> w_pending w).
Proof.
  revert w. induction txs as [|t txs IH]; intros w Hok Hn Hd Hc Hb; cbn [requeueTransactions]; [done|].
  rewrite (fold_left_add_cons Tx_Size) in Hb. cbn [length] in Hc. cbn [map] in Hn.
  apply NoDup_cons in Hn as [Hni Hn].
  assert (0 ≤ fold_left (λ s t, s + Tx_Size t) txs 0)
    by (apply fold_left_add_nonneg; unfold Tx_Size; lia).
  rewrite decide_False by (apply Hd; left).
  rewrite bool_decide_eq_false_2 by lia. rewrite bool_decide_eq_false_2 by lia.
  destruct (push_tx_ok t 0 w Hok) as [Hok' Hp]; [apply Hd; left|lia|lia|].
  destruct (push_tx_frame t 0 w) as (Ec & Es & Eb).
  destruct (IH (push_tx t 0 w)) as [H1 H2]; try done; rewrite ?Ec, ?Es, ?Eb.
  - intros t' Ht' [E%elem_of_singleton|Hin]%elem_of_union; [|by eapply Hd; [right|]].
    apply Hni. rewrite <-E. apply list_elem_of_In, in_map, list_elem_of_In. done.
  - rewrite Hp. cbn. lia.
  - lia.
  - split; [done|]. rewrite H2, Hp, fmap_cons. cbn. by rewrite Permutation_middle.
Qed.

Lemma map_hash_tx l : map Tx_Hash (tx <$> l) = entry_hash <$> l.
Proof. induction l as [|e l IH]; [done|]. cbn. f_equal. exact IH. Qed.

Lemma sum_tx_sizes l : fold_left (λ s t, s + Tx_Size t) (tx <$> l) 0 = total_bytes l.
Proof. unfold total_bytes. generalize 0. induction l as [|e l IH]; intros z; [done|]. cbn. apply IH. Qed.

(** Sums of sizes. *)
Definition sum_sizes (txs : list Transaction) : Z := fold_left (λ s t, s + Tx_Size t) txs 0.
Lemma sum_sizes_txs l : sum_sizes (tx <$> l) = total_bytes l.
Proof. exact (sum_tx_sizes l). Qed.
Lemma sum_sizes_cons t txs : sum_sizes (t :: txs) = Tx_Size t + sum_sizes txs.
Proof. apply (fold_left_add_cons Tx_Size). Qed.
Lemma sum_sizes_nonneg txs : 0 ≤ sum_sizes txs.
Proof. apply fold_left_add_nonneg. unfold Tx_Size. lia. Qed.
Lemma sum_sizes_app l k : sum_sizes (l ++ k) = sum_sizes l + sum_sizes k.
Proof. induction l as [|t l IH]; [done|]. cbn [app]. rewrite !sum_sizes_cons. lia. Qed.
Lemma sum_sizes_perm l k : l ≡ₚ k → sum_sizes l = sum_sizes k.
Proof. induction 1; rewrite ?sum_sizes_cons; lia. Qed.
Lemma sum_sizes_submseteq l k : l ⊆+ k → sum_sizes l ≤ sum_sizes k.
Proof. intros (m & ->%sum_sizes_perm)%submseteq_Permutation. rewrite sum_sizes_app. pose proof (sum_sizes_nonneg m). lia. Qed.

Lemma requeue_cfg txs w : cfg (requeueTransactions txs w) = cfg w.
Proof.
  revert w. induction txs as [|t txs IH]; intros w; [done|]. cbn [requeueTransactions].
  repeat (case_decide || case_bool_decide); rewrite ?IH; done.
Qed.

Lemma requeue_running txs w : w_running (requeueTransactions txs w) = w_running w.
Proof.
  revert w. induction txs as [|t txs IH]; intros w; [done|]. cbn [requeueTransactions].
  repeat (case_decide || case_bool_decide); rewrite ?IH; done.
Qed.

Lemma filter_ext_in {A} (P Q : A → Prop) `{∀ x, Decision (P x)} `{∀ x, Decision (Q x)} (l : list A) :
  (∀ x, x ∈ l → P x ↔ Q x) → filter P l = filter Q l.
Proof.
  induction l as [|x l IH]; intros Hl; [done|]. rewrite !filter_cons, IH by (intros y Hy; apply Hl; by right).
  apply decide_ext, Hl. left.
Qed.

(** Requeueing in general: the transactions that are not queued already go back in
    their order, up to the first one that does not fit. *)
Lemma requeue_upto txs w :
  worker_ok w → NoDup (map Tx_Hash txs) →
  let w' := requeueTransactions txs w in
  worker_ok w' ∧ ∃ back rest,
    filter (λ t, (Tx_Hash t) ∉ pendingSet w) txs = back ++ rest ∧
    tx <$> w_pending w' ≡ₚ back ++ (tx <$> w_pending w) ∧
    match rest with
    | [] => True
    | t :: _ => MaxPendingTxs (cfg w) ≤ PendingCount w' ∨ MaxPendingBytes (cfg w) < pendingBytes w' + Tx_Size t
    end.
Proof.
  revert w. induction txs as [|t txs IH]; intros w Hok Hn; cbv zeta; cbn [requeueTransactions].
  { split; [done|]. by exists [], []. }
  cbn [map] in Hn. apply NoDup_cons in Hn as [Hni Hn]. rewrite filter_cons.
  destruct (decide (Tx_Hash t ∈ pendingSet w)) as [Hin|Hnin].
  { rewrite decide_False by tauto. by apply IH. }
  rewrite decide_True by done.
  assert (MaxPendingTxs (cfg w) ≤ PendingCount w ∨ MaxPendingBytes (cfg w) < pendingBytes w + Tx_Size t →
    worker_ok w ∧ ∃ back rest, t :: filter (λ t, (Tx_Hash t) ∉ pendingSet w) txs = back ++ rest ∧
      tx <$> w_pending w ≡ₚ back ++ (tx <$> w_pending w) ∧
      match rest with
      | [] => True
      | t :: _ => MaxPendingTxs (cfg w) ≤ PendingCount w ∨ MaxPendingBytes (cfg w) < pendingBytes w + Tx_Size t
      end) as Hfull.
  { intros Hf. split; [done|]. by eexists [], (t :: _). }
  case_bool_decide as H1; [apply Hfull; left; unfold PendingCount; lia|].
  case_bool_decide as H2; [apply Hfull; right; lia|]. clear Hfull.
  destruct (push_tx_ok t 0 w Hok) as [Hok' Hp]; [done|lia|lia|].
  destruct (IH (push_tx t 0 w) Hok' Hn) as (Hok2 & back & rest & E & Hq & Hf). split; [done|].
  exists (t :: back), rest. split_and!; [|by rewrite Hq, Hp, fmap_cons, <-Permutation_middle|done].
  cbn [app]. f_equal. rewrite <-E. apply filter_ext_in. intros t' Ht'.
  destruct (push_tx_frame t 0 w) as (_ & -> & _). rewrite not_elem_of_union, not_elem_of_singleton. split; [|tauto]. intros ?. split; [|done]. intros E'. apply Hni.
  rewrite <-E'. apply list_elem_of_In, in_map, list_elem_of_In. done.
Qed.

(** Requeueing what [take_txs] took restores the queue. *)
Lemma requeue_taken w w1 chosen :
  worker_ok w → worker_ok w1 → cfg w1 = cfg w → w_pending w ≡ₚ chosen ++ w_pending w1 →
  worker_ok (requeueTransactions (tx <$> chosen) w1) ∧
  tx <$> w_pending (requeueTransactions (tx <$> chosen) w1) ≡ₚ tx <$> w_pending w.
Proof.
  intros Hok Hok1 Ec Sp. pose proof (wk_nodup _ Hok) as Hnd. rewrite Sp, fmap_app in Hnd.
  apply NoDup_app in Hnd as (Hn1 & Hdis & _).
  destruct (requeue_spec (tx <$> chosen) w1 Hok1) as [Hok2 Hp].
  - by rewrite map_hash_tx.
  - intros t (e & -> & He)%list_elem_of_fmap Hin. apply (wk_set _ Hok1) in Hin.
    eapply Hdis; [|exact Hin]. apply list_elem_of_fmap. by exists e.
  - rewrite length_fmap, Ec. pose proof (wk_count _ Hok) as Hc. rewrite Sp, length_app in Hc. lia.
  - rewrite Ec, sum_tx_sizes. pose proof (wk_limit _ Hok) as Hl.
    rewrite (wk_bytes _ Hok), (total_bytes_perm _ _ Sp), total_bytes_app in Hl.
    rewrite (wk_bytes _ Hok1). lia.
  - split; [done|]. by rewrite Hp, Sp, fmap_app.
Qed.

Section claims.
Context {I B : Type} {TI : TxIndex I} {BS : BatchStore B}.

Lemma AddTx_cases (validator : option (Transaction → result TxAdmission)) (index : option I) t w :
  let r := AddTx validator index t w in
  (r.1.1 = w ∧ r.1.2 = false) ∨
  (∃ prio, ((Tx_Hash t) ∉ pendingSet w) ∧ zlen (w_pending w) < MaxPendingTxs (cfg w) ∧
     pendingBytes w + Tx_Size t ≤ MaxPendingBytes (cfg w) ∧ r.1.1 = push_tx t prio w ∧ r.2 = None).
Proof.
  unfold AddTx. destruct (negb (w_running w)); [by left|].
  destruct (match validator with Some _ => _ | None => _ end) as [adm|]; [|by left].
  case_decide; [by left|]. destruct (index_has index _); [by left|].
  case_bool_decide; [by left|]. case_bool_decide; [by left|]. right.
  exists (Priority adm). split_and!; try done; lia.
Qed.

Lemma AddTx_ok validator (index : option I) t w : worker_ok w → worker_ok (AddTx validator index t w).1.1.
Proof.
  intros Hok. destruct (AddTx_cases validator index t w) as [[-> _]|(prio & H1 & H2 & H3 & -> & _)]; [done|].
  by apply push_tx_ok.
Qed.

Lemma worker_ok_frame w w' :
  worker_ok w → w_pending w' = w_pending w → pendingSet w' = pendingSet w →
  pendingBytes w' = pendingBytes w → cfg w' = cfg w → worker_ok w'.
Proof. intros [] E1 E2 E3 E4. split; rewrite ?E1, ?E2, ?E3, ?E4; done. Qed.

(** What [tryCreateBatch] takes, and what becomes of it. *)
Lemma tryCreateBatch_spec now (store : option B) (index : option I) w :
  worker_ok w → w_pending w ≠ [] →
  let r := tryCreateBatch now store index w in
  let w1 := (take_txs w).1 in
  let chosen := (take_txs w).2 in
  let batch := NewBatch (id w) (w_validatorID w) (w_round w) (tx <$> chosen) now in
  let failed := match store with Some s => bool_decide (is_Some (SaveBatch batch s).2) | None => false end in
  worker_ok (c_worker r) ∧
  (failed = false → c_batch r = Some batch ∧ w_pending (c_worker r) = w_pending w1 ∧
     c_index r = (λ i, (TI_AddBatch batch i).1) <$> index ∧
     c_store r = (λ s, (SaveBatch batch s).1) <$> store) ∧
  (failed = true → c_batch r = None ∧ c_index r = index ∧
     tx <$> w_pending (c_worker r) ≡ₚ tx <$> w_pending w).
Proof.
  intros Hok Hne. unfold tryCreateBatch, finishBatch.
  rewrite bool_decide_eq_false_2 by (destruct (w_pending w); [done|cbn; lia]).
  pose proof (take_txs_spec w Hok) as Ht. destruct (take_txs w) as [w1 chosen].
  destruct Ht as (Hok1 & Ec & Hsel & Ew). cbn [fst snd].
  assert (id w1 = id w ∧ w_validatorID w1 = w_validatorID w ∧ w_round w1 = w_round w ∧ ackTracker w1 = ackTracker w)
    as (E1 & E2 & E3 & E4) by (by rewrite Ew).
  rewrite E1, E2, E3. set (batch := NewBatch _ _ _ _ _).
  assert (∀ s' : option B, let r := (let index' := match index with Some i => Some (TI_AddBatch batch i).1 | None => None end in
        let t := TrackBatch now batch (ackTracker w1) in
        let '(t, _, _) := RecordAck now (Batch_Digest batch) (w_validatorID w) t in
        mk_created (w1 <| ackTracker := t |>) s' index' (Some batch)) in
      worker_ok (c_worker r) ∧ c_batch r = Some batch ∧ w_pending (c_worker r) = w_pending w1 ∧
      c_index r = (λ i, (TI_AddBatch batch i).1) <$> index ∧ c_store r = s') as Hgood.
  { intros s'. cbv zeta. destruct (RecordAck _ _ _ _) as [[t ?] ?]. cbn.
    split_and!; first [done | by eapply worker_ok_frame | by destruct index]. }
  cbv zeta in Hgood. destruct store as [s|].
  - destruct (SaveBatch batch s) as [s' err] eqn:Esb. cbn [fst snd]. destruct err as [e|].
    + rewrite bool_decide_eq_true_2 by done. cbn [c_worker c_batch c_index].
      destruct (requeue_taken w w1 chosen Hok Hok1 Ec (sel_perm _ _ _ _ _ _ _ _ Hsel)) as [Hok2 Hp].
      split_and!; done.
    + rewrite bool_decide_eq_false_2 by by intros [].
      destruct (Hgood (Some s')) as (? & ? & ? & ? & ?). split_and!; [done| |done]. intros _.
      split_and!; try done. cbn. by rewrite Esb.
  - destruct (Hgood None) as (? & ? & ? & ? & ?). split_and!; [done|intros _; done|done].
Qed.

(** ** Runs of a worker *)
Inductive worker_op :=
  | WAddTx (validator : option (Transaction → result TxAdmission)) (t : Transaction)
  | WCreateBatch (now : Z)
  | WDrain
  | WAck (now : Z) (d : Hash) (v : Z)
  | WSetRound (r : Z)
  | WStart
  | WStop (now : Z).

(** A worker with the store and index it shares. *)
Definition worker_exec (x : created (I := I) (B := B)) (op : worker_op) : created :=
  let w := c_worker x in
  let with_worker w' := mk_created w' (c_store x) (c_index x) None in
  match op with
  | WAddTx validator t => with_worker (AddTx validator (c_index x) t w).1.1
  | WCreateBatch now => tryCreateBatch now (c_store x) (c_index x) w
  | WDrain => with_worker (DrainPending w).1
  | WAck now d v => with_worker (Worker_RecordAck now d v w).1.1
  | WSetRound r => with_worker (SetRound w r)
  | WStart => with_worker (Start w).1
  | WStop now => (Stop now (c_store x) (c_index x) w).1
  end.

Lemma tryCreateBatch_ok now (store : option B) (index : option I) w :
  worker_ok w → worker_ok (c_worker (tryCreateBatch now store index w)).
Proof.
  intros Hok. destruct (w_pending w) eqn:E.
  - unfold tryCreateBatch. by rewrite E.
  - apply tryCreateBatch_spec; [done|]. by rewrite E.
Qed.

Lemma worker_exec_ok x op : worker_ok (c_worker x) → worker_ok (c_worker (worker_exec x op)).
Proof.
  intros Hok. destruct op; cbn [worker_exec c_worker].
  - by apply AddTx_ok.
  - by apply tryCreateBatch_ok.
  - unfold DrainPending. case_bool_decide; [done|]. destruct Hok as [Hh Hs Hn Hb Hc Hl]. cbn.
    split; cbn; [|intros h|constructor|done|lia|].
    + intros k Hk. cbn in Hk. lia.
    + split; [set_solver|by intros ?%not_elem_of_nil].
    + rewrite Hb in Hl. pose proof (total_bytes_nonneg (w_pending (c_worker x))). lia.
  - unfold Worker_RecordAck. destruct (RecordAck _ _ _ _) as [[? ?] ?]. by eapply worker_ok_frame.
  - by eapply worker_ok_frame.
  - unfold Start. destruct (w_running _); [done|]. by eapply worker_ok_frame.
  - unfold Stop. destruct (w_running _); [|done]. cbn [fst c_worker].
    apply (worker_ok_frame (c_worker (tryCreateBatch now (c_store x) (c_index x)
             ((c_worker x) <| w_running := false |>)))); try done.
    apply tryCreateBatch_ok. by eapply worker_ok_frame.
Qed.

(** C20. The queue's books are exact: from a fresh worker with non-negative
    limits, after any sequence of additions, batch creations, drains, acks and
    restarts, over any store and index, the pending set holds exactly the hashes
    of the queued transactions, no transaction is queued twice, the byte counter
    is the sum of their sizes, the queue is a heap, and neither limit is
    exceeded. *)
Theorem worker_queue_invariant i v c q store index ops :
  0 ≤ MaxPendingTxs c → 0 ≤ MaxPendingBytes c →
  let w := c_worker (fold_left worker_exec ops (mk_created (New i v c q) store index None)) in
  (∀ h, h ∈ pendingSet w ↔ ∃ e, e ∈ w_pending w ∧ Tx_Hash (tx e) = h) ∧
  NoDup (entry_hash <$> w_pending w) ∧ heap Less (w_pending w) ∧
  pendingBytes w = total_bytes (w_pending w) ∧
  PendingCount w ≤ MaxPendingTxs (cfg w) ∧ pendingBytes w ≤ MaxPendingBytes (cfg w).
Proof.
  intros Hc Hb w. assert (worker_ok w) as [Hh Hs Hn Hby Hco Hl].
  { unfold w. set (x := mk_created _ store index None).
    assert (worker_ok (c_worker x)) as Hx by (by apply worker_ok_New). clearbody x.
    clear w. revert x Hx. induction ops as [|op ops IH]; intros x Hx; [done|].
    by apply IH, worker_exec_ok. }
  split_and!; try done. intros h. rewrite Hs, list_elem_of_fmap. unfold entry_hash. naive_solver.
Qed.

(** C10. Batches take the highest priorities first: the batch that
    [tryCreateBatch] makes from a consistent queue, when its store accepts it,
    holds at most [BatchSize] (non-negative) transactions and, with a positive byte cap, at most
    [BatchBytes] bytes unless it is a single transaction; its transactions are in
    decreasing order of priority and, for equal priority, in order of arrival;
    nothing left in the queue has a higher priority than any of them, or an equal
    one and an earlier arrival; nothing is lost; and it is cut short only
    when the next transaction does not fit. *)
Theorem batch_highest_priority_first now store (index : option I) w :
  worker_ok w → w_pending w ≠ [] → 0 ≤ BatchSize (cfg w) →
  (∀ s b, store = Some s → (SaveBatch (S := B) b s).2 = None) →
  let r := tryCreateBatch now store index w in
  ∃ batch chosen, c_batch r = Some batch ∧ Transactions batch = tx <$> chosen ∧
    w_pending w ≡ₚ chosen ++ w_pending (c_worker r) ∧
    StronglySorted (λ a b, ¬ outranks b a) chosen ∧
    (∀ a b, a ∈ chosen → b ∈ w_pending (c_worker r) → ¬ outranks b a) ∧
    zlen chosen ≤ BatchSize (cfg w) ∧
    (0 < BatchBytes (cfg w) → total_bytes chosen ≤ BatchBytes (cfg w) ∨ zlen chosen = 1) ∧
    (zlen chosen < Z.min (BatchSize (cfg w)) (zlen (w_pending w)) →
       0 < BatchBytes (cfg w) ∧
       BatchBytes (cfg w) < total_bytes chosen + Tx_Size (tx (w_pending (c_worker r) !!! 0%nat))).
Proof.
  intros Hok Hne Hbs Hsave r. pose proof (tryCreateBatch_spec now store index w Hok Hne) as (_ & Hgood & _).
  pose proof (take_txs_spec w Hok) as Ht. destruct (take_txs w) as [w1 chosen].
  destruct Ht as (_ & _ & Hsel & _). cbn [fst snd] in Hgood. fold r in Hgood.
  destruct Hgood as (Eb & Ep & _ & _).
  { destruct store as [s|]; [|done]. rewrite Hsave by done. by apply bool_decide_eq_false_2; intros []. }
  rewrite Ep. destruct Hsel as [Sp _ Ss Sf Sc _ Scap Sstop]. eexists _, chosen.
  split_and!; try done; [| |lia| |].
  - eapply StronglySorted_weaken; [|exact Ss]. intros a b. apply not_outranks.
  - intros a b Ha Hb. apply not_outranks. by apply Sf.
  - intros H0. destruct (Scap H0) as [[H1 _]|[->|H1]]; [|left; change (total_bytes []) with 0; lia|by left].
    destruct chosen as [|e [|? ?]]; cbn in H1; [left; change (total_bytes []) with 0; lia|by right|lia].
  - intros Hlt. apply Sstop. lia.
Qed.

(** C21. A failed store gives the transactions back as far as the limits allow:
    let the batch loop take transactions from a consistent queue, let other
    operations change the worker in any way that keeps its books and its
    configuration, and let saving the batch fail.  Then no batch is announced, the
    index is unchanged and the books agree.  The transactions that are not queued
    again already go back to the queue, in their order, up to the first one that
    does not fit; it and those after it are dropped.  With room for all of them
    none is dropped, and without anything in between the queue holds the same
    transactions as before. *)
Theorem failed_batch_requeues now s (index : option I) w w2 :
  worker_ok w → worker_ok w2 → cfg w2 = cfg w →
  let txs := tx <$> (take_txs w).2 in
  is_Some (SaveBatch (S := B) (NewBatch (id w2) (w_validatorID w2) (w_round w2) txs now) s).2 →
  let r := finishBatch now (Some s) index txs w2 in
  c_batch r = None ∧ c_index r = index ∧ worker_ok (c_worker r) ∧
  (∃ back dropped,
     filter (λ t, (Tx_Hash t) ∉ pendingSet w2) txs = back ++ dropped ∧
     tx <$> w_pending (c_worker r) ≡ₚ back ++ (tx <$> w_pending w2) ∧
     match dropped with
     | [] => True
     | t :: _ => MaxPendingTxs (cfg w) ≤ PendingCount (c_worker r) ∨
                 MaxPendingBytes (cfg w) < pendingBytes (c_worker r) + Tx_Size t
     end ∧
     (PendingCount w2 + zlen txs ≤ MaxPendingTxs (cfg w) →
      pendingBytes w2 + total_bytes (take_txs w).2 ≤ MaxPendingBytes (cfg w) → dropped = [])) ∧
  (w2 = (take_txs w).1 → tx <$> w_pending (c_worker r) ≡ₚ tx <$> w_pending w).
Proof.
  intros Hok Hok2 Ec txs Hf r. pose proof (take_txs_spec w Hok) as Ht.
  assert (NoDup (map Tx_Hash txs)) as Hnd.
  { unfold txs. destruct (take_txs w) as [w1 chosen]. destruct Ht as (_ & _ & Hsel & _). cbn [snd].
    pose proof (wk_nodup _ Hok) as Hn. rewrite (sel_perm _ _ _ _ _ _ _ _ Hsel), fmap_app in Hn.
    rewrite map_hash_tx. by apply NoDup_app in Hn as (? & _ & _). }
  unfold r, finishBatch. destruct (SaveBatch _ s) as [s' [e|]]; [|by destruct Hf]. cbn [c_worker c_batch c_index].
  destruct (requeue_upto txs w2 Hok2 Hnd) as (Hok3 & back & rest & E & Hp & Hr). rewrite Ec in Hr.
  split_and!; [done..| |].
  - exists back, rest. split_and!; [done..|]. intros Hc Hb. destruct rest as [|t rest]; [done|].
    assert (back ++ t :: rest ⊆+ txs) as Hsub by (rewrite <-E; apply sublist_submseteq, sublist_filter).
    pose proof (submseteq_length _ _ Hsub) as Hl. rewrite length_app in Hl. cbn [length] in Hl.
    pose proof (Permutation_length Hp) as Hpl. rewrite length_app, !length_fmap in Hpl.
    destruct Hr as [Hr|Hr]; unfold PendingCount in *; [lia|].
    rewrite (wk_bytes _ Hok3), <-sum_sizes_txs, (sum_sizes_perm _ _ Hp), sum_sizes_app, sum_sizes_txs, <-(wk_bytes _ Hok2) in Hr.
    pose proof (sum_sizes_submseteq _ _ Hsub) as Hs. rewrite sum_sizes_app in Hs. unfold txs in Hs.
    rewrite sum_sizes_txs in Hs. pose proof (sum_sizes_nonneg rest). rewrite (sum_sizes_cons t) in Hs. lia.
  - intros ->. unfold txs. destruct (take_txs w) as [w1 chosen]. destruct Ht as (_ & _ & Hsel & _). cbn [fst snd].
    by apply (requeue_taken w w1 chosen Hok Hok2 Ec (sel_perm _ _ _ _ _ _ _ _ Hsel)).
Qed.

(** [AddTx], branch by branch, on a running worker whose validator admits
    the transaction: a transaction that is queued or indexed is accepted and
    changes nothing; otherwise a full queue or too many bytes is
    [ErrWorkerBackpressure] and changes nothing; otherwise it is queued with the
    validator's priority and the next sequence number.  A stopped worker and a
    rejected transaction change nothing either. *)
Theorem add_tx_outcomes (validate : Transaction → result TxAdmission) (index : option I) t w :
  let r := AddTx (Some validate) index t w in
  (w_running w = false → r = (w, false, Some ErrNotRunning)) ∧
  (w_running w = true → ∀ e, validate t = Err e →
     ∃ err, r = (w, false, Some err) ∧ errors_Is err ErrTxValidationFailed = true) ∧
  (w_running w = true → ∀ adm, validate t = Ok adm →
     if bool_decide (Worker_HasTx index (Tx_Hash t) w = true) then r = (w, false, None)
     else if bool_decide (PendingCount w < MaxPendingTxs (cfg w) ∧
                          pendingBytes w + Tx_Size t ≤ MaxPendingBytes (cfg w))
     then r.2 = None ∧ r.1.1 = push_tx t (Priority adm) w
     else r = (w, false, Some ErrWorkerBackpressure)).
Proof.
  intros r. unfold r, AddTx, Worker_HasTx, PendingCount. split_and!.
  - by intros ->.
  - intros -> e ->. by eexists.
  - intros -> adm ->. cbn [negb].
    destruct (decide (Tx_Hash t ∈ pendingSet w)) as [Hin|Hni]; [by rewrite bool_decide_eq_true_2|].
    destruct (index_has index (Tx_Hash t)); [by rewrite bool_decide_eq_true_2|].
    rewrite (bool_decide_eq_false_2 (false = true)) by done.
    destruct (decide (zlen (w_pending w) >= MaxPendingTxs (cfg w))).
    { rewrite (bool_decide_eq_true_2 (zlen (w_pending w) >= _)), (bool_decide_eq_false_2 (_ ∧ _)) by lia. done. }
    rewrite (bool_decide_eq_false_2 (zlen (w_pending w) >= _)) by done.
    destruct (decide (pendingBytes w + Tx_Size t > MaxPendingBytes (cfg w))).
    { rewrite (bool_decide_eq_true_2 (_ > MaxPendingBytes (cfg w))), (bool_decide_eq_false_2 (_ ∧ _)) by lia. done. }
    rewrite (bool_decide_eq_false_2 (_ > MaxPendingBytes (cfg w))) by done.
    rewrite (bool_decide_eq_true_2 (_ ∧ _)) by lia. done.
Qed.
End claims.

(** ** Closed examples *)
Module WorkerExample.
Definition config : Config := mk_Config 2 0 100 10 1000 30.
Definition fees (t : Transaction) : result TxAdmission := Ok (mk_TxAdmission (default 0 (head t)) EmptyString).
Definition start : created (I := MemoryTxIndex) (B := MemoryBatchStore) :=
  mk_created (New 0 0 config 3) (Some NewMemoryBatchStore) (Some NewMemoryTxIndex) None.
Definition adds : list worker_op := WStart :: map (WAddTx (Some fees)) [[5]; [9; 1]; [5; 2]; [9; 1]; [1]].
Definition loaded : Worker := c_worker (fold_left worker_exec adds start).
Definition more : list Transaction := [[11]; [12]; [13]; [14]; [15]; [16]; [17]; [18]].
(** What is left of it after taking a batch, filled up. *)
Definition full : Worker :=
  fold_left (λ w t, (AddTx (Some fees) (Some NewMemoryTxIndex) t w).1.1) more (take_txs loaded).1.
End WorkerExample.

Lemma loaded_ok : worker_ok WorkerExample.loaded.
Proof.
  unfold WorkerExample.loaded.
  assert (worker_ok (c_worker WorkerExample.start)) as H by (by apply worker_ok_New).
  revert H. generalize WorkerExample.start. induction WorkerExample.adds as [|op ops IH]; intros x Hx; [done|].
  by apply IH, worker_exec_ok.
Qed.

Lemma worker_queue_invariant_witness :
  tx <$> w_pending WorkerExample.loaded = [[9; 1]; [5]; [5; 2]; [1]] ∧
  pendingBytes WorkerExample.loaded = total_bytes (w_pending WorkerExample.loaded).
Proof.
  split; [by vm_compute|].
  exact (proj1 (proj2 (proj2 (proj2 (worker_queue_invariant 0 0 WorkerExample.config 3
    (Some NewMemoryBatchStore) (Some NewMemoryTxIndex) WorkerExample.adds ltac:(by vm_compute)
    ltac:(by vm_compute)))))).
Defined.

Lemma batch_highest_priority_first_witness :
  let r := tryCreateBatch 7 (Some NewMemoryBatchStore) (Some NewMemoryTxIndex) WorkerExample.loaded in
  Transactions <$> c_batch r = Some [[9; 1]; [5]] ∧
  ∃ batch chosen, c_batch r = Some batch ∧ Transactions batch = tx <$> chosen ∧
    w_pending WorkerExample.loaded ≡ₚ chosen ++ w_pending (c_worker r) ∧
    StronglySorted (λ a b, ¬ outranks b a) chosen ∧
    (∀ a b, a ∈ chosen → b ∈ w_pending (c_worker r) → ¬ outranks b a) ∧
    zlen chosen ≤ BatchSize (cfg WorkerExample.loaded) ∧
    (0 < BatchBytes (cfg WorkerExample.loaded) →
       total_bytes chosen ≤ BatchBytes (cfg WorkerExample.loaded) ∨ zlen chosen = 1) ∧
    (zlen chosen < Z.min (BatchSize (cfg WorkerExample.loaded)) (zlen (w_pending WorkerExample.loaded)) →
       0 < BatchBytes (cfg WorkerExample.loaded) ∧
       BatchBytes (cfg WorkerExample.loaded) <
         total_bytes chosen + Tx_Size (tx (w_pending (c_worker r) !!! 0%nat))).
Proof.
  split; [by vm_compute|].
  apply (batch_highest_priority_first 7 (Some NewMemoryBatchStore) (Some NewMemoryTxIndex)
           WorkerExample.loaded loaded_ok); [by vm_compute|by vm_compute|].
  intros s b [= <-]. by vm_compute.
Defined.

(** Between taking two of four transactions and the failing save, nothing happens,
    or the queue fills up. *)
Lemma failed_batch_requeues_witness :
  let txs := tx <$> (take_txs WorkerExample.loaded).2 in
  let closed := (Memory_BatchStore_Close NewMemoryBatchStore).1 in
  let r := finishBatch 7 (Some closed) (Some NewMemoryTxIndex) txs (take_txs WorkerExample.loaded).1 in
  let r' := finishBatch 7 (Some closed) (Some NewMemoryTxIndex) txs WorkerExample.full in
  tx <$> w_pending (c_worker r) ≡ₚ tx <$> w_pending WorkerExample.loaded ∧
  worker_ok (c_worker r') ∧ PendingCount (c_worker r') = 10 ∧ ([9; 1] ∈ txs) ∧ ([9; 1] ∉ tx <$> w_pending (c_worker r')).
Proof.
  assert (worker_ok (take_txs WorkerExample.loaded).1 ∧ cfg (take_txs WorkerExample.loaded).1 = cfg WorkerExample.loaded) as [Hok1 Ec].
  { pose proof (take_txs_spec WorkerExample.loaded loaded_ok) as H.
    destruct (take_txs WorkerExample.loaded) as [w1 chosen]. destruct H as (H1 & H2 & _). split; [exact H1|exact H2]. }
  assert (worker_ok WorkerExample.full) as Hok2.
  { unfold WorkerExample.full. revert Hok1. generalize (take_txs WorkerExample.loaded).1. clear Ec.
    induction WorkerExample.more as [|t ts IH]; intros w Hw; [exact Hw|]. apply IH, AddTx_ok, Hw. }
  split_and!.
  - refine (proj2 (proj2 (proj2 (proj2 (failed_batch_requeues 7 (Memory_BatchStore_Close NewMemoryBatchStore).1
      (Some NewMemoryTxIndex) WorkerExample.loaded (take_txs WorkerExample.loaded).1 loaded_ok Hok1 Ec _)))) eq_refl).
    by eexists.
  - refine (proj1 (proj2 (proj2 (failed_batch_requeues 7 (Memory_BatchStore_Close NewMemoryBatchStore).1
      (Some NewMemoryTxIndex) WorkerExample.loaded WorkerExample.full loaded_ok Hok2 _ _)))).
    + by vm_compute.
    + by eexists.
  - by vm_compute.
  - apply (bool_decide_eq_true_1 (_ ∈ _)). by vm_compute.
  - apply (bool_decide_eq_true_1 (_ ∉ _)). by vm_compute.
Defined.

Lemma add_tx_outcomes_witness :
  AddTx (Some WorkerExample.fees) (Some NewMemoryTxIndex) [5] WorkerExample.loaded
  = (WorkerExample.loaded, false, None).
Proof.
  pose proof (proj2 (proj2 (add_tx_outcomes WorkerExample.fees (Some NewMemoryTxIndex) [5]
    WorkerExample.loaded)) ltac:(by vm_compute) (mk_TxAdmission 5 EmptyString) eq_refl) as H.
  assert (bool_decide (Worker_HasTx (Some NewMemoryTxIndex) (Tx_Hash [5]) WorkerExample.loaded = true) = true)
    as E by (vm_compute; reflexivity).
  rewrite E in H. exact H.
Defined.
