(* ===== verification/Pool.v ===== *)
(** The worker pool (worker/pool.go): transactions routed to workers by hash,
    acknowledgements, and scaling.  The batch store and the transaction index
    are shared by the workers and held here.  [now] is [time.Now()]; an
    operation that makes batches returns the ones handed to the callback. *)
From S2P Require Import Prelude Bytes Sha256 Errors Types Batch Store TxIndex Heap AckTracker Worker.
Local Open Scope Z_scope.

Record PoolConfig := mk_PoolConfig {
  MinWorkers : Z;
  MaxWorkers : Z;
  WorkerCfg : Config
}.

Definition DefaultPoolConfig : PoolConfig :=
  {| MinWorkers := 1; MaxWorkers := 4; WorkerCfg := DefaultConfig |}.

Record Pool (I B : Type) := mk_Pool {
  pool_cfg : PoolConfig;
  pool_validatorID : Z;
  pool_quorum : Z;
  workers : list Worker;
  pool_batchStore : option B;
  pool_txIndex : option I;
  pool_round : Z;
  pool_epoch : Z;
  pool_running : bool;
  nextID : Z
}.
Arguments mk_Pool {I B}.
Arguments pool_cfg {I B}.
Arguments pool_validatorID {I B}.
Arguments pool_quorum {I B}.
Arguments workers {I B}.
Arguments pool_batchStore {I B}.
Arguments pool_txIndex {I B}.
Arguments pool_round {I B}.
Arguments pool_epoch {I B}.
Arguments pool_running {I B}.
Arguments nextID {I B}.

#[export] Instance eta_Pool {I B} : Settable (Pool I B) := λ p,
  mk_Pool (pool_cfg p) (pool_validatorID p) (pool_quorum p) (workers p) (pool_batchStore p)
    (pool_txIndex p) (pool_round p) (pool_epoch p) (pool_running p) (nextID p).

(** [binary.BigEndian.Uint64(txHash[:8]) % uint64(n)]. *)
Definition worker_index (txHash : Hash) (n : nat) : nat :=
  Z.to_nat (be_val (take 8 txHash) mod Z.of_nat n).

Section pool.
Context {I B : Type} {TI : TxIndex I} {BS : BatchStore B}.
Context (validator : option (Transaction → result TxAdmission)).
Implicit Types p : Pool I B.

Definition NewPool (cfg : PoolConfig) (validatorID : Z) (batchStore : option B) (txIndex : option I)
    (quorum : Z) : Pool I B :=
  mk_Pool cfg validatorID quorum [] batchStore txIndex 0 0 false 0.

(** [addWorkerLocked]; a fresh worker always starts. *)
Definition addWorkerLocked p : Pool I B * option error :=
  let n := wrap 32 (nextID p + 1) in
  let id := u16 (wrap 32 (n - 1)) in
  let p := p <| nextID := n |> in
  let w := Worker.New id (pool_validatorID p) (WorkerCfg (pool_cfg p)) (pool_quorum p) in
  let w := Worker.SetRound w (pool_round p) in
  let w := Worker.SetEpoch w (pool_epoch p) in
  match Worker.Start w with
  | (_, Some err) => (p, Some err)
  | (w, None) => (p <| workers := workers p ++ [w] |>, None)
  end.

(** Stopping the workers one after the other. *)
Fixpoint stop_workers (now : Z) (ws : list Worker) (store : option B) (index : option I) :
    option B * option I * list Batch :=
  match ws with
  | [] => (store, index, [])
  | w :: ws' =>
      let '(r, _) := Worker.Stop now store index w in
      let '(store, index, out) := stop_workers now ws' (c_store r) (c_index r) in
      (store, index, match c_batch r with Some b => [b] | None => [] end ++ out)
  end.

Definition Stop (now : Z) p : Pool I B * list Batch * option error :=
  if negb (pool_running p) then (p, [], Some ErrNotRunning)
  else
    let '(store, index, out) := stop_workers now (workers p) (pool_batchStore p) (pool_txIndex p) in
    (p <| pool_running := false |> <| workers := [] |> <| pool_batchStore := store |>
       <| pool_txIndex := index |>, out, None).

Fixpoint start_workers (now : Z) (n : nat) p : Pool I B * list Batch * option error :=
  match n with
  | O => (p, [], None)
  | S n' =>
      match addWorkerLocked p with
      | (p, Some err) => let '(p, out, _) := Stop now p in (p, out, Some err)
      | (p, None) => start_workers now n' p
      end
  end.

Definition Start (now : Z) p : Pool I B * list Batch * option error :=
  if pool_running p then (p, [], Some ErrAlreadyRunning)
  else start_workers now (Z.to_nat (MinWorkers (pool_cfg p))) (p <| pool_running := true |>).

Definition WorkerCount p : Z := zlen (workers p).

(** [AddTx]: the pool, whether the worker is triggered, the error. *)
Definition route_tx (t : Transaction) (ws : list Worker) (index : option I) :
    list Worker * bool * option error :=
  let i := worker_index (Tx_Hash t) (length ws) in
  match ws !! i with
  | Some w => let '(w, trigger, err) := Worker.AddTx validator index t w in (<[i := w]> ws, trigger, err)
  | None => (ws, false, Some ErrNotRunning)
  end.

Definition AddTx (t : Transaction) p : Pool I B * bool * option error :=
  if negb (pool_running p) then (p, false, Some ErrNotRunning)
  else if bool_decide (zlen (workers p) = 0) then (p, false, Some ErrNotRunning)
  else
    let '(ws, trigger, err) := route_tx t (workers p) (pool_txIndex p) in
    (p <| workers := ws |>, trigger, err).

Definition PendingCount p : Z := fold_left (λ total w, total + Worker.PendingCount w) (workers p) 0.
Definition PendingBytes p : Z := fold_left (λ total w, total + pendingBytes w) (workers p) 0.
Definition Pool_HasTx (txHash : Hash) p : bool :=
  existsb (λ w, Worker_HasTx (pool_txIndex p) txHash w) (workers p).

Definition SetRound p (round : Z) : Pool I B :=
  p <| pool_round := round |> <| workers := (λ w, Worker.SetRound w round) <$> workers p |>.
Definition SetEpoch p (epoch : Z) : Pool I B :=
  p <| pool_epoch := epoch |> <| workers := (λ w, Worker.SetEpoch w epoch) <$> workers p |>.
Definition UpdateQuorum p (quorum : Z) : Pool I B :=
  p <| pool_quorum := quorum |> <| workers := (λ w, Worker.UpdateQuorum w quorum) <$> workers p |>.

(** [RecordAck]: worker by worker until one reports quorum. *)
Fixpoint record_ack_workers (now : Z) (d : Hash) (v : Z) (ws : list Worker) : list Worker * bool :=
  match ws with
  | [] => ([], false)
  | w :: ws' =>
      let '(w, reached, _) := Worker_RecordAck now d v w in
      if reached then (w :: ws', true)
      else let '(ws', reached) := record_ack_workers now d v ws' in (w :: ws', reached)
  end.
Definition Pool_RecordAck (now : Z) (batchDigest : Hash) (validator : Z) p : Pool I B * bool :=
  let '(ws, reached) := record_ack_workers now batchDigest validator (workers p) in
  (p <| workers := ws |>, reached).

Definition PendingBatchesBelowQuorum {RB : RangeOrder Hash PendingBatch} (now minAge : Z) p : list Batch :=
  concat (map (λ w, PendingBelowQuorum now minAge (ackTracker w)) (workers p)).

Definition HasBatchAckQuorum p (batchDigest : Hash) : bool :=
  existsb (λ w, AT_HasQuorum batchDigest (ackTracker w)) (workers p).

Definition ScaleUp p : Pool I B * bool :=
  if negb (pool_running p) then (p, false)
  else if bool_decide (zlen (workers p) >= MaxWorkers (pool_cfg p)) then (p, false)
  else match addWorkerLocked p with
       | (p, Some _) => (p, false)
       | (p, None) => (p, true)
       end.

(** [redistributeTxsLocked]; errors of [AddTx] are ignored. *)
Definition redistribute (txs : list Transaction) (index : option I) (ws : list Worker) : list Worker :=
  fold_left (λ ws t, (route_tx t ws index).1.1) txs ws.

Definition ScaleDown (now : Z) p : Pool I B * list Batch * bool :=
  if negb (pool_running p) then (p, [], false)
  else if bool_decide (zlen (workers p) ≤ MinWorkers (pool_cfg p)) then (p, [], false)
  else match last (workers p) with
  | None => (p, [], false)
  | Some w =>
      let rest := take (length (workers p) - 1) (workers p) in
      let '(w, pending) := DrainPending w in
      let '(r, _) := Worker.Stop now (pool_batchStore p) (pool_txIndex p) w in
      let rest := if bool_decide (zlen pending > 0) && bool_decide (zlen rest > 0)
                  then redistribute pending (c_index r) rest else rest in
      (p <| workers := rest |> <| pool_batchStore := c_store r |> <| pool_txIndex := c_index r |>,
       match c_batch r with Some b => [b] | None => [] end, true)
  end.

Definition GetWorker p (idx : Z) : option Worker :=
  if bool_decide (idx < 0) || bool_decide (idx >= zlen (workers p)) then None
  else workers p !! Z.to_nat idx.

(** One iteration of a worker's batch loop. *)
Definition tick_worker (now : Z) (i : nat) p : Pool I B * list Batch :=
  match workers p !! i with
  | None => (p, [])
  | Some w =>
      let r := tryCreateBatch now (pool_batchStore p) (pool_txIndex p) w in
      (p <| workers := <[i := c_worker r]> (workers p) |> <| pool_batchStore := c_store r |>
         <| pool_txIndex := c_index r |>, match c_batch r with Some b => [b] | None => [] end)
  end.

(** ** Routing *)
Lemma worker_index_lt h n : (0 < n)%nat → (worker_index h n < n)%nat.
Proof.
  intros. unfold worker_index. pose proof (Z.mod_pos_bound (be_val (take 8 h)) (Z.of_nat n)). lia.
Qed.

(** Every queued transaction is with the worker its hash names. *)
Definition well_routed (ws : list Worker) : Prop :=
  ∀ i w e, ws !! i = Some w → e ∈ w_pending w → i = worker_index (entry_hash e) (length ws).

Definition workers_ok (ws : list Worker) : Prop := Forall worker_ok ws.

Lemma route_tx_length t ws index : length (route_tx t ws index).1.1 = length ws.
Proof.
  unfold route_tx. destruct (ws !! _) as [w|]; [|done].
  destruct (Worker.AddTx validator index t w) as [[w' tr] err]. apply length_insert.
Qed.

Lemma AddTx_pending (index : option I) t w e :
  worker_ok w → e ∈ w_pending (Worker.AddTx validator index t w).1.1 → e ∈ w_pending w ∨ tx e = t.
Proof.
  intros Hok. destruct (AddTx_cases validator index t w) as [[-> _]|(prio & H1 & H2 & H3 & -> & _)]; [by left|].
  destruct (push_tx_ok t prio w Hok H1 H2 H3) as [_ ->]. rewrite elem_of_cons. naive_solver.
Qed.

Lemma route_tx_ok t ws index :
  workers_ok ws → workers_ok (route_tx t ws index).1.1.
Proof.
  intros Hok. unfold route_tx. destruct (ws !! _) as [w|] eqn:E; [|done].
  pose proof (AddTx_ok validator index t w) as Ha.
  destruct (Worker.AddTx validator index t w) as [[w' tr] err]. cbn in *.
  apply Forall_insert; [done|]. apply Ha. unfold workers_ok in Hok. rewrite Forall_lookup in Hok. by eapply Hok.
Qed.

Lemma route_tx_routed t ws index :
  workers_ok ws → well_routed ws → well_routed (route_tx t ws index).1.1.
Proof.
  intros Hok Hr i w e. rewrite route_tx_length. unfold route_tx.
  set (j := worker_index (Tx_Hash t) (length ws)). destruct (ws !! j) as [wj|] eqn:E; [|apply Hr].
  pose proof (AddTx_pending index t wj) as Ha.
  destruct (Worker.AddTx validator index t wj) as [[w' tr] err]. cbn [fst] in *.
  destruct (decide (i = j)) as [->|Hne].
  - rewrite list_lookup_insert_eq by (by eapply lookup_lt_Some). intros [= <-] He.
    apply Ha in He as [He|He]; [by eapply Hr| |].
    + unfold entry_hash. by rewrite He.
    + unfold workers_ok in Hok. rewrite Forall_lookup in Hok. by eapply Hok.
  - rewrite list_lookup_insert_ne by done. apply Hr.
Qed.

(** ** Room for a transaction *)
Definition admits (t : Transaction) : Prop :=
  match validator with Some v => ∃ adm, v t = Ok adm | None => True end.

(** A worker of a running pool. *)
Record worker_up (c : Config) (w : Worker) : Prop := {
  up_ok : worker_ok w;
  up_running : w_running w = true;
  up_cfg : cfg w = c
}.

Lemma AddTx_up (index : option I) c t w : worker_up c w → worker_up c (Worker.AddTx validator index t w).1.1.
Proof.
  intros [Hok Hr Hc]. split; [by apply AddTx_ok|..];
    destruct (AddTx_cases validator index t w) as [[-> _]|(prio & _ & _ & _ & -> & _)]; done.
Qed.

Lemma AddTx_HasTx_mono (index : option I) t w h :
  Worker_HasTx index h w = true → Worker_HasTx index h (Worker.AddTx validator index t w).1.1 = true.
Proof.
  destruct (AddTx_cases validator index t w) as [[-> _]|(prio & _ & _ & _ & -> & _)]; [done|].
  destruct (push_tx_frame t prio w) as (_ & Es & _). unfold Worker_HasTx. rewrite Es.
  do 2 case_decide; try done. set_solver.
Qed.

Lemma AddTx_room (index : option I) c t w :
  worker_up c w → admits t → Worker.PendingCount w < MaxPendingTxs c → pendingBytes w + Tx_Size t ≤ MaxPendingBytes c →
  Worker_HasTx index (Tx_Hash t) (Worker.AddTx validator index t w).1.1 = true.
Proof.
  intros [_ Hr Hc] Ha H1 H2. unfold Worker.AddTx. rewrite Hr. cbn [negb].
  assert (∃ adm, match validator with Some v => v t | None => Ok (mk_TxAdmission 0 EmptyString) end = Ok adm) as [adm ->].
  { unfold admits in Ha. destruct validator; [done|by eexists]. }
  destruct (decide (Tx_Hash t ∈ pendingSet w)) as [Hin|Hni].
  { unfold Worker_HasTx. by rewrite decide_True. }
  destruct (index_has index (Tx_Hash t)) eqn:Ei.
  { unfold Worker_HasTx. cbn [fst]. by rewrite decide_False. }
  unfold Worker.PendingCount in H1. rewrite bool_decide_eq_false_2 by (rewrite Hc; lia).
  rewrite bool_decide_eq_false_2 by (rewrite Hc; lia). cbn [fst].
  destruct (push_tx_frame t (Priority adm) w) as (_ & Es & _). unfold Worker_HasTx.
  rewrite decide_True; [done|]. rewrite Es. set_solver.
Qed.

(** What an addition adds to the two totals. *)
Lemma AddTx_totals (index : option I) t w :
  worker_ok w →
  Worker.PendingCount (Worker.AddTx validator index t w).1.1 ≤ Worker.PendingCount w + 1 ∧
  pendingBytes (Worker.AddTx validator index t w).1.1 ≤ pendingBytes w + Tx_Size t.
Proof.
  intros Hok. unfold Worker.PendingCount, Tx_Size.
  destruct (AddTx_cases validator index t w) as [[-> _]|(prio & H1 & H2 & H3 & -> & _)]; [lia|].
  destruct (push_tx_ok t prio w Hok H1 H2 H3) as [_ Hp]. rewrite Hp. cbn. unfold Tx_Size. lia.
Qed.

Definition sum_over (f : Worker → Z) (ws : list Worker) : Z := fold_left (λ s w, s + f w) ws 0.

Lemma sum_over_cons f w ws : sum_over f (w :: ws) = f w + sum_over f ws.
Proof. apply (fold_left_add_cons f). Qed.

Lemma sum_over_insert f ws i w w' :
  ws !! i = Some w → sum_over f (<[i := w']> ws) = sum_over f ws - f w + f w'.
Proof.
  revert i. induction ws as [|x ws IH]; intros [|i] E; cbn in E; try done.
  - injection E as ->. cbn [insert list_insert]. rewrite !sum_over_cons. lia.
  - change (<[S i := w']> (x :: ws)) with (x :: <[i := w']> ws). rewrite !sum_over_cons, (IH i E). lia.
Qed.

Lemma sum_over_bound f ws b : (∀ w, w ∈ ws → f w ≤ b) → sum_over f ws ≤ zlen ws * b.
Proof.
  intros H. induction ws as [|w ws IH]; [done|]. rewrite sum_over_cons. cbn [length].
  rewrite Nat2Z.inj_succ, Z.mul_succ_l. pose proof (H w ltac:(left)). pose proof (IH ltac:(set_solver)). lia.
Qed.

Lemma sum_over_lookup f ws i w :
  (∀ w, w ∈ ws → 0 ≤ f w) → ws !! i = Some w → f w ≤ sum_over f ws.
Proof.
  revert i. induction ws as [|x ws IH]; intros [|i] Hn E; cbn in E; try done; rewrite sum_over_cons.
  - injection E as ->. assert (0 ≤ sum_over f ws); [|lia]. clear IH.
    induction ws as [|y ws IH]; [done|]. rewrite sum_over_cons.
    pose proof (Hn y ltac:(set_solver)). pose proof (IH ltac:(set_solver)). lia.
  - pose proof (Hn x ltac:(set_solver)). pose proof (IH i ltac:(set_solver) E). lia.
Qed.

(** ** Redistribution *)
Definition pool_has (index : option I) (ws : list Worker) (h : Hash) : Prop :=
  ∃ w, w ∈ ws ∧ Worker_HasTx index h w = true.

(** The workers have room for [txs] whatever their hashes. *)
Record room (c : Config) (ws : list Worker) (txs : list Transaction) : Prop := {
  rm_up : Forall (worker_up c) ws;
  rm_some : ws ≠ [];
  rm_count : sum_over Worker.PendingCount ws + zlen txs ≤ MaxPendingTxs c;
  rm_bytes : sum_over pendingBytes ws + fold_left (λ s t, s + Tx_Size t) txs 0 ≤ MaxPendingBytes c;
  rm_admits t : t ∈ txs → admits t
}.

Lemma worker_up_nonneg c w : worker_up c w → 0 ≤ Worker.PendingCount w ∧ 0 ≤ pendingBytes w.
Proof.
  intros [Hok _ _]. unfold Worker.PendingCount. split; [lia|].
  rewrite (wk_bytes _ Hok). apply total_bytes_nonneg.
Qed.

Lemma route_tx_pick t ws (index : option I) :
  ws ≠ [] → ∃ i w, i = worker_index (Tx_Hash t) (length ws) ∧ ws !! i = Some w ∧
    (route_tx t ws index).1.1 = <[i := (Worker.AddTx validator index t w).1.1]> ws.
Proof.
  intros Hne. set (i := worker_index (Tx_Hash t) (length ws)).
  destruct (ws !! i) as [w|] eqn:E.
  - exists i, w. split_and!; [done..|]. unfold route_tx. fold i. rewrite E.
    by destruct (Worker.AddTx validator index t w) as [[? ?] ?].
  - exfalso. apply lookup_ge_None in E. pose proof (worker_index_lt (Tx_Hash t) (length ws)).
    destruct ws; [done|cbn in *; lia].
Qed.

Lemma route_tx_up t ws index c : Forall (worker_up c) ws → Forall (worker_up c) (route_tx t ws index).1.1.
Proof.
  intros H. destruct ws as [|w0 ws0] eqn:Ews; [done|]. rewrite <-Ews in *.
  destruct (route_tx_pick t ws index) as (i & w & _ & E & ->); [by rewrite Ews|].
  apply Forall_insert; [done|]. apply AddTx_up. rewrite Forall_lookup in H. by eapply H.
Qed.

Lemma route_tx_has_mono t ws index h : pool_has index ws h → pool_has index (route_tx t ws index).1.1 h.
Proof.
  intros (w & Hw & Hh). destruct (route_tx_pick t ws index) as (i & wi & _ & E & ->);
    [intros ->; by apply not_elem_of_nil in Hw|].
  apply list_elem_of_lookup in Hw as [j Hj]. destruct (decide (j = i)) as [->|Hne].
  - simplify_eq. exists (Worker.AddTx validator index t w).1.1. split; [|by apply AddTx_HasTx_mono].
    apply list_elem_of_lookup. exists i. apply list_lookup_insert_eq. by eapply lookup_lt_Some.
  - exists w. split; [|done]. apply list_elem_of_lookup. exists j. by rewrite list_lookup_insert_ne.
Qed.

Lemma route_tx_room c t txs ws index :
  room c ws (t :: txs) →
  room c (route_tx t ws index).1.1 txs ∧ pool_has index (route_tx t ws index).1.1 (Tx_Hash t).
Proof.
  intros [Hup Hne Hc Hb Ha]. rewrite (fold_left_add_cons Tx_Size) in Hb. cbn [length] in Hc.
  pose proof (route_tx_up t ws index c Hup) as Hup'. pose proof (route_tx_length t ws index) as Hlen.
  destruct (route_tx_pick t ws index Hne) as (i & w & _ & E & Er). rewrite Er in *.
  pose proof (proj1 (Forall_lookup _ _) Hup i w E) as Hw.
  destruct (AddTx_totals index t w (up_ok _ _ Hw)) as [Hc1 Hb1].
  assert (Worker.PendingCount w ≤ sum_over Worker.PendingCount ws ∧ pendingBytes w ≤ sum_over pendingBytes ws) as [Hc2 Hb2].
  { split; (eapply sum_over_lookup; [|exact E]); intros x Hx;
      apply (worker_up_nonneg c), (proj1 (Forall_forall _ _) Hup x Hx). }
  assert (0 ≤ fold_left (λ s t, s + Tx_Size t) txs 0)
    by (apply fold_left_add_nonneg; unfold Tx_Size; lia).
  split; [split|].
  - done.
  - intros E0. rewrite E0 in Hlen. by destruct ws.
  - rewrite (sum_over_insert _ ws i w) by done. lia.
  - rewrite (sum_over_insert _ ws i w) by done. lia.
  - intros t' Ht'. apply Ha. by right.
  - exists (Worker.AddTx validator index t w).1.1. split.
    + apply list_elem_of_lookup. exists i. apply list_lookup_insert_eq. by eapply lookup_lt_Some.
    + eapply AddTx_room; [done|apply Ha; left|unfold Worker.PendingCount in *; lia|lia].
Qed.

Lemma redistribute_spec c txs ws index :
  room c ws txs →
  (∀ t, t ∈ txs → pool_has index (redistribute txs index ws) (Tx_Hash t)) ∧
  (∀ h, pool_has index ws h → pool_has index (redistribute txs index ws) h).
Proof.
  revert ws. induction txs as [|t txs IH]; intros ws Hr; [by split; [intros ? ?%not_elem_of_nil|]|].
  destruct (route_tx_room c t txs ws index Hr) as [Hr' Ht].
  destruct (IH _ Hr') as [H1 H2]. cbn [redistribute fold_left]. split.
  - intros t' [->|Ht']%elem_of_cons; [by apply H2|by apply H1].
  - intros h Hh. by apply H2, route_tx_has_mono.
Qed.

Lemma redistribute_up c txs ws index :
  Forall (worker_up c) ws → Forall (worker_up c) (redistribute txs index ws) ∧
  length (redistribute txs index ws) = length ws.
Proof.
  revert ws. induction txs as [|t txs IH]; intros ws H; [done|]. cbn [redistribute fold_left].
  destruct (IH (route_tx t ws index).1.1) as [H1 H2]; [by apply route_tx_up|].
  split; [done|]. exact (eq_trans H2 (route_tx_length t ws index)).
Qed.

(** [ScaleDown] above the minimum: the last worker's queue is drained first, so
    stopping it makes no batch. *)
Lemma ScaleDown_eq now p ws w :
  pool_running p = true → MinWorkers (pool_cfg p) < WorkerCount p → workers p = ws ++ [w] →
  ScaleDown now p =
    (p <| workers := redistribute (tx <$> w_pending w) (pool_txIndex p) ws |>, [], true).
Proof.
  intros Hr Hm Hw. unfold ScaleDown. rewrite Hr. cbn [negb].
  rewrite bool_decide_eq_false_2 by (unfold WorkerCount in Hm; lia).
  rewrite Hw, last_snoc. cbn [length]. rewrite length_app, Nat.add_sub. rewrite take_app_length.
  assert (∀ w', w_pending w' = [] →
    let r := (Worker.Stop now (pool_batchStore p) (pool_txIndex p) w').1 in
    c_store r = pool_batchStore p ∧ c_index r = pool_txIndex p ∧ c_batch r = None) as Hstop.
  { intros w' E'. unfold Worker.Stop. destruct (w_running w'); [|done].
    unfold tryCreateBatch, finishBatch. cbn [w_pending]. change (w_pending (w' <| w_running := false |>)) with (w_pending w').
    rewrite E'. done. }
  assert (∃ w', DrainPending w = (w', tx <$> w_pending w) ∧ w_pending w' = []) as (w' & -> & E').
  { unfold DrainPending. case_bool_decide as E; [|by eexists]. exists w.
    destruct (w_pending w) eqn:Ep; [done|cbn in E; lia]. }
  pose proof (Hstop w' E') as Hs. destruct (Worker.Stop now _ _ w') as [r ?].
  destruct Hs as (E1 & E2 & E3). cbn [fst] in E1, E2, E3. rewrite E1, E2, E3. clear.
  assert ((if bool_decide (zlen (tx <$> w_pending w) > 0) && bool_decide (zlen ws > 0)
     then redistribute (tx <$> w_pending w) (pool_txIndex p) ws else ws) =
     redistribute (tx <$> w_pending w) (pool_txIndex p) ws) as ->; [|by destruct p].
  destruct (bool_decide (zlen (tx <$> w_pending w) > 0)) eqn:E1; cbn [andb].
  - destruct (bool_decide_reflect (zlen ws > 0)) as [E2|E2]; [done|].
    destruct ws as [|? ?]; [clear E1|cbn in E2; lia].
    induction (tx <$> w_pending w) as [|t txs IH]; [done|exact IH].
  - apply bool_decide_eq_false in E1. destruct (tx <$> w_pending w); [done|cbn in E1; lia].
Qed.

(** ** Runs of a pool *)
Inductive pool_op :=
  | PStart (now : Z)
  | PStop (now : Z)
  | PAddTx (t : Transaction)
  | PTick (now : Z) (i : nat)
  | PAck (now : Z) (d : Hash) (v : Z)
  | PScaleUp
  | PScaleDown (now : Z)
  | PSetRound (r : Z)
  | PSetEpoch (e : Z)
  | PUpdateQuorum (q : Z).

Definition pool_exec p (op : pool_op) : Pool I B :=
  match op with
  | PStart now => (Start now p).1.1
  | PStop now => (Stop now p).1.1
  | PAddTx t => (AddTx t p).1.1
  | PTick now i => (tick_worker now i p).1
  | PAck now d v => (Pool_RecordAck now d v p).1
  | PScaleUp => (ScaleUp p).1
  | PScaleDown now => (ScaleDown now p).1.1
  | PSetRound r => SetRound p r
  | PSetEpoch e => SetEpoch p e
  | PUpdateQuorum q => UpdateQuorum p q
  end.

Definition rescales (op : pool_op) : bool :=
  match op with PScaleUp | PScaleDown _ => true | _ => false end.

(** The limits make sense. *)
Record config_ok (c : PoolConfig) : Prop := {
  co_min : 0 ≤ MinWorkers c ≤ MaxWorkers c;
  co_txs : 0 ≤ MaxPendingTxs (WorkerCfg c);
  co_bytes : 0 ≤ MaxPendingBytes (WorkerCfg c)
}.

Record pool_ok (c : PoolConfig) p : Prop := {
  po_cfg : pool_cfg p = c;
  po_up : Forall (worker_up (WorkerCfg c)) (workers p);
  po_count : if pool_running p then MinWorkers c ≤ WorkerCount p ≤ MaxWorkers c else workers p = []
}.

(** A worker fresh from [addWorkerLocked]. *)
Definition fresh_worker p : Worker :=
  let n := wrap 32 (nextID p + 1) in
  (Worker.SetEpoch (Worker.SetRound
     (Worker.New (u16 (wrap 32 (n - 1))) (pool_validatorID p) (WorkerCfg (pool_cfg p)) (pool_quorum p))
     (pool_round p)) (pool_epoch p)) <| w_running := true |>.

Lemma addWorkerLocked_eq p :
  addWorkerLocked p =
    (p <| nextID := wrap 32 (nextID p + 1) |> <| workers := workers p ++ [fresh_worker p] |>, None).
Proof. done. Qed.

Lemma fresh_worker_up p : config_ok (pool_cfg p) → worker_up (WorkerCfg (pool_cfg p)) (fresh_worker p).
Proof.
  intros [_ H1 H2]. split; [|done..].
  by eapply worker_ok_frame; [apply (worker_ok_New 0 0 (WorkerCfg (pool_cfg p)) 0)|..].
Qed.

Lemma start_workers_spec now n p :
  config_ok (pool_cfg p) → Forall (worker_up (WorkerCfg (pool_cfg p))) (workers p) →
  let '(p', out, err) := start_workers now n p in
  err = None ∧ out = [] ∧ pool_cfg p' = pool_cfg p ∧ pool_running p' = pool_running p ∧
  ∃ new, workers p' = workers p ++ new ∧ length new = n ∧
    Forall (worker_up (WorkerCfg (pool_cfg p))) new ∧ Forall (λ w, w_pending w = []) new.
Proof.
  revert p. induction n as [|n IH]; intros p Hc Hup; cbn [start_workers].
  { split_and!; try done. exists []. by rewrite app_nil_r. }
  rewrite addWorkerLocked_eq. set (p1 := _ <| workers := _ |>).
  pose proof (fresh_worker_up p Hc) as Hf. specialize (IH p1 Hc).
  destruct (start_workers now n p1) as [[p' out] err].
  destruct IH as (-> & -> & -> & -> & new & -> & <- & H1 & H2).
  { apply Forall_app. split; [exact Hup|by constructor]. }
  split_and!; try done. exists (fresh_worker p :: new). cbn [workers].
  split_and!; [|done|by constructor|by constructor]. unfold p1. cbn. by rewrite <-app_assoc.
Qed.

Lemma tryCreateBatch_up c now (store : option B) (index : option I) w :
  worker_up c w → worker_up c (c_worker (tryCreateBatch now store index w)).
Proof.
  intros [Hok Hr Hc]. split; [by apply tryCreateBatch_ok|..];
    rewrite <-?Hr, <-?Hc; unfold tryCreateBatch, finishBatch; case_bool_decide; try done;
    pose proof (take_txs_spec w Hok) as Ht; destruct (take_txs w) as [w1 chosen];
    destruct Ht as (_ & _ & _ & ->);
    (destruct (match store with Some _ => _ | None => _ end) as [s [e|]];
     [cbn [c_worker]; rewrite ?requeue_running, ?requeue_cfg; done|]);
    by destruct (RecordAck _ _ _ _) as [[? ?] ?].
Qed.

(** Workers that differ only in round, epoch and acknowledgements. *)
Record same_queue (w w' : Worker) : Prop := {
  sq_pending : w_pending w' = w_pending w;
  sq_set : pendingSet w' = pendingSet w;
  sq_bytes : pendingBytes w' = pendingBytes w;
  sq_cfg : cfg w' = cfg w;
  sq_running : w_running w' = w_running w
}.

Lemma same_queue_up c ws ws' :
  Forall2 same_queue ws ws' → Forall (worker_up c) ws → Forall (worker_up c) ws'.
Proof.
  intros H. induction H as [|w w' ws ws' [] _ IH]; intros Hf; [done|]. inversion Hf as [|? ? [? ? ?]]; subst.
  constructor; [|by apply IH]. split; [by eapply worker_ok_frame|congruence|congruence].
Qed.

Lemma same_queue_routed ws ws' : Forall2 same_queue ws ws' → well_routed ws → well_routed ws'.
Proof.
  intros H Hr i w' e Hl He. rewrite <-(Forall2_length _ _ _ H).
  destruct (Forall2_lookup_r _ _ _ _ _ H Hl) as (w & Hw & [Hp _ _ _ _]). rewrite Hp in He. by eapply Hr.
Qed.

Lemma same_queue_map f ws : (∀ w, same_queue w (f w)) → Forall2 same_queue ws (f <$> ws).
Proof. intros H. induction ws; constructor; auto. Qed.

Lemma record_ack_same now d v ws : Forall2 same_queue ws (record_ack_workers now d v ws).1.
Proof.
  assert (∀ w, same_queue w (Worker_RecordAck now d v w).1.1) as Hw.
  { intros w. unfold Worker_RecordAck. by destruct (RecordAck _ _ _ _) as [[? ?] ?]. }
  induction ws as [|w ws IH]; cbn [record_ack_workers]; [constructor|]. specialize (Hw w).
  destruct (Worker_RecordAck now d v w) as [[w' [|]] ?]; cbn [fst] in Hw.
  - constructor; [done|]. clear. induction ws; constructor; done.
  - destruct (record_ack_workers now d v ws) as [ws' r]. by constructor.
Qed.

(** Batch creation only removes hashes from the queue. *)
Lemma tryCreateBatch_hashes now (store : option B) (index : option I) w e :
  worker_ok w → e ∈ w_pending (c_worker (tryCreateBatch now store index w)) →
  ∃ e', e' ∈ w_pending w ∧ entry_hash e' = entry_hash e.
Proof.
  intros Hok He. destruct (decide (w_pending w = [])) as [E|Hne].
  { unfold tryCreateBatch in He. rewrite bool_decide_eq_true_2 in He by (by rewrite E).
    cbn [c_worker] in He. rewrite E in He. by apply not_elem_of_nil in He. }
  destruct (tryCreateBatch_spec now store index w Hok Hne) as (_ & Hgood & Hbad).
  pose proof (take_txs_spec w Hok) as Ht. destruct (take_txs w) as [w1 chosen]. cbn [fst snd] in *.
  destruct Ht as (_ & _ & Hsel & _). destruct (match store with Some _ => _ | None => _ end).
  - destruct Hbad as (_ & _ & Hp); [done|].
    assert (tx e ∈ tx <$> w_pending w) as (e' & E & He')%list_elem_of_fmap.
    { rewrite <-Hp. by apply list_elem_of_fmap_2. }
    exists e'. split; [done|]. unfold entry_hash. by rewrite E.
  - destruct Hgood as (_ & Hp & _); [done|]. rewrite Hp in He. exists e. split; [|done].
    rewrite (sel_perm _ _ _ _ _ _ _ _ Hsel), elem_of_app. by right.
Qed.

(** An operation that keeps the configuration, the running flag and the number of workers. *)
Lemma pool_ok_workers c p p' :
  pool_ok c p → pool_cfg p' = pool_cfg p → pool_running p' = pool_running p →
  length (workers p') = length (workers p) → Forall (worker_up (WorkerCfg c)) (workers p') → pool_ok c p'.
Proof.
  intros [Hc Hu Hn] E1 E2 E3 Hu'. split; [congruence|done|]. rewrite E2. unfold WorkerCount in *.
  destruct (pool_running p); [by rewrite E3|]. rewrite Hn in E3. by apply length_zero_iff_nil.
Qed.

Lemma pool_ok_same c p p' :
  pool_ok c p → pool_cfg p' = pool_cfg p → pool_running p' = pool_running p →
  Forall2 same_queue (workers p) (workers p') → pool_ok c p'.
Proof.
  intros Hok E1 E2 Hs. apply (pool_ok_workers c p); try done.
  - symmetry. by eapply Forall2_length.
  - eapply same_queue_up, po_up; done.
Qed.

Lemma Start_ok now c p : config_ok c → pool_ok c p → pool_ok c (Start now p).1.1.
Proof.
  intros Hc Hok. pose proof Hok as [Hcfg Hup Hn]. unfold Start.
  destruct (pool_running p) eqn:Er; [done|].
  pose proof (start_workers_spec now (Z.to_nat (MinWorkers (pool_cfg p))) (p <| pool_running := true |>)) as Hs.
  destruct (start_workers _ _ _) as [[p' out] err]. cbn [fst].
  destruct Hs as (_ & _ & E1 & E2 & new & E3 & Hl & H1 & _); [by rewrite <-Hcfg in Hc|by rewrite <-Hcfg in Hup|].
  cbn in E1, E2, E3, H1. rewrite Hcfg in *. split; [done| |].
  - rewrite E3. by apply Forall_app.
  - rewrite E2. unfold WorkerCount. rewrite E3, Hn. cbn. destruct (co_min _ Hc). lia.
Qed.

Lemma ScaleUp_ok c p : config_ok c → pool_ok c p → pool_ok c (ScaleUp p).1.
Proof.
  intros Hc Hok. pose proof Hok as [Hcfg Hup Hn]. unfold ScaleUp.
  destruct (pool_running p) eqn:Er; [|done]. cbn [negb].
  case_bool_decide as Hm; [done|]. rewrite addWorkerLocked_eq. cbn [fst].
  pose proof (fresh_worker_up p) as Hf. rewrite Hcfg in *. split; [done| |].
  - cbn. apply Forall_app. split; [done|]. constructor; [by apply Hf|done].
  - cbn. rewrite Er. unfold WorkerCount in *. cbn. rewrite length_app. cbn. lia.
Qed.

(** [ScaleDown] does nothing, or removes the last worker. *)
Lemma ScaleDown_cases now p :
  0 ≤ MinWorkers (pool_cfg p) →
  (ScaleDown now p = (p, [], false)) ∨
  (pool_running p = true ∧ MinWorkers (pool_cfg p) < WorkerCount p ∧ ∃ ws w, workers p = ws ++ [w] ∧
   ScaleDown now p = (p <| workers := redistribute (tx <$> w_pending w) (pool_txIndex p) ws |>, [], true)).
Proof.
  intros H0. destruct (pool_running p) eqn:Er; [|left; unfold ScaleDown; by rewrite Er].
  destruct (decide (WorkerCount p ≤ MinWorkers (pool_cfg p))) as [Hm|Hm].
  { left. unfold ScaleDown. rewrite Er. cbn [negb]. by rewrite bool_decide_eq_true_2. }
  right. destruct (exists_last (l := workers p)) as (ws & w & Hw).
  { intros E. unfold WorkerCount in Hm. rewrite E in Hm. cbn in Hm. lia. }
  split_and!; [done|lia|]. exists ws, w. split; [done|]. apply ScaleDown_eq; [done|lia|done].
Qed.

Lemma ScaleDown_ok now c p : config_ok c → pool_ok c p → pool_ok c (ScaleDown now p).1.1.
Proof.
  intros Hc Hok. pose proof Hok as [Hcfg Hup Hn].
  destruct (ScaleDown_cases now p) as [->|(Er & Hm & ws & w & Hw & ->)]; [|done|].
  { rewrite Hcfg. apply Hc. }
  cbn [fst]. rewrite Er in Hn. rewrite Hw in Hup. apply Forall_app in Hup as [Hup _].
  destruct (redistribute_up (WorkerCfg c) (tx <$> w_pending w) ws (pool_txIndex p) Hup) as [H1 H2].
  split; [done|done|]. cbn. rewrite Er. unfold WorkerCount in *. cbn. rewrite H2.
  rewrite Hw, Hcfg, length_app in *. cbn in *. lia.
Qed.

Lemma AddTx_pool t p :
  (AddTx t p).1.1 = p ∨
  pool_running p = true ∧ (AddTx t p).1.1 = p <| workers := (route_tx t (workers p) (pool_txIndex p)).1.1 |>.
Proof.
  unfold AddTx. destruct (pool_running p); [|by left]. cbn [negb]. case_bool_decide; [by left|].
  right. split; [done|]. by destruct (route_tx _ _ _) as [[ws ?] ?].
Qed.

Lemma pool_exec_ok c p op : config_ok c → pool_ok c p → pool_ok c (pool_exec p op).
Proof.
  intros Hc Hok. pose proof Hok as [Hcfg Hup Hn]. destruct op; cbn [pool_exec].
  - by apply Start_ok.
  - unfold Stop. destruct (pool_running p); [|done]. cbn [negb].
    destruct (stop_workers _ _ _ _) as [[? ?] ?]. by split.
  - destruct (AddTx_pool t p) as [->|[_ ->]]; [done|].
    apply (pool_ok_workers c p); try done; [apply route_tx_length|by apply route_tx_up].
  - unfold tick_worker. destruct (workers p !! i) as [w|] eqn:E; [|done].
    apply (pool_ok_workers c p); try done; [apply length_insert|].
    apply Forall_insert; [done|]. apply tryCreateBatch_up. rewrite Forall_lookup in Hup. by eapply Hup.
  - unfold Pool_RecordAck. pose proof (record_ack_same now d v (workers p)) as Hs.
    destruct (record_ack_workers _ _ _ _) as [ws ?]. by apply (pool_ok_same c p).
  - by apply ScaleUp_ok.
  - by apply ScaleDown_ok.
  - apply (pool_ok_same c p); try done. by apply same_queue_map.
  - apply (pool_ok_same c p); try done. by apply same_queue_map.
  - apply (pool_ok_same c p); try done. by apply same_queue_map.
Qed.

Lemma pool_exec_routed c p op :
  rescales op = false → config_ok c → pool_ok c p → well_routed (workers p) →
  well_routed (workers (pool_exec p op)).
Proof.
  intros Hop Hc Hok Hr. pose proof Hok as [Hcfg Hup Hn]. destruct op; try discriminate Hop; cbn [pool_exec].
  - unfold Start. destruct (pool_running p) eqn:Er; [done|].
    pose proof (start_workers_spec now (Z.to_nat (MinWorkers (pool_cfg p))) (p <| pool_running := true |>)) as Hs.
    destruct (start_workers _ _ _) as [[p' out] err]. cbn [fst].
    destruct Hs as (_ & _ & _ & _ & new & E3 & _ & _ & H2); [by rewrite <-Hcfg in Hc|by rewrite <-Hcfg in Hup|].
    cbn in E3. rewrite E3, Hn. intros i w e Hi He. rewrite Forall_lookup in H2.
    rewrite (H2 i w) in He by done. by apply not_elem_of_nil in He.
  - unfold Stop. destruct (pool_running p); [|done]. cbn [negb].
    by destruct (stop_workers _ _ _ _) as [[? ?] ?].
  - destruct (AddTx_pool t p) as [->|[_ ->]]; [done|]. apply route_tx_routed; [|done].
    eapply Forall_impl; [exact Hup|]. by intros w [].
  - unfold tick_worker. destruct (workers p !! i) as [w|] eqn:E; [|done]. cbn [fst workers].
    intros j w' e. change (workers (_ <| pool_txIndex := _ |>)) with
      (<[i := c_worker (tryCreateBatch now (pool_batchStore p) (pool_txIndex p) w)]> (workers p)).
    rewrite length_insert. destruct (decide (i = j)) as [->|Hne].
    + rewrite list_lookup_insert_eq by (by eapply lookup_lt_Some). intros [= <-] He.
      destruct (tryCreateBatch_hashes now (pool_batchStore p) (pool_txIndex p) w e) as (e' & He' & <-);
        [|done|by eapply Hr]. rewrite Forall_lookup in Hup. by eapply up_ok, Hup.
    + rewrite list_lookup_insert_ne by done. apply Hr.
  - unfold Pool_RecordAck. pose proof (record_ack_same now d v (workers p)) as Hs.
    destruct (record_ack_workers _ _ _ _) as [ws ?]. by apply (same_queue_routed (workers p)).
  - apply (same_queue_routed (workers p)); [|done]. by apply same_queue_map.
  - apply (same_queue_routed (workers p)); [|done]. by apply same_queue_map.
  - apply (same_queue_routed (workers p)); [|done]. by apply same_queue_map.
Qed.

Lemma pool_run_ok c p ops : config_ok c → pool_ok c p → pool_ok c (fold_left pool_exec ops p).
Proof. intros Hc. revert p. induction ops; intros p Hok; [done|]. cbn. by apply IHops, pool_exec_ok. Qed.

Lemma NewPool_ok c v s x q : pool_ok c (NewPool c v s x q).
Proof. by split. Qed.

(** The pool keeps its bounds: with [0 <= MinWorkers <= MaxWorkers], after
    any sequence of starts, stops, additions, batch creations, acknowledgements
    and scalings, a running pool has between [MinWorkers] and [MaxWorkers]
    workers and a stopped one has none; every worker is running with the pool's
    configuration; and the pool as a whole never holds more than the worker count
    times the limits of one worker. *)
Theorem pool_bounds c v s x q ops :
  config_ok c →
  let p := fold_left pool_exec ops (NewPool c v s x q) in
  (pool_running p = true → MinWorkers c ≤ WorkerCount p ≤ MaxWorkers c) ∧
  (pool_running p = false → workers p = []) ∧
  Forall (λ w, w_running w = true ∧ cfg w = WorkerCfg c ∧ worker_ok w) (workers p) ∧
  PendingCount p ≤ WorkerCount p * MaxPendingTxs (WorkerCfg c) ∧
  PendingBytes p ≤ WorkerCount p * MaxPendingBytes (WorkerCfg c).
Proof.
  intros Hc p. destruct (pool_run_ok c (NewPool c v s x q) ops Hc (NewPool_ok c v s x q)) as [Hcfg Hup Hn].
  fold p in Hcfg, Hup, Hn. split_and!.
  - intros E. by rewrite E in Hn.
  - intros E. by rewrite E in Hn.
  - eapply Forall_impl; [exact Hup|]. by intros w [? ? ?].
  - apply (sum_over_bound Worker.PendingCount). intros w Hw.
    destruct (proj1 (Forall_forall _ _) Hup w Hw) as [Hok _ <-]. apply Hok.
  - apply (sum_over_bound pendingBytes). intros w Hw.
    destruct (proj1 (Forall_forall _ _) Hup w Hw) as [Hok _ <-]. apply Hok.
Qed.

(** C22. Routing by hash deduplicates: as long as the pool is not rescaled, a
    transaction that is queued at all is queued once in the whole pool, with the
    worker its hash names. *)
Theorem pool_routes_once c v s x q ops i j wi wj ei ej :
  config_ok c → Forall (λ op, rescales op = false) ops →
  let p := fold_left pool_exec ops (NewPool c v s x q) in
  workers p !! i = Some wi → ei ∈ w_pending wi →
  workers p !! j = Some wj → ej ∈ w_pending wj →
  Tx_Hash (tx ei) = Tx_Hash (tx ej) →
  i = j ∧ ei = ej ∧ i = worker_index (Tx_Hash (tx ei)) (length (workers p)).
Proof.
  intros Hc Hops p Hi Hei Hj Hej E.
  assert (pool_ok c p ∧ well_routed (workers p)) as [Hok Hr].
  { unfold p. assert (pool_ok c (NewPool c v s x q)) as H by apply NewPool_ok.
    assert (well_routed (workers (NewPool c v s x q))) as H' by done. clear p Hi Hj. revert H H'.
    generalize (NewPool c v s x q). induction Hops as [|op ops Hop _ IH]; intros p H H'; [done|].
    cbn [fold_left]. apply IH; [by apply pool_exec_ok|by apply (pool_exec_routed c)]. }
  pose proof (Hr i wi ei Hi Hei) as Ei. pose proof (Hr j wj ej Hj Hej) as Ej. unfold entry_hash in *.
  assert (i = j) as Eij by (by rewrite Ei, Ej, E). rewrite <-Eij, Hi in Hj. injection Hj as <-.
  split_and!; [done| |done].
  pose proof (proj1 (Forall_lookup _ _) (po_up _ _ Hok) i wi Hi) as [Hw _ _].
  pose proof (wk_nodup _ Hw) as Hnd.
  apply list_elem_of_lookup in Hei as [a Ha]. apply list_elem_of_lookup in Hej as [b Hb].
  assert (a = b) as ->; [|congruence].
  apply (NoDup_lookup (entry_hash <$> w_pending wi) a b (entry_hash ei)); [done|..]; rewrite list_lookup_fmap.
  - by rewrite Ha.
  - rewrite Hb. cbn. unfold entry_hash. by rewrite E.
Qed.

(** C23. Scaling down loses nothing when there is room: if [MinWorkers] is
    positive, the pool's queues together fit the limits of one worker, and the
    validator still admits what is queued, then every transaction the pool had,
    queued or indexed, it still has after [ScaleDown]. *)
Theorem scale_down_keeps_transactions c now p h :
  config_ok c → pool_ok c p → 0 < MinWorkers c →
  PendingCount p ≤ MaxPendingTxs (WorkerCfg c) → PendingBytes p ≤ MaxPendingBytes (WorkerCfg c) →
  (∀ w e, w ∈ workers p → e ∈ w_pending w → admits (tx e)) →
  Pool_HasTx h p = true → Pool_HasTx h (ScaleDown now p).1.1 = true.
Proof.
  intros Hc [Hcfg Hup Hn] H0 Hcount Hbytes Hadm Hh.
  destruct (ScaleDown_cases now p) as [->|(Er & Hm & ws & w & Hw & ->)]; [rewrite Hcfg; lia|done|]. cbn [fst].
  rewrite Hcfg in Hm. change (sum_over Worker.PendingCount (workers p) ≤ MaxPendingTxs (WorkerCfg c)) in Hcount.
  change (sum_over pendingBytes (workers p) ≤ MaxPendingBytes (WorkerCfg c)) in Hbytes.
  unfold WorkerCount in Hm. rewrite Hw in *. unfold sum_over in Hcount, Hbytes. rewrite length_app in Hm. cbn in Hm.
  rewrite fold_left_add_app, (fold_left_add_cons Worker.PendingCount) in Hcount.
  rewrite fold_left_add_app, (fold_left_add_cons pendingBytes) in Hbytes. cbn [fold_left] in Hcount, Hbytes.
  apply Forall_app in Hup as [Hup Hlast]. apply Forall_singleton in Hlast as [Hok _ _].
  assert (room (WorkerCfg c) ws (tx <$> w_pending w)) as Hroom.
  { split; [done|intros ->; cbn in Hm; lia| | |].
    - rewrite length_fmap. unfold sum_over, Worker.PendingCount in *. lia.
    - rewrite sum_tx_sizes, <-(wk_bytes _ Hok). unfold sum_over. lia.
    - intros t (e & -> & He)%list_elem_of_fmap. apply (Hadm w e); [|done]. set_solver. }
  destruct (redistribute_spec _ _ _ (pool_txIndex p) Hroom) as [H1 H2].
  unfold Pool_HasTx in *. apply existsb_exists. apply existsb_exists in Hh as (w' & Hin & Hh).
  rewrite Hw in Hin. apply list_elem_of_In in Hin.
  assert (pool_has (pool_txIndex p) (redistribute (tx <$> w_pending w) (pool_txIndex p) ws) h) as (w2 & Hw2 & Hh2).
  { apply elem_of_app in Hin as [Hin|Hin%list_elem_of_singleton]; [apply H2; by exists w'|]. subst w'.
    unfold Worker_HasTx in Hh. destruct (decide (h ∈ pendingSet w)) as [Hp|Hp].
    - apply (wk_set _ Hok), list_elem_of_fmap in Hp as (e & -> & He). apply H1. by apply list_elem_of_fmap_2.
    - destruct ws as [|w0 ws]; [cbn in Hm; lia|]. apply H2. exists w0. split; [left|].
      unfold Worker_HasTx. by case_decide. }
  exists w2. split; [by apply list_elem_of_In|done].
Qed.
End pool.

(** ** Closed examples *)
Module PoolExample.
Definition config : PoolConfig := mk_PoolConfig 2 3 WorkerExample.config.
Definition fresh : Pool MemoryTxIndex MemoryBatchStore :=
  NewPool config 0 (Some NewMemoryBatchStore) (Some NewMemoryTxIndex) 3.
Definition ops : list pool_op :=
  [PStart 0; PAddTx [5]; PAddTx [9; 1]; PAddTx [5]; PAddTx [7]; PAddTx [8]; PTick 1 0; PAck 2 [] 1; PSetRound 4].
Definition run (l : list pool_op) : Pool MemoryTxIndex MemoryBatchStore :=
  fold_left (pool_exec (Some WorkerExample.fees)) l fresh.
(** The transactions queued, worker by worker. *)
Definition queues (p : Pool MemoryTxIndex MemoryBatchStore) : list (list Transaction) :=
  (λ w, tx <$> w_pending w) <$> workers p.
End PoolExample.

Lemma pool_example_config_ok : config_ok PoolExample.config.
Proof. split; vm_compute; intuition discriminate. Qed.

Lemma pool_bounds_witness :
  let p := fold_left (pool_exec (Some WorkerExample.fees)) (PoolExample.ops ++ [PScaleUp; PScaleUp; PScaleDown 5])
    (NewPool PoolExample.config 0
       (Some NewMemoryBatchStore) (Some NewMemoryTxIndex) 3) in
  MinWorkers PoolExample.config ≤ WorkerCount p ≤ MaxWorkers PoolExample.config.
Proof.
  refine (proj1 (pool_bounds _ PoolExample.config 0 _ _ 3 _ pool_example_config_ok) _).
  by vm_compute.
Defined.

(** Rescaling breaks the deduplication: after [ScaleUp] a transaction that is
    still queued is routed to another worker and queued again. *)
Example pool_scaling_duplicates :
  PoolExample.queues (PoolExample.run (PoolExample.ops ++ [PScaleUp; PAddTx [5]])) =
    [[[5]]; [[9; 1]; [5]; [8]]; []].
Proof. by vm_compute. Qed.

Lemma pool_routes_once_witness :
  let p := fold_left (pool_exec (Some WorkerExample.fees)) PoolExample.ops
    (NewPool PoolExample.config 0 (Some NewMemoryBatchStore) (Some NewMemoryTxIndex) 3) in
  let w := default (New 0 0 WorkerExample.config 3) (workers p !! 1%nat) in
  let e := w_pending w !!! 0%nat in
  1%nat = 1%nat ∧ e = e ∧ 1%nat = worker_index (Tx_Hash (tx e)) (length (workers p)).
Proof.
  intros p w e.
  refine (pool_routes_once (Some WorkerExample.fees) PoolExample.config 0 _ _ 3 PoolExample.ops 1 1 w w e e
    pool_example_config_ok _ _ _ _ _ eq_refl).
  - repeat constructor.
  - apply some_default. by vm_compute.
  - apply list_elem_of_lookup. exists 0%nat. by vm_compute.
  - apply some_default. by vm_compute.
  - apply list_elem_of_lookup. exists 0%nat. by vm_compute.
Defined.

Lemma scale_down_keeps_transactions_witness :
  let p := fold_left (pool_exec (Some WorkerExample.fees)) (PoolExample.ops ++ [PScaleUp; PAddTx [9; 1]; PAddTx [3]])
    (NewPool PoolExample.config 0 (Some NewMemoryBatchStore) (Some NewMemoryTxIndex) 3) in
  Pool_HasTx (Tx_Hash [3]) (ScaleDown (Some WorkerExample.fees) 5 p).1.1 = true.
Proof.
  refine (scale_down_keeps_transactions (Some WorkerExample.fees) PoolExample.config 5 _ (Tx_Hash [3])
    pool_example_config_ok _ _ _ _ _ _).
  - apply pool_run_ok; [apply pool_example_config_ok|apply NewPool_ok].
  - by vm_compute.
  - by vm_compute.
  - by vm_compute.
  - intros w e _ _. by eexists.
  - by vm_compute.
Defined.
