(* ===== verification/Flow.v ===== *)
(** Flow control (gc/flow.go): the gap between the current and the committed
    round and the counters of pending batches and headers, with the pause state
    and its callbacks.  Each method is modelled as the sequence of its atomic
    accesses; a method that may call back returns the callbacks it makes. *)
From S2P Require Import Prelude.
Local Open Scope Z_scope.

Record FlowConfig := mk_FlowConfig {
  MaxUncommittedRounds : Z;
  MaxPendingBatches : Z;
  MaxPendingHeaders : Z
}.

Definition DefaultFlowConfig : FlowConfig := mk_FlowConfig 100 1000 100.

Record FlowController := mk_FlowController {
  fc_cfg : FlowConfig;
  fc_currentRound : Z;
  fc_committedRound : Z;
  pendingBatches : Z;
  pendingHeaders : Z;
  paused : bool;
  pauseCount : Z;
  resumeCount : Z
}.
#[export] Instance eta_FlowController : Settable FlowController := λ f,
  mk_FlowController (fc_cfg f) (fc_currentRound f) (fc_committedRound f) (pendingBatches f)
    (pendingHeaders f) (paused f) (pauseCount f) (resumeCount f).

Implicit Types f : FlowController.

Definition NewFlowController (cfg : FlowConfig) : FlowController := mk_FlowController cfg 0 0 0 0 false 0 0.

Definition UncommittedGap f : Z :=
  let current := fc_currentRound f in
  let committed := fc_committedRound f in
  if bool_decide (current ≤ committed) then 0 else u64 (current - committed).

Definition CanCreateHeader f : bool :=
  if bool_decide (UncommittedGap f >= MaxUncommittedRounds (fc_cfg f)) then false
  else if bool_decide (MaxPendingHeaders (fc_cfg f) > 0) &&
          bool_decide (pendingHeaders f >= MaxPendingHeaders (fc_cfg f)) then false
  else true.

Definition IsPaused f : bool := paused f.

Definition CanCreateBatch f : bool :=
  if bool_decide (MaxPendingBatches (fc_cfg f) > 0) &&
     bool_decide (pendingBatches f >= MaxPendingBatches (fc_cfg f)) then false
  else negb (IsPaused f).

Definition CanAdvanceRound f : bool := CanCreateHeader f.

Inductive flow_event := OnPause | OnResume.

#[export] Instance flow_event_eq_dec : EqDecision flow_event.
Proof. solve_decision. Defined.

Definition checkFlowControl f : FlowController * list flow_event :=
  let shouldPause := false in
  let shouldPause :=
    if bool_decide (UncommittedGap f >= MaxUncommittedRounds (fc_cfg f)) then true else shouldPause in
  let shouldPause :=
    if bool_decide (MaxPendingBatches (fc_cfg f) > 0) &&
       bool_decide (pendingBatches f >= MaxPendingBatches (fc_cfg f)) then true else shouldPause in
  let shouldPause :=
    if bool_decide (MaxPendingHeaders (fc_cfg f) > 0) &&
       bool_decide (pendingHeaders f >= MaxPendingHeaders (fc_cfg f)) then true else shouldPause in
  if shouldPause then
    if negb (paused f) then (f <| paused := true |> <| pauseCount := u64 (pauseCount f + 1) |>, [OnPause])
    else (f <| paused := true |>, [])
  else
    if paused f then (f <| paused := false |> <| resumeCount := u64 (resumeCount f + 1) |>, [OnResume])
    else (f <| paused := false |>, []).

Definition UpdateCurrentRound (round : Z) f : FlowController * list flow_event :=
  checkFlowControl (f <| fc_currentRound := round |>).
Definition UpdateCommittedRound (round : Z) f : FlowController * list flow_event :=
  checkFlowControl (f <| fc_committedRound := round |>).
Definition AddPendingBatch f : FlowController * list flow_event :=
  checkFlowControl (f <| pendingBatches := pendingBatches f + 1 |>).
Definition AddPendingHeader f : FlowController * list flow_event :=
  checkFlowControl (f <| pendingHeaders := pendingHeaders f + 1 |>).

Definition RemovePendingBatch f : FlowController * list flow_event :=
  let val := pendingBatches f - 1 in
  let f := f <| pendingBatches := val |> in
  let f := if bool_decide (val < 0) then f <| pendingBatches := 0 |> else f in
  checkFlowControl f.
Definition RemovePendingHeader f : FlowController * list flow_event :=
  let val := pendingHeaders f - 1 in
  let f := f <| pendingHeaders := val |> in
  let f := if bool_decide (val < 0) then f <| pendingHeaders := 0 |> else f in
  checkFlowControl f.

Definition Reset f : FlowController :=
  f <| fc_currentRound := 0 |> <| fc_committedRound := 0 |> <| pendingBatches := 0 |>
    <| pendingHeaders := 0 |> <| paused := false |> <| pauseCount := 0 |> <| resumeCount := 0 |>.

(** ** When the controller has to be paused *)
Definition over_limits f : Prop :=
  MaxUncommittedRounds (fc_cfg f) ≤ UncommittedGap f ∨
  (0 < MaxPendingBatches (fc_cfg f) ∧ MaxPendingBatches (fc_cfg f) ≤ pendingBatches f) ∨
  (0 < MaxPendingHeaders (fc_cfg f) ∧ MaxPendingHeaders (fc_cfg f) ≤ pendingHeaders f).

#[export] Instance over_limits_dec f : Decision (over_limits f).
Proof. unfold over_limits. apply _. Defined.

(** The callbacks that take one pause state to another. *)
Definition crossing (before after : bool) : list flow_event :=
  match before, after with
  | false, true => [OnPause]
  | true, false => [OnResume]
  | _, _ => []
  end.

Definition events_of (e : flow_event) (l : list flow_event) : Z := zlen (filter (e =.) l).

Lemma checkFlowControl_eq f :
  let after := bool_decide (over_limits f) in
  checkFlowControl f =
    (f <| paused := after |>
       <| pauseCount := if negb (paused f) && after then u64 (pauseCount f + 1) else pauseCount f |>
       <| resumeCount := if paused f && negb after then u64 (resumeCount f + 1) else resumeCount f |>,
     crossing (paused f) after).
Proof.
  intros after. unfold checkFlowControl.
  assert ((if bool_decide (MaxPendingHeaders (fc_cfg f) > 0) &&
              bool_decide (pendingHeaders f >= MaxPendingHeaders (fc_cfg f)) then true
           else if bool_decide (MaxPendingBatches (fc_cfg f) > 0) &&
              bool_decide (pendingBatches f >= MaxPendingBatches (fc_cfg f)) then true
           else if bool_decide (UncommittedGap f >= MaxUncommittedRounds (fc_cfg f)) then true else false) = after)
    as ->.
  { unfold after, over_limits. repeat case_bool_decide; cbn [andb]; try done; exfalso; lia. }
  destruct f as [c a b pb ph [|] pc rc]; destruct after; done.
Qed.

(** ** Runs *)
Inductive flow_op :=
  | FCurrent (round : Z) | FCommitted (round : Z)
  | FAddBatch | FRemoveBatch | FAddHeader | FRemoveHeader.

Definition flow_exec f (op : flow_op) : FlowController * list flow_event :=
  match op with
  | FCurrent r => UpdateCurrentRound r f
  | FCommitted r => UpdateCommittedRound r f
  | FAddBatch => AddPendingBatch f
  | FRemoveBatch => RemovePendingBatch f
  | FAddHeader => AddPendingHeader f
  | FRemoveHeader => RemovePendingHeader f
  end.

Fixpoint flow_run f (ops : list flow_op) : FlowController * list flow_event :=
  match ops with
  | [] => (f, [])
  | op :: ops' => let '(f, out) := flow_exec f op in
                  let '(f, out') := flow_run f ops' in (f, out ++ out')
  end.

(** Every operation is a change of one counter and then the check. *)
Lemma flow_exec_check f op :
  ∃ f', flow_exec f op = checkFlowControl f' ∧ fc_cfg f' = fc_cfg f ∧ paused f' = paused f ∧
    pauseCount f' = pauseCount f ∧ resumeCount f' = resumeCount f ∧
    (0 ≤ pendingBatches f → 0 ≤ pendingBatches f') ∧ (0 ≤ pendingHeaders f → 0 ≤ pendingHeaders f').
Proof.
  destruct op; cbn [flow_exec]; eexists; (split; [reflexivity|]);
    repeat (case_bool_decide; cbn in * ); split_and!; cbn; try done; lia.
Qed.

Record flow_ok f : Prop := {
  fl_paused : paused f = bool_decide (over_limits f);
  fl_batches : 0 ≤ pendingBatches f;
  fl_headers : 0 ≤ pendingHeaders f
}.

(** The alternation of callbacks, from a pause state. *)
Fixpoint alternates (state : bool) (l : list flow_event) : Prop :=
  match l with
  | [] => True
  | OnPause :: l' => state = false ∧ alternates true l'
  | OnResume :: l' => state = true ∧ alternates false l'
  end.

Lemma flow_exec_ok f op :
  flow_ok f →
  let '(f', out) := flow_exec f op in
  flow_ok f' ∧ fc_cfg f' = fc_cfg f ∧ out = crossing (paused f) (paused f') ∧
  pauseCount f' = (if bool_decide (OnPause ∈ out) then u64 (pauseCount f + 1) else pauseCount f) ∧
  resumeCount f' = (if bool_decide (OnResume ∈ out) then u64 (resumeCount f + 1) else resumeCount f).
Proof.
  intros [Hp Hb Hh]. destruct (flow_exec_check f op) as (f1 & -> & Ec & Ep & E1 & E2 & H1 & H2).
  rewrite checkFlowControl_eq. cbv zeta. set (after := bool_decide (over_limits f1)).
  split_and!; [split; cbn; auto|done|by rewrite <-Ep|..]; cbn [paused pauseCount resumeCount]; rewrite ?Ep, ?E1, ?E2;
    destruct (paused f), after; done.
Qed.

Lemma crossing_alternates a b l : alternates b l → alternates a (crossing a b ++ l).
Proof. by destruct a, b. Qed.

(** The counter [count] ends at [start] plus the number of events, modulo 2^64. *)
Lemma count_step e n n' l l' :
  n' = (if bool_decide (e ∈ l) then u64 (n + 1) else n) → (events_of e l ≤ 1)%Z →
  u64 (n' + events_of e l') = u64 (n + events_of e (l ++ l')).
Proof.
  unfold events_of. rewrite filter_app, length_app. intros -> Hl.
  destruct (decide (e ∈ l)) as [Hin|Hni].
  - rewrite bool_decide_eq_true_2 by done. rewrite wrap_add_l.
    assert (zlen (filter (e =.) l) = 1) as E.
    { apply list_elem_of_split in Hin as (l1 & l2 & ->).
      rewrite filter_app, length_app, filter_cons_True in * by done. cbn in *. lia. }
    f_equal. lia.
  - rewrite bool_decide_eq_false_2 by done.
    assert (filter (e =.) l = []) as ->; [|f_equal; cbn; lia].
    induction l as [|x l IH]; [done|]. rewrite filter_cons_False by set_solver. apply IH; [|set_solver].
    rewrite filter_cons in Hl. case_decide; cbn in *; lia.
Qed.

Lemma flow_run_ok f ops :
  flow_ok f →
  let '(f', out) := flow_run f ops in
  flow_ok f' ∧ fc_cfg f' = fc_cfg f ∧ alternates (paused f) out ∧
  u64 (pauseCount f') = u64 (pauseCount f + events_of OnPause out) ∧
  u64 (resumeCount f') = u64 (resumeCount f + events_of OnResume out).
Proof.
  revert f. induction ops as [|op ops IH]; intros f Hok; cbn [flow_run].
  { unfold events_of. cbn. rewrite !Z.add_0_r. done. }
  pose proof (flow_exec_ok f op Hok) as Hs. destruct (flow_exec f op) as [f1 out1].
  destruct Hs as (Hok1 & Ec & -> & E1 & E2). specialize (IH f1 Hok1).
  destruct (flow_run f1 ops) as [f2 out2]. destruct IH as (Hok2 & -> & Ha & H1 & H2).
  assert (∀ e, events_of e (crossing (paused f) (paused f1)) ≤ 1) as Hc.
  { intros e. unfold events_of. destruct (paused f), (paused f1), e; by vm_compute. }
  split_and!; [done|done|by apply crossing_alternates|..].
  - rewrite H1. by apply count_step.
  - rewrite H2. by apply count_step.
Qed.

(** C29. Flow control is paused exactly at its limits: from a new controller
    with a positive round limit, after any updates of the rounds and the
    counters, it is paused if and only if the uncommitted gap has reached
    [MaxUncommittedRounds] or an enabled batch or header limit is reached; the
    pause and resume callbacks alternate, starting with a pause, and the two
    counters count them modulo 2^64.  While it is not paused a header and a batch
    may be created, and no header may be created once the gap reached the
    limit. *)
Theorem flow_paused_iff cfg ops :
  0 < MaxUncommittedRounds cfg →
  let '(f, out) := flow_run (NewFlowController cfg) ops in
  (IsPaused f = true ↔
     MaxUncommittedRounds cfg ≤ UncommittedGap f ∨
     (0 < MaxPendingBatches cfg ∧ MaxPendingBatches cfg ≤ pendingBatches f) ∨
     (0 < MaxPendingHeaders cfg ∧ MaxPendingHeaders cfg ≤ pendingHeaders f)) ∧
  0 ≤ pendingBatches f ∧ 0 ≤ pendingHeaders f ∧
  alternates false out ∧
  u64 (pauseCount f) = u64 (events_of OnPause out) ∧
  u64 (resumeCount f) = u64 (events_of OnResume out) ∧
  (IsPaused f = false → CanCreateHeader f = true ∧ CanCreateBatch f = true) ∧
  (CanCreateHeader f = true → UncommittedGap f < MaxUncommittedRounds cfg).
Proof.
  intros H0. pose proof (flow_run_ok (NewFlowController cfg) ops) as H.
  destruct (flow_run _ ops) as [f out]. destruct H as ([Hp Hb Hh] & Ec & Ha & H1 & H2).
  { split; cbn; [|lia|lia]. symmetry. apply bool_decide_eq_false_2. unfold over_limits.
    change (UncommittedGap (NewFlowController cfg)) with 0. cbn. lia. }
  cbn in Ec, Ha, H1, H2. assert (paused f = true ↔ over_limits f) as Hiff by (rewrite Hp; apply bool_decide_eq_true).
  unfold over_limits in Hiff. rewrite Ec in Hiff. clear Hp.
  split_and!; [|done|done|done|by rewrite H1|by rewrite H2| |].
  - exact Hiff.
  - unfold IsPaused, CanCreateHeader, CanCreateBatch. intros E. rewrite E in Hiff. rewrite Ec.
    rewrite (bool_decide_eq_false_2 (UncommittedGap f >= _)) by naive_solver lia.
    split; repeat case_bool_decide; cbn [andb]; unfold IsPaused; rewrite ?E; try done; naive_solver lia.
  - unfold CanCreateHeader. rewrite Ec. case_bool_decide; [done|]. intros _. lia.
Qed.

Lemma flow_paused_iff_witness :
  let '(f, out) := flow_run (NewFlowController (mk_FlowConfig 3 2 0))
    [FCurrent 2; FCurrent 5; FCommitted 3; FAddBatch; FAddBatch; FRemoveBatch; FCurrent 1] in
  out = [OnPause; OnResume; OnPause; OnResume] ∧ 
  (IsPaused f = true ↔
     3 ≤ UncommittedGap f ∨ (0 < 2 ∧ 2 ≤ pendingBatches f) ∨ (0 < 0 ∧ 0 ≤ pendingHeaders f)).
Proof.
  pose proof (flow_paused_iff (mk_FlowConfig 3 2 0)
    [FCurrent 2; FCurrent 5; FCommitted 3; FAddBatch; FAddBatch; FRemoveBatch; FCurrent 1] ltac:(done)) as H.
  vm_compute flow_run in H |- *. split; [done|]. exact (proj1 H).
Defined.
