(* ===== verification/Gc.v ===== *)
(** Garbage collection (gc/gc.go): the cutoff round, the recovery of the
    transactions of uncommitted batches, and the pruning of the DAG, the stores
    and the transaction index.  The manager shares these with the rest of the
    node; they are the [world].  The manager's certificate store is the one
    behind the DAG, and a batch store is always installed, as the node wires
    them (looseberry.go, initializeComponents).  Every operation holds the
    manager's mutex. *)
From S2P Require Import Prelude Bytes Errors Types Batch Header BitSet Certificate Store TxIndex Dag.
Local Open Scope Z_scope.

Record Config := mk_Config {
  GCDepth : Z;
  GCInterval : Z;
  RecoverUncommittedTxs : bool
}.

Definition DefaultConfig : Config := mk_Config 100 (30 * 10 ^ 9) true.

Record GCManager := mk_GCManager {
  gc_cfg : Config;
  gc_committedRound : Z;
  lastGCRound : Z;
  uncommittedBatches : gmap Hash Z;
  totalGCRuns : Z;
  totalGCFailures : Z;
  totalTxRecovered : Z;
  gc_running : bool
}.
#[export] Instance eta_GCManager : Settable GCManager := λ g,
  mk_GCManager (gc_cfg g) (gc_committedRound g) (lastGCRound g) (uncommittedBatches g) (totalGCRuns g)
    (totalGCFailures g) (totalTxRecovered g) (gc_running g).

Implicit Types g : GCManager.

Definition NewGCManager (cfg : Config) : GCManager := mk_GCManager cfg 0 0 ∅ 0 0 0 false.

Definition TrackBatch (digest : Hash) (round : Z) g : GCManager :=
  g <| uncommittedBatches := <[digest := round]> (uncommittedBatches g) |>.
Definition MarkBatchCommitted (digest : Hash) g : GCManager :=
  g <| uncommittedBatches := delete digest (uncommittedBatches g) |>.
Definition MarkBatchesCommitted (digests : list Hash) g : GCManager :=
  g <| uncommittedBatches := delete_keys digests (uncommittedBatches g) |>.
Definition UncommittedBatchCount g : Z := zsize (uncommittedBatches g).

Definition Start g : GCManager * option error :=
  if gc_running g then (g, Some ErrAlreadyRunning) else (g <| gc_running := true |>, None).
Definition Stop g : GCManager * option error :=
  if gc_running g then (g <| gc_running := false |>, None) else (g, Some ErrNotRunning).

Definition calculateGCRound g : Z :=
  let committed := gc_committedRound g in
  if bool_decide (committed ≤ GCDepth (gc_cfg g)) then 0 else u64 (committed - GCDepth (gc_cfg g)).

Definition GetGCRound g : Z := calculateGCRound g.

Record world (S B I : Type) := mk_world {
  g_dag : DAG S;
  g_batches : B;
  g_index : option I
}.
Arguments mk_world {S B I}.
Arguments g_dag {S B I}.
Arguments g_batches {S B I}.
Arguments g_index {S B I}.
#[export] Instance eta_world {S B I} : Settable (world S B I) := λ w,
  mk_world (g_dag w) (g_batches w) (g_index w).

Section gc.
Context {S B I : Type} {CS : CertificateStore S} {BS : BatchStore B} {TI : TxIndex I}.
Context {RC : RangeOrder Z Certificate} {RH : RangeOrder Hash Z}.
Implicit Types w : world S B I.

(** Removing the index entries of batches, errors ignored. *)
Definition remove_indexed (digests : list Hash) (index : option I) : option I :=
  match index with
  | None => None
  | Some i => Some (fold_left (λ i d, (TI_RemoveTxsForBatch d i).1) digests i)
  end.

(** One round of the fallback scan. *)
Definition fallback_round (d : DAG S) (batches : B) (st : list Transaction * option I) (round : Z) :
    list Transaction * option I :=
  match GetBatchesByRound round batches with
  | Err _ => st
  | Ok bs =>
      if bool_decide (zlen bs = 0) then st
      else
        let certs := GetCertificatesForRound d round in
        let committedBatches : gset Hash :=
          list_to_set (concat (map (λ c, BD_Digest <$> BatchRefs (CHeader c)) certs)) in
        fold_left (λ '(txs, index) batch,
          if decide (Batch_Digest batch ∈ committedBatches) then (txs, index)
          else (txs ++ Transactions batch, remove_indexed [Batch_Digest batch] index)) bs st
  end.

(** [extractUncommittedTxsFallback]: the rounds from the last collected one up
    to the cutoff. *)
Definition extractUncommittedTxsFallback (beforeRound : Z) g w : list Transaction * option I :=
  let startRound := lastGCRound g in
  let startRound := if bool_decide (startRound > 0) then u64 (startRound + 1) else startRound in
  fold_left (fallback_round (g_dag w) (g_batches w)) (seqZ startRound (beforeRound - startRound)) ([], g_index w).

(** The loop over the uncommitted batch index: transactions and digests. *)
Definition extract_tracked (batches : B) (beforeRound : Z) (entries : list (Hash * Z)) :
    list Transaction * list Hash :=
  fold_left (λ '(txs, remove) '(digest, round),
    if bool_decide (round < beforeRound) then
      (match GetBatch digest batches with Ok batch => txs ++ Transactions batch | Err _ => txs end,
       remove ++ [digest])
    else (txs, remove)) entries ([], []).

Definition extractUncommittedTxs (beforeRound : Z) g w : GCManager * world S B I * list Transaction :=
  let '(txs, batchesToRemove) := extract_tracked (g_batches w) beforeRound (range (uncommittedBatches g)) in
  let g := g <| uncommittedBatches := delete_keys batchesToRemove (uncommittedBatches g) |> in
  let w := w <| g_index := remove_indexed batchesToRemove (g_index w) |> in
  if bool_decide (zlen txs = 0) && bool_decide (zlen batchesToRemove = 0)
  then let '(txs, index) := extractUncommittedTxsFallback beforeRound g w in (g, w <| g_index := index |>, txs)
  else (g, w, txs).

(** The first part of [performGC]; the transactions are handed to the recovery
    callback, if there is one ([hasCallback]) and there are any. *)
Definition recover_phase (hasCallback : bool) (beforeRound : Z) g w :
    GCManager * world S B I * list Transaction :=
  if RecoverUncommittedTxs (gc_cfg g) && hasCallback then
    let '(g, w, txs) := extractUncommittedTxs beforeRound g w in
    if bool_decide (zlen txs > 0)
    then (g <| totalTxRecovered := u64 (totalTxRecovered g + zlen txs) |>, w, txs) else (g, w, txs)
  else (g, w, []).

(** The rest of [performGC]: the first error ends it. *)
Definition prune_phase (beforeRound : Z) g w : GCManager * world S B I * option error :=
  let w := w <| g_dag := PruneRoundsBefore (g_dag w) beforeRound |> in
  let '(b, err) := DeleteBatchesBefore beforeRound (g_batches w) in
  let w := w <| g_batches := b |> in
  match err with
  | Some err => (g, w, Some err)
  | None =>
      let '(d, err) :=
        match certStore (g_dag w) with
        | None => (g_dag w, None)
        | Some s => let '(s, err) := DeleteCertificatesBefore beforeRound s in
                    ((g_dag w) <| certStore := Some s |>, err)
        end in
      let w := w <| g_dag := d |> in
      match err with
      | Some err => (g, w, Some err)
      | None =>
          let '(i, err) :=
            match g_index w with
            | None => (None, None)
            | Some i => match TI_PruneOlderThan beforeRound i with
                        | (i, Ok _) => (Some i, None)
                        | (i, Err err) => (Some i, Some err)
                        end
            end in
          let w := w <| g_index := i |> in
          match err with
          | Some err => (g, w, Some err)
          | None => (if bool_decide (beforeRound > 0) then g <| lastGCRound := u64 (beforeRound - 1) |> else g, w, None)
          end
      end
  end.

Definition performGC (hasCallback : bool) (beforeRound : Z) g w :
    GCManager * world S B I * list Transaction * option error :=
  let '(g, w, txs) := recover_phase hasCallback beforeRound g w in
  let '(g, w, err) := prune_phase beforeRound g w in
  (g, w, txs, err).

(** [NotifyCommitted] up to the collection: the new committed round. *)
Definition note_committed (round : Z) g w : GCManager * world S B I :=
  if bool_decide (round > gc_committedRound g)
  then (g <| gc_committedRound := round |>, w <| g_dag := SetCommittedRound (g_dag w) round |>)
  else (g, w).

Definition ForceGC (hasCallback : bool) g w : GCManager * world S B I * list Transaction * option error :=
  let gcRound := calculateGCRound g in
  if bool_decide (gcRound = 0) then (g, w, [], None) else performGC hasCallback gcRound g w.

Definition NotifyCommitted (hasCallback : bool) (round : Z) g w :
    GCManager * world S B I * list Transaction * option error :=
  let '(g, w) := note_committed round g w in
  ForceGC hasCallback g w.

(** One tick of [gcLoop]. *)
Definition gc_tick (hasCallback : bool) g w : GCManager * world S B I * list Transaction :=
  let gcRound := calculateGCRound g in
  if bool_decide (gcRound > 0) then
    match performGC hasCallback gcRound g w with
    | (g, w, txs, Some _) => (g <| totalGCFailures := u64 (totalGCFailures g + 1) |>, w, txs)
    | (g, w, txs, None) => (g <| totalGCRuns := u64 (totalGCRuns g + 1) |>, w, txs)
    end
  else (g, w, []).
End gc.

(** ** What is recovered *)
Section recovery.
Context {S B I : Type} {CS : CertificateStore S} {BS : BatchStore B} {BL : BatchStoreLaws B}.
Context {TI : TxIndex I} {TL : TxIndexLaws I}.
Context {RC : RangeOrder Z Certificate} {RH : RangeOrder Hash Z}.
Implicit Types w : world S B I.

Definition index_ok (index : option I) : Prop := match index with Some i => ix_ok i | None => True end.

(** The batch a transaction is indexed under. *)
Definition indexed_at (index : option I) (t : Hash) : option Hash := index ≫= λ i, ix_view i !! t.

Lemma remove_indexed_spec ds index :
  index_ok index →
  index_ok (remove_indexed ds index) ∧
  ∀ t, indexed_at (remove_indexed ds index) t =
    (indexed_at index t ≫= λ b, if decide (b ∈ ds) then None else Some b).
Proof.
  destruct index as [i|]; [|done]. cbn. revert i. induction ds as [|d ds IH]; intros i Hok; cbn [fold_left].
  - split; [done|]. intros t. destruct (_ !! t); [|done]. cbn. rewrite decide_False; [done|apply not_elem_of_nil].
  - destruct (ix_remove i d Hok) as (_ & Hok1 & Hv). destruct (IH _ Hok1) as [Hok2 Hv2]. split; [done|].
    intros t. rewrite Hv2, Hv. destruct (ix_view i !! t) as [b|]; [|done]. cbn.
    destruct (decide (b = d)) as [->|Hne]; cbn; [by rewrite decide_True by left|].
    apply decide_ext. rewrite elem_of_cons. tauto.
Qed.

(** The tracked batches below the cutoff. *)
Definition stale (beforeRound : Z) g : gmap Hash Z := filter (λ p, p.2 < beforeRound) (uncommittedBatches g).

Lemma extract_tracked_eq (batches : B) beforeRound entries :
  extract_tracked batches beforeRound entries =
    (concat (map (λ p, match GetBatch p.1 batches with Ok batch => Transactions batch | Err _ => [] end)
               (filter (λ p, p.2 < beforeRound) entries)),
     (filter (λ p, p.2 < beforeRound) entries).*1).
Proof.
  unfold extract_tracked. set (f := λ '(txs, remove) '(digest, round), _).
  enough (∀ txs rem, fold_left f entries (txs, rem) =
    (txs ++ concat (map (λ p, match GetBatch p.1 batches with Ok batch => Transactions batch | Err _ => [] end)
               (filter (λ p, p.2 < beforeRound) entries)),
     rem ++ (filter (λ p, p.2 < beforeRound) entries).*1)) as H by apply H.
  induction entries as [|[d r] entries IH]; intros txs rem; [by rewrite !app_nil_r|].
  cbn [fold_left]. unfold f at 2. case_bool_decide as Hr.
  - rewrite IH, filter_cons_True by done. cbn [map concat fmap list_fmap fst snd].
    destruct (GetBatch d batches); cbn; by rewrite <-!app_assoc.
  - rewrite IH, filter_cons_False by done. done.
Qed.

Lemma stale_digests beforeRound g d :
  d ∈ (filter (λ p, p.2 < beforeRound) (range (uncommittedBatches g))).*1 ↔ is_Some (stale beforeRound g !! d).
Proof.
  rewrite list_elem_of_fmap. unfold stale. split.
  - intros ([d' r] & -> & [Hr Hin]%list_elem_of_filter). apply elem_of_range in Hin.
    exists r. apply map_lookup_filter_Some. done.
  - intros [r [Hl Hr]%map_lookup_filter_Some]. exists (d, r). split; [done|].
    apply list_elem_of_filter. split; [done|]. by apply elem_of_range.
Qed.

(** Tracked batches are recovered when any is below the cutoff. *)
Lemma extract_eq beforeRound g w :
  stale beforeRound g ≠ ∅ →
  let ds := (filter (λ p, p.2 < beforeRound) (range (uncommittedBatches g))).*1 in
  extractUncommittedTxs beforeRound g w =
    (g <| uncommittedBatches := delete_keys ds (uncommittedBatches g) |>,
     w <| g_index := remove_indexed ds (g_index w) |>,
     concat (map (λ p, match GetBatch p.1 (g_batches w) with Ok batch => Transactions batch | Err _ => [] end)
               (filter (λ p, p.2 < beforeRound) (range (uncommittedBatches g))))).
Proof.
  intros Hne ds. unfold extractUncommittedTxs. rewrite extract_tracked_eq. fold ds.
  assert (zlen ds ≠ 0) as Hds.
  { apply map_choose in Hne as (d & r & Hd). intros E.
    assert (d ∈ ds) as Hin by (apply stale_digests; by exists r). destruct ds; [by apply not_elem_of_nil in Hin|].
    cbn in E. lia. }
  rewrite (bool_decide_eq_false_2 (zlen ds = 0)) by done. by rewrite andb_false_r.
Qed.

(** Recovery is exact: when some tracked batch is below the cutoff,
    [extractUncommittedTxs] returns the transactions of exactly the tracked
    batches below it that are stored, each batch once, in whatever order the map
    is iterated; those batches are no longer tracked and the others still are;
    and of the transaction index it removes exactly the entries of those batches,
    so that the recovered transactions can be added again. *)
Theorem recovers_tracked_batches beforeRound g w :
  bs_ok (g_batches w) → index_ok (g_index w) → stale beforeRound g ≠ ∅ →
  let '(g', w', txs) := extractUncommittedTxs beforeRound g w in
  txs ≡ₚ concat (Transactions <$> omap (λ d, bs_view (g_batches w) !! d) (elements (dom (stale beforeRound g)))) ∧
  uncommittedBatches g' = filter (λ p, ¬ p.2 < beforeRound) (uncommittedBatches g) ∧
  g_dag w' = g_dag w ∧ g_batches w' = g_batches w ∧ index_ok (g_index w') ∧
  ∀ t, indexed_at (g_index w') t =
    (indexed_at (g_index w) t ≫= λ b, if decide (is_Some (stale beforeRound g !! b)) then None else Some b).
Proof.
  intros Hb Hi Hne. rewrite (extract_eq beforeRound g w Hne).
  set (l := filter (λ p, p.2 < beforeRound) (range (uncommittedBatches g))).
  destruct (remove_indexed_spec l.*1 (g_index w) Hi) as [Hi' Hv].
  split_and!; [| |done|done|done|].
  - assert (l.*1 ≡ₚ elements (dom (stale beforeRound g))) as Hp.
    { apply NoDup_Permutation; [|apply NoDup_elements|].
      - eapply sublist_NoDup; [apply (range_NoDup (uncommittedBatches g))|].
        apply fmap_sublist, sublist_filter.
      - intros d. unfold l. rewrite stale_digests, elem_of_elements, elem_of_dom. done. }
    rewrite <-Hp. clear Hp. apply Permutation_refl'. clear -Hb.
    induction l as [|[d r] l IH]; [done|]. cbn [map concat fst]. rewrite fmap_cons, IH. cbn [fst].
    rewrite (bs_get _ d Hb). cbn [omap list_omap]. by destruct (bs_view (g_batches w) !! d).
  - cbn. apply map_eq. intros d. rewrite lookup_delete_keys.
    destruct (decide (d ∈ l.*1)) as [Hin|Hni].
    + apply stale_digests in Hin as [r [Hl Hr]%map_lookup_filter_Some]. symmetry.
      apply map_lookup_filter_None_2. right. intros r' Hr' Hn. by simplify_eq.
    + unfold l in Hni. rewrite stale_digests in Hni. symmetry.
      destruct (uncommittedBatches g !! d) as [r|] eqn:E.
      * apply map_lookup_filter_Some_2; [done|]. intros Hr. apply Hni. exists r. by apply map_lookup_filter_Some_2.
      * apply map_lookup_filter_None_2. by left.
  - intros t. rewrite Hv. destruct (indexed_at (g_index w) t) as [b|]; [|done]. cbn.
    apply decide_ext. apply stale_digests.
Qed.
End recovery.

(** ** What a collection removes *)
Section cutoff.
Context {S B I : Type} {CS : CertificateStore S} {CL : CertificateStoreLaws S}.
Context {BS : BatchStore B} {BL : BatchStoreLaws B} {TI : TxIndex I} {TL : TxIndexLaws I}.
Context {RC : RangeOrder Z Certificate} {RH : RangeOrder Hash Z}.
Implicit Types w : world S B I.

Record world_ok w : Prop := {
  wo_dag : dag_ok (g_dag w);
  wo_batches : bs_ok (g_batches w);
  wo_index : index_ok (g_index w)
}.

(** An extraction only touches the tracked batches and the index. *)
Record extraction_frame g w g' w' : Prop := {
  ef_g : g' = g <| uncommittedBatches := uncommittedBatches g' |> <| totalTxRecovered := totalTxRecovered g' |>;
  ef_dag : g_dag w' = g_dag w;
  ef_batches : g_batches w' = g_batches w;
  ef_index : index_ok (g_index w')
}.

Lemma fallback_round_index d batches st round :
  index_ok st.2 → index_ok (fallback_round (S := S) (B := B) (I := I) d batches st round).2.
Proof.
  intros Hi. unfold fallback_round. destruct (GetBatchesByRound round batches) as [bs|]; [|done].
  case_bool_decide; [done|]. set (X := list_to_set _). clearbody X. clear H.
  revert st Hi. induction bs as [|b bs IH]; intros [txs i] Hi; [done|]. cbn [fold_left].
  destruct (decide (Batch_Digest b ∈ X)); [by apply IH|]. apply IH.
  by apply (remove_indexed_spec [Batch_Digest b] i Hi).
Qed.

Lemma fallback_index beforeRound g w :
  index_ok (g_index w) → index_ok (extractUncommittedTxsFallback beforeRound g w).2.
Proof.
  intros Hi. unfold extractUncommittedTxsFallback.
  set (l := seqZ _ _). clearbody l. assert (index_ok (@nil Transaction, g_index w).2) as H by done. revert H.
  generalize (@nil Transaction, g_index w). induction l as [|r l IH]; intros st H; [done|].
  by apply IH, fallback_round_index.
Qed.

Lemma recover_phase_frame cb beforeRound g w :
  world_ok w → let '(g', w', txs) := recover_phase cb beforeRound g w in extraction_frame g w g' w'.
Proof.
  intros [_ _ Hi]. unfold recover_phase.
  destruct (RecoverUncommittedTxs _ && _); [|by split; [by destruct g| | |]].
  unfold extractUncommittedTxs. destruct (extract_tracked _ _ _) as [txs ds].
  set (g1 := g <| uncommittedBatches := _ |>). set (w1 := w <| g_index := _ |>).
  assert (index_ok (g_index w1)) as Hi1 by (by apply remove_indexed_spec).
  pose proof (fallback_index beforeRound g1 w1 Hi1) as Hf.
  destruct (bool_decide (zlen txs = 0) && bool_decide (zlen ds = 0));
    [destruct (extractUncommittedTxsFallback beforeRound g1 w1) as [txs' i']|];
    case_bool_decide; split; try done; by destruct g.
Qed.

Lemma PruneRoundsBefore_store (d : DAG S) round : certStore (PruneRoundsBefore d round) = certStore d.
Proof.
  unfold PruneRoundsBefore. set (f := λ (d : DAG S) '(r, rd), _). cbn. generalize d at 2 3.
  induction (map_to_list (rounds d)) as [|[r rd] l IH]; intros d'; [done|].
  cbn [fold_left]. rewrite IH. unfold f. by case_bool_decide.
Qed.

Lemma dag_ok_set_store (d : DAG S) s : dag_ok d → cs_ok s → dag_ok (d <| certStore := Some s |>).
Proof. intros [] Hs. split; try done. by intros ? [= <-]. Qed.

Lemma prune_phase_spec beforeRound g w :
  world_ok w →
  let '(g', w', err) := prune_phase beforeRound g w in
  err = None ∧ world_ok w' ∧
  g' = (if bool_decide (beforeRound > 0) then g <| lastGCRound := u64 (beforeRound - 1) |> else g) ∧
  (∀ r a, mem_cert (g_dag w') r a = if decide (r < beforeRound) then None else mem_cert (g_dag w) r a) ∧
  bs_view (g_batches w') = filter (λ p, beforeRound ≤ Batch_Round p.2) (bs_view (g_batches w)) ∧
  (∀ s, certStore (g_dag w) = Some s → ∃ s', certStore (g_dag w') = Some s' ∧
     ∀ d c, cs_view s !! d = Some c → beforeRound ≤ CRound c → cs_view s' !! d = Some c).
Proof.
  intros [Hd Hb Hi]. unfold prune_phase. destruct w as [d b i]. cbn [g_dag g_batches g_index] in *.
  set (d1 := PruneRoundsBefore d beforeRound).
  assert (dag_ok d1) as Hd1 by (by apply dag_ok_PruneRoundsBefore).
  assert (certStore d1 = certStore d) as Es by apply PruneRoundsBefore_store.
  assert (∀ r a, mem_cert d1 r a = if decide (r < beforeRound) then None else mem_cert d r a) as Hm
    by apply mem_cert_PruneRoundsBefore.
  pose proof (bs_delete b beforeRound Hb) as Hdel.
  change (g_batches ((mk_world d b i) <| g_dag := d1 |>)) with b.
  cbv zeta in Hdel.
  destruct (DeleteBatchesBefore beforeRound b) as [b' err]. cbn [fst snd] in Hdel. destruct Hdel as (-> & Hb' & Ev).
  change (g_dag (_ <| g_batches := b' |>)) with d1.
  assert (∃ d2, (match certStore d1 with
        | None => (d1, None)
        | Some s => let '(s, err) := DeleteCertificatesBefore beforeRound s in (d1 <| certStore := Some s |>, err)
        end) = (d2, None) ∧ dag_ok d2 ∧ (∀ r a, mem_cert d2 r a = mem_cert d1 r a) ∧
      ∀ s, certStore d = Some s → ∃ s', certStore d2 = Some s' ∧
        ∀ dg c, cs_view s !! dg = Some c → beforeRound ≤ CRound c → cs_view s' !! dg = Some c) as (d2 & -> & Hd2 & Hm2 & Hs2).
  { rewrite Es. destruct (certStore d) as [s|] eqn:E; [|exists d1; split_and!; [done..|by intros ? [=]]].
    assert (cs_ok s) as Hs by (by apply (ok_store _ Hd)).
    pose proof (cs_delete s beforeRound Hs) as (Ee & Hok & _ & Hk).
    destruct (DeleteCertificatesBefore beforeRound s) as [s' err]. cbn [fst snd] in *. subst err.
    exists (d1 <| certStore := Some s' |>). split_and!; [done|by apply dag_ok_set_store|done|].
    intros ? [= <-]. by exists s'. }
  change (g_index (_ <| g_dag := d2 |>)) with i.
  assert (∃ i', (match i with
        | None => (None, None)
        | Some i => match TI_PruneOlderThan beforeRound i with
                    | (i, Ok _) => (Some i, None)
                    | (i, Err err) => (Some i, Some err)
                    end
        end) = (i', None) ∧ index_ok i') as (i' & -> & Hi').
  { destruct i as [i|]; [|by exists None]. destruct (ix_prune i beforeRound Hi) as (Ho & Hok & _).
    destruct (TI_PruneOlderThan beforeRound i) as [i' [n|e]]; [by exists (Some i')|by destruct Ho]. }
  split_and!; [done|by split|done| |done|done].
  intros r a. cbn [g_dag]. change (g_dag (_ <| g_index := i' |>)) with d2. by rewrite Hm2, Hm.
Qed.

End cutoff.

(** ** Closed examples *)
#[local] Existing Instance range_sorted.

Module GcExample.
Definition old_batch : Batch := NewBatch 0 0 0 [[1]; [2]] 7.
Definition new_batch : Batch := NewBatch 0 0 5 [[3]] 8.
Definition batches : MemoryBatchStore :=
  (SaveBatch new_batch (SaveBatch old_batch NewMemoryBatchStore).1).1.
Definition index : MemoryTxIndex :=
  (TI_AddBatch new_batch (TI_AddBatch old_batch NewMemoryTxIndex).1).1.
Definition start : world MemoryCertificateStore MemoryBatchStore MemoryTxIndex :=
  mk_world (dag_run DagExample.empty DagExample.two) batches (Some index).
Definition idle : GCManager := NewGCManager (mk_Config 2 30 true).
Definition manager : GCManager :=
  TrackBatch (Batch_Digest new_batch) 5 (TrackBatch (Batch_Digest old_batch) 0 idle).
(** A certificate of round 1 that commits the batch of round 0. *)
Definition committing : Certificate :=
  NewCertificate (NewHeader 2 1 0 [GetDigest old_batch] [GetRef DagExample.genesis] 9) [].
Definition committed : world MemoryCertificateStore MemoryBatchStore MemoryTxIndex :=
  mk_world (dag_run DagExample.empty (DagExample.two ++ [DAdd (Some committing)])) batches (Some index).
End GcExample.

Lemma gc_example_batches : bs_ok GcExample.batches.
Proof.
  exact (proj1 (proj2 (bs_save _ GcExample.new_batch
    (proj1 (proj2 (bs_save NewMemoryBatchStore GcExample.old_batch mb_ok_new)))))).
Qed.

Lemma gc_example_index : index_ok (Some GcExample.index).
Proof.
  exact (proj1 (proj2 (ix_add _ GcExample.new_batch
    (proj1 (proj2 (ix_add NewMemoryTxIndex GcExample.old_batch ti_ok_new)))))).
Qed.

Lemma recovers_tracked_batches_witness :
  let '(g', w', txs) := extractUncommittedTxs 4 GcExample.manager GcExample.start in
  txs ≡ₚ concat (Transactions <$> omap (λ d, bs_view GcExample.batches !! d)
           (elements (dom (stale 4 GcExample.manager)))).
Proof.
  pose proof (recovers_tracked_batches 4 GcExample.manager GcExample.start gc_example_batches gc_example_index) as H.
  destruct (extractUncommittedTxs 4 GcExample.manager GcExample.start) as [[g' w'] txs]. apply H.
  intros E. apply (f_equal (λ m : gmap Hash Z, m !! Batch_Digest GcExample.old_batch)) in E. by vm_compute in E.
Defined.


(** Without tracked batches the fallback looks for the batch only among the
    certificates of the batch's own round: the transactions of a batch that a
    certificate of the next round committed are recovered, to be added again. *)
Example fallback_recovers_committed_batch :
  (NotifyCommitted true 4 GcExample.idle GcExample.committed).1.2 = [[1]; [2]].
Proof. by vm_compute. Qed.

(** After the first collection the scan starts above round 0: a batch of round 0
    that arrives later is deleted and its transactions are not recovered. *)
Example fallback_misses_late_batch :
  let '(g, w, _, _) := NotifyCommitted true 4 GcExample.idle
    (GcExample.start <| g_batches := NewMemoryBatchStore |>) in
  let w := w <| g_batches := (Memory_SaveBatch GcExample.old_batch (g_batches w)).1 |> in
  let '(_, w, txs, err) := NotifyCommitted true 5 g w in
  txs = [] ∧ err = None ∧ Memory_HasBatch (Batch_Digest GcExample.old_batch) (g_batches w) = false.
Proof. by vm_compute. Qed.
