(* ===== verification/Sync.v ===== *)
(** Synchronisation (network/sync.go): requests for certificates with retries
    and backoff, the answers to them, and the handling of responses.  The
    network is a parameter: [self] is its [ValidatorID] and [send] says whether
    it accepts a sync request for a peer; sent messages are returned in order.
    [now] is [time.Now()].  Requests are heap objects that the code compares by
    address; [rq_addr] is the address. *)
From S2P Require Import Prelude Bytes Errors Types Batch Header BitSet Certificate Store Dag DagHistory.
Local Open Scope Z_scope.

Record SyncConfig := mk_SyncConfig {
  SyncInterval : Z;
  SyncThreshold : Z;
  SyncBatchSize : Z;
  SyncTimeout : Z;
  MaxRetries : Z;
  InitialBackoff : Z;
  MaxBackoff : Z
}.

Definition DefaultSyncConfig : SyncConfig :=
  mk_SyncConfig (10 * 10 ^ 9) 5 100 (30 * 10 ^ 9) 5 (10 ^ 9) (30 * 10 ^ 9).

(** network/network.go *)
Record SyncRequest := mk_SyncRequest { SR_FromRound : Z; SR_ToRound : Z; SR_Requester : Z }.
Record SyncResponse := mk_SyncResponse {
  SP_Certificates : list Certificate;
  SP_Batches : list Batch;
  SP_FromRound : Z;
  SP_ToRound : Z
}.

Record pendingSyncRequest := mk_pendingSyncRequest {
  rq_addr : Z;
  fromRound : Z;
  toRound : Z;
  sentAt : Z;
  retryCount : Z;
  lastRetryAt : Z;
  nextRetryAt : Z;
  targetPeer : Z
}.
#[export] Instance eta_pendingSyncRequest : Settable pendingSyncRequest := λ r,
  mk_pendingSyncRequest (rq_addr r) (fromRound r) (toRound r) (sentAt r) (retryCount r) (lastRetryAt r)
    (nextRetryAt r) (targetPeer r).

Record SyncManager := mk_SyncManager {
  s_validatorSet : ValidatorSet;
  s_cfg : SyncConfig;
  pendingReqs : gmap Z pendingSyncRequest;
  peerHighest : gmap Z Z;
  s_running : bool;
  s_next : Z
}.
#[export] Instance eta_SyncManager : Settable SyncManager := λ s,
  mk_SyncManager (s_validatorSet s) (s_cfg s) (pendingReqs s) (peerHighest s) (s_running s) (s_next s).

Implicit Types s : SyncManager.

Definition NewSyncManager (vs : ValidatorSet) (cfg : SyncConfig) : SyncManager :=
  mk_SyncManager vs cfg ∅ ∅ false 0.

Definition Start s : SyncManager * option error :=
  if s_running s then (s, Some ErrAlreadyRunning) else (s <| s_running := true |>, None).
Definition Stop s : SyncManager * option error :=
  if s_running s then (s <| s_running := false |>, None) else (s, Some ErrNotRunning).
Definition UpdateValidatorSet s (vs : ValidatorSet) : SyncManager := s <| s_validatorSet := vs |>.

Definition recordPeerHighestRound (peer round : Z) s : SyncManager :=
  match peerHighest s !! peer with
  | Some cur => if bool_decide (round > cur) then s <| peerHighest := <[peer := round]> (peerHighest s) |> else s
  | None => s <| peerHighest := <[peer := round]> (peerHighest s) |>
  end.
Definition PeerHighestRound (peer : Z) s : Z := default 0 (peerHighest s !! peer).
Definition GetRetryCount (validator : Z) s : Z :=
  match pendingReqs s !! validator with Some req => retryCount req | None => -1 end.
Definition GetPendingRequestCount s : Z := zsize (pendingReqs s).

(** The backoff loop of [cleanupTimedOutRequests], [n] iterations left. *)
Fixpoint backoff_loop (maxBackoff : Z) (n : nat) (backoff : Z) : Z :=
  match n with
  | O => backoff
  | S n' =>
      if bool_decide (backoff < maxBackoff) then
        let backoff := backoff * 2 in
        let backoff := if bool_decide (backoff > maxBackoff) then maxBackoff else backoff in
        backoff_loop maxBackoff n' backoff
      else backoff
  end.

Section sync.
Context (self : Z) (send : Z → SyncRequest → option error).

Definition RequestSync (now validator fromRound toRound : Z) s :
    SyncManager * list (Z * SyncRequest) * option error :=
  if negb (s_running s) then (s, [], Some ErrNotRunning)
  else
    let req := mk_SyncRequest fromRound toRound self in
    let p := mk_pendingSyncRequest (s_next s) fromRound toRound now 0 now
               (now + InitialBackoff (s_cfg s)) validator in
    let s := s <| s_next := s_next s + 1 |> <| pendingReqs := <[validator := p]> (pendingReqs s) |> in
    (s, [(validator, req)], send validator req).

(** The loop of [CatchUp] over the validators. *)
Fixpoint catch_up_loop (now fromRound targetRound : Z) (validators : list ValidatorInfo) s :
    SyncManager * list (Z * SyncRequest) * option error :=
  match validators with
  | [] => (s, [], Some ErrValidatorNotFound)
  | v :: vs =>
      if bool_decide (Index v = self) then catch_up_loop now fromRound targetRound vs s
      else
        match RequestSync now (Index v) fromRound targetRound s with
        | (s, out, None) => (s, out, None)
        | (s, out, Some _) =>
            let '(s, out', err) := catch_up_loop now fromRound targetRound vs s in (s, out ++ out', err)
        end
  end.

(** [highest] is [dag.HighestRound()]. *)
Definition CatchUp (now highest targetRound : Z) s : SyncManager * list (Z * SyncRequest) * option error :=
  if negb (s_running s) then (s, [], Some ErrNotRunning)
  else if bool_decide (highest >= targetRound) then (s, [], None)
  else
    let from := u64 (highest + 1) in
    let from := if bool_decide (highest = 0) then 0 else from in
    catch_up_loop now from targetRound (VS_Validators (s_validatorSet s)) s.

(** The probe loop of [checkAndSync]. *)
Fixpoint probe_loop (now localRound : Z) (validators : list ValidatorInfo) s :
    SyncManager * list (Z * SyncRequest) :=
  match validators with
  | [] => (s, [])
  | v :: vs =>
      if bool_decide (Index v = self) then probe_loop now localRound vs s
      else match pendingReqs s !! Index v with
      | Some _ => probe_loop now localRound vs s
      | None =>
          let from := if bool_decide (localRound = 0) then 0 else u64 (localRound + 1) in
          let '(s, out, _) := RequestSync now (Index v) from 0 s in
          let '(s, out') := probe_loop now localRound vs s in (s, out ++ out')
      end
  end.

(** The largest round a peer was seen at; the order of the map is immaterial. *)
Definition observed_target s : Z := fold_left (λ target p, if bool_decide (p.2 > target) then p.2 else target)
  (map_to_list (peerHighest s)) 0.

Definition checkAndSync (now localRound : Z) s : SyncManager * list (Z * SyncRequest) :=
  if negb (s_running s) then (s, [])
  else
    let threshold := SyncThreshold (s_cfg s) in
    let threshold := if bool_decide (threshold = 0) then 1 else threshold in
    let target := observed_target s in
    let '(s, out) :=
      if bool_decide (target > localRound) && bool_decide (u64 (target - localRound) >= threshold)
      then let '(s, out, _) := CatchUp now localRound target s in (s, out) else (s, []) in
    let '(s, out') := probe_loop now localRound (VS_Validators (s_validatorSet s)) s in
    (s, out ++ out').

Definition RequestPeerCatchUp (now peerIdx : Z) s : SyncManager * list (Z * SyncRequest) * option error :=
  if negb (s_running s) then (s, [], Some ErrNotRunning)
  else match pendingReqs s !! peerIdx with
       | Some _ => (s, [], None)
       | None => RequestSync now peerIdx 0 0 s
       end.

(** The first other peer than the request's, if there is more than one
    validator. *)
Definition pick_peer (validators : list ValidatorInfo) (current : Z) : Z :=
  if bool_decide (zlen validators > 1) then
    match filter (λ v, Index v ≠ self ∧ Index v ≠ current) validators with
    | v :: _ => Index v
    | [] => current
    end
  else current.

Definition retrySyncRequest (req : pendingSyncRequest) s : SyncManager * list (Z * SyncRequest) :=
  if negb (s_running s) then (s, [])
  else
    let target := pick_peer (VS_Validators (s_validatorSet s)) (targetPeer req) in
    let s :=
      match pendingReqs s !! targetPeer req with
      | Some existing =>
          if bool_decide (rq_addr existing = rq_addr req)
          then s <| pendingReqs := <[target := req <| targetPeer := target |>]>
                      (delete (targetPeer req) (pendingReqs s)) |>
          else s
      | None => s
      end in
    (s, [(target, mk_SyncRequest (fromRound req) (toRound req) self)]).

(** One request of [toRetry] rescheduled. *)
Definition reschedule (now : Z) (cfg : SyncConfig) (req : pendingSyncRequest) : pendingSyncRequest :=
  let count := retryCount req + 1 in
  req <| retryCount := count |> <| lastRetryAt := now |>
      <| nextRetryAt := now + backoff_loop (MaxBackoff cfg) (Z.to_nat count) (InitialBackoff cfg) |>.

Definition cleanupTimedOutRequests {RO : RangeOrder Z pendingSyncRequest} (now : Z) s :
    SyncManager * list (Z * SyncRequest) :=
  let due := filter (λ p, now > nextRetryAt p.2) (range (pendingReqs s)) in
  let toRemove := filter (λ p, retryCount p.2 >= MaxRetries (s_cfg s)) due in
  let toRetry := filter (λ p, ¬ retryCount p.2 >= MaxRetries (s_cfg s)) due in
  let s := s <| pendingReqs := fold_left (λ m p, delete p.1 m) toRemove (pendingReqs s) |> in
  let toRetry := (λ p, (p.1, reschedule now (s_cfg s) p.2)) <$> toRetry in
  let s := s <| pendingReqs := fold_left (λ m p, <[p.1 := p.2]> m) toRetry (pendingReqs s) |> in
  fold_left (λ '(s, out) p, let '(s, out') := retrySyncRequest p.2 s in (s, out ++ out')) toRetry (s, []).
End sync.

Section answers.
Context `{Ed : Ed25519} {S B : Type} {CS : CertificateStore S} {BS : BatchStore B}.
Context {RC : RangeOrder Z Certificate}.

(** The batches that the certificates refer to, each digest looked up once. *)
Definition collect_batches (batches : B) (certs : list Certificate) : list Batch :=
  (fold_left (λ '(seen, out) ref,
     if decide (BD_Digest ref ∈ seen) then (seen, out)
     else ({[ BD_Digest ref ]} ∪ seen,
           match GetBatch (BD_Digest ref) batches with Ok batch => out ++ [batch] | Err _ => out end))
   (concat (map (λ c, BatchRefs (CHeader c)) certs)) (∅ : gset Hash, [])).2.

(** The last round that is served. *)
Definition served_to (cfg : SyncConfig) (highest : Z) (req : SyncRequest) : Z :=
  let from := SR_FromRound req in
  let to := SR_ToRound req in
  let to := if bool_decide (to = 0) then highest else to in
  if bool_decide (u64 (u64 (to - from) + 1) > u64 (SyncBatchSize cfg))
  then u64 (u64 (from + u64 (SyncBatchSize cfg)) - 1) else to.

(** [HandleSyncRequest]: the response sent to the requester; [None] when the
    collection of certificates does not end. *)
Definition HandleSyncRequest (d : DAG S) (batches : B) (req : SyncRequest) s :
    option (result SyncResponse) :=
  if negb (s_running s) then Some (Err ErrNotRunning)
  else
    let from := SR_FromRound req in
    let to := served_to (s_cfg s) (highestRound d) req in
    match GetOrderedCertificates d from to with
    | None => None
    | Some certs => Some (Ok (mk_SyncResponse certs (collect_batches batches certs) from to))
    end.

Fixpoint save_batches (bs : list Batch) (store : B) : B * option error :=
  match bs with
  | [] => (store, None)
  | b :: bs' => match SaveBatch b store with
                | (store, Some err) => (store, Some err)
                | (store, None) => save_batches bs' store
                end
  end.

(** [HandleSyncResponse] with the certificate callback installed: the
    certificates handed to it in order, and the error. *)
Definition HandleSyncResponse (resp : SyncResponse) (from : Z) (batches : B) s :
    SyncManager * B * list Certificate * option error :=
  if negb (s_running s) then (s, batches, [], Some ErrNotRunning)
  else
    let s := s <| pendingReqs := delete from (pendingReqs s) |> in
    let s := recordPeerHighestRound from (SP_ToRound resp) s in
    match save_batches (SP_Batches resp) batches with
    | (batches, Some err) => (s, batches, [], Some err)
    | (batches, None) =>
        (s, batches, filter (λ c, Certificate_Verify c (s_validatorSet s) = None) (SP_Certificates resp), None)
    end.
End answers.

(** ** Retries *)
Lemma backoff_loop_eq maxb n b :
  0 < b ≤ maxb → backoff_loop maxb n b = Z.min (b * 2 ^ Z.of_nat n) maxb.
Proof.
  revert b. induction n as [|n IH]; intros b Hb; cbn [backoff_loop].
  { rewrite Z.mul_1_r. lia. }
  rewrite Nat2Z.inj_succ, Z.pow_succ_r by lia. case_bool_decide as Hlt.
  - assert (0 < 2 ^ Z.of_nat n) by (apply Z.pow_pos_nonneg; lia). case_bool_decide as Hm.
    + rewrite IH by lia. rewrite !Z.min_r; [done| |].
      * transitivity (b * 2); [lia|]. rewrite Z.mul_assoc.
        rewrite <-(Z.mul_1_r (b * 2)) at 1. apply Z.mul_le_mono_nonneg_l; lia.
      * rewrite <-(Z.mul_1_r maxb) at 1. apply Z.mul_le_mono_nonneg_l; lia.
    + rewrite IH by lia. f_equal. lia.
  - assert (b = maxb) as -> by lia. rewrite Z.min_r; [done|].
    assert (0 < 2 ^ Z.of_nat n) by (apply Z.pow_pos_nonneg; lia).
    rewrite <-(Z.mul_1_r maxb) at 1. apply Z.mul_le_mono_nonneg_l; lia.
Qed.

Record retry_config_ok (cfg : SyncConfig) : Prop := {
  rc_retries : 0 ≤ MaxRetries cfg;
  rc_backoff : 0 < InitialBackoff cfg ≤ MaxBackoff cfg
}.

(** A pending request, under the peer it is registered for. *)
Record request_ok (cfg : SyncConfig) (peer : Z) (r : pendingSyncRequest) : Prop := {
  ro_target : targetPeer r = peer;
  ro_count : 0 ≤ retryCount r ≤ MaxRetries cfg;
  ro_next : nextRetryAt r = lastRetryAt r + Z.min (InitialBackoff cfg * 2 ^ retryCount r) (MaxBackoff cfg)
}.

Definition requests_ok (cfg : SyncConfig) (m : gmap Z pendingSyncRequest) : Prop := map_Forall (request_ok cfg) m.

(** The requests are different objects, all made before [next]. *)
Record addrs_ok (next : Z) (m : gmap Z pendingSyncRequest) : Prop := {
  ad_old k r : m !! k = Some r → rq_addr r < next;
  ad_unique k k' r r' : m !! k = Some r → m !! k' = Some r' → rq_addr r = rq_addr r' → k = k'
}.

Lemma addrs_empty next : addrs_ok next ∅.
Proof. split; intros *; by rewrite ?lookup_empty. Qed.

Lemma addrs_delete next k m : addrs_ok next m → addrs_ok next (delete k m).
Proof. intros [H1 H2]. split; intros *; rewrite ?lookup_delete_Some; naive_solver. Qed.

Lemma addrs_fresh next k r m : addrs_ok next m → rq_addr r = next → addrs_ok (next + 1) (<[k := r]> m).
Proof.
  intros [H1 H2] Er. split.
  - intros k' r' [[_ <-]|[_ E%H1]]%lookup_insert_Some; lia.
  - intros k1 k2 r1 r2 [[<- <-]|[_ E1]]%lookup_insert_Some [[<- <-]|[_ E2]]%lookup_insert_Some E; [done| | |by eapply H2].
    + apply H1 in E2. lia.
    + apply H1 in E1. lia.
Qed.

(** A request that changes, and may move to another peer. *)
Lemma addrs_move next k k' r r' m :
  addrs_ok next m → m !! k = Some r → rq_addr r' = rq_addr r → addrs_ok next (<[k' := r']> (delete k m)).
Proof.
  intros [H1 H2] Ek Er. assert (∀ j e, delete k m !! j = Some e → rq_addr e ≠ rq_addr r) as Hne.
  { intros j e [Hjk Ej]%lookup_delete_Some E. apply Hjk. by eapply H2. }
  split.
  - intros j e [[_ <-]|[_ [_ E]%lookup_delete_Some]]%lookup_insert_Some; [rewrite Er|]; by eapply H1.
  - intros k1 k2 r1 r2 [[<- <-]|[_ E1]]%lookup_insert_Some [[<- <-]|[_ E2]]%lookup_insert_Some E; [done| | |].
    + destruct (Hne k2 r2 E2). congruence.
    + destruct (Hne k1 r1 E1). congruence.
    + apply lookup_delete_Some in E1 as [_ E1], E2 as [_ E2]. by eapply H2.
Qed.

Lemma addrs_update next k r r' m :
  addrs_ok next m → m !! k = Some r → rq_addr r' = rq_addr r → addrs_ok next (<[k := r']> m).
Proof. intros. rewrite <-insert_delete_eq. by eapply addrs_move. Qed.

Record sync_ok (cfg : SyncConfig) s : Prop := {
  so_cfg : s_cfg s = cfg;
  so_reqs : requests_ok cfg (pendingReqs s);
  so_addrs : addrs_ok (s_next s) (pendingReqs s)
}.

Lemma delete_all_lookup (l : list (Z * pendingSyncRequest)) (m : gmap Z pendingSyncRequest) k :
  k ∉ l.*1 → fold_left (λ m (p : Z * pendingSyncRequest), delete p.1 m) l m !! k = m !! k.
Proof.
  revert m. induction l as [|[k' r] l IH]; intros m Hk; [done|]. rewrite fmap_cons, not_elem_of_cons in Hk. cbn [fold_left].
  rewrite IH by tauto. apply lookup_delete_ne. cbn. naive_solver.
Qed.

Section retries.
Context (self : Z) (send : Z → SyncRequest → option error) (cfg : SyncConfig) (Hcfg : retry_config_ok cfg).

Lemma RequestSync_ok now v from to s : sync_ok cfg s → sync_ok cfg (RequestSync self send now v from to s).1.1.
Proof.
  intros [Hc Hr Ha]. unfold RequestSync. destruct (s_running s); [|done]. cbn [negb fst].
  split; [done| |by apply addrs_fresh]. cbn. apply map_Forall_insert_2; [|done]. split; cbn; [done| |].
  - destruct Hcfg. lia.
  - rewrite Hc, Z.mul_1_r. destruct Hcfg. lia.
Qed.

Lemma catch_up_loop_ok now from to vs s : sync_ok cfg s → sync_ok cfg (catch_up_loop self send now from to vs s).1.1.
Proof.
  revert s. induction vs as [|v vs IH]; intros s Hs; cbn [catch_up_loop]; [done|].
  case_bool_decide; [by apply IH|]. pose proof (RequestSync_ok now (Index v) from to s Hs) as H1.
  destruct (RequestSync _ _ _ _ _ _ _) as [[s1 out] [e|]]; [|done]. specialize (IH s1 H1).
  by destruct (catch_up_loop _ _ _ _ _ _ _) as [[? ?] ?].
Qed.

Lemma CatchUp_ok now highest to s : sync_ok cfg s → sync_ok cfg (CatchUp self send now highest to s).1.1.
Proof.
  intros Hs. unfold CatchUp. destruct (s_running s); [|done]. cbn [negb]. case_bool_decide; [done|].
  by apply catch_up_loop_ok.
Qed.

Lemma probe_loop_ok now local vs s : sync_ok cfg s → sync_ok cfg (probe_loop self send now local vs s).1.
Proof.
  revert s. induction vs as [|v vs IH]; intros s Hs; cbn [probe_loop]; [done|].
  case_bool_decide; [by apply IH|]. destruct (pendingReqs s !! Index v); [by apply IH|].
  pose proof (RequestSync_ok now (Index v) (if bool_decide (local = 0) then 0 else u64 (local + 1)) 0 s Hs) as H1.
  destruct (RequestSync _ _ _ _ _ _ _) as [[s1 out] e]. specialize (IH s1 H1).
  by destruct (probe_loop _ _ _ _ _ _) as [? ?].
Qed.

Lemma checkAndSync_ok now local s : sync_ok cfg s → sync_ok cfg (checkAndSync self send now local s).1.
Proof.
  intros Hs. unfold checkAndSync. destruct (s_running s); [|done]. cbn [negb].
  set (b := _ && _). pose proof (CatchUp_ok now local (observed_target s) s Hs) as H1.
  assert (sync_ok cfg (if b then let '(s, out, _) := CatchUp self send now local (observed_target s) s in (s, out)
                       else (s, [])).1) as H2.
  { destruct b; [|done]. by destruct (CatchUp _ _ _ _ _ _) as [[? ?] ?]. }
  destruct (if b then _ else _) as [s1 out]. pose proof (probe_loop_ok now local
    (VS_Validators (s_validatorSet s1)) s1 H2) as H3.
  by destruct (probe_loop _ _ _ _ _ _) as [? ?].
Qed.

Lemma reschedule_ok now peer r :
  request_ok cfg peer r → retryCount r < MaxRetries cfg → request_ok cfg peer (reschedule now cfg r).
Proof.
  intros [Ht Hc Hn] Hlt. unfold reschedule. split; cbn; [done|lia|].
  rewrite backoff_loop_eq by apply Hcfg. rewrite Z2Nat.id by lia. done.
Qed.

Lemma retrySyncRequest_ok r s :
  sync_ok cfg s → request_ok cfg (targetPeer r) r → sync_ok cfg (retrySyncRequest self r s).1.
Proof.
  intros [Hc Hr Ha] Hok. unfold retrySyncRequest. destruct (s_running s); [|done]. cbn [negb fst].
  destruct (pendingReqs s !! targetPeer r) as [e|] eqn:E; [|done]. case_bool_decide as Had; [|done].
  split; [done| |cbn; by eapply addrs_move]. cbn. apply map_Forall_insert_2; [|by apply map_Forall_delete].
  destruct Hok as [_ H1 H2]. by split.
Qed.

(** The requests that a cleanup reschedules. *)
Definition to_retry {RO : RangeOrder Z pendingSyncRequest} (now : Z) (m : gmap Z pendingSyncRequest) :
    list (Z * pendingSyncRequest) :=
  filter (λ p, ¬ retryCount p.2 >= MaxRetries cfg) (filter (λ p, now > nextRetryAt p.2) (range m)).
Definition to_remove {RO : RangeOrder Z pendingSyncRequest} (now : Z) (m : gmap Z pendingSyncRequest) :
    list (Z * pendingSyncRequest) :=
  filter (λ p, retryCount p.2 >= MaxRetries cfg) (filter (λ p, now > nextRetryAt p.2) (range m)).
Definition kept {RO : RangeOrder Z pendingSyncRequest} (now : Z) (m : gmap Z pendingSyncRequest) :=
  fold_left (λ m (p : Z * pendingSyncRequest), delete p.1 m) (to_remove now m) m.
Definition rescheduled (now : Z) (l : list (Z * pendingSyncRequest)) : list (Z * pendingSyncRequest) :=
  (λ p, (p.1, reschedule now cfg p.2)) <$> l.
Definition put_all (l : list (Z * pendingSyncRequest)) (m : gmap Z pendingSyncRequest) :=
  fold_left (λ m p, <[p.1 := p.2]> m) l m.
Definition retry_all (l : list (Z * pendingSyncRequest)) s (out : list (Z * SyncRequest)) :=
  fold_left (λ '(s, out) p, let '(s, out') := retrySyncRequest self p.2 s in (s, out ++ out')) l (s, out).

Lemma cleanup_eq {RO : RangeOrder Z pendingSyncRequest} now s :
  s_cfg s = cfg →
  cleanupTimedOutRequests self now s =
    retry_all (rescheduled now (to_retry now (pendingReqs s)))
      (s <| pendingReqs := put_all (rescheduled now (to_retry now (pendingReqs s))) (kept now (pendingReqs s)) |>) [].
Proof using. intros E. unfold retry_all, put_all, rescheduled, kept, to_retry, to_remove. rewrite <-E. done. Qed.

(** What is to be retried is still pending after the removals. *)
Lemma to_retry_spec {RO : RangeOrder Z pendingSyncRequest} now m :
  NoDup (to_retry now m).*1 ∧
  ∀ p, p ∈ to_retry now m → m !! p.1 = Some p.2 ∧ retryCount p.2 < MaxRetries cfg ∧ kept now m !! p.1 = Some p.2.
Proof using.
  split.
  - unfold to_retry. eapply sublist_NoDup; [apply (range_NoDup m)|]. apply fmap_sublist.
    etrans; apply sublist_filter.
  - intros [k r] [Hc [_ Hin%elem_of_range]%list_elem_of_filter]%list_elem_of_filter. cbn [fst snd] in *.
    split_and!; [done|lia|]. unfold kept. rewrite delete_all_lookup; [done|].
    intros ([k' r'] & -> & [Hc' [_ Hin'%elem_of_range]%list_elem_of_filter]%list_elem_of_filter)%list_elem_of_fmap.
    cbn [fst snd] in *. assert (r = r') as -> by congruence. done.
Qed.

Lemma kept_ok {RO : RangeOrder Z pendingSyncRequest} next now m :
  requests_ok cfg m → addrs_ok next m → requests_ok cfg (kept now m) ∧ addrs_ok next (kept now m).
Proof using.
  unfold kept. generalize (to_remove now m). intros l. revert m. induction l as [|p l IH]; intros m Hm Ha; [done|].
  apply IH; [by apply map_Forall_delete|by apply addrs_delete].
Qed.

Lemma put_all_ok next now l m :
  NoDup l.*1 → (∀ p, p ∈ l → m !! p.1 = Some p.2 ∧ retryCount p.2 < MaxRetries cfg) →
  requests_ok cfg m → addrs_ok next m →
  requests_ok cfg (put_all (rescheduled now l) m) ∧ addrs_ok next (put_all (rescheduled now l) m) ∧
  ∀ p, p ∈ rescheduled now l → put_all (rescheduled now l) m !! p.1 = Some p.2.
Proof using Hcfg.
  revert m. induction l as [|[k r] l IH]; intros m Hnd Hin Hm Ha.
  { split_and!; [done..|]. by intros ? ?%not_elem_of_nil. }
  rewrite fmap_cons in Hnd. apply NoDup_cons in Hnd as [Hni Hnd].
  destruct (Hin (k, r)) as [Ek Hc]; [left|]. cbn [fst snd] in *.
  destruct (IH (<[k := reschedule now cfg r]> m)) as (H1 & H2 & H3); [done| | | |].
  - intros p Hp. destruct (Hin p) as [Ep Hpc]; [by right|]. split; [|done]. rewrite lookup_insert_ne; [done|].
    intros ->. apply Hni. by apply list_elem_of_fmap_2.
  - apply map_Forall_insert_2; [|done]. apply reschedule_ok; [by apply Hm|done].
  - by eapply addrs_update.
  - cbn. split_and!; [done..|]. intros p [->|Hp]%elem_of_cons; [|by apply H3]. cbn [fst snd].
    unfold put_all. clear -Hni. set (m' := <[k := _]> m).
    assert (m' !! k = Some (reschedule now cfg r)) as E by apply lookup_insert_eq. revert E. generalize m'. clear m'.
    induction l as [|[k' r'] l IH]; intros m' E; [done|]. rewrite fmap_cons, not_elem_of_cons in Hni. cbn [rescheduled fmap list_fmap fold_left].
    apply IH; [tauto|]. rewrite lookup_insert_ne; [done|]. cbn. naive_solver.
Qed.

Lemma retry_all_ok l s out :
  sync_ok cfg s → Forall (λ p, request_ok cfg p.1 p.2) l → sync_ok cfg (retry_all l s out).1.
Proof using Hcfg.
  intros Hs Hl. revert s out Hs. unfold retry_all. induction Hl as [|p l Hp Hl IH]; intros s out Hs; [done|]. cbn [fold_left].
  pose proof (retrySyncRequest_ok p.2 s Hs) as H2.
  destruct (retrySyncRequest self p.2 s) as [s2 out']. apply IH, H2.
  destruct Hp as [Ht Hn1 Hn2]. by split.
Qed.

Lemma rescheduled_ok now l m :
  requests_ok cfg m → (∀ p, p ∈ l → m !! p.1 = Some p.2 ∧ retryCount p.2 < MaxRetries cfg) →
  Forall (λ p, request_ok cfg p.1 p.2) (rescheduled now l).
Proof using Hcfg.
  intros Hm Hl. apply Forall_fmap, Forall_forall. intros p [E Hc]%Hl. cbn. apply reschedule_ok; [by apply Hm|done].
Qed.

Lemma cleanup_ok {RO : RangeOrder Z pendingSyncRequest} now s :
  sync_ok cfg s → sync_ok cfg (cleanupTimedOutRequests self now s).1.
Proof using Hcfg.
  intros [Hc Hr Ha]. rewrite cleanup_eq by done. destruct (to_retry_spec now (pendingReqs s)) as [Hnd Hin].
  destruct (kept_ok (s_next s) now _ Hr Ha) as [Hk1 Hk2].
  destruct (put_all_ok (s_next s) now (to_retry now (pendingReqs s)) (kept now (pendingReqs s))) as (H1 & H2 & _);
    [done|intros p Hp; by destruct (Hin p Hp) as (_ & ? & ?)|done|done|].
  apply retry_all_ok; [by split|]. eapply rescheduled_ok; [exact Hr|]. intros p Hp. by destruct (Hin p Hp) as (? & ? & _).
Qed.
End retries.

(** ** How many retries are left
    Every pending request can still be retried [MaxRetries - retryCount] times;
    a retry uses one of these, only new requests add to them. *)
Definition budget (cfg : SyncConfig) (m : gmap Z pendingSyncRequest) : Z :=
  map_fold (λ _ r acc, MaxRetries cfg - retryCount r + acc) 0 m.

Section budget.
Context (self : Z) (send : Z → SyncRequest → option error) (cfg : SyncConfig) (Hcfg : retry_config_ok cfg).

Lemma budget_empty : budget cfg ∅ = 0.
Proof using. apply map_fold_empty. Qed.

Lemma budget_insert_new k r m : m !! k = None → budget cfg (<[k := r]> m) = MaxRetries cfg - retryCount r + budget cfg m.
Proof using. intros E. unfold budget. rewrite map_fold_insert_L; [done| |done]. intros. lia. Qed.

Lemma budget_lookup k r m : m !! k = Some r → budget cfg m = MaxRetries cfg - retryCount r + budget cfg (delete k m).
Proof using. intros E. rewrite <-(insert_delete_id m k r E) at 1. apply budget_insert_new, lookup_delete_eq. Qed.

Lemma budget_insert k r m : budget cfg (<[k := r]> m) = MaxRetries cfg - retryCount r + budget cfg (delete k m).
Proof using. rewrite <-insert_delete_eq. apply budget_insert_new, lookup_delete_eq. Qed.

Lemma budget_nonneg m : requests_ok cfg m → 0 ≤ budget cfg m.
Proof using.
  induction m as [|k r m E IH] using map_ind; intros Hm; [by rewrite budget_empty|].
  rewrite budget_insert_new by done. apply map_Forall_insert in Hm as [[_ Hr _] Hm]; [|done]. specialize (IH Hm). lia.
Qed.

Lemma budget_delete k m : requests_ok cfg m → budget cfg (delete k m) ≤ budget cfg m.
Proof using.
  intros Hm. destruct (m !! k) as [r|] eqn:E; [|by rewrite delete_id].
  rewrite (budget_lookup k r m E). destruct (Hm k r E) as [_ Hr _]. lia.
Qed.

Lemma RequestSync_budget now v from to s :
  sync_ok cfg s →
  budget cfg (pendingReqs (RequestSync self send now v from to s).1.1) ≤
    budget cfg (pendingReqs s) + MaxRetries cfg * zlen (RequestSync self send now v from to s).1.2.
Proof using.
  intros [Hc Hr _]. unfold RequestSync. destruct (s_running s); [|cbn; lia]. cbn. rewrite budget_insert. cbn.
  pose proof (budget_delete v _ Hr). lia.
Qed.

Lemma catch_up_loop_budget now from to vs s :
  sync_ok cfg s →
  budget cfg (pendingReqs (catch_up_loop self send now from to vs s).1.1) ≤
    budget cfg (pendingReqs s) + MaxRetries cfg * zlen (catch_up_loop self send now from to vs s).1.2.
Proof using Hcfg.
  revert s. induction vs as [|v vs IH]; intros s Hs; cbn [catch_up_loop]; [cbn; lia|].
  case_bool_decide; [by apply IH|]. pose proof (RequestSync_budget now (Index v) from to s Hs) as H1.
  pose proof (RequestSync_ok self send cfg Hcfg now (Index v) from to s Hs) as Hs1.
  destruct (RequestSync _ _ _ _ _ _ _) as [[s1 out] [e|]]; [|done]. specialize (IH s1 Hs1).
  destruct (catch_up_loop _ _ _ _ _ _ _) as [[s2 out2] e2]. cbn in *. rewrite length_app. lia.
Qed.

Lemma CatchUp_budget now highest to s :
  sync_ok cfg s →
  budget cfg (pendingReqs (CatchUp self send now highest to s).1.1) ≤
    budget cfg (pendingReqs s) + MaxRetries cfg * zlen (CatchUp self send now highest to s).1.2.
Proof using Hcfg.
  intros Hs. unfold CatchUp. destruct (s_running s); [|cbn; lia]. cbn [negb]. case_bool_decide; [cbn; lia|].
  by apply catch_up_loop_budget.
Qed.

Lemma probe_loop_budget now local vs s :
  sync_ok cfg s →
  budget cfg (pendingReqs (probe_loop self send now local vs s).1) ≤
    budget cfg (pendingReqs s) + MaxRetries cfg * zlen (probe_loop self send now local vs s).2.
Proof using Hcfg.
  revert s. induction vs as [|v vs IH]; intros s Hs; cbn [probe_loop]; [cbn; lia|].
  case_bool_decide; [by apply IH|]. destruct (pendingReqs s !! Index v); [by apply IH|].
  set (from := if bool_decide _ then _ else _).
  pose proof (RequestSync_budget now (Index v) from 0 s Hs) as H1.
  pose proof (RequestSync_ok self send cfg Hcfg now (Index v) from 0 s Hs) as Hs1.
  destruct (RequestSync _ _ _ _ _ _ _) as [[s1 out] e]. specialize (IH s1 Hs1).
  destruct (probe_loop _ _ _ _ _ _) as [s2 out2]. cbn in *. rewrite length_app. lia.
Qed.

Lemma checkAndSync_budget now local s :
  sync_ok cfg s →
  budget cfg (pendingReqs (checkAndSync self send now local s).1) ≤
    budget cfg (pendingReqs s) + MaxRetries cfg * zlen (checkAndSync self send now local s).2.
Proof using Hcfg.
  intros Hs. unfold checkAndSync. destruct (s_running s); [|cbn; lia]. cbn [negb].
  set (b := _ && _). pose proof (CatchUp_ok self send cfg Hcfg now local (observed_target s) s Hs) as H1.
  pose proof (CatchUp_budget now local (observed_target s) s Hs) as H2.
  destruct b.
  - destruct (CatchUp _ _ _ _ _ _) as [[s1 out] e]. cbn [fst snd] in *.
    pose proof (probe_loop_budget now local (VS_Validators (s_validatorSet s1)) s1 H1).
    destruct (probe_loop _ _ _ _ _ _) as [s2 out2]. cbn in *. rewrite length_app. lia.
  - pose proof (probe_loop_budget now local (VS_Validators (s_validatorSet s)) s Hs).
    destruct (probe_loop _ _ _ _ _ _) as [s2 out2]. done.
Qed.

(** Rescheduling requests that are pending uses up one retry of each. *)
Lemma put_all_budget now l m :
  NoDup l.*1 → (∀ p, p ∈ l → m !! p.1 = Some p.2) →
  budget cfg (put_all (rescheduled cfg now l) m) + zlen l = budget cfg m.
Proof using.
  revert m. induction l as [|[k r] l IH]; intros m Hnd Hin; [cbn; lia|]. rewrite fmap_cons in *. apply NoDup_cons in Hnd as [Hni Hnd].
  cbn [length]. rewrite Nat2Z.inj_succ, <-Z.add_1_r, Z.add_assoc.
  change (put_all (rescheduled cfg now ((k, r) :: l)) m) with (put_all (rescheduled cfg now l) (<[k := reschedule now cfg r]> m)).
  rewrite IH; [|done|].
  - rewrite budget_insert, (budget_lookup k r m) by (apply (Hin (k, r)); left). cbn. lia.
  - intros p Hp. rewrite lookup_insert_ne; [apply Hin; by right|]. intros ->. apply Hni. cbn [fst]. by apply list_elem_of_fmap_2.
Qed.

(** Sending the retries adds nothing: a moved request keeps its count, and what it
    replaces is dropped. *)
Lemma retrySyncRequest_budget r s :
  sync_ok cfg s → (∀ e, pendingReqs s !! targetPeer r = Some e → rq_addr e = rq_addr r → e = r) →
  budget cfg (pendingReqs (retrySyncRequest self r s).1) ≤ budget cfg (pendingReqs s) ∧
  (length (retrySyncRequest self r s).2 ≤ 1)%nat.
Proof using.
  intros [Hc Hr Had] Hsame. unfold retrySyncRequest. destruct (s_running s); [|split; [done|cbn; lia]]. cbn [negb fst snd length].
  split; [|lia]. destruct (pendingReqs s !! targetPeer r) as [e|] eqn:E; [|done]. case_bool_decide as Ha; [|done]. cbn.
  rewrite budget_insert, (budget_lookup _ _ _ E). cbn. rewrite (Hsame e eq_refl Ha).
  assert (requests_ok cfg (delete (targetPeer r) (pendingReqs s))) as Hd by by apply map_Forall_delete.
  pose proof (budget_delete (pick_peer self (VS_Validators (s_validatorSet s)) (targetPeer r)) _ Hd). lia.
Qed.

Lemma retry_all_budget l s out :
  sync_ok cfg s → Forall (λ p, request_ok cfg p.1 p.2) l → NoDup ((rq_addr ∘ snd) <$> l) →
  (∀ p e, p ∈ l → pendingReqs s !! p.1 = Some e → rq_addr e = rq_addr p.2 → e = p.2) →
  budget cfg (pendingReqs (retry_all self l s out).1) ≤ budget cfg (pendingReqs s) ∧
  (length (retry_all self l s out).2 ≤ length out + length l)%nat.
Proof using Hcfg.
  intros Hs Hl. revert s out Hs. unfold retry_all. induction Hl as [|p l Hp Hl IH]; intros s out Hs Hnd Hin; [cbn; lia|]. cbn [fold_left].
  rewrite fmap_cons in Hnd. apply NoDup_cons in Hnd as [Hni Hnd].
  assert (targetPeer p.2 = p.1) as Ht by apply Hp.
  assert (request_ok cfg (targetPeer p.2) p.2) as Hp' by (by rewrite Ht).
  pose proof (retrySyncRequest_ok self cfg p.2 s Hs Hp') as Hs1.
  destruct (retrySyncRequest_budget p.2 s Hs) as [Hb Hlen].
  { rewrite Ht. intros e. apply (Hin p e). left. }
  assert (∀ q e, q ∈ l → pendingReqs (retrySyncRequest self p.2 s).1 !! q.1 = Some e → rq_addr e = rq_addr q.2 → e = q.2) as Hin1.
  { intros q e Hq. assert (rq_addr p.2 ≠ rq_addr q.2) as Hne.
    { intros E. apply Hni. apply list_elem_of_fmap. by exists q. }
    unfold retrySyncRequest. destruct (s_running s); [|apply Hin; by right]. cbn [negb fst].
    destruct (pendingReqs s !! targetPeer p.2); [|apply Hin; by right]. case_bool_decide; [|apply Hin; by right]. cbn.
    intros [[_ <-]|[_ [_ E]%lookup_delete_Some]]%lookup_insert_Some Ea; [by destruct Hne|]. by apply Hin; [right|..]. }
  destruct (retrySyncRequest self p.2 s) as [s1 out1]. cbn [fst snd] in *.
  destruct (IH s1 (out ++ out1) Hs1 Hnd Hin1) as [H1 H2]. split; [lia|]. rewrite length_app in H2. cbn [length]. lia.
Qed.

Lemma cleanup_budget {RO : RangeOrder Z pendingSyncRequest} now s :
  sync_ok cfg s →
  zlen (cleanupTimedOutRequests self now s).2 + budget cfg (pendingReqs (cleanupTimedOutRequests self now s).1) ≤
    budget cfg (pendingReqs s).
Proof using Hcfg.
  intros [Hc Hr Ha]. rewrite (cleanup_eq self cfg) by done. destruct (to_retry_spec cfg now (pendingReqs s)) as [Hnd Hin].
  destruct (kept_ok cfg (s_next s) now _ Hr Ha) as [Hk1 Hk2]. set (l := to_retry cfg now (pendingReqs s)) in *.
  set (m := kept cfg now (pendingReqs s)) in *.
  destruct (put_all_ok cfg Hcfg (s_next s) now l m) as (H1 & H2 & H3);
    [done|intros p Hp; by destruct (Hin p Hp) as (_ & ? & ?)|done|done|].
  assert (budget cfg m ≤ budget cfg (pendingReqs s)) as Hm.
  { unfold m, kept. clear -Hr Hcfg. generalize (to_remove cfg now (pendingReqs s)). intros r.
    revert Hr. generalize (pendingReqs s). induction r as [|p r IH]; intros m' Hr; [done|]. cbn [fold_left].
    etrans; [apply IH; by apply map_Forall_delete|by apply budget_delete]. }
  pose proof (put_all_budget now l m Hnd (λ p Hp, proj2 (proj2 (Hin p Hp)))) as Hput.
  set (s1 := s <| pendingReqs := _ |>). assert (sync_ok cfg s1) as Hs1 by (by split).
  destruct (retry_all_budget (rescheduled cfg now l) s1 [] Hs1) as [Hb Hlen].
  - eapply (rescheduled_ok cfg Hcfg); [exact Hr|]. intros p Hp. by destruct (Hin p Hp) as (? & ? & _).
  - unfold rescheduled. rewrite <-list_fmap_compose. apply (NoDup_fmap_2_strong (rq_addr ∘ snd ∘ _)).
    + intros p q Hp Hq E. cbn in E. destruct (Hin p Hp) as (Ep & _), (Hin q Hq) as (Eq & _).
      assert (p.1 = q.1) as E1 by (by eapply (ad_unique _ _ Ha)). destruct p, q; cbn in *; congruence.
    + by apply (NoDup_fmap_1 fst).
  - intros p e Hp E _. change (pendingReqs s1) with (put_all (rescheduled cfg now l) m) in E. rewrite H3 in E by done. congruence.
  - change (pendingReqs s1) with (put_all (rescheduled cfg now l) m) in Hb.
    assert (length (rescheduled cfg now l) = length l) as El by apply length_fmap. rewrite El in Hlen. cbn [length] in Hlen. lia.
Qed.
End budget.

(** ** Runs of the manager *)
Section runs.
Context `{Ed : Ed25519} {B : Type} {BS : BatchStore B} {RO : RangeOrder Z pendingSyncRequest}.
Context (self : Z) (send : Z → SyncRequest → option error).

Inductive sync_op :=
  | SyStart | SyStop
  | SyRequest (now v from to : Z)
  | SyCatchUp (now highest target : Z)
  | SyCheck (now highest : Z)
  | SyPeer (now peer : Z)
  | SyCleanup (now : Z)
  | SyResponse (resp : SyncResponse) (from : Z) (batches : B)
  | SyValidators (vs : ValidatorSet).

Definition sync_exec s (op : sync_op) : SyncManager :=
  match op with
  | SyStart => (Start s).1
  | SyStop => (Stop s).1
  | SyRequest now v from to => (RequestSync self send now v from to s).1.1
  | SyCatchUp now h t => (CatchUp self send now h t s).1.1
  | SyCheck now h => (checkAndSync self send now h s).1
  | SyPeer now p => (RequestPeerCatchUp self send now p s).1.1
  | SyCleanup now => (cleanupTimedOutRequests self now s).1
  | SyResponse resp from b => (HandleSyncResponse resp from b s).1.1.1
  | SyValidators vs => UpdateValidatorSet s vs
  end.

Lemma recordPeer_frame peer round s :
  s_cfg (recordPeerHighestRound peer round s) = s_cfg s ∧
  pendingReqs (recordPeerHighestRound peer round s) = pendingReqs s ∧
  s_validatorSet (recordPeerHighestRound peer round s) = s_validatorSet s ∧
  s_next (recordPeerHighestRound peer round s) = s_next s.
Proof. unfold recordPeerHighestRound. destruct (_ !! _); [case_bool_decide|]; done. Qed.

Lemma HandleSyncResponse_manager resp from (b : B) s :
  (HandleSyncResponse resp from b s).1.1.1 =
    if s_running s then recordPeerHighestRound from (SP_ToRound resp)
                          (s <| pendingReqs := delete from (pendingReqs s) |>) else s.
Proof.
  unfold HandleSyncResponse. destruct (s_running s); [|done]. cbn [negb].
  by destruct (save_batches _ _) as [? [?|]].
Qed.

Lemma sync_exec_ok cfg s op : retry_config_ok cfg → sync_ok cfg s → sync_ok cfg (sync_exec s op).
Proof.
  intros Hcfg Hs. pose proof Hs as [Hc Hr Ha]. destruct op; cbn [sync_exec].
  - unfold Start. by destruct (s_running s).
  - unfold Stop. by destruct (s_running s).
  - by apply RequestSync_ok.
  - by apply CatchUp_ok.
  - by apply checkAndSync_ok.
  - unfold RequestPeerCatchUp. destruct (s_running s); [|done]. cbn [negb].
    destruct (_ !! _); [done|]. by apply RequestSync_ok.
  - by apply cleanup_ok.
  - rewrite HandleSyncResponse_manager. destruct (s_running s); [|done].
    destruct (recordPeer_frame from (SP_ToRound resp) (s <| pendingReqs := delete from (pendingReqs s) |>))
      as (E1 & E2 & _ & E3). split; rewrite ?E1, ?E2, ?E3; [done|by apply map_Forall_delete|by apply addrs_delete].
  - done.
Qed.

(** What an operation sends: new requests, and retries of timed-out ones. *)
Definition new_requests s (op : sync_op) : list (Z * SyncRequest) :=
  match op with
  | SyRequest now v from to => (RequestSync self send now v from to s).1.2
  | SyCatchUp now h t => (CatchUp self send now h t s).1.2
  | SyCheck now h => (checkAndSync self send now h s).2
  | SyPeer now p => (RequestPeerCatchUp self send now p s).1.2
  | _ => []
  end.
Definition retries s (op : sync_op) : list (Z * SyncRequest) :=
  match op with SyCleanup now => (cleanupTimedOutRequests self now s).2 | _ => [] end.

(** A run, with everything it sends. *)
Fixpoint sync_run (ops : list sync_op) s : SyncManager * list (Z * SyncRequest) * list (Z * SyncRequest) :=
  match ops with
  | [] => (s, [], [])
  | op :: ops' =>
      let '(s', sent, retried) := sync_run ops' (sync_exec s op) in
      (s', new_requests s op ++ sent, retries s op ++ retried)
  end.

Lemma sync_exec_budget cfg s op :
  retry_config_ok cfg → sync_ok cfg s →
  zlen (retries s op) + budget cfg (pendingReqs (sync_exec s op)) ≤
    budget cfg (pendingReqs s) + MaxRetries cfg * zlen (new_requests s op).
Proof.
  intros Hcfg Hs. pose proof Hs as [Hc Hr Ha]. destruct op; cbn [sync_exec new_requests retries]; cbn [length]; rewrite ?Z.add_0_l.
  - unfold Start. destruct (s_running s); cbn; lia.
  - unfold Stop. destruct (s_running s); cbn; lia.
  - by apply RequestSync_budget.
  - by apply CatchUp_budget.
  - by apply checkAndSync_budget.
  - unfold RequestPeerCatchUp. destruct (s_running s); [|cbn; lia]. cbn [negb].
    destruct (_ !! _); [cbn; lia|]. by apply RequestSync_budget.
  - pose proof (cleanup_budget self cfg Hcfg now s Hs). lia.
  - rewrite HandleSyncResponse_manager. destruct (s_running s); [|lia].
    destruct (recordPeer_frame from (SP_ToRound resp) (s <| pendingReqs := delete from (pendingReqs s) |>))
      as (_ & E2 & _). rewrite E2. cbn. pose proof (budget_delete cfg from (pendingReqs s) Hr). lia.
  - cbn. lia.
Qed.

Lemma sync_run_budget cfg ops s :
  retry_config_ok cfg → sync_ok cfg s →
  let '(s', sent, retried) := sync_run ops s in
  sync_ok cfg s' ∧ zlen retried + budget cfg (pendingReqs s') ≤ budget cfg (pendingReqs s) + MaxRetries cfg * zlen sent.
Proof.
  intros Hcfg. revert s. induction ops as [|op ops IH]; intros s Hs; cbn [sync_run]; [split; [done|cbn; lia]|].
  pose proof (sync_exec_budget cfg s op Hcfg Hs) as H1. specialize (IH _ (sync_exec_ok cfg s op Hcfg Hs)).
  destruct (sync_run ops (sync_exec s op)) as [[s' sent] retried]. destruct IH as [H2 H3]. split; [done|].
  rewrite !length_app. lia.
Qed.

(** C28. Retries are bounded: in every run of a new manager with a positive
    initial backoff of at most the maximal one, at most [MaxRetries] retries are
    sent for each request sent, over all peers together.  Every pending request is
    registered for the peer it was last sent to, its count of retries is at most
    [MaxRetries], and it is due again after the initial backoff doubled as often
    as it was retried, capped at [MaxBackoff]. *)
Theorem sync_retries_bounded vs cfg ops :
  retry_config_ok cfg →
  let '(s, sent, retried) := sync_run ops (NewSyncManager vs cfg) in
  zlen retried ≤ MaxRetries cfg * zlen sent ∧
  ∀ peer r, pendingReqs s !! peer = Some r →
    targetPeer r = peer ∧ 0 ≤ retryCount r ≤ MaxRetries cfg ∧
    nextRetryAt r = lastRetryAt r + Z.min (InitialBackoff cfg * 2 ^ retryCount r) (MaxBackoff cfg).
Proof.
  intros Hcfg. assert (sync_ok cfg (NewSyncManager vs cfg)) as H0 by (split; [done|apply map_Forall_empty|apply addrs_empty]).
  pose proof (sync_run_budget cfg ops _ Hcfg H0) as Hb. destruct (sync_run ops _) as [[s sent] retried].
  destruct Hb as [[_ Hs] Hb]. rewrite budget_empty in Hb. pose proof (budget_nonneg cfg _ Hs). split; [lia|].
  by intros peer r [? ? ?]%Hs.
Qed.
End runs.

(** ** Answers *)
Section answer_claims.
Context `{Ed : Ed25519} {S B : Type} {CS : CertificateStore S} {CL : CertificateStoreLaws S}.
Context {BS : BatchStore B} {BL : BatchStoreLaws B} {RC : RangeOrder Z Certificate}.

(** The batch references of certificates. *)
Definition refs_of (certs : list Certificate) : list Hash :=
  concat (map (λ c, BD_Digest <$> BatchRefs (CHeader c)) certs).

Lemma collect_batches_spec (batches : B) certs :
  bs_ok batches →
  NoDup (Batch_Digest <$> collect_batches batches certs) ∧
  ∀ b, b ∈ collect_batches batches certs ↔
    bs_view batches !! Batch_Digest b = Some b ∧ Batch_Digest b ∈ refs_of certs.
Proof.
  intros Hb. unfold collect_batches. set (f := λ '(seen, out) ref, _).
  assert (refs_of certs = BD_Digest <$> concat (map (λ c, BatchRefs (CHeader c)) certs)) as ->.
  { unfold refs_of. induction certs as [|c cs IH]; [done|]. cbn. by rewrite fmap_app, IH. }
  set (l := concat _). clearbody l. clear certs.
  enough (∀ (seen : gset Hash) out,
    NoDup (Batch_Digest <$> out) → (∀ b, b ∈ out → Batch_Digest b ∈ seen) →
    let out' := (fold_left f l (seen, out)).2 in
    NoDup (Batch_Digest <$> out') ∧
    ∀ b, b ∈ out' ↔ b ∈ out ∨ ((Batch_Digest b) ∉ seen) ∧ bs_view batches !! Batch_Digest b = Some b ∧
      Batch_Digest b ∈ BD_Digest <$> l) as H.
  { destruct (H ∅ []) as [H1 H2]; [constructor|by intros ? ?%not_elem_of_nil|]. split; [done|].
    intros b. rewrite H2. split; [intros [?%not_elem_of_nil|?]; [done|tauto]|]. intros ?. right. set_solver. }
  induction l as [|ref l IH]; intros seen out Hn Hs; cbn [fold_left].
  { split; [done|]. intros b. split; [by left|]. intros [?|(_ & _ & ?%not_elem_of_nil)]; done. }
  unfold f at 2 4. destruct (decide (BD_Digest ref ∈ seen)) as [Hin|Hni].
  { destruct (IH seen out Hn Hs) as [H1 H2]. split; [done|]. intros b. rewrite H2, fmap_cons, elem_of_cons.
    split; [tauto|]. intros [?|(? & ? & [E|?])]; [by left| |by right]. congruence. }
  rewrite (bs_get _ (BD_Digest ref) Hb). destruct (bs_view batches !! BD_Digest ref) as [b0|] eqn:E.
  - pose proof (bs_key _ _ _ Hb E) as Ek.
    destruct (IH ({[BD_Digest ref]} ∪ seen) (out ++ [b0])) as [H1 H2].
    { rewrite fmap_app. apply NoDup_app. split_and!; [done| |apply NoDup_singleton].
      intros h (b & -> & Hbo)%list_elem_of_fmap [= Eh]%list_elem_of_singleton. apply Hni.
      rewrite <-Ek, <-Eh. by apply Hs. }
    { intros b [?|Hb0%list_elem_of_singleton]%elem_of_app; [set_solver|]. subst b0. set_solver. }
    split; [done|]. intros b. rewrite H2, elem_of_app, list_elem_of_singleton, fmap_cons, elem_of_cons.
    rewrite not_elem_of_union, not_elem_of_singleton. split.
    + intros [[?|Hb0]|(? & ? & ?)]; [by left| |right; tauto]. subst b0. right. rewrite Ek. split_and!; [done|done|by left].
    + intros [?|(H3 & H4 & H5)]; [by left; left|]. destruct (decide (Batch_Digest b = BD_Digest ref)) as [Eb|Hne].
      * left. right. congruence.
      * right. destruct H5; [done|]. tauto.
  - destruct (IH ({[BD_Digest ref]} ∪ seen) out) as [H1 H2]; [done|set_solver|].
    split; [done|]. intros b. rewrite H2, fmap_cons, elem_of_cons, not_elem_of_union, not_elem_of_singleton.
    split; [tauto|]. intros [?|(H3 & H4 & H5)]; [by left|right].
    assert (Batch_Digest b ≠ BD_Digest ref) by congruence. destruct H5; [done|]. tauto.
Qed.

(** The round asked for, with 0 standing for the latest. *)
Definition asked_to (d : DAG S) (req : SyncRequest) : Z :=
  if bool_decide (SR_ToRound req = 0) then highestRound d else SR_ToRound req.

Lemma served_to_eq (d : DAG S) cfg req :
  0 ≤ SR_FromRound req → SR_FromRound req ≤ asked_to d req + 1 → asked_to d req < 2 ^ 64 - 1 →
  0 < SyncBatchSize cfg → SR_FromRound req + SyncBatchSize cfg < 2 ^ 64 →
  served_to cfg (highestRound d) req = Z.min (asked_to d req) (SR_FromRound req + SyncBatchSize cfg - 1).
Proof.
  intros H1 H2 H3 H4 H5. unfold served_to. fold (asked_to d req). set (to := asked_to d req) in *.
  rewrite !(wrap_id 64 (SyncBatchSize cfg)) by (unfold fits; lia). rewrite wrap_add_l.
  rewrite (wrap_id 64 (to - _ + 1)) by (unfold fits; lia).
  rewrite (wrap_id 64 (SR_FromRound req + _)) by (unfold fits; lia).
  case_bool_decide; [rewrite wrap_id by (unfold fits; lia)|]; lia.
Qed.

(** C26. A sync request is answered completely and boundedly: a running manager
    asked for rounds from at most one above the last one it is asked for (below
    the last 64-bit round) answers, for rounds held in memory of a consistent DAG
    and from a consistent batch store, with exactly the certificates of the first
    [SyncBatchSize] rounds of the range, ordered by round and author, and with
    exactly the stored batches they refer to, each once; the last round of the
    answer is the last one served.  So the limit counts rounds, where the
    documentation speaks of certificates. *)
Theorem sync_request_answered (d : DAG S) (batches : B) req s :
  dag_ok d → bs_ok batches → s_running s = true →
  0 ≤ SR_FromRound req ≤ asked_to d req + 1 → asked_to d req < 2 ^ 64 - 1 →
  0 < SyncBatchSize (s_cfg s) → SR_FromRound req + SyncBatchSize (s_cfg s) < 2 ^ 64 →
  (∀ r, SR_FromRound req ≤ r ≤ asked_to d req → in_memory d r) →
  let last := Z.min (asked_to d req) (SR_FromRound req + SyncBatchSize (s_cfg s) - 1) in
  ∃ certs bs, HandleSyncRequest d batches req s = Some (Ok (mk_SyncResponse certs bs (SR_FromRound req) last)) ∧
    StronglySorted cert_before certs ∧
    (∀ c, c ∈ certs ↔ SR_FromRound req ≤ CRound c ≤ last ∧ mem_cert d (CRound c) (CAuthor c) = Some c) ∧
    NoDup (Batch_Digest <$> bs) ∧
    (∀ b, b ∈ bs ↔ bs_view batches !! Batch_Digest b = Some b ∧
       ∃ c ref, c ∈ certs ∧ ref ∈ BatchRefs (CHeader c) ∧ BD_Digest ref = Batch_Digest b).
Proof.
  intros Hd Hb Hr H1 H2 H3 H4 Hin last. unfold HandleSyncRequest. rewrite Hr. cbn [negb].
  rewrite served_to_eq by (done || lia). fold last.
  assert (∃ certs, GetOrderedCertificates d (SR_FromRound req) last = Some certs ∧ StronglySorted cert_before certs ∧
    ∀ c, c ∈ certs ↔ SR_FromRound req ≤ CRound c ≤ last ∧ mem_cert d (CRound c) (CAuthor c) = Some c)
    as (certs & -> & Hs & Hm).
  { apply ordered_range; [done|lia|lia|]. intros r Hr'. apply Hin. lia. }
  destruct (collect_batches_spec batches certs Hb) as [Hn Hbs].
  exists certs, (collect_batches batches certs). split_and!; try done.
  intros b. rewrite Hbs. unfold refs_of. rewrite list_elem_of_In, in_concat. split.
  - intros [? (l & Hl & Hbl)]. split; [done|]. apply in_map_iff in Hl as (c & <- & Hc).
    apply list_elem_of_In, list_elem_of_fmap in Hbl as (ref & -> & Href). apply list_elem_of_In in Hc. eauto.
  - intros [? (c & ref & Hc & Href & E)]. split; [done|]. eexists. split; [by apply in_map, list_elem_of_In|].
    rewrite <-E. apply list_elem_of_In. by apply list_elem_of_fmap_2.
Qed.

(** A response of a peer: which certificates get through, what is remembered. *)
Lemma save_batches_view bs (b : B) :
  bs_ok b → let '(b', err) := save_batches bs b in
  err = None ∧ bs_ok b' ∧ bs_view b' = fold_left (λ m x, insert_new (Batch_Digest x) x m) bs (bs_view b).
Proof.
  revert b. induction bs as [|x bs IH]; intros b Hb; cbn [save_batches fold_left]; [done|].
  pose proof (bs_save b x Hb) as Hs. cbv zeta in Hs. destruct (SaveBatch x b) as [b1 e]. cbn [fst snd] in Hs.
  destruct Hs as (-> & Hb1 & <-). by apply IH.
Qed.

(** C27. A sync response cannot inject certificates: a running manager hands on
    exactly the certificates of the response that verify under its validator
    set, in their order, after storing all batches of the response without
    replacing any it has; it forgets the request to that peer, and the highest
    round known of any peer never goes down. *)
Theorem sync_response_filtered resp from (batches : B) s :
  bs_ok batches → s_running s = true → is_u64 (SP_ToRound resp) →
  let '(s', batches', delivered, err) := HandleSyncResponse resp from batches s in
  err = None ∧ sublist delivered (SP_Certificates resp) ∧
  (∀ c, c ∈ delivered ↔ c ∈ SP_Certificates resp ∧ Certificate_Verify c (s_validatorSet s) = None) ∧
  (∀ d b, bs_view batches !! d = Some b → bs_view batches' !! d = Some b) ∧
  (∀ b, b ∈ SP_Batches resp → is_Some (bs_view batches' !! Batch_Digest b)) ∧
  pendingReqs s' !! from = None ∧ SP_ToRound resp ≤ PeerHighestRound from s' ∧
  ∀ peer, PeerHighestRound peer s ≤ PeerHighestRound peer s'.
Proof.
  intros Hb Hr H0. unfold fits in H0. pose proof (HandleSyncResponse_manager resp from batches s) as Hs. rewrite Hr in Hs.
  destruct (recordPeer_frame from (SP_ToRound resp) (s <| pendingReqs := delete from (pendingReqs s) |>))
    as (_ & Ep & Ev & _).
  unfold HandleSyncResponse in *. rewrite Hr in *. cbn [negb] in *. set (s1 := recordPeerHighestRound _ _ _) in *.
  pose proof (save_batches_view (SP_Batches resp) batches Hb) as Hsv.
  destruct (save_batches (SP_Batches resp) batches) as [b' e]. destruct Hsv as (-> & _ & Hv).
  assert (∀ l (m : gmap Hash Batch), (∀ d b, m !! d = Some b → fold_left (λ m x, insert_new (Batch_Digest x) x m) l m !! d = Some b) ∧
    ∀ x, x ∈ l → is_Some (fold_left (λ m x, insert_new (Batch_Digest x) x m) l m !! Batch_Digest x)) as Hins.
  { induction l as [|x l IH]; intros m; [by split; [|intros ? ?%not_elem_of_nil]|]. cbn [fold_left].
    destruct (IH (insert_new (Batch_Digest x) x m)) as [H1 H2]. split.
    - intros d b Hd. apply H1. unfold insert_new. destruct (m !! Batch_Digest x) eqn:E; [done|].
      rewrite lookup_insert_ne; [done|congruence].
    - intros y [->|Hy]%elem_of_cons; [|by apply H2]. unfold insert_new in *.
      destruct (m !! Batch_Digest x) as [z|] eqn:E; [eexists; by apply H1|].
      eexists. apply H1, lookup_insert_eq. }
  rewrite <-Hv in Hins || rewrite Hv. destruct (Hins (SP_Batches resp) (bs_view batches)) as [Hi1 Hi2].
  split_and!; [done|apply sublist_filter| |by rewrite ?Hv|by rewrite ?Hv|by rewrite Ep; apply lookup_delete_eq| |].
  - intros c. rewrite list_elem_of_filter, Ev. cbn. tauto.
  - unfold s1, recordPeerHighestRound, PeerHighestRound. cbn.
    destruct (peerHighest s !! from) as [cur|] eqn:E; [case_bool_decide|]; cbn; rewrite ?lookup_insert_eq, ?E; cbn; lia.
  - intros peer. unfold s1, recordPeerHighestRound, PeerHighestRound. cbn.
    destruct (decide (peer = from)) as [->|Hne].
    + destruct (peerHighest s !! from) as [cur|] eqn:E; [case_bool_decide|]; cbn;
        rewrite ?lookup_insert_eq, ?E; cbn; lia.
    + destruct (peerHighest s !! from) as [cur|] eqn:E; [case_bool_decide|]; cbn; rewrite ?lookup_insert_ne by done; lia.
Qed.

(** A peer that lags looks ahead: asked for rounds above the next one it could
    have, it answers with no certificate of its memory but names as its last
    round the end of a full window above the asked round, since the length of
    the range wraps around. *)
Theorem lagging_peer_looks_ahead (d : DAG S) (batches : B) from requester s :
  s_running s = true → 0 ≤ highestRound d → highestRound d + 1 < from →
  0 < SyncBatchSize (s_cfg s) → from + SyncBatchSize (s_cfg s) < 2 ^ 63 →
  ∃ certs bs, HandleSyncRequest d batches (mk_SyncRequest from 0 requester) s =
    Some (Ok (mk_SyncResponse certs bs from (from + SyncBatchSize (s_cfg s) - 1))).
Proof.
  intros Hr H0 Hlt Hs Hb. unfold HandleSyncRequest. rewrite Hr. cbn [negb SR_FromRound].
  assert (served_to (s_cfg s) (highestRound d) (mk_SyncRequest from 0 requester) = from + SyncBatchSize (s_cfg s) - 1) as ->.
  { unfold served_to. cbn [SR_FromRound SR_ToRound]. rewrite (bool_decide_eq_true_2 (0 = 0)) by done.
    rewrite !(wrap_id 64 (SyncBatchSize _)) by (unfold fits; lia). rewrite wrap_add_l.
    assert (u64 (highestRound d - from + 1) = highestRound d - from + 1 + 2 ^ 64) as ->.
    { symmetry. apply (Z.mod_unique_pos _ _ (-1)); lia. }
    rewrite bool_decide_eq_true_2 by lia.
    rewrite (wrap_id 64 (from + _)) by (unfold fits; lia). rewrite wrap_id by (unfold fits; lia). done. }
  unfold GetOrderedCertificates. rewrite bool_decide_eq_false_2 by lia. rewrite ordered_loop_spec by lia.
  by eexists _, _.
Qed.

(** A request up to the last 64-bit round is not cut to the batch size, and the
    loop over the rounds never ends. *)
Lemma ordered_loop_diverges (d : DAG S) n r acc : ordered_loop d n r (2 ^ 64 - 1) acc = None ∨ ¬ is_u64 r.
Proof.
  destruct (decide (is_u64 r)) as [Hr|]; [left|by right]. revert r acc Hr. induction n as [|n IH]; intros r acc Hr;
    cbn [ordered_loop]; rewrite bool_decide_eq_true_2 by (unfold fits in Hr; lia); [done|].
  apply IH. by apply wrap_fits.
Qed.

Theorem sync_request_can_hang (d : DAG S) (batches : B) requester s :
  s_running s = true → 0 ≤ SyncBatchSize (s_cfg s) →
  HandleSyncRequest d batches (mk_SyncRequest 0 (2 ^ 64 - 1) requester) s = None.
Proof.
  intros Hr Hs. unfold HandleSyncRequest, served_to. rewrite Hr. cbn [negb SR_FromRound SR_ToRound].
  rewrite (bool_decide_eq_false_2 (2 ^ 64 - 1 = 0)) by done.
  assert (u64 (u64 (2 ^ 64 - 1 - 0) + 1) = 0) as -> by (by vm_compute).
  rewrite bool_decide_eq_false_2 by (pose proof (wrap_fits 64 (SyncBatchSize (s_cfg s)) ltac:(done)) as Hf; unfold fits in Hf; lia).
  unfold GetOrderedCertificates. rewrite bool_decide_eq_false_2 by lia.
  destruct (ordered_loop_diverges d (Z.to_nat (2 ^ 64 - 1 - 0 + 1)) 0 []) as [->|Hn]; [done|]. by destruct Hn.
Qed.
End answer_claims.

(** ** Closed examples *)
#[local] Existing Instance toy_ed25519.
#[local] Existing Instance range_sorted.

Module SyncExample.
Definition config : SyncConfig := mk_SyncConfig 10 5 100 30 3 4 20.
Definition manager : SyncManager := (Start (NewSyncManager Toy.vs config)).1.
Definition accepts (_ : Z) (_ : SyncRequest) : option error := None.
Definition dag : DAG MemoryCertificateStore := dag_run DagExample.empty DagExample.two.
Definition ops : list (sync_op (B := MemoryBatchStore)) :=
  [SyStart; SyRequest 0 1 5 0; SyCleanup 5; SyCleanup 100; SyCleanup 200; SyCleanup 300; SyCleanup 400].
End SyncExample.

(** One request is retried three times, to two peers, and given up. *)
Lemma sync_retries_bounded_witness :
  let '(s, sent, retried) := sync_run 0 SyncExample.accepts SyncExample.ops (NewSyncManager Toy.vs SyncExample.config) in
  sent.*1 = [1] ∧ retried.*1 = [2; 1; 2] ∧ pendingReqs s = ∅ ∧ zlen retried ≤ MaxRetries SyncExample.config * zlen sent.
Proof.
  pose proof (sync_retries_bounded 0 SyncExample.accepts Toy.vs SyncExample.config SyncExample.ops) as H.
  destruct (sync_run 0 SyncExample.accepts SyncExample.ops (NewSyncManager Toy.vs SyncExample.config))
    as [[s sent] retried] eqn:E. vm_compute in E. injection E as <- <- <-.
  split_and!; [reflexivity..|]. apply H. split; cbn; lia.
Defined.

Lemma sync_request_answered_witness :
  ∃ certs bs, HandleSyncRequest SyncExample.dag NewMemoryBatchStore (mk_SyncRequest 0 0 3) SyncExample.manager =
      Some (Ok (mk_SyncResponse certs bs 0 1)) ∧
    StronglySorted cert_before certs ∧
    (∀ c, c ∈ certs ↔ 0 ≤ CRound c ≤ 1 ∧ mem_cert SyncExample.dag (CRound c) (CAuthor c) = Some c).
Proof.
  destruct (sync_request_answered SyncExample.dag NewMemoryBatchStore (mk_SyncRequest 0 0 3) SyncExample.manager)
    as (certs & bs & H1 & H2 & H3 & _).
  - apply example_ok.
  - exact mb_ok_new.
  - done.
  - by vm_compute.
  - by vm_compute.
  - by vm_compute.
  - by vm_compute.
  - intros r Hr. left. change (0 ≤ r ≤ 1) in Hr.
    assert (r = 0 ∨ r = 1) as [-> | ->] by lia; vm_compute; by eexists.
  - by exists certs, bs.
Defined.

Lemma sync_response_filtered_witness :
  let bad := Toy.cert 0 3 [13] [] [0; 1] in
  let resp := mk_SyncResponse [DagExample.genesis; bad; DagExample.child] [] 0 7 in
  let '(s', _, delivered, err) := HandleSyncResponse resp 2 NewMemoryBatchStore SyncExample.manager in
  err = None ∧ sublist delivered (SP_Certificates resp) ∧ 7 ≤ PeerHighestRound 2 s'.
Proof.
  intros bad resp.
  pose proof (sync_response_filtered resp 2 NewMemoryBatchStore SyncExample.manager mb_ok_new eq_refl
    ltac:(by vm_compute)) as H.
  destruct (HandleSyncResponse resp 2 NewMemoryBatchStore SyncExample.manager) as [[[s' b'] delivered] err].
  destruct H as (H1 & H2 & _ & _ & _ & _ & H3 & _). done.
Defined.

(** The certificate with too few votes is the one left out. *)
Example bad_certificate_left_out :
  let bad := Toy.cert 0 3 [13] [] [0; 1] in
  (HandleSyncResponse (mk_SyncResponse [DagExample.genesis; bad; DagExample.child] [] 0 7) 2
     NewMemoryBatchStore SyncExample.manager).1.2 = [DagExample.genesis; DagExample.child].
Proof. by vm_compute. Qed.
