(* ===== verification/BatchFetcher.v ===== *)
(** The batch fetcher (primary/batch_fetcher.go): headers that wait for batches,
    the requests sent for the batches, and the index from batches to headers.
    The batch store is shared with the node and passed to the operations that
    use it.  The callbacks an operation makes are returned in order; [now] is
    [time.Now()]. *)
From S2P Require Import Prelude Bytes Errors Types Batch Header Store.
Local Open Scope Z_scope.

Record BatchFetcherConfig := mk_BatchFetcherConfig {
  RequestTimeout : Z;
  BF_MaxRetries : Z;
  BF_MaxPendingHeaders : Z;
  CleanupInterval : Z
}.

Definition DefaultBatchFetcherConfig : BatchFetcherConfig := mk_BatchFetcherConfig (10 * 10 ^ 9) 3 100 (5 * 10 ^ 9).

Record pendingBatchRequest := mk_pendingBatchRequest {
  pr_digest : Hash;
  requestAt : Z;
  retries : Z;
  pr_validator : Z
}.

Record pendingHeaderEntry := mk_pendingHeaderEntry {
  he_header : Header;
  missingBatch : gset Hash;
  he_createdAt : Z
}.

Record BatchFetcher := mk_BatchFetcher {
  bf_cfg : BatchFetcherConfig;
  bf_headers : gmap Hash pendingHeaderEntry;
  pendingRequests : gmap Hash pendingBatchRequest;
  batchToHeaders : gmap Hash (list Hash);
  bf_validators : list Z;
  bf_running : bool;
  batchesRequested : Z;
  batchesReceived : Z;
  requestTimeouts : Z;
  headersReady : Z
}.
#[export] Instance eta_BatchFetcher : Settable BatchFetcher := λ f,
  mk_BatchFetcher (bf_cfg f) (bf_headers f) (pendingRequests f) (batchToHeaders f) (bf_validators f)
    (bf_running f) (batchesRequested f) (batchesReceived f) (requestTimeouts f) (headersReady f).

Implicit Types f : BatchFetcher.

Inductive fetch_output :=
  | FetchRequest (validator : Z) (digest : Hash)
  | FetchReady (header : Header).

Definition NewBatchFetcher (cfg : BatchFetcherConfig) : BatchFetcher :=
  mk_BatchFetcher cfg ∅ ∅ ∅ [] false 0 0 0 0.

Definition UpdateValidators (validators : list Z) f : BatchFetcher := f <| bf_validators := validators |>.
Definition Start f : BatchFetcher * option error :=
  if bf_running f then (f, Some ErrAlreadyRunning) else (f <| bf_running := true |>, None).
Definition Stop f : BatchFetcher * option error :=
  if bf_running f then (f <| bf_running := false |>, None) else (f, Some ErrNotRunning).
Definition PendingHeaderCount f : Z := zsize (bf_headers f).

Definition requestBatch (now : Z) (digest : Hash) (preferred : Z) f : BatchFetcher * list fetch_output :=
  match pendingRequests f !! digest with
  | Some _ => (f, [])
  | None =>
      (f <| pendingRequests := <[digest := mk_pendingBatchRequest digest now 0 preferred]> (pendingRequests f) |>
         <| batchesRequested := u64 (batchesRequested f + 1) |>, [FetchRequest preferred digest])
  end.

Fixpoint request_batches (now : Z) (digests : list Hash) (preferred : Z) f : BatchFetcher * list fetch_output :=
  match digests with
  | [] => (f, [])
  | d :: ds => let '(f, out) := requestBatch now d preferred f in
               let '(f, out') := request_batches now ds preferred f in (f, out ++ out')
  end.

(** [NotifyBatchReceived], header by header: the entries left and the headers
    that became ready. *)
Fixpoint notify_headers (batchDigest : Hash) (digests : list Hash) (m : gmap Hash pendingHeaderEntry) :
    gmap Hash pendingHeaderEntry * list Header :=
  match digests with
  | [] => (m, [])
  | h :: hs =>
      match m !! h with
      | None => notify_headers batchDigest hs m
      | Some entry =>
          let missing := missingBatch entry ∖ {[ batchDigest ]} in
          if bool_decide (missing = ∅) then
            let '(m, ready) := notify_headers batchDigest hs (delete h m) in (m, he_header entry :: ready)
          else
            notify_headers batchDigest hs
              (<[h := mk_pendingHeaderEntry (he_header entry) missing (he_createdAt entry)]> m)
      end
  end.

Definition NotifyBatchReceived (batch : Batch) f : BatchFetcher * list fetch_output :=
  let d := Batch_Digest batch in
  let f := f <| batchesReceived := u64 (batchesReceived f + 1) |> in
  let f := f <| pendingRequests := delete d (pendingRequests f) |> in
  let headerDigests := default [] (batchToHeaders f !! d) in
  let f := f <| batchToHeaders := delete d (batchToHeaders f) |> in
  if bool_decide (zlen headerDigests = 0) then (f, [])
  else
    let '(m, ready) := notify_headers d headerDigests (bf_headers f) in
    (f <| bf_headers := m |> <| headersReady := u64 (headersReady f + zlen ready) |>, FetchReady <$> ready).

(** The request moves to another validator and is sent again. *)
Definition retryRequest (digest : Hash) (validator : Z) f : BatchFetcher * list fetch_output :=
  if bool_decide (zlen (bf_validators f) = 0) then (f, [])
  else
    let next := match filter (λ v, v ≠ validator) (bf_validators f) with v :: _ => v | [] => validator end in
    let f :=
      match pendingRequests f !! digest with
      | Some e => f <| pendingRequests := <[digest := mk_pendingBatchRequest (pr_digest e) (requestAt e) (retries e) next]>
                                            (pendingRequests f) |>
      | None => f
      end in
    (f, [FetchRequest next digest]).

Definition cleanupFailedBatchHeaders (failed : list Hash) f : BatchFetcher :=
  let remove := concat (map (λ d, default [] (batchToHeaders f !! d)) failed) in
  f <| batchToHeaders := delete_keys failed (batchToHeaders f) |>
    <| bf_headers := delete_keys remove (bf_headers f) |>.

Definition cleanupTimedOutRequests {RO : RangeOrder Hash pendingBatchRequest} (now : Z) f :
    BatchFetcher * list fetch_output :=
  let cutoff := now - RequestTimeout (bf_cfg f) in
  let due := filter (λ p, requestAt p.2 < cutoff) (range (pendingRequests f)) in
  let toRetry := filter (λ p, retries p.2 < BF_MaxRetries (bf_cfg f)) due in
  let toRemove := (filter (λ p, ¬ retries p.2 < BF_MaxRetries (bf_cfg f)) due).*1 in
  let f := f <| requestTimeouts := u64 (requestTimeouts f + zlen toRemove) |> in
  let f := f <| pendingRequests :=
    fold_left (λ m p, <[p.1 := mk_pendingBatchRequest (pr_digest p.2) now (retries p.2 + 1) (pr_validator p.2)]> m)
      toRetry (pendingRequests f) |> in
  let f := f <| pendingRequests := delete_keys toRemove (pendingRequests f) |> in
  let '(f, out) :=
    fold_left (λ '(f, out) p, let '(f, out') := retryRequest p.1 (pr_validator p.2) f in (f, out ++ out'))
      toRetry (f, []) in
  (if bool_decide (zlen toRemove > 0) then cleanupFailedBatchHeaders toRemove f else f, out).

Definition cleanupTimedOutHeaders (now : Z) f : BatchFetcher :=
  let cutoff := now - 3 * RequestTimeout (bf_cfg f) in
  f <| bf_headers := filter (λ p, ¬ he_createdAt p.2 < cutoff) (bf_headers f) |>.

Section fetcher.
Context {B : Type} {BS : BatchStore B}.

Definition missing_batches (header : Header) (store : B) : list Hash :=
  filter (λ d, HasBatch d store = false) (BD_Digest <$> BatchRefs header).

Definition RequestBatchesForHeader (now : Z) (header : Header) (store : B) f :
    BatchFetcher * list fetch_output * bool :=
  if bool_decide (zlen (BatchRefs header) = 0) then (f, [], true)
  else
    let missing := missing_batches header store in
    if bool_decide (zlen missing = 0) then (f, [], true)
    else if bool_decide (zsize (bf_headers f) >= BF_MaxPendingHeaders (bf_cfg f)) then (f, [], false)
    else
      let h := Digest header in
      let f := f <| bf_headers := <[h := mk_pendingHeaderEntry header (list_to_set missing) now]> (bf_headers f) |> in
      let f := f <| batchToHeaders := fold_left (λ m d, append_at d h m) missing (batchToHeaders f) |> in
      let '(f, out) := request_batches now missing (Author header) f in
      (f, out, false).

Definition HandleBatchResponse (batch : option Batch) (found : bool) (store : B) f :
    BatchFetcher * B * list fetch_output :=
  match batch with
  | Some batch =>
      if found then
        let store := (SaveBatch batch store).1 in
        let '(f, out) := NotifyBatchReceived batch f in (f, store, out)
      else (f, store, [])
  | None => (f, store, [])
  end.
End fetcher.

(** ** The headers that a batch makes ready *)
Definition still_missing (d : Hash) (e : pendingHeaderEntry) : gset Hash := missingBatch e ∖ {[ d ]}.

(** The entry of a waiting header after the batch [d] arrived. *)
Definition entry_after (d : Hash) (e : pendingHeaderEntry) : option pendingHeaderEntry :=
  if decide (still_missing d e = ∅) then None
  else Some (mk_pendingHeaderEntry (he_header e) (still_missing d e) (he_createdAt e)).

Definition keyed_headers (m : gmap Hash pendingHeaderEntry) : Prop := ∀ h e, m !! h = Some e → Digest (he_header e) = h.

Lemma entry_after_idem d e : entry_after d e ≫= entry_after d = entry_after d e.
Proof.
  unfold entry_after. destruct (decide (still_missing d e = ∅)) as [E|E]; [done|]. cbn.
  unfold still_missing in *. cbn.
  assert ((missingBatch e ∖ {[d]}) ∖ {[d]} = missingBatch e ∖ {[d]}) as -> by set_solver.
  by rewrite decide_False.
Qed.

Lemma notify_headers_spec d ds m :
  keyed_headers m →
  let '(m', ready) := notify_headers d ds m in
  (∀ h, m' !! h = if decide (h ∈ ds) then m !! h ≫= entry_after d else m !! h) ∧
  NoDup (Digest <$> ready) ∧
  ∀ x, x ∈ ready ↔ ∃ h e, h ∈ ds ∧ m !! h = Some e ∧ still_missing d e = ∅ ∧ x = he_header e.
Proof.
  revert m. induction ds as [|k ds IH]; intros m Hk; cbn [notify_headers].
  { split_and!; [|constructor|].
    - intros h. rewrite decide_False; [done|apply not_elem_of_nil].
    - intros x. split; [by intros ?%not_elem_of_nil|]. by intros (h & e & ?%not_elem_of_nil & _). }
  destruct (m !! k) as [e|] eqn:E.
  2:{ specialize (IH m Hk). destruct (notify_headers d ds m) as [m' ready]. destruct IH as (H1 & H2 & H3).
      split_and!; [|done|].
      - intros h. rewrite H1. destruct (decide (h = k)) as [->|Hne].
        + rewrite (decide_True (P := k ∈ k :: ds)) by left. rewrite E. by destruct (decide _).
        + apply decide_ext. rewrite elem_of_cons. tauto.
      - intros x. rewrite H3. split; intros (h & e & Hh & Hm & Hs & ->); exists h, e.
        + split_and!; [by right|done..].
        + apply elem_of_cons in Hh as [->|Hh]; [congruence|done]. }
  fold (still_missing d e). case_bool_decide as Em.
  - specialize (IH (delete k m)). destruct (notify_headers d ds (delete k m)) as [m' ready].
    destruct IH as (H1 & H2 & H3). { intros h e' [_ ?]%lookup_delete_Some. by apply Hk. }
    split_and!.
    + intros h. rewrite H1. destruct (decide (h = k)) as [->|Hne].
      * rewrite lookup_delete_eq, (decide_True (P := k ∈ k :: ds)) by left. rewrite E. cbn.
        unfold entry_after. rewrite (decide_True (P := still_missing d e = ∅)) by done. by destruct (decide _).
      * rewrite lookup_delete_ne by done. apply decide_ext. rewrite elem_of_cons. tauto.
    + rewrite fmap_cons. apply NoDup_cons. split; [|done].
      intros (x & Ex & Hx)%list_elem_of_fmap. apply H3 in Hx as (h & e' & _ & [Hhk Hm]%lookup_delete_Some & _ & ->).
      apply Hhk. rewrite <-(Hk _ _ E), <-(Hk _ _ Hm). done.
    + intros x. rewrite elem_of_cons, H3. split.
      * intros [->|(h & e' & Hh & [_ Hm]%lookup_delete_Some & Hs & ->)]; [exists k, e|exists h, e'].
        { split_and!; [left|done..]. } { split_and!; [by right|done..]. }
      * intros (h & e' & Hh & Hm & Hs & ->). destruct (decide (h = k)) as [->|Hne]; [left; congruence|right].
        exists h, e'. apply elem_of_cons in Hh as [?|Hh]; [done|]. by rewrite lookup_delete_ne.
  - set (e1 := mk_pendingHeaderEntry _ _ _). specialize (IH (<[k := e1]> m)).
    destruct (notify_headers d ds (<[k := e1]> m)) as [m' ready]. destruct IH as (H1 & H2 & H3).
    { intros h e' [[<- <-]|[_ ?]]%lookup_insert_Some; [cbn; by apply Hk|by apply Hk]. }
    assert (entry_after d e = Some e1) as Ee by (unfold entry_after; by rewrite decide_False).
    pose proof (entry_after_idem d e) as Ei. rewrite Ee in Ei. cbn in Ei.
    split_and!; [|done|].
    + intros h. rewrite H1. destruct (decide (h = k)) as [->|Hne].
      * rewrite lookup_insert_eq, (decide_True (P := k ∈ k :: ds)) by left. rewrite E. cbn. rewrite Ei, Ee.
        by destruct (decide _).
      * rewrite lookup_insert_ne by done. apply decide_ext. rewrite elem_of_cons. tauto.
    + intros x. rewrite H3. split; intros (h & e' & Hh & Hm & Hs & ->).
      * apply lookup_insert_Some in Hm as [[<- <-]|[Hne Hm]].
        { exfalso. unfold entry_after in Ei. by rewrite (decide_True (P := still_missing d e1 = ∅)) in Ei. }
        exists h, e'. split_and!; [by right|done..].
      * destruct (decide (h = k)) as [->|Hne]; [congruence|].
        apply elem_of_cons in Hh as [?|Hh]; [done|]. exists h, e'. by rewrite lookup_insert_ne.
Qed.

(** ** The invariant *)
Definition waiting (d : Hash) f : list Hash := default [] (batchToHeaders f !! d).

Section claims.
Context {B : Type} {BS : BatchStore B} {BL : BatchStoreLaws B} {RO : RangeOrder Hash pendingBatchRequest}.

Definition stored (d : Hash) (store : B) : Prop := is_Some (bs_view store !! d).

Record fetch_ok (store : B) f : Prop := {
  fk_store : bs_ok store;
  fk_keyed : keyed_headers (bf_headers f);
  fk_missing h e : bf_headers f !! h = Some e → missingBatch e ≠ ∅;
  fk_waiting h e d : bf_headers f !! h = Some e → d ∈ missingBatch e → h ∈ waiting d f;
  fk_requested h e d : bf_headers f !! h = Some e → d ∈ missingBatch e → is_Some (pendingRequests f !! d);
  fk_refs h e ref : bf_headers f !! h = Some e → ref ∈ BatchRefs (he_header e) →
    stored (BD_Digest ref) store ∨ BD_Digest ref ∈ missingBatch e;
  fk_limit : zsize (bf_headers f) ≤ Z.max 0 (BF_MaxPendingHeaders (bf_cfg f))
}.

Lemma append_all_waiting (h : Hash) (ds : list Hash) (m : gmap Hash (list Hash)) (d x : Hash) :
  x ∈ default [] (fold_left (λ m d, append_at d h m) ds m !! d) ↔ x ∈ default [] (m !! d) ∨ (x = h ∧ d ∈ ds).
Proof.
  revert m. induction ds as [|k ds IH]; intros m; cbn [fold_left].
  { split; [by left|]. intros [?|[_ ?%not_elem_of_nil]]; done. }
  rewrite IH, elem_of_cons. unfold append_at. destruct (decide (k = d)) as [->|Hne].
  - rewrite lookup_insert_eq. cbn. rewrite elem_of_app, list_elem_of_singleton. tauto.
  - rewrite lookup_insert_ne by done. naive_solver.
Qed.

Lemma request_batches_spec now ds v f :
  let f' := (request_batches now ds v f).1 in
  bf_headers f' = bf_headers f ∧ batchToHeaders f' = batchToHeaders f ∧ bf_cfg f' = bf_cfg f ∧
  (∀ x, FetchReady x ∉ (request_batches now ds v f).2) ∧
  ∀ d, is_Some (pendingRequests f' !! d) ↔ is_Some (pendingRequests f !! d) ∨ d ∈ ds.
Proof.
  revert f. induction ds as [|k ds IH]; intros f; cbn [request_batches].
  { split_and!; [done..|by intros ? ?%not_elem_of_nil|]. intros d. split; [by left|].
    intros [?|?%not_elem_of_nil]; done. }
  assert (∃ f1 out, requestBatch now k v f = (f1, out) ∧ bf_headers f1 = bf_headers f ∧
    batchToHeaders f1 = batchToHeaders f ∧ bf_cfg f1 = bf_cfg f ∧ (∀ x, FetchReady x ∉ out) ∧
    ∀ d, is_Some (pendingRequests f1 !! d) ↔ is_Some (pendingRequests f !! d) ∨ d = k)
    as (f1 & out & -> & E1 & E2 & E3 & E4 & E5).
  { unfold requestBatch. destruct (pendingRequests f !! k) eqn:E; eexists _, _; split_and!; try done.
    - intros x. apply not_elem_of_nil.
    - intros d. split; [by left|]. intros [?| ->]; [done|]. by rewrite E.
    - intros x ?%list_elem_of_singleton. done.
    - intros d. cbn. destruct (decide (d = k)) as [->|Hne].
      + rewrite lookup_insert_eq. split; [by right|done].
      + rewrite lookup_insert_ne by done. naive_solver. }
  specialize (IH f1). destruct (request_batches now ds v f1) as [f2 out2]. cbn [fst snd] in *.
  destruct IH as (H1 & H2 & H3 & H4 & H5). split_and!; try congruence.
  - intros x [?|?]%elem_of_app; [by eapply E4|by eapply H4].
  - intros d. rewrite H5, E5, elem_of_cons. tauto.
Qed.

Lemma missing_batches_spec header store d :
  bs_ok store →
  d ∈ missing_batches header store ↔ (¬ stored d store) ∧ ∃ ref, ref ∈ BatchRefs header ∧ BD_Digest ref = d.
Proof.
  intros Hs. unfold missing_batches, stored. rewrite list_elem_of_filter, list_elem_of_fmap, (bs_has _ _ Hs), bool_decide_eq_false.
  naive_solver.
Qed.

Lemma RequestBatchesForHeader_ok now header store f :
  fetch_ok store f →
  fetch_ok store (RequestBatchesForHeader now header store f).1.1 ∧
  (∀ x, FetchReady x ∉ (RequestBatchesForHeader now header store f).1.2) ∧
  ((RequestBatchesForHeader now header store f).2 = true ↔ ∀ ref, ref ∈ BatchRefs header → stored (BD_Digest ref) store).
Proof.
  intros Hok. pose proof Hok as [Hs Hk Hm Hw Hr Hrefs Hl]. unfold RequestBatchesForHeader.
  destruct (bool_decide (zlen (BatchRefs header) = 0)) eqn:Elen.
  { apply bool_decide_eq_true in Elen. split_and!; [done|intros x; apply not_elem_of_nil|]. split; [|done].
    intros _ ref Hin. destruct (BatchRefs header); [by apply not_elem_of_nil in Hin|cbn in Elen; lia]. }
  clear Elen. pose proof (λ d, missing_batches_spec header store d Hs) as Hmiss. set (missing := missing_batches header store) in *.
  case_bool_decide as Em.
  { split_and!; [done|intros x; apply not_elem_of_nil|]. split; [|done]. intros _ ref Hin.
    destruct (decide (stored (BD_Digest ref) store)) as [|Hn]; [done|].
    assert (BD_Digest ref ∈ missing) as Hd by (apply Hmiss; eauto).
    destruct missing; [by apply not_elem_of_nil in Hd|cbn in Em; lia]. }
  assert (∃ d, d ∈ missing) as [d0 Hd0] by (destruct missing as [|d ?]; [cbn in Em; lia|exists d; left]).
  assert (¬ ∀ ref, ref ∈ BatchRefs header → stored (BD_Digest ref) store) as Hnot.
  { apply Hmiss in Hd0 as (Hn & ref & Hin & <-). eauto. }
  case_bool_decide as El; [split_and!; [done|intros x; apply not_elem_of_nil|split; [done|by intros ?]]|].
  set (f1 := _ <| batchToHeaders := _ |>).
  destruct (request_batches_spec now missing (Author header) f1) as (E1 & E2 & E3 & E4 & E5).
  destruct (request_batches now missing (Author header) f1) as [f2 out]. cbn [fst snd] in *.
  split_and!; [|done|split; [done|by intros ?]].
  assert (∀ d, waiting d f2 = waiting d f1) as Ew by (intros; unfold waiting; by rewrite E2).
  assert (bf_headers f1 = <[Digest header := mk_pendingHeaderEntry header (list_to_set missing) now]> (bf_headers f))
    as E0 by done.
  split; rewrite ?E1, ?E3, ?E0.
  - done.
  - intros h e [[<- <-]|[_ ?]]%lookup_insert_Some; [done|by apply Hk].
  - intros h e [[<- <-]|[_ ?]]%lookup_insert_Some; [cbn; set_solver|by eapply Hm].
  - intros h e d [[<- <-]|[_ Hl']]%lookup_insert_Some Hd; rewrite Ew; apply append_all_waiting.
    + right. split; [done|]. cbn in Hd. by apply elem_of_list_to_set in Hd.
    + left. by eapply Hw.
  - intros h e d [[<- <-]|[_ Hl']]%lookup_insert_Some Hd; apply E5.
    + right. cbn in Hd. by apply elem_of_list_to_set in Hd.
    + left. by eapply Hr.
  - intros h e ref [[<- <-]|[_ Hl']]%lookup_insert_Some Hd; [|by eapply Hrefs]. cbn in *.
    destruct (decide (stored (BD_Digest ref) store)); [by left|right]. apply elem_of_list_to_set, Hmiss. eauto.
  - change (bf_cfg f1) with (bf_cfg f). rewrite map_size_insert. destruct (bf_headers f !! Digest header); cbn; lia.
Qed.

Lemma only_missing (X : gset Hash) d : X ≠ ∅ → X ∖ {[d]} = ∅ ↔ X = {[d]}.
Proof.
  intros [x Hx]%set_choose_L. split; [|intros ->; set_solver]. intros E. apply set_eq. intros y.
  assert (∀ z, z ∈ X → z = d) as H.
  { intros z Hz. destruct (decide (z = d)); [done|]. assert (z ∈ X ∖ {[d]}) as Hd by set_solver.
    rewrite E in Hd. by apply not_elem_of_empty in Hd. }
  rewrite elem_of_singleton. split; [apply H|]. intros ->. by rewrite <-(H x Hx).
Qed.

(** A batch arrives after it was stored. *)
Lemma NotifyBatchReceived_ok batch store f :
  fetch_ok store f → stored (Batch_Digest batch) store →
  let '(f', out) := NotifyBatchReceived batch f in
  fetch_ok store f' ∧
  ∀ x, FetchReady x ∈ out ↔
    ∃ h e, bf_headers f !! h = Some e ∧ missingBatch e = {[ Batch_Digest batch ]} ∧ x = he_header e.
Proof.
  intros [Hs Hk Hm Hw Hr Hrefs Hl] Hst. unfold NotifyBatchReceived. set (d := Batch_Digest batch) in *. clearbody d.
  set (f1 := _ <| batchToHeaders := _ |>). cbv zeta. fold (waiting d f).
  change (default [] (batchToHeaders (_ <| pendingRequests := _ |>) !! d)) with (waiting d f).
  assert (∀ e, missingBatch e ≠ ∅ → still_missing d e = ∅ ↔ missingBatch e = {[d]}) as Hone.
  { intros e Hne. by apply only_missing. }
  assert (∀ ds m', (∀ h, m' !! h = if decide (h ∈ ds) then bf_headers f !! h ≫= entry_after d else bf_headers f !! h) →
    ds = waiting d f → fetch_ok store (f1 <| bf_headers := m' |>)) as Hpost.
  { intros ds m' Hm' ->.
    assert (∀ h e, m' !! h = Some e → ∃ e0, bf_headers f !! h = Some e0 ∧ he_header e = he_header e0 ∧
      missingBatch e = missingBatch e0 ∖ {[d]} ∧ missingBatch e ≠ ∅) as Hinv.
    { intros h e. rewrite Hm'. destruct (decide (h ∈ waiting d f)) as [Hin|Hni].
      - destruct (bf_headers f !! h) as [e0|]; [|done]. cbn. unfold entry_after.
        destruct (decide (still_missing d e0 = ∅)); [done|]. intros [= <-]. by exists e0.
      - intros E. exists e. split_and!; [done|done| |by eapply Hm].
        assert (d ∉ missingBatch e) by (intros ?; apply Hni; by eapply Hw). set_solver. }
    split; cbn.
    - done.
    - intros h e He. destruct (Hinv h e He) as (e0 & H0 & -> & _). by apply Hk.
    - intros h e He. by destruct (Hinv h e He) as (e0 & _ & _ & _ & ?).
    - intros h e d' He Hd. destruct (Hinv h e He) as (e0 & H0 & _ & E & _). rewrite E in Hd.
      unfold waiting. cbn. rewrite lookup_delete_ne by set_solver. eapply Hw; [done|set_solver].
    - intros h e d' He Hd. destruct (Hinv h e He) as (e0 & H0 & _ & E & _). rewrite E in Hd.
      rewrite lookup_delete_ne by set_solver. eapply Hr; [done|set_solver].
    - intros h e ref He Hin. destruct (Hinv h e He) as (e0 & H0 & E1 & E & _). rewrite E1 in Hin.
      destruct (Hrefs h e0 ref H0 Hin) as [?|Hd]; [by left|].
      destruct (decide (BD_Digest ref = d)) as [->|]; [by left|]. right. set_solver.
    - assert (size m' ≤ size (bf_headers f))%nat; [|lia].
      rewrite <-!(size_dom (D := gset Hash)). apply subseteq_size. intros h [e He]%elem_of_dom.
      destruct (Hinv h e He) as (e0 & H0 & _). apply elem_of_dom. by exists e0. }
  destruct (bool_decide (zlen (waiting d f) = 0)) eqn:E0.
  - apply bool_decide_eq_true in E0. assert (waiting d f = []) as E by (destruct (waiting d f); [done|cbn in E0; lia]).
    split.
    + assert (f1 = f1 <| bf_headers := bf_headers f |>) as -> by done. apply (Hpost []); [|done].
      intros h. rewrite decide_False; [done|apply not_elem_of_nil].
    + intros x. split; [by intros ?%not_elem_of_nil|]. intros (h & e & He & Em & _).
      assert (h ∈ waiting d f) as Hin by (eapply Hw; [done|set_solver]). rewrite E in Hin. by apply not_elem_of_nil in Hin.
  - change (bf_headers f1) with (bf_headers f). pose proof (notify_headers_spec d (waiting d f) (bf_headers f) Hk) as Hn.
    destruct (notify_headers d (waiting d f) (bf_headers f)) as [m' ready]. destruct Hn as (H1 & _ & H3). split.
    + destruct (Hpost (waiting d f) m' H1 eq_refl). by split.
    + intros x. rewrite list_elem_of_fmap. split.
      * intros (x' & [= <-] & Hx). apply H3 in Hx as (h & e & _ & He & Es & ->). exists h, e.
        split_and!; [done| |done]. apply Hone; [by eapply Hm|done].
      * intros (h & e & He & Em & ->). exists (he_header e). split; [done|]. apply H3. exists h, e.
        split_and!; [|done| |done]; [eapply Hw; [done|set_solver]|]. apply Hone; [by eapply Hm|done].
Qed.

Lemma retry_fold_frame toRetry f out :
  let r := fold_left (λ '(f, out) (p : Hash * pendingBatchRequest),
    let '(f, out') := retryRequest p.1 (pr_validator p.2) f in (f, out ++ out')) toRetry (f, out) in
  bf_headers r.1 = bf_headers f ∧ batchToHeaders r.1 = batchToHeaders f ∧ bf_cfg r.1 = bf_cfg f ∧
  (∀ d, is_Some (pendingRequests r.1 !! d) ↔ is_Some (pendingRequests f !! d)) ∧
  ((∀ x, FetchReady x ∉ out) → ∀ x, FetchReady x ∉ r.2).
Proof.
  revert f out. induction toRetry as [|p l IH]; intros f out; cbn [fold_left]; [done|].
  assert (∃ f1 out1, retryRequest p.1 (pr_validator p.2) f = (f1, out1) ∧ bf_headers f1 = bf_headers f ∧
    batchToHeaders f1 = batchToHeaders f ∧ bf_cfg f1 = bf_cfg f ∧ (∀ x, FetchReady x ∉ out1) ∧
    ∀ d, is_Some (pendingRequests f1 !! d) ↔ is_Some (pendingRequests f !! d)) as (f1 & out1 & -> & E1 & E2 & E3 & E4 & E5).
  { unfold retryRequest. case_bool_decide; [eexists _, _; split_and!; try done; intros ?; apply not_elem_of_nil|].
    destruct (pendingRequests f !! p.1) as [e|] eqn:E; eexists _, _; split_and!; try done;
      try (by intros x ?%list_elem_of_singleton).
    intros d. cbn. destruct (decide (d = p.1)) as [->|Hne]; [by rewrite lookup_insert_eq, E|by rewrite lookup_insert_ne]. }
  destruct (IH f1 (out ++ out1)) as (H1 & H2 & H3 & H4 & H5). split_and!; try congruence.
  - intros d. by rewrite H4, E5.
  - intros Ho. apply H5. intros x [?|?]%elem_of_app; [by eapply Ho|by eapply E4].
Qed.

(** Dropping headers and requests together. *)
Lemma fetch_ok_drop store f f' :
  fetch_ok store f → bf_cfg f' = bf_cfg f →
  (∀ h e, bf_headers f' !! h = Some e → bf_headers f !! h = Some e) →
  (∀ h e d, bf_headers f' !! h = Some e → d ∈ missingBatch e → waiting d f' = waiting d f) →
  (∀ h e d, bf_headers f' !! h = Some e → d ∈ missingBatch e →
     is_Some (pendingRequests f !! d) → is_Some (pendingRequests f' !! d)) → fetch_ok store f'.
Proof.
  intros [Hs Hk Hm Hw Hr Hrefs Hl] Ec Hin Hww Hrr.
  split; [done|..].
  - intros h e He. by eapply Hk, Hin.
  - intros h e He. by eapply Hm, Hin.
  - intros h e d He Hd. rewrite (Hww h e d) by done. by eapply Hw; [apply Hin|].
  - intros h e d He Hd. eapply Hrr; [done..|]. by eapply Hr; [apply Hin|].
  - intros h e ref He Hd. by eapply Hrefs; [apply Hin|].
  - rewrite Ec. assert (size (bf_headers f') ≤ size (bf_headers f))%nat; [|lia].
    rewrite <-!(size_dom (D := gset Hash)). apply subseteq_size. intros h [e He]%elem_of_dom.
    apply elem_of_dom. eexists. by apply Hin.
Qed.

Lemma cleanupTimedOutRequests_ok now store f :
  fetch_ok store f →
  fetch_ok store (cleanupTimedOutRequests now f).1 ∧ ∀ x, FetchReady x ∉ (cleanupTimedOutRequests now f).2.
Proof.
  intros Hok. unfold cleanupTimedOutRequests. set (due := filter _ (range _)).
  set (toRetry := filter (λ p, retries p.2 < _) due). set (toRemove := (filter (λ p, ¬ retries p.2 < _) due).*1).
  set (f1 := _ <| pendingRequests := delete_keys toRemove _ |>).
  destruct (retry_fold_frame toRetry f1 []) as (E1 & E2 & E3 & E4 & E5).
  destruct (fold_left _ toRetry (f1, [])) as [f2 out]. cbn [fst snd] in *.
  split; [|apply E5; intros x; apply not_elem_of_nil].
  assert (∀ d, d ∉ toRemove → is_Some (pendingRequests f !! d) → is_Some (pendingRequests f2 !! d)) as Hreq.
  { intros d Hd Hs. apply E4. cbn. rewrite lookup_delete_keys, decide_False by done.
    clear -Hs. revert Hs. generalize (pendingRequests f). induction toRetry as [|p l IH]; intros m Hs; [done|].
    cbn [fold_left]. apply IH. destruct (decide (d = p.1)) as [->|]; [by rewrite lookup_insert_eq|by rewrite lookup_insert_ne]. }
  assert (∀ d, waiting d f2 = waiting d f) as Ew by (intros; unfold waiting; by rewrite E2).
  case_bool_decide as Hlen.
  - set (f3 := cleanupFailedBatchHeaders toRemove f2).
    assert (∀ h e, bf_headers f3 !! h = Some e → bf_headers f !! h = Some e ∧
      ∀ d, d ∈ missingBatch e → d ∉ toRemove) as Hkept.
    { intros h e.
      assert (bf_headers f3 = delete_keys (concat (map (λ d, waiting d f2) toRemove)) (bf_headers f2)) as -> by done.
      rewrite lookup_delete_keys. destruct (decide (h ∈ _)) as [|Hni]; [done|]. rewrite E1. intros He.
      split; [done|]. intros d Hd Hrem. apply Hni. apply list_elem_of_In, in_concat. exists (waiting d f2). split.
      - apply (in_map (λ d, waiting d f2)). by apply list_elem_of_In.
      - apply list_elem_of_In. rewrite Ew. by eapply (fk_waiting _ _ Hok). }
    apply (fetch_ok_drop store f); [done|exact E3|..].
    + intros h e He. by apply Hkept.
    + intros h e d He Hd. destruct (Hkept h e He) as [_ Hn]. rewrite <-Ew. unfold waiting.
      assert (batchToHeaders f3 = delete_keys toRemove (batchToHeaders f2)) as -> by done.
      rewrite lookup_delete_keys, decide_False by (by apply Hn). done.
    + intros h e d He Hd. apply Hreq. by eapply Hkept.
  - assert (toRemove = []) as Er by (destruct toRemove; [done|cbn in Hlen; lia]).
    apply (fetch_ok_drop store f); [done|done|by rewrite E1|by intros|].
    intros h e d _ _. apply Hreq. rewrite Er. apply not_elem_of_nil.
Qed.

Lemma cleanupTimedOutHeaders_ok now store f : fetch_ok store f → fetch_ok store (cleanupTimedOutHeaders now f).
Proof.
  intros Hok. apply (fetch_ok_drop store f); try done.
  intros h e [? _]%map_lookup_filter_Some. done.
Qed.

(** Storing a batch keeps what is stored. *)
Lemma stored_save batch store d : bs_ok store →
  bs_ok (SaveBatch batch store).1 ∧ stored (Batch_Digest batch) (SaveBatch batch store).1 ∧
  (stored d store → stored d (SaveBatch batch store).1).
Proof.
  intros Hs. destruct (bs_save store batch Hs) as (_ & Hok & Ev). split; [done|]. unfold stored. rewrite Ev.
  unfold insert_new. destruct (bs_view store !! Batch_Digest batch) eqn:E; [by rewrite E|].
  rewrite lookup_insert_eq. split; [done|]. intros Hd.
  destruct (decide (d = Batch_Digest batch)) as [->|]; [by rewrite lookup_insert_eq|by rewrite lookup_insert_ne].
Qed.

Lemma fetch_ok_save batch store f : fetch_ok store f → fetch_ok (SaveBatch batch store).1 f.
Proof.
  intros [Hs Hk Hm Hw Hr Hrefs Hl]. split; try done.
  - apply (stored_save batch store [] Hs).
  - intros h e ref He Hin. destruct (Hrefs h e ref He Hin); [left|by right]. by apply (stored_save batch store _ Hs).
Qed.

(** ** Runs: the fetcher with the store it shares *)
Inductive fetch_op :=
  | FHeader (now : Z) (header : Header)
  | FBatch (batch : Batch)
  | FLocal (batch : Batch)
  | FResponse (batch : option Batch) (found : bool)
  | FCleanup (now : Z)
  | FValidators (vs : list Z).

Definition fetch_exec (x : BatchFetcher * B) (op : fetch_op) : (BatchFetcher * B) * list fetch_output :=
  let '(f, store) := x in
  match op with
  | FHeader now h => let '(f, out, _) := RequestBatchesForHeader now h store f in ((f, store), out)
  | FBatch b => let store := (SaveBatch b store).1 in
                let '(f, out) := NotifyBatchReceived b f in ((f, store), out)
  | FLocal b => ((f, (SaveBatch b store).1), [])
  | FResponse b found => let '(f, store, out) := HandleBatchResponse b found store f in ((f, store), out)
  | FCleanup now => let '(f, out) := cleanupTimedOutRequests now f in ((cleanupTimedOutHeaders now f, store), out)
  | FValidators vs => ((UpdateValidators vs f, store), [])
  end.

Definition fetch_run (x : BatchFetcher * B) (ops : list fetch_op) : BatchFetcher * B :=
  fold_left (λ x op, (fetch_exec x op).1) ops x.

Lemma ready_stored batch store f x :
  fetch_ok store f → FetchReady x ∈ (NotifyBatchReceived batch f).2 →
  ∀ ref, ref ∈ BatchRefs x → stored (BD_Digest ref) (SaveBatch batch store).1.
Proof.
  intros Hok Hx ref Href. pose proof (fetch_ok_save batch store f Hok) as Hok'.
  pose proof (stored_save batch store (BD_Digest ref) (fk_store _ _ Hok)) as (_ & Hst & Hk).
  pose proof (NotifyBatchReceived_ok batch _ f Hok' Hst) as Hn.
  destruct (NotifyBatchReceived batch f) as [f' out]. destruct Hn as [_ Hn].
  apply Hn in Hx as (h & e & He & Em & ->). destruct (fk_refs _ _ Hok' h e ref He Href) as [?|Hd]; [done|].
  rewrite Em in Hd. apply elem_of_singleton in Hd. by rewrite Hd.
Qed.

Lemma fetch_exec_ok x op :
  fetch_ok x.2 x.1 →
  let '(x', out) := fetch_exec x op in
  fetch_ok x'.2 x'.1 ∧ ∀ h, FetchReady h ∈ out → ∀ ref, ref ∈ BatchRefs h → stored (BD_Digest ref) x'.2.
Proof.
  destruct x as [f store]. intros Hok. cbn [fst snd] in *.
  assert (∀ b, let '(f', out) := NotifyBatchReceived b f in fetch_ok (SaveBatch b store).1 f' ∧
    ∀ h, FetchReady h ∈ out → ∀ ref, ref ∈ BatchRefs h → stored (BD_Digest ref) (SaveBatch b store).1) as Hnotify.
  { intros b. pose proof (ready_stored b store f) as Hrs.
    pose proof (NotifyBatchReceived_ok b _ f (fetch_ok_save b store f Hok)) as Hn.
    destruct (NotifyBatchReceived b f) as [f' out]. split; [|by intros h Hh; apply Hrs].
    apply Hn. apply (stored_save b store [] (fk_store _ _ Hok)). }
  destruct op; cbn [fetch_exec].
  - destruct (RequestBatchesForHeader_ok now header store f Hok) as (H1 & H2 & _).
    destruct (RequestBatchesForHeader now header store f) as [[f' out] ?]. split; [done|]. by intros h ?%H2.
  - specialize (Hnotify batch). by destruct (NotifyBatchReceived batch f).
  - split; [by apply fetch_ok_save|]. by intros h ?%not_elem_of_nil.
  - unfold HandleBatchResponse. destruct batch as [b|], found; cbn;
      try (split; [done|by intros h ?%not_elem_of_nil]).
    specialize (Hnotify b). by destruct (NotifyBatchReceived b f).
  - destruct (cleanupTimedOutRequests_ok now store f Hok) as [H1 H2].
    destruct (cleanupTimedOutRequests now f) as [f' out]. split; [by apply cleanupTimedOutHeaders_ok|].
    by intros h ?%H2.
  - split; [|by intros h ?%not_elem_of_nil]. by destruct Hok.
Qed.

(** C32. The fetcher releases a header exactly when its last batch is here: in
    every state that a new fetcher reaches by headers, batches, responses,
    local batches and cleanups, at most the configured number of headers wait;
    each misses a batch, is registered under every batch it misses, and for each
    of these a request is outstanding; a batch that arrives releases exactly the
    headers for which it is the only one missing; and a released header has all
    its batches in the store. *)
Theorem fetcher_releases_complete_headers cfg store ops batch :
  bs_ok store →
  let '(f, store) := fetch_run (NewBatchFetcher cfg, store) ops in
  zsize (bf_headers f) ≤ Z.max 0 (BF_MaxPendingHeaders (bf_cfg f)) ∧
  (∀ h e, bf_headers f !! h = Some e → missingBatch e ≠ ∅ ∧
     ∀ d, d ∈ missingBatch e → h ∈ waiting d f ∧ is_Some (pendingRequests f !! d)) ∧
  let '((f', store'), out) := fetch_exec (f, store) (FBatch batch) in
  ∀ x, FetchReady x ∈ out ↔
    (∃ h e, bf_headers f !! h = Some e ∧ missingBatch e = {[ Batch_Digest batch ]} ∧ x = he_header e) ∧
    ∀ ref, ref ∈ BatchRefs x → is_Some (bs_view store' !! BD_Digest ref).
Proof.
  intros Hs. assert (fetch_ok (fetch_run (NewBatchFetcher cfg, store) ops).2 (fetch_run (NewBatchFetcher cfg, store) ops).1) as Hok.
  { assert (fetch_ok (NewBatchFetcher cfg, store).2 (NewBatchFetcher cfg, store).1) as H.
    { split; try done; cbn. rewrite map_size_empty. lia. }
    revert H. unfold fetch_run. generalize (NewBatchFetcher cfg, store).
    induction ops as [|op ops IH]; intros x H; [done|]. cbn [fold_left]. apply IH.
    pose proof (fetch_exec_ok x op H) as Hx. destruct (fetch_exec x op) as [x' out]. by destruct Hx. }
  destruct (fetch_run (NewBatchFetcher cfg, store) ops) as [f st]. cbn [fst snd] in Hok.
  split_and!; [by apply fk_limit in Hok| |].
  { intros h e He. split; [by eapply (fk_missing _ _ Hok)|]. intros d Hd.
    split; [by eapply (fk_waiting _ _ Hok)|by eapply (fk_requested _ _ Hok)]. }
  cbn [fetch_exec].
  pose proof (ready_stored batch st f) as Hrs.
  pose proof (NotifyBatchReceived_ok batch _ f (fetch_ok_save batch st f Hok)) as Hn.
  destruct (NotifyBatchReceived batch f) as [f' out]. destruct Hn as [_ Hn].
  { apply (stored_save batch st [] (fk_store _ _ Hok)). }
  intros x. rewrite <-Hn. split; [|by intros []]. intros Hx. split; [done|]. by apply Hrs.
Qed.
End claims.

(** ** Closed examples *)
#[local] Existing Instance range_sorted.

Module FetchExample.
Definition batch (t : Z) : Batch := NewBatch 0 0 0 [[t]] 7.
Definition header : Header := NewHeader 2 1 0 [GetDigest (batch 1); GetDigest (batch 2)] [] 9.
Definition ops : list fetch_op := [FHeader 0 header; FBatch (batch 1)].
End FetchExample.

Lemma fetcher_releases_complete_headers_witness :
  let '(f, store) := fetch_run (NewBatchFetcher DefaultBatchFetcherConfig, NewMemoryBatchStore) FetchExample.ops in
  zsize (bf_headers f) = 1 ∧ zsize (bf_headers f) ≤ Z.max 0 (BF_MaxPendingHeaders (bf_cfg f)).
Proof.
  pose proof (fetcher_releases_complete_headers DefaultBatchFetcherConfig NewMemoryBatchStore FetchExample.ops
    (FetchExample.batch 2) mb_ok_new) as H.
  assert (zsize (bf_headers (fetch_run (NewBatchFetcher DefaultBatchFetcherConfig, NewMemoryBatchStore)
    FetchExample.ops).1) = 1) as E by (by vm_compute).
  destruct (fetch_run _ FetchExample.ops) as [f store]. split; [exact E|]. exact (proj1 H).
Defined.

(** The second batch releases the header. *)
Example second_batch_releases :
  (fetch_exec (fetch_run (NewBatchFetcher DefaultBatchFetcherConfig, NewMemoryBatchStore) FetchExample.ops)
     (FBatch (FetchExample.batch 2))).2 = [FetchReady FetchExample.header].
Proof. by vm_compute. Qed.
