(* ===== verification/Config.v ===== *)
(** The configuration of a node (config.go): its parts, their defaults and their
    validation.  Durations are nanoseconds; [float64] thresholds are the
    Standard Library's specification of IEEE floats, compared as Go does. *)
From S2P Require Import Prelude Errors Types.
From Stdlib Require Export SpecFloat.
Local Open Scope string_scope.
Local Open Scope Z_scope.

(** [float64] literals [0.8] and [0.2], rounded to nearest. *)
Definition float_0_8 : spec_float := S754_finite false 7205759403792794 (-53).
Definition float_0_2 : spec_float := S754_finite false 7205759403792794 (-55).

Record WorkerConfig := mk_WorkerConfig {
  WC_MinWorkers : Z;
  WC_MaxWorkers : Z;
  WC_BatchSize : Z;
  WC_BatchTimeout : Z;
  WC_MaxBatchBytes : Z;
  WC_MaxPendingTxs : Z;
  WC_MaxPendingBytes : Z;
  WC_ScalingInterval : Z;
  WC_ScaleUpThreshold : spec_float;
  WC_ScaleDownThreshold : spec_float;
  WC_DrainTimeout : Z
}.

Record PrimaryConfig := mk_PrimaryConfig {
  PC_HeaderTimeout : Z;
  PC_MaxBatchesPerHeader : Z;
  PC_MaxRoundGap : Z;
  PC_VoteTimeout : Z;
  PC_AllowEmptyHeaders : bool
}.

Record SyncSettings := mk_SyncSettings {
  SC_SyncInterval : Z;
  SC_SyncThreshold : Z;
  SC_SyncBatchSize : Z;
  SC_SyncTimeout : Z
}.

Record StorageConfig := mk_StorageConfig { DataDir : string; InMemory : bool }.
Record GCConfig := mk_GCConfig { GC_Depth : Z; RecoverTxs : bool }.
Record FlowControlConfig := mk_FlowControlConfig { FC_MaxUncommittedRounds : Z }.

(** The transaction validator is a parameter of the operations that call it. *)
Record NodeConfig := mk_NodeConfig {
  NC_ValidatorIndex : Z;
  NC_Signer : Signer;
  NC_Worker : WorkerConfig;
  NC_Primary : PrimaryConfig;
  NC_Sync : SyncSettings;
  NC_Storage : StorageConfig;
  NC_GC : GCConfig;
  NC_FlowControl : FlowControlConfig
}.

Definition DefaultWorkerConfig : WorkerConfig :=
  {| WC_MinWorkers := 1; WC_MaxWorkers := 8; WC_BatchSize := 500; WC_BatchTimeout := 100 * 10 ^ 6;
     WC_MaxBatchBytes := 512 * 1024; WC_MaxPendingTxs := 10000; WC_MaxPendingBytes := 50 * 1024 * 1024;
     WC_ScalingInterval := 5 * 10 ^ 9; WC_ScaleUpThreshold := float_0_8; WC_ScaleDownThreshold := float_0_2;
     WC_DrainTimeout := 30 * 10 ^ 9 |}.
Definition DefaultPrimaryConfig : PrimaryConfig := mk_PrimaryConfig (500 * 10 ^ 6) 100 10 (30 * 10 ^ 9) true.
Definition DefaultSyncSettings : SyncSettings := mk_SyncSettings (10 * 10 ^ 9) 5 100 (30 * 10 ^ 9).
Definition DefaultStorageConfig : StorageConfig := mk_StorageConfig "data/looseberry" false.
Definition DefaultGCConfig : GCConfig := mk_GCConfig 50 true.
Definition DefaultFlowControlConfig : FlowControlConfig := mk_FlowControlConfig 100.

(** [DefaultConfig] leaves the identity to the caller. *)
Definition DefaultNodeConfig (index : Z) (signer : Signer) : NodeConfig :=
  mk_NodeConfig index signer DefaultWorkerConfig DefaultPrimaryConfig DefaultSyncSettings DefaultStorageConfig
    DefaultGCConfig DefaultFlowControlConfig.

(** The first check that fails. *)
Fixpoint first_error (checks : list (bool * string)) : option error :=
  match checks with
  | [] => None
  | (bad, msg) :: checks' => if bad then Some (Errorf msg) else first_error checks'
  end.

Definition WorkerConfig_Validate (c : WorkerConfig) : option error :=
  first_error
    [(bool_decide (WC_MinWorkers c < 1), "min_workers must be at least 1");
     (bool_decide (WC_MaxWorkers c < WC_MinWorkers c), "max_workers must be >= min_workers");
     (bool_decide (WC_BatchSize c < 1), "batch_size must be at least 1");
     (bool_decide (WC_BatchTimeout c ≤ 0), "batch_timeout must be positive");
     (bool_decide (WC_MaxBatchBytes c < 1), "max_batch_bytes must be at least 1");
     (bool_decide (WC_MaxPendingTxs c < 1), "max_pending_txs must be at least 1");
     (bool_decide (WC_MaxPendingBytes c < 1), "max_pending_bytes must be at least 1");
     (SFleb (WC_ScaleUpThreshold c) (WC_ScaleDownThreshold c),
      "scale_up_threshold must be > scale_down_threshold")].

Definition PrimaryConfig_Validate (c : PrimaryConfig) : option error :=
  first_error
    [(bool_decide (PC_HeaderTimeout c ≤ 0), "header_timeout must be positive");
     (bool_decide (PC_MaxBatchesPerHeader c < 1), "max_batches_per_header must be at least 1");
     (bool_decide (PC_MaxRoundGap c < 1), "max_round_gap must be at least 1");
     (bool_decide (PC_VoteTimeout c ≤ 0), "vote_timeout must be positive")].

Definition SyncSettings_Validate (c : SyncSettings) : option error :=
  first_error
    [(bool_decide (SC_SyncInterval c ≤ 0), "sync_interval must be positive");
     (bool_decide (SC_SyncThreshold c < 1), "sync_threshold must be at least 1");
     (bool_decide (SC_SyncBatchSize c < 1), "sync_batch_size must be at least 1");
     (bool_decide (SC_SyncTimeout c ≤ 0), "sync_timeout must be positive")].

Definition GCConfig_Validate (c : GCConfig) : option error :=
  first_error [(bool_decide (GC_Depth c < 1), "gc_depth must be at least 1")].
Definition FlowControlConfig_Validate (c : FlowControlConfig) : option error :=
  first_error [(bool_decide (FC_MaxUncommittedRounds c < 1), "max_uncommitted_rounds must be at least 1")].

Definition Config_Validate (c : NodeConfig) : option error :=
  match WorkerConfig_Validate (NC_Worker c) with
  | Some err => Some (Wrapf "worker config" err)
  | None =>
  match PrimaryConfig_Validate (NC_Primary c) with
  | Some err => Some (Wrapf "primary config" err)
  | None =>
  match SyncSettings_Validate (NC_Sync c) with
  | Some err => Some (Wrapf "sync config" err)
  | None =>
  match GCConfig_Validate (NC_GC c) with
  | Some err => Some (Wrapf "gc config" err)
  | None =>
  match FlowControlConfig_Validate (NC_FlowControl c) with
  | Some err => Some (Wrapf "flow control config" err)
  | None => None
  end end end end end.

Lemma first_error_None checks : first_error checks = None ↔ Forall (λ c, c.1 = false) checks.
Proof.
  induction checks as [|[[] msg] checks IH]; cbn [first_error]; rewrite ?Forall_nil, ?Forall_cons; cbn; [done| |].
  - split; [done|]. by intros [? _].
  - rewrite IH. tauto.
Qed.

(** The bounds on the counts of a validated configuration. *)
Lemma validated_bounds c :
  Config_Validate c = None →
  1 ≤ WC_MinWorkers (NC_Worker c) ≤ WC_MaxWorkers (NC_Worker c) ∧ 1 ≤ WC_BatchSize (NC_Worker c) ∧
  1 ≤ WC_MaxPendingTxs (NC_Worker c) ∧ 1 ≤ WC_MaxPendingBytes (NC_Worker c) ∧
  1 ≤ PC_MaxBatchesPerHeader (NC_Primary c) ∧ 1 ≤ PC_MaxRoundGap (NC_Primary c) ∧
  1 ≤ SC_SyncBatchSize (NC_Sync c) ∧ 1 ≤ GC_Depth (NC_GC c) ∧ 1 ≤ FC_MaxUncommittedRounds (NC_FlowControl c).
Proof.
  unfold Config_Validate. repeat case_match; try done. intros _.
  repeat match goal with H : _ = None |- _ => apply first_error_None in H; rewrite ?Forall_cons in H end.
  cbn [fst] in *. rewrite !bool_decide_eq_false in *. lia.
Qed.
