(* ===== verification/Scaler.v ===== *)
(** Automatic scaling (worker/scaler.go): the load of the pool in [float64]
    arithmetic (the Standard Library's specification of binary64, rounding to
    nearest even), the cooldown, the event history and the callbacks.  The
    scaler holds a reference to the pool, so its operations take the pool and
    return it; [now] is [time.Now()], and a tick runs at one instant. *)
From S2P Require Import Prelude Bytes Errors Types Batch Store TxIndex Heap AckTracker Worker Pool Config.
Local Open Scope Z_scope.

(** A product of [int] values, which wraps around at 64 bits. *)
Definition int_mul (x y : Z) : Z := wrap 64 (x * y + 2 ^ 63) - 2 ^ 63.

(** [float64(z)], and the operations of the type. *)
Definition float64 (z : Z) : spec_float := binary_normalize 53 1024 z 0 false.
Definition f64_mul : spec_float → spec_float → spec_float := SFmul 53 1024.
Definition f64_div : spec_float → spec_float → spec_float := SFdiv 53 1024.
Definition f64_zero : spec_float := S754_zero false.

Record ScalerConfig := mk_ScalerConfig {
  ScaleUpThreshold : spec_float;
  ScaleDownThreshold : spec_float;
  ScalingInterval : Z;
  ScaleCooldown : Z
}.
Definition DefaultScalerConfig : ScalerConfig := mk_ScalerConfig float_0_8 float_0_2 (10 ^ 9) (5 * 10 ^ 9).

Record ScaleEvent := mk_ScaleEvent {
  EventTime : Z;
  OldWorkers : Z;
  NewWorkers : Z;
  EventLoad : spec_float;
  EventUp : bool
}.

(** [lastScaleTime] is [None] while it is the zero time. *)
Record Scaler := mk_Scaler {
  sc_cfg : ScalerConfig;
  lastScaleTime : option Z;
  scaleUpCount : Z;
  scaleDownCount : Z;
  events : list ScaleEvent;
  maxEvents : Z;
  sc_running : bool
}.
#[export] Instance eta_Scaler : Settable Scaler := λ s,
  mk_Scaler (sc_cfg s) (lastScaleTime s) (scaleUpCount s) (scaleDownCount s) (events s) (maxEvents s) (sc_running s).

Definition NewScaler (cfg : ScalerConfig) : Scaler := mk_Scaler cfg None 0 0 [] 100 false.
Definition Scaler_Start (s : Scaler) : Scaler * option error :=
  if sc_running s then (s, Some ErrAlreadyRunning) else (s <| sc_running := true |>, None).
Definition Scaler_Stop (s : Scaler) : Scaler * option error :=
  if sc_running s then (s <| sc_running := false |>, None) else (s, Some ErrNotRunning).

(** [time.Since] of the zero time is the longest duration. *)
Definition since_scale (now : Z) (s : Scaler) : Z :=
  match lastScaleTime s with None => 2 ^ 63 - 1 | Some t => now - t end.

Definition recordScaleEvent (now oldWorkers newWorkers : Z) (load : spec_float) (scaleUp : bool) (s : Scaler) : Scaler :=
  let event := mk_ScaleEvent now oldWorkers newWorkers load scaleUp in
  let kept := if bool_decide (zlen (events s) >= maxEvents s) then drop 1 (events s) else events s in
  s <| events := kept ++ [event] |>.

Section scaler.
Context {I B : Type} {TI : TxIndex I} {BS : BatchStore B}.
Context (validator : option (Transaction → result TxAdmission)).
Implicit Types (s : Scaler) (p : Pool I B).

Definition CalculateLoad p : spec_float :=
  let workerCount := WorkerCount p in
  if bool_decide (workerCount = 0) then f64_zero
  else
    let countCapacity := float64 (int_mul workerCount (BatchSize (WorkerCfg (pool_cfg p)))) in
    let countLoad := if SFltb f64_zero countCapacity
                     then f64_div (float64 (Pool.PendingCount p)) countCapacity else f64_zero in
    let byteCapacity := f64_mul (float64 workerCount) (float64 (MaxPendingBytes (WorkerCfg (pool_cfg p)))) in
    let byteLoad := if SFltb f64_zero byteCapacity
                    then f64_div (float64 (Pool.PendingBytes p)) byteCapacity else f64_zero in
    if SFltb byteLoad countLoad then countLoad else byteLoad.

Definition CalculateCountLoad p : spec_float :=
  let workerCount := WorkerCount p in
  if bool_decide (workerCount = 0) then f64_zero
  else
    let capacity := float64 (int_mul workerCount (BatchSize (WorkerCfg (pool_cfg p)))) in
    if SFeqb capacity f64_zero then f64_zero else f64_div (float64 (Pool.PendingCount p)) capacity.

Definition CalculateByteLoad p : spec_float :=
  let workerCount := WorkerCount p in
  if bool_decide (workerCount = 0) then f64_zero
  else
    let capacity := f64_mul (float64 workerCount) (float64 (MaxPendingBytes (WorkerCfg (pool_cfg p)))) in
    if SFeqb capacity f64_zero then f64_zero else f64_div (float64 (Pool.PendingBytes p)) capacity.

(** The callback's arguments are those of the event recorded; the batches are
    those that a worker makes while it is stopped. *)
Definition tryScaleUp (now oldWorkers : Z) (load : spec_float) s p : Scaler * Pool I B * bool :=
  match ScaleUp p with
  | (p, true) =>
      let s := recordScaleEvent now oldWorkers (WorkerCount p) load true s in
      (s <| scaleUpCount := u64 (scaleUpCount s + 1) |> <| lastScaleTime := Some now |>, p, true)
  | (p, false) => (s, p, false)
  end.

Definition tryScaleDown (now oldWorkers : Z) (load : spec_float) s p : Scaler * Pool I B * list Batch * bool :=
  match ScaleDown validator now p with
  | (p, made, true) =>
      let s := recordScaleEvent now oldWorkers (WorkerCount p) load false s in
      (s <| scaleDownCount := u64 (scaleDownCount s + 1) |> <| lastScaleTime := Some now |>, p, made, true)
  | (p, made, false) => (s, p, made, false)
  end.

Definition checkAndScale (now : Z) s p : Scaler * Pool I B * list Batch :=
  if bool_decide (since_scale now s < ScaleCooldown (sc_cfg s)) then (s, p, [])
  else
    let load := CalculateLoad p in
    let oldWorkers := WorkerCount p in
    if SFltb (ScaleUpThreshold (sc_cfg s)) load then
      let '(s, p, _) := tryScaleUp now oldWorkers load s p in (s, p, [])
    else if SFltb load (ScaleDownThreshold (sc_cfg s)) then
      let '(s, p, made, _) := tryScaleDown now oldWorkers load s p in (s, p, made)
    else (s, p, []).

Definition ForceScaleUp (now : Z) s p : Scaler * Pool I B * bool :=
  tryScaleUp now (WorkerCount p) (CalculateLoad p) s p.
Definition ForceScaleDown (now : Z) s p : Scaler * Pool I B * list Batch * bool :=
  tryScaleDown now (WorkerCount p) (CalculateLoad p) s p.

(** ** Runs: ticks of the scaler between operations on the pool *)
Inductive scaler_op := STick (now : Z) | SPool (op : pool_op).

Definition scaler_exec (x : Scaler * Pool I B) (op : scaler_op) : Scaler * Pool I B :=
  match op with
  | STick now => (checkAndScale now x.1 x.2).1
  | SPool op => (x.1, pool_exec validator x.2 op)
  end.

(** The load as documented, independently of the code: the larger of the pending
    transactions relative to a batch of each worker and the pending bytes
    relative to the byte limit of all workers; 0 without workers, and a ratio is 0
    when its capacity is not positive. *)
Definition ratio (n : Z) (capacity : spec_float) : spec_float :=
  if SFltb f64_zero capacity then f64_div (float64 n) capacity else f64_zero.
Definition is_load p (load : spec_float) : Prop :=
  let c := WorkerCfg (pool_cfg p) in
  let count := ratio (Pool.PendingCount p) (float64 (int_mul (WorkerCount p) (BatchSize c))) in
  let byte := ratio (Pool.PendingBytes p) (f64_mul (float64 (WorkerCount p)) (float64 (MaxPendingBytes c))) in
  if bool_decide (WorkerCount p = 0) then load = f64_zero
  else (load = count ∨ load = byte) ∧ SFltb load count = false ∧ SFltb load byte = false.

Lemma SFcompare_swap x y : SFcompare y x = option_map CompOpp (SFcompare x y).
Proof.
  destruct x as [[]|[]| |[] mx ex], y as [[]|[]| |[] my ey]; try done; cbn [SFcompare option_map];
    rewrite (Z.compare_antisym ex ey); destruct (ex ?= ey)%Z; cbn [CompOpp]; try done;
    rewrite (Pos.compare_cont_antisym mx my Eq); by destruct (Pos.compare_cont Eq mx my).
Qed.

Lemma SFltb_asym x y : SFltb x y = true → SFltb y x = false.
Proof. unfold SFltb. rewrite (SFcompare_swap x y). by destruct (SFcompare x y) as [[]|]. Qed.

Lemma SFltb_irrefl x : SFltb x x = false.
Proof. destruct (SFltb x x) eqn:E; [|done]. by apply SFltb_asym in E as E'; rewrite E in E'. Qed.

Lemma CalculateLoad_spec p : is_load p (CalculateLoad p).
Proof.
  unfold is_load, CalculateLoad. case_bool_decide; [done|]. unfold ratio. cbv zeta.
  set (count := if SFltb f64_zero (float64 (int_mul _ _)) then _ else _).
  set (byte := if SFltb f64_zero (f64_mul _ _) then _ else _).
  destruct (SFltb byte count) eqn:E.
  - split_and!; [by left|apply SFltb_irrefl|by apply SFltb_asym].
  - split_and!; [by right|done|apply SFltb_irrefl].
Qed.

Lemma is_load_above p load t :
  let c := WorkerCfg (pool_cfg p) in
  let count := ratio (Pool.PendingCount p) (float64 (int_mul (WorkerCount p) (BatchSize c))) in
  let byte := ratio (Pool.PendingBytes p) (f64_mul (float64 (WorkerCount p)) (float64 (MaxPendingBytes c))) in
  is_load p load → bool_decide (WorkerCount p = 0) = false → SFltb byte count = true → SFltb t count = true →
  SFltb t load = true.
Proof.
  cbv zeta. unfold is_load. intros H E Hb Ht. rewrite E in H. destruct H as ([->| ->] & H & _); [done|].
  by rewrite Hb in H.
Qed.

(** A recorded event is justified by the load and changed one worker. *)
Definition event_ok (c : ScalerConfig) (e : ScaleEvent) : Prop :=
  if EventUp e
  then NewWorkers e = OldWorkers e + 1 ∧ SFltb (ScaleUpThreshold c) (EventLoad e) = true
  else NewWorkers e = OldWorkers e - 1 ∧ SFltb (EventLoad e) (ScaleDownThreshold c) = true.

(** Consecutive events are a cooldown apart. *)
Definition spaced (cooldown : Z) (l : list ScaleEvent) : Prop :=
  ∀ i a b, l !! i = Some a → l !! S i = Some b → cooldown ≤ EventTime b - EventTime a.

Record scaler_ok (c : ScalerConfig) s : Prop := {
  so_cfg : sc_cfg s = c;
  so_max : maxEvents s = 100;
  so_len : zlen (events s) ≤ 100;
  so_events : Forall (event_ok c) (events s);
  so_spaced : spaced (ScaleCooldown c) (events s);
  so_last : lastScaleTime s = EventTime <$> last (events s)
}.

Lemma spaced_snoc k l e :
  spaced k l → (∀ a, last l = Some a → k ≤ EventTime e - EventTime a) → spaced k (l ++ [e]).
Proof.
  intros Hs Hl i a b Ha Hb. destruct (decide (S i < length l)%nat).
  - rewrite lookup_app_l in Ha, Hb by lia. by eapply Hs.
  - rewrite lookup_app_r in Hb by lia. apply list_lookup_singleton_Some in Hb as [? <-].
    rewrite lookup_app_l in Ha by lia. apply Hl. rewrite last_lookup. by replace (pred (length l)) with i by lia.
Qed.

Lemma spaced_drop k l : spaced k l → spaced k (drop 1 l).
Proof. intros Hs i a b. rewrite !lookup_drop. apply Hs. Qed.

(** Recording an event when the cooldown has passed. *)
Lemma record_ok c now old new load up s n m :
  scaler_ok c s → ScaleCooldown c ≤ since_scale now s → event_ok c (mk_ScaleEvent now old new load up) →
  scaler_ok c (recordScaleEvent now old new load up s <| scaleUpCount := n |> <| scaleDownCount := m |>
                 <| lastScaleTime := Some now |>).
Proof.
  intros [H1 H2 H3 H4 H5 H6] Hc He.
  set (kept := if bool_decide (zlen (events s) >= maxEvents s) then drop 1 (events s) else events s).
  assert (zlen kept ≤ 99 ∧ Forall (event_ok c) kept ∧ spaced (ScaleCooldown c) kept ∧
          (∀ a, last kept = Some a → last (events s) = Some a)) as (K1 & K2 & K3 & K4).
  { unfold kept. case_bool_decide; [|by split_and!; [lia|..]]. rewrite length_drop.
    split_and!; [lia|by apply Forall_drop|by apply spaced_drop|].
    intros a. rewrite !last_lookup, lookup_drop, length_drop. intros Ha. pose proof (lookup_lt_Some _ _ _ Ha).
    by replace (1 + pred (length (events s) - 1))%nat with (pred (length (events s))) in Ha by lia. }
  split; cbn; try done; fold kept.
  - rewrite length_app. cbn. lia.
  - apply Forall_app. by split; [|constructor].
  - apply spaced_snoc; [done|]. intros a Ha. cbn. unfold since_scale in Hc. rewrite H6, (K4 a Ha) in Hc. done.
  - by rewrite last_snoc.
Qed.

Lemma tryScaleUp_ok c cp now load s p :
  config_ok cp → pool_ok cp p → scaler_ok c s → ScaleCooldown c ≤ since_scale now s →
  SFltb (ScaleUpThreshold c) load = true →
  let r := tryScaleUp now (WorkerCount p) load s p in scaler_ok c r.1.1 ∧ pool_ok cp r.1.2.
Proof.
  intros Hcp Hp Hs Hc Hl. unfold tryScaleUp. pose proof (ScaleUp_ok cp p Hcp Hp) as Hp'.
  assert ((ScaleUp p).2 = true → WorkerCount (ScaleUp p).1 = WorkerCount p + 1) as Hn.
  { unfold ScaleUp, WorkerCount. destruct (negb _); [done|]. case_bool_decide; [done|].
    rewrite addWorkerLocked_eq. intros _. cbn. rewrite length_app. cbn. lia. }
  destruct (ScaleUp p) as [p' []]; cbn [fst snd] in *; [|by split]. split; [|done].
  by apply (record_ok c now _ _ load true s _ (scaleDownCount s)); [..|split; [apply Hn|]].
Qed.

Lemma tryScaleDown_ok c cp now load s p :
  config_ok cp → pool_ok cp p → scaler_ok c s → ScaleCooldown c ≤ since_scale now s →
  SFltb load (ScaleDownThreshold c) = true →
  let r := tryScaleDown now (WorkerCount p) load s p in scaler_ok c r.1.1.1 ∧ pool_ok cp r.1.1.2.
Proof.
  intros Hcp Hp Hs Hc Hl. unfold tryScaleDown. pose proof (ScaleDown_ok validator now cp p Hcp Hp) as Hp'.
  assert ((ScaleDown validator now p).2 = true → WorkerCount (ScaleDown validator now p).1.1 = WorkerCount p - 1) as Hn.
  { destruct (ScaleDown_cases validator now p) as [->|(_ & _ & ws & w & Hw & ->)]; [|done|].
    - rewrite (po_cfg _ _ Hp). apply Hcp.
    - intros _. unfold WorkerCount. cbn. destruct Hp as [_ Hup _]. rewrite Hw in Hup. apply Forall_app in Hup as [Hup _].
      destruct (redistribute_up validator _ (tx <$> w_pending w) ws (pool_txIndex p) Hup) as [_ ->].
      rewrite Hw, length_app. cbn. lia. }
  destruct (ScaleDown validator now p) as [[p' made] []]; cbn [fst snd] in *; [|by split]. split; [|done].
  by apply (record_ok c now _ _ load false s (scaleUpCount s)); [..|split; [apply Hn|]].
Qed.

Lemma checkAndScale_ok c cp now s p :
  config_ok cp → pool_ok cp p → scaler_ok c s →
  let r := checkAndScale now s p in scaler_ok c r.1.1 ∧ pool_ok cp r.1.2.
Proof.
  intros Hcp Hp Hs. unfold checkAndScale. rewrite (so_cfg _ _ Hs). case_bool_decide as Hc; [done|].
  apply Z.nlt_ge in Hc. destruct (SFltb (ScaleUpThreshold c) _) eqn:E1.
  - pose proof (tryScaleUp_ok c cp now (CalculateLoad p) s p Hcp Hp Hs Hc E1) as H.
    by destruct (tryScaleUp _ _ _ _ _) as [[? ?] ?].
  - destruct (SFltb _ (ScaleDownThreshold c)) eqn:E2; [|done].
    pose proof (tryScaleDown_ok c cp now (CalculateLoad p) s p Hcp Hp Hs Hc E2) as H.
    by destruct (tryScaleDown _ _ _ _ _) as [[[? ?] ?] ?].
Qed.

(** The last scaling is a cooldown ago. *)
Definition cooled (c : ScalerConfig) (now : Z) s : Prop :=
  match last (events s) with None => True | Some e => ScaleCooldown c ≤ now - EventTime e end.

Lemma cooled_since c now s :
  scaler_ok c s → is_i64 (ScaleCooldown c) → cooled c now s ↔ ¬ since_scale now s < ScaleCooldown c.
Proof.
  intros Hs [_ Hc]. unfold cooled, since_scale. rewrite (so_last _ _ Hs). destruct (last (events s)); cbn; lia.
Qed.

(** What one tick does, exactly. *)
Definition scales_up (c : ScalerConfig) (now : Z) (load : spec_float) s p : Prop :=
  pool_running p = true ∧ cooled c now s ∧ SFltb (ScaleUpThreshold c) load = true ∧ WorkerCount p < MaxWorkers (pool_cfg p).
Definition scales_down (c : ScalerConfig) (now : Z) (load : spec_float) s p : Prop :=
  pool_running p = true ∧ cooled c now s ∧ SFltb (ScaleUpThreshold c) load = false ∧
  SFltb load (ScaleDownThreshold c) = true ∧ MinWorkers (pool_cfg p) < WorkerCount p.

Lemma tick_spec c cp now s p :
  config_ok cp → pool_ok cp p → scaler_ok c s → is_i64 (ScaleCooldown c) →
  let load := CalculateLoad p in
  let n := WorkerCount p in
  let r := (checkAndScale now s p).1 in
  (scales_up c now load s p → WorkerCount r.2 = n + 1 ∧ last (events r.1) = Some (mk_ScaleEvent now n (n + 1) load true)) ∧
  (scales_down c now load s p → WorkerCount r.2 = n - 1 ∧ last (events r.1) = Some (mk_ScaleEvent now n (n - 1) load false)) ∧
  (¬ scales_up c now load s p → ¬ scales_down c now load s p → r = (s, p)).
Proof.
  intros Hcp Hp Hs Hi load n r. pose proof (cooled_since c now s Hs Hi) as Hcool.
  unfold scales_up, scales_down. rewrite Hcool. unfold r, checkAndScale. rewrite (so_cfg _ _ Hs). fold load n. case_bool_decide as Hc.
  { split_and!; [tauto|tauto|done]. }
  pose proof (po_cfg _ _ Hp) as Ec. rewrite Ec. destruct (SFltb (ScaleUpThreshold c) load) eqn:E1.
  - unfold tryScaleUp, ScaleUp. rewrite Ec. destruct (pool_running p); cbn [negb]; [|split_and!; naive_solver].
    fold n. change (zlen (workers p)) with n. case_bool_decide as Hm; [split_and!; [lia|by intros (_ & _ & ? & _)|done]|].
    rewrite addWorkerLocked_eq. cbn. rewrite last_snoc.
    assert (WorkerCount (p <| nextID := wrap 32 (nextID p + 1) |> <| workers := workers p ++ [fresh_worker p] |>) = n + 1) as En.
    { unfold WorkerCount, n. cbn. rewrite length_app. cbn. unfold WorkerCount. lia. }
    split_and!; [intros _|by intros (_ & _ & ? & _)|intros Hno; destruct Hno; split_and!; [done..|lia]].
    unfold WorkerCount in *. cbn in *. rewrite En. done.
  - destruct (SFltb load (ScaleDownThreshold c)) eqn:E2; [|split_and!; naive_solver].
    assert (0 ≤ MinWorkers (pool_cfg p)) as H0 by (rewrite Ec; apply Hcp).
    unfold tryScaleDown. destruct (ScaleDown_cases validator now p H0) as [E|(Hr & Hlt & ws & w & Hw & E)]; rewrite E.
    + assert (¬ (pool_running p = true ∧ MinWorkers cp < n)) as Hno.
      { intros [Hr Hlt]. unfold ScaleDown in E. rewrite Hr, bool_decide_eq_false_2 in E by (unfold n, WorkerCount in Hlt; rewrite Ec; lia).
        cbn [negb] in E. destruct (last (workers p)) as [w|] eqn:El.
        - destruct (DrainPending w), (Worker.Stop _ _ _ _). by destruct (_ && _).
        - apply last_None in El. unfold n, WorkerCount in Hlt. rewrite El in Hlt. cbn in Hlt. rewrite Ec in H0. lia. }
      split_and!; [by intros (_ & _ & ? & _)|naive_solver|done].
    + assert (WorkerCount (p <| workers := redistribute validator (tx <$> w_pending w) (pool_txIndex p) ws |>) = n - 1) as En.
      { unfold n, WorkerCount. cbn. destruct Hp as [_ Hup _]. rewrite Hw in Hup. apply Forall_app in Hup as [Hup _].
        destruct (redistribute_up validator _ (tx <$> w_pending w) ws (pool_txIndex p) Hup) as [_ ->].
        rewrite Hw, length_app. cbn. lia. }
      unfold WorkerCount in En |- *. cbn in En |- *. rewrite last_snoc, En. split_and!; [by intros (_ & _ & ? & _)|done|]. intros _ Hno. destruct Hno. by rewrite <-Ec.
Qed.

(** C36. Automatic scaling is exact, justified, bounded and slow: in every state
    that a run of scaler ticks and pool operations reaches (with consistent
    limits), a tick adds one worker exactly when the pool runs below its maximal
    number of workers, a cooldown has passed since the last scaling and the load
    (the larger of the transaction and the byte load) exceeds the upper threshold;
    it removes one exactly when the pool runs above its minimal number, the
    cooldown has passed and the load is below the lower threshold and not above
    the upper one; it records the time, both numbers of workers and the load; in
    all other cases it changes nothing.  The recorded scalings (at most the last
    hundred) are each justified that way and at least a cooldown apart, and while
    the pool runs it keeps its number of workers within the configured limits. *)
Theorem scaler_scales_safely c cp v st ix q ops now :
  config_ok cp → is_i64 (ScaleCooldown c) →
  let x := fold_left scaler_exec ops (NewScaler c, NewPool cp v st ix q) in
  let y := scaler_exec x (STick now) in
  let n := WorkerCount x.2 in
  (∃ load, is_load x.2 load ∧
     (scales_up c now load x.1 x.2 →
        WorkerCount y.2 = n + 1 ∧ last (events y.1) = Some (mk_ScaleEvent now n (n + 1) load true)) ∧
     (scales_down c now load x.1 x.2 →
        WorkerCount y.2 = n - 1 ∧ last (events y.1) = Some (mk_ScaleEvent now n (n - 1) load false)) ∧
     (¬ scales_up c now load x.1 x.2 → ¬ scales_down c now load x.1 x.2 → y = x)) ∧
  zlen (events x.1) ≤ 100 ∧ Forall (event_ok c) (events x.1) ∧ spaced (ScaleCooldown c) (events x.1) ∧
  (pool_running x.2 = true → MinWorkers cp ≤ WorkerCount x.2 ≤ MaxWorkers cp).
Proof.
  intros Hcp Hi x y n. assert (scaler_ok c x.1 ∧ pool_ok cp x.2) as [Hs Hp].
  { unfold x. assert (∀ y, scaler_ok c y.1 ∧ pool_ok cp y.2 →
      scaler_ok c (fold_left scaler_exec ops y).1 ∧ pool_ok cp (fold_left scaler_exec ops y).2) as H.
    { clear -Hcp. induction ops as [|op ops IH]; intros y [Hs Hp]; [done|]. cbn [fold_left]. apply IH. destruct op as [now'|op]; cbn.
      - by apply checkAndScale_ok.
      - split; [done|]. by apply pool_exec_ok. }
    apply H. split; [|apply NewPool_ok]. split; cbn; try done. }
  split.
  - exists (CalculateLoad x.2). split; [apply CalculateLoad_spec|]. destruct (tick_spec c cp now x.1 x.2 Hcp Hp Hs Hi) as (H1 & H2 & H3).
    split_and!; [exact H1|exact H2|]. intros Hu Hd. unfold y. cbn [scaler_exec]. rewrite (H3 Hu Hd). by destruct x.
  - destruct Hs, Hp as [_ _ Hn]. split_and!; [done..|]. intros Hr. by rewrite Hr in Hn.
Qed.
End scaler.

(** ** A closed example *)
Module ScalerExample.
Definition config : ScalerConfig := mk_ScalerConfig float_0_8 float_0_2 1 10.
Definition before : list scaler_op :=
  [SPool (PStart 0); SPool (PAddTx [10])] ++ (SPool ∘ PAddTx <$> [[1]; [2]; [3]; [4]; [5]; [6]; [7]; [8]; [9]]).
Abbreviation loaded :=
  (fold_left (scaler_exec (Some WorkerExample.fees)) before (NewScaler config,
    NewPool PoolExample.config 0 (Some NewMemoryBatchStore) (Some NewMemoryTxIndex) 3)).
Definition ops : list scaler_op :=
  [SPool (PStart 0); STick 1] ++ (SPool ∘ PAddTx <$> [[1]; [2]; [3]; [4]; [5]; [6]; [7]; [8]; [9]]) ++
  [STick 3; STick 5; STick 14; SPool (PTick 15 0); SPool (PTick 15 1); SPool (PTick 15 1); SPool (PTick 15 1); STick 20; STick 30].
Definition run : Scaler * Pool MemoryTxIndex MemoryBatchStore :=
  fold_left (scaler_exec (Some WorkerExample.fees)) ops (NewScaler config,
    NewPool PoolExample.config 0 (Some NewMemoryBatchStore) (Some NewMemoryTxIndex) 3).
End ScalerExample.

(** Under load a worker is added, at once; when the queues are empty it is
    removed, after the cooldown. *)
Example scaler_scales_up_and_down :
  (λ e, (EventTime e, OldWorkers e, NewWorkers e)) <$> events ScalerExample.run.1 = [(3, 2, 3); (20, 3, 2)].
Proof. by vm_compute. Qed.

(** The tick under load adds the third worker; the history is in order. *)
Lemma scaler_scales_safely_witness :
  WorkerCount ScalerExample.loaded.2 = 2 ∧
  WorkerCount (scaler_exec (Some WorkerExample.fees) ScalerExample.loaded (STick 3)).2 = WorkerCount ScalerExample.loaded.2 + 1 ∧
  Forall (event_ok ScalerExample.config) (events ScalerExample.run.1) ∧ spaced 10 (events ScalerExample.run.1).
Proof.
  assert (is_i64 (ScaleCooldown ScalerExample.config)) as Hi by (split; [vm_compute; discriminate|vm_compute; reflexivity]).
  refine (conj _ (conj _ (conj _ _))).
  - vm_compute. reflexivity.
  - destruct (scaler_scales_safely (Some WorkerExample.fees) ScalerExample.config PoolExample.config 0
      (Some NewMemoryBatchStore) (Some NewMemoryTxIndex) 3 ScalerExample.before 3 pool_example_config_ok Hi)
      as ((load & Hl & Hup & _) & _).
    refine (proj1 (Hup (conj _ (conj _ (conj _ _))))).
    + vm_compute. reflexivity.
    + vm_compute. exact I.
    + refine (is_load_above _ _ _ Hl _ _ _); vm_compute; reflexivity.
    + vm_compute. reflexivity.
  - exact (proj1 (proj2 (proj2 (scaler_scales_safely (Some WorkerExample.fees) ScalerExample.config PoolExample.config 0
      (Some NewMemoryBatchStore) (Some NewMemoryTxIndex) 3 ScalerExample.ops 0 pool_example_config_ok Hi)))).
  - exact (proj1 (proj2 (proj2 (proj2 (scaler_scales_safely (Some WorkerExample.fees) ScalerExample.config PoolExample.config 0
      (Some NewMemoryBatchStore) (Some NewMemoryTxIndex) 3 ScalerExample.ops 0 pool_example_config_ok Hi))))).
Defined.
