(* ===== verification/Looseberry.v ===== *)
(** The node (looseberry.go): the components wired together, the handlers of
    network messages, the callbacks between components and the mempool
    operations offered to consensus.  The three stores are shared by the
    components, as in the code: the node holds them, a component that keeps a
    reference is given the current store before it is called, and what it wrote
    is taken back.  A handler returns the messages it sends, in order; sends
    dispatched to goroutines are sent in the order of dispatch.  The network and
    every component exist (the nil checks guard against calls outside Start and
    Stop); [now] is [time.Now()]. *)
From S2P Require Import Prelude Bytes Sha256 Errors Types Batch Header BitSet Certificate Store TxIndex.
From S2P Require Import Dag DagHistory VoteTracker Primary BatchFetcher Heap AckTracker Worker Pool Flow Gc Sync.
From S2P Require Import Config Scaler.
Local Open Scope Z_scope.

(** network/network.go *)
Record BatchAckMessage := mk_BatchAckMessage {
  AM_BatchDigest : Hash;
  AM_Validator : Z;
  AM_Round : Z;
  AM_Signature : Signature
}.

Definition BatchAckSignBytes (batchDigest : Hash) (validator round : Z) : Hash :=
  HashBytes (batchDigest ++ PutUint16 validator ++ PutUint64 round).

Record BatchResponseMessage := mk_BatchResponseMessage {
  BR_Batch : option Batch;
  BR_Found : bool;
  BR_From : Z
}.

Inductive message :=
  | BroadcastBatch (batch : Batch)
  | BroadcastHeader (header : Header)
  | BroadcastCertificate (cert : Certificate)
  | SendVote (to : Z) (vote : Vote)
  | SendBatchAck (to : Z) (ack : BatchAckMessage)
  | SendBatchRequest (to : Z) (digest : Hash)
  | SendBatchResponse (to : Z) (resp : BatchResponseMessage)
  | SendSyncRequest (to : Z) (req : SyncRequest)
  | SendSyncResponse (to : Z) (resp : SyncResponse)
  | CertQuorumCallback (cert : Certificate).

Record CertifiedBatch := mk_CertifiedBatch { CB_Batch : Batch; CB_Certificate : Certificate }.

Definition orphanCertCap : Z := 4096.

Record Looseberry (S B I : Type) := mk_Looseberry {
  validatorIndex : Z;
  nodeSigner : Signer;
  nodeValidators : ValidatorSet;
  workerPool : Pool I B;
  workerScaler : Scaler;
  primaryNode : Primary S B;
  batchFetcher : BatchFetcher;
  nodeDag : DAG S;
  syncManager : SyncManager;
  gcManager : GCManager;
  flowController : FlowController;
  batchStore : B;
  nodeCerts : S;
  txIndex : I;
  orphanCerts : gmap Hash Certificate;
  nodeRunning : bool;
  totalTxAdded : Z;
  totalTxRejected : Z;
  totalBatches : Z;
  startNanos : Z;
  lastCommitNanos : Z;
  lastCommittedRound : Z;
  rebroadcastFires : Z;
  rebroadcastedBatches : Z;
  rebroadcastedHeaders : Z;
  certQuorumCallback : bool
}.
Arguments mk_Looseberry {S B I}.
Arguments validatorIndex {S B I}.
Arguments nodeSigner {S B I}.
Arguments nodeValidators {S B I}.
Arguments workerPool {S B I}.
Arguments workerScaler {S B I}.
Arguments primaryNode {S B I}.
Arguments batchFetcher {S B I}.
Arguments nodeDag {S B I}.
Arguments syncManager {S B I}.
Arguments gcManager {S B I}.
Arguments flowController {S B I}.
Arguments batchStore {S B I}.
Arguments nodeCerts {S B I}.
Arguments txIndex {S B I}.
Arguments orphanCerts {S B I}.
Arguments nodeRunning {S B I}.
Arguments totalTxAdded {S B I}.
Arguments totalTxRejected {S B I}.
Arguments totalBatches {S B I}.
Arguments startNanos {S B I}.
Arguments lastCommitNanos {S B I}.
Arguments lastCommittedRound {S B I}.
Arguments rebroadcastFires {S B I}.
Arguments rebroadcastedBatches {S B I}.
Arguments rebroadcastedHeaders {S B I}.
Arguments certQuorumCallback {S B I}.

#[export] Instance eta_Looseberry {S B I} : Settable (Looseberry S B I) := λ l,
  mk_Looseberry (validatorIndex l) (nodeSigner l) (nodeValidators l) (workerPool l) (workerScaler l) (primaryNode l)
    (batchFetcher l) (nodeDag l) (syncManager l) (gcManager l) (flowController l) (batchStore l)
    (nodeCerts l) (txIndex l) (orphanCerts l) (nodeRunning l) (totalTxAdded l) (totalTxRejected l)
    (totalBatches l) (startNanos l) (lastCommitNanos l) (lastCommittedRound l) (rebroadcastFires l)
    (rebroadcastedBatches l) (rebroadcastedHeaders l) (certQuorumCallback l).

(** ** The orphan buffer over the DAG *)
Section orphans.
Context {S : Type} {CS : CertificateStore S} {RC : RangeOrder Hash Certificate}.
Implicit Types d : DAG S.

Definition bufferOrphanCert (cert : Certificate) (orphans : gmap Hash Certificate) : gmap Hash Certificate :=
  if bool_decide (zsize orphans >= orphanCertCap) then orphans
  else match orphans !! CDigest cert with
       | Some _ => orphans
       | None => <[CDigest cert := cert]> orphans
       end.

(** One pass over a snapshot of the buffer; the last component counts the
    certificates added. *)
Fixpoint replay_pass (batch : list Certificate) d (orphans : gmap Hash Certificate) (added : Z) :
    DAG S * gmap Hash Certificate * Z :=
  match batch with
  | [] => (d, orphans, added)
  | c :: batch' =>
      match AddCertificate (Some c) d with
      | (d, None) => replay_pass batch' d (delete (CDigest c) orphans) (added + 1)
      | (d, Some _) => replay_pass batch' d orphans added
      end
  end.

(** [None] when [fuel] passes did not end the loop. *)
Fixpoint replayOrphanCertsLocked (fuel : nat) d (orphans : gmap Hash Certificate) :
    option (DAG S * gmap Hash Certificate) :=
  match fuel with
  | O => None
  | Datatypes.S n =>
      if bool_decide (zsize orphans = 0) then Some (d, orphans)
      else
        let '(d, orphans, added) := replay_pass (range orphans).*2 d orphans 0 in
        if bool_decide (added = 0) then Some (d, orphans) else replayOrphanCertsLocked n d orphans
  end.

(** The DAG part of [handleCertificateMessage]. *)
Definition add_or_buffer (cert : Certificate) d (orphans : gmap Hash Certificate) :
    option (DAG S * gmap Hash Certificate) :=
  match AddCertificate (Some cert) d with
  | (d, Some err) =>
      Some (d, if errors_Is err ErrMissingParents then bufferOrphanCert cert orphans else orphans)
  | (d, None) => replayOrphanCertsLocked (Datatypes.S (size orphans)) d orphans
  end.
End orphans.

(** ** Reaping *)
Section reap.
Context {S B : Type} {CS : CertificateStore S} {BS : BatchStore B} {RC : RangeOrder Z Certificate}.

(** The inner loop: the batch references left to look at, each with its
    certificate. *)
Fixpoint reap_loop (batches : B) (maxBytes : Z) (refs : list (BatchDigest * Certificate))
    (seen : gset Hash) (result : list CertifiedBatch) (totalBytes : Z) : list CertifiedBatch :=
  match refs with
  | [] => result
  | (batchRef, cert) :: refs' =>
      if decide (BD_Digest batchRef ∈ seen) then reap_loop batches maxBytes refs' seen result totalBytes
      else match GetBatch (BD_Digest batchRef) batches with
      | Err _ => reap_loop batches maxBytes refs' seen result totalBytes
      | Ok batch =>
          let batchSize := Batch_Size batch in
          if bool_decide (totalBytes + batchSize > maxBytes) && bool_decide (zlen result > 0) then result
          else reap_loop batches maxBytes refs' ({[ BD_Digest batchRef ]} ∪ seen)
                 (result ++ [mk_CertifiedBatch batch cert]) (totalBytes + batchSize)
      end
  end.

Definition cert_refs (certs : list Certificate) : list (BatchDigest * Certificate) :=
  concat (map (λ c, (λ r, (r, c)) <$> BatchRefs (CHeader c)) certs).

(** [ReapCertifiedBatches]; [None] when the collection of certificates does not
    end. *)
Definition ReapCertifiedBatches (maxBytes : Z) (d : DAG S) (batches : B) : option (list CertifiedBatch) :=
  let currentRound := highestRound d in
  if hasCommitted d && bool_decide (currentRound ≤ committedRound d) then Some []
  else
    let fromRound := if hasCommitted d then u64 (committedRound d + 1) else 0 in
    match GetOrderedCertificates d fromRound currentRound with
    | None => None
    | Some certs =>
        if bool_decide (zlen certs = 0) then Some []
        else Some (reap_loop batches maxBytes (cert_refs certs) ∅ [] 0)
    end.
End reap.

(** ** Handlers *)
Section node.
Context `{Ed : Ed25519} {S B I : Type} {CS : CertificateStore S} {BS : BatchStore B} {TI : TxIndex I}.
Context {RV : RangeOrder Z Vote} {RP : RangeOrder Hash PendingHeader} {RO : RangeOrder Hash Certificate}.
Context {RC : RangeOrder Z Certificate} {RH : RangeOrder Hash Z}.
Context (validator : option (Transaction → result TxAdmission)).
Implicit Types l : Looseberry S B I.

(** Components with the current stores. *)
Definition dag_of l : DAG S := (nodeDag l) <| certStore := Some (nodeCerts l) |>.
Definition put_dag (d : DAG S) l : Looseberry S B I :=
  l <| nodeDag := d |> <| nodeCerts := default (nodeCerts l) (certStore d) |>.
Definition primary_of l : Primary S B :=
  (primaryNode l) <| p_certStore := nodeCerts l |> <| p_batchStore := batchStore l |>.
Definition put_primary (p : Primary S B) l : Looseberry S B I :=
  l <| primaryNode := p |> <| nodeCerts := p_certStore p |>.
Definition pool_of l : Pool I B :=
  (workerPool l) <| pool_batchStore := Some (batchStore l) |> <| pool_txIndex := Some (txIndex l) |>.
Definition put_pool (p : Pool I B) l : Looseberry S B I :=
  l <| workerPool := p |> <| batchStore := default (batchStore l) (pool_batchStore p) |>
    <| txIndex := default (txIndex l) (pool_txIndex p) |>.

(** [onCertificateFormed]; the error of [AddCertificate] is ignored.  The observer
    that [SetCertQuorumCallback] installs is called last. *)
Definition onCertificateFormed (cert : Certificate) l : Looseberry S B I * list message :=
  let l := put_dag (AddCertificate (Some cert) (dag_of l)).1 l in
  let l := l <| flowController := (UpdateCurrentRound (CRound cert) (flowController l)).1 |> in
  (l, BroadcastCertificate cert :: if certQuorumCallback l then [CertQuorumCallback cert] else []).
Definition SetCertQuorumCallback (installed : bool) l : Looseberry S B I := l <| certQuorumCallback := installed |>.

(** The callbacks of the primary, in the order it makes them. *)
Definition onHeaderCreated (header : Header) l : Looseberry S B I * list message := (l, [BroadcastHeader header]).
Definition onVoteCreated (vote : Vote) (targetValidator : Z) l : Looseberry S B I * list message :=
  (l, if nodeRunning l then [SendVote targetValidator vote] else []).
Definition on_output (o : Primary.output) l : Looseberry S B I * list message :=
  match o with
  | OutHeader h => onHeaderCreated h l
  | OutVote v target => onVoteCreated v target l
  | OutCertificate c => onCertificateFormed c l
  end.
Fixpoint on_outputs (os : list Primary.output) l : Looseberry S B I * list message :=
  match os with
  | [] => (l, [])
  | o :: os' => let '(l, out) := on_output o l in
                let '(l, out') := on_outputs os' l in (l, out ++ out')
  end.

(** [primary.HandleHeader] with the fetcher installed: it is asked only about a
    header that was validated. *)
Definition handle_header (now : Z) (header : Header) l : Looseberry S B I * list message :=
  let p := primary_of l in
  let asked := running p && bool_decide (validateHeader p header = None) in
  let '(f, requests, available) :=
    if asked then RequestBatchesForHeader now header (batchStore l) (batchFetcher l)
    else (batchFetcher l, [], false) in
  let l := l <| batchFetcher := f |> in
  let requests := omap (λ o, match o with FetchRequest v d => Some (SendBatchRequest v d) | FetchReady _ => None end) requests in
  let '(l, out) := on_outputs (HandleHeader (Some (λ _, available)) p header).1 l in
  (l, requests ++ out).
Definition handleHeaderMessage (now : Z) (header : option Header) l : Looseberry S B I * list message :=
  match header with None => (l, []) | Some h => handle_header now h l end.

(** [onHeaderReady] for the headers that the fetcher releases. *)
Fixpoint on_ready (now : Z) (outs : list fetch_output) l : Looseberry S B I * list message :=
  match outs with
  | [] => (l, [])
  | FetchRequest v d :: outs' => let '(l, out) := on_ready now outs' l in (l, SendBatchRequest v d :: out)
  | FetchReady h :: outs' => let '(l, out) := handle_header now h l in
                             let '(l, out') := on_ready now outs' l in (l, out ++ out')
  end.

(** The acknowledgement of a batch, if the signer signs it. *)
Definition make_ack (batch : Batch) l : option BatchAckMessage :=
  match Sign (nodeSigner l) (BatchAckSignBytes (Batch_Digest batch) (validatorIndex l) (Batch_Round batch)) with
  | Ok sig => Some (mk_BatchAckMessage (Batch_Digest batch) (validatorIndex l) (Batch_Round batch) sig)
  | Err _ => None
  end.

Definition handleBatchMessage (now : Z) (batch : option Batch) (from : Z) l : Looseberry S B I * list message :=
  match batch with
  | None => (l, [])
  | Some batch =>
      let l := l <| batchStore := (SaveBatch batch (batchStore l)).1 |> in
      let l := l <| txIndex := (TI_AddBatch batch (txIndex l)).1 |> in
      let '(f, ready) := NotifyBatchReceived batch (batchFetcher l) in
      let l := l <| batchFetcher := f |> in
      let '(l, out) := on_ready now ready l in
      (l, out ++ match make_ack batch l with
                 | Some ack => if nodeRunning l then [SendBatchAck from ack] else []
                 | None => []
                 end)
  end.

Definition handleVoteMessage (now : Z) (vote : option Vote) l : Looseberry S B I * list message :=
  match vote with
  | None => (l, [])
  | Some vote =>
      let '(p, outs, _) := HandleVote now (Some vote) (primary_of l) in
      on_outputs outs (put_primary p l)
  end.

(** [None] when replaying orphans does not end. *)
Definition handleCertificateMessage (cert : option Certificate) l : option (Looseberry S B I) :=
  match cert with
  | None => Some l
  | Some cert =>
      let l := put_primary (HandleCertificate cert (primary_of l)).1 l in
      match add_or_buffer cert (dag_of l) (orphanCerts l) with
      | None => None
      | Some (d, orphans) =>
          let l := put_dag d l <| orphanCerts := orphans |> in
          Some (l <| flowController := (UpdateCurrentRound (CRound cert) (flowController l)).1 |>)
      end
  end.

Definition handleBatchAckMessage (now : Z) (msg : option BatchAckMessage) l : Looseberry S B I :=
  match msg with
  | None => l
  | Some msg =>
      match GetByIndex (nodeValidators l) (AM_Validator msg) with
      | None => l
      | Some v =>
          let signBytes := BatchAckSignBytes (AM_BatchDigest msg) (AM_Validator msg) (AM_Round msg) in
          if negb (PublicKey_Verify (VPublicKey v) signBytes (AM_Signature msg)) then l
          else l <| workerPool := (Pool_RecordAck now (AM_BatchDigest msg) (AM_Validator msg) (workerPool l)).1 |>
      end
  end.

Definition handleBatchRequestMessage (digest : Hash) (requester : Z) l : list message :=
  let resp :=
    match GetBatch digest (batchStore l) with
    | Ok batch => mk_BatchResponseMessage (Some batch) true (validatorIndex l)
    | Err _ => mk_BatchResponseMessage None false (validatorIndex l)
    end in
  [SendBatchResponse requester resp].

Definition handleBatchResponseMessage (now : Z) (resp : BatchResponseMessage) l : Looseberry S B I * list message :=
  let l :=
    match BR_Batch resp with
    | Some batch =>
        if BR_Found resp then
          l <| batchStore := (SaveBatch batch (batchStore l)).1 |>
            <| txIndex := (TI_AddBatch batch (txIndex l)).1 |>
        else l
    | None => l
    end in
  let '(f, store, outs) := HandleBatchResponse (BR_Batch resp) (BR_Found resp) (batchStore l) (batchFetcher l) in
  let l := l <| batchFetcher := f |> <| batchStore := store |> in
  on_ready now outs l.

Definition handleSyncRequest (req : SyncRequest) l : option (list message) :=
  match HandleSyncRequest (dag_of l) (batchStore l) req (syncManager l) with
  | None => None
  | Some (Err _) => Some []
  | Some (Ok resp) => Some [SendSyncResponse (SR_Requester req) resp]
  end.

(** The certificate callback of the sync manager is [handleCertificateMessage]. *)
Fixpoint deliver_certs (certs : list Certificate) l : option (Looseberry S B I) :=
  match certs with
  | [] => Some l
  | c :: certs' => handleCertificateMessage (Some c) l ≫= deliver_certs certs'
  end.
Definition handleSyncResponse (resp : SyncResponse) (from : Z) l : option (Looseberry S B I) :=
  let '(s, store, certs, _) := HandleSyncResponse resp from (batchStore l) (syncManager l) in
  deliver_certs certs (l <| syncManager := s |> <| batchStore := store |>).

(** [onBatchCreated] *)
Definition onBatchCreated (batch : Batch) l : Looseberry S B I * list message :=
  let l := l <| totalBatches := u64 (totalBatches l + 1) |> in
  (l <| primaryNode := AddBatchDigest (primaryNode l) (GetDigest batch) |>, [BroadcastBatch batch]).

(** The batches a pool operation made, in order. *)
Definition batches_created (made : list Batch) l : Looseberry S B I * list message :=
  fold_left (λ '(l, out) b, let '(l, out') := onBatchCreated b l in (l, out ++ out')) made (l, []).

(** A tick of the primary's header loop; digests arrive between ticks. *)
Definition header_tick (now : Z) l : Looseberry S B I * list message :=
  let '(p, outs) := tryCreateHeader (Some (HasBatchAckQuorum (workerPool l))) now [] (primary_of l) in
  on_outputs outs (put_primary p l).

(** A tick of a worker's batch loop. *)
Definition batch_tick (now : Z) (i : nat) l : Looseberry S B I * list message :=
  let '(p, made) := tick_worker now i (pool_of l) in
  batches_created made (put_pool p l).

(** A tick of the scaler. *)
Definition scale_tick (now : Z) l : Looseberry S B I * list message :=
  let '(s, p, made) := checkAndScale validator now (workerScaler l) (pool_of l) in
  batches_created made (put_pool p l <| workerScaler := s |>).

(** ** Mempool operations *)
Definition AddTx (t : Transaction) l : Looseberry S B I * option error :=
  if negb (nodeRunning l) then (l, Some ErrNotRunning)
  else if IsPaused (flowController l)
  then (l <| totalTxRejected := u64 (totalTxRejected l + 1) |>, Some ErrFlowControlPaused)
  else
    let '(p, _, err) := Pool.AddTx validator t (pool_of l) in
    let l := put_pool p l in
    match err with
    | Some err => (l <| totalTxRejected := u64 (totalTxRejected l + 1) |>, Some err)
    | None => (l <| totalTxAdded := u64 (totalTxAdded l + 1) |>, None)
    end.

Definition Reap (maxBytes : Z) l : option (list CertifiedBatch) :=
  ReapCertifiedBatches maxBytes (dag_of l) (batchStore l).

(** [onTxRecovered]: errors are ignored. *)
Definition onTxRecovered (txs : list Transaction) (p : Pool I B) : Pool I B :=
  fold_left (λ p t, (Pool.AddTx validator t p).1.1) txs p.

Definition gc_world l : world S B I := mk_world (dag_of l) (batchStore l) (Some (txIndex l)).
Definition put_world (w : world S B I) l : Looseberry S B I :=
  (put_dag (g_dag w) l) <| batchStore := g_batches w |> <| txIndex := default (txIndex l) (g_index w) |>.

(** [NotifyCommitted]; the recovery callback runs between the recovery and the
    pruning of the collection ([GCManager.NotifyCommitted]). *)
Definition NotifyCommitted (now round : Z) l : Looseberry S B I :=
  let l := put_dag (SetCommittedRound (dag_of l) round) l in
  let l := l <| flowController := (UpdateCommittedRound round (flowController l)).1 |> in
  let '(g, w) := note_committed round (gcManager l) (gc_world l) in
  let l := put_world w (l <| gcManager := g |>) in
  let gcRound := calculateGCRound (gcManager l) in
  let l :=
    if bool_decide (gcRound = 0) then l
    else
      let '(g, w, txs) := recover_phase (RecoverUncommittedTxs (gc_cfg g)) gcRound (gcManager l) (gc_world l) in
      let l := put_world w (l <| gcManager := g |>) in
      let l := put_pool (onTxRecovered txs (pool_of l)) l in
      let '(g, w, _) := prune_phase gcRound (gcManager l) (gc_world l) in
      put_world w (l <| gcManager := g |>) in
  if bool_decide (round > lastCommittedRound l)
  then l <| lastCommittedRound := round |> <| lastCommitNanos := now |> else l.

(** [Flush]: the pool is stopped, which makes a last batch per worker, and
    started again. *)
Definition Flush (now : Z) l : Looseberry S B I * list message :=
  if negb (nodeRunning l) then (l, [])
  else
    let '(p, made, _) := Pool.Stop now (pool_of l) in
    let '(l, out) := batches_created made (put_pool p l) in
    let '(p, made, _) := Pool.Start now (pool_of l) in
    let '(l, out') := batches_created made (put_pool p l) in
    (l, out ++ out').

(** Durations in nanoseconds. *)
Definition rebroadcastStartupGrace : Z := 15 * 10 ^ 9.
Definition stuckRebroadcastThreshold : Z := 3 * 10 ^ 9.
Definition rebroadcastMinAge : Z := 2 * 10 ^ 9.
Definition syncStuckGrace : Z := 2 * 10 ^ 9.

(** Asynchronous sends are only dispatched while the node runs. *)
Definition dispatchAsync l (out : list message) : list message := if nodeRunning l then out else [].

Definition rebroadcastIfStuck {RB : RangeOrder Hash PendingBatch} (now : Z) l : Looseberry S B I * list message :=
  if bool_decide (startNanos l = 0) then (l, [])
  else if bool_decide (now - startNanos l < rebroadcastStartupGrace) then (l, [])
  else if bool_decide (now - lastCommitNanos l < stuckRebroadcastThreshold) then (l, [])
  else
    let batches := PendingBatchesBelowQuorum now rebroadcastMinAge (workerPool l) in
    let headers := PendingHeadersOlderThan now rebroadcastMinAge (voteTracker (primaryNode l)) in
    if bool_decide (zlen batches = 0) && bool_decide (zlen headers = 0) then (l, [])
    else
      (l <| rebroadcastFires := u64 (rebroadcastFires l + 1) |>
         <| rebroadcastedBatches := u64 (rebroadcastedBatches l + zlen batches) |>
         <| rebroadcastedHeaders := u64 (rebroadcastedHeaders l + zlen headers) |>,
       dispatchAsync l ((BroadcastBatch <$> batches) ++ (BroadcastHeader <$> headers))).

(** [RequestPeerCatchUp] *)
Definition RequestPeerCatchUp (send : Z → SyncRequest → option error) (now peerIdx : Z) l :
    Looseberry S B I * list message :=
  if negb (nodeRunning l) then (l, [])
  else
    let '(s, reqs, _) := Sync.RequestPeerCatchUp (validatorIndex l) send now peerIdx (syncManager l) in
    (l <| syncManager := s |>, (λ r, SendSyncRequest r.1 r.2) <$> reqs).

(** [syncIfStuck]; [send] says which sync requests the network takes. *)
Definition syncIfStuck (send : Z → SyncRequest → option error) (now : Z) l : Looseberry S B I * list message :=
  if bool_decide (startNanos l = 0) then (l, [])
  else if bool_decide (now - startNanos l < syncStuckGrace) then (l, [])
  else if bool_decide (currentRound (primaryNode l) ≠ 0) then (l, [])
  else
    let indices := Index <$> VS_Validators (nodeValidators l) in
    let myID := if bool_decide (validatorIndex l ∈ indices) then validatorIndex l else default 0 (head indices) in
    fold_left (λ '(l, out) v, let '(l, out') := RequestPeerCatchUp send now v l in (l, out ++ out'))
      (filter (λ v, v ≠ myID) indices) (l, []).

(** [CatchUpPeerCerts]: every certificate of the DAG again. *)
Definition CatchUpPeerCerts l : option (list message) :=
  match GetOrderedCertificates (dag_of l) 0 (highestRound (dag_of l)) with
  | None => None
  | Some certs => Some (dispatchAsync l (BroadcastCertificate <$> certs))
  end.

Definition HasTx (hash : bytes) l : bool :=
  TI_HasTx (take 32 hash ++ replicate (32 - length hash) 0) (txIndex l).
Definition CurrentRound l : Z := currentRound (primaryNode l).
Definition HighestRound l : Z := highestRound (nodeDag l).
Definition Size l : Z := Pool.PendingCount (workerPool l).
Definition SizeBytes l : Z := Pool.PendingBytes (workerPool l).

Definition peerValidatorIndices l : list Z :=
  filter (λ i, i ≠ validatorIndex l) (Index <$> VS_Validators (nodeValidators l)).

Definition UpdateValidatorSet (vs : ValidatorSet) l : Looseberry S B I :=
  let l := l <| nodeValidators := vs |> in
  let l := l <| workerPool := Pool.UpdateQuorum (workerPool l) (Quorum vs) |> in
  let l := l <| primaryNode := Primary.UpdateValidatorSet (primaryNode l) vs |> in
  let l := l <| syncManager := Sync.UpdateValidatorSet (syncManager l) vs |> in
  l <| batchFetcher := UpdateValidators (peerValidatorIndices l) (batchFetcher l) |>.
(** ** Lifecycle *)

(** What [New], the setters and [initializeComponents] make of a configuration,
    a validator set and the stores: fresh components, zero counters. *)
Definition fresh_node (cfg : NodeConfig) (vs : ValidatorSet) (batches : B) (certs : S) (index : I) :
    Looseberry S B I :=
  let wc := NC_Worker cfg in
  let pc := NC_Primary cfg in
  let sc := NC_Sync cfg in
  {| validatorIndex := NC_ValidatorIndex cfg;
     nodeSigner := NC_Signer cfg;
     nodeValidators := vs;
     workerPool :=
       NewPool
         {| MinWorkers := WC_MinWorkers wc; MaxWorkers := WC_MaxWorkers wc;
            WorkerCfg :=
              {| BatchSize := WC_BatchSize wc; BatchBytes := 0; BatchTimeout := WC_BatchTimeout wc;
                 MaxPendingTxs := WC_MaxPendingTxs wc; MaxPendingBytes := WC_MaxPendingBytes wc;
                 AckTimeout := 30 * 10 ^ 9 |} |}
         (NC_ValidatorIndex cfg) (Some batches) (Some index) (Quorum vs);
     workerScaler :=
       NewScaler {| ScaleUpThreshold := WC_ScaleUpThreshold wc; ScaleDownThreshold := WC_ScaleDownThreshold wc;
                    ScalingInterval := WC_ScalingInterval wc; ScaleCooldown := 5 * 10 ^ 9 |};
     primaryNode :=
       Primary.New (NC_ValidatorIndex cfg) (NC_Signer cfg)
         {| HeaderTimeout := PC_HeaderTimeout pc; MaxBatchesPerHeader := PC_MaxBatchesPerHeader pc;
            VoteTimeout := PC_VoteTimeout pc; MaxRoundGap := PC_MaxRoundGap pc;
            AllowEmptyHeaders := PC_AllowEmptyHeaders pc |}
         certs batches vs;
     batchFetcher :=
       UpdateValidators (filter (λ i, i ≠ NC_ValidatorIndex cfg) (Index <$> VS_Validators vs))
         (NewBatchFetcher DefaultBatchFetcherConfig);
     nodeDag := Dag.New (Some certs) Dag.DefaultConfig;
     syncManager :=
       NewSyncManager vs
         {| SyncInterval := SC_SyncInterval sc; SyncThreshold := SC_SyncThreshold sc;
            SyncBatchSize := SC_SyncBatchSize sc; SyncTimeout := SC_SyncTimeout sc;
            MaxRetries := 0; InitialBackoff := 0; MaxBackoff := 0 |};
     gcManager := NewGCManager (Gc.mk_Config (u64 (GC_Depth (NC_GC cfg))) (30 * 10 ^ 9) (RecoverTxs (NC_GC cfg)));
     flowController := NewFlowController (mk_FlowConfig (u64 (FC_MaxUncommittedRounds (NC_FlowControl cfg))) 1000 100);
     batchStore := batches; nodeCerts := certs; txIndex := index; orphanCerts := ∅; nodeRunning := false;
     totalTxAdded := 0; totalTxRejected := 0; totalBatches := 0; startNanos := 0; lastCommitNanos := 0;
     lastCommittedRound := 0; rebroadcastFires := 0; rebroadcastedBatches := 0; rebroadcastedHeaders := 0;
     certQuorumCallback := false |}.

(** [New], with the validator set and the stores that are set before [Start]. *)
Definition Looseberry_New (cfg : NodeConfig) (vs : ValidatorSet) (batches : B) (certs : S) (index : I) :
    result (Looseberry S B I) :=
  match Config_Validate cfg with
  | Some err => Err (Wrapf "invalid config" err)
  | None => Ok (fresh_node cfg vs batches certs index)
  end.

(** [initializeComponents]: new components over the stores the node has. *)
Definition initializeComponents (cfg : NodeConfig) l : Looseberry S B I :=
  let f := fresh_node cfg (nodeValidators l) (batchStore l) (nodeCerts l) (txIndex l) in
  l <| nodeDag := nodeDag f |> <| flowController := flowController f |> <| workerPool := workerPool f |>
    <| workerScaler := workerScaler f |> <| primaryNode := primaryNode f |> <| batchFetcher := batchFetcher f |>
    <| syncManager := syncManager f |> <| gcManager := gcManager f |>.

Definition stop_pool (now : Z) l : Looseberry S B I * list message :=
  let '(p, made, _) := Pool.Stop now (pool_of l) in batches_created made (put_pool p l).
Definition stop_scaler l : Looseberry S B I := l <| workerScaler := (Scaler_Stop (workerScaler l)).1 |>.
Definition stop_primary l : Looseberry S B I := l <| primaryNode := (Primary.Stop (primaryNode l)).1 |>.
Definition stop_fetcher l : Looseberry S B I := l <| batchFetcher := (BatchFetcher.Stop (batchFetcher l)).1 |>.
Definition stop_sync l : Looseberry S B I := l <| syncManager := (Sync.Stop (syncManager l)).1 |>.
Definition stop_gc l : Looseberry S B I := l <| gcManager := (Gc.Stop (gcManager l)).1 |>.

Definition stopComponents (now : Z) l : Looseberry S B I * list message :=
  stop_pool now (stop_scaler (stop_primary (stop_fetcher (stop_sync (stop_gc l))))).

(** A failed start stops, in reverse order, what was started. *)
Definition startComponents (now : Z) l : Looseberry S B I * list message * option error :=
  let '(p, made, err) := Pool.Start now (pool_of l) in
  let '(l, out) := batches_created made (put_pool p l) in
  let fail l msg err :=
    let '(l, out') := stop_pool now l in (l, out ++ out', Some (Wrapf msg err)) in
  match err with
  | Some err => (l, out, Some (Wrapf "start worker pool" err))
  | None =>
  match Scaler_Start (workerScaler l) with
  | (s, Some err) => fail (l <| workerScaler := s |>) "start worker scaler"%string err
  | (s, None) =>
  let l := l <| workerScaler := s |> in
  match Primary.Start (primaryNode l) with
  | (p, Some err) => fail (stop_scaler (l <| primaryNode := p |>)) "start primary"%string err
  | (p, None) =>
  let l := l <| primaryNode := p |> in
  match BatchFetcher.Start (batchFetcher l) with
  | (f, Some err) => fail (stop_scaler (stop_primary (l <| batchFetcher := f |>))) "start batch fetcher"%string err
  | (f, None) =>
  let l := l <| batchFetcher := f |> in
  match Sync.Start (syncManager l) with
  | (s, Some err) =>
      fail (stop_scaler (stop_primary (stop_fetcher (l <| syncManager := s |>)))) "start sync manager"%string err
  | (s, None) =>
  let l := l <| syncManager := s |> in
  match Gc.Start (gcManager l) with
  | (g, Some err) =>
      fail (stop_scaler (stop_primary (stop_fetcher (stop_sync (l <| gcManager := g |>))))) "start gc manager"%string err
  | (g, None) => (l <| gcManager := g |>, out, None)
  end end end end end end.

(** [Start]; [net] is the error of starting the network. *)
Definition Looseberry_Start (cfg : NodeConfig) (net : option error) (now : Z) l :
    Looseberry S B I * list message * option error :=
  if nodeRunning l then (l, [], Some ErrAlreadyRunning)
  else
    match startComponents now (initializeComponents cfg (l <| nodeRunning := true |>)) with
    | (l, out, Some err) => (l <| nodeRunning := false |>, out, Some (Wrapf "start components" err))
    | (l, out, None) =>
        match net with
        | Some err =>
            let '(l, out') := stopComponents now l in
            (l <| nodeRunning := false |>, out ++ out', Some (Wrapf "start network" err))
        | None => (l <| startNanos := now |> <| lastCommitNanos := now |>, out, None)
        end
    end.

(** [Stop]; the stores' [Close] methods are parameters. *)
Definition Looseberry_Stop (closeBatches : B → B) (closeCerts : S → S) (closeIndex : I → I) (now : Z) l :
    Looseberry S B I * list message * option error :=
  if negb (nodeRunning l) then (l, [], Some ErrNotRunning)
  else
    let '(l, out) := stopComponents now (l <| nodeRunning := false |>) in
    (l <| batchStore := closeBatches (batchStore l) |> <| nodeCerts := closeCerts (nodeCerts l) |>
       <| txIndex := closeIndex (txIndex l) |>, out, None).
End node.

(** ** What is reaped *)
Section reap_claims.
Context {S B : Type} {CS : CertificateStore S} {CL : CertificateStoreLaws S}.
Context {BS : BatchStore B} {BL : BatchStoreLaws B} {RC : RangeOrder Z Certificate}.

(** Everything that could be reaped: the stored batches in the order of their
    first reference, each with the certificate of that reference. *)
Fixpoint reapable (batches : B) (refs : list (BatchDigest * Certificate)) (seen : gset Hash) : list CertifiedBatch :=
  match refs with
  | [] => []
  | (batchRef, cert) :: refs' =>
      if decide (BD_Digest batchRef ∈ seen) then reapable batches refs' seen
      else match bs_view batches !! BD_Digest batchRef with
           | None => reapable batches refs' seen
           | Some batch => mk_CertifiedBatch batch cert :: reapable batches refs' ({[ BD_Digest batchRef ]} ∪ seen)
           end
  end.

Definition reap_bytes (l : list CertifiedBatch) : Z := fold_left (λ n cb, n + Batch_Size (CB_Batch cb)) l 0.

Lemma reap_bytes_app l k : reap_bytes (l ++ k) = reap_bytes l + reap_bytes k.
Proof. apply fold_left_add_app. Qed.

(** [result] is the longest prefix of [all] within the limit, at least one. *)
Record reap_prefix (maxBytes : Z) (all result : list CertifiedBatch) : Prop := {
  rp_prefix : result `prefix_of` all;
  rp_limit : reap_bytes result ≤ maxBytes ∨ (length result ≤ 1)%nat;
  rp_some : all ≠ [] → result ≠ [];
  rp_longest cb rest : all = result ++ cb :: rest → maxBytes < reap_bytes (result ++ [cb])
}.

Lemma reap_loop_prefix batches maxBytes refs seen result :
  bs_ok batches → (reap_bytes result ≤ maxBytes ∨ (length result ≤ 1)%nat) →
  reap_prefix maxBytes (result ++ reapable batches refs seen)
    (reap_loop batches maxBytes refs seen result (reap_bytes result)).
Proof.
  intros Hb. revert seen result. induction refs as [|[ref cert] refs IH]; intros seen result Hl; cbn [reap_loop reapable].
  { rewrite app_nil_r. split; [done|done|done|]. intros cb rest E. exfalso.
    apply (f_equal length) in E. rewrite length_app in E. cbn in E. lia. }
  destruct (decide (BD_Digest ref ∈ seen)); [by apply IH|].
  rewrite (bs_get _ _ Hb). destruct (bs_view batches !! BD_Digest ref) as [b|]; [|by apply IH].
  destruct (bool_decide (reap_bytes result + Batch_Size b > maxBytes) && bool_decide (zlen result > 0)) eqn:E.
  - rewrite andb_true_iff, !bool_decide_eq_true in E. destruct E as [E1 E2]. split.
    + by apply prefix_app_r.
    + done.
    + intros _ ->. cbn in E2. lia.
    + intros cb rest Eq. apply app_inv_head in Eq. injection Eq as <- _. rewrite reap_bytes_app. cbn. lia.
  - rewrite andb_false_iff, !bool_decide_eq_false in E.
    specialize (IH ({[BD_Digest ref]} ∪ seen) (result ++ [mk_CertifiedBatch b cert])).
    rewrite reap_bytes_app, <-app_assoc in IH.
    change (reap_bytes [mk_CertifiedBatch b cert]) with (Batch_Size b) in IH. apply IH.
    rewrite length_app. destruct E as [E|E]; [left; lia|right]. destruct result; cbn in *; lia.
Qed.

(** A batch that is stored, with a certificate that refers to it. *)
Definition certified (batches : B) (refs : list (BatchDigest * Certificate)) (cb : CertifiedBatch) : Prop :=
  bs_view batches !! Batch_Digest (CB_Batch cb) = Some (CB_Batch cb) ∧
  ∃ ref, (ref, CB_Certificate cb) ∈ refs ∧ BD_Digest ref = Batch_Digest (CB_Batch cb).

Lemma certified_cons batches p refs cb : certified batches refs cb → certified batches (p :: refs) cb.
Proof. intros (? & r & ? & ?). split; [done|]. exists r. split; [by right|done]. Qed.

Lemma reapable_spec batches refs seen :
  bs_ok batches →
  let all := reapable batches refs seen in
  NoDup (Batch_Digest ∘ CB_Batch <$> all) ∧
  sublist (CB_Certificate <$> all) refs.*2 ∧
  (∀ cb, cb ∈ all → certified batches refs cb ∧ (Batch_Digest (CB_Batch cb)) ∉ seen) ∧
  (∀ d b, (d ∉ seen) → d ∈ BD_Digest <$> refs.*1 → bs_view batches !! d = Some b → ∃ cb, cb ∈ all ∧ CB_Batch cb = b).
Proof.
  intros Hb. revert seen. induction refs as [|[ref cert] refs IH]; intros seen; cbn [reapable].
  { split_and!; [constructor|constructor|by intros cb ?%not_elem_of_nil|by intros d b _ ?%not_elem_of_nil]. }
  assert (BD_Digest ref ∈ seen ∨ bs_view batches !! BD_Digest ref = None → let all := reapable batches refs seen in
    NoDup (Batch_Digest ∘ CB_Batch <$> all) ∧ sublist (CB_Certificate <$> all) ((ref, cert) :: refs).*2 ∧
    (∀ cb, cb ∈ all → certified batches ((ref, cert) :: refs) cb ∧ (Batch_Digest (CB_Batch cb)) ∉ seen) ∧
    (∀ d b, (d ∉ seen) → d ∈ BD_Digest <$> ((ref, cert) :: refs).*1 → bs_view batches !! d = Some b →
      ∃ cb, cb ∈ all ∧ CB_Batch cb = b)) as Hskip.
  { intros skip all. destruct (IH seen) as (H1 & H2 & H3 & H4). split_and!; [done|by apply sublist_cons| |].
    - intros cb Hcb. destruct (H3 cb Hcb). split; [by apply certified_cons|done].
    - intros d b Hd Hin Hv. rewrite !fmap_cons in Hin. cbn in Hin. apply elem_of_cons in Hin as [->|Hin]; [|by eapply H4].
      destruct skip; [done|congruence]. }
  destruct (decide (BD_Digest ref ∈ seen)) as [Hin|Hni]; [apply Hskip; by left|].
  destruct (bs_view batches !! BD_Digest ref) as [b|] eqn:E; [|apply Hskip; by right]. clear Hskip.
  destruct (IH ({[BD_Digest ref]} ∪ seen)) as (H1 & H2 & H3 & H4). pose proof (bs_key _ _ _ Hb E) as Ek.
  split_and!.
  - rewrite fmap_cons. apply NoDup_cons. split; [|done]. cbn. intros (cb & Ecb & Hcb)%list_elem_of_fmap.
    destruct (H3 cb Hcb) as [_ Hn]. apply Hn. cbn in Ecb. rewrite <-Ecb, Ek. set_solver.
  - rewrite !fmap_cons. by apply sublist_skip.
  - intros cb [->|Hcb]%elem_of_cons.
    + unfold certified. cbn. rewrite Ek. split_and!; [done| |done]. exists ref. split; [left|done].
    + destruct (H3 cb Hcb) as [? Hn]. split; [by apply certified_cons|set_solver].
  - intros d b' Hd Hin Hv. rewrite !fmap_cons in Hin. cbn in Hin. destruct (decide (d = BD_Digest ref)) as [->|Hne].
    + exists (mk_CertifiedBatch b cert). split; [left|cbn; congruence].
    + apply elem_of_cons in Hin as [?|Hin]; [done|]. destruct (H4 d b') as (cb & Hcb & Eb); [set_solver|done|done|].
      exists cb. split; [by right|done].
Qed.

Lemma cert_refs_spec certs ref c : (ref, c) ∈ cert_refs certs ↔ c ∈ certs ∧ ref ∈ BatchRefs (CHeader c).
Proof.
  unfold cert_refs. induction certs as [|c' certs IH]; [by split; [intros ?%not_elem_of_nil|intros [?%not_elem_of_nil ?]]|].
  cbn [map concat]. rewrite elem_of_app, IH, elem_of_cons, list_elem_of_fmap. naive_solver.
Qed.

(** The order of the certificates survives in the references. *)
Lemma cert_refs_sorted certs :
  StronglySorted cert_before certs → StronglySorted (λ a b, a = b ∨ cert_before a b) (cert_refs certs).*2.
Proof.
  induction 1 as [|c certs Hs IH Hf]; [constructor|]. unfold cert_refs in *. cbn [map concat]. rewrite fmap_app.
  rewrite Forall_forall in Hf.
  assert (∀ x, x ∈ (concat (map (λ c, (λ r, (r, c)) <$> BatchRefs (CHeader c)) certs)).*2 → cert_before c x) as Hx.
  { intros x ([r c'] & -> & Hin)%list_elem_of_fmap. apply Hf. by apply (cert_refs_spec certs r c'). }
  induction (BatchRefs (CHeader c)) as [|r rs IHr]; [exact IH|]. rewrite fmap_cons. cbn [fmap list_fmap app snd].
  constructor; [exact IHr|]. apply Forall_forall. intros x [Hin|Hin]%elem_of_app; [left|right; by apply Hx].
  apply list_elem_of_fmap in Hin as (p & -> & (r' & -> & _)%list_elem_of_fmap). done.
Qed.

(** C33. Reaping is deduplicated, ordered and bounded: for a DAG whose
    uncommitted rounds are in memory (below the last 64-bit round),
    [ReapCertifiedBatches] returns a prefix of the stored batches that the
    certificates of rounds above the committed one refer to (all rounds before
    the first commit), each batch once, with a certificate that refers to it, in
    the order of round and author of these certificates; it stays within
    [maxBytes] unless it is a single batch, returns something if there is
    anything, and stops only before a batch that does not fit. *)
Theorem reap_certified_batches maxBytes (d : DAG S) (batches : B) :
  dag_ok d → bs_ok batches → 0 ≤ highestRound d < 2 ^ 64 - 1 → 0 ≤ committedRound d < 2 ^ 64 - 1 →
  let from := if hasCommitted d then committedRound d + 1 else 0 in
  (∀ r, from ≤ r ≤ highestRound d → in_memory d r) →
  ∃ all result, ReapCertifiedBatches maxBytes d batches = Some result ∧ reap_prefix maxBytes all result ∧
    NoDup (Batch_Digest ∘ CB_Batch <$> all) ∧
    StronglySorted (λ a b, a = b ∨ cert_before a b) (CB_Certificate <$> all) ∧
    (∀ cb, cb ∈ all → bs_view batches !! Batch_Digest (CB_Batch cb) = Some (CB_Batch cb) ∧
       from ≤ CRound (CB_Certificate cb) ≤ highestRound d ∧
       mem_cert d (CRound (CB_Certificate cb)) (CAuthor (CB_Certificate cb)) = Some (CB_Certificate cb) ∧
       ∃ ref, ref ∈ BatchRefs (CHeader (CB_Certificate cb)) ∧ BD_Digest ref = Batch_Digest (CB_Batch cb)) ∧
    (∀ c ref b, from ≤ CRound c ≤ highestRound d → mem_cert d (CRound c) (CAuthor c) = Some c →
       ref ∈ BatchRefs (CHeader c) → bs_view batches !! BD_Digest ref = Some b → ∃ cb, cb ∈ all ∧ CB_Batch cb = b).
Proof.
  intros Hd Hb Hh Hc from Hin.
  assert (∃ certs, GetOrderedCertificates d from (highestRound d) = Some certs ∧ StronglySorted cert_before certs ∧
    ∀ c, c ∈ certs ↔ from ≤ CRound c ≤ highestRound d ∧ mem_cert d (CRound c) (CAuthor c) = Some c)
    as (certs & Eo & Hs & Hm) by (apply ordered_range; [done|destruct (hasCommitted d); unfold from; lia|lia|done]).
  exists (reapable batches (cert_refs certs) ∅).
  destruct (reapable_spec batches (cert_refs certs) ∅ Hb) as (H1 & H2 & H3 & H4).
  assert (reap_prefix maxBytes (reapable batches (cert_refs certs) ∅)
    (reap_loop batches maxBytes (cert_refs certs) ∅ [] 0)) as Hp
    by (apply (reap_loop_prefix batches maxBytes (cert_refs certs) ∅ [] Hb); right; cbn; lia).
  exists (reap_loop batches maxBytes (cert_refs certs) ∅ [] 0). split_and!; [|done|done| | |].
  - unfold ReapCertifiedBatches. destruct (hasCommitted d) eqn:Ec; cbn [andb].
    + unfold from in *. case_bool_decide as Hle.
      * assert (certs = []) as ->; [|done]. apply elem_of_nil_inv. intros c [? _]%Hm. lia.
      * rewrite wrap_id by (unfold fits; lia). rewrite Eo. case_bool_decide as El; [|done].
        by destruct certs; [|cbn in El; lia].
    + unfold from in *. rewrite Eo. case_bool_decide as El; [|done]. by destruct certs; [|cbn in El; lia].
  - eapply StronglySorted_sublist; [exact H2|by apply cert_refs_sorted].
  - intros cb Hcb. destruct (H3 cb Hcb) as [(Hv & ref & [Hce Href]%cert_refs_spec & Er) _].
    apply Hm in Hce as [? ?]. split_and!; [done|lia|lia|done|]. by exists ref.
  - intros c ref b Hr Hmc Href Hv. apply (H4 (BD_Digest ref)); [set_solver| |done].
    apply list_elem_of_fmap_2, list_elem_of_fmap. exists (ref, c). split; [done|]. apply cert_refs_spec.
    split; [by apply Hm|done].
Qed.
End reap_claims.

(** ** The orphan buffer *)
Section orphan_claims.
Context {S : Type} {CS : CertificateStore S} {CL : CertificateStoreLaws S} {RO : RangeOrder Hash Certificate}.
Implicit Types d : DAG S.
Implicit Types o : gmap Hash Certificate.

Definition keyed_certs o : Prop := ∀ dg c, o !! dg = Some c → CDigest c = dg.

(** DAGs that hold and find the same certificates. *)
Definition dag_same d d' : Prop :=
  (∀ r a, mem_cert d' r a = mem_cert d r a) ∧ ∀ dg, HasCertificate d' dg = HasCertificate d dg.

#[local] Instance dag_same_preorder : PreOrder dag_same.
Proof.
  split; [by split|]. intros d1 d2 d3 [H1 H2] [H3 H4]. split; intros; [by rewrite H3|by rewrite H4].
Qed.

Lemma add_error_same d d' c : dag_same d d' → add_error d' c = add_error d c.
Proof.
  intros [H1 H2]. unfold add_error, parents_present. rewrite H1.
  assert (forallb (λ p, HasCertificate d' (CR_Digest p)) (Parents (CHeader c)) =
          forallb (λ p, HasCertificate d (CR_Digest p)) (Parents (CHeader c))) as ->; [|done].
  induction (Parents (CHeader c)) as [|p l IH]; [done|]. cbn. by rewrite H2, IH.
Qed.

Lemma AddCertificate_rejected d c :
  dag_ok d → is_Some (add_error d c) → dag_same d (AddCertificate (Some c) d).1.
Proof.
  intros Hok [e He]. pose proof (dag_ok_AddCertificate d (Some c) Hok) as Hok'. split.
  - intros r a. rewrite AddCertificate_mem by apply (ok_store _ Hok). rewrite He. by rewrite decide_False by naive_solver.
  - intros dg. apply eq_bool_prop_intro. rewrite !Is_true_true, !has_get by done.
    rewrite AddCertificate_get by done. rewrite He. by rewrite decide_False by naive_solver.
Qed.

Lemma AddCertificate_error d c : dag_ok d → (AddCertificate (Some c) d).2 = add_error d c.
Proof. intros Hok. apply AddCertificate_cases, (ok_store _ Hok). Qed.

(** What a replay of the buffer achieves. *)
Record replayed d o d' o' : Prop := {
  rd_ok : dag_ok d';
  rd_sub dg c : o' !! dg = Some c → o !! dg = Some c;
  rd_added dg c : o !! dg = Some c → o' !! dg = None → mem_cert d' (CRound c) (CAuthor c) = Some c;
  rd_mono r a c : mem_cert d r a = Some c → mem_cert d' r a = Some c
}.

Lemma replayed_trans d1 o1 d2 o2 d3 o3 : replayed d1 o1 d2 o2 → replayed d2 o2 d3 o3 → replayed d1 o1 d3 o3.
Proof.
  intros [H1 H2 H3 H4] [K1 K2 K3 K4]. split; [done|by auto| |by auto].
  intros dg c Ho Hn. destruct (o2 !! dg) as [c'|] eqn:E; [|by eapply K4, H3].
  pose proof (H2 _ _ E). simplify_eq. by eapply K3.
Qed.

Lemma AddCertificate_accepted d c :
  dag_ok d → add_error d c = None →
  dag_ok (AddCertificate (Some c) d).1 ∧
  mem_cert (AddCertificate (Some c) d).1 (CRound c) (CAuthor c) = Some c ∧
  ∀ r a c', mem_cert d r a = Some c' → mem_cert (AddCertificate (Some c) d).1 r a = Some c'.
Proof.
  intros Hok He. pose proof (ok_store _ Hok) as Hs. split_and!.
  - by apply dag_ok_AddCertificate.
  - rewrite AddCertificate_mem by done. by rewrite decide_True.
  - intros r a c' Hm. rewrite AddCertificate_mem by done. case_decide as Hd; [|done]. destruct Hd as (_ & -> & ->).
    unfold add_error in He. by rewrite bool_decide_eq_true_2 in He.
Qed.

Lemma replay_pass_spec batch d o n :
  dag_ok d → NoDup (CDigest <$> batch) → (∀ c, c ∈ batch → o !! CDigest c = Some c) →
  let '(d', o', n') := replay_pass batch d o n in
  replayed d o d' o' ∧ zsize o' + n' = zsize o + n ∧ n ≤ n' ∧
  (n' = n → dag_same d d' ∧ o' = o ∧ ∀ c, c ∈ batch → is_Some (add_error d c)).
Proof.
  revert d o n. induction batch as [|c batch IH]; intros d o n Hok Hnd Hin; cbn [replay_pass].
  { split_and!; [split; try done; intros; congruence|lia|lia|]. intros _.
    split_and!; [done|done|by intros ? ?%not_elem_of_nil]. }
  rewrite fmap_cons in Hnd. apply NoDup_cons in Hnd as [Hni Hnd].
  pose proof (AddCertificate_error d c Hok) as Ee. pose proof (AddCertificate_rejected d c Hok) as Hrej.
  pose proof (AddCertificate_accepted d c Hok) as Hacc. pose proof (dag_ok_AddCertificate d (Some c) Hok) as Hok1.
  destruct (AddCertificate (Some c) d) as [d1 [e|]]; cbn [fst snd] in *.
  - specialize (Hrej ltac:(by rewrite <-Ee)). specialize (IH d1 o n Hok1 Hnd ltac:(intros; apply Hin; by right)).
    destruct (replay_pass batch d1 o n) as [[d' o'] n']. destruct IH as ([H1 H2 H3 H4] & Hsz & Hle & H0).
    split_and!; [split; [done|done|done|]|done|done|].
    + intros r a x Hm. apply H4. by rewrite (proj1 Hrej).
    + intros En. destruct (H0 En) as (Hs & -> & Hall). split_and!; [by transitivity d1|done|].
      intros x [->|Hx]%elem_of_cons; [by rewrite <-Ee|]. rewrite <-(add_error_same d d1) by done. by apply Hall.
  - destruct (Hacc (eq_sym Ee)) as (_ & Hm & Hmono).
    assert (o !! CDigest c = Some c) as Ho by (apply Hin; left).
    specialize (IH d1 (delete (CDigest c) o) (n + 1) Hok1 Hnd).
    destruct (replay_pass batch d1 (delete (CDigest c) o) (n + 1)) as [[d' o'] n'].
    destruct IH as (Hrep & Hsz & Hle & _).
    { intros x Hx. rewrite lookup_delete_ne; [apply Hin; by right|]. intros E. apply Hni. rewrite E.
      by apply list_elem_of_fmap_2. }
    rewrite map_size_delete, Ho in Hsz. cbn in Hsz.
    assert (size o ≠ 0%nat) by (intros E%map_size_empty_inv; by rewrite E in Ho).
    split_and!; [|lia|lia|lia]. apply (replayed_trans _ _ d1 (delete (CDigest c) o)); [|done]. split; [done|..].
    + intros dg x [_ ?]%lookup_delete_Some. done.
    + intros dg x Hx Hn. apply lookup_delete_None in Hn as [<-|Hn]; [|congruence]. by simplify_eq.
    + done.
Qed.

Lemma range_certs o : keyed_certs o → NoDup (CDigest <$> (range o).*2) ∧ ∀ c, c ∈ (range o).*2 ↔ o !! CDigest c = Some c.
Proof.
  intros Hk. split.
  - assert (CDigest <$> (range o).*2 = (range o).*1) as ->; [|apply range_NoDup].
    assert (∀ l, (∀ p, p ∈ l → o !! p.1 = Some p.2) → CDigest <$> l.*2 = l.*1) as H.
    { induction l as [|[k c] l IH]; intros Hl; [done|]. rewrite !fmap_cons. cbn. f_equal; [|apply IH; intros; apply Hl; by right].
      apply Hk. apply (Hl (k, c)). left. }
    apply H. intros [k c] Hp. by apply elem_of_range.
  - intros c. rewrite list_elem_of_fmap. split.
    + intros ([k x] & -> & Hin%elem_of_range). cbn. by rewrite (Hk _ _ Hin).
    + intros Hc. exists (CDigest c, c). split; [done|]. by apply elem_of_range.
Qed.

(** The loop ends, and then no buffered certificate can be added. *)
Lemma replay_spec fuel d o :
  dag_ok d → keyed_certs o → (size o < fuel)%nat →
  ∃ d' o', replayOrphanCertsLocked fuel d o = Some (d', o') ∧ replayed d o d' o' ∧
    ∀ dg c, o' !! dg = Some c → is_Some (add_error d' c).
Proof.
  revert d o. induction fuel as [|fuel IH]; intros d o Hok Hk Hf; [lia|]. cbn [replayOrphanCertsLocked].
  case_bool_decide as H0.
  { assert (o = ∅) as -> by (apply map_size_empty_inv; lia). exists d, ∅. split_and!; [done| |by intros].
    split; try done. }
  destruct (range_certs o Hk) as [Hnd Hin].
  pose proof (replay_pass_spec (range o).*2 d o 0 Hok Hnd ltac:(by intros c ?%Hin)) as Hp.
  destruct (replay_pass (range o).*2 d o 0) as [[d1 o1] n]. destruct Hp as (Hrep & Hsz & Hle & Hn0).
  case_bool_decide as Hn.
  - destruct (Hn0 Hn) as (Hs & -> & Hall). exists d1, o. split_and!; [done|done|].
    intros dg c Hc. rewrite (add_error_same d d1) by done. apply Hall, Hin. by rewrite (Hk _ _ Hc).
  - destruct (IH d1 o1) as (d' & o' & E & Hrep' & Hall); [apply Hrep| |lia|].
    { intros dg c Hc. apply Hk. by eapply (rd_sub _ _ _ _ Hrep). }
    exists d', o'. split_and!; [done|by eapply replayed_trans|done].
Qed.

(** C34. Certificates may arrive in any order: handling a certificate against
    the DAG and the orphan buffer always ends.  If it can be added it is, every
    buffered certificate that thereby became addable is added, transitively, and
    no certificate left in the buffer can be added; if a parent is missing it is
    buffered, unless the buffer is full; a duplicate changes neither the
    certificates of the DAG nor the buffer.  The buffer never exceeds its cap,
    nothing leaves it except into the DAG, and nothing leaves the DAG. *)
Theorem orphans_replayed cert d o :
  dag_ok d → keyed_certs o → zsize o ≤ orphanCertCap →
  ∃ d' o', add_or_buffer cert d o = Some (d', o') ∧ dag_ok d' ∧ keyed_certs o' ∧ zsize o' ≤ orphanCertCap ∧
  (∀ r a c, mem_cert d r a = Some c → mem_cert d' r a = Some c) ∧
  (∀ dg c, o !! dg = Some c → o' !! dg = Some c ∨ mem_cert d' (CRound c) (CAuthor c) = Some c) ∧
  (is_Some (add_error d cert) → ∀ r a, mem_cert d' r a = mem_cert d r a) ∧
  match add_error d cert with
  | None => mem_cert d' (CRound cert) (CAuthor cert) = Some cert ∧
            ∀ dg c, o' !! dg = Some c → is_Some (add_error d' c)
  | Some ErrMissingParents => o' = if decide (zsize o < orphanCertCap) then insert_new (CDigest cert) cert o else o
  | Some _ => o' = o
  end.
Proof.
  intros Hok Hk Hcap. unfold add_or_buffer.
  pose proof (AddCertificate_error d cert Hok) as Ee. pose proof (AddCertificate_rejected d cert Hok) as Hrej.
  pose proof (AddCertificate_accepted d cert Hok) as Hacc. pose proof (dag_ok_AddCertificate d (Some cert) Hok) as Hok1.
  destruct (AddCertificate (Some cert) d) as [d1 [e|]]; cbn [fst snd] in *; rewrite <-Ee in *.
  - destruct (Hrej ltac:(done)) as [Hm _].
    assert (e = ErrMissingParents ∨ e = ErrDuplicateHeader) as [-> | ->].
    { unfold add_error in Ee. repeat case_match; simplify_eq; auto. }
    + assert (errors_Is ErrMissingParents ErrMissingParents = true) as -> by done.
      assert (bufferOrphanCert cert o = if decide (zsize o < orphanCertCap) then insert_new (CDigest cert) cert o else o) as Eb.
      { unfold bufferOrphanCert, insert_new. case_decide; [rewrite bool_decide_eq_false_2 by lia|rewrite bool_decide_eq_true_2 by lia]; done. }
      exists d1, (bufferOrphanCert cert o). rewrite Eb. clear Eb. unfold insert_new.
      destruct (decide (zsize o < orphanCertCap)) as [Hlt|]; [|by split_and!; eauto; intros; rewrite Hm].
      destruct (o !! CDigest cert) as [c0|] eqn:E; [by split_and!; eauto; intros; rewrite Hm|].
      split_and!; try done.
      * intros dg c [[<- <-]|[_ ?]]%lookup_insert_Some; [done|by apply Hk].
      * rewrite map_size_insert, E. cbn. lia.
      * intros r a c. by rewrite Hm.
      * intros dg c Hc. left. rewrite lookup_insert_ne; [done|congruence].
    + assert (errors_Is ErrDuplicateHeader ErrMissingParents = false) as -> by done.
      exists d1, o. split_and!; eauto; intros; by rewrite Hm.
  - destruct (Hacc ltac:(done)) as (_ & Hm & Hmono).
    destruct (replay_spec (Datatypes.S (size o)) d1 o Hok1 Hk ltac:(lia)) as (d' & o' & -> & [H1 H2 H3 H4] & Hall).
    exists d', o'. split_and!; try done.
    + intros dg c Hc. apply Hk. by apply H2.
    + assert (size o' ≤ size o)%nat; [|lia]. rewrite <-!(size_dom (D := gset Hash)). apply subseteq_size.
      intros dg [c Hc]%elem_of_dom. apply elem_of_dom. exists c. by apply H2.
    + intros r a c Hc. by apply H4, Hmono.
    + intros dg c Hc. destruct (o' !! dg) as [c'|] eqn:E; [left; apply H2 in E; congruence|right; by eapply H3].
    + by apply H4.
Qed.
End orphan_claims.

(** ** Acknowledgements *)
Section ack_claims.
Context `{Ed : Ed25519} {S B I : Type} {CS : CertificateStore S} {BS : BatchStore B}.
Context {RV : RangeOrder Z Vote} {RP : RangeOrder Hash PendingHeader}.
Implicit Types l : Looseberry S B I.

(** A run of acknowledgement messages. *)
Definition handle_acks (msgs : list (Z * option BatchAckMessage)) l : Looseberry S B I :=
  fold_left (λ l m, handleBatchAckMessage m.1 m.2 l) msgs l.

(** The validator whose acknowledgement of [d] a message proves. *)
Definition ack_signer (vs : ValidatorSet) (d : Hash) (msg : option BatchAckMessage) : option Z :=
  match msg with
  | Some m =>
      if bool_decide (AM_BatchDigest m = d) &&
         VerifySignature vs (AM_Validator m) (BatchAckSignBytes d (AM_Validator m) (AM_Round m)) (AM_Signature m)
      then Some (AM_Validator m) else None
  | None => None
  end.
Definition ack_signers (vs : ValidatorSet) (d : Hash) (msgs : list (Z * option BatchAckMessage)) : gset Z :=
  list_to_set (omap (ack_signer vs d) msgs.*2).

(** The acks of [d] in a worker grow at most by [X]. *)
Record acks_grow (d : Hash) (X : gset Z) (w w' : Worker) : Prop := {
  ag_quorum : quorum (ackTracker w') = quorum (ackTracker w);
  ag_acks p' : at_pending (ackTracker w') !! d = Some p' →
    ∃ p, at_pending (ackTracker w) !! d = Some p ∧ Acks p' ⊆ Acks p ∪ X
}.

Lemma acks_grow_refl d X w : acks_grow d X w w.
Proof. split; [done|]. intros p Hp. exists p. split; [done|set_solver]. Qed.

Lemma acks_grow_trans d X Y w1 w2 w3 : acks_grow d X w1 w2 → acks_grow d Y w2 w3 → acks_grow d (X ∪ Y) w1 w3.
Proof.
  intros [Q1 H1] [Q2 H2]. split; [congruence|]. intros p3 H3. destruct (H2 p3 H3) as (p2 & E2 & ?).
  destruct (H1 p2 E2) as (p1 & ? & ?). exists p1. split; [done|set_solver].
Qed.

Lemma acks_grow_all_trans d X Y ws1 ws2 ws3 :
  Forall2 (acks_grow d X) ws1 ws2 → Forall2 (acks_grow d Y) ws2 ws3 → Forall2 (acks_grow d (X ∪ Y)) ws1 ws3.
Proof.
  intros H. revert ws3. induction H; intros ws3 H3; inversion H3; subst; constructor; [by eapply acks_grow_trans|auto].
Qed.

Lemma record_ack_workers_grow now d v d' ws :
  Forall2 (acks_grow d' (if decide (d' = d) then {[ v ]} else ∅)) ws (record_ack_workers now d v ws).1.
Proof.
  assert (∀ w, acks_grow d' (if decide (d' = d) then {[ v ]} else ∅) w (Worker_RecordAck now d v w).1.1) as Hw.
  { intros w. unfold Worker_RecordAck. pose proof (RecordAck_quorum now d v (ackTracker w)) as Hq.
    pose proof (RecordAck_grows now d v (ackTracker w) d') as Hg.
    destruct (RecordAck _ _ _ _) as [[? ?] ?]. by split. }
  induction ws as [|w ws IH]; cbn [record_ack_workers]; [constructor|]. specialize (Hw w).
  destruct (Worker_RecordAck now d v w) as [[w' [|]] ?]; cbn [fst] in Hw.
  - constructor; [done|]. clear. induction ws; constructor; [apply acks_grow_refl|done].
  - destruct (record_ack_workers now d v ws) as [ws' r]. by constructor.
Qed.

(** An ack message changes only the pool's acks, and only if it is signed. *)
Lemma handleBatchAck_grow now msg l d :
  ValidatorSetLaws (nodeValidators l) →
  let l' := handleBatchAckMessage now msg l in
  nodeValidators l' = nodeValidators l ∧
  Forall2 (acks_grow d (list_to_set (option_list (ack_signer (nodeValidators l) d msg))))
    (workers (workerPool l)) (workers (workerPool l')).
Proof.
  intros L. unfold handleBatchAckMessage, ack_signer.
  assert (∀ X, Forall2 (acks_grow d X) (workers (workerPool l)) (workers (workerPool l))) as Hr
    by (intros X; apply Forall2_same_length_lookup_2; [done|intros i w w' ??; simplify_eq; apply acks_grow_refl]).
  destruct msg as [m|]; [|by split]. rewrite vs_VerifySignature.
  destruct (GetByIndex (nodeValidators l) (AM_Validator m)) as [v|]; [|by split; [|apply Hr]].
  destruct (decide (AM_BatchDigest m = d)) as [<-|Hne]; [rewrite bool_decide_eq_true_2 by done|rewrite bool_decide_eq_false_2 by done];
    destruct (PublicKey_Verify _ (BatchAckSignBytes (AM_BatchDigest m) _ _) _); cbn [negb andb]; try (by split; [|apply Hr]);
    (split; [done|]); unfold Pool_RecordAck.
  - pose proof (record_ack_workers_grow now (AM_BatchDigest m) (AM_Validator m) (AM_BatchDigest m) (workers (workerPool l))) as Hg.
    destruct (record_ack_workers _ _ _ _) as [ws r]. rewrite decide_True in Hg by done. cbn.
    by rewrite union_empty_r_L.
  - pose proof (record_ack_workers_grow now (AM_BatchDigest m) (AM_Validator m) d (workers (workerPool l))) as Hg.
    destruct (record_ack_workers _ _ _ _) as [ws r]. by rewrite decide_False in Hg by done.
Qed.

Lemma handle_acks_grow msgs l d :
  ValidatorSetLaws (nodeValidators l) →
  Forall2 (acks_grow d (ack_signers (nodeValidators l) d msgs)) (workers (workerPool l))
    (workers (workerPool (handle_acks msgs l))).
Proof.
  revert l. induction msgs as [|[now m] msgs IH]; intros l L; cbn [handle_acks fold_left].
  { apply Forall2_same_length_lookup_2; [done|]. intros i w w' ??. simplify_eq. apply acks_grow_refl. }
  destruct (handleBatchAck_grow now m l d L) as [Ev Hg]. cbn [fst snd] in *.
  specialize (IH (handleBatchAckMessage now m l)). rewrite Ev in IH. specialize (IH L).
  assert (ack_signers (nodeValidators l) d ((now, m) :: msgs) =
    list_to_set (option_list (ack_signer (nodeValidators l) d m)) ∪ ack_signers (nodeValidators l) d msgs) as ->.
  { unfold ack_signers. cbn. destruct (ack_signer _ d m); cbn; set_solver. }
  by eapply acks_grow_all_trans.
Qed.

Lemma on_outputs_headers os l h : BroadcastHeader h ∈ (on_outputs os l).2 → OutHeader h ∈ os.
Proof.
  revert l. induction os as [|o os IH]; intros l; cbn [on_outputs]; [by intros ?%not_elem_of_nil|].
  assert (BroadcastHeader h ∈ (on_output o l).2 → o = OutHeader h) as Ho.
  { destruct o; cbn; repeat case_match; rewrite ?elem_of_cons, elem_of_nil; naive_solver. }
  destruct (on_output o l) as [l1 out]. specialize (IH l1). destruct (on_outputs os l1) as [l2 out']. cbn [snd] in *.
  intros [->%Ho|?]%elem_of_app; [left|right; by apply IH].
Qed.

(** C35. Data availability is gated by signatures: whatever acknowledgement
    messages arrive, a batch is referenced by a header that the next tick
    broadcasts only if, in the tracker of one of the node's workers, the
    validators counted before together with those whose signature over the ack
    ([BatchAckSignBytes] of this batch) verifies under the validator set's key
    make up a quorum; unsigned, forged and foreign messages count for
    nothing, and repeated ones once. *)
Theorem headers_need_signed_acks msgs now l h ref :
  ValidatorSetLaws (nodeValidators l) →
  BroadcastHeader h ∈ (header_tick now (handle_acks msgs l)).2 → ref ∈ BatchRefs h →
  ∃ w p, w ∈ workers (workerPool l) ∧ at_pending (ackTracker w) !! BD_Digest ref = Some p ∧
    quorum (ackTracker w) ≤ zsize (Acks p ∪ ack_signers (nodeValidators l) (BD_Digest ref) msgs).
Proof.
  intros L Hh Href. set (l' := handle_acks msgs l) in *.
  assert (HasBatchAckQuorum (workerPool l') (BD_Digest ref) = true) as Hq.
  { unfold header_tick in Hh.
    pose proof (tryCreateHeader_refs (Some (HasBatchAckQuorum (workerPool l'))) now [] (primary_of l') h) as Hr.
    destruct (tryCreateHeader _ _ _ _) as [p outs]. apply on_outputs_headers, Hr in Hh.
    rewrite Forall_forall in Hh. by apply Hh. }
  unfold HasBatchAckQuorum in Hq. apply existsb_exists in Hq as (w' & Hw' & Hq). apply list_elem_of_In in Hw'.
  pose proof (handle_acks_grow msgs l (BD_Digest ref) L) as Hg. fold l' in Hg.
  apply list_elem_of_lookup in Hw' as [i Hi]. destruct (Forall2_lookup_r _ _ _ _ _ Hg Hi) as (w & Hw & [Eq Ha]).
  unfold AT_HasQuorum in Hq. destruct (at_pending (ackTracker w') !! BD_Digest ref) as [p'|]; [|done].
  destruct (Ha p' eq_refl) as (p & Hp & Hsub). exists w, p. split_and!; [by eapply list_elem_of_lookup_2|done|].
  apply bool_decide_eq_true in Hq. apply subseteq_size in Hsub. lia.
Qed.

(** The ack a node makes is recorded by every node that has its key. *)
Lemma ack_recorded now batch ack l l' :
  ValidatorSetLaws (nodeValidators l) → registered (nodeValidators l) (validatorIndex l') (nodeSigner l') →
  make_ack batch l' = Some ack →
  workerPool (handleBatchAckMessage now (Some ack) l) =
    (Pool_RecordAck now (Batch_Digest batch) (validatorIndex l') (workerPool l)).1.
Proof.
  intros L Hreg. unfold make_ack. destruct (Sign _ _) as [sig|] eqn:Es; [|done]. intros [= <-].
  apply Hreg in Es. rewrite vs_VerifySignature in Es. unfold handleBatchAckMessage. cbn [AM_BatchDigest AM_Validator AM_Round AM_Signature].
  destruct (GetByIndex _ _); [|done]. by rewrite Es.
Qed.
End ack_claims.

(** ** Closed examples *)
#[local] Existing Instance toy_ed25519.
#[local] Existing Instance Toy.laws.
#[local] Existing Instance range_sorted.

Module NodeExample.
Abbreviation node := (Looseberry MemoryCertificateStore MemoryBatchStore MemoryTxIndex).
Definition config (i : Z) : NodeConfig := DefaultNodeConfig i (Toy.signer i).
Definition started (i : Z) : node :=
  (Looseberry_Start (config i) None 1
     (fresh_node (config i) Toy.vs NewMemoryBatchStore NewMemoryCertificateStore NewMemoryTxIndex)).1.1.
(** Validator 0 makes a batch; validators 1 and 2 acknowledge it, the message of
    1 arrives twice, and 1 also forges an ack of 3. *)
Definition made : node * list message := batch_tick 5 0 (AddTx None [1; 2] (started 0)).1.
Definition batch : Batch :=
  match made.2 with BroadcastBatch b :: _ => b | _ => NewBatch 0 0 0 [] 0 end.
Definition forged : BatchAckMessage :=
  mk_BatchAckMessage (Batch_Digest batch) 3 0
    (ed_Sign (NewKeyFromSeed (Toy.seed 1)) (BatchAckSignBytes (Batch_Digest batch) 3 0)).
Definition acks : list (Z * option BatchAckMessage) :=
  [(6, make_ack batch (started 1)); (7, make_ack batch (started 1)); (7, Some forged);
   (8, make_ack batch (started 2))].
Definition headers_of (out : list message) : list Header :=
  omap (λ m, match m with BroadcastHeader h => Some h | _ => None end) out.
Definition header : Header :=
  default (NewHeader 0 0 0 [] [] 0) (head (headers_of (header_tick 9 (handle_acks acks made.1)).2)).
Definition deliver (certs : list Certificate) : option node := deliver_certs certs (started 0).
Definition grandchild : Certificate := Toy.cert 2 2 [15] [GetRef DagExample.child] [0; 1; 2].
Definition rival_child : Certificate := Toy.cert 1 1 [14] [GetRef DagExample.genesis] [0; 1; 2].
Definition unsigned : Certificate := Toy.cert 3 0 [16] [] [].
Definition in_dag (c : Certificate) (l : option node) : option Certificate :=
  l ≫= λ l, mem_cert (dag_of l) (CRound c) (CAuthor c).
End NodeExample.

(** The whole path, evaluated: the header refers to the batch after the acks of
    two peers, and does not without the second one. *)
Example header_after_acks :
  BatchRefs NodeExample.header = [GetDigest NodeExample.batch] ∧
  BatchRefs <$> NodeExample.headers_of
    (header_tick 9 (handle_acks (take 3 NodeExample.acks) NodeExample.made.1)).2 = [[]].
Proof. split; by vm_compute. Qed.

Lemma headers_of_elem out h : head (NodeExample.headers_of out) = Some h → BroadcastHeader h ∈ out.
Proof.
  intros E. assert (h ∈ NodeExample.headers_of out) as Hh by (destruct (NodeExample.headers_of out); [done|injection E as ->; left]).
  apply list_elem_of_omap in Hh as (m & Hm & Em). by destruct m; simplify_eq.
Qed.

Lemma headers_need_signed_acks_witness :
  let ref := GetDigest NodeExample.batch in
  ∃ w p, w ∈ workers (workerPool NodeExample.made.1) ∧
    at_pending (ackTracker w) !! BD_Digest ref = Some p ∧
    quorum (ackTracker w) ≤
      zsize (Acks p ∪ ack_signers (nodeValidators NodeExample.made.1) (BD_Digest ref) NodeExample.acks).
Proof.
  refine (headers_need_signed_acks NodeExample.acks 9 NodeExample.made.1 NodeExample.header
           (GetDigest NodeExample.batch) _ _ _).
  - apply headers_of_elem. unfold NodeExample.header. by vm_compute.
  - rewrite (proj1 header_after_acks). by constructor.
Defined.

Lemma reap_certified_batches_witness :
  let d := g_dag GcExample.committed in
  ∃ all result, ReapCertifiedBatches 100 d GcExample.batches = Some result ∧ reap_prefix 100 all result.
Proof.
  destruct (reap_certified_batches 100 (g_dag GcExample.committed) GcExample.batches) as (all & result & E & Hp & _).
  - apply example_ok.
  - exact gc_example_batches.
  - by vm_compute.
  - by vm_compute.
  - assert (hasCommitted (g_dag GcExample.committed) = false ∧ highestRound (g_dag GcExample.committed) = 1)
      as [E1 E2] by (split; by vm_compute).
    rewrite E1, E2. intros r Hr. left. assert (r = 0 ∨ r = 1) as [-> | ->] by lia; vm_compute; by eexists.
  - exists all, result. split; [exact E|exact Hp].
Defined.

Example reaped_batch :
  ReapCertifiedBatches 100 (g_dag GcExample.committed) GcExample.batches =
    Some [mk_CertifiedBatch GcExample.old_batch GcExample.committing].
Proof. by vm_compute. Qed.

Lemma orphans_replayed_witness :
  ∃ d' o', add_or_buffer DagExample.genesis DagExample.empty (bufferOrphanCert DagExample.child ∅) = Some (d', o') ∧
    mem_cert d' 0 0 = Some DagExample.genesis ∧ ∀ dg c, o' !! dg = Some c → is_Some (add_error d' c).
Proof.
  destruct (orphans_replayed DagExample.genesis DagExample.empty (bufferOrphanCert DagExample.child ∅))
    as (d' & o' & E & _ & _ & _ & _ & _ & _ & H).
  - apply (example_ok []).
  - intros dg c. unfold bufferOrphanCert. by intros [[<- <-]|[_ ?]]%lookup_insert_Some.
  - by vm_compute.
  - exists d', o'. split; [exact E|]. exact H.
Defined.

(** Stacked orphans drain at once when the first parent arrives. *)
Example orphans_drain :
  let l := NodeExample.deliver [NodeExample.grandchild; DagExample.child; DagExample.genesis] in
  (orphanCerts <$> l = Some ∅) ∧ NodeExample.in_dag NodeExample.grandchild l = Some NodeExample.grandchild ∧
  NodeExample.in_dag DagExample.child l = Some DagExample.child.
Proof. split_and!; by vm_compute. Qed.

(** The primary saves a certificate to the shared store before the DAG looks for
    its parents, so its children count it as present: here the child of an
    orphan is in the DAG although its grandparent is nowhere. *)
Example orphan_child_accepted :
  let l := NodeExample.deliver [DagExample.child; NodeExample.grandchild] in
  NodeExample.in_dag NodeExample.grandchild l = Some NodeExample.grandchild ∧
  NodeExample.in_dag DagExample.child l = None ∧
  (λ l, HasCertificate (dag_of l) (CDigest DagExample.genesis)) <$> l = Some false.
Proof. split_and!; by vm_compute. Qed.

(** A certificate that is not verified is rejected by the primary and added to
    the DAG all the same. *)
Example unsigned_certificate_accepted :
  Certificate_Verify NodeExample.unsigned Toy.vs = Some ErrInsufficientQuorum ∧
  NodeExample.in_dag NodeExample.unsigned (NodeExample.deliver [NodeExample.unsigned]) = Some NodeExample.unsigned.
Proof. split; by vm_compute. Qed.

(** Two buffered orphans of one author and round: the second one is a duplicate
    after the replay and stays in the buffer. *)
Example rival_orphan_stays :
  let l := NodeExample.deliver [DagExample.child; NodeExample.rival_child; DagExample.genesis] in
  (λ l, size (orphanCerts l)) <$> l = Some 1%nat.
Proof. by vm_compute. Qed.

(** A node stopped and started again works on its closed stores: the batches it
    receives are not stored. *)
Example restart_loses_batches :
  let stop := Looseberry_Stop (λ b, (Memory_BatchStore_Close b).1) (λ c, (Memory_CertificateStore_Close c).1)
    (λ i, (TxIndex_Close i).1) in
  let l := (Looseberry_Start (NodeExample.config 0) None 3 (stop 2 (NodeExample.started 0)).1.1) in
  let b := NodeExample.batch in
  l.2 = None ∧ HasBatch (Batch_Digest b) (batchStore (handleBatchMessage 4 (Some b) 1 l.1.1).1) = false ∧
  HasBatch (Batch_Digest b) (batchStore (handleBatchMessage 4 (Some b) 1 (NodeExample.started 0)).1) = true.
Proof. split_and!; by vm_compute. Qed.
