(* ===== verification/Messages.v ===== *)
(** The messages of network/network.go as receivers see them, with the sender
    the transport adds, the deep copies (the [Clone] methods of types/) that
    senders make of what they send, and Go's buffered channels: a bounded queue,
    sent to without blocking. *)
From S2P Require Import Prelude Bytes Errors Types Batch Header BitSet Certificate Sync Looseberry.
Local Open Scope Z_scope.

(** ** Deep copies *)

(** [copy(dst, src)] *)
Definition copy_slice {A} (dst src : list A) : list A := take (length dst) src ++ drop (length src) dst.
Arguments copy_slice : simpl never.

Definition Tx_Clone (tx : Transaction) : Transaction := copy_slice (replicate (length tx) 0) tx.
Definition Batch_Clone (b : Batch) : Batch :=
  {| WorkerID := WorkerID b; ValidatorID := ValidatorID b; Batch_Round := Batch_Round b;
     Transactions := map Tx_Clone (Transactions b); Batch_Digest := Batch_Digest b;
     Batch_Timestamp := Batch_Timestamp b |}.
Definition Header_Clone (h : Header) : Header :=
  let zeroRef := mk_BatchDigest EmptyHash 0 0 in
  let zeroParent := mk_CertificateRef EmptyHash 0 in
  {| Author := Author h; Round := Round h; Epoch := Epoch h;
     BatchRefs := copy_slice (replicate (length (BatchRefs h)) zeroRef) (BatchRefs h);
     Parents := copy_slice (replicate (length (Parents h)) zeroParent) (Parents h);
     Timestamp := Timestamp h; Digest := Digest h; HSignature := HSignature h |}.
Definition Vote_Clone (v : Vote) : Vote :=
  {| HeaderDigest := HeaderDigest v; Validator := Validator v; VSignature := VSignature v |}.
Definition BitSet_Clone (bs : BitSet) : BitSet := copy_slice (replicate (length bs) 0) bs.
Definition Certificate_Clone (c : Certificate) : Certificate :=
  {| CHeader := Header_Clone (CHeader c); Votes := map Vote_Clone (Votes c); SignerMask := BitSet_Clone (SignerMask c) |}.

Lemma copy_slice_fresh {A} (z : A) l : copy_slice (replicate (length l) z) l = l.
Proof.
  unfold copy_slice. rewrite length_replicate, firstn_all, drop_ge by (by rewrite length_replicate). apply app_nil_r.
Qed.

Lemma map_same {A} (f : A → A) l : (∀ x, f x = x) → map f l = l.
Proof. intros H. induction l as [|x l IH]; cbn; [done|]. by rewrite H, IH. Qed.

(** A clone is equal to its original. *)
Lemma Batch_Clone_eq b : Batch_Clone b = b.
Proof.
  destruct b. unfold Batch_Clone. cbn. f_equal. apply map_same. intros tx. apply copy_slice_fresh.
Qed.
Lemma Header_Clone_eq h : Header_Clone h = h.
Proof. destruct h. unfold Header_Clone. cbn. by rewrite !copy_slice_fresh. Qed.
Lemma Vote_Clone_eq v : Vote_Clone v = v.
Proof. by destruct v. Qed.
Lemma Certificate_Clone_eq c : Certificate_Clone c = c.
Proof.
  destruct c. unfold Certificate_Clone, BitSet_Clone. cbn.
  by rewrite Header_Clone_eq, copy_slice_fresh, (map_same _ _ Vote_Clone_eq).
Qed.

(** ** Received messages; a pointer in a message may be nil *)
Record BatchMessage := mk_BatchMessage { BM_Batch : option Batch; BM_From : Z }.
Record BatchRequestMessage := mk_BatchRequestMessage { BQ_BatchDigest : Hash; BQ_Requester : Z }.
Record HeaderMessage := mk_HeaderMessage { HM_Header : option Header; HM_From : Z }.
Record VoteMessage := mk_VoteMessage { VM_Vote : option Vote; VM_From : Z }.
Record CertificateMessage := mk_CertificateMessage { CM_Certificate : option Certificate; CM_From : Z }.
Record SyncResponseMessage := mk_SyncResponseMessage { SM_Response : option SyncResponse; SM_From : Z }.

(** Config of network/network.go; the timeout is in milliseconds. *)
Record NetConfig := mk_NetConfig { BufferSize : Z; NetSyncBatchSize : Z; NetSyncTimeout : Z }.
Definition DefaultNetConfig : NetConfig :=
  {| BufferSize := 1000; NetSyncBatchSize := 100; NetSyncTimeout := 30000 |}.

(** ** Buffered channels *)
Record chan (A : Type) := mk_chan { ch_buf : list A; ch_cap : Z }.
Arguments mk_chan {A}.
Arguments ch_buf {A}.
Arguments ch_cap {A}.

(** [make(chan A, n)]. *)
Definition make_chan {A} (n : Z) : chan A := mk_chan [] n.

(** [select { case ch <- x: ... default: ... }]: [None] is the default case.  A
    receiver takes from the buffer in a step of its own, so an unbuffered channel
    never has room. *)
Definition try_send {A} (x : A) (c : chan A) : option (chan A) :=
  if bool_decide (zlen (ch_buf c) < ch_cap c) then Some (mk_chan (ch_buf c ++ [x]) (ch_cap c)) else None.

(** [<-ch] on a buffer that is not empty. *)
Definition receive {A} (c : chan A) : option (A * chan A) :=
  match ch_buf c with
  | [] => None
  | x :: buf => Some (x, mk_chan buf (ch_cap c))
  end.

Definition chan_ok {A} (c : chan A) : Prop := zlen (ch_buf c) ≤ ch_cap c.
Definition has_room {A} (c : chan A) : Prop := zlen (ch_buf c) < ch_cap c.

Lemma try_send_ok {A} (x : A) c c' : try_send x c = Some c' → chan_ok c' ∧ ch_buf c' = ch_buf c ++ [x] ∧ ch_cap c' = ch_cap c.
Proof.
  unfold try_send, chan_ok. case_bool_decide as H; [|done]. intros [= <-]. cbn. rewrite length_app. cbn. split; [lia|done].
Qed.

Lemma receive_ok {A} (x : A) c c' : receive c = Some (x, c') → chan_ok c → chan_ok c' ∧ ch_buf c = x :: ch_buf c' ∧ ch_cap c' = ch_cap c.
Proof. unfold receive, chan_ok. destruct (ch_buf c); [done|]. intros [= <- <-]. cbn. split; [lia|done]. Qed.
