(* ===== verification/MockNetwork.v ===== *)
(** The in-process network of network/mock.go that multi-node tests run on: one
    object per validator with a bounded channel per kind of message and a map of
    connected peers.  The objects live in a store and hold each other by address,
    as pointers do; an operation is a function on the store.  A method runs while
    its mutexes are held, so one call is one step; the statistics are modelled,
    the [stopCh] channel is its closed flag. *)
From S2P Require Import Prelude Bytes Errors Types Batch Header BitSet Certificate Sync Looseberry Messages.
Local Open Scope Z_scope.

Record MockNetworkStats := mk_MockNetworkStats {
  BatchesBroadcast : Z;
  HeadersBroadcast : Z;
  CertificatesBroadcast : Z;
  VotesSent : Z;
  BatchAcksSent : Z;
  BatchRequestsSent : Z;
  BatchResponsesSent : Z;
  SyncRequestsSent : Z;
  SyncResponsesSent : Z
}.
#[export] Instance eta_MockNetworkStats : Settable MockNetworkStats := λ s,
  mk_MockNetworkStats (BatchesBroadcast s) (HeadersBroadcast s) (CertificatesBroadcast s) (VotesSent s)
    (BatchAcksSent s) (BatchRequestsSent s) (BatchResponsesSent s) (SyncRequestsSent s) (SyncResponsesSent s).
Definition no_stats : MockNetworkStats := mk_MockNetworkStats 0 0 0 0 0 0 0 0 0.

(** [peers] maps a validator to the address of its object. *)
Record MockNetwork := mk_MockNetwork {
  mn_validatorID : Z;
  mn_cfg : NetConfig;
  batchCh : chan BatchMessage;
  batchAckCh : chan BatchAckMessage;
  batchReqCh : chan BatchRequestMessage;
  batchRespCh : chan BatchResponseMessage;
  headerCh : chan HeaderMessage;
  voteCh : chan VoteMessage;
  certCh : chan CertificateMessage;
  syncReqCh : chan SyncRequest;
  syncRespCh : chan SyncResponseMessage;
  peers : gmap Z Z;
  mn_running : bool;
  mn_stopped : bool;
  mn_stats : MockNetworkStats
}.
#[export] Instance eta_MockNetwork : Settable MockNetwork := λ m,
  mk_MockNetwork (mn_validatorID m) (mn_cfg m) (batchCh m) (batchAckCh m) (batchReqCh m) (batchRespCh m) (headerCh m)
    (voteCh m) (certCh m) (syncReqCh m) (syncRespCh m) (peers m) (mn_running m) (mn_stopped m) (mn_stats m).

(** The objects by address. *)
Abbreviation net := (gmap Z MockNetwork).

(** [None] is the panic of [make] with a negative size. *)
Definition NewMockNetwork (validatorID : Z) (cfg : NetConfig) : option MockNetwork :=
  if bool_decide (BufferSize cfg < 0) then None
  else Some {|
    mn_validatorID := validatorID; mn_cfg := cfg;
    batchCh := make_chan (BufferSize cfg); batchAckCh := make_chan (BufferSize cfg);
    batchReqCh := make_chan (BufferSize cfg); batchRespCh := make_chan (BufferSize cfg);
    headerCh := make_chan (BufferSize cfg); voteCh := make_chan (BufferSize cfg);
    certCh := make_chan (BufferSize cfg); syncReqCh := make_chan (BufferSize cfg);
    syncRespCh := make_chan (BufferSize cfg);
    peers := ∅; mn_running := false; mn_stopped := false; mn_stats := no_stats |}.

(** Updating the object at an address. *)
Definition update (a : Z) (f : MockNetwork → MockNetwork) (w : net) : net := alter f a w.

Definition Connect (self peer : Z) (w : net) : net :=
  match w !! self, w !! peer with
  | Some m, Some p =>
      let w := update self (λ m, m <| peers := <[mn_validatorID p := peer]> (peers m) |>) w in
      update peer (λ p, p <| peers := <[mn_validatorID m := self]> (peers p) |>) w
  | _, _ => w
  end.

Definition Disconnect (self validatorID : Z) (w : net) : net :=
  match w !! self with
  | None => w
  | Some m =>
      let peer := peers m !! validatorID in
      let w := update self (λ m, m <| peers := delete validatorID (peers m) |>) w in
      match peer with
      | None => w
      | Some a => update a (λ p, p <| peers := delete (mn_validatorID m) (peers p) |>) w
      end
  end.

Definition Mock_Start (m : MockNetwork) : MockNetwork * option error :=
  (m <| mn_running := true |>, if mn_running m then Some ErrAlreadyRunning else None).

(** [None] is the panic of closing a closed channel. *)
Definition Mock_Stop (m : MockNetwork) : option (MockNetwork * option error) :=
  if negb (mn_running m) then Some (m, Some ErrNotRunning)
  else if mn_stopped m then None
  else Some (m <| mn_running := false |> <| mn_stopped := true |>, None).

Definition Mock_ValidatorID (m : MockNetwork) : Z := mn_validatorID m.

(** One kind of message: its channel and its counter. *)
Record channel (A : Type) := mk_channel {
  cget : MockNetwork → chan A;
  cput : chan A → MockNetwork → MockNetwork;
  ccount : MockNetworkStats → MockNetworkStats
}.
Arguments mk_channel {A}.
Arguments cget {A}.
Arguments cput {A}.
Arguments ccount {A}.

(** The non-blocking send to the channel of an object: [None] when it is full. *)
Definition offer {A} (ch : channel A) (msg : A) (m : MockNetwork) : option MockNetwork :=
  (λ c, cput ch c m) <$> try_send msg (cget ch m).

(** The loop over the peers of a broadcast: a full channel is skipped. *)
Fixpoint offer_all {A} (ch : channel A) (msg : A) (targets : list (Z * Z)) (w : net) : net :=
  match targets with
  | [] => w
  | (_, a) :: targets' => offer_all ch msg targets' (update a (λ p, default p (offer ch msg p)) w)
  end.

Definition count_message {A} (ch : channel A) (m : MockNetwork) : MockNetwork := m <| mn_stats := ccount ch (mn_stats m) |>.

(** The common body of the [Broadcast] methods; [mk] makes the message, with the
    sender's validator. *)
Definition broadcast {RO : RangeOrder Z Z} {A} (ch : channel A) (mk : Z → A) (self : Z) (w : net) : net * option error :=
  match w !! self with
  | None => (w, None)
  | Some m =>
      if negb (mn_running m) then (w, Some ErrNotRunning)
      else
        let w := update self (count_message ch) w in
        (offer_all ch (mk (mn_validatorID m)) (range (peers m)) w, None)
  end.

(** The common body of the [Send] methods. *)
Definition send {A} (ch : channel A) (validator : Z) (mk : Z → A) (self : Z) (w : net) : net * option error :=
  match w !! self with
  | None => (w, None)
  | Some m =>
      if negb (mn_running m) then (w, Some ErrNotRunning)
      else
        let w := update self (count_message ch) w in
        match peers m !! validator with
        | None => (w, Some ErrValidatorNotFound)
        | Some a =>
            match w !! a ≫= offer ch (mk (mn_validatorID m)) with
            | Some p => (<[a := p]> w, None)
            | None => (w, Some ErrMempoolFull)
            end
        end
  end.

Definition BatchMessages : channel BatchMessage :=
  mk_channel batchCh (λ c m, m <| batchCh := c |>) (λ s, s <| BatchesBroadcast := BatchesBroadcast s + 1 |>).
Definition HeaderMessages : channel HeaderMessage :=
  mk_channel headerCh (λ c m, m <| headerCh := c |>) (λ s, s <| HeadersBroadcast := HeadersBroadcast s + 1 |>).
Definition CertificateMessages : channel CertificateMessage :=
  mk_channel certCh (λ c m, m <| certCh := c |>) (λ s, s <| CertificatesBroadcast := CertificatesBroadcast s + 1 |>).
Definition VoteMessages : channel VoteMessage :=
  mk_channel voteCh (λ c m, m <| voteCh := c |>) (λ s, s <| VotesSent := VotesSent s + 1 |>).
Definition BatchAckMessages : channel BatchAckMessage :=
  mk_channel batchAckCh (λ c m, m <| batchAckCh := c |>) (λ s, s <| BatchAcksSent := BatchAcksSent s + 1 |>).
Definition BatchRequestMessages : channel BatchRequestMessage :=
  mk_channel batchReqCh (λ c m, m <| batchReqCh := c |>) (λ s, s <| BatchRequestsSent := BatchRequestsSent s + 1 |>).
Definition BatchResponseMessages : channel BatchResponseMessage :=
  mk_channel batchRespCh (λ c m, m <| batchRespCh := c |>) (λ s, s <| BatchResponsesSent := BatchResponsesSent s + 1 |>).
Definition SyncRequests : channel SyncRequest :=
  mk_channel syncReqCh (λ c m, m <| syncReqCh := c |>) (λ s, s <| SyncRequestsSent := SyncRequestsSent s + 1 |>).
Definition SyncResponses : channel SyncResponseMessage :=
  mk_channel syncRespCh (λ c m, m <| syncRespCh := c |>) (λ s, s <| SyncResponsesSent := SyncResponsesSent s + 1 |>).

Section sends.
Context {RO : RangeOrder Z Z}.

Definition Mock_BroadcastBatch (batch : Batch) (self : Z) (w : net) : net * option error :=
  broadcast BatchMessages (mk_BatchMessage (Some (Batch_Clone batch))) self w.
Definition Mock_BroadcastHeader (header : Header) (self : Z) (w : net) : net * option error :=
  broadcast HeaderMessages (mk_HeaderMessage (Some (Header_Clone header))) self w.
Definition Mock_BroadcastCertificate (cert : Certificate) (self : Z) (w : net) : net * option error :=
  broadcast CertificateMessages (mk_CertificateMessage (Some (Certificate_Clone cert))) self w.
Definition Mock_SendVote (validator : Z) (vote : Vote) (self : Z) (w : net) : net * option error :=
  send VoteMessages validator (mk_VoteMessage (Some (Vote_Clone vote))) self w.
Definition Mock_SendBatchAck (validator : Z) (ack : BatchAckMessage) (self : Z) (w : net) : net * option error :=
  send BatchAckMessages validator (λ _, ack) self w.
Definition Mock_SendBatchRequest (validator : Z) (req : BatchRequestMessage) (self : Z) (w : net) : net * option error :=
  send BatchRequestMessages validator (λ _, req) self w.
Definition Mock_SendBatchResponse (validator : Z) (resp : BatchResponseMessage) (self : Z) (w : net) : net * option error :=
  send BatchResponseMessages validator (λ _, resp) self w.
Definition Mock_SendSyncRequest (validator : Z) (req : SyncRequest) (self : Z) (w : net) : net * option error :=
  send SyncRequests validator (λ _, req) self w.
Definition Mock_SendSyncResponse (validator : Z) (resp : SyncResponse) (self : Z) (w : net) : net * option error :=
  send SyncResponses validator (mk_SyncResponseMessage (Some resp)) self w.
End sends.

(** Test injection: a full channel drops the message. *)
Definition inject {A} (ch : channel A) (msg : A) (m : MockNetwork) : MockNetwork := default m (offer ch msg m).
Definition InjectBatchMessage : BatchMessage → MockNetwork → MockNetwork := inject BatchMessages.
Definition InjectHeaderMessage : HeaderMessage → MockNetwork → MockNetwork := inject HeaderMessages.
Definition InjectVoteMessage : VoteMessage → MockNetwork → MockNetwork := inject VoteMessages.
Definition InjectCertificateMessage : CertificateMessage → MockNetwork → MockNetwork := inject CertificateMessages.
Definition InjectSyncRequest : SyncRequest → MockNetwork → MockNetwork := inject SyncRequests.
Definition InjectSyncResponse : SyncResponseMessage → MockNetwork → MockNetwork := inject SyncResponses.

Definition Stats (m : MockNetwork) : MockNetworkStats := mn_stats m.
Definition ResetStats (m : MockNetwork) : MockNetwork := m <| mn_stats := no_stats |>.
Definition PeerCount (m : MockNetwork) : Z := zsize (peers m).

(** ** Packets: what is in the channels of an object *)
Inductive packet :=
  | PBatch (msg : BatchMessage)
  | PBatchAck (msg : BatchAckMessage)
  | PBatchRequest (msg : BatchRequestMessage)
  | PBatchResponse (msg : BatchResponseMessage)
  | PHeader (msg : HeaderMessage)
  | PVote (msg : VoteMessage)
  | PCertificate (msg : CertificateMessage)
  | PSyncRequest (req : SyncRequest)
  | PSyncResponse (msg : SyncResponseMessage).

Inductive kind := KBatch | KBatchAck | KBatchRequest | KBatchResponse | KHeader | KVote | KCertificate | KSyncRequest | KSyncResponse.
#[export] Instance kind_eq_dec : EqDecision kind.
Proof. solve_decision. Defined.

Definition buf (k : kind) (m : MockNetwork) : list packet :=
  match k with
  | KBatch => PBatch <$> ch_buf (batchCh m)
  | KBatchAck => PBatchAck <$> ch_buf (batchAckCh m)
  | KBatchRequest => PBatchRequest <$> ch_buf (batchReqCh m)
  | KBatchResponse => PBatchResponse <$> ch_buf (batchRespCh m)
  | KHeader => PHeader <$> ch_buf (headerCh m)
  | KVote => PVote <$> ch_buf (voteCh m)
  | KCertificate => PCertificate <$> ch_buf (certCh m)
  | KSyncRequest => PSyncRequest <$> ch_buf (syncReqCh m)
  | KSyncResponse => PSyncResponse <$> ch_buf (syncRespCh m)
  end.

Definition cap (k : kind) (m : MockNetwork) : Z :=
  match k with
  | KBatch => ch_cap (batchCh m)
  | KBatchAck => ch_cap (batchAckCh m)
  | KBatchRequest => ch_cap (batchReqCh m)
  | KBatchResponse => ch_cap (batchRespCh m)
  | KHeader => ch_cap (headerCh m)
  | KVote => ch_cap (voteCh m)
  | KCertificate => ch_cap (certCh m)
  | KSyncRequest => ch_cap (syncReqCh m)
  | KSyncResponse => ch_cap (syncRespCh m)
  end.

Definition room (k : kind) (m : MockNetwork) : bool := bool_decide (zlen (buf k m) < cap k m).

(** Everything but the channels and the statistics. *)
Definition same_links (m m' : MockNetwork) : Prop :=
  mn_validatorID m' = mn_validatorID m ∧ mn_cfg m' = mn_cfg m ∧ peers m' = peers m ∧
  mn_running m' = mn_running m ∧ mn_stopped m' = mn_stopped m.

(** [m'] is [m] with packets appended to one channel. *)
Record appended (k : kind) (ps : list packet) (m m' : MockNetwork) : Prop := {
  ap_links : same_links m m';
  ap_cap k' : cap k' m' = cap k' m;
  ap_buf k' : buf k' m' = buf k' m ++ if decide (k' = k) then ps else []
}.

Lemma appended_nil k m m' : same_links m m' → (∀ k', cap k' m' = cap k' m) → (∀ k', buf k' m' = buf k' m) → appended k [] m m'.
Proof. intros ? ? Hb. split; [done..|]. intros k'. rewrite Hb. case_decide; by rewrite app_nil_r. Qed.

Lemma appended_refl k m : appended k [] m m.
Proof. by apply appended_nil. Qed.

Lemma appended_trans k ps qs m1 m2 m3 : appended k ps m1 m2 → appended k qs m2 m3 → appended k (ps ++ qs) m1 m3.
Proof.
  intros [(?&?&?&?&?) Hc Hb] [(?&?&?&?&?) Hc' Hb']. split.
  - unfold same_links. split_and!; congruence.
  - intros k'. by rewrite Hc', Hc.
  - intros k'. rewrite Hb', Hb. case_decide; by rewrite <-app_assoc.
Qed.

(** A channel of the source is the channel of its kind. *)
Record tagged {A} (ch : channel A) (k : kind) (tag : A → packet) : Prop := {
  tg_offer msg m : offer ch msg m = None ∧ room k m = false ∨
    room k m = true ∧ ∃ m', offer ch msg m = Some m' ∧ appended k [tag msg] m m';
  tg_count m : appended k [] m (count_message ch m)
}.

Ltac tag_channel ch :=
  split;
  [ intros msg m; unfold offer, try_send, room, ch; cbn [cget cput buf cap]; rewrite length_fmap;
    case_bool_decide; [right|by left]; split; [done|]; eexists; split; [reflexivity|];
    split; [done|by intros []|intros []]; cbn; rewrite ?fmap_app, ?app_nil_r; reflexivity
  | intros m; apply appended_nil; by try intros [] ].

Lemma batch_tagged : tagged BatchMessages KBatch PBatch.
Proof. tag_channel BatchMessages. Qed.
Lemma ack_tagged : tagged BatchAckMessages KBatchAck PBatchAck.
Proof. tag_channel BatchAckMessages. Qed.
Lemma request_tagged : tagged BatchRequestMessages KBatchRequest PBatchRequest.
Proof. tag_channel BatchRequestMessages. Qed.
Lemma response_tagged : tagged BatchResponseMessages KBatchResponse PBatchResponse.
Proof. tag_channel BatchResponseMessages. Qed.
Lemma header_tagged : tagged HeaderMessages KHeader PHeader.
Proof. tag_channel HeaderMessages. Qed.
Lemma vote_tagged : tagged VoteMessages KVote PVote.
Proof. tag_channel VoteMessages. Qed.
Lemma certificate_tagged : tagged CertificateMessages KCertificate PCertificate.
Proof. tag_channel CertificateMessages. Qed.
Lemma sync_request_tagged : tagged SyncRequests KSyncRequest PSyncRequest.
Proof. tag_channel SyncRequests. Qed.
Lemma sync_response_tagged : tagged SyncResponses KSyncResponse PSyncResponse.
Proof. tag_channel SyncResponses. Qed.

(** ** What a node hands to its network *)
(** [onBatchRequest] of the node, with its network set. *)
Definition onBatchRequest (me validator : Z) (digest : Hash) (self : Z) (w : net) : net * option error :=
  Mock_SendBatchRequest validator (mk_BatchRequestMessage digest me) self w.

Definition transmit {RO : RangeOrder Z Z} (msg : message) (me self : Z) (w : net) : net * option error :=
  match msg with
  | BroadcastBatch batch => Mock_BroadcastBatch batch self w
  | BroadcastHeader header => Mock_BroadcastHeader header self w
  | BroadcastCertificate cert => Mock_BroadcastCertificate cert self w
  | SendVote to vote => Mock_SendVote to vote self w
  | SendBatchAck to ack => Mock_SendBatchAck to ack self w
  | SendBatchRequest to digest => onBatchRequest me to digest self w
  | SendBatchResponse to resp => Mock_SendBatchResponse to resp self w
  | SendSyncRequest to req => Mock_SendSyncRequest to req self w
  | SendSyncResponse to resp => Mock_SendSyncResponse to resp self w
  | CertQuorumCallback _ => (w, None)
  end.

(** The packet of a message, given the node that sends it and the validator of
    its network object. *)
Definition packet_of (msg : message) (me id : Z) : option (kind * packet) :=
  match msg with
  | BroadcastBatch batch => Some (KBatch, PBatch (mk_BatchMessage (Some batch) id))
  | BroadcastHeader header => Some (KHeader, PHeader (mk_HeaderMessage (Some header) id))
  | BroadcastCertificate cert => Some (KCertificate, PCertificate (mk_CertificateMessage (Some cert) id))
  | SendVote _ vote => Some (KVote, PVote (mk_VoteMessage (Some vote) id))
  | SendBatchAck _ ack => Some (KBatchAck, PBatchAck ack)
  | SendBatchRequest _ digest => Some (KBatchRequest, PBatchRequest (mk_BatchRequestMessage digest me))
  | SendBatchResponse _ resp => Some (KBatchResponse, PBatchResponse resp)
  | SendSyncRequest _ req => Some (KSyncRequest, PSyncRequest req)
  | SendSyncResponse _ resp => Some (KSyncResponse, PSyncResponse (mk_SyncResponseMessage (Some resp) id))
  | CertQuorumCallback _ => None
  end.

(** The validator a message is for; [None] is every peer. *)
Definition destination (msg : message) : option Z :=
  match msg with
  | SendVote to _ | SendBatchAck to _ | SendBatchRequest to _ | SendBatchResponse to _ | SendSyncRequest to _
  | SendSyncResponse to _ => Some to
  | _ => None
  end.

(** The addresses of the peers a message of the object goes to. *)
Definition recipients (msg : message) (m : MockNetwork) : list Z :=
  match destination msg with
  | Some to => option_list (peers m !! to)
  | None => (map_to_list (peers m)).*2
  end.

(** The objects refer to each other by the right validators and in both
    directions, and no channel holds more than the configured number. *)
Record net_ok (w : net) : Prop := {
  nk_id a b m n : w !! a = Some m → w !! b = Some n → mn_validatorID m = mn_validatorID n → a = b;
  nk_sym a m id b : w !! a = Some m → peers m !! id = Some b →
    ∃ n, w !! b = Some n ∧ mn_validatorID n = id ∧ peers n !! mn_validatorID m = Some a;
  nk_cap a m k : w !! a = Some m → cap k m = BufferSize (mn_cfg m);
  nk_bound a m k : w !! a = Some m → zlen (buf k m) ≤ BufferSize (mn_cfg m)
}.

(** A change of channels only. *)
Definition grown (k : kind) (w w' : net) (ps : Z → list packet) : Prop :=
  ∀ a, match w !! a, w' !! a with
       | Some m, Some m' => appended k (ps a) m m'
       | None, None => True
       | _, _ => False
       end.

Lemma grown_same k w w' ps a m : grown k w w' ps → w !! a = Some m → ∃ m', w' !! a = Some m' ∧ appended k (ps a) m m'.
Proof. intros H E. specialize (H a). rewrite E in H. destruct (w' !! a) as [m'|]; [|done]. eauto. Qed.
Lemma grown_back k w w' ps a m' : grown k w w' ps → w' !! a = Some m' → ∃ m, w !! a = Some m ∧ appended k (ps a) m m'.
Proof. intros H E. specialize (H a). rewrite E in H. destruct (w !! a) as [m|]; [|done]. eauto. Qed.

Lemma grown_ok k w w' ps :
  grown k w w' ps → net_ok w →
  (∀ a m, w !! a = Some m → zlen (buf k m) + zlen (ps a) ≤ BufferSize (mn_cfg m)) → net_ok w'.
Proof.
  intros Hg [H1 H2 H3 H4] Hlen. split.
  - intros a b m n (m0 & Ea & [(Em & _) _ _])%(grown_back _ _ _ _ _ _ Hg) (n0 & Eb & [(En & _) _ _])%(grown_back _ _ _ _ _ _ Hg) E.
    eapply H1; [done..|congruence].
  - intros a m id b (m0 & Ea & [(Em & _ & Ep & _) _ _])%(grown_back _ _ _ _ _ _ Hg) E. rewrite Ep in E.
    destruct (H2 a m0 id b Ea E) as (n & En & Hid & Hp).
    destruct (grown_same _ _ _ _ _ _ Hg En) as (n' & En' & [(Hid' & _ & Hp' & _) _ _]).
    exists n'. split_and!; [done|congruence|congruence].
  - intros a m k' (m0 & Ea & [(_ & Ec & _) Hc _])%(grown_back _ _ _ _ _ _ Hg). rewrite Hc, Ec. by eapply H3.
  - intros a m k' (m0 & Ea & [(_ & Ec & _) Hc Hb])%(grown_back _ _ _ _ _ _ Hg). rewrite Hb, Ec, length_app.
    specialize (H4 a m0 k' Ea). specialize (Hlen a m0 Ea). case_decide; [subst; lia|cbn; lia].
Qed.

Lemma grown_trans k w1 w2 w3 ps qs : grown k w1 w2 ps → grown k w2 w3 qs → grown k w1 w3 (λ a, ps a ++ qs a).
Proof.
  intros H1 H2 a. specialize (H1 a). specialize (H2 a). destruct (w1 !! a), (w2 !! a), (w3 !! a); try done.
  by eapply appended_trans.
Qed.

Lemma grown_update k w a f ps :
  (∀ m, w !! a = Some m → appended k ps m (f m)) → grown k w (update a f w) (λ b, if decide (b = a) then ps else []).
Proof.
  intros Hf b. unfold update. case_decide as E.
  - subst. rewrite lookup_alter_eq. specialize (Hf). destruct (w !! a); cbn; [by apply Hf|done].
  - rewrite lookup_alter_ne by done. destruct (w !! b); [apply appended_refl|done].
Qed.
Lemma grown_ext k w w' ps qs : (∀ a, is_Some (w !! a) → ps a = qs a) → grown k w w' ps → grown k w w' qs.
Proof. intros He Hg a. specialize (Hg a). destruct (w !! a) eqn:E; [|done]. by rewrite <-He by by rewrite E. Qed.

Section spec.
Context {RO : RangeOrder Z Z} {A : Type} (ch : channel A) (k : kind) (tag : A → packet) (Ht : tagged ch k tag).

(** What a full or absent channel lets through. *)
Definition arriving (msg : A) (w : net) (a : Z) : list packet :=
  match w !! a with Some m => if room k m then [tag msg] else [] | None => [] end.

Lemma offer_appended msg m :
  appended k (if room k m then [tag msg] else []) m (default m (offer ch msg m)).
Proof using Ht.
  destruct (tg_offer _ _ _ Ht msg m) as [[-> ->]|(-> & m' & -> & H)]; [apply appended_refl|done].
Qed.

Lemma offer_all_grown msg targets w :
  NoDup targets.*2 →
  grown k w (offer_all ch msg targets w) (λ a, if decide (a ∈ targets.*2) then arriving msg w a else []).
Proof using Ht.
  revert w. induction targets as [|[id a] targets IH]; intros w; cbn [offer_all]; rewrite ?fmap_cons; cbn [snd].
  { intros _ b. destruct (w !! b); [|done]. rewrite decide_False by apply not_elem_of_nil. apply appended_refl. }
  intros [Hn Hnd]%NoDup_cons. set (w1 := update a _ w).
  assert (grown k w w1 (λ b, if decide (b = a) then arriving msg w a else [])) as H1.
  { apply grown_update. intros m Em. unfold arriving. rewrite Em. apply offer_appended. }
  specialize (IH w1 Hnd). eapply grown_ext; [|eapply grown_trans; [exact H1|exact IH]].
  intros b [m Em]. cbn. destruct (decide (b = a)) as [->|Hne].
  - rewrite (decide_False (P := a ∈ targets.*2)) by done. rewrite decide_True by left. apply app_nil_r.
  - cbn. unfold arriving, w1, update. rewrite lookup_alter_ne by done. apply decide_ext. rewrite elem_of_cons. naive_solver.
Qed.

Lemma room_count m : room k (count_message ch m) = room k m.
Proof using Ht.
  destruct (tg_count _ _ _ Ht m) as [_ Hc Hb]. unfold room. rewrite Hc, Hb. case_decide; by rewrite app_nil_r.
Qed.

Lemma peers_NoDup w a m : net_ok w → w !! a = Some m → NoDup (range (peers m)).*2.
Proof.
  intros Hok Em. assert (∀ p q, p ∈ range (peers m) → q ∈ range (peers m) → p.2 = q.2 → p = q) as Hinj.
  { intros [i x] [j y] Hp%elem_of_range Hq%elem_of_range. cbn. intros ->.
    destruct (nk_sym _ Hok _ _ _ _ Em Hp) as (n & En & Ei & _), (nk_sym _ Hok _ _ _ _ Em Hq) as (n' & En' & Ej & _).
    congruence. }
  apply NoDup_fmap_2_strong; [intros; by apply Hinj|]. apply (NoDup_fmap_1 fst). rewrite range_perm. apply NoDup_fst_map_to_list.
Qed.

(** [broadcast] and [send] on every branch. *)
Lemma broadcast_spec mk self w m :
  net_ok w → w !! self = Some m → mn_running m = true →
  let r := broadcast ch mk self w in
  r.2 = None ∧ grown k w r.1 (λ a, if decide (a ∈ (map_to_list (peers m)).*2) then arriving (mk (mn_validatorID m)) w a else []).
Proof using Ht.
  intros Hok Em Er. unfold broadcast. rewrite Em, Er. split; [done|]. cbn [fst].
  set (w1 := update self _ w).
  assert (grown k w w1 (λ a, if decide (a = self) then [] else [])) as H1 by (apply grown_update; intros; apply Ht).
  pose proof (offer_all_grown (mk (mn_validatorID m)) (range (peers m)) w1 (peers_NoDup _ _ _ Hok Em)) as H2.
  eapply grown_ext; [|eapply grown_trans; [exact H1|exact H2]]. intros a [n En]. cbn.
  assert (arriving (mk (mn_validatorID m)) w1 a = arriving (mk (mn_validatorID m)) w a) as ->.
  { unfold arriving, w1, update. destruct (decide (a = self)) as [->|]; [|by rewrite lookup_alter_ne].
    rewrite lookup_alter_eq, En. cbn. by rewrite room_count. }
  assert (a ∈ (range (peers m)).*2 ↔ a ∈ (map_to_list (peers m)).*2) as E by (by rewrite range_perm).
  case_decide; cbn; by apply decide_ext.
Qed.

Lemma send_spec to mk self w m :
  net_ok w → w !! self = Some m → mn_running m = true →
  let r := send ch to mk self w in
  match peers m !! to with
  | None => r.2 = Some ErrValidatorNotFound ∧ grown k w r.1 (λ _, [])
  | Some a => ∃ p, w !! a = Some p ∧ r.2 = (if room k p then None else Some ErrMempoolFull) ∧
      grown k w r.1 (λ b, if decide (b = a) then arriving (mk (mn_validatorID m)) w a else [])
  end.
Proof using Ht.
  intros Hok Em Er. unfold send. rewrite Em, Er. set (w1 := update self _ w).
  assert (grown k w w1 (λ _, [])) as H1.
  { eapply grown_ext; [|apply grown_update; intros; apply Ht]. intros; cbn. by case_decide. }
  destruct (peers m !! to) as [a|] eqn:Ea; [|done].
  destruct (nk_sym _ Hok _ _ _ _ Em Ea) as (p & Ep & _). exists p. split; [done|].
  destruct (grown_same _ _ _ _ _ _ H1 Ep) as (p' & Ep' & Hp'). rewrite Ep'. cbn.
  assert (room k p' = room k p) as Hroom.
  { destruct Hp' as [_ Hc Hb]. unfold room. rewrite Hc, Hb. case_decide; by rewrite app_nil_r. }
  unfold arriving. rewrite Ep. destruct (tg_offer _ _ _ Ht (mk (mn_validatorID m)) p') as [[-> Hr]|(Hr & p'' & -> & Hp'')];
    rewrite <-Hroom, Hr; (split; [done|]); cbn.
  - eapply grown_ext; [|exact H1]. intros; cbn. by case_decide.
  - intros b. destruct (decide (b = a)) as [->|Hne].
    + rewrite lookup_insert_eq, Ep. by eapply (appended_trans _ [] _ _ p').
    + rewrite lookup_insert_ne by done. exact (H1 b).
Qed.
End spec.

Section transmission.
Context {RO : RangeOrder Z Z}.

(** What arrives of a packet at an address. *)
Definition fits_in (k : kind) (p : packet) (w : net) (a : Z) : list packet :=
  match w !! a with Some n => if room k n then [p] else [] | None => [] end.

(** The error of a message: only a message to one validator has one. *)
Definition send_error (msg : message) (k : kind) (m : MockNetwork) (w : net) : option error :=
  match destination msg with
  | None => None
  | Some to =>
      match peers m !! to ≫= λ a, w !! a with
      | None => Some ErrValidatorNotFound
      | Some n => if room k n then None else Some ErrMempoolFull
      end
  end.

Lemma transmit_spec msg me self w m k p :
  net_ok w → w !! self = Some m → packet_of msg me (mn_validatorID m) = Some (k, p) →
  let r := transmit msg me self w in
  if mn_running m then
    r.2 = send_error msg k m w ∧
    grown k w r.1 (λ a, if decide (a ∈ recipients msg m) then fits_in k p w a else [])
  else r = (w, Some ErrNotRunning).
Proof.
  intros Hok Em Ep.
  assert (mn_running m = false → transmit msg me self w = (w, Some ErrNotRunning)) as Hoff.
  { intros Er. destruct msg; try done; cbn [transmit];
      unfold onBatchRequest, Mock_BroadcastBatch, Mock_BroadcastHeader, Mock_BroadcastCertificate, Mock_SendVote, Mock_SendBatchAck,
        Mock_SendBatchRequest, Mock_SendBatchResponse, Mock_SendSyncRequest, Mock_SendSyncResponse, broadcast, send;
      by rewrite Em, Er. }
  assert (∀ A (ch : channel A) tag x, tagged ch k tag → tag x = p → fits_in k p w = arriving k tag x w) as Hfit.
  { intros A ch tag x _ <-. done. }
  assert (∀ A (ch : channel A) tag mk, tagged ch k tag → tag (mk (mn_validatorID m)) = p → mn_running m = true →
    let r := broadcast ch mk self w in
    r.2 = None ∧ grown k w r.1 (λ a, if decide (a ∈ (map_to_list (peers m)).*2) then fits_in k p w a else [])) as Hb.
  { intros A ch tag mk Ht E Er. rewrite (Hfit _ _ _ _ Ht E). by apply (broadcast_spec ch k tag Ht). }
  assert (∀ A (ch : channel A) tag mk to, tagged ch k tag → tag (mk (mn_validatorID m)) = p → mn_running m = true →
    let r := send ch to mk self w in
    r.2 = match peers m !! to ≫= λ a, w !! a with
          | None => Some ErrValidatorNotFound | Some n => if room k n then None else Some ErrMempoolFull end ∧
    grown k w r.1 (λ a, if decide (a ∈ option_list (peers m !! to)) then fits_in k p w a else [])) as Hs.
  { intros A ch tag mk to Ht E Er. rewrite (Hfit _ _ _ _ Ht E). pose proof (send_spec ch k tag Ht to mk self w m Hok Em Er) as H.
    cbn zeta in H |- *. destruct (peers m !! to) as [a|]; cbn [mbind option_bind option_list].
    - destruct H as (n & -> & H2 & H3). split; [done|]. eapply grown_ext; [|exact H3]. intros b _. cbn.
      destruct (decide (b = a)) as [->|]; [by rewrite decide_True by by left|].
      rewrite decide_False; [done|]. by rewrite list_elem_of_singleton.
    - destruct H as [H2 H3]. split; [done|]. eapply grown_ext; [|exact H3]. intros b _. cbn. done. }
  destruct (mn_running m) eqn:Er; [|by apply Hoff].
  destruct msg; cbn [packet_of] in Ep; try done; injection Ep as <- <-; unfold send_error, recipients;
    cbn [transmit destination].
  - apply (Hb _ _ _ _ batch_tagged); [|done]. by rewrite Batch_Clone_eq.
  - apply (Hb _ _ _ _ header_tagged); [|done]. by rewrite Header_Clone_eq.
  - apply (Hb _ _ _ _ certificate_tagged); [|done]. by rewrite Certificate_Clone_eq.
  - apply (Hs _ _ _ _ _ vote_tagged); [|done]. by rewrite Vote_Clone_eq.
  - by apply (Hs _ _ _ _ _ ack_tagged).
  - by apply (Hs _ _ _ _ _ request_tagged).
  - by apply (Hs _ _ _ _ _ response_tagged).
  - by apply (Hs _ _ _ _ _ sync_request_tagged).
  - by apply (Hs _ _ _ _ _ sync_response_tagged).
Qed.

Lemma transmit_ok msg me self w : net_ok w → net_ok (transmit msg me self w).1.
Proof.
  intros Hok. destruct (w !! self) as [m|] eqn:Em.
  - destruct (packet_of msg me (mn_validatorID m)) as [[k p]|] eqn:Ep; [|by destruct msg].
    pose proof (transmit_spec msg me self w m k p Hok Em Ep) as H. destruct (mn_running m); [|by rewrite H].
    destruct H as [_ Hg]. eapply grown_ok; [exact Hg|done|]. intros a n En.
    pose proof (nk_bound _ Hok a n k En). pose proof (nk_cap _ Hok a n k En).
    cbn beta. case_decide; [|cbn; lia]. unfold fits_in. rewrite En. unfold room. case_bool_decide; cbn; lia.
  - destruct msg; try done; cbn [transmit];
      unfold onBatchRequest, Mock_BroadcastBatch, Mock_BroadcastHeader, Mock_BroadcastCertificate, Mock_SendVote, Mock_SendBatchAck,
        Mock_SendBatchRequest, Mock_SendBatchResponse, Mock_SendSyncRequest, Mock_SendSyncResponse, broadcast, send;
      by rewrite Em.
Qed.
End transmission.

(** ** Receiving *)
Definition receive_packet (k : kind) (m : MockNetwork) : option (packet * MockNetwork) :=
  match k with
  | KBatch => (λ '(x, c), (PBatch x, m <| batchCh := c |>)) <$> receive (batchCh m)
  | KBatchAck => (λ '(x, c), (PBatchAck x, m <| batchAckCh := c |>)) <$> receive (batchAckCh m)
  | KBatchRequest => (λ '(x, c), (PBatchRequest x, m <| batchReqCh := c |>)) <$> receive (batchReqCh m)
  | KBatchResponse => (λ '(x, c), (PBatchResponse x, m <| batchRespCh := c |>)) <$> receive (batchRespCh m)
  | KHeader => (λ '(x, c), (PHeader x, m <| headerCh := c |>)) <$> receive (headerCh m)
  | KVote => (λ '(x, c), (PVote x, m <| voteCh := c |>)) <$> receive (voteCh m)
  | KCertificate => (λ '(x, c), (PCertificate x, m <| certCh := c |>)) <$> receive (certCh m)
  | KSyncRequest => (λ '(x, c), (PSyncRequest x, m <| syncReqCh := c |>)) <$> receive (syncReqCh m)
  | KSyncResponse => (λ '(x, c), (PSyncResponse x, m <| syncRespCh := c |>)) <$> receive (syncRespCh m)
  end.

(** First in, first out. *)
Lemma receive_packet_spec k m :
  match receive_packet k m with
  | None => buf k m = []
  | Some (p, m') => same_links m m' ∧ buf k m = p :: buf k m' ∧ (∀ k', cap k' m' = cap k' m) ∧
      (∀ k', k' ≠ k → buf k' m' = buf k' m)
  end.
Proof.
  destruct k; cbn [receive_packet buf]; unfold receive;
    (match goal with |- context [match ch_buf ?c with _ => _ end] => destruct (ch_buf c) eqn:E end;
     [done|cbn; split_and!; [done|done|by intros []|by intros []]]).
Qed.

(** ** Life of a network *)
Inductive net_op :=
  | NConnect (a b : Z) | NDisconnect (a validatorID : Z) | NStart (a : Z) | NStop (a : Z)
  | NTransmit (a me : Z) (msg : message) | NReceive (a : Z) (k : kind) | NInject (a : Z) (p : packet) | NResetStats (a : Z).

Definition inject_packet (p : packet) (m : MockNetwork) : MockNetwork :=
  match p with
  | PBatch msg => InjectBatchMessage msg m
  | PHeader msg => InjectHeaderMessage msg m
  | PVote msg => InjectVoteMessage msg m
  | PCertificate msg => InjectCertificateMessage msg m
  | PSyncRequest req => InjectSyncRequest req m
  | PSyncResponse msg => InjectSyncResponse msg m
  | PBatchAck _ | PBatchRequest _ | PBatchResponse _ => m
  end.

(** One operation; [None] is a panic. *)
Definition net_exec {RO : RangeOrder Z Z} (w : net) (op : net_op) : option net :=
  match op with
  | NConnect a b => Some (Connect a b w)
  | NDisconnect a id => Some (Disconnect a id w)
  | NStart a => Some (update a (λ m, (Mock_Start m).1) w)
  | NStop a =>
      match w !! a with
      | None => Some w
      | Some m => (λ r, <[a := r.1]> w) <$> Mock_Stop m
      end
  | NTransmit a me msg => Some (transmit msg me a w).1
  | NReceive a k =>
      match w !! a ≫= receive_packet k with
      | Some (_, m) => Some (<[a := m]> w)
      | None => Some w
      end
  | NInject a p => Some (update a (inject_packet p) w)
  | NResetStats a => Some (update a ResetStats w)
  end.

Fixpoint net_run {RO : RangeOrder Z Z} (w : net) (ops : list net_op) : option net :=
  match ops with [] => Some w | op :: ops' => net_exec w op ≫= λ w, net_run w ops' end.

(** Fresh objects of different validators, at the address of their number. *)
Definition fresh_net (cfg : NetConfig) (ids : list Z) : net :=
  list_to_map (omap (λ id, (λ m, (id, m)) <$> NewMockNetwork id cfg) ids).

Section life.
Context {RO : RangeOrder Z Z}.

(** An object changed without touching its links, its channels at most shorter
    or by one packet that fits. *)
Lemma update_ok w a f :
  net_ok w → (∀ m, w !! a = Some m → (mn_validatorID (f m) = mn_validatorID m ∧ mn_cfg (f m) = mn_cfg m ∧ peers (f m) = peers m) ∧
    ∀ k, cap k (f m) = cap k m ∧ zlen (buf k (f m)) ≤ BufferSize (mn_cfg m)) → net_ok (update a f w).
Proof.
  intros [H1 H2 H3 H4] Hf.
  assert (∀ b n, update a f w !! b = Some n → ∃ n0, w !! b = Some n0 ∧ mn_validatorID n = mn_validatorID n0 ∧
    mn_cfg n = mn_cfg n0 ∧ peers n = peers n0 ∧ ∀ k, cap k n = cap k n0 ∧ zlen (buf k n) ≤ BufferSize (mn_cfg n0)) as Hback.
  { intros b n. unfold update. destruct (decide (b = a)) as [->|Hne].
    - rewrite lookup_alter_eq. destruct (w !! a) as [m|] eqn:Em; [|done]. intros [= <-]. exists m.
      destruct (Hf m eq_refl) as [(?&?&?) ?]. auto.
    - rewrite lookup_alter_ne by done. intros En. exists n. split_and!; [done..|]. intros k. split; [done|by eapply H4]. }
  assert (∀ b n, w !! b = Some n → ∃ n', update a f w !! b = Some n' ∧ mn_validatorID n' = mn_validatorID n ∧ peers n' = peers n) as Hfwd.
  { intros b n En. unfold update. destruct (decide (b = a)) as [->|Hne].
    - rewrite lookup_alter_eq, En. destruct (Hf n En) as [(?&_&?) _]. eexists. split_and!; [done..|]. done.
    - rewrite lookup_alter_ne by done. eauto. }
  split.
  - intros b c m n (m0 & Em & Ei & _)%Hback (n0 & En & Ej & _)%Hback E. eapply H1; [done..|congruence].
  - intros b m id c (m0 & Em & Ei & _ & Ep & _)%Hback E. rewrite Ep in E. destruct (H2 _ _ _ _ Em E) as (n & En & Hid & Hp).
    destruct (Hfwd _ _ En) as (n' & En' & Ei' & Ep'). exists n'. split_and!; [done|congruence|congruence].
  - intros b m k (m0 & Em & _ & Ec & _ & Hk)%Hback. destruct (Hk k) as [-> _]. rewrite Ec. by eapply H3.
  - intros b m k (m0 & Em & _ & Ec & _ & Hk)%Hback. destruct (Hk k) as [_ ?]. by rewrite Ec.
Qed.

Lemma insert_ok w a m m' :
  net_ok w → w !! a = Some m → mn_validatorID m' = mn_validatorID m → mn_cfg m' = mn_cfg m → peers m' = peers m →
  (∀ k, cap k m' = cap k m ∧ zlen (buf k m') ≤ BufferSize (mn_cfg m)) → net_ok (<[a := m']> w).
Proof.
  intros Hok Em ? ? ? ?. replace (<[a := m']> w) with (update a (λ _, m') w).
  - apply update_ok; [done|]. intros n En. assert (n = m) as -> by congruence. auto.
  - unfold update. apply map_eq. intros b. destruct (decide (b = a)) as [->|Hne].
    + by rewrite lookup_alter_eq, lookup_insert_eq, Em.
    + by rewrite lookup_alter_ne, lookup_insert_ne.
Qed.

(** A change of links only. *)
Record relinked (w w' : net) (link : Z → gmap Z Z → gmap Z Z) : Prop := {
  rl_fwd a m : w !! a = Some m → ∃ m', w' !! a = Some m' ∧ mn_validatorID m' = mn_validatorID m ∧ mn_cfg m' = mn_cfg m ∧
    peers m' = link a (peers m) ∧ ∀ k, cap k m' = cap k m ∧ buf k m' = buf k m;
  rl_back a m' : w' !! a = Some m' → is_Some (w !! a)
}.

Lemma relinked_ok w w' link :
  net_ok w → relinked w w' link →
  (∀ a m id b, w !! a = Some m → link a (peers m) !! id = Some b →
    ∃ n, w !! b = Some n ∧ mn_validatorID n = id ∧ link b (peers n) !! mn_validatorID m = Some a) → net_ok w'.
Proof.
  intros [H1 H2 H3 H4] [Hf Hb] Hl.
  assert (∀ a m', w' !! a = Some m' → ∃ m, w !! a = Some m ∧ mn_validatorID m' = mn_validatorID m ∧ mn_cfg m' = mn_cfg m ∧
    peers m' = link a (peers m) ∧ ∀ k, cap k m' = cap k m ∧ buf k m' = buf k m) as Hback.
  { intros a m' E'. destruct (Hb a m' E') as [m Em]. exists m. destruct (Hf a m Em) as (m'' & E'' & H).
    assert (m'' = m') as -> by congruence. done. }
  split.
  - intros b c m n (m0 & Em & Ei & _)%Hback (n0 & En & Ej & _)%Hback E. eapply H1; [done..|congruence].
  - intros a m id b (m0 & Em & Ei & _ & Ep & _)%Hback E. rewrite Ep in E. destruct (Hl _ _ _ _ Em E) as (n & En & Hid & Hp).
    destruct (Hf _ _ En) as (n' & En' & Ei' & _ & Ep' & _). exists n'. split_and!; congruence.
  - intros b m k (m0 & Em & _ & Ec & _ & Hk)%Hback. destruct (Hk k) as [-> _]. rewrite Ec. by eapply H3.
  - intros b m k (m0 & Em & _ & Ec & _ & Hk)%Hback. destruct (Hk k) as [_ ->]. rewrite Ec. by eapply H4.
Qed.

Lemma relink_twice w a b f g :
  relinked w (update b (λ m, m <| peers := g (peers m) |>) (update a (λ m, m <| peers := f (peers m) |>) w))
    (λ x ps, let ps := if decide (x = a) then f ps else ps in if decide (x = b) then g ps else ps).
Proof.
  unfold update. split.
  - intros x m Em. cbn. destruct (decide (x = b)) as [->|Hb].
    + rewrite lookup_alter_eq. destruct (decide (b = a)) as [->|Ha].
      * rewrite lookup_alter_eq, Em. cbn. eexists. split_and!; [done..|]. by intros [].
      * rewrite lookup_alter_ne, Em by done. cbn. eexists. split_and!; [done..|]. by intros [].
    + rewrite lookup_alter_ne by done. destruct (decide (x = a)) as [->|Ha].
      * rewrite lookup_alter_eq, Em. cbn. eexists. split_and!; [done..|]. by intros [].
      * rewrite lookup_alter_ne, Em by done. cbn. eexists. split_and!; [done..|]. by intros [].
  - intros x m' E. apply elem_of_dom. apply elem_of_dom_2 in E. by rewrite !dom_alter in E.
Qed.

Lemma Connect_ok a b w : net_ok w → net_ok (Connect a b w).
Proof.
  intros Hok. unfold Connect. destruct (w !! a) as [ma|] eqn:Ea; [|done]. destruct (w !! b) as [mb|] eqn:Eb; [|done].
  eapply relinked_ok; [done|apply relink_twice|]. cbn beta.
  assert (∀ x m id y, w !! x = Some m →
    ((let ps := if decide (x = a) then <[mn_validatorID mb := b]> (peers m) else peers m in
      if decide (x = b) then <[mn_validatorID ma := a]> ps else ps) !! id = Some y ↔
    peers m !! id = Some y ∨ (x = a ∧ id = mn_validatorID mb ∧ y = b) ∨ (x = b ∧ id = mn_validatorID ma ∧ y = a))) as Hl.
  { intros x m id y Em. cbn zeta.
    assert (∀ z mz, w !! z = Some mz → peers m !! mn_validatorID mz = Some y → y = z) as Hold.
    { intros z mz Ez E. destruct (nk_sym _ Hok _ _ _ _ Em E) as (n & En & Hi & _). by apply (nk_id _ Hok y z n mz). }
    assert (∀ z mz (ps : gmap Z Z), w !! z = Some mz → (ps !! mn_validatorID mz = Some y → y = z) →
      <[mn_validatorID mz := z]> ps !! id = Some y ↔ ps !! id = Some y ∨ (id = mn_validatorID mz ∧ y = z)) as Hins.
    { intros z mz ps Ez Hz. rewrite lookup_insert_Some. destruct (decide (mn_validatorID mz = id)) as [<-|]; [|naive_solver].
      split; [naive_solver|]. intros [E|[_ ->]]; [left; split; [done|by symmetry; apply Hz]|by left]. }
    destruct (decide (x = b)) as [Hxb|Hxb], (decide (x = a)) as [Hxa|Hxa].
    - rewrite Hins; [|done|]. { rewrite Hins by eauto. naive_solver. }
      rewrite lookup_insert_Some. assert (mb = ma) as -> by congruence. assert (a = b) by congruence. naive_solver.
    - rewrite Hins by eauto. naive_solver.
    - rewrite Hins by eauto. naive_solver.
    - naive_solver. }
  intros x m id y Em E. apply (Hl x m id y Em) in E as [E|[(-> & -> & ->)|(-> & -> & ->)]].
  - destruct (nk_sym _ Hok _ _ _ _ Em E) as (n & En & Hi & Hp). exists n. split_and!; [done..|]. apply Hl; [done|by left].
  - exists mb. split_and!; [done..|]. apply Hl; [done|]. right. right. split_and!; [done| |done]. congruence.
  - exists ma. split_and!; [done..|]. apply Hl; [done|]. right. left. split_and!; [done| |done]. congruence.
Qed.

Lemma Disconnect_ok a id w : net_ok w → net_ok (Disconnect a id w).
Proof.
  intros Hok. unfold Disconnect. destruct (w !! a) as [ma|] eqn:Ea; [|done].
  destruct (peers ma !! id) as [b|] eqn:Eb.
  - destruct (nk_sym _ Hok _ _ _ _ Ea Eb) as (mb & Emb & Hib & Hpb). eapply relinked_ok; [done|apply relink_twice|]. cbn beta.
    assert (∀ x (ps : gmap Z Z) j y,
      (let ps := if decide (x = a) then delete id ps else ps in if decide (x = b) then delete (mn_validatorID ma) ps else ps) !! j = Some y ↔
      ps !! j = Some y ∧ ¬ (x = a ∧ j = id) ∧ ¬ (x = b ∧ j = mn_validatorID ma)) as Hl.
    { intros x ps j y. cbn zeta. destruct (decide (x = b)), (decide (x = a)); rewrite ?lookup_delete_Some; naive_solver. }
    intros x m j y Em E. apply Hl in E as (E & Hn1 & Hn2). destruct (nk_sym _ Hok _ _ _ _ Em E) as (n & En & Hi & Hp).
    exists n. split_and!; [done..|]. apply Hl. split_and!; [done| |].
    + intros [-> Hid]. apply Hn2. split; [|congruence]. apply (nk_id _ Hok x b m mb); congruence.
    + intros [-> Hid]. apply Hn1. split; [|congruence]. apply (nk_id _ Hok x a m ma); congruence.
  - apply update_ok; [done|]. intros m Em. assert (m = ma) as -> by congruence. split; [split_and!; [done..|]|].
    + cbn. by apply delete_id.
    + intros k. split; [by destruct k|]. pose proof (nk_bound _ Hok _ _ k Ea). by destruct k.
Qed.

Lemma inject_ok p w a : net_ok w → net_ok (update a (inject_packet p) w).
Proof.
  intros Hok. apply update_ok; [done|]. intros m Em.
  assert (∀ A (ch : channel A) k tag x, tagged ch k tag → let m' := inject ch x m in
    (mn_validatorID m' = mn_validatorID m ∧ mn_cfg m' = mn_cfg m ∧ peers m' = peers m) ∧
    ∀ k, cap k m' = cap k m ∧ zlen (buf k m') ≤ BufferSize (mn_cfg m)) as H.
  { intros A ch k tag x Ht. unfold inject. destruct (offer_appended ch k tag Ht x m) as [(?&?&?&?&?) Hc Hb].
    split; [done|]. intros k'. split; [done|]. pose proof (nk_bound _ Hok _ _ k' Em) as Hl. pose proof (nk_cap _ Hok _ _ k Em) as Hc'.
    rewrite Hb, length_app. case_decide; [subst|cbn; lia]. unfold room. case_bool_decide; cbn; lia. }
  assert ((mn_validatorID m = mn_validatorID m ∧ mn_cfg m = mn_cfg m ∧ peers m = peers m) ∧
    ∀ k, cap k m = cap k m ∧ zlen (buf k m) ≤ BufferSize (mn_cfg m)) as H0.
  { split; [done|]. intros k. split; [done|]. by apply (nk_bound _ Hok a). }
  destruct p; cbn [inject_packet]; try exact H0;
    [by apply (H _ _ _ _ _ batch_tagged)|by apply (H _ _ _ _ _ header_tagged)|by apply (H _ _ _ _ _ vote_tagged)|
     by apply (H _ _ _ _ _ certificate_tagged)|by apply (H _ _ _ _ _ sync_request_tagged)|by apply (H _ _ _ _ _ sync_response_tagged)].
Qed.

Lemma net_exec_ok w op w' : net_ok w → net_exec w op = Some w' → net_ok w'.
Proof.
  intros Hok. destruct op as [a b|a id|a|a|a me msg|a k|a p|a]; cbn [net_exec].
  - intros [= <-]. by apply Connect_ok.
  - intros [= <-]. by apply Disconnect_ok.
  - intros [= <-]. apply update_ok; [done|]. intros m Em. split; [done|]. intros k. pose proof (nk_bound _ Hok _ _ k Em). by destruct k.
  - destruct (w !! a) as [m|] eqn:Em; [|by intros [= <-]]. unfold Mock_Stop.
    pose proof (λ k, nk_bound _ Hok _ _ k Em) as Hb.
    destruct (mn_running m); [destruct (mn_stopped m); [done|]|]; cbn; intros [= <-].
    + eapply insert_ok; [done..|]. intros k. split; [by destruct k|]. specialize (Hb k). by destruct k.
    + by rewrite insert_id.
  - intros [= <-]. by apply transmit_ok.
  - destruct (w !! a) as [m|] eqn:Em; cbn; [|by intros [= <-]].
    pose proof (receive_packet_spec k m) as H. destruct (receive_packet k m) as [[p m']|]; [|by intros [= <-]]. intros [= <-].
    destruct H as ((?&?&?&?&?) & Hp & Hc & Hb). eapply insert_ok; [done..|]. intros k'. split; [done|].
    pose proof (nk_bound _ Hok _ _ k' Em) as Hl. destruct (decide (k' = k)) as [->|]; [|by rewrite Hb].
    rewrite Hp in Hl. cbn in Hl. lia.
  - intros [= <-]. by apply inject_ok.
  - intros [= <-]. apply update_ok; [done|]. intros m Em. split; [done|]. intros k. pose proof (nk_bound _ Hok _ _ k Em). by destruct k.
Qed.

Lemma net_run_ok w ops w' : net_ok w → net_run w ops = Some w' → net_ok w'.
Proof.
  revert w. induction ops as [|op ops IH]; intros w Hok; cbn [net_run]; [by intros [= <-]|].
  destruct (net_exec w op) as [w1|] eqn:E; [|done]. cbn. apply IH. by eapply net_exec_ok.
Qed.

Lemma fresh_net_lookup cfg ids a m : NoDup ids → fresh_net cfg ids !! a = Some m → NewMockNetwork a cfg = Some m.
Proof.
  intros Hnd. unfold fresh_net. intros H%elem_of_list_to_map_2. apply list_elem_of_omap in H as (id & _ & E).
  destruct (NewMockNetwork id cfg) as [m'|] eqn:Em; [|done]. injection E as -> ->. done.
Qed.

Lemma fresh_net_ok cfg ids : NoDup ids → net_ok (fresh_net cfg ids).
Proof.
  intros Hnd. assert (∀ a m, fresh_net cfg ids !! a = Some m → mn_validatorID m = a ∧ peers m = ∅ ∧
    ∀ k, cap k m = BufferSize (mn_cfg m) ∧ zlen (buf k m) ≤ BufferSize (mn_cfg m)) as H.
  { intros a m E%fresh_net_lookup; [|done]. revert E. unfold NewMockNetwork. case_bool_decide; [done|]. intros [= <-].
    split_and!; [done..|]. intros []; cbn; lia. }
  split.
  - intros a b m n (<- & _)%H (<- & _)%H. done.
  - intros a m id b (_ & E & _)%H. by rewrite E, lookup_empty.
  - intros a m k (_ & _ & Hk)%H. apply Hk.
  - intros a m k (_ & _ & Hk)%H. apply Hk.
Qed.
End life.

(** C40. The mock network delivers, in every state that fresh objects of different
    validators reach by connecting, disconnecting, starting, stopping, sending,
    injecting and receiving: a message of a running object is appended, once and
    behind what was there, to the right channel of every connected peer it is
    for whose channel has room, and nothing else of any object changes but the
    counters; a broadcast never fails, a message to one validator fails exactly
    when that validator is not connected or its channel is full; channels stay
    within the configured size and connections symmetric.  A stopped object sends
    nothing. *)
Theorem mock_network_delivers {RO : RangeOrder Z Z} cfg ids ops w msg me self m k p :
  NoDup ids → net_run (fresh_net cfg ids) ops = Some w → w !! self = Some m →
  packet_of msg me (mn_validatorID m) = Some (k, p) →
  let r := transmit msg me self w in
  if mn_running m then
    r.2 = send_error msg k m w ∧
    ∀ a n, w !! a = Some n → ∃ n', r.1 !! a = Some n' ∧ same_links n n' ∧
      (∀ k', buf k' n' = buf k' n ++ if decide (k' = k ∧ a ∈ recipients msg m ∧ room k n = true) then [p] else []) ∧
      (∀ k', zlen (buf k' n') ≤ BufferSize (mn_cfg n')) ∧
      (a ∈ recipients msg m → peers n' !! mn_validatorID m = Some self)
  else r = (w, Some ErrNotRunning).
Proof.
  intros Hnd Hrun Em Ep. pose proof (net_run_ok _ _ _ (fresh_net_ok cfg ids Hnd) Hrun) as Hok.
  pose proof (transmit_spec msg me self w m k p Hok Em Ep) as H. pose proof (transmit_ok msg me self w Hok) as Hok'.
  cbn zeta in H |- *. destruct (mn_running m); [|done]. destruct H as [H2 Hg]. split; [done|]. intros a n En.
  destruct (grown_same _ _ _ _ _ _ Hg En) as (n' & En' & [Hl Hc Hb]). exists n'. split_and!; [done|done| | |].
  - intros k'. rewrite Hb. f_equal. unfold fits_in. rewrite En.
    destruct (decide (k' = k)), (decide (a ∈ recipients msg m)), (room k n);
      first [rewrite decide_True by done|rewrite decide_False by naive_solver]; done.
  - intros k'. by apply (nk_bound _ Hok' a).
  - intros Hin. assert (∃ id, peers m !! id = Some a) as [id Hid].
    { revert Hin. unfold recipients. destruct (destination msg) as [to|].
      - destruct (peers m !! to) as [b|] eqn:E; cbn; [|by intros ?%not_elem_of_nil]. intros ->%list_elem_of_singleton. eauto.
      - intros ([id b] & -> & Hb'%elem_of_map_to_list)%list_elem_of_fmap. eauto. }
    destruct (nk_sym _ Hok _ _ _ _ Em Hid) as (n0 & En0 & _ & Hp). assert (n0 = n) as -> by congruence.
    by destruct Hl as (_ & _ & -> & _).
Qed.

(** ** Closed examples *)
#[local] Existing Instance range_sorted.
Module MockExample.
Definition cfg : NetConfig := mk_NetConfig 1 100 30000.
Definition vote : Vote := mk_Vote [7] 0 [].
(** Validators 0, 1 and 2, the first connected to the others. *)
Definition ops : list net_op := [NConnect 0 1; NConnect 0 2; NStart 0; NTransmit 0 0 (SendVote 1 vote)].
Definition state : net := default ∅ (net_run (fresh_net cfg [0; 1; 2]) ops).
Definition sender : MockNetwork := default (mk_MockNetwork 0 cfg (make_chan 0) (make_chan 0) (make_chan 0) (make_chan 0)
  (make_chan 0) (make_chan 0) (make_chan 0) (make_chan 0) (make_chan 0) ∅ false false no_stats) (state !! 0).
End MockExample.

Lemma mock_network_delivers_witness :
  mn_running MockExample.sender = true ∧
  (transmit (SendVote 1 MockExample.vote) 0 0 MockExample.state).2 = Some ErrMempoolFull ∧
  (transmit (SendVote 2 MockExample.vote) 0 0 MockExample.state).2 = None ∧
  (transmit (SendVote 3 MockExample.vote) 0 0 MockExample.state).2 = Some ErrValidatorNotFound ∧
  let r := transmit (SendVote 2 MockExample.vote) 0 0 MockExample.state in
  ∃ n', r.1 !! 2 = Some n' ∧ buf KVote n' = [PVote (mk_VoteMessage (Some MockExample.vote) 0)].
Proof.
  assert (NoDup [0; 1; 2]) as Hnd by (apply (bool_decide_eq_true_1 (NoDup _)); by vm_compute).
  assert (∀ msg k p, packet_of msg 0 (mn_validatorID MockExample.sender) = Some (k, p) →
    let r := transmit msg 0 0 MockExample.state in
    r.2 = send_error msg k MockExample.sender MockExample.state ∧
    ∀ a n, MockExample.state !! a = Some n → ∃ n', r.1 !! a = Some n' ∧ same_links n n' ∧
      (∀ k', buf k' n' = buf k' n ++ if decide (k' = k ∧ a ∈ recipients msg MockExample.sender ∧ room k n = true) then [p] else []) ∧
      (∀ k', zlen (buf k' n') ≤ BufferSize (mn_cfg n')) ∧
      (a ∈ recipients msg MockExample.sender → peers n' !! mn_validatorID MockExample.sender = Some 0)) as H.
  { intros msg k p. apply (mock_network_delivers MockExample.cfg [0; 1; 2] MockExample.ops MockExample.state msg 0 0
      MockExample.sender k p Hnd); by vm_compute. }
  split; [by vm_compute|]. split_and!.
  - destruct (H (SendVote 1 MockExample.vote) _ _ eq_refl) as [-> _]. by vm_compute.
  - destruct (H (SendVote 2 MockExample.vote) _ _ eq_refl) as [-> _]. by vm_compute.
  - destruct (H (SendVote 3 MockExample.vote) _ _ eq_refl) as [-> _]. by vm_compute.
  - destruct (H (SendVote 2 MockExample.vote) _ _ eq_refl) as [_ H'].
    assert (∃ n, MockExample.state !! 2 = Some n ∧ buf KVote n = [] ∧ room KVote n = true) as (n & En & Eb & Er)
      by (vm_compute; eexists; done).
    destruct (H' 2 n En) as (n' & En' & _ & Hb & _). exists n'. split; [exact En'|].
    rewrite Hb, Eb, decide_True; [done|]. split_and!; [done| |done]. by vm_compute; left.
Defined.

(** A network that was stopped and started again panics when it is stopped: its
    stop channel is closed twice. *)
Example second_stop_panics :
  net_run (fresh_net MockExample.cfg [0]) [NStart 0; NStop 0; NStart 0; NStop 0] = None.
Proof. by vm_compute. Qed.
