(* ===== verification/Locks.v ===== *)
(** The lock of the node ([l.mu] of looseberry.go), a [sync.RWMutex]: goroutines
    are sequences of lock operations and a schedule interleaves them.  A writer
    that waits keeps new readers out, so a goroutine that takes the read lock a
    second time waits for the writer, and the writer for it
    ([handleVoteMessage] with [onCertificateFormed], against [NotifyCommitted]);
    goroutines that never take the lock twice cannot block each other for good. *)
From S2P Require Import Prelude.
Local Open Scope nat_scope.

(** The operations; [Acquire] is the second half of [Lock], when the writer has
    announced itself and waits for the readers. *)
Inductive lock_op := RLock | RUnlock | Lock | Acquire | Unlock.
#[export] Instance lock_op_eq_dec : EqDecision lock_op.
Proof. solve_decision. Defined.

Record RWMutex := mk_RWMutex {
  readers : nat;    (* read locks held *)
  announced : bool; (* a writer holds the lock or waits for the readers *)
  writing : bool    (* a writer holds the lock *)
}.
Definition unlocked : RWMutex := mk_RWMutex 0 false false.

(** One operation; [None] when it has to wait. *)
Definition lock_exec (op : lock_op) (m : RWMutex) : option RWMutex :=
  match op with
  | RLock => if announced m then None else Some (mk_RWMutex (S (readers m)) (announced m) (writing m))
  | RUnlock => match readers m with O => None | S n => Some (mk_RWMutex n (announced m) (writing m)) end
  | Lock => if announced m then None else Some (mk_RWMutex (readers m) true (writing m))
  | Acquire => match readers m with O => Some (mk_RWMutex 0 (announced m) true) | S _ => None end
  | Unlock => if writing m then Some (mk_RWMutex (readers m) false false) else None
  end.

(** A goroutine is the lock operations it still has to perform. *)
Abbreviation goroutine := (list lock_op).
Definition lock_state : Type := RWMutex * list goroutine.

(** Goroutine [i] goes on, if it can. *)
Definition lock_step (i : nat) (s : lock_state) : option lock_state :=
  match s.2 !! i with
  | Some (op :: rest) =>
      match lock_exec op s.1 with
      | None => None
      | Some m => Some (m, <[i := match op with Lock => Acquire :: rest | _ => rest end]> s.2)
      end
  | _ => None
  end.

(** A schedule names the goroutine that goes on next; one that cannot waits. *)
Definition schedule (ids : list nat) (s : lock_state) : lock_state :=
  fold_left (λ s i, default s (lock_step i s)) ids s.

Definition finished (s : lock_state) : Prop := Forall (λ g : goroutine, g = []) s.2.
Definition stuck (s : lock_state) : Prop := ∀ i, lock_step i s = None.

(** ** What the handlers do with the lock *)

(** [onCertificateFormed] reads the observer under the read lock. *)
Definition onCertificateFormed_locks : goroutine := [RLock; RUnlock].
(** [handleVoteMessage] holds the read lock while the primary handles the vote;
    the vote that completes a quorum runs [onCertificateFormed] in between. *)
Definition handleVoteMessage_locks (quorum : bool) : goroutine :=
  [RLock] ++ (if quorum then onCertificateFormed_locks else []) ++ [RUnlock].
Definition NotifyCommitted_locks : goroutine := [Lock; Unlock].

(** The vote that completes a quorum and a commit that arrives between the two
    read locks: both wait for good, and so does every later handler. *)
Example nested_read_lock_deadlocks :
  let s := schedule [0; 1] (unlocked, [handleVoteMessage_locks true; NotifyCommitted_locks; handleVoteMessage_locks false]) in
  stuck s ∧ ¬ finished s.
Proof.
  split.
  - intros i. do 3 (destruct i as [|i]; [by vm_compute|]). by destruct i.
  - by inversion 1.
Qed.

(** ** Goroutines that never take the lock twice *)
Inductive section := Reading | Writing.
Definition section_ops (x : section) : goroutine :=
  match x with Reading => [RLock; RUnlock] | Writing => [Lock; Unlock] end.
Definition sections (l : list section) : goroutine := concat (map section_ops l).

(** Where such a goroutine can be. *)
Inductive flat : goroutine → Prop :=
  | flat_outside l : flat (sections l)
  | flat_reading l : flat (RUnlock :: sections l)
  | flat_waiting l : flat (Acquire :: Unlock :: sections l)
  | flat_writing l : flat (Unlock :: sections l).

Definition reads (g : goroutine) : nat := match g with RUnlock :: _ => 1 | _ => 0 end.
Definition writes (g : goroutine) : nat := match g with Acquire :: _ | Unlock :: _ => 1 | _ => 0 end.
Definition total (f : goroutine → nat) (gs : list goroutine) : nat := foldr (λ g n, f g + n) 0 gs.

Lemma total_insert f gs i g g' : gs !! i = Some g → total f (<[i := g']> gs) + f g = total f gs + f g'.
Proof.
  revert i. induction gs as [|h gs IH]; intros [|i] E; try done; cbn in E.
  - injection E as ->. cbn. lia.
  - specialize (IH i E). change (<[S i := g']> (h :: gs)) with (h :: <[i := g']> gs). cbn [total foldr]. unfold total in IH. lia.
Qed.

Lemma total_pos f gs : total f gs ≠ 0 ↔ ∃ i g, gs !! i = Some g ∧ f g ≠ 0.
Proof.
  induction gs as [|h gs IH]; unfold total in *; cbn.
  - split; [lia|]. by intros (i & g & E & _); rewrite lookup_nil in E.
  - split.
    + intros H. destruct (decide (f h = 0)) as [E|]; [|by exists 0, h].
      destruct IH as [(i & g & ? & ?) _]; [lia|]. by exists (S i), g.
    + intros ([|i] & g & E & Hg); [injection E as ->; lia|]. destruct IH as [_ H]. specialize (H (ex_intro _ i (ex_intro _ g (conj E Hg)))). lia.
Qed.

Lemma total_lookup f gs i g : gs !! i = Some g → f g ≤ total f gs.
Proof.
  revert i. induction gs as [|h gs IH]; intros [|i] E; try done; cbn in E.
  - injection E as ->. cbn. lia.
  - specialize (IH i E). unfold total in *. cbn [foldr]. lia.
Qed.

(** The readers counted are those inside, at most one goroutine writes or is
    about to, and the flags say which. *)
Record locks_ok (s : lock_state) : Prop := {
  lk_flat : Forall flat s.2;
  lk_readers : readers s.1 = total reads s.2;
  lk_announced : total writes s.2 = if announced s.1 then 1 else 0;
  lk_writing i g : s.2 !! i = Some (Unlock :: g) → writing s.1 = true
}.

Lemma sections_quiet l : reads (sections l) = 0 ∧ writes (sections l) = 0 ∧ ∀ g, sections l ≠ Unlock :: g.
Proof. by destruct l as [|[] l]. Qed.

Lemma locks_ok_step i s s' : locks_ok s → lock_step i s = Some s' → locks_ok s'.
Proof.
  intros [Hf Hr Hw Hx] E. destruct s as [m gs]. unfold lock_step in E. cbn [fst snd] in *.
  destruct (gs !! i) as [g|] eqn:Eg; [|done]. pose proof (Forall_lookup_1 _ _ _ _ Hf Eg) as Hg.
  assert (∀ m' g', flat g' → readers m' + reads g = readers m + reads g' →
    (if announced m' then 1 else 0) + writes g = (if announced m then 1 else 0) + writes g' →
    (∀ g'', g' = Unlock :: g'' → writing m' = true) →
    (∀ j g'', <[i := g']> gs !! j = Some (Unlock :: g'') → j ≠ i → writing m' = true) →
    locks_ok (m', <[i := g']> gs)) as Hok.
  { intros m' g' H1 H2 H3 H4 H5. pose proof (total_insert reads gs i g g' Eg). pose proof (total_insert writes gs i g g' Eg).
    split; cbn [fst snd]; [by apply Forall_insert|lia|lia|]. intros j g'' Ej. destruct (decide (j = i)) as [->|]; [|by eapply H5].
    rewrite list_lookup_insert_eq in Ej by by eapply lookup_lt_Some. injection Ej as Ej. by eapply H4. }
  assert (∀ m' g', writing m' = writing m →
    ∀ j g'', <[i := g']> gs !! j = Some (Unlock :: g'') → j ≠ i → writing m' = true) as Hsame.
  { intros m' g' -> j g'' Ej Hne. rewrite list_lookup_insert_ne in Ej by done. by eapply Hx. }
  destruct Hg as [l|l|l|l].
  - destruct l as [|[] l]; [done| |]; cbn in E; destruct (announced m) eqn:Ea; try done; injection E as <-; apply Hok; cbn; try done; first [constructor | by apply Hsame].
  - destruct (sections_quiet l) as (Q1 & Q2 & Q3). cbn in E. destruct (readers m) eqn:En; [done|]. injection E as <-.
    apply Hok; cbn; [constructor|lia|lia|by intros ? ?%Q3|by apply Hsame].
  - cbn in E. destruct (readers m) eqn:En; [|done]. injection E as <-. apply Hok; cbn; [constructor|lia|lia|done|done].
  - destruct (sections_quiet l) as (Q1 & Q2 & Q3). cbn in E. destruct (writing m) eqn:Ew; [|done]. injection E as <-.
    pose proof (total_lookup writes gs i _ Eg) as Hle. cbn in Hle. destruct (announced m) eqn:Ea; [|lia].
    apply Hok; cbn; [constructor|lia|lia|by intros ? ?%Q3|]. intros j g'' Ej Hne.
    pose proof (total_insert writes gs i _ (sections l) Eg) as Hi. pose proof (total_lookup writes _ _ _ Ej) as Hj. cbn in Hi, Hj. lia.
Qed.

Lemma locks_ok_schedule ids s : locks_ok s → locks_ok (schedule ids s).
Proof.
  revert s. induction ids as [|i ids IH]; intros s Hs; [done|]. cbn. apply IH. destruct (lock_step i s) eqn:E; [|done].
  by apply (locks_ok_step i s).
Qed.

Lemma locks_ok_start ls : locks_ok (unlocked, sections <$> ls).
Proof.
  assert (∀ f, (∀ l, f (sections l) = 0) → total f (sections <$> ls) = 0) as H0.
  { intros f Hf. unfold total. induction ls as [|l ls IH]; [done|]. cbn. by rewrite Hf. }
  split; cbn [fst snd unlocked readers announced writing].
  - apply Forall_fmap, Forall_true. intros l. constructor.
  - by rewrite H0 by apply sections_quiet.
  - by rewrite H0 by apply sections_quiet.
  - intros i g E. rewrite list_lookup_fmap in E. destruct (ls !! i) as [l|]; [|done]. injection E as E.
    by apply (proj2 (proj2 (sections_quiet l))) in E.
Qed.

(** Goroutines that take the lock in sections that do not overlap never block each
    other for good: in every state that any schedule reaches, some goroutine can
    go on unless all have finished. *)
Theorem sections_never_stuck ids ls :
  let s := schedule ids (unlocked, sections <$> ls) in stuck s → finished s.
Proof.
  intros s Hs. pose proof (locks_ok_schedule ids _ (locks_ok_start ls)) as Hok. fold s in Hok. clearbody s.
  destruct Hok as [Hf Hr Hw Hx], s as [m gs]. unfold stuck, lock_step in Hs. cbn [fst snd] in *.
  assert (total reads gs = 0) as Hr0.
  { destruct (decide (total reads gs = 0)) as [|Hn]; [done|]. pose proof Hn as (i & g & Eg & Hg)%total_pos.
    specialize (Hs i). rewrite Eg in Hs. destruct g as [|[] g]; try done. cbn in Hs. destruct (readers m); [congruence|done]. }
  assert (total writes gs = 0) as Hw0.
  { destruct (decide (total writes gs = 0)) as [|Hn]; [done|]. apply total_pos in Hn as (i & g & Eg & Hg).
    specialize (Hs i). rewrite Eg in Hs. destruct g as [|[] g]; try done; cbn in Hs.
    - rewrite Hr0 in Hr. by rewrite Hr in Hs.
    - by rewrite (Hx i g Eg) in Hs. }
  assert (announced m = false) as Ea by (destruct (announced m); [lia|done]).
  apply Forall_lookup. intros i g Eg. cbn [snd] in Eg. pose proof (Forall_lookup_1 _ _ _ _ Hf Eg) as Hg. specialize (Hs i). rewrite Eg in Hs.
  destruct g as [|op g]; [done|exfalso].
  pose proof (total_lookup reads gs i _ Eg). pose proof (total_lookup writes gs i _ Eg).
  destruct op; cbn in *; rewrite ?Ea in Hs; try done; lia.
Qed.

(** Without the second read lock, as [onHeaderCreated] is written, the same
    handlers cannot deadlock. *)
Example single_read_lock_never_stuck ids :
  let s := schedule ids (unlocked, [handleVoteMessage_locks false; NotifyCommitted_locks; handleVoteMessage_locks false]) in
  stuck s → finished s.
Proof. exact (sections_never_stuck ids [[Reading]; [Writing]; [Reading]]). Qed.
