(* ===== verification/NodeRun.v ===== *)
(** The life of a node: one iteration of each of its loops (the message loop of
    looseberry.go, the header loop of the primary, the batch, scaling, sync,
    fetcher and collection loops), with the case its [select] takes as an
    argument, and the operations of its users between them.  An invariant of
    every step of a node in a fixed validator set: its stores and its DAG are
    consistent, every certificate it holds verifies, and everything it sends is
    valid, whatever its peers send except certificate messages that do not
    verify. *)
From S2P Require Import Prelude Bytes Sha256 Errors Types Batch Header BitSet Certificate Store TxIndex.
From S2P Require Import Dag DagHistory VoteTracker Primary BatchFetcher Heap AckTracker Worker Pool Flow Gc Sync.
From S2P Require Import Config Scaler Looseberry Messages MockNetwork.
Local Open Scope Z_scope.

Section loops.
Context `{Ed : Ed25519} {S B I : Type} {CS : CertificateStore S} {BS : BatchStore B} {TI : TxIndex I}.
Context {RV : RangeOrder Z Vote} {RP : RangeOrder Hash PendingHeader} {RO : RangeOrder Hash Certificate}.
Context {RC : RangeOrder Z Certificate} {RH : RangeOrder Hash Z} {RB : RangeOrder Hash PendingBatch}.
Context {RS : RangeOrder Z pendingSyncRequest} {RF : RangeOrder Hash pendingBatchRequest}.
Context (validator : option (Transaction → result TxAdmission)).
Implicit Types l : Looseberry S B I.

(** One iteration of [messageLoop], with the message received; [None] when the
    handler does not end. *)
Definition messageLoop (now : Z) (p : packet) l : option (Looseberry S B I * list message) :=
  match p with
  | PBatch msg => Some (handleBatchMessage now (BM_Batch msg) (BM_From msg) l)
  | PHeader msg => Some (handleHeaderMessage now (HM_Header msg) l)
  | PVote msg => Some (handleVoteMessage now (VM_Vote msg) l)
  | PCertificate msg => (λ l, (l, [])) <$> handleCertificateMessage (CM_Certificate msg) l
  | PBatchAck msg => Some (handleBatchAckMessage now (Some msg) l, [])
  | PBatchRequest req => Some (l, handleBatchRequestMessage (BQ_BatchDigest req) (BQ_Requester req) l)
  | PBatchResponse resp => Some (handleBatchResponseMessage now resp l)
  | PSyncRequest req => (λ out, (l, out)) <$> handleSyncRequest req l
  | PSyncResponse msg =>
      match SM_Response msg with
      | None => Some (l, [])
      | Some resp => (λ l, (l, [])) <$> handleSyncResponse resp (SM_From msg) l
      end
  end.

(** [headerLoop] of the primary: its ticker or its cleanup ticker. *)
Definition headerLoop (cleanup : bool) (now : Z) l : Looseberry S B I * list message :=
  if cleanup then (l <| primaryNode := cleanupPendingVotes now (primaryNode l) |>, []) else header_tick now l.

(** [syncLoop] of the sync manager; [send] says which requests the network
    takes. *)
Definition syncLoop (timeout : bool) (send : Z → SyncRequest → option error) (now : Z) l : Looseberry S B I * list message :=
  let '(s, reqs) :=
    if timeout then Sync.cleanupTimedOutRequests (validatorIndex l) now (syncManager l)
    else checkAndSync (validatorIndex l) send now (highestRound (nodeDag l)) (syncManager l) in
  (l <| syncManager := s |>, (λ r, SendSyncRequest r.1 r.2) <$> reqs).

(** [cleanupLoop] of the batch fetcher; it releases no header. *)
Definition fetcherLoop (now : Z) l : Looseberry S B I * list message :=
  let '(f, outs) := BatchFetcher.cleanupTimedOutRequests now (batchFetcher l) in
  (l <| batchFetcher := cleanupTimedOutHeaders now f |>,
   omap (λ o, match o with FetchRequest v d => Some (SendBatchRequest v d) | FetchReady _ => None end) outs).

(** [cleanupLoop] of the acknowledgement tracker of a worker. *)
Definition ackLoop (now : Z) (i : nat) l : Looseberry S B I :=
  let p := workerPool l in
  match workers p !! i with
  | None => l
  | Some w => l <| workerPool := p <| workers := <[i := w <| ackTracker := (AT_RemoveTimedOut now (ackTracker w)).1 |>]> (workers p) |> |>
  end.

(** [rebroadcastLoop] *)
Definition rebroadcastLoop (send : Z → SyncRequest → option error) (now : Z) l : Looseberry S B I * list message :=
  let '(l, out) := rebroadcastIfStuck now l in
  let '(l, out') := syncIfStuck send now l in (l, out ++ out').

(** [performGC] on the node: the recovery callback runs between the recovery and
    the pruning. *)
Definition collect (gcRound : Z) l : Looseberry S B I * option error :=
  let '(g, w, txs) := recover_phase (RecoverUncommittedTxs (gc_cfg (gcManager l))) gcRound (gcManager l) (gc_world l) in
  let l := put_world w (l <| gcManager := g |>) in
  let l := put_pool (onTxRecovered validator txs (pool_of l)) l in
  let '(g, w, err) := prune_phase gcRound (gcManager l) (gc_world l) in
  (put_world w (l <| gcManager := g |>), err).

(** [gcLoop] of the collector. *)
Definition gcLoop l : Looseberry S B I :=
  let gcRound := calculateGCRound (gcManager l) in
  if bool_decide (gcRound > 0) then
    match collect gcRound l with
    | (l, Some _) => l <| gcManager := (gcManager l) <| totalGCFailures := u64 (totalGCFailures (gcManager l) + 1) |> |>
    | (l, None) => l <| gcManager := (gcManager l) <| totalGCRuns := u64 (totalGCRuns (gcManager l) + 1) |> |>
    end
  else l.

(** What happens to a running node. *)
Inductive event :=
  | EMessage (p : packet)
  | EHeaderLoop (cleanup : bool)
  | EBatchLoop (worker : nat)
  | EScale
  | ESync (timeout : bool) (send : Z → SyncRequest → option error)
  | EFetcher
  | EAcks (worker : nat)
  | ERebroadcast (send : Z → SyncRequest → option error)
  | EGC
  | EAddTx (tx : Transaction)
  | ECommitted (round : Z)
  | EFlush
  | ECatchUpPeerCerts
  | ERequestPeerCatchUp (send : Z → SyncRequest → option error) (peer : Z)
  | ESetCertQuorumCallback (installed : bool).

Definition node_step (now : Z) (e : event) l : option (Looseberry S B I * list message) :=
  match e with
  | EMessage p => messageLoop now p l
  | EHeaderLoop cleanup => Some (headerLoop cleanup now l)
  | EBatchLoop i => Some (batch_tick now i l)
  | EScale => Some (scale_tick validator now l)
  | ESync timeout send => Some (syncLoop timeout send now l)
  | EFetcher => Some (fetcherLoop now l)
  | EAcks i => Some (ackLoop now i l, [])
  | ERebroadcast send => Some (rebroadcastLoop send now l)
  | EGC => Some (gcLoop l, [])
  | EAddTx t => Some ((AddTx validator t l).1, [])
  | ECommitted round => Some (NotifyCommitted validator now round l, [])
  | EFlush => Some (Flush now l)
  | ECatchUpPeerCerts => (λ out, (l, out)) <$> CatchUpPeerCerts l
  | ERequestPeerCatchUp send peer => Some (RequestPeerCatchUp send now peer l)
  | ESetCertQuorumCallback b => Some (SetCertQuorumCallback b l, [])
  end.
End loops.

(** ** The certificate store of a primary changes by what it forms *)
Section formed.
Context `{Ed : Ed25519} {S B : Type} {CS : CertificateStore S} {BS : BatchStore B}.
Context {RV : RangeOrder Z Vote} {RP : RangeOrder Hash PendingHeader}.
Implicit Types p : Primary S B.

Definition formed (os : list Primary.output) : list Certificate :=
  omap (λ o, match o with OutCertificate c => Some c | _ => None end) os.
Definition save_all (certs : list Certificate) (s : S) : S := fold_left (λ s c, (SaveCertificate c s).1) certs s.

Lemma formed_app a b : formed (a ++ b) = formed a ++ formed b.
Proof. apply omap_app. Qed.

Lemma record_pending_store now d q votes p :
  let r := record_pending now d q votes p in p_certStore r.1 = save_all (formed r.2) (p_certStore p).
Proof.
  revert p. induction votes as [|v votes IH]; intros p; cbn [record_pending]; [done|].
  assert (p_certStore (record_vote now v q p).1 = p_certStore p) as E.
  { unfold record_vote. by destruct (RecordVote _ _ _ _). }
  destruct (record_vote now v q p) as [p' [c|]]; cbn [fst] in E.
  - cbn. by rewrite E.
  - cbn zeta in IH. by rewrite IH, E.
Qed.

Lemma processPendingVotes_store now d p :
  let r := processPendingVotes now d p in p_certStore r.1 = save_all (formed r.2) (p_certStore p).
Proof. unfold processPendingVotes. destruct (_ !! d) as [e|]; [|done].
  exact (record_pending_store now d _ (pe_votes e) (p <| pendingVotes := delete d (pendingVotes p) |>)). Qed.

Lemma tryAdvanceRound_store p : p_certStore (tryAdvanceRound p).1 = p_certStore p.
Proof. unfold tryAdvanceRound. destruct (GetCertificatesByRound _ _); [|done]. by case_bool_decide. Qed.

Lemma build_header_store now digests p :
  let r := build_header now digests p in p_certStore r.1 = save_all (formed r.2) (p_certStore p).
Proof.
  unfold build_header. destruct (_ && _ && _); [done|]. destruct (Header_Sign _ _) as [h|]; [|done].
  set (p1 := p <| voteTracker := _ |>). change (p_certStore p) with (p_certStore p1). clearbody p1.
  assert (∀ p2 out1, p_certStore p2 = save_all (formed out1) (p_certStore p1) →
    let r := let '(p3, out2) := processPendingVotes now (Digest h) p2 in (p3, out1 ++ out2 ++ [OutHeader h]) in
    p_certStore r.1 = save_all (formed r.2) (p_certStore p1)) as Hfin.
  { intros p2 out1 E. pose proof (processPendingVotes_store now (Digest h) p2) as H.
    destruct (processPendingVotes now (Digest h) p2) as [p3 out2]. cbn [fst snd] in *.
    rewrite !formed_app. change (formed [OutHeader h]) with (@nil Certificate). rewrite app_nil_r, H, E.
    unfold save_all. by rewrite fold_left_app. }
  destruct (Vote_Sign _ _) as [v|]; [|by apply Hfin].
  assert (p_certStore (record_vote now v (Quorum (validatorSet p1)) p1).1 = p_certStore p1) as E.
  { unfold record_vote. by destruct (RecordVote _ _ _ _). }
  destruct (record_vote now v _ p1) as [p2 [c|]]; cbn [fst] in E; [|by apply Hfin].
  apply Hfin. rewrite tryAdvanceRound_store. cbn. by rewrite E.
Qed.

Lemma tryCreateHeader_store hasAck now arrived p :
  let r := tryCreateHeader hasAck now arrived p in p_certStore r.1 = save_all (formed r.2) (p_certStore p).
Proof.
  unfold tryCreateHeader. destruct (negb _); [done|]. destruct (_ && _); [done|].
  case_bool_decide; [|exact (build_header_store now [] (p <| batchDigests := [] |> <| batchDigests := [] ++ arrived |>))].
  destruct (split_ready _ _ _ _ _) as [ready remaining].
  set (p' := if bool_decide _ then _ else _).
  replace (p_certStore p) with (p_certStore p') by (unfold p'; by case_bool_decide). apply build_header_store.
Qed.

Lemma HandleVote_store now v p :
  let r := HandleVote now v p in p_certStore r.1.1 = save_all (formed r.1.2) (p_certStore p).
Proof.
  unfold HandleVote. destruct v as [v|]; [|done]. destruct (negb _); [done|]. destruct (GetByIndex _ _); [|done].
  destruct (negb _); [done|]. destruct (negb _); [done|].
  assert (p_certStore (record_vote now v (Quorum (validatorSet p)) p).1 = p_certStore p) as E.
  { unfold record_vote. by destruct (RecordVote _ _ _ _). }
  destruct (record_vote now v _ p) as [p' [c|]]; cbn [fst] in E; [|done]. cbn. by rewrite E.
Qed.
End formed.

(** ** The stores of a pool *)
Section pool_stores.
Context {I B : Type} {TI : TxIndex I} {BS : BatchStore B} {BL : BatchStoreLaws B} {TL : TxIndexLaws I}.
Context (validator : option (Transaction → result TxAdmission)).
Implicit Types p : Pool I B.

Definition stores_ok (store : option B) (index : option I) : Prop :=
  (∀ b, store = Some b → bs_ok b) ∧ index_ok index.

Lemma tryCreateBatch_stores now store index w :
  stores_ok store index → let r := tryCreateBatch (B := B) (I := I) now store index w in stores_ok (c_store r) (c_index r).
Proof.
  intros [Hb Hi]. unfold tryCreateBatch, finishBatch. case_bool_decide; [done|]. destruct (take_txs w) as [w' chosen].
  set (batch := NewBatch _ _ _ _ _).
  assert (∃ err, match store with Some s => let '(s, err) := SaveBatch batch s in (Some s, err) | None => (None, None) end =
    (match store with Some s => Some (SaveBatch batch s).1 | None => None end, err)) as [err ->].
  { destruct store as [s|]; [|by eexists]. destruct (SaveBatch batch s). by eexists. }
  assert (∀ b, match store with Some s => Some (SaveBatch batch s).1 | None => None end = Some b → bs_ok b) as Hb'.
  { destruct store as [s|]; [|done]. intros b [= <-]. by apply bs_save, Hb. }
  destruct err; [done|]. destruct (RecordAck _ _ _ _) as [[t ?] ?]. cbn. split; [done|].
  destruct index as [i|]; [|done]. by apply ix_add.
Qed.

Lemma Worker_Stop_stores now store index w :
  stores_ok store index → let r := (Worker.Stop (B := B) (I := I) now store index w).1 in stores_ok (c_store r) (c_index r).
Proof.
  intros H. unfold Worker.Stop. destruct (w_running w); [|done]. cbn. by apply tryCreateBatch_stores.
Qed.

Lemma stop_workers_stores now ws store index :
  stores_ok store index → let '(store', index', _) := stop_workers (B := B) (I := I) now ws store index in stores_ok store' index'.
Proof.
  revert store index. induction ws as [|w ws IH]; intros store index H; cbn [stop_workers]; [done|].
  pose proof (Worker_Stop_stores now store index w H) as Hw. destruct (Worker.Stop now store index w) as [r ?]. cbn in Hw.
  specialize (IH _ _ Hw). by destruct (stop_workers now ws (c_store r) (c_index r)) as [[? ?] ?].
Qed.

Definition pool_stores_ok p : Prop := stores_ok (pool_batchStore p) (pool_txIndex p).

Lemma Pool_Stop_stores now p : pool_stores_ok p → pool_stores_ok (Pool.Stop now p).1.1.
Proof.
  intros H. unfold Pool.Stop. destruct (negb _); [done|].
  pose proof (stop_workers_stores now (workers p) _ _ H) as Hw. by destruct (stop_workers now (workers p) _ _) as [[? ?] ?].
Qed.

Lemma addWorkerLocked_stores p : pool_stores_ok p → pool_stores_ok (addWorkerLocked p).1.
Proof. intros H. unfold addWorkerLocked. by destruct (Worker.Start _) as [? []]. Qed.

Lemma start_workers_stores now n p : pool_stores_ok p → pool_stores_ok (start_workers now n p).1.1.
Proof.
  revert p. induction n as [|n IH]; intros p H; cbn [start_workers]; [done|].
  pose proof (addWorkerLocked_stores p H) as Ha. destruct (addWorkerLocked p) as [p' [e|]]; [|by apply IH].
  pose proof (Pool_Stop_stores now p' Ha) as Hs. by destruct (Pool.Stop now p') as [[? ?] ?].
Qed.

Lemma Pool_Start_stores now p : pool_stores_ok p → pool_stores_ok (Pool.Start now p).1.1.
Proof. intros H. unfold Pool.Start. destruct (pool_running p); [done|]. by apply start_workers_stores. Qed.

Lemma tick_worker_stores now i p : pool_stores_ok p → pool_stores_ok (tick_worker now i p).1.
Proof. intros H. unfold tick_worker. destruct (workers p !! i) as [w|]; [|done]. cbn. by apply tryCreateBatch_stores. Qed.

Lemma Pool_AddTx_stores t p : pool_stores_ok p → pool_stores_ok (Pool.AddTx validator t p).1.1.
Proof.
  intros H. unfold Pool.AddTx. destruct (negb _); [done|]. case_bool_decide; [done|].
  by destruct (route_tx _ _ _ _) as [[? ?] ?].
Qed.

Lemma recovered_stores txs p : pool_stores_ok p → pool_stores_ok (onTxRecovered validator txs p).
Proof.
  unfold onTxRecovered. revert p. induction txs as [|t txs IH]; intros p H; [done|]. cbn [fold_left].
  by apply IH, Pool_AddTx_stores.
Qed.

Lemma checkAndScale_stores now s p : pool_stores_ok p → pool_stores_ok (checkAndScale validator now s p).1.2.
Proof.
  intros H. unfold checkAndScale, tryScaleUp, tryScaleDown. case_bool_decide; [done|]. destruct (SFltb _ _).
  - unfold ScaleUp. destruct (negb _); [done|]. case_bool_decide; [done|].
    pose proof (addWorkerLocked_stores p H) as Ha. by destruct (addWorkerLocked p) as [p' [e|]].
  - destruct (SFltb _ _); [|done].
    assert (pool_stores_ok (ScaleDown validator now p).1.1) as Hs.
    { unfold ScaleDown. destruct (negb _); [done|]. case_bool_decide; [done|]. destruct (last (workers p)) as [w|]; [|done].
      destruct (DrainPending w) as [w' pending]. pose proof (Worker_Stop_stores now _ _ w' H) as Hw.
      by destruct (Worker.Stop now (pool_batchStore p) (pool_txIndex p) w') as [r ?]. }
    by destruct (ScaleDown validator now p) as [[p' made] []].
Qed.
End pool_stores.

(** ** The invariant *)
Section invariant.
Context `{Ed : Ed25519} {S B I : Type} {CS : CertificateStore S} {CL : CertificateStoreLaws S}.
Context {BS : BatchStore B} {BL : BatchStoreLaws B} {TI : TxIndex I} {TL : TxIndexLaws I}.
Context {RV : RangeOrder Z Vote} {RP : RangeOrder Hash PendingHeader} {RO : RangeOrder Hash Certificate}.
Context {RC : RangeOrder Z Certificate} {RH : RangeOrder Hash Z} {RB : RangeOrder Hash PendingBatch}.
Context {RS : RangeOrder Z pendingSyncRequest} {RF : RangeOrder Hash pendingBatchRequest}.
Context (validator : option (Transaction → result TxAdmission)).
Context (vs : ValidatorSet) {L : ValidatorSetLaws vs}.
Implicit Types l : Looseberry S B I.
Implicit Types d : DAG S.

Definition verified (c : Certificate) : Prop := Certificate_Verify c vs = None.
Definition all_verified (o : gmap Hash Certificate) : Prop := ∀ dg c, o !! dg = Some c → verified c.

(** A store, and a DAG with its store, that hold only verified certificates. *)
Definition store_sat (s : S) : Prop := cs_ok s ∧ all_verified (cs_view s).
Definition dag_sat d : Prop :=
  (∀ r a c, mem_cert d r a = Some c → verified c) ∧ ∃ s, certStore d = Some s ∧ store_sat s.

Record node_ok l : Prop := {
  nd_vs : nodeValidators l = vs;
  nd_sync : s_validatorSet (syncManager l) = vs;
  nd_signer : registered vs (validatorIndex l) (nodeSigner l);
  nd_primary : primary_ok vs (primaryNode l);
  nd_dag : dag_ok (dag_of l);
  nd_sat : dag_sat (dag_of l);
  nd_batches : bs_ok (batchStore l);
  nd_index : ix_ok (txIndex l);
  nd_keyed : keyed_certs (orphanCerts l);
  nd_cap : zsize (orphanCerts l) ≤ orphanCertCap;
  nd_orphans : all_verified (orphanCerts l)
}.

(** What a node may send. *)
Definition message_valid (m : message) : Prop :=
  match m with
  | BroadcastHeader h => header_signed vs h
  | BroadcastCertificate c | CertQuorumCallback c => verified c
  | SendVote _ v => vote_valid vs v
  | SendBatchAck _ a =>
      VerifySignature vs (AM_Validator a) (BatchAckSignBytes (AM_BatchDigest a) (AM_Validator a) (AM_Round a)) (AM_Signature a) = true
  | SendSyncResponse _ resp => Forall verified (SP_Certificates resp)
  | _ => True
  end.

(** What it may receive: only certificate messages are restricted. *)
Definition packet_ok (p : packet) : Prop :=
  match p with
  | PCertificate msg => match CM_Certificate msg with Some c => verified c | None => True end
  | _ => True
  end.

Definition step_ok (r : Looseberry S B I * list message) : Prop := node_ok r.1 ∧ Forall message_valid r.2.

(** ** Stores and DAG *)
Lemma store_sat_save c s : store_sat s → verified c → store_sat (SaveCertificate c s).1.
Proof.
  intros [Hok Hs] Hc. destruct (cs_save s c Hok) as (_ & Hok' & Ev). split; [done|]. intros dg x. rewrite Ev.
  unfold insert_new. destruct (cs_view s !! CDigest c); [by apply Hs|].
  intros [[_ <-]|[_ ?]]%lookup_insert_Some; [done|by eapply Hs].
Qed.

Lemma store_sat_save_all cs s : store_sat s → Forall verified cs → store_sat (save_all cs s).
Proof.
  intros Hs Hc. revert s Hs. induction Hc as [|c cs Hc Hcs IH]; intros s Hs; [done|]. by apply IH, store_sat_save.
Qed.

Lemma dag_sat_add d c : dag_ok d → dag_sat d → verified c → dag_ok (AddCertificate (Some c) d).1 ∧ dag_sat (AddCertificate (Some c) d).1.
Proof.
  intros Hok [Hm (s & Es & Hs)] Hc. split; [by apply dag_ok_AddCertificate|]. split.
  - intros r a x. rewrite AddCertificate_mem by apply (ok_store _ Hok). case_decide; [by intros [= <-]|apply Hm].
  - destruct (AddCertificate_cases d c (ok_store _ Hok)) as [_ ->]. rewrite Es. destruct (add_error d c); cbn.
    + eauto.
    + eexists. split; [done|]. by apply store_sat_save.
Qed.

Lemma put_dag_ok d l : node_ok l → dag_ok d → dag_sat d → node_ok (put_dag d l).
Proof.
  intros Hok Hd [Hm (s & Es & Hs)].
  assert (dag_of (put_dag d l) = d <| certStore := Some s |>) as E by (unfold dag_of, put_dag; cbn; by rewrite Es).
  destruct Hok. split; try done.
  - rewrite E. apply dag_ok_set_store; [done|apply Hs].
  - rewrite E. split; [exact Hm|]. by exists s.
Qed.

Lemma put_primary_ok p l : node_ok l → primary_ok vs p → store_sat (p_certStore p) → node_ok (put_primary p l).
Proof.
  intros Hok Hp Hs.
  assert (dag_of (put_primary p l) = (dag_of l) <| certStore := Some (p_certStore p) |>) as E by done.
  destruct Hok as [?????[Hm _]]. split; try done.
  - rewrite E. apply dag_ok_set_store; [done|apply Hs].
  - rewrite E. split; [exact Hm|]. by eexists.
Qed.

Lemma nd_store l : node_ok l → store_sat (nodeCerts l).
Proof. intros Hok. by destruct (nd_sat _ Hok) as [_ (s & [= <-] & Hs)]. Qed.

Lemma primary_of_ok l : node_ok l → primary_ok vs (primary_of l).
Proof. intros Hok. destruct (nd_primary _ Hok). by split. Qed.

Lemma put_pool_ok p l : node_ok l → pool_stores_ok p → node_ok (put_pool p l).
Proof.
  intros Hok [Hb Hi]. destruct Hok. split; try done; cbn.
  - destruct (pool_batchStore p); cbn; [by apply Hb|done].
  - destruct (pool_txIndex p); cbn; [exact Hi|done].
Qed.

Lemma pool_of_ok l : node_ok l → pool_stores_ok (pool_of l).
Proof. intros Hok. split; cbn; [intros b [= <-]; apply Hok|apply Hok]. Qed.

Lemma batches_of_ok l b : node_ok l → bs_ok b → node_ok (l <| batchStore := b |>).
Proof. intros [] ?. by split. Qed.
Lemma index_of_ok l i : node_ok l → ix_ok i → node_ok (l <| txIndex := i |>).
Proof. intros [] ?. by split. Qed.

(** ** Callbacks *)
Lemma onCertificateFormed_ok c l : node_ok l → verified c → step_ok (onCertificateFormed c l).
Proof.
  intros Hok Hc. unfold onCertificateFormed. destruct (dag_sat_add (dag_of l) c (nd_dag _ Hok) (nd_sat _ Hok) Hc) as [H1 H2].
  pose proof (put_dag_ok _ l Hok H1 H2) as H. split; cbn [fst snd].
  - destruct H. by split.
  - constructor; [done|]. destruct (certQuorumCallback _); [by apply Forall_singleton|constructor].
Qed.

Lemma on_outputs_ok os l : node_ok l → Forall (output_valid vs) os → step_ok (on_outputs os l).
Proof.
  intros Hok Ho. revert l Hok. induction Ho as [|o os Ho Hos IH]; intros l Hok; cbn [on_outputs]; [by split; [|constructor]|].
  assert (step_ok (on_output o l)) as [H1 H2].
  { destruct o as [c|h|v t]; cbn [on_output].
    - apply onCertificateFormed_ok; [done|]. apply Ho.
    - destruct Ho as [Hh _]. split; [done|by apply Forall_singleton].
    - split; [done|]. cbn. destruct (nodeRunning l); [by apply Forall_singleton|constructor]. }
  destruct (on_output o l) as [l1 out]. destruct (IH l1 H1) as [H3 H4]. destruct (on_outputs os l1) as [l2 out'].
  split; [done|]. cbn. by apply Forall_app.
Qed.

Lemma formed_verified os : Forall (output_valid vs) os → Forall verified (formed os).
Proof.
  induction 1 as [|o os Ho _ IH]; [constructor|]. destruct o; cbn; [|done|done]. constructor; [apply Ho|done].
Qed.

Lemma primary_step_ok p outs l :
  node_ok l → primary_ok vs p → Forall (output_valid vs) outs → p_certStore p = save_all (formed outs) (nodeCerts l) →
  step_ok (on_outputs outs (put_primary p l)).
Proof.
  intros Hok Hp Ho E. apply on_outputs_ok; [|done]. apply put_primary_ok; [done..|]. rewrite E.
  apply store_sat_save_all; [by apply nd_store|by apply formed_verified].
Qed.

Lemma batches_created_ok made l : node_ok l → step_ok (batches_created made l).
Proof.
  intros Hok. unfold batches_created.
  assert (step_ok (l, [])) as H by (split; [done|constructor]). revert H. generalize (l, @nil message).
  induction made as [|b made IH]; intros [l' out] [H1 H2]; [done|]. cbn [fold_left]. apply IH. split; cbn.
  - destruct H1. split; try done. destruct nd_primary0. by split.
  - apply Forall_app. split; [done|]. by apply Forall_singleton.
Qed.

Lemma handle_header_ok now h l : node_ok l → step_ok (handle_header now h l).
Proof.
  intros Hok. unfold handle_header.
  assert (∃ f requests available, (if running (primary_of l) && bool_decide (validateHeader (primary_of l) h = None)
    then RequestBatchesForHeader now h (batchStore l) (batchFetcher l) else (batchFetcher l, [], false)) = (f, requests, available))
    as (f & requests & available & ->).
  { destruct (if running _ && _ then _ else _) as [[f r] a]. eauto. }
  set (l1 := l <| batchFetcher := f |>). assert (node_ok l1) as Hok1 by (destruct Hok; by split).
  pose proof (HandleHeader_ok vs (Some (λ _, available)) h (primary_of l) (primary_of_ok l Hok)) as Ho.
  destruct (on_outputs_ok _ l1 Hok1 Ho) as [H1 H2]. destruct (on_outputs _ l1) as [l2 out]. split; [done|].
  cbn. apply Forall_app. split; [|done]. apply Forall_forall. intros m ([v dg|?] & _ & [= <-])%list_elem_of_omap. done.
Qed.

Lemma on_ready_ok now outs l : node_ok l → step_ok (on_ready now outs l).
Proof.
  revert l. induction outs as [|[v dg|h] outs IH]; intros l Hok; cbn [on_ready]; [by split; [|constructor]|..].
  - destruct (IH l Hok) as [H1 H2]. destruct (on_ready now outs l) as [l' out]. split; [done|]. by constructor.
  - destruct (handle_header_ok now h l Hok) as [H1 H2]. destruct (handle_header now h l) as [l1 out].
    destruct (IH l1 H1) as [H3 H4]. destruct (on_ready now outs l1) as [l2 out']. split; [done|]. cbn. by apply Forall_app.
Qed.

(** ** Handlers *)
Lemma save_batch_ok b l : node_ok l → node_ok (l <| batchStore := (SaveBatch b (batchStore l)).1 |>).
Proof. intros Hok. apply batches_of_ok; [done|]. apply bs_save, Hok. Qed.
Lemma add_index_ok b l : node_ok l → node_ok (l <| txIndex := (TI_AddBatch b (txIndex l)).1 |>).
Proof. intros Hok. apply index_of_ok; [done|]. apply ix_add, Hok. Qed.

Lemma handleBatchMessage_ok now b from l : node_ok l → step_ok (handleBatchMessage now b from l).
Proof.
  intros Hok. unfold handleBatchMessage. destruct b as [b|]; [|by split; [|constructor]].
  pose proof (add_index_ok b _ (save_batch_ok b l Hok)) as Hok1. set (l1 := _ <| txIndex := _ |>) in *. clearbody l1.
  destruct (NotifyBatchReceived b (batchFetcher l1)) as [f ready].
  destruct (on_ready_ok now ready (l1 <| batchFetcher := f |>)) as [H1 H2]; [destruct Hok1; by split|].
  destruct (on_ready now ready _) as [l2 out]. split; [done|]. cbn. apply Forall_app. split; [done|].
  unfold make_ack. destruct (Sign (nodeSigner l2) _) as [sig|] eqn:Es; [|constructor].
  destruct (nodeRunning l2); [|constructor]. apply Forall_singleton. cbn. by apply (nd_signer _ H1).
Qed.

Lemma handleVoteMessage_ok now v l : node_ok l → step_ok (handleVoteMessage now v l).
Proof using L.
  intros Hok. unfold handleVoteMessage. destruct v as [v|]; [|by split; [|constructor]].
  destruct (HandleVote_ok vs now (Some v) (primary_of l) (primary_of_ok l Hok)) as (H1 & H2 & _).
  pose proof (HandleVote_store now (Some v) (primary_of l)) as Hs.
  destruct (HandleVote now (Some v) (primary_of l)) as [[p outs] c]. by apply primary_step_ok.
Qed.

Lemma header_tick_ok now l : node_ok l → step_ok (header_tick now l).
Proof using L.
  intros Hok. unfold header_tick. set (ack := Some _).
  destruct (tryCreateHeader_ok vs ack now [] (primary_of l) (primary_of_ok l Hok)) as [H1 H2].
  pose proof (tryCreateHeader_store ack now [] (primary_of l)) as Hs.
  destruct (tryCreateHeader ack now [] (primary_of l)) as [p outs]. by apply primary_step_ok.
Qed.

(** Replaying orphans. *)
Lemma replay_pass_sat batch d o n :
  dag_ok d → dag_sat d → Forall verified batch →
  let '(d', o', _) := replay_pass batch d o n in dag_ok d' ∧ dag_sat d' ∧ o' ⊆ o.
Proof.
  intros Hd Hs Hb. revert d o n Hd Hs. induction Hb as [|c batch Hc Hb IH]; intros d o n Hd Hs; cbn [replay_pass]; [done|].
  destruct (dag_sat_add d c Hd Hs Hc) as [H1 H2]. destruct (AddCertificate (Some c) d) as [d1 [e|]]; [by apply IH|].
  specialize (IH d1 (delete (CDigest c) o) (n + 1) H1 H2). destruct (replay_pass _ _ _ _) as [[d' o'] n'].
  destruct IH as (? & ? & Ho). split_and!; [done..|]. etrans; [exact Ho|apply delete_subseteq].
Qed.

Lemma replay_sat fuel d o d' o' :
  dag_ok d → dag_sat d → all_verified o → replayOrphanCertsLocked fuel d o = Some (d', o') →
  dag_ok d' ∧ dag_sat d' ∧ o' ⊆ o.
Proof.
  revert d o. induction fuel as [|fuel IH]; intros d o Hd Hs Ho; cbn [replayOrphanCertsLocked]; [done|].
  case_bool_decide; [by intros [= <- <-]|].
  assert (Forall verified (range o).*2) as Hb.
  { apply Forall_forall. intros c ([k c'] & -> & Hin%elem_of_range)%list_elem_of_fmap. by eapply Ho. }
  pose proof (replay_pass_sat (range o).*2 d o 0 Hd Hs Hb) as Hp. destruct (replay_pass _ d o 0) as [[d1 o1] n].
  destruct Hp as (H1 & H2 & H3). case_bool_decide; [by intros [= <- <-]|]. intros E.
  destruct (IH d1 o1 H1 H2) as (? & ? & H4); [|done|].
  - intros dg c Hc. eapply Ho, lookup_weaken; [exact Hc|exact H3].
  - split_and!; [done..|]. by etrans.
Qed.

Lemma handleCertificate_ok c l :
  node_ok l → verified c → ∃ l', handleCertificateMessage (Some c) l = Some l' ∧ node_ok l'.
Proof.
  intros Hok Hc. unfold handleCertificateMessage.
  set (l1 := put_primary _ l). assert (node_ok l1) as Hok1.
  { apply put_primary_ok; [done|by apply HandleCertificate_ok, primary_of_ok|].
    unfold HandleCertificate. pose proof (nd_store l Hok) as Hs. destruct (negb _); [done|].
    destruct (Certificate_Verify c _); [done|]. pose proof (store_sat_save c _ Hs Hc) as Hs'. cbn [primary_of p_certStore] in *.
    change (p_certStore (primary_of l)) with (nodeCerts l).
    destruct (SaveCertificate c (nodeCerts l)) as [s [e|]]; [done|]. cbn [fst]. by rewrite tryAdvanceRound_store. }
  clearbody l1. unfold add_or_buffer.
  destruct (dag_sat_add (dag_of l1) c (nd_dag _ Hok1) (nd_sat _ Hok1) Hc) as [H1 H2].
  assert (∀ d o, dag_ok d → dag_sat d → keyed_certs o → zsize o ≤ orphanCertCap → all_verified o →
    node_ok (let l := put_dag d l1 <| orphanCerts := o |> in l <| flowController := (UpdateCurrentRound (CRound c) (flowController l)).1 |>)) as Hfin.
  { intros d o ? ? ? ? ?. pose proof (put_dag_ok d l1 Hok1) as Hpd. destruct Hpd; [done..|]. by split. }
  destruct (AddCertificate (Some c) (dag_of l1)) as [d1 [e|]]; cbn [fst] in H1, H2.
  - eexists. split; [done|]. apply Hfin; [done..| | |]; destruct (errors_Is e ErrMissingParents); try apply Hok1;
      unfold bufferOrphanCert; (case_bool_decide as Hcap; [apply Hok1|]); destruct (orphanCerts l1 !! CDigest c) eqn:E; try apply Hok1.
    + intros dg x [[<- <-]|[_ ?]]%lookup_insert_Some; [done|by apply (nd_keyed _ Hok1)].
    + rewrite map_size_insert_None by done. lia.
    + intros dg x [[_ <-]|[_ ?]]%lookup_insert_Some; [done|by apply (nd_orphans _ Hok1 dg)].
  - destruct (replay_spec (Datatypes.S (size (orphanCerts l1))) d1 (orphanCerts l1) H1 (nd_keyed _ Hok1)) as (d' & o' & E & _); [lia|].
    rewrite E. destruct (replay_sat _ _ _ _ _ H1 H2 (nd_orphans _ Hok1) E) as (H3 & H4 & Hsub).
    eexists. split; [done|]. apply Hfin; [done..| | |].
    + intros dg x Hx. eapply (nd_keyed _ Hok1), lookup_weaken; [exact Hx|exact Hsub].
    + etrans; [|apply (nd_cap _ Hok1)]. apply map_subseteq_size in Hsub. lia.
    + intros dg x Hx. eapply (nd_orphans _ Hok1), lookup_weaken; [exact Hx|exact Hsub].
Qed.

Lemma deliver_certs_ok cs l :
  node_ok l → Forall verified cs → ∃ l', deliver_certs cs l = Some l' ∧ node_ok l'.
Proof.
  intros Hok Hc. revert l Hok. induction Hc as [|c cs Hc _ IH]; intros l Hok; cbn [deliver_certs]; [eauto|].
  destruct (handleCertificate_ok c l Hok Hc) as (l1 & -> & Hok1). by apply IH.
Qed.

Lemma save_batches_ok bs (b : B) : bs_ok b → bs_ok (save_batches bs b).1.
Proof. intros Hb. pose proof (save_batches_view bs b Hb) as Hv. by destruct (save_batches bs b) as [b' e], Hv as (_ & ? & _). Qed.

Lemma recordPeer_vs peer round s : s_validatorSet (recordPeerHighestRound peer round s) = s_validatorSet s.
Proof. unfold recordPeerHighestRound. destruct (_ !! _); [by case_bool_decide|done]. Qed.

Lemma handleSyncResponse_ok resp from l :
  node_ok l → ∃ l', handleSyncResponse resp from l = Some l' ∧ node_ok l'.
Proof.
  intros Hok. unfold handleSyncResponse, HandleSyncResponse. destruct (negb _); [by eexists; split; [done|destruct Hok; by split]|].
  pose proof (save_batches_ok (SP_Batches resp) (batchStore l) (nd_batches _ Hok)) as Hb.
  set (s := recordPeerHighestRound _ _ _). assert (s_validatorSet s = vs) as Es by (unfold s; rewrite recordPeer_vs; apply Hok).
  destruct (save_batches (SP_Batches resp) (batchStore l)) as [b [e|]]; cbn [fst] in Hb.
  - apply deliver_certs_ok; [destruct Hok; by split|constructor].
  - apply deliver_certs_ok; [destruct Hok; by split|]. apply Forall_forall. intros c [Hc _]%list_elem_of_filter. by rewrite Es in Hc.
Qed.

(** Reading the DAG. *)
Lemma round_verified d r c : dag_sat d → c ∈ GetCertificatesForRound d r → verified c.
Proof.
  intros [Hm (s & Es & Hok & Hs)]. unfold GetCertificatesForRound, mem_cert in *. rewrite Es.
  destruct (rounds d !! r) as [rd|] eqn:Er.
  - unfold GetAllCertificates. intros ([a c'] & -> & Hin%elem_of_range)%list_elem_of_fmap.
    apply (Hm r a). by rewrite Er.
  - destruct (cs_round s r Hok) as (l & -> & _ & Hl & _). intros [Hin _]%Hl. by apply (Hs (CDigest c)).
Qed.

Lemma ordered_verified d from to certs : dag_sat d → GetOrderedCertificates d from to = Some certs → Forall verified certs.
Proof.
  intros Hs. unfold GetOrderedCertificates. case_bool_decide; [intros [= <-]; constructor|].
  set (n := Z.to_nat _). assert (Forall verified []) as Hacc by constructor. revert Hacc. generalize (@nil Certificate) at 1 2.
  generalize from. induction n as [|n IH]; intros r acc Hacc; cbn [ordered_loop]; (case_bool_decide; [|by intros [= <-]]); [done|].
  apply IH. case_bool_decide; [done|]. apply Forall_app. split; [done|]. unfold ordered_round. apply Forall_forall.
  intros c Hc. apply (round_verified d r); [done|]. by rewrite sort_slice_perm in Hc.
Qed.

Lemma handleSyncRequest_ok req l out : node_ok l → handleSyncRequest req l = Some out → Forall message_valid out.
Proof.
  intros Hok. unfold handleSyncRequest, HandleSyncRequest. destruct (negb _); [by intros [= <-]|].
  destruct (GetOrderedCertificates _ _ _) as [certs|] eqn:E; [|done]. intros [= <-]. apply Forall_singleton. cbn.
  eapply ordered_verified; [apply (nd_sat _ Hok)|exact E].
Qed.

Lemma CatchUpPeerCerts_ok l out : node_ok l → CatchUpPeerCerts l = Some out → Forall message_valid out.
Proof.
  intros Hok. unfold CatchUpPeerCerts. destruct (GetOrderedCertificates _ _ _) as [certs|] eqn:E; [|done]. intros [= <-].
  unfold dispatchAsync. destruct (nodeRunning l); [|constructor]. apply Forall_fmap.
  eapply ordered_verified; [apply (nd_sat _ Hok)|exact E].
Qed.

Lemma handleBatchResponse_ok now resp l : node_ok l → step_ok (handleBatchResponseMessage now resp l).
Proof.
  intros Hok. unfold handleBatchResponseMessage, HandleBatchResponse.
  destruct (BR_Batch resp) as [b|]; [destruct (BR_Found resp)|]; cbn zeta; try by apply on_ready_ok; destruct Hok; split.
  pose proof (add_index_ok b _ (save_batch_ok b l Hok)) as Hok1. set (l1 := _ <| txIndex := _ |>) in *.
  assert (node_ok l1) as Hok2 by exact Hok1. clearbody l1. destruct (NotifyBatchReceived b (batchFetcher l1)) as [f ready].
  apply on_ready_ok. pose proof (bs_save (batchStore l1) b (nd_batches _ Hok2)) as (_ & Hb & _). destruct Hok2. by split.
Qed.

(** ** Ticks and operations of the pool *)
Lemma pool_step_ok p made l : node_ok l → pool_stores_ok p → step_ok (batches_created made (put_pool p l)).
Proof. intros Hok Hp. apply batches_created_ok. by apply put_pool_ok. Qed.

Lemma batch_tick_ok now i l : node_ok l → step_ok (batch_tick now i l).
Proof.
  intros Hok. unfold batch_tick. pose proof (tick_worker_stores now i _ (pool_of_ok l Hok)) as Hp.
  destruct (tick_worker now i (pool_of l)) as [p made]. by apply pool_step_ok.
Qed.

Lemma scale_tick_ok now l : node_ok l → step_ok (scale_tick validator now l).
Proof.
  intros Hok. unfold scale_tick. pose proof (checkAndScale_stores validator now (workerScaler l) _ (pool_of_ok l Hok)) as Hp.
  destruct (checkAndScale validator now (workerScaler l) (pool_of l)) as [[s p] made]. apply batches_created_ok.
  destruct (put_pool_ok p l Hok Hp). by split.
Qed.

Lemma AddTx_node_ok t l : node_ok l → node_ok (AddTx validator t l).1.
Proof.
  intros Hok. unfold AddTx. destruct (negb _); [done|]. destruct (IsPaused _); [destruct Hok; by split|].
  pose proof (Pool_AddTx_stores validator t _ (pool_of_ok l Hok)) as Hp.
  destruct (Pool.AddTx validator t (pool_of l)) as [[p tr] [e|]]; destruct (put_pool_ok p l Hok Hp); by split.
Qed.

Lemma Flush_ok now l : node_ok l → step_ok (Flush now l).
Proof.
  intros Hok. unfold Flush. destruct (negb _); [by split; [|constructor]|].
  pose proof (Pool_Stop_stores now _ (pool_of_ok l Hok)) as Hp. destruct (Pool.Stop now (pool_of l)) as [[p made] e].
  destruct (pool_step_ok p made l Hok Hp) as [H1 H2]. destruct (batches_created made (put_pool p l)) as [l1 out].
  pose proof (Pool_Start_stores now _ (pool_of_ok l1 H1)) as Hp'. destruct (Pool.Start now (pool_of l1)) as [[p' made'] e'].
  destruct (pool_step_ok p' made' l1 H1 Hp') as [H3 H4]. destruct (batches_created made' (put_pool p' l1)) as [l2 out'].
  split; [done|]. cbn. by apply Forall_app.
Qed.

(** ** Collection *)
Lemma put_world_ok w l : node_ok l → world_ok w → dag_sat (g_dag w) → node_ok (put_world w l).
Proof.
  intros Hok [Hd Hb Hi] Hs. pose proof (put_dag_ok (g_dag w) l Hok Hd Hs) as Hl. unfold put_world.
  apply index_of_ok; [by apply batches_of_ok|]. destruct (g_index w); [exact Hi|exact (nd_index _ Hok)].
Qed.

Lemma gc_world_ok l : node_ok l → world_ok (gc_world l) ∧ dag_sat (g_dag (gc_world l)).
Proof. intros Hok. split; [|apply Hok]. split; [apply Hok..|]. exact (nd_index _ Hok). Qed.

Lemma gc_set_ok g l : node_ok l → node_ok (l <| gcManager := g |>).
Proof. intros []. by split. Qed.

Lemma dag_sat_committed d round : dag_sat d → dag_sat (SetCommittedRound d round).
Proof. intros [Hm Hs]. split; [|done]. intros r a c. rewrite mem_cert_commit. apply Hm. Qed.

Lemma prune_phase_sat beforeRound g w :
  world_ok w → dag_sat (g_dag w) → dag_sat (g_dag (prune_phase beforeRound g w).1.2).
Proof.
  intros Hok [Hm (s & Es & Hs)]. pose proof (prune_phase_spec beforeRound g w Hok) as Hp.
  assert (certStore (g_dag (prune_phase beforeRound g w).1.2) = Some (DeleteCertificatesBefore beforeRound s).1) as E.
  { unfold prune_phase. destruct w as [d b i]. destruct Hok as [Hd Hb Hi]. cbn [g_dag g_batches g_index] in *.
    destruct (bs_delete b beforeRound Hb) as (Eb & _). cbn.
    destruct (DeleteBatchesBefore beforeRound b) as [b' e]. cbn in Eb. subst e. cbn.
    pose proof (PruneRoundsBefore_store d beforeRound) as Ep. unfold PruneRoundsBefore in Ep. cbn in Ep. rewrite Ep, Es.
    destruct (cs_delete s beforeRound (proj1 Hs)) as (Ec & _).
    destruct (DeleteCertificatesBefore beforeRound s) as [s' e]. cbn in Ec. subst e. cbn.
    destruct i as [i|]; [|done]. by destruct (TI_PruneOlderThan beforeRound i) as [? []]. }
  destruct (prune_phase beforeRound g w) as [[g' w'] err]. destruct Hp as (_ & _ & _ & Hm' & _). cbn [fst snd] in *. split.
  - intros r a c. rewrite Hm'. case_decide; [done|apply Hm].
  - eexists. split; [done|]. destruct Hs as [Hok' Hs]. destruct (cs_delete s beforeRound Hok') as (_ & H1 & H2 & _).
    split; [done|]. intros dg c Hc. eapply Hs, lookup_weaken; [exact Hc|exact H2].
Qed.

Lemma collect_ok gcRound l : node_ok l → node_ok (collect validator gcRound l).1.
Proof.
  intros Hok. unfold collect. destruct (gc_world_ok l Hok) as [Hw Hs].
  pose proof (recover_phase_frame (RecoverUncommittedTxs (gc_cfg (gcManager l))) gcRound (gcManager l) _ Hw) as Hr.
  destruct (recover_phase _ gcRound (gcManager l) (gc_world l)) as [[g w] txs]. destruct Hr as [_ Edag Eb Hi].
  assert (node_ok (put_world w (l <| gcManager := g |>))) as Hok1.
  { apply put_world_ok; [by apply gc_set_ok| |by rewrite Edag]. destruct Hw. split; [by rewrite Edag|by rewrite Eb|done]. }
  set (l1 := put_world w _) in *. clearbody l1.
  pose proof (put_pool_ok _ l1 Hok1 (recovered_stores validator txs _ (pool_of_ok l1 Hok1))) as Hok2.
  set (l2 := put_pool _ l1) in *. clearbody l2. destruct (gc_world_ok l2 Hok2) as [Hw2 Hs2].
  pose proof (prune_phase_spec gcRound (gcManager l2) _ Hw2) as Hp. pose proof (prune_phase_sat gcRound (gcManager l2) _ Hw2 Hs2) as Hps.
  destruct (prune_phase gcRound (gcManager l2) (gc_world l2)) as [[g' w'] err]. destruct Hp as (_ & Hw' & _). cbn [fst snd] in *.
  apply put_world_ok; [by apply gc_set_ok|done|done].
Qed.

Lemma gcLoop_ok l : node_ok l → node_ok (gcLoop validator l).
Proof.
  intros Hok. unfold gcLoop. case_bool_decide; [|done].
  pose proof (collect_ok (calculateGCRound (gcManager l)) l Hok) as Hc.
  destruct (collect validator _ l) as [l' [e|]]; by apply gc_set_ok.
Qed.

(** [NotifyCommitted] collects like a tick of the collector. *)
Lemma NotifyCommitted_eq now round l :
  NotifyCommitted validator now round l =
    let l := put_dag (SetCommittedRound (dag_of l) round) l in
    let l := l <| flowController := (UpdateCommittedRound round (flowController l)).1 |> in
    let '(g, w) := note_committed round (gcManager l) (gc_world l) in
    let l := put_world w (l <| gcManager := g |>) in
    let gcRound := calculateGCRound (gcManager l) in
    let l := if bool_decide (gcRound = 0) then l else (collect validator gcRound l).1 in
    if bool_decide (round > lastCommittedRound l) then l <| lastCommittedRound := round |> <| lastCommitNanos := now |> else l.
Proof.
  unfold NotifyCommitted. cbn zeta. set (l1 := _ <| flowController := _ |>). clearbody l1.
  destruct (note_committed round (gcManager l1) (gc_world l1)) as [g w]. set (l2 := put_world w _).
  assert (gcManager l2 = g) as Eg by done. clearbody l2. destruct (bool_decide (calculateGCRound (gcManager l2) = 0)); [reflexivity|]. unfold collect. rewrite Eg.
  destruct (recover_phase _ _ _ _) as [[g1 w1] txs]. set (l3 := put_pool _ _). clearbody l3.
  by destruct (prune_phase _ _ _) as [[g2 w2] err].
Qed.

Lemma NotifyCommitted_ok now round l : node_ok l → node_ok (NotifyCommitted validator now round l).
Proof.
  intros Hok. rewrite NotifyCommitted_eq. cbn zeta.
  pose proof (put_dag_ok (SetCommittedRound (dag_of l) round) l Hok (dag_ok_SetCommittedRound _ _ (nd_dag _ Hok))
    (dag_sat_committed _ round (nd_sat _ Hok))) as Hok1.
  set (l0 := put_dag _ l) in *. clearbody l0.
  set (l1 := l0 <| flowController := _ |>). assert (node_ok l1) as Hok2 by (destruct Hok1; by split). clearbody l1.
  destruct (gc_world_ok l1 Hok2) as [[Hd Hb Hi] Hs].
  assert (∃ g w, note_committed round (gcManager l1) (gc_world l1) = (g, w) ∧ world_ok w ∧ dag_sat (g_dag w)) as (g & w & -> & Hw & Hws).
  { unfold note_committed. case_bool_decide; (eexists _, _; split; [done|]); [|done].
    split; [split; [by apply dag_ok_SetCommittedRound|done|done]|by apply dag_sat_committed]. }
  pose proof (put_world_ok w _ (gc_set_ok g l1 Hok2) Hw Hws) as Hok3. set (l2 := put_world w _) in *. clearbody l2.
  assert (node_ok (if bool_decide (calculateGCRound (gcManager l2) = 0) then l2 else (collect validator (calculateGCRound (gcManager l2)) l2).1)) as Hok4.
  { case_bool_decide; [done|by apply collect_ok]. }
  set (l3 := if bool_decide _ then _ else _) in *. clearbody l3. case_bool_decide; [|done]. destruct Hok4. by split.
Qed.

(** ** Synchronisation, rebroadcast, cleanup *)
Definition same_set (s s' : SyncManager) : Prop := s_validatorSet s' = s_validatorSet s.

Lemma RequestSync_vs self send now v from to s : same_set s (RequestSync self send now v from to s).1.1.
Proof. unfold RequestSync. by destruct (negb _). Qed.

Lemma catch_up_loop_vs self send now from target vls s : same_set s (catch_up_loop self send now from target vls s).1.1.
Proof.
  revert s. induction vls as [|v vls IH]; intros s; cbn [catch_up_loop]; [done|]. case_bool_decide; [apply IH|].
  pose proof (RequestSync_vs self send now (Index v) from target s) as Hr.
  destruct (RequestSync _ _ _ _ _ _ s) as [[s1 out] [e|]]; [|done]. specialize (IH s1).
  destruct (catch_up_loop _ _ _ _ _ vls s1) as [[s2 out'] e']. unfold same_set in *. cbn in *. congruence.
Qed.

Lemma probe_loop_vs self send now local vls s : same_set s (probe_loop self send now local vls s).1.
Proof.
  revert s. induction vls as [|v vls IH]; intros s; cbn [probe_loop]; [done|]. case_bool_decide; [apply IH|].
  destruct (pendingReqs s !! Index v); [apply IH|]. set (from := if bool_decide _ then _ else _).
  pose proof (RequestSync_vs self send now (Index v) from 0 s) as Hr.
  destruct (RequestSync _ _ _ _ _ _ s) as [[s1 out] e]. specialize (IH s1).
  destruct (probe_loop _ _ _ _ vls s1) as [s2 out']. unfold same_set in *. cbn in *. congruence.
Qed.

Lemma checkAndSync_vs self send now local s : same_set s (checkAndSync self send now local s).1.
Proof.
  unfold checkAndSync. destruct (negb _); [done|]. set (b := _ && _).
  assert (∃ s1 out, (if b then let '(s, out, _) := CatchUp self send now local (observed_target s) s in (s, out) else (s, [])) = (s1, out) ∧ same_set s s1)
    as (s1 & out & -> & H1).
  { destruct b; [|by eexists _, _]. unfold CatchUp. destruct (negb _); [by eexists _, _|]. case_bool_decide; [by eexists _, _|].
    set (from := if bool_decide _ then _ else _).
    pose proof (catch_up_loop_vs self send now from (observed_target s) (VS_Validators (s_validatorSet s)) s) as Hc.
    destruct (catch_up_loop _ _ _ _ _ _ s) as [[s1 out] e]. by eexists _, _. }
  pose proof (probe_loop_vs self send now local (VS_Validators (s_validatorSet s1)) s1) as H2.
  destruct (probe_loop _ _ _ _ _ s1) as [s2 out']. unfold same_set in *. cbn in *. congruence.
Qed.

Lemma retrySyncRequest_vs self req s : same_set s (retrySyncRequest self req s).1.
Proof.
  unfold retrySyncRequest. destruct (negb _); [done|]. cbn. destruct (_ !! _); [by case_bool_decide|done].
Qed.

Lemma cleanup_sync_vs self now s : same_set s (Sync.cleanupTimedOutRequests self now s).1.
Proof.
  unfold Sync.cleanupTimedOutRequests. set (l := _ <$> _). set (s0 := s <| pendingReqs := _ |> <| pendingReqs := _ |>).
  assert (same_set s s0) as H0 by done. clearbody l s0. revert H0. generalize (@nil (Z * SyncRequest)). revert s0.
  induction l as [|p l IH]; intros s0 out H0; [done|]. cbn [fold_left].
  pose proof (retrySyncRequest_vs self p.2 s0) as Hr. destruct (retrySyncRequest self p.2 s0) as [s1 out'].
  apply IH. unfold same_set in *. cbn in *. congruence.
Qed.

Lemma sync_set_ok s l : node_ok l → same_set (syncManager l) s → node_ok (l <| syncManager := s |>).
Proof. intros [] Hs. split; try done. unfold same_set in Hs. cbn. congruence. Qed.

Lemma requests_valid reqs : Forall message_valid ((λ r : Z * SyncRequest, SendSyncRequest r.1 r.2) <$> reqs).
Proof. by apply Forall_fmap, Forall_true. Qed.

Lemma syncLoop_ok timeout send now l : node_ok l → step_ok (syncLoop timeout send now l).
Proof.
  intros Hok. unfold syncLoop. pose proof (cleanup_sync_vs (validatorIndex l) now (syncManager l)) as H1.
  pose proof (checkAndSync_vs (validatorIndex l) send now (highestRound (nodeDag l)) (syncManager l)) as H2.
  assert (same_set (syncManager l) (if timeout then Sync.cleanupTimedOutRequests (validatorIndex l) now (syncManager l)
    else checkAndSync (validatorIndex l) send now (highestRound (nodeDag l)) (syncManager l)).1) as Hs by (by destruct timeout).
  destruct (if timeout then _ else _) as [s reqs]. split; [by apply sync_set_ok|apply requests_valid].
Qed.

Lemma RequestPeerCatchUp_ok send now peer l : node_ok l → step_ok (RequestPeerCatchUp send now peer l).
Proof.
  intros Hok. unfold RequestPeerCatchUp. destruct (negb _); [by split; [|constructor]|].
  assert (same_set (syncManager l) (Sync.RequestPeerCatchUp (validatorIndex l) send now peer (syncManager l)).1.1) as Hs.
  { unfold Sync.RequestPeerCatchUp. destruct (negb _); [done|]. destruct (_ !! _); [done|]. apply RequestSync_vs. }
  destruct (Sync.RequestPeerCatchUp _ _ _ _ _) as [[s reqs] e]. split; [by apply sync_set_ok|apply requests_valid].
Qed.

Lemma syncIfStuck_ok send now l : node_ok l → step_ok (syncIfStuck send now l).
Proof.
  intros Hok. unfold syncIfStuck. assert (step_ok (l, [])) as H by (split; [done|constructor]).
  case_bool_decide; [done|]. case_bool_decide; [done|]. case_bool_decide; [done|]. cbn zeta. set (ids := filter _ _). clearbody ids.
  clear Hok. revert H. generalize (l, @nil message). induction ids as [|v ids IH]; intros [l' out] [K1 K2]; [done|]. cbn [fold_left].
  destruct (RequestPeerCatchUp_ok send now v l' K1) as [K3 K4]. destruct (RequestPeerCatchUp send now v l') as [l2 out'].
  apply IH. split; [done|]. cbn. by apply Forall_app.
Qed.

Lemma rebroadcastIfStuck_ok now l : node_ok l → step_ok (rebroadcastIfStuck now l).
Proof.
  intros Hok. unfold rebroadcastIfStuck. assert (step_ok (l, [])) as H by (split; [done|constructor]).
  repeat (case_bool_decide; [done|]). destruct (_ && _); [done|]. split; [destruct Hok; by split|]. cbn.
  unfold dispatchAsync. destruct (nodeRunning l); [|constructor]. apply Forall_app. split; [by apply Forall_fmap, Forall_true|].
  apply Forall_fmap, Forall_forall. intros h Hh. unfold PendingHeadersOlderThan in Hh. cbn.
  destruct (vt_closed _); [by apply not_elem_of_nil in Hh|].
  apply list_elem_of_fmap in Hh as (p & -> & [_ Hin]%list_elem_of_filter).
  apply list_elem_of_fmap in Hin as ([k p'] & -> & Hin%elem_of_range).
  by apply (po_headers _ _ (nd_primary _ Hok) k).
Qed.

Lemma rebroadcastLoop_ok send now l : node_ok l → step_ok (rebroadcastLoop send now l).
Proof.
  intros Hok. unfold rebroadcastLoop. destruct (rebroadcastIfStuck_ok now l Hok) as [H1 H2].
  destruct (rebroadcastIfStuck now l) as [l1 out]. destruct (syncIfStuck_ok send now l1 H1) as [H3 H4].
  destruct (syncIfStuck send now l1) as [l2 out']. split; [done|]. cbn. by apply Forall_app.
Qed.

Lemma headerLoop_ok cleanup now l : node_ok l → step_ok (headerLoop cleanup now l).
Proof using L.
  intros Hok. unfold headerLoop. destruct cleanup; [|by apply header_tick_ok]. split; [|constructor].
  destruct (primary_exec_ok vs (primaryNode l) (PCleanup now) (nd_primary _ Hok)) as [Hp _]. destruct Hok. by split.
Qed.

Lemma fetcherLoop_ok now l : node_ok l → step_ok (fetcherLoop now l).
Proof.
  intros Hok. unfold fetcherLoop. destruct (BatchFetcher.cleanupTimedOutRequests now (batchFetcher l)) as [f outs].
  split; [destruct Hok; by split|]. apply Forall_forall. intros m ([v dg|?] & _ & [= <-])%list_elem_of_omap. done.
Qed.

Lemma ackLoop_ok now i l : node_ok l → node_ok (ackLoop now i l).
Proof. intros Hok. unfold ackLoop. destruct (workers _ !! i); [|done]. destruct Hok. by split. Qed.

Lemma handleBatchAck_ok now msg l : node_ok l → node_ok (handleBatchAckMessage now msg l).
Proof.
  intros Hok. unfold handleBatchAckMessage. destruct msg as [msg|]; [|done]. destruct (GetByIndex _ _); [|done].
  destruct (negb _); [done|]. destruct Hok. by split.
Qed.

(** ** Every step *)
Definition event_ok (e : event) : Prop := match e with EMessage p => packet_ok p | _ => True end.

Lemma messageLoop_ok now p l r : node_ok l → packet_ok p → messageLoop now p l = Some r → step_ok r.
Proof using L.
  intros Hok Hp. destruct p as [msg|msg|req|resp|msg|msg|msg|req|msg]; cbn [messageLoop].
  - intros [= <-]. by apply handleBatchMessage_ok.
  - intros [= <-]. split; [exact (handleBatchAck_ok now (Some msg) l Hok)|constructor].
  - intros [= <-]. split; [done|]. unfold handleBatchRequestMessage. by apply Forall_singleton.
  - intros [= <-]. by apply handleBatchResponse_ok.
  - intros [= <-]. unfold handleHeaderMessage. destruct (HM_Header msg); [by apply handle_header_ok|by split; [|constructor]].
  - intros [= <-]. by apply handleVoteMessage_ok.
  - cbn in Hp. destruct (CM_Certificate msg) as [c|].
    + destruct (handleCertificate_ok c l Hok Hp) as (l' & -> & Hl'). intros [= <-]. split; [done|constructor].
    + intros [= <-]. split; [done|constructor].
  - destruct (handleSyncRequest req l) as [out|] eqn:E; [|done]. intros [= <-]. split; [done|]. by eapply handleSyncRequest_ok.
  - destruct (SM_Response msg) as [resp|]; [|intros [= <-]; split; [done|constructor]].
    destruct (handleSyncResponse_ok resp (SM_From msg) l Hok) as (l' & -> & Hl'). intros [= <-]. split; [done|constructor].
Qed.

Lemma node_step_ok now e l r : node_ok l → event_ok e → node_step validator now e l = Some r → step_ok r.
Proof using L.
  intros Hok He. destruct e; cbn [node_step].
  - by apply messageLoop_ok.
  - intros [= <-]. by apply headerLoop_ok.
  - intros [= <-]. by apply batch_tick_ok.
  - intros [= <-]. by apply scale_tick_ok.
  - intros [= <-]. by apply syncLoop_ok.
  - intros [= <-]. by apply fetcherLoop_ok.
  - intros [= <-]. split; [by apply ackLoop_ok|constructor].
  - intros [= <-]. by apply rebroadcastLoop_ok.
  - intros [= <-]. split; [by apply gcLoop_ok|constructor].
  - intros [= <-]. split; [by apply AddTx_node_ok|constructor].
  - intros [= <-]. split; [by apply NotifyCommitted_ok|constructor].
  - intros [= <-]. by apply Flush_ok.
  - destruct (CatchUpPeerCerts l) as [out|] eqn:E; [|done]. intros [= <-]. split; [done|]. by eapply CatchUpPeerCerts_ok.
  - intros [= <-]. by apply RequestPeerCatchUp_ok.
  - intros [= <-]. split; [destruct Hok; by split|constructor].
Qed.

(** ** The loops of a step *)

(** The rounds [from] to [to] include the last 64-bit round, after which the
    counter starts again at 0. *)
Definition endless (from to : Z) : Prop := from ≤ to ∧ 2 ^ 64 - 1 ≤ to.

Lemma ordered_loop_endless d fuel from to acc : 0 ≤ from → endless from to → ordered_loop d fuel from to acc = None.
Proof using.
  intros _ [Hf Ht]. revert from acc Hf. induction fuel as [|fuel IH]; intros from acc Hf; cbn [ordered_loop];
    rewrite bool_decide_eq_true_2 by done; [done|].
  apply IH. pose proof (wrap_fits 64 (from + 1) ltac:(done)) as Hw. unfold fits in Hw. lia.
Qed.

Lemma ordered_ends_iff d from to : 0 ≤ from → is_Some (GetOrderedCertificates d from to) ↔ ¬ endless from to.
Proof using.
  intros Hf. unfold GetOrderedCertificates, endless. case_bool_decide as Hgt; [split; [lia|done]|].
  destruct (decide (2 ^ 64 - 1 ≤ to)).
  - rewrite ordered_loop_endless by (done || split; lia). split; [by intros [? [=]]|lia].
  - rewrite ordered_loop_spec by lia. split; [lia|done].
Qed.

(** A certificate message returns whether the certificate is valid or not. *)
Lemma handleCertificate_ends c l : node_ok l → is_Some (handleCertificateMessage c l).
Proof.
  intros Hok. destruct c as [c|]; [|done]. unfold handleCertificateMessage. set (p := (HandleCertificate c (primary_of l)).1).
  assert (cs_ok (p_certStore p)) as Hs.
  { destruct (nd_store l Hok) as [Hs _]. unfold p, HandleCertificate. destruct (negb _); [done|].
    destruct (Certificate_Verify c _); [done|]. destruct (cs_save (nodeCerts l) c Hs) as (_ & Hs' & _).
    change (p_certStore (primary_of l)) with (nodeCerts l).
    destruct (SaveCertificate c (nodeCerts l)) as [s [e|]]; [done|]. cbn [fst] in *. by rewrite tryAdvanceRound_store. }
  assert (dag_ok (dag_of (put_primary p l))) as Hd by exact (dag_ok_set_store _ _ (nd_dag _ Hok) Hs).
  pose proof (dag_ok_AddCertificate _ (Some c) Hd) as Hd'. unfold add_or_buffer.
  destruct (AddCertificate (Some c) (dag_of (put_primary p l))) as [d1 [e|]]; cbn [fst] in Hd'; [done|].
  destruct (replay_spec (Datatypes.S (size (orphanCerts l))) d1 (orphanCerts l) Hd' (nd_keyed _ Hok)) as (d' & o' & E & _); [lia|].
  change (orphanCerts (put_primary p l)) with (orphanCerts l). by rewrite E.
Qed.

Lemma node_loops_total now l :
  node_ok l →
  (∀ msg, is_Some (node_step validator now (EMessage (PCertificate msg)) l)) ∧
  (∀ msg, is_Some (node_step validator now (EMessage (PSyncResponse msg)) l)) ∧
  (∀ req, is_u64 (SR_FromRound req) →
     is_Some (node_step validator now (EMessage (PSyncRequest req)) l) ↔
     ¬ (s_running (syncManager l) = true ∧
        endless (SR_FromRound req) (served_to (s_cfg (syncManager l)) (highestRound (nodeDag l)) req))) ∧
  (is_Some (node_step validator now ECatchUpPeerCerts l) ↔ ¬ endless 0 (highestRound (nodeDag l))).
Proof.
  intros Hok. split_and!.
  - intros msg. cbn [node_step messageLoop]. by destruct (handleCertificate_ends (CM_Certificate msg) l Hok) as [l' ->].
  - intros msg. cbn [node_step messageLoop]. destruct (SM_Response msg) as [resp|]; [|done].
    by destruct (handleSyncResponse_ok resp (SM_From msg) l Hok) as (l' & -> & _).
  - intros req [Hf _]. cbn [node_step messageLoop]. unfold handleSyncRequest, HandleSyncRequest.
    destruct (s_running (syncManager l)); cbn [negb]; [|split; [by intros _ [? _]|done]].
    change (highestRound (dag_of l)) with (highestRound (nodeDag l)).
    pose proof (ordered_ends_iff (dag_of l) (SR_FromRound req) (served_to (s_cfg (syncManager l)) (highestRound (nodeDag l)) req) Hf) as H.
    destruct (GetOrderedCertificates _ _ _) as [certs|].
    + split; [|done]. intros _ [_ He]. by apply H.
    + split; [by intros [? [=]]|]. intros Hn. destruct H as [_ H]. destruct H; [tauto|done].
  - cbn [node_step]. unfold CatchUpPeerCerts. change (highestRound (dag_of l)) with (highestRound (nodeDag l)).
    pose proof (ordered_ends_iff (dag_of l) 0 (highestRound (nodeDag l)) ltac:(lia)) as <-.
    destruct (GetOrderedCertificates _ _ _); [by split|]. split; by intros [? [=]].
Qed.

(** ** From the start *)
Lemma fresh_node_ok cfg batches certs index :
  registered vs (NC_ValidatorIndex cfg) (NC_Signer cfg) → bs_ok batches → store_sat certs → ix_ok index →
  node_ok (fresh_node cfg vs batches certs index).
Proof.
  intros Hs Hb Hc Hi. split; try done.
  - by apply primary_ok_New.
  - apply dag_ok_set_store; [|apply Hc]. apply dag_ok_New. intros s [= <-]. apply Hc.
  - split; [intros r a c; unfold mem_cert; cbn; by rewrite lookup_empty|]. by eexists.
Qed.

Lemma initializeComponents_ok cfg l :
  node_ok l → registered vs (NC_ValidatorIndex cfg) (NC_Signer cfg) → node_ok (initializeComponents cfg l).
Proof.
  intros Hok Hs. pose proof (fresh_node_ok cfg _ _ _ Hs (nd_batches _ Hok) (nd_store _ Hok) (nd_index _ Hok)) as [].
  unfold initializeComponents. rewrite (nd_vs _ Hok). pose proof (nd_vs _ Hok). destruct Hok. by split.
Qed.

Lemma stop_pool_ok now l : node_ok l → step_ok (stop_pool now l).
Proof.
  intros Hok. unfold stop_pool. pose proof (Pool_Stop_stores now _ (pool_of_ok l Hok)) as Hp.
  destruct (Pool.Stop now (pool_of l)) as [[p made] e]. by apply pool_step_ok.
Qed.
Lemma scaler_set_ok s l : node_ok l → node_ok (l <| workerScaler := s |>).
Proof. intros []. by split. Qed.
Lemma fetcher_set_ok f l : node_ok l → node_ok (l <| batchFetcher := f |>).
Proof. intros []. by split. Qed.
Lemma primary_set_ok p l : node_ok l → primary_ok vs p → node_ok (l <| primaryNode := p |>).
Proof. intros [] ?. by split. Qed.

Lemma primary_start_ok (p : Primary S B) : primary_ok vs p → primary_ok vs (Primary.Start p).1.
Proof. intros Hp. unfold Primary.Start. destruct (running p); [done|]. destruct Hp. by split. Qed.
Lemma primary_stop_ok (p : Primary S B) : primary_ok vs p → primary_ok vs (Primary.Stop p).1.
Proof.
  intros Hp. unfold Primary.Stop. destruct (running p); [|done]. destruct Hp. split; try done. apply vt_ok_Close.
Qed.
Lemma sync_start_vs s : same_set s (Sync.Start s).1.
Proof. unfold Sync.Start. by destruct (s_running s). Qed.
Lemma sync_stop_vs s : same_set s (Sync.Stop s).1.
Proof. unfold Sync.Stop. by destruct (s_running s). Qed.

Lemma stop_primary_ok l : node_ok l → node_ok (stop_primary l).
Proof. intros Hok. apply primary_set_ok; [done|]. apply primary_stop_ok, Hok. Qed.
Lemma stop_sync_ok l : node_ok l → node_ok (stop_sync l).
Proof. intros Hok. apply sync_set_ok; [done|apply sync_stop_vs]. Qed.

Lemma stopComponents_ok now l : node_ok l → step_ok (stopComponents now l).
Proof.
  intros Hok. apply stop_pool_ok, scaler_set_ok, stop_primary_ok, fetcher_set_ok, stop_sync_ok, gc_set_ok, Hok.
Qed.

Lemma startComponents_ok now l : node_ok l → step_ok (startComponents now l).1.
Proof.
  intros Hok. unfold startComponents. pose proof (Pool_Start_stores now _ (pool_of_ok l Hok)) as Hp.
  destruct (Pool.Start now (pool_of l)) as [[p made] err]. destruct (pool_step_ok p made l Hok Hp) as [K1 K2].
  destruct (batches_created made (put_pool p l)) as [l1 out]. cbn [fst snd] in K1, K2. clear Hok Hp.
  assert (∀ l msg err, node_ok l →
    step_ok (let '(l, out') := stop_pool now l in (l, out ++ out', Some (Wrapf msg err))).1) as Hfail.
  { intros l2 msg e K3. destruct (stop_pool_ok now l2 K3) as [K4 K5]. destruct (stop_pool now l2) as [l3 out'].
    split; [done|]. cbn. by apply Forall_app. }
  destruct err as [e|]; [done|]. destruct (Scaler_Start (workerScaler l1)) as [sc [e|]]; [by apply Hfail, scaler_set_ok|].
  pose proof (scaler_set_ok sc l1 K1) as K3. set (l2 := l1 <| workerScaler := sc |>) in *. clearbody l2. clear K1.
  pose proof (primary_start_ok _ (nd_primary _ K3)) as Hpr.
  destruct (Primary.Start (primaryNode l2)) as [pr [e|]]; cbn [fst] in Hpr; [by apply Hfail, scaler_set_ok, primary_set_ok|].
  pose proof (primary_set_ok pr l2 K3 Hpr) as K4. set (l3 := l2 <| primaryNode := pr |>) in *. clearbody l3. clear K3.
  destruct (BatchFetcher.Start (batchFetcher l3)) as [f [e|]]; [by apply Hfail, scaler_set_ok, stop_primary_ok, fetcher_set_ok|].
  pose proof (fetcher_set_ok f l3 K4) as K5. set (l4 := l3 <| batchFetcher := f |>) in *. clearbody l4. clear K4.
  pose proof (sync_start_vs (syncManager l4)) as Hsy.
  destruct (Sync.Start (syncManager l4)) as [sy [e|]]; cbn [fst] in Hsy;
    [by apply Hfail, scaler_set_ok, stop_primary_ok, fetcher_set_ok, sync_set_ok|].
  pose proof (sync_set_ok sy l4 K5 Hsy) as K6. set (l5 := l4 <| syncManager := sy |>) in *. clearbody l5. clear K5.
  destruct (Gc.Start (gcManager l5)) as [g [e|]];
    [by apply Hfail, scaler_set_ok, stop_primary_ok, fetcher_set_ok, stop_sync_ok, gc_set_ok|].
  split; [by apply gc_set_ok|done].
Qed.

Lemma node_Start_ok cfg net now l :
  node_ok l → registered vs (NC_ValidatorIndex cfg) (NC_Signer cfg) → step_ok (Looseberry_Start cfg net now l).1.
Proof.
  intros Hok Hs. assert (∀ b l, node_ok l → node_ok (l <| nodeRunning := b |>)) as Hrun by (intros b l' []; by split).
  unfold Looseberry_Start. destruct (nodeRunning l); [by split; [|constructor]|].
  destruct (startComponents_ok now _ (initializeComponents_ok cfg _ (Hrun true l Hok) Hs)) as [K1 K2].
  destruct (startComponents now _) as [[l1 out] [e|]]; cbn [fst snd] in K1, K2; [by split; [apply Hrun|]|].
  destruct net as [e|].
  - destruct (stopComponents_ok now l1 K1) as [K3 K4]. destruct (stopComponents now l1) as [l2 out']. split; [by apply Hrun|].
    cbn. by apply Forall_app.
  - split; [destruct K1; by split|done].
Qed.

(** ** Runs *)
Fixpoint node_run (es : list (Z * event)) l : option (Looseberry S B I * list message) :=
  match es with
  | [] => Some (l, [])
  | (now, e) :: es' =>
      match node_step validator now e l with
      | None => None
      | Some (l, out) => (λ '(l, out'), (l, out ++ out')) <$> node_run es' l
      end
  end.

Lemma node_run_ok es l r : node_ok l → Forall (λ p, event_ok p.2) es → node_run es l = Some r → step_ok r.
Proof using L.
  intros Hok He. revert l r Hok. induction He as [|[now e] es He _ IH]; intros l r Hok; cbn [node_run].
  { intros [= <-]. split; [done|constructor]. }
  destruct (node_step validator now e l) as [[l1 out]|] eqn:E; [|done].
  destruct (node_step_ok now e l _ Hok He E) as [K1 K2]. cbn [fst snd] in K1, K2.
  destruct (node_run es l1) as [[l2 out']|] eqn:E'; [|done]. intros [= <-].
  destruct (IH l1 _ K1 E') as [K3 K4]. split; [done|]. cbn. by apply Forall_app.
Qed.

Lemma reap_loop_verified batches maxBytes refs seen result total :
  Forall verified refs.*2 → Forall (λ cb, verified (CB_Certificate cb)) result →
  Forall (λ cb, verified (CB_Certificate cb)) (reap_loop (B := B) batches maxBytes refs seen result total).
Proof.
  revert seen result total. induction refs as [|[ref c] refs IH]; intros seen result total Hr Hres; cbn [reap_loop]; [done|].
  rewrite fmap_cons in Hr. apply Forall_cons in Hr as [Hc Hr]. destruct (decide _); [by apply IH|].
  destruct (GetBatch _ _) as [b|]; [|by apply IH]. destruct (_ && _); [done|]. apply IH; [done|].
  apply Forall_app. split; [done|]. by apply Forall_singleton.
Qed.

Lemma Reap_verified maxBytes l cbs :
  node_ok l → Reap maxBytes l = Some cbs → Forall (λ cb, verified (CB_Certificate cb)) cbs.
Proof.
  intros Hok. unfold Reap, ReapCertifiedBatches. destruct (_ && _); [intros [= <-]; constructor|].
  destruct (GetOrderedCertificates _ _ _) as [certs|] eqn:E; [|done]. case_bool_decide; intros [= <-]; [constructor|].
  apply reap_loop_verified; [|constructor]. apply Forall_forall. intros c ([ref c'] & -> & [Hc _]%cert_refs_spec)%list_elem_of_fmap.
  pose proof (ordered_verified _ _ _ _ (nd_sat _ Hok) E) as Hv. rewrite Forall_forall in Hv. by apply Hv.
Qed.

(** C8. A node holds and sends only what is valid: from its start with consistent
    stores, in a fixed validator set in which its key is registered, after any
    sequence of messages, ticks of its loops, added transactions, commits,
    collections and flushes, its DAG and stores are consistent, every
    certificate in the DAG, in the certificate store, in the orphan buffer and in
    what [ReapCertifiedBatches] hands to consensus verifies, the orphan buffer
    keeps its cap, and every header, vote, certificate, acknowledgement and sync
    response sent carries valid signatures.  Peers may send anything, sync
    responses included, except certificate messages that do not verify. *)
Theorem node_holds_only_verified cfg batches certs index net now es l out :
  registered vs (NC_ValidatorIndex cfg) (NC_Signer cfg) → bs_ok batches → store_sat certs → ix_ok index →
  Forall (λ p, event_ok p.2) es →
  node_run es (Looseberry_Start cfg net now (fresh_node cfg vs batches certs index)).1.1 = Some (l, out) →
  dag_ok (dag_of l) ∧ bs_ok (batchStore l) ∧ ix_ok (txIndex l) ∧
  (∀ r a c, mem_cert (dag_of l) r a = Some c → verified c) ∧
  all_verified (cs_view (nodeCerts l)) ∧ all_verified (orphanCerts l) ∧
  (∀ maxBytes cbs, Reap maxBytes l = Some cbs → Forall (λ cb, verified (CB_Certificate cb)) cbs) ∧
  zsize (orphanCerts l) ≤ orphanCertCap ∧
  Forall message_valid out.
Proof using L.
  intros Hs Hb Hc Hi He E. pose proof (fresh_node_ok cfg batches certs index Hs Hb Hc Hi) as Hf.
  destruct (node_Start_ok cfg net now _ Hf Hs) as [Hst _]. destruct (node_run_ok es _ _ Hst He E) as [Hok Ho]. cbn [fst snd] in *.
  split_and!; [apply Hok..|apply (nd_store _ Hok)|apply Hok| |apply Hok|done].
  intros maxBytes cbs. by apply Reap_verified.
Qed.

(** C14. The loops of a node that no collection bounds end: from its start, after
    any such sequence, every certificate message (valid or not) returns, with the
    replay of all orphan certificates that it makes possible, and so does every
    sync response; a sync request returns exactly when the sync manager is stopped
    or the range of rounds to serve is empty or ends before the last 64-bit round,
    and a catch-up broadcast exactly when the highest round is smaller than that.
    Otherwise the loop over the rounds does not end, whatever number of iterations
    it is given.  Waiting for a lock is not part of a step. *)
Theorem node_loops_end cfg batches certs index net now es l out now' :
  registered vs (NC_ValidatorIndex cfg) (NC_Signer cfg) → bs_ok batches → store_sat certs → ix_ok index →
  Forall (λ p, event_ok p.2) es →
  node_run es (Looseberry_Start cfg net now (fresh_node cfg vs batches certs index)).1.1 = Some (l, out) →
  (∀ msg, is_Some (node_step validator now' (EMessage (PCertificate msg)) l)) ∧
  (∀ msg, is_Some (node_step validator now' (EMessage (PSyncResponse msg)) l)) ∧
  (∀ req, is_u64 (SR_FromRound req) →
     is_Some (node_step validator now' (EMessage (PSyncRequest req)) l) ↔
     ¬ (s_running (syncManager l) = true ∧
        endless (SR_FromRound req) (served_to (s_cfg (syncManager l)) (highestRound (nodeDag l)) req))) ∧
  (is_Some (node_step validator now' ECatchUpPeerCerts l) ↔ ¬ endless 0 (highestRound (nodeDag l))) ∧
  (∀ fuel from to, 0 ≤ from → endless from to → ordered_loop (dag_of l) fuel from to [] = None).
Proof using L.
  intros Hs Hb Hc Hi He E. pose proof (fresh_node_ok cfg batches certs index Hs Hb Hc Hi) as Hf.
  destruct (node_Start_ok cfg net now _ Hf Hs) as [Hst _]. destruct (node_run_ok es _ _ Hst He E) as [Hok _].
  destruct (node_loops_total now' l Hok) as (H1 & H2 & H3 & H4). split_and!; [exact H1|exact H2|exact H3|exact H4|].
  intros fuel from to. apply ordered_loop_endless.
Qed.
End invariant.

(** ** Closed examples *)
#[local] Existing Instance toy_ed25519.
#[local] Existing Instance Toy.laws.
#[local] Existing Instance range_sorted.

Module NodeRunExample.
(** Validator 0 receives a header of validator 1, an orphan certificate and its
    parent, a transaction, makes a batch, is asked to sync, and collects. *)
Definition events : list (Z * event) :=
  [(2, EMessage (PHeader (mk_HeaderMessage (Some (Toy.header 1 0 [9] [])) 1)));
   (3, EMessage (PCertificate (mk_CertificateMessage (Some DagExample.child) 1)));
   (4, EMessage (PCertificate (mk_CertificateMessage (Some DagExample.genesis) 0)));
   (5, EAddTx [1; 2]); (6, EBatchLoop 0);
   (7, EMessage (PSyncRequest (mk_SyncRequest 0 0 1)));
   (8, ECommitted 1); (9, EGC)].
Definition net : option error := None.
Abbreviation initial :=
  (Looseberry_Start (NodeExample.config 0) net 1
     (fresh_node (NodeExample.config 0) Toy.vs NewMemoryBatchStore NewMemoryCertificateStore NewMemoryTxIndex)).1.1.
End NodeRunExample.

Lemma toy_store_sat : store_sat Toy.vs NewMemoryCertificateStore.
Proof. split; [exact mc_ok_new|]. intros dg c E. cbn in E. by rewrite lookup_empty in E. Qed.

Lemma node_run_events_ok : Forall (λ p, event_ok Toy.vs p.2) NodeRunExample.events.
Proof. repeat constructor; by vm_compute. Qed.

Lemma node_holds_only_verified_witness :
  ∃ l out, node_run None NodeRunExample.events NodeRunExample.initial = Some (l, out) ∧
    (∀ r a c, mem_cert (dag_of l) r a = Some c → verified Toy.vs c) ∧ Forall (message_valid Toy.vs) out.
Proof.
  assert (match node_run None NodeRunExample.events NodeRunExample.initial with Some _ => true | None => false end = true)
    as Hsome by (by vm_compute).
  destruct (node_run None NodeRunExample.events NodeRunExample.initial) as [[l out]|] eqn:E; [|discriminate Hsome].
  exists l, out. split; [reflexivity|].
  destruct (node_holds_only_verified None Toy.vs (NodeExample.config 0) NewMemoryBatchStore NewMemoryCertificateStore
    NewMemoryTxIndex NodeRunExample.net 1 NodeRunExample.events l out) as (_ & _ & _ & Hm & _ & _ & _ & _ & Ho).
  - apply (toy_registered 0). lia.
  - exact mb_ok_new.
  - exact toy_store_sat.
  - exact ti_ok_new.
  - exact node_run_events_ok.
  - exact E.
  - split; [exact Hm|exact Ho].
Defined.

(** After the run a certificate is handled, and a request for all rounds hangs
    the node. *)
Lemma node_loops_end_witness :
  ∃ l out, node_run None NodeRunExample.events NodeRunExample.initial = Some (l, out) ∧
    is_Some (node_step None 10 (EMessage (PCertificate (mk_CertificateMessage (Some NodeExample.grandchild) 2))) l) ∧
    ¬ is_Some (node_step None 10 (EMessage (PSyncRequest (mk_SyncRequest 0 (2 ^ 64 - 1) 2))) l).
Proof.
  assert (match node_run None NodeRunExample.events NodeRunExample.initial with
          | Some (l, _) => s_running (syncManager l) && bool_decide (served_to (s_cfg (syncManager l))
              (highestRound (nodeDag l)) (mk_SyncRequest 0 (2 ^ 64 - 1) 2) = 2 ^ 64 - 1)
          | None => false
          end = true) as Hsome by (by vm_compute).
  destruct (node_run None NodeRunExample.events NodeRunExample.initial) as [[l out]|] eqn:E; [|discriminate Hsome].
  apply andb_prop in Hsome as [Hr Hs%bool_decide_eq_true]. exists l, out. split; [reflexivity|].
  destruct (node_loops_end None Toy.vs (NodeExample.config 0) NewMemoryBatchStore NewMemoryCertificateStore
    NewMemoryTxIndex NodeRunExample.net 1 NodeRunExample.events l out 10) as (H1 & _ & H3 & _).
  - apply (toy_registered 0). lia.
  - exact mb_ok_new.
  - exact toy_store_sat.
  - exact ti_ok_new.
  - exact node_run_events_ok.
  - exact E.
  - split; [exact (H1 _)|]. intros Hn. apply (proj1 (H3 (mk_SyncRequest 0 (2 ^ 64 - 1) 2) ltac:(cbn; unfold fits; lia))); [exact Hn|].
    split; [exact Hr|]. rewrite Hs. split; cbn; lia.
Defined.

(** What the run sends: a vote for the header, the batch, the sync response. *)
Example run_sends :
  match node_run None NodeRunExample.events NodeRunExample.initial with
  | Some (l, [SendVote 1 v; BroadcastBatch b; SendSyncResponse 1 resp]) =>
      HeaderDigest v = [9] ∧ Transactions b = [[1; 2]] ∧ SP_Certificates resp = [DagExample.genesis; DagExample.child]
  | _ => False
  end.
Proof. by vm_compute. Qed.
