(* ===== verification/Cluster.v ===== *)
(** Nodes connected by the mock network: each address holds a network object and,
    for a correct validator, a node.  A step delivers one message to a node, or
    runs one of its loops or operations, and transmits what the node sends; other
    objects send what they like.  The invariants of the nodes and of the network
    compose: certificates that do not verify never enter a node, as long as no
    peer sends one in a certificate message. *)
From S2P Require Import Prelude Bytes Sha256 Errors Types Batch Header BitSet Certificate Store TxIndex.
From S2P Require Import Dag DagHistory VoteTracker Primary BatchFetcher Heap AckTracker Worker Pool Flow Gc Sync.
From S2P Require Import Config Scaler Looseberry Messages MockNetwork NodeRun.
Local Open Scope Z_scope.

Section cluster.
Context `{Ed : Ed25519} {S B I : Type} {CS : CertificateStore S} {BS : BatchStore B} {TI : TxIndex I}.
Context {RV : RangeOrder Z Vote} {RP : RangeOrder Hash PendingHeader} {RO : RangeOrder Hash Certificate}.
Context {RC : RangeOrder Z Certificate} {RH : RangeOrder Hash Z} {RB : RangeOrder Hash PendingBatch}.
Context {RS : RangeOrder Z pendingSyncRequest} {RF : RangeOrder Hash pendingBatchRequest} {RN : RangeOrder Z Z}.
Context (validator : option (Transaction → result TxAdmission)).

Record cluster := mk_cluster {
  cl_net : net;
  cl_nodes : gmap Z (Looseberry S B I)
}.

(** What a node sends, in order; errors of the network are ignored, as the
    callbacks of the node do. *)
Definition transmit_all (out : list message) (me self : Z) (w : net) : net :=
  fold_left (λ w msg, (transmit msg me self w).1) out w.

Inductive cluster_op :=
  | Deliver (now a : Z) (k : kind)
  | Local (now a : Z) (e : event)
  | Foreign (a me : Z) (msg : message)
  | Link (op : net_op).

(** Operations of the network that are not a node's: connections and life. *)
Definition is_link (op : net_op) : bool :=
  match op with NConnect _ _ | NDisconnect _ _ | NStart _ | NStop _ | NResetStats _ => true | _ => false end.

Definition run_event (now a : Z) (e : event) (c : cluster) : option cluster :=
  match cl_nodes c !! a with
  | None => Some c
  | Some l =>
      match node_step validator now e l with
      | None => None
      | Some (l', out) => Some (mk_cluster (transmit_all out (validatorIndex l) a (cl_net c)) (<[a := l']> (cl_nodes c)))
      end
  end.

(** One step; [None] when a handler does not end or the network panics. *)
Definition cluster_exec (c : cluster) (op : cluster_op) : option cluster :=
  match op with
  | Deliver now a k =>
      match cl_net c !! a ≫= receive_packet k with
      | None => Some c
      | Some (p, m) => run_event now a (EMessage p) (mk_cluster (<[a := m]> (cl_net c)) (cl_nodes c))
      end
  | Local now a e => match e with EMessage _ => Some c | _ => run_event now a e c end
  | Foreign a me msg => Some (mk_cluster (transmit msg me a (cl_net c)).1 (cl_nodes c))
  | Link op => if is_link op then (λ w, mk_cluster w (cl_nodes c)) <$> net_exec (cl_net c) op else Some c
  end.

Fixpoint cluster_run (c : cluster) (ops : list cluster_op) : option cluster :=
  match ops with [] => Some c | op :: ops' => cluster_exec c op ≫= λ c, cluster_run c ops' end.
End cluster.
Arguments cluster S B I : clear implicits.

Section invariant.
Context `{Ed : Ed25519} {S B I : Type} {CS : CertificateStore S} {CL : CertificateStoreLaws S}.
Context {BS : BatchStore B} {BL : BatchStoreLaws B} {TI : TxIndex I} {TL : TxIndexLaws I}.
Context {RV : RangeOrder Z Vote} {RP : RangeOrder Hash PendingHeader} {RO : RangeOrder Hash Certificate}.
Context {RC : RangeOrder Z Certificate} {RH : RangeOrder Hash Z} {RB : RangeOrder Hash PendingBatch}.
Context {RS : RangeOrder Z pendingSyncRequest} {RF : RangeOrder Hash pendingBatchRequest} {RN : RangeOrder Z Z}.
Context (validator : option (Transaction → result TxAdmission)).
Context (vs : ValidatorSet) {L : ValidatorSetLaws vs}.
Implicit Types c : cluster S B I.

(** Every packet in a channel satisfies [P]. *)
Definition packets (P : packet → Prop) (w : net) : Prop := ∀ a m k p, w !! a = Some m → p ∈ buf k m → P p.

Record cluster_ok c : Prop := {
  ck_net : net_ok (cl_net c);
  ck_packets : packets (packet_ok vs) (cl_net c);
  ck_nodes a l : cl_nodes c !! a = Some l → node_ok vs l
}.

(** A foreign message may be anything but a certificate that does not verify. *)
Definition foreign_ok (msg : message) : Prop :=
  match msg with BroadcastCertificate cert => verified vs cert | _ => True end.
Definition op_ok (op : cluster_op) : Prop := match op with Foreign _ _ msg => foreign_ok msg | _ => True end.

Lemma packet_of_ok msg me id k p : foreign_ok msg → packet_of msg me id = Some (k, p) → packet_ok vs p.
Proof. destruct msg; cbn; intros ? [= <- <-]; done. Qed.

Lemma valid_foreign msg : message_valid vs msg → foreign_ok msg.
Proof. by destruct msg. Qed.

Lemma transmit_packets msg me self w :
  net_ok w → packets (packet_ok vs) w → foreign_ok msg →
  net_ok (transmit msg me self w).1 ∧ packets (packet_ok vs) (transmit msg me self w).1.
Proof.
  intros Hok Hp Hm. split; [by apply transmit_ok|]. destruct (w !! self) as [m|] eqn:Em.
  - destruct (packet_of msg me (mn_validatorID m)) as [[k p]|] eqn:Ep; [|by destruct msg].
    pose proof (transmit_spec msg me self w m k p Hok Em Ep) as H. cbn zeta in H.
    destruct (mn_running m); [|by rewrite H]. destruct H as [_ Hg]. intros a n k' q En Hq.
    destruct (grown_back _ _ _ _ _ _ Hg En) as (n0 & En0 & [_ _ Hb]). rewrite Hb in Hq.
    apply elem_of_app in Hq as [Hq|Hq]; [by eapply Hp|]. cbn beta in Hq. apply (packet_of_ok msg me (mn_validatorID m) k); [done|].
    assert (q = p) as ->; [|done]. unfold fits_in in Hq.
    repeat first [case_decide | case_match]; first [by apply list_elem_of_singleton in Hq | by apply not_elem_of_nil in Hq].
  - assert ((transmit msg me self w).1 = w) as ->; [|done].
    destruct msg; try done; cbn [transmit];
      unfold onBatchRequest, Mock_BroadcastBatch, Mock_BroadcastHeader, Mock_BroadcastCertificate, Mock_SendVote, Mock_SendBatchAck,
        Mock_SendBatchRequest, Mock_SendBatchResponse, Mock_SendSyncRequest, Mock_SendSyncResponse, broadcast, send;
      by rewrite Em.
Qed.

Lemma transmit_all_ok out me self w :
  net_ok w → packets (packet_ok vs) w → Forall (message_valid vs) out →
  net_ok (transmit_all out me self w) ∧ packets (packet_ok vs) (transmit_all out me self w).
Proof.
  intros Hok Hp Ho. revert w Hok Hp. induction Ho as [|msg out Hm _ IH]; intros w Hok Hp; [done|].
  destruct (transmit_packets msg me self w Hok Hp (valid_foreign msg Hm)) as [K1 K2]. by apply IH.
Qed.

Lemma run_event_ok now a e c c' :
  cluster_ok c → event_ok vs e → run_event validator now a e c = Some c' → cluster_ok c'.
Proof using L.
  intros [K1 K2 K3] He. unfold run_event. destruct (cl_nodes c !! a) as [l|] eqn:El; [|by intros [= <-]].
  destruct (node_step validator now e l) as [[l' out]|] eqn:E; [|done]. intros [= <-].
  destruct (node_step_ok validator vs now e l _ (K3 a l El) He E) as [K4 K5].
  destruct (transmit_all_ok out (validatorIndex l) a (cl_net c) K1 K2 K5) as [K6 K7].
  split; [done..|]. cbn. intros b n [[_ <-]|[_ ?]]%lookup_insert_Some; [done|by eapply K3].
Qed.

(** Links leave the channels alone. *)
Lemma link_packets op w w' P : is_link op = true → net_exec w op = Some w' → packets P w → packets P w'.
Proof.
  intros Hl E Hp. assert (∀ a m', w' !! a = Some m' → ∃ m, w !! a = Some m ∧ ∀ k, buf k m' = buf k m) as Hsame.
  { assert (∀ a f (w : net), (∀ m k, buf k (f m) = buf k m) → ∀ b m', update a f w !! b = Some m' →
      ∃ m, w !! b = Some m ∧ ∀ k, buf k m' = buf k m) as Hup.
    { intros a f w0 Hf b m'. unfold update. destruct (decide (b = a)) as [->|Hne].
      - rewrite lookup_alter_eq. destruct (w0 !! a) as [m|]; [|done]. intros [= <-]. eauto.
      - rewrite lookup_alter_ne by done. eauto. }
    destruct op as [a b|a id|a|a|a me msg|a k|a p|a]; try done; cbn [net_exec] in E.
    - injection E as <-. unfold Connect. destruct (w !! a) as [m|]; [|eauto]. destruct (w !! b) as [n|]; [|eauto].
      intros x m' (m1 & E1 & Hb1)%Hup; [|by intros ? []]. apply Hup in E1 as (m2 & E2 & Hb2); [|by intros ? []].
      exists m2. split; [done|]. intros k. by rewrite Hb1, Hb2.
    - injection E as <-. unfold Disconnect. destruct (w !! a) as [m|]; [|eauto]. destruct (peers m !! id) as [b|].
      + intros x m' (m1 & E1 & Hb1)%Hup; [|by intros ? []]. apply Hup in E1 as (m2 & E2 & Hb2); [|by intros ? []].
        exists m2. split; [done|]. intros k. by rewrite Hb1, Hb2.
      + apply Hup. by intros ? [].
    - injection E as <-. apply Hup. by intros ? [].
    - destruct (w !! a) as [m|] eqn:Em; [|injection E as <-; eauto]. unfold Mock_Stop in E.
      destruct (mn_running m); [destruct (mn_stopped m); [done|]|]; cbn in E; injection E as <-; intros x m';
        (intros [[<- <-]|[_ ?]]%lookup_insert_Some; [exists m; split; [done|by intros []]|eauto]).
    - injection E as <-. apply Hup. by intros ? []. }
  intros a m' k p E' Hin. destruct (Hsame a m' E') as (m & Em & Hb). rewrite Hb in Hin. by eapply Hp.
Qed.

Lemma cluster_exec_ok c op c' : cluster_ok c → op_ok op → cluster_exec validator c op = Some c' → cluster_ok c'.
Proof using L.
  intros Hok Hop. pose proof Hok as [K1 K2 K3]. destruct op as [now a k|now a e|a me msg|op]; cbn [cluster_exec].
  - destruct (cl_net c !! a) as [m|] eqn:Em; cbn; [|by intros [= <-]].
    pose proof (receive_packet_spec k m) as Hr. destruct (receive_packet k m) as [[p m']|] eqn:Ep; [|by intros [= <-]].
    destruct Hr as (Hl & Hp & Hc & Hb).
    assert (∀ q k', q ∈ buf k' m' → q ∈ buf k' m) as Hsub.
    { intros q k' Hq. destruct (decide (k' = k)) as [->|Hne]; [rewrite Hp; by right|by rewrite Hb in Hq]. }
    apply run_event_ok; [|cbn; eapply K2; [exact Em|]; rewrite Hp; left].
    split; cbn; [| |done].
    + apply (net_exec_ok (cl_net c) (NReceive a k)); [done|]. cbn. by rewrite Em; cbn; rewrite Ep.
    + intros b n k' q [[<- <-]|[_ En]]%lookup_insert_Some Hq; [|by eapply K2]. eapply K2; [exact Em|by apply Hsub].
  - destruct e; try (by apply run_event_ok). by intros [= <-].
  - intros [= <-]. destruct (transmit_packets msg me a (cl_net c) K1 K2 Hop). by split.
  - destruct (is_link op) eqn:El; [|by intros [= <-]]. destruct (net_exec (cl_net c) op) as [w|] eqn:Ew; [|done]. intros [= <-].
    split; [by eapply net_exec_ok|by eapply link_packets|done].
Qed.

Lemma cluster_run_ok c ops c' : cluster_ok c → Forall op_ok ops → cluster_run validator c ops = Some c' → cluster_ok c'.
Proof using L.
  intros Hok Ho. revert c Hok. induction Ho as [|op ops Hop _ IH]; intros c Hok; cbn [cluster_run]; [by intros [= <-]|].
  destruct (cluster_exec validator c op) as [c1|] eqn:E; [|done]. apply IH. by eapply cluster_exec_ok.
Qed.

(** A correct node that was just started. *)
Inductive started_node : Looseberry S B I → Prop :=
  | started cfg batches certs index net now :
      registered vs (NC_ValidatorIndex cfg) (NC_Signer cfg) → bs_ok batches → store_sat vs certs → ix_ok index →
      started_node (Looseberry_Start cfg net now (fresh_node cfg vs batches certs index)).1.1.

Lemma started_ok l : started_node l → node_ok vs l.
Proof. intros [cfg batches certs index net now Hs Hb Hc Hi]. apply node_Start_ok; [by apply fresh_node_ok|done]. Qed.

Lemma fresh_net_packets P cfg ids : NoDup ids → packets P (fresh_net cfg ids).
Proof.
  intros Hnd a m k p E%fresh_net_lookup; [|done]. revert E. unfold NewMockNetwork. case_bool_decide; [done|]. intros [= <-].
  destruct k; cbn; by intros ?%not_elem_of_nil.
Qed.

(** C9. A network of nodes stays free of invalid certificates: start correct nodes
    on fresh network objects and let them run, with any interleaving of message
    deliveries, loops, operations, connections and disconnections, while every
    other participant sends any message except a certificate that does not verify.
    Then every certificate in the DAG, the store and the orphan buffer of every
    node, and every one handed to consensus, verifies; every certificate message
    in a channel verifies; the DAGs and stores are consistent; connections are
    symmetric and channels bounded. *)
Theorem cluster_holds_only_verified netCfg ids nodes ops c :
  NoDup ids → (∀ a l, nodes !! a = Some l → started_node l) → Forall op_ok ops →
  cluster_run validator (mk_cluster (fresh_net netCfg ids) nodes) ops = Some c →
  net_ok (cl_net c) ∧ packets (packet_ok vs) (cl_net c) ∧
  ∀ a l, cl_nodes c !! a = Some l →
    dag_ok (dag_of l) ∧ bs_ok (batchStore l) ∧
    (∀ r v cert, mem_cert (dag_of l) r v = Some cert → verified vs cert) ∧
    all_verified vs (cs_view (nodeCerts l)) ∧ all_verified vs (orphanCerts l) ∧
    ∀ maxBytes cbs, Reap maxBytes l = Some cbs → Forall (λ cb, verified vs (CB_Certificate cb)) cbs.
Proof using L.
  intros Hnd Hn Ho E. assert (cluster_ok (mk_cluster (fresh_net netCfg ids) nodes)) as K0.
  { split; [by apply fresh_net_ok|by apply fresh_net_packets|]. cbn. intros a l Hl. by apply started_ok, (Hn a). }
  destruct (cluster_run_ok _ ops c K0 Ho E) as [K1 K2 K3].
  split_and!; [done..|]. intros a l Hl. pose proof (K3 a l Hl) as Hok.
  split_and!; [apply Hok..|apply (nd_store vs _ Hok)|apply Hok|]. intros maxBytes cbs. by apply (Reap_verified vs).
Qed.
End invariant.

(** ** Closed examples *)
#[local] Existing Instance toy_ed25519.
#[local] Existing Instance Toy.laws.
#[local] Existing Instance range_sorted.

Module ClusterExample.
Abbreviation node i :=
  (Looseberry_Start (NodeExample.config i) None 1
     (fresh_node (NodeExample.config i) Toy.vs NewMemoryBatchStore NewMemoryCertificateStore NewMemoryTxIndex)).1.1.
Definition state : Type := cluster MemoryCertificateStore MemoryBatchStore MemoryTxIndex.
Definition netCfg : NetConfig := mk_NetConfig 10 100 30000.

(** Four nodes, all connected. *)
Definition all : list Z := [0; 1; 2; 3].
Definition connect : list cluster_op :=
  concat (map (λ a, Link (NStart a) :: (Link ∘ NConnect a <$> filter (λ b, a < b) all)) all).
Definition four : gmap Z NodeExample.node := list_to_map (map (λ i, (i, node i)) all).
Definition deliver (now : Z) (k : kind) (times : nat) : list cluster_op :=
  concat (replicate times (map (λ a, Deliver now a k) all)).

(** A transaction is added at node 0, batched, acknowledged, put into a header,
    voted for, certified, and the certificate is delivered. *)
Definition life_of_a_transaction : list cluster_op :=
  connect ++ [Local 2 0 (EAddTx [7; 7]); Local 3 0 (EBatchLoop 0)] ++ deliver 4 KBatch 1 ++ deliver 5 KBatchAck 3 ++
  [Local 6 0 (EHeaderLoop false)] ++ deliver 7 KHeader 1 ++ deliver 8 KVote 3 ++ deliver 9 KCertificate 1.
Definition final : option state := cluster_run None (mk_cluster (fresh_net netCfg all) four) life_of_a_transaction.

Definition node_at (c : option state) (a : Z) : option NodeExample.node :=
  match c with Some c => cl_nodes c !! a | None => None end.

(** The transactions that a node would hand to consensus, with the digests of the
    certificates that carry them. *)
Definition reaped (c : option state) (a : Z) : option (list (list Transaction * Hash)) :=
  match node_at c a with
  | Some l => map (λ cb, (Transactions (CB_Batch cb), CDigest (CB_Certificate cb))) <$> Reap 1000 l
  | None => None
  end.

(** Validator 3 is not a node: it sends two headers of its round 0. *)
Definition three : gmap Z NodeExample.node := list_to_map (map (λ i, (i, node i)) [0; 1; 2]).
Definition left : Header := Toy.header 3 0 [21] [].
Definition right : Header := Toy.header 3 0 [22] [].
Definition two_headers : list cluster_op :=
  connect ++ [Foreign 3 3 (BroadcastHeader left); Foreign 3 3 (BroadcastHeader right)] ++ deliver 2 KHeader 2.
Definition voted : option state := cluster_run None (mk_cluster (fresh_net netCfg all) three) two_headers.
(** The votes for a header that arrived at validator 3, as a certificate. *)
Definition certificate_of (h : Header) : Certificate :=
  let votes :=
    match voted with
    | Some c => match cl_net c !! 3 with Some m => omap VM_Vote (ch_buf (voteCh m)) | None => [] end
    | None => []
    end in
  NewCertificate h (filter (λ v, HeaderDigest v = Digest h) votes).
(** It shows one certificate to node 0 and the other to node 1. *)
Definition two_certificates : list cluster_op :=
  two_headers ++
  [Link (NDisconnect 3 1); Foreign 3 3 (BroadcastCertificate (certificate_of left)); Link (NDisconnect 3 0);
   Link (NConnect 3 1); Foreign 3 3 (BroadcastCertificate (certificate_of right))] ++ deliver 3 KCertificate 1.
Definition split_state : option state := cluster_run None (mk_cluster (fresh_net netCfg all) three) two_certificates.
Definition held (c : option state) (a : Z) : option Certificate :=
  match node_at c a with Some l => mem_cert (dag_of l) 0 3 | None => None end.
End ClusterExample.
Import ClusterExample.

(** The whole path of a transaction through four nodes: all of them would hand it
    to consensus under the same certificate. *)
Example transaction_reaches_all_nodes :
  match reaped final 0 with
  | Some [(txs, d)] => txs = [[7; 7]] ∧ map (reaped final) all = replicate 4 (Some [([[7; 7]], d)])
  | _ => False
  end.
Proof. vm_compute. split; reflexivity. Qed.

(** One faulty validator of four leaves two correct nodes with different
    certificates of the same author and round: both verify, because the correct
    validators voted for both headers of the author. *)
Example equivocation_splits_the_nodes :
  held split_state 0 = Some (certificate_of left) ∧ held split_state 1 = Some (certificate_of right) ∧
  Certificate_Verify (certificate_of left) Toy.vs = None ∧ Certificate_Verify (certificate_of right) Toy.vs = None ∧
  CDigest (certificate_of left) ≠ CDigest (certificate_of right).
Proof. split_and!; [vm_compute; reflexivity..|]. vm_compute. discriminate. Qed.

(** The hypotheses of [cluster_holds_only_verified] hold of the life of a
    transaction above. *)
Lemma table_lookup {A} (f : Z → A) ids a x : (list_to_map (map (λ i, (i, f i)) ids) : gmap Z A) !! a = Some x → ∃ i, i ∈ ids ∧ x = f i.
Proof. intros (i & E & Hi)%elem_of_list_to_map_2%list_elem_of_fmap. exists i. split; [done|]. congruence. Qed.

Lemma started_example i l : i ∈ all → l = node i → started_node Toy.vs l.
Proof.
  intros Hi ->. apply (started Toy.vs (NodeExample.config i) NewMemoryBatchStore NewMemoryCertificateStore NewMemoryTxIndex None 1).
  - apply toy_registered. unfold all in Hi. set_solver by lia.
  - exact mb_ok_new.
  - exact toy_store_sat.
  - exact ti_ok_new.
Qed.

Lemma four_started a l : four !! a = Some l → started_node Toy.vs l.
Proof. intros (i & Hi & E)%(table_lookup (λ i, node i)). exact (started_example i l Hi E). Qed.

Lemma no_foreign_ok (ops : list cluster_op) :
  forallb (λ op, match op with Foreign _ _ _ => false | _ => true end) ops = true → Forall (op_ok Toy.vs) ops.
Proof. induction ops as [|op ops IH]; constructor; [by destruct op|]. apply IH. by destruct op. Qed.

Lemma cluster_holds_only_verified_witness :
  ∃ c, final = Some c ∧ net_ok (cl_net c) ∧
    ∀ a l, cl_nodes c !! a = Some l → all_verified Toy.vs (cs_view (nodeCerts l)).
Proof.
  assert (match final with Some _ => true | None => false end = true) as Hsome by (by vm_compute).
  destruct final as [c|] eqn:E; [|discriminate Hsome]. exists c. split; [reflexivity|].
  destruct (cluster_holds_only_verified None Toy.vs netCfg all four life_of_a_transaction c) as (Hn & _ & Hc).
  - apply (bool_decide_eq_true_1 (NoDup all)). by vm_compute.
  - exact four_started.
  - apply no_foreign_ok. by vm_compute.
  - exact E.
  - split; [exact Hn|]. intros a l Hl. by destruct (Hc a l Hl) as (_ & _ & _ & ? & _).
Defined.
