(* ===== verification/LevelDB.v ===== *)
(** What the persistent stores use of other repositories, as classes: the
    key-value database goleveldb (get, has, atomic write batches, iteration over
    a key prefix) and the cramberry codec.  The laws are the documented behaviour
    of an open database whose files can be read and written, and that decoding
    inverts encoding.  The stores are defined for any database, so their error
    branches are those of the source; a map and a codec by enumeration are the
    instances for closed examples. *)
From S2P Require Import Prelude Bytes Errors Types Batch Header BitSet Certificate.
From Stdlib Require Ascii String.
Local Open Scope Z_scope.

(** [leveldb.Batch] collects puts and deletes. *)
Inductive db_op :=
  | Put (key value : bytes)
  | Delete (key : bytes).

(** [Get]: the value, [leveldb.ErrNotFound], or another error. *)
Inductive db_get :=
  | Found (value : bytes)
  | NotFound
  | GetFailed (err : error).

(** [db_Iterate p] is what an iterator over [util.BytesPrefix(p)] yields, with
    [iter.Error()]. *)
Class LevelDB (D : Type) := {
  db_Get : bytes → D → db_get;
  db_Has : bytes → D → result bool;
  db_Write : list db_op → D → D * option error;
  db_Iterate : bytes → D → list (bytes * bytes) * option error;
  db_Close : D → D * option error
}.

Definition apply_op (m : gmap bytes bytes) (op : db_op) : gmap bytes bytes :=
  match op with Put k v => <[k := v]> m | Delete k => delete k m end.
Definition apply_ops (ops : list db_op) (m : gmap bytes bytes) : gmap bytes bytes := fold_left apply_op ops m.

Definition with_prefix (p : bytes) (m : gmap bytes bytes) : gmap bytes bytes :=
  filter (λ kv, p `prefix_of` kv.1) m.

Class LevelDBLaws (D : Type) `{LevelDB D} := {
  db_ok : D → Prop;
  db_view : D → gmap bytes bytes;
  db_get_spec d k : db_ok d →
    db_Get k d = match db_view d !! k with Some v => Found v | None => NotFound end;
  db_has_spec d k : db_ok d → db_Has k d = Ok (bool_decide (is_Some (db_view d !! k)));
  db_write_spec d ops : db_ok d →
    let r := db_Write ops d in r.2 = None ∧ db_ok r.1 ∧ db_view r.1 = apply_ops ops (db_view d);
  db_iterate_spec d p : db_ok d →
    ∃ l, db_Iterate p d = (l, None) ∧ l ≡ₚ map_to_list (with_prefix p (db_view d))
}.

(** cramberry's [Marshal] and [Unmarshal] of one type. *)
Class Codec (A : Type) := {
  Marshal : A → result bytes;
  Unmarshal : bytes → result A
}.
Class CodecLaws (A : Type) `{Codec A} (wf : A → Prop) :=
  unmarshal_marshal a : wf a → ∃ data, Marshal a = Ok data ∧ Unmarshal data = Ok a.

(** ** Keys *)

(** The bytes of an ASCII string literal. *)
Definition of_string (s : string) : bytes := (λ a, Z.of_N (Ascii.N_of_ascii a)) <$> String.list_ascii_of_string s.

(** [copy(h[:], src)] into a zeroed [types.Hash]. *)
Definition copy_hash (src : bytes) : Hash := take 32 src ++ replicate (32 - length src) 0.

Lemma copy_hash_id h : length h = 32%nat → copy_hash h = h.
Proof. intros E. unfold copy_hash. rewrite E, Nat.sub_diag, app_nil_r. apply take_ge. lia. Qed.

Lemma is_hash_length h : is_hash h → length h = 32%nat.
Proof. unfold is_hash, HashSize. lia. Qed.

(** [binary.BigEndian.Uint64] of the first eight bytes. *)
Definition Uint64 (b : bytes) : Z := be_val (take 8 b).
Definition Uint32 (b : bytes) : Z := be_val (take 4 b).

Lemma Uint64_Put z rest : is_u64 z → Uint64 (PutUint64 z ++ rest) = z.
Proof.
  intros Hz. unfold Uint64, PutUint64. rewrite take_app_length' by (by rewrite length_be_bytes).
  rewrite be_val_bytes. by apply Z.mod_small.
Qed.

Lemma Uint64_Put_nil z : is_u64 z → Uint64 (PutUint64 z) = z.
Proof. intros Hz. rewrite <-(app_nil_r (PutUint64 z)). by apply Uint64_Put. Qed.

Lemma PutUint64_length z : length (PutUint64 z) = 8%nat.
Proof. apply length_be_bytes. Qed.

(** ** Maps after a write batch *)
Lemma apply_ops_app a b m : apply_ops (a ++ b) m = apply_ops b (apply_ops a m).
Proof. apply fold_left_app. Qed.

(** Deleting a list of keys. *)
Lemma apply_deletes ks m k :
  apply_ops (Delete <$> ks) m !! k = if decide (k ∈ ks) then None else m !! k.
Proof.
  revert m. induction ks as [|x ks IH]; intros m; [done|]. rewrite fmap_cons. cbn [apply_ops fold_left apply_op].
  fold (apply_ops (Delete <$> ks) (delete x m)). rewrite IH.
  destruct (decide (k ∈ ks)); [by rewrite decide_True by by right|].
  destruct (decide (k = x)) as [->|Hne]; [by rewrite decide_True, lookup_delete_eq by left|].
  rewrite decide_False by (intros [?|?]%elem_of_cons; done). by rewrite lookup_delete_ne.
Qed.

#[export] Instance db_op_eq_dec : EqDecision db_op.
Proof. solve_decision. Defined.

(** A key that a write batch does not mention, and one to which it only ever
    puts one value. *)
Lemma apply_puts_out ops m k : (∀ v, Put k v ∉ ops) → Delete k ∉ ops → apply_ops ops m !! k = m !! k.
Proof.
  revert m. induction ops as [|op ops IH]; intros m Hp Hd; [done|]. cbn [apply_ops fold_left].
  fold (apply_ops ops (apply_op m op)). rewrite IH by set_solver. destruct op as [k' v'|k']; cbn.
  - rewrite lookup_insert_ne; [done|]. intros ->. apply (Hp v'). left.
  - rewrite lookup_delete_ne; [done|]. intros ->. apply Hd. left.
Qed.

Lemma apply_puts_in ops m k v :
  Put k v ∈ ops → (∀ v', Put k v' ∈ ops → v' = v) → Delete k ∉ ops → apply_ops ops m !! k = Some v.
Proof.
  revert m. induction ops as [|op ops IH]; intros m Hp Hv Hd; [by apply not_elem_of_nil in Hp|].
  cbn [apply_ops fold_left]. fold (apply_ops ops (apply_op m op)). destruct (decide (Put k v ∈ ops)) as [Hin|Hn].
  - apply IH; [done|intros; apply Hv; by right|set_solver].
  - rewrite apply_puts_out; [|intros v' Hv'; assert (v' = v) as -> by (apply Hv; by right); done|set_solver].
    apply elem_of_cons in Hp as [<-|]; [|done]. cbn. apply lookup_insert_eq.
Qed.

(** A write batch of puts that gives each key one value. *)
Lemma apply_puts_lookup ops m k v :
  (∀ k', Delete k' ∉ ops) → (∀ v1 v2, Put k v1 ∈ ops → Put k v2 ∈ ops → v1 = v2) →
  apply_ops ops m !! k = Some v ↔ Put k v ∈ ops ∨ ((∀ v', Put k v' ∉ ops) ∧ m !! k = Some v).
Proof.
  intros Hd Hf. assert ((∃ v', Put k v' ∈ ops) ∨ ∀ v', Put k v' ∉ ops) as [[v' Hin]|Hout].
  { clear. induction ops as [|op ops IH]; [right; intros v' H; by apply not_elem_of_nil in H|].
    destruct IH as [[v' ?]|IH]; [left; exists v'; by right|].
    destruct op as [k' v'|k']; [destruct (decide (k = k')) as [->|]; [left; exists v'; left|]|];
      right; intros v'' [?|?]%elem_of_cons; naive_solver. }
  - rewrite (apply_puts_in ops m k v' Hin (λ v2 H2, Hf v2 v' H2 Hin) (Hd k)).
    split; [intros [= ->]; by left|]. intros [H|[H _]]; [by rewrite (Hf v v' H Hin)|by destruct (H v')].
  - rewrite (apply_puts_out ops m k Hout (Hd k)). split; [by right|]. intros [H|[_ H]]; [by destruct (Hout v)|done].
Qed.

Lemma elem_of_with_prefix p m k v :
  (k, v) ∈ map_to_list (with_prefix p m) ↔ p `prefix_of` k ∧ m !! k = Some v.
Proof. rewrite elem_of_map_to_list. unfold with_prefix. rewrite map_lookup_filter_Some. cbn. tauto. Qed.

Lemma elem_of_concat {A} (x : A) (ls : list (list A)) : x ∈ concat ls ↔ ∃ l, x ∈ l ∧ l ∈ ls.
Proof. rewrite list_elem_of_In, in_concat. setoid_rewrite list_elem_of_In. naive_solver. Qed.

Section laws.
Context {D : Type} `{LL : LevelDBLaws D}.

(** What an iterator yields, and in which it does not repeat. *)
Lemma iterate_spec d p :
  db_ok d → ∃ l, db_Iterate p d = (l, None) ∧ NoDup l.*1 ∧ ∀ k v, (k, v) ∈ l ↔ p `prefix_of` k ∧ db_view d !! k = Some v.
Proof.
  intros Hd. destruct (db_iterate_spec d p Hd) as (l & E & Hl). exists l. split_and!; [done| |].
  - rewrite Hl. apply NoDup_fst_map_to_list.
  - intros k v. rewrite Hl. apply elem_of_with_prefix.
Qed.
End laws.

(** ** Instances for closed examples *)
Definition MemDB : Type := gmap bytes bytes.

#[export] Instance mem_db : LevelDB MemDB := {|
  db_Get k d := match d !! k with Some v => Found v | None => NotFound end;
  db_Has k d := Ok (bool_decide (is_Some (d !! k)));
  db_Write ops d := (apply_ops ops d, None);
  db_Iterate p d := (map_to_list (with_prefix p d), None);
  db_Close d := (d, None)
|}.

#[export] Instance mem_db_laws : LevelDBLaws MemDB.
Proof. refine {| db_ok := λ _, True; db_view := λ d, d |}; try done. intros d p _. by eexists. Defined.

(** Any countable type can be coded by the number of a value. *)
Definition count_codec (A : Type) `{Countable A} : Codec A := {|
  Marshal a := Ok [Zpos (encode a)];
  Unmarshal data :=
    match data with
    | [Zpos p] => match decode p with Some a => Ok a | None => Err (Errorf "decode") end
    | _ => Err (Errorf "decode")
    end
|}.

Lemma count_codec_laws (A : Type) `{Countable A} (wf : A → Prop) : CodecLaws A (H := count_codec A) wf.
Proof. intros a _. eexists. split; [done|]. cbn. by rewrite countable.decode_encode. Qed.

#[export] Instance Batch_countable : Countable Batch.
Proof.
  refine (inj_countable'
    (λ b, (WorkerID b, ValidatorID b, Batch_Round b, Transactions b, Batch_Digest b, Batch_Timestamp b))
    (λ '(w, v, r, t, d, n), mk_Batch w v r t d n) _). by intros [].
Defined.
#[export] Instance BatchDigest_countable : Countable BatchDigest.
Proof.
  refine (inj_countable' (λ b, (BD_Digest b, BD_WorkerID b, BD_ValidatorID b)) (λ '(d, w, v), mk_BatchDigest d w v) _).
  by intros [].
Defined.
#[export] Instance CertificateRef_countable : Countable CertificateRef.
Proof. refine (inj_countable' (λ c, (CR_Digest c, CR_Round c)) (λ '(d, r), mk_CertificateRef d r) _). by intros []. Defined.
#[export] Instance Header_countable : Countable Header.
Proof.
  refine (inj_countable'
    (λ h, (Author h, Round h, Epoch h, BatchRefs h, Parents h, Timestamp h, Digest h, HSignature h))
    (λ '(a, r, e, b, p, t, d, s), mk_Header a r e b p t d s) _). by intros [].
Defined.
#[export] Instance Vote_countable : Countable Vote.
Proof. refine (inj_countable' (λ v, (HeaderDigest v, Validator v, VSignature v)) (λ '(d, i, s), mk_Vote d i s) _). by intros []. Defined.
#[export] Instance Certificate_countable : Countable Certificate.
Proof. refine (inj_countable' (λ c, (CHeader c, Votes c, SignerMask c)) (λ '(h, v, m), mk_Certificate h v m) _). by intros []. Defined.
