(* ===== verification/LevelDBBatch.v ===== *)
(** The persistent batch store (store/leveldb_batch.go): batches under their
    digests, an index of the digests of each round, the highest round.  The
    theorem is that it cannot be told from any store that meets the contract of
    [Store], the in-memory store among them, on values of the Go types. *)
From S2P Require Import Prelude Bytes Errors Types Batch Header BitSet Certificate Store LevelDB.
Local Open Scope string_scope.
Local Open Scope list_scope.
Local Open Scope Z_scope.

Definition batchPrefix : bytes := of_string "B:".
Definition batchRoundPrefix : bytes := of_string "BR:".
Definition batchHighestKey : bytes := of_string "BM:highest_round".

(** Digests are arrays of [HashSize] bytes, so the copies fill the keys. *)
Definition makeBatchKey (digest : Hash) : bytes := batchPrefix ++ digest.
Definition makeBatchRoundPrefix (round : Z) : bytes := batchRoundPrefix ++ PutUint64 round.
Definition makeBatchRoundKey (round : Z) (digest : Hash) : bytes := batchRoundPrefix ++ PutUint64 round ++ digest.

Definition extractDigestFromRoundKey (key prefix : bytes) : result Hash :=
  if bool_decide (zlen key < zlen prefix + HashSize) then Err (Errorf "key too short")
  else Ok (copy_hash (take 32 (drop (length prefix) key))).

Definition parseRoundKey (key : bytes) : result (Z * Hash) :=
  let prefixLen := length batchRoundPrefix in
  if bool_decide (zlen key < Z.of_nat prefixLen + 8 + HashSize) then Err (Errorf "key too short")
  else
    let round := Uint64 (drop prefixLen key) in
    let digest := copy_hash (drop (prefixLen + 8) key) in
    Ok (round, digest).

Record LevelDBBatchStore (D : Type) := mk_LevelDBBatchStore {
  lb_db : D;
  lb_closed : bool
}.
Arguments mk_LevelDBBatchStore {D}.
Arguments lb_db {D}.
Arguments lb_closed {D}.

Section store.
Context {D : Type} {LDB : LevelDB D} {BC : Codec Batch}.
Implicit Types s : LevelDBBatchStore D.

(** [NewLevelDBBatchStore]; [opened] is the result of [leveldb.OpenFile]. *)
Definition NewLevelDBBatchStore (opened : result D) : result (LevelDBBatchStore D) :=
  match opened with
  | Err err => Err (Wrapf "failed to open leveldb" err)
  | Ok db => Ok (mk_LevelDBBatchStore db false)
  end.

Definition lb_getHighestRound s : Z :=
  match db_Get batchHighestKey (lb_db s) with
  | Found data => if bool_decide (zlen data < 8) then 0 else Uint64 data
  | _ => 0
  end.

Definition LevelDB_SaveBatch (batch : Batch) s : LevelDBBatchStore D * option error :=
  if lb_closed s then (s, Some ErrNotRunning)
  else
    let key := makeBatchKey (Batch_Digest batch) in
    match db_Has key (lb_db s) with
    | Err err => (s, Some (Wrapf "failed to check batch existence" err))
    | Ok true => (s, None)
    | Ok false =>
        match Marshal batch with
        | Err err => (s, Some (Wrapf "failed to encode batch" err))
        | Ok data =>
            let indexKey := makeBatchRoundKey (Batch_Round batch) (Batch_Digest batch) in
            let currentHighest := lb_getHighestRound s in
            let wb := [Put key data; Put indexKey []] ++
              (if bool_decide (Batch_Round batch > currentHighest)
               then [Put batchHighestKey (PutUint64 (Batch_Round batch))] else []) in
            match db_Write wb (lb_db s) with
            | (db, Some err) => (mk_LevelDBBatchStore db (lb_closed s), Some (Wrapf "failed to write batch" err))
            | (db, None) => (mk_LevelDBBatchStore db (lb_closed s), None)
            end
        end
    end.

Definition LevelDB_GetBatch (digest : Hash) s : result Batch :=
  if lb_closed s then Err ErrNotRunning
  else match db_Get (makeBatchKey digest) (lb_db s) with
       | NotFound => Err ErrBatchNotFound
       | GetFailed err => Err (Wrapf "failed to get batch" err)
       | Found data =>
           match Unmarshal data with
           | Err err => Err (Wrapf "failed to decode batch" err)
           | Ok batch => Ok batch
           end
       end.

Definition LevelDB_HasBatch (digest : Hash) s : bool :=
  if lb_closed s then false
  else match db_Has (makeBatchKey digest) (lb_db s) with Ok has => has | Err _ => false end.

Definition getBatchInternal (digest : Hash) s : result Batch :=
  match db_Get (makeBatchKey digest) (lb_db s) with
  | NotFound => Err ErrBatchNotFound
  | GetFailed err => Err err
  | Found data => Unmarshal data
  end.

(** One key of the round index. *)
Definition batch_of_key (prefix : bytes) s (kv : bytes * bytes) : option Batch :=
  match extractDigestFromRoundKey kv.1 prefix with
  | Err _ => None
  | Ok digest => match getBatchInternal digest s with Err _ => None | Ok batch => Some batch end
  end.

Definition LevelDB_GetBatchesByRound (round : Z) s : result (list Batch) :=
  if lb_closed s then Err ErrNotRunning
  else
    let prefix := makeBatchRoundPrefix round in
    match db_Iterate prefix (lb_db s) with
    | (_, Some err) => Err (Wrapf "iteration error" err)
    | (entries, None) => Ok (omap (batch_of_key prefix s) entries)
    end.

(** The keys to delete for one key of the round index. *)
Definition stale_keys (round : Z) (kv : bytes * bytes) : list bytes :=
  match parseRoundKey kv.1 with
  | Err _ => []
  | Ok (r, digest) => if bool_decide (r < round) then [makeBatchKey digest; kv.1] else []
  end.

Definition LevelDB_DeleteBatchesBefore (round : Z) s : LevelDBBatchStore D * option error :=
  if lb_closed s then (s, Some ErrNotRunning)
  else
    match db_Iterate batchRoundPrefix (lb_db s) with
    | (_, Some err) => (s, Some (Wrapf "iteration error" err))
    | (entries, None) =>
        let toDelete := concat (map (stale_keys round) entries) in
        if bool_decide (zlen toDelete > 0) then
          match db_Write (Delete <$> toDelete) (lb_db s) with
          | (db, Some err) => (mk_LevelDBBatchStore db (lb_closed s), Some (Wrapf "failed to delete batches" err))
          | (db, None) => (mk_LevelDBBatchStore db (lb_closed s), None)
          end
        else (s, None)
    end.

Definition LevelDB_BatchStore_Close s : LevelDBBatchStore D * option error :=
  if lb_closed s then (s, None)
  else let '(db, err) := db_Close (lb_db s) in (mk_LevelDBBatchStore db true, err).

Definition LevelDB_BatchStore_Len s : Z :=
  if lb_closed s then 0 else zlen (db_Iterate batchPrefix (lb_db s)).1.

Definition LevelDB_BatchStore_HighestRound s : Z := lb_getHighestRound s.

#[export] Instance leveldb_batch_store : BatchStore (LevelDBBatchStore D) := {|
  SaveBatch := LevelDB_SaveBatch; GetBatch := LevelDB_GetBatch; HasBatch := LevelDB_HasBatch;
  GetBatchesByRound := LevelDB_GetBatchesByRound; DeleteBatchesBefore := LevelDB_DeleteBatchesBefore
|}.
End store.

(** ** Keys *)
Lemma batch_key_inj d d' : makeBatchKey d = makeBatchKey d' → d = d'.
Proof. apply app_inv_head. Qed.

Lemma round_key_inj r d r' d' :
  is_u64 r → is_u64 r' → makeBatchRoundKey r d = makeBatchRoundKey r' d' → r = r' ∧ d = d'.
Proof.
  intros Hr Hr' E. apply app_inv_head in E. apply be_app_inj in E as [E ->]. split; [|done]. by apply PutUint64_inj.
Qed.

Lemma batch_key_round_key d r d' : makeBatchKey d ≠ makeBatchRoundKey r d'.
Proof. done. Qed.
Lemma batch_key_highest d : makeBatchKey d ≠ batchHighestKey.
Proof. done. Qed.
Lemma round_key_highest r d : makeBatchRoundKey r d ≠ batchHighestKey.
Proof. done. Qed.

Lemma extract_round_key r d : is_hash d → extractDigestFromRoundKey (makeBatchRoundKey r d) (makeBatchRoundPrefix r) = Ok d.
Proof.
  intros Hd%is_hash_length. unfold extractDigestFromRoundKey, makeBatchRoundKey, makeBatchRoundPrefix.
  rewrite app_assoc, !length_app, PutUint64_length, Hd. rewrite bool_decide_eq_false_2 by (unfold HashSize; lia).
  rewrite drop_app_length'; [|rewrite length_app, PutUint64_length; done].
  rewrite take_ge by lia. by rewrite copy_hash_id.
Qed.

Lemma parse_round_key r d : is_u64 r → is_hash d → parseRoundKey (makeBatchRoundKey r d) = Ok (r, d).
Proof.
  intros Hr Hd%is_hash_length. unfold parseRoundKey, makeBatchRoundKey.
  rewrite !length_app, PutUint64_length, Hd. rewrite bool_decide_eq_false_2 by (unfold HashSize; lia).
  rewrite drop_app_length, Uint64_Put by done. rewrite (app_assoc batchRoundPrefix).
  rewrite drop_app_length' by (by rewrite length_app, PutUint64_length). by rewrite copy_hash_id.
Qed.

Lemma round_prefix_key r r' d :
  is_u64 r → is_u64 r' → makeBatchRoundPrefix r `prefix_of` makeBatchRoundKey r' d ↔ r = r'.
Proof.
  intros Hr Hr'. unfold makeBatchRoundPrefix, makeBatchRoundKey. split.
  - intros [k E]. rewrite <-app_assoc in E. apply app_inv_head in E. apply be_app_inj in E as [E _].
    symmetry. by apply PutUint64_inj.
  - intros ->. rewrite app_assoc. by apply prefix_app_r.
Qed.

(** ** Refinement of a map of batches *)

(** The ranges of the Go types of a batch. *)
Definition typed_Batch (b : Batch) : Prop :=
  wf_Batch b ∧ is_hash (Batch_Digest b) ∧ Forall is_bytes (Transactions b).

#[export] Instance typed_Batch_dec b : Decision (typed_Batch b).
Proof. unfold typed_Batch; apply _. Defined.

Section refinement.
Context {D : Type} `{LL : LevelDBLaws D} {BC : Codec Batch} {BCL : CodecLaws Batch typed_Batch}.
Implicit Types (s : LevelDBBatchStore D) (m : gmap Hash Batch).

(** The database holds the batches of [m], the index of their rounds and the
    highest round [h]. *)
Record lb_repr s m (h : Z) : Prop := {
  lr_open : lb_closed s = false;
  lr_db : db_ok (lb_db s);
  lr_typed d b : m !! d = Some b → Batch_Digest b = d ∧ typed_Batch b;
  lr_batch d :
    match m !! d with
    | None => db_view (lb_db s) !! makeBatchKey d = None
    | Some b => ∃ v, db_view (lb_db s) !! makeBatchKey d = Some v ∧ Unmarshal v = Ok b
    end;
  lr_index k v : batchRoundPrefix `prefix_of` k →
    db_view (lb_db s) !! k = Some v ↔ v = [] ∧ ∃ d b, m !! d = Some b ∧ k = makeBatchRoundKey (Batch_Round b) d;
  lr_highest :
    match db_view (lb_db s) !! batchHighestKey with None => h = 0 | Some v => v = PutUint64 h ∧ is_u64 h end
}.

Lemma lb_repr_fresh db : db_ok db → db_view db = ∅ → lb_repr (mk_LevelDBBatchStore db false) ∅ 0.
Proof.
  intros Hd E. split; cbn; try done; rewrite ?E.
  - intros d. by rewrite lookup_empty.
  - intros k v _. rewrite lookup_empty. split; [done|]. intros (_ & d & b & ? & _). by rewrite lookup_empty in *.
  - by rewrite lookup_empty.
Qed.

Lemma lb_highest_spec s m h : lb_repr s m h → lb_getHighestRound s = h.
Proof.
  intros [_ Hd _ _ _ Hh]. unfold lb_getHighestRound. rewrite db_get_spec by done.
  destruct (db_view (lb_db s) !! batchHighestKey) as [v|]; [|done]. destruct Hh as [-> Hu].
  rewrite PutUint64_length, bool_decide_eq_false_2 by lia. by apply Uint64_Put_nil.
Qed.

(** The write batch of a save. *)
Lemma lb_repr_put s m h b data db :
  lb_repr s m h → typed_Batch b → m !! Batch_Digest b = None → Unmarshal data = Ok b → db_ok db →
  db_view db = apply_ops ([Put (makeBatchKey (Batch_Digest b)) data;
                           Put (makeBatchRoundKey (Batch_Round b) (Batch_Digest b)) []] ++
    (if bool_decide (Batch_Round b > h) then [Put batchHighestKey (PutUint64 (Batch_Round b))] else []))
    (db_view (lb_db s)) →
  lb_repr (mk_LevelDBBatchStore db false) (<[Batch_Digest b := b]> m) (Z.max h (Batch_Round b)).
Proof.
  intros Hr Hb Hm Hu Hdb Hv. pose proof Hr as [_ _ Ht Hbt Hix Hh]. pose proof Hb as [[_ [_ [Hru _]]] _].
  set (v0 := db_view (lb_db s)) in *.
  assert (∀ k, k ≠ batchHighestKey → db_view db !! k =
    (<[makeBatchRoundKey (Batch_Round b) (Batch_Digest b) := []]> (<[makeBatchKey (Batch_Digest b) := data]> v0)) !! k) as Hk.
  { intros k Hne. rewrite Hv, apply_ops_app. cbn [apply_ops fold_left apply_op].
    case_bool_decide; cbn; [by rewrite lookup_insert_ne|done]. }
  split; cbn; [done|done| | | |].
  - intros d b' [[<- <-]|[Hne Hl]]%lookup_insert_Some; [done|]. by apply Ht.
  - intros d. destruct (decide (d = Batch_Digest b)) as [->|Hne].
    + rewrite (lookup_insert_eq m). exists data. split; [|done].
      rewrite Hk by apply batch_key_highest. rewrite lookup_insert_ne by (apply not_eq_sym, batch_key_round_key).
      by rewrite lookup_insert_eq.
    + rewrite (lookup_insert_ne m) by congruence. rewrite Hk by apply batch_key_highest.
      rewrite (lookup_insert_ne _ _ (makeBatchKey d)) by (apply not_eq_sym, batch_key_round_key).
      rewrite lookup_insert_ne by (by intros <-%batch_key_inj). apply Hbt.
  - intros k v Hp. rewrite Hk by (intros ->; by destruct Hp).
    rewrite lookup_insert_Some, lookup_insert_ne by (intros <-; by destruct Hp). fold v0. rewrite (Hix k v Hp). split.
    + intros [[<- <-]|(Hne & -> & d & b' & Hl & ->)].
      * split; [done|]. exists (Batch_Digest b), b. by rewrite lookup_insert_eq.
      * split; [done|]. exists d, b'. split; [|done]. rewrite lookup_insert_ne; [done|congruence].
    + intros (-> & d & b' & Hl & ->). apply lookup_insert_Some in Hl as [[<- <-]|[Hne Hl]]; [by left|].
      right. split; [|split; [done|]; by exists d, b']. intros E. apply round_key_inj in E as [_ E]; [done|done|].
      by destruct (Ht _ _ Hl) as [_ [[_ [_ [? _]]] _]].
  - rewrite Hv, apply_ops_app. cbn [apply_ops fold_left apply_op]. case_bool_decide as Hgt; cbn.
    + rewrite lookup_insert_eq. rewrite Z.max_r by lia. done.
    + rewrite !lookup_insert_ne by done. fold v0. rewrite Z.max_l by lia. done.
Qed.

Lemma lb_repr_save s m h b :
  lb_repr s m h → typed_Batch b →
  let r := LevelDB_SaveBatch b s in
  r.2 = None ∧ lb_repr r.1 (insert_new (Batch_Digest b) b m)
    (if decide (is_Some (m !! Batch_Digest b)) then h else Z.max h (Batch_Round b)).
Proof using LL BCL.
  intros Hr Hb. unfold LevelDB_SaveBatch, insert_new. rewrite (lr_open _ _ _ Hr), db_has_spec by apply Hr.
  pose proof (lr_batch _ _ _ Hr (Batch_Digest b)) as Hbt. destruct (m !! Batch_Digest b) as [b'|] eqn:Em.
  - destruct Hbt as (v & -> & _). rewrite bool_decide_eq_true_2 by by eexists. rewrite decide_True by by eexists. done.
  - rewrite Hbt, bool_decide_eq_false_2 by by intros []. rewrite decide_False by by intros [].
    destruct (unmarshal_marshal b Hb) as (data & -> & Hu). rewrite (lb_highest_spec _ _ _ Hr).
    match goal with |- context [db_Write ?ops _] => pose proof (db_write_spec (lb_db s) ops (lr_db _ _ _ Hr)) as Hw end.
    destruct (db_Write _ _) as [db err]. cbn in Hw. destruct Hw as (-> & Hdb & Hv). cbn.
    split; [done|]. by eapply lb_repr_put.
Qed.

Lemma lb_repr_get s m h d :
  lb_repr s m h → LevelDB_GetBatch d s = match m !! d with Some b => Ok b | None => Err ErrBatchNotFound end.
Proof.
  intros Hr. unfold LevelDB_GetBatch. rewrite (lr_open _ _ _ Hr), db_get_spec by apply Hr.
  pose proof (lr_batch _ _ _ Hr d) as Hb. destruct (m !! d); [destruct Hb as (v & -> & ->)|rewrite Hb]; done.
Qed.

Lemma lb_repr_has s m h d : lb_repr s m h → LevelDB_HasBatch d s = bool_decide (is_Some (m !! d)).
Proof.
  intros Hr. unfold LevelDB_HasBatch. rewrite (lr_open _ _ _ Hr), db_has_spec by apply Hr.
  pose proof (lr_batch _ _ _ Hr d) as Hb. apply bool_decide_ext.
  destruct (m !! d); [destruct Hb as (v & -> & _); split; by eexists|by rewrite Hb].
Qed.

(** The batches of a round, each once. *)
Definition round_list m (r : Z) (l : list Batch) : Prop :=
  NoDup (Batch_Digest <$> l) ∧ ∀ b, b ∈ l ↔ m !! Batch_Digest b = Some b ∧ Batch_Round b = r.

Lemma round_list_unique m r l l' : round_list m r l → round_list m r l' → l ≡ₚ l'.
Proof.
  intros [H1 H2] [H3 H4]. apply NoDup_Permutation; [by eapply NoDup_fmap_1|by eapply NoDup_fmap_1|].
  intros b. by rewrite H2, H4.
Qed.

Lemma lb_repr_round s m h r :
  lb_repr s m h → is_u64 r → ∃ l, LevelDB_GetBatchesByRound r s = Ok l ∧ round_list m r l.
Proof.
  intros Hr Hu. unfold LevelDB_GetBatchesByRound. rewrite (lr_open _ _ _ Hr).
  destruct (iterate_spec (lb_db s) (makeBatchRoundPrefix r) (lr_db _ _ _ Hr)) as (l & -> & Hnd & Hl).
  assert (∀ k v, (k, v) ∈ l ↔ v = [] ∧ ∃ d b, m !! d = Some b ∧ Batch_Round b = r ∧ k = makeBatchRoundKey r d) as Hin.
  { intros k v. rewrite Hl. split.
    - intros [Hp Hv]. assert (batchRoundPrefix `prefix_of` k) as Hp' by (by eapply prefix_app_l).
      apply (lr_index _ _ _ Hr k v Hp') in Hv as (-> & d & b & Hm & ->). split; [done|].
      apply round_prefix_key in Hp as ->; [by exists d, b|done|]. by destruct (lr_typed _ _ _ Hr _ _ Hm) as [_ [[_ [_ [? _]]] _]].
    - intros (-> & d & b & Hm & Er & ->). split; [by apply round_prefix_key|]. apply (lr_index _ _ _ Hr).
      { unfold makeBatchRoundKey. by apply prefix_app_r. }
      split; [done|]. exists d, b. by rewrite Er. }
  assert (∀ k v d b, (k, v) ∈ l → m !! d = Some b → k = makeBatchRoundKey r d →
    batch_of_key (makeBatchRoundPrefix r) s (k, v) = Some b) as Hget.
  { intros k v d b Hkv Hm ->. unfold batch_of_key. cbn [fst].
    rewrite extract_round_key by (by destruct (lr_typed _ _ _ Hr _ _ Hm) as [<- [_ [? _]]]).
    unfold getBatchInternal. rewrite db_get_spec by apply Hr. pose proof (lr_batch _ _ _ Hr d) as Hb. rewrite Hm in Hb.
    by destruct Hb as (w & -> & ->). }
  eexists. split; [done|]. split.
  - revert Hnd. assert (∀ kv, kv ∈ l → ∃ d b, m !! d = Some b ∧ kv.1 = makeBatchRoundKey r d ∧
      batch_of_key (makeBatchRoundPrefix r) s kv = Some b) as Hall.
    { intros [k v] Hkv. pose proof Hkv as (_ & d & b & Hm & _ & ->)%Hin. exists d, b. split_and!; try done. by eapply Hget. }
    clear Hin Hl Hget. induction l as [|kv l IH]; [constructor|]. rewrite fmap_cons, NoDup_cons. intros [Hni Hnd].
    destruct (Hall kv) as (d & b & Hm & Ek & E); [left|]. cbn [omap list_omap]. rewrite E, fmap_cons, NoDup_cons.
    split; [|apply IH; [intros; apply Hall; by right|done]].
    intros (b' & Eb & (kv' & Hkv' & E')%list_elem_of_omap)%list_elem_of_fmap. apply Hni.
    destruct (Hall kv') as (d' & b'' & Hm' & Ek' & E''); [by right|]. simplify_eq.
    apply list_elem_of_fmap. exists kv'. split; [|done]. rewrite Ek, Ek'.
    destruct (lr_typed _ _ _ Hr _ _ Hm) as [<- _], (lr_typed _ _ _ Hr _ _ Hm') as [<- _]. congruence.
  - intros b. rewrite list_elem_of_omap. split.
    + intros ([k v] & Hkv & E). pose proof Hkv as (_ & d & b' & Hm & Er & ->)%Hin.
      rewrite (Hget _ v d b' Hkv Hm eq_refl) in E. injection E as <-. destruct (lr_typed _ _ _ Hr _ _ Hm) as [-> _]. done.
    + intros [Hm Er]. assert ((makeBatchRoundKey r (Batch_Digest b), []) ∈ l) as Hkv by (apply Hin; eauto 8).
      exists (makeBatchRoundKey r (Batch_Digest b), []). split; [done|]. by eapply Hget.
Qed.

(** Every key of the index names a batch of the map. *)
Lemma lb_index_keys s m h k v :
  lb_repr s m h → batchRoundPrefix `prefix_of` k → db_view (lb_db s) !! k = Some v →
  ∃ b, m !! Batch_Digest b = Some b ∧ typed_Batch b ∧ k = makeBatchRoundKey (Batch_Round b) (Batch_Digest b).
Proof.
  intros Hr Hp Hv. apply (lr_index _ _ _ Hr k v Hp) in Hv as (_ & d & b & Hm & ->).
  destruct (lr_typed _ _ _ Hr _ _ Hm) as [<- ?]. by exists b.
Qed.

Lemma stale_keys_round r b v :
  typed_Batch b →
  stale_keys r (makeBatchRoundKey (Batch_Round b) (Batch_Digest b), v) =
    if bool_decide (Batch_Round b < r)
    then [makeBatchKey (Batch_Digest b); makeBatchRoundKey (Batch_Round b) (Batch_Digest b)] else [].
Proof. intros [[_ [_ [? _]]] [? _]]. unfold stale_keys. cbn [fst]. by rewrite parse_round_key. Qed.

Lemma elem_of_stale_keys s m h r l k :
  lb_repr s m h →
  (∀ k v, (k, v) ∈ l ↔ batchRoundPrefix `prefix_of` k ∧ db_view (lb_db s) !! k = Some v) →
  k ∈ concat (map (stale_keys r) l) ↔
  ∃ b, m !! Batch_Digest b = Some b ∧ Batch_Round b < r ∧
    (k = makeBatchKey (Batch_Digest b) ∨ k = makeBatchRoundKey (Batch_Round b) (Batch_Digest b)).
Proof.
  intros Hr Hl. rewrite list_elem_of_In, in_concat. split.
  - intros (ks & (kv & <- & Hkv%list_elem_of_In)%in_map_iff & Hk%list_elem_of_In). destruct kv as [k' v].
    apply Hl in Hkv as [Hp Hv]. destruct (lb_index_keys _ _ _ _ _ Hr Hp Hv) as (b & Hm & Ht & ->).
    rewrite stale_keys_round in Hk by done. case_bool_decide; [|by apply not_elem_of_nil in Hk].
    exists b. split_and!; [done|done|]. set_solver.
  - intros (b & Hm & Hlt & Hk). destruct (lr_typed _ _ _ Hr _ _ Hm) as [_ Ht].
    exists (stale_keys r (makeBatchRoundKey (Batch_Round b) (Batch_Digest b), [])). split.
    + apply in_map, list_elem_of_In, Hl. split; [unfold makeBatchRoundKey; by apply prefix_app_r|].
      apply (lr_index _ _ _ Hr); [unfold makeBatchRoundKey; by apply prefix_app_r|]. eauto 6.
    + apply list_elem_of_In. rewrite stale_keys_round, bool_decide_eq_true_2 by done. set_solver.
Qed.

(** The map without the batches below [r], from a database without their keys. *)
Lemma lb_repr_filter s m h r (gone : list bytes) db :
  lb_repr s m h → db_ok db →
  (∀ k, k ∈ gone ↔ ∃ b, m !! Batch_Digest b = Some b ∧ Batch_Round b < r ∧
    (k = makeBatchKey (Batch_Digest b) ∨ k = makeBatchRoundKey (Batch_Round b) (Batch_Digest b))) →
  (∀ k, db_view db !! k = if decide (k ∈ gone) then None else db_view (lb_db s) !! k) →
  lb_repr (mk_LevelDBBatchStore db false) (filter (λ p, r ≤ Batch_Round p.2) m) h.
Proof.
  intros Hr Hdb Hg Hv. split; cbn; [done|done| | | |].
  - intros d b [Hm _]%map_lookup_filter_Some. by apply (lr_typed _ _ _ Hr).
  - intros d. pose proof (lr_batch _ _ _ Hr d) as Hb. rewrite Hv, map_lookup_filter.
    destruct (m !! d) as [b|] eqn:Em; cbn; [|by case_decide].
    destruct (lr_typed _ _ _ Hr _ _ Em) as [<- _]. case_guard as Hle; cbn.
    + rewrite decide_False; [done|]. intros (b' & Hm' & Hlt & [E%batch_key_inj|E])%Hg; [|by apply batch_key_round_key in E].
      assert (b' = b) as -> by congruence. lia.
    + rewrite decide_True; [done|]. apply Hg. exists b. split_and!; [done|lia|by left].
  - intros k v Hp. rewrite Hv. split.
    + destruct (decide (k ∈ gone)) as [|Hn]; [done|]. intros Hk.
      destruct (lb_index_keys _ _ _ _ _ Hr Hp Hk) as (b & Hm & Ht & ->).
      apply (lr_index _ _ _ Hr _ _ Hp) in Hk as [-> _]. split; [done|]. exists (Batch_Digest b), b. split; [|done].
      apply map_lookup_filter_Some. split; [done|]. cbn. destruct (decide (Batch_Round b < r)); [|lia].
      exfalso. apply Hn, Hg. exists b. split_and!; [done|done|by right].
    + intros (-> & d & b & [Hm Hle]%map_lookup_filter_Some & ->). cbn in Hle. rewrite decide_False.
      { apply (lr_index _ _ _ Hr); [done|]. eauto. }
      destruct (lr_typed _ _ _ Hr _ _ Hm) as [<- [[_ [_ [? _]]] _]].
      intros (b' & Hm' & Hlt & [E|E])%Hg; [symmetry in E; by apply batch_key_round_key in E|].
      apply round_key_inj in E as [? _]; [lia|done|]. by destruct (lr_typed _ _ _ Hr _ _ Hm') as [_ [[_ [_ [? _]]] _]].
  - rewrite Hv, decide_False; [apply Hr|]. intros (b & _ & _ & [E|E])%Hg; symmetry in E.
    + by apply batch_key_highest in E.
    + by apply round_key_highest in E.
Qed.

Lemma lb_repr_delete s m h r :
  lb_repr s m h →
  let res := LevelDB_DeleteBatchesBefore r s in
  res.2 = None ∧ lb_repr res.1 (filter (λ p, r ≤ Batch_Round p.2) m) h.
Proof.
  intros Hr. unfold LevelDB_DeleteBatchesBefore. rewrite (lr_open _ _ _ Hr).
  destruct (iterate_spec (lb_db s) batchRoundPrefix (lr_db _ _ _ Hr)) as (l & -> & _ & Hl).
  pose proof (λ k, elem_of_stale_keys _ _ _ r l k Hr Hl) as Hk. clear Hl. set (gone := concat _) in *.
  case_bool_decide as Hlen.
  - pose proof (db_write_spec (lb_db s) (Delete <$> gone) (lr_db _ _ _ Hr)) as Hw.
    destruct (db_Write _ _) as [db err]. cbn in Hw. destruct Hw as (-> & Hdb & Hv). split; [done|].
    apply (lb_repr_filter s m h r gone); try done. intros k. by rewrite Hv, apply_deletes.
  - split; [done|]. destruct gone eqn:Eg; [|cbn in Hlen; lia]. destruct s as [db c]. pose proof (lr_open _ _ _ Hr) as Hc. cbn in Hc. subst c.
    apply (lb_repr_filter (mk_LevelDBBatchStore db false) m h r []); [done|apply Hr|done|]. intros k. rewrite decide_False; [done|apply not_elem_of_nil].
Qed.
End refinement.

(** ** Equivalence of stores *)
Inductive store_op :=
  | OSave (b : Batch) | OGet (d : Hash) | OHas (d : Hash) | OByRound (r : Z) | ODelete (r : Z).
Inductive store_out :=
  | RErr (e : option error) | RBatch (r : result Batch) | RBool (b : bool) | RBatches (r : result (list Batch)).

Definition store_step {S} `{BatchStore S} (op : store_op) (s : S) : S * store_out :=
  match op with
  | OSave b => let '(s, e) := SaveBatch b s in (s, RErr e)
  | OGet d => (s, RBatch (GetBatch d s))
  | OHas d => (s, RBool (HasBatch d s))
  | OByRound r => (s, RBatches (GetBatchesByRound r s))
  | ODelete r => let '(s, e) := DeleteBatchesBefore r s in (s, RErr e)
  end.
Fixpoint store_run {S} `{BatchStore S} (ops : list store_op) (s : S) : list store_out :=
  match ops with
  | [] => []
  | op :: ops' => let '(s, o) := store_step op s in o :: store_run ops' s
  end.

(** The arguments have their Go types. *)
Definition typed_op (op : store_op) : Prop :=
  match op with OSave b => typed_Batch b | OByRound r => is_u64 r | _ => True end.

#[export] Instance typed_op_dec op : Decision (typed_op op).
Proof. destruct op; apply _. Defined.

(** Equal answers, up to the order of a round's batches. *)
Inductive out_equiv : store_out → store_out → Prop :=
  | out_same o : out_equiv o o
  | out_perm l l' : l ≡ₚ l' → out_equiv (RBatches (Ok l)) (RBatches (Ok l')).

Section equivalence.
Context {D : Type} `{LL : LevelDBLaws D} {BC : Codec Batch} {BCL : CodecLaws Batch typed_Batch}.
Context {S : Type} `{BSL : BatchStoreLaws S}.

Lemma store_step_equiv op (s : LevelDBBatchStore D) (t : S) h :
  typed_op op → lb_repr s (bs_view t) h → bs_ok t →
  let r := store_step op s in let r' := store_step op t in
  out_equiv r.2 r'.2 ∧ bs_ok r'.1 ∧ ∃ h', lb_repr r.1 (bs_view r'.1) h'.
Proof using BCL.
  intros Ht Hr Hok. destruct op; cbn in Ht |- *.
  - pose proof (lb_repr_save s _ h b Hr Ht) as [E1 H1]. pose proof (bs_save t b Hok) as (E2 & H2 & H3).
    destruct (LevelDB_SaveBatch b s), (SaveBatch b t). cbn in *. subst. rewrite H3. split_and!; [constructor|done|by eexists].
  - rewrite (lb_repr_get _ _ _ d Hr), (bs_get t d Hok). split_and!; [constructor|done|by eexists].
  - rewrite (lb_repr_has _ _ _ d Hr), (bs_has t d Hok). split_and!; [constructor|done|by eexists].
  - destruct (lb_repr_round _ _ _ r Hr Ht) as (l & -> & Hl). destruct (bs_round t r Hok) as (l' & -> & Hl').
    split_and!; [|done|by eexists]. constructor. by eapply round_list_unique.
  - pose proof (lb_repr_delete s _ h r Hr) as [E1 H1]. pose proof (bs_delete t r Hok) as (E2 & H2 & H3).
    destruct (LevelDB_DeleteBatchesBefore r s), (DeleteBatchesBefore r t). cbn in *. subst. rewrite H3.
    split_and!; [constructor|done|by eexists].
Qed.

(** C37. The persistent batch store is equivalent to every store that meets the
    contract of the interface, so to the in-memory one: started empty, and as
    long as the database works, both give the same answer to each operation of
    any sequence of saves, queries and deletions on values of the Go types (the
    batches of a round up to order). *)
Theorem leveldb_batch_store_equivalent ops db (t : S) :
  Forall typed_op ops → db_ok db → db_view db = ∅ → bs_ok t → bs_view t = ∅ →
  Forall2 out_equiv (store_run ops (mk_LevelDBBatchStore db false)) (store_run ops t).
Proof using BCL.
  intros Ht Hd E Hok Ev. pose proof (lb_repr_fresh db Hd E) as Hr. rewrite <-Ev in Hr. clear E Ev Hd.
  revert Hr. generalize (mk_LevelDBBatchStore db false) 0. revert t Hok.
  induction Ht as [|op ops Hop Ht IH]; intros t Hok s h Hr; cbn [store_run]; [constructor|].
  destruct (store_step_equiv op s t h Hop Hr Hok) as (Ho & Hok' & h' & Hr').
  destruct (store_step op s), (store_step op t). cbn in *. constructor; [done|]. by eapply IH.
Qed.
End equivalence.

(** ** A closed example *)
Module LevelDBExample.
#[local] Instance codec : Codec Batch := count_codec Batch.
#[local] Instance codec_laws : CodecLaws Batch typed_Batch := count_codec_laws Batch typed_Batch.
Definition b0 : Batch := NewBatch 1 2 3 [[7; 8]] 9.
Definition b1 : Batch := NewBatch 1 2 4 [[7]] 9.
Definition ops : list store_op :=
  [OSave b0; OSave b1; OSave b0; OByRound 3; ODelete 4; OHas (Batch_Digest b0); OGet (Batch_Digest b1); OByRound 4].
End LevelDBExample.
#[local] Existing Instance LevelDBExample.codec.
#[local] Existing Instance LevelDBExample.codec_laws.

Lemma leveldb_batch_store_equivalent_witness :
  Forall2 out_equiv
    (store_run LevelDBExample.ops (mk_LevelDBBatchStore (∅ : MemDB) false))
    (store_run LevelDBExample.ops NewMemoryBatchStore) ∧
  store_run LevelDBExample.ops (mk_LevelDBBatchStore (∅ : MemDB) false) =
    [RErr None; RErr None; RErr None; RBatches (Ok [LevelDBExample.b0]); RErr None; RBool false;
     RBatch (Ok LevelDBExample.b1); RBatches (Ok [LevelDBExample.b1])].
Proof.
  split; [|by vm_compute].
  apply leveldb_batch_store_equivalent; [|done|done|exact mb_ok_new|done].
  apply (bool_decide_eq_true_1 (Forall typed_op LevelDBExample.ops)). by vm_compute.
Defined.
