(* ===== verification/LevelDBCert.v ===== *)
(** The persistent certificate store (store/leveldb_cert.go): certificates under
    their digests, one digest per round and author, the highest round.  As long
    as no author is saved with two certificates for a round it cannot be told
    from the in-memory store, except by the highest round after a deletion. *)
From S2P Require Import Prelude Bytes Errors Types Batch Header BitSet Certificate Store LevelDB.
Local Open Scope string_scope.
Local Open Scope list_scope.
Local Open Scope Z_scope.

Definition certPrefix : bytes := of_string "C:".
Definition certRoundPrefix : bytes := of_string "CR:".
Definition certHighestKey : bytes := of_string "CM:highest_round".

Definition makeCertKey (digest : Hash) : bytes := certPrefix ++ digest.
Definition makeCertRoundPrefix (round : Z) : bytes := certRoundPrefix ++ PutUint64 round.
Definition makeCertRoundValidatorKey (round validator : Z) : bytes :=
  certRoundPrefix ++ PutUint64 round ++ PutUint16 validator.

Definition parseRoundFromCertKey (key : bytes) : Z :=
  let prefixLen := length certRoundPrefix in
  if bool_decide (zlen key < Z.of_nat prefixLen + 8) then 0 else Uint64 (drop prefixLen key).

Record LevelDBCertificateStore (D : Type) := mk_LevelDBCertificateStore {
  lc_db : D;
  lc_closed : bool
}.
Arguments mk_LevelDBCertificateStore {D}.
Arguments lc_db {D}.
Arguments lc_closed {D}.

Section store.
Context {D : Type} {LDB : LevelDB D} {CC : Codec Certificate}.
Implicit Types s : LevelDBCertificateStore D.

(** [NewLevelDBCertificateStore]; [opened] is the result of [leveldb.OpenFile]. *)
Definition NewLevelDBCertificateStore (opened : result D) : result (LevelDBCertificateStore D) :=
  match opened with
  | Err err => Err (Wrapf "failed to open leveldb" err)
  | Ok db => Ok (mk_LevelDBCertificateStore db false)
  end.

Definition lc_getHighestRound s : Z :=
  match db_Get certHighestKey (lc_db s) with
  | Found data => if bool_decide (zlen data < 8) then 0 else Uint64 data
  | _ => 0
  end.

Definition LevelDB_SaveCertificate (cert : Certificate) s : LevelDBCertificateStore D * option error :=
  if lc_closed s then (s, Some ErrNotRunning)
  else
    let digest := CDigest cert in
    let key := makeCertKey digest in
    match db_Has key (lc_db s) with
    | Err err => (s, Some (Wrapf "failed to check certificate existence" err))
    | Ok true => (s, None)
    | Ok false =>
        match Marshal cert with
        | Err err => (s, Some (Wrapf "failed to encode certificate" err))
        | Ok data =>
            let indexKey := makeCertRoundValidatorKey (CRound cert) (CAuthor cert) in
            let currentHighest := lc_getHighestRound s in
            let wb := [Put key data; Put indexKey digest] ++
              (if bool_decide (CRound cert > currentHighest)
               then [Put certHighestKey (PutUint64 (CRound cert))] else []) in
            match db_Write wb (lc_db s) with
            | (db, Some err) => (mk_LevelDBCertificateStore db (lc_closed s), Some (Wrapf "failed to write certificate" err))
            | (db, None) => (mk_LevelDBCertificateStore db (lc_closed s), None)
            end
        end
    end.

Definition LevelDB_GetCertificate (digest : Hash) s : result Certificate :=
  if lc_closed s then Err ErrNotRunning
  else match db_Get (makeCertKey digest) (lc_db s) with
       | NotFound => Err ErrCertificateNotFound
       | GetFailed err => Err (Wrapf "failed to get certificate" err)
       | Found data =>
           match Unmarshal data with
           | Err err => Err (Wrapf "failed to decode certificate" err)
           | Ok cert => Ok cert
           end
       end.

Definition LevelDB_HasCertificate (digest : Hash) s : bool :=
  if lc_closed s then false
  else match db_Has (makeCertKey digest) (lc_db s) with Ok has => has | Err _ => false end.

Definition getCertificateInternal (digest : Hash) s : result Certificate :=
  match db_Get (makeCertKey digest) (lc_db s) with
  | NotFound => Err ErrCertificateNotFound
  | GetFailed err => Err err
  | Found data => Unmarshal data
  end.

(** One entry of the round index. *)
Definition cert_of_entry s (kv : bytes * bytes) : option Certificate :=
  if bool_decide (zlen kv.2 ≠ HashSize) then None
  else match getCertificateInternal (copy_hash kv.2) s with Err _ => None | Ok cert => Some cert end.

Definition LevelDB_GetCertificatesByRound (round : Z) s : result (list Certificate) :=
  if lc_closed s then Err ErrNotRunning
  else
    match db_Iterate (makeCertRoundPrefix round) (lc_db s) with
    | (_, Some err) => Err (Wrapf "iteration error" err)
    | (entries, None) => Ok (omap (cert_of_entry s) entries)
    end.

Definition LevelDB_GetCertificateForValidator (round validator : Z) s : result Certificate :=
  if lc_closed s then Err ErrNotRunning
  else match db_Get (makeCertRoundValidatorKey round validator) (lc_db s) with
       | NotFound => Err ErrCertificateNotFound
       | GetFailed err => Err (Wrapf "failed to get certificate index" err)
       | Found digestBytes =>
           if bool_decide (zlen digestBytes ≠ HashSize) then Err ErrCertificateNotFound
           else getCertificateInternal (copy_hash digestBytes) s
       end.

(** The keys to delete for one entry of the round index. *)
Definition stale_cert_keys (round : Z) (kv : bytes * bytes) : list bytes :=
  if bool_decide (parseRoundFromCertKey kv.1 < round) then
    if bool_decide (zlen kv.2 = HashSize) then [makeCertKey (copy_hash kv.2); kv.1] else []
  else [].

Definition LevelDB_DeleteCertificatesBefore (round : Z) s : LevelDBCertificateStore D * option error :=
  if lc_closed s then (s, Some ErrNotRunning)
  else
    match db_Iterate certRoundPrefix (lc_db s) with
    | (_, Some err) => (s, Some (Wrapf "iteration error" err))
    | (entries, None) =>
        let toDelete := concat (map (stale_cert_keys round) entries) in
        if bool_decide (zlen toDelete > 0) then
          match db_Write (Delete <$> toDelete) (lc_db s) with
          | (db, Some err) => (mk_LevelDBCertificateStore db (lc_closed s), Some (Wrapf "failed to delete certificates" err))
          | (db, None) => (mk_LevelDBCertificateStore db (lc_closed s), None)
          end
        else (s, None)
    end.

Definition LevelDB_CertificateStore_Close s : LevelDBCertificateStore D * option error :=
  if lc_closed s then (s, None)
  else let '(db, err) := db_Close (lc_db s) in (mk_LevelDBCertificateStore db true, err).

Definition LevelDB_CertificateStore_Len s : Z :=
  if lc_closed s then 0 else zlen (db_Iterate certPrefix (lc_db s)).1.

Definition LevelDB_HighestRound s : Z := lc_getHighestRound s.

#[export] Instance leveldb_certificate_store : CertificateStore (LevelDBCertificateStore D) := {|
  SaveCertificate := LevelDB_SaveCertificate; GetCertificate := LevelDB_GetCertificate;
  HasCertificate := LevelDB_HasCertificate; GetCertificatesByRound := LevelDB_GetCertificatesByRound;
  GetCertificateForValidator := LevelDB_GetCertificateForValidator;
  DeleteCertificatesBefore := LevelDB_DeleteCertificatesBefore; HighestRound := LevelDB_HighestRound
|}.
End store.

(** ** Keys *)
Lemma cert_key_inj d d' : makeCertKey d = makeCertKey d' → d = d'.
Proof. apply app_inv_head. Qed.

Lemma cert_round_key_inj r v r' v' :
  is_u64 r → is_u64 r' → is_u16 v → is_u16 v' →
  makeCertRoundValidatorKey r v = makeCertRoundValidatorKey r' v' → r = r' ∧ v = v'.
Proof.
  intros Hr Hr' Hv Hv' E. apply app_inv_head in E. apply be_app_inj in E as [E1 E2].
  split; [by apply PutUint64_inj|by apply PutUint16_inj].
Qed.

Lemma cert_key_round_key d r v : makeCertKey d ≠ makeCertRoundValidatorKey r v.
Proof. done. Qed.
Lemma cert_key_highest d : makeCertKey d ≠ certHighestKey.
Proof. done. Qed.
Lemma cert_round_key_highest r v : makeCertRoundValidatorKey r v ≠ certHighestKey.
Proof. done. Qed.
Lemma cert_round_key_prefix r v : certRoundPrefix `prefix_of` makeCertRoundValidatorKey r v.
Proof. unfold makeCertRoundValidatorKey. by apply prefix_app_r. Qed.

Lemma parse_cert_key r v : is_u64 r → parseRoundFromCertKey (makeCertRoundValidatorKey r v) = r.
Proof.
  intros Hr. unfold parseRoundFromCertKey, makeCertRoundValidatorKey.
  rewrite !length_app, PutUint64_length. rewrite bool_decide_eq_false_2 by lia.
  by rewrite drop_app_length, Uint64_Put.
Qed.

Lemma cert_round_prefix_key r r' v :
  is_u64 r → is_u64 r' → makeCertRoundPrefix r `prefix_of` makeCertRoundValidatorKey r' v ↔ r = r'.
Proof.
  intros Hr Hr'. unfold makeCertRoundPrefix, makeCertRoundValidatorKey. split.
  - intros [k E]. rewrite <-app_assoc in E. apply app_inv_head in E. apply be_app_inj in E as [E _].
    symmetry. by apply PutUint64_inj.
  - intros ->. rewrite app_assoc. by apply prefix_app_r.
Qed.

(** ** Representation of a map without equivocation *)

(** The ranges of the Go types of the fields the store reads. *)
Definition typed_Certificate (c : Certificate) : Prop :=
  is_hash (CDigest c) ∧ is_u64 (CRound c) ∧ is_u16 (CAuthor c).

#[export] Instance typed_Certificate_dec c : Decision (typed_Certificate c).
Proof. unfold typed_Certificate; apply _. Defined.

(** Two certificates of one author and round are the same. *)
Definition no_rivals (P : Certificate → Prop) : Prop :=
  ∀ c c', P c → P c' → CRound c = CRound c' → CAuthor c = CAuthor c' → CDigest c = CDigest c'.

Section refinement.
Context {D : Type} `{LL : LevelDBLaws D} {CC : Codec Certificate} {CCL : CodecLaws Certificate typed_Certificate}.
Implicit Types (s : LevelDBCertificateStore D) (m : gmap Hash Certificate).

Record lc_repr s m : Prop := {
  cr_open : lc_closed s = false;
  cr_db : db_ok (lc_db s);
  cr_typed d c : m !! d = Some c → CDigest c = d ∧ typed_Certificate c;
  cr_cert d :
    match m !! d with
    | None => db_view (lc_db s) !! makeCertKey d = None
    | Some c => ∃ v, db_view (lc_db s) !! makeCertKey d = Some v ∧ Unmarshal v = Ok c
    end;
  cr_index k v : certRoundPrefix `prefix_of` k →
    db_view (lc_db s) !! k = Some v ↔
      ∃ c, m !! CDigest c = Some c ∧ k = makeCertRoundValidatorKey (CRound c) (CAuthor c) ∧ v = CDigest c
}.

Lemma lc_repr_fresh db : db_ok db → db_view db = ∅ → lc_repr (mk_LevelDBCertificateStore db false) ∅.
Proof.
  intros Hd E. split; cbn; try done; rewrite ?E.
  - intros d. by rewrite lookup_empty.
  - intros k v _. rewrite lookup_empty. split; [done|]. intros (c & ? & _). by rewrite lookup_empty in *.
Qed.

Lemma lc_repr_put s m c data db (high : list db_op) :
  lc_repr s m → typed_Certificate c → m !! CDigest c = None → Unmarshal data = Ok c → db_ok db →
  no_rivals (λ x, x = c ∨ m !! CDigest x = Some x) →
  (∀ w k, k ≠ certHighestKey → apply_ops high w !! k = w !! k) →
  db_view db = apply_ops ([Put (makeCertKey (CDigest c)) data;
                           Put (makeCertRoundValidatorKey (CRound c) (CAuthor c)) (CDigest c)] ++ high)
    (db_view (lc_db s)) →
  lc_repr (mk_LevelDBCertificateStore db false) (<[CDigest c := c]> m).
Proof.
  intros Hr Hc Hm Hu Hdb Hno Hh Hv. pose proof Hc as (_ & Hcr & Hca). pose proof (cr_index _ _ Hr) as Hix. set (v0 := db_view (lc_db s)) in *.
  assert (∀ k, k ≠ certHighestKey → db_view db !! k =
    (<[makeCertRoundValidatorKey (CRound c) (CAuthor c) := CDigest c]> (<[makeCertKey (CDigest c) := data]> v0)) !! k) as Hk.
  { intros k Hne. rewrite Hv, apply_ops_app. by rewrite Hh. }
  split; cbn; [done|done| | |].
  - intros d c' [[<- <-]|[Hne Hl]]%lookup_insert_Some; [done|]. by apply (cr_typed _ _ Hr).
  - intros d. destruct (decide (d = CDigest c)) as [->|Hne].
    + rewrite (lookup_insert_eq m). exists data. split; [|done].
      rewrite Hk by apply cert_key_highest. rewrite lookup_insert_ne by (apply not_eq_sym, cert_key_round_key).
      by rewrite lookup_insert_eq.
    + rewrite (lookup_insert_ne m) by congruence. rewrite Hk by apply cert_key_highest.
      rewrite (lookup_insert_ne _ _ (makeCertKey d)) by (apply not_eq_sym, cert_key_round_key).
      rewrite lookup_insert_ne by (by intros <-%cert_key_inj). apply (cr_cert _ _ Hr).
  - intros k v Hp. rewrite Hk by (intros ->; by destruct Hp).
    rewrite lookup_insert_Some, lookup_insert_ne by (intros <-; by destruct Hp). fold v0.
    rewrite (Hix k v Hp). split.
    + intros [[<- <-]|(Hne & c' & Hl & -> & ->)].
      * exists c. by rewrite lookup_insert_eq.
      * exists c'. rewrite lookup_insert_ne; [done|congruence].
    + intros (c' & Hl & -> & ->). apply lookup_insert_Some in Hl as [[Ed <-]|[Hne Hl]]; [by left|].
      right. split; [|by exists c']. intros E. destruct (cr_typed _ _ Hr _ _ Hl) as (_ & _ & ? & ?).
      apply cert_round_key_inj in E as [E1 E2]; try done. apply Hne. apply Hno; auto.
Qed.

Lemma lc_repr_save s m c :
  lc_repr s m → typed_Certificate c → no_rivals (λ x, x = c ∨ m !! CDigest x = Some x) →
  let r := LevelDB_SaveCertificate c s in r.2 = None ∧ lc_repr r.1 (insert_new (CDigest c) c m).
Proof using LL CCL.
  intros Hr Hc Hno. unfold LevelDB_SaveCertificate, insert_new. rewrite (cr_open _ _ Hr), db_has_spec by apply Hr.
  pose proof (cr_cert _ _ Hr (CDigest c)) as Hb. destruct (m !! CDigest c) as [c'|] eqn:Em.
  - destruct Hb as (v & -> & _). rewrite bool_decide_eq_true_2 by by eexists. done.
  - rewrite Hb, bool_decide_eq_false_2 by by intros [].
    destruct (unmarshal_marshal c Hc) as (data & -> & Hu).
    set (high := if bool_decide _ then _ else _).
    match goal with |- context [db_Write ?ops _] => pose proof (db_write_spec (lc_db s) ops (cr_db _ _ Hr)) as Hw end.
    destruct (db_Write _ _) as [db err]. cbn [fst snd] in Hw. destruct Hw as (-> & Hdb & Hv).
    split; [done|]. apply (lc_repr_put s m c data db high); try done.
    intros w k Hk. unfold high. case_bool_decide; [|done]. cbn. by rewrite lookup_insert_ne.
Qed.

Lemma lc_repr_internal s m d :
  lc_repr s m → getCertificateInternal d s = match m !! d with Some c => Ok c | None => Err ErrCertificateNotFound end.
Proof.
  intros Hr. unfold getCertificateInternal. rewrite db_get_spec by apply Hr.
  pose proof (cr_cert _ _ Hr d) as Hb. destruct (m !! d); [destruct Hb as (v & -> & ->)|rewrite Hb]; done.
Qed.

Lemma lc_repr_get s m d :
  lc_repr s m → LevelDB_GetCertificate d s = match m !! d with Some c => Ok c | None => Err ErrCertificateNotFound end.
Proof.
  intros Hr. unfold LevelDB_GetCertificate. rewrite (cr_open _ _ Hr), db_get_spec by apply Hr.
  pose proof (cr_cert _ _ Hr d) as Hb. destruct (m !! d); [destruct Hb as (v & -> & ->)|rewrite Hb]; done.
Qed.

Lemma lc_repr_has s m d : lc_repr s m → LevelDB_HasCertificate d s = bool_decide (is_Some (m !! d)).
Proof.
  intros Hr. unfold LevelDB_HasCertificate. rewrite (cr_open _ _ Hr), db_has_spec by apply Hr.
  pose proof (cr_cert _ _ Hr d) as Hb. apply bool_decide_ext.
  destruct (m !! d); [destruct Hb as (v & -> & _); split; by eexists|by rewrite Hb].
Qed.

Lemma cert_of_entry_spec s m c k :
  lc_repr s m → m !! CDigest c = Some c → cert_of_entry s (k, CDigest c) = Some c.
Proof.
  intros Hr Hm. destruct (cr_typed _ _ Hr _ _ Hm) as (_ & Hh & _). pose proof (is_hash_length _ Hh) as El.
  unfold cert_of_entry. cbn [fst snd]. rewrite El, bool_decide_eq_false_2 by (unfold HashSize; lia).
  rewrite copy_hash_id by done. by rewrite (lc_repr_internal s m), Hm.
Qed.

(** The certificates of a round, each once. *)
Definition cert_list m (r : Z) (l : list Certificate) : Prop :=
  NoDup (CDigest <$> l) ∧ ∀ c, c ∈ l ↔ m !! CDigest c = Some c ∧ CRound c = r.

Lemma cert_list_unique m r l l' : cert_list m r l → cert_list m r l' → l ≡ₚ l'.
Proof.
  intros [H1 H2] [H3 H4]. apply NoDup_Permutation; [by eapply NoDup_fmap_1|by eapply NoDup_fmap_1|].
  intros c. by rewrite H2, H4.
Qed.

Lemma lc_repr_round s m r :
  lc_repr s m → is_u64 r → ∃ l, LevelDB_GetCertificatesByRound r s = Ok l ∧ cert_list m r l.
Proof.
  intros Hr Hu. unfold LevelDB_GetCertificatesByRound. rewrite (cr_open _ _ Hr).
  destruct (iterate_spec (lc_db s) (makeCertRoundPrefix r) (cr_db _ _ Hr)) as (l & -> & Hnd & Hl).
  assert (∀ k v, (k, v) ∈ l ↔ ∃ c, m !! CDigest c = Some c ∧ CRound c = r ∧
    k = makeCertRoundValidatorKey r (CAuthor c) ∧ v = CDigest c) as Hin.
  { intros k v. rewrite Hl. split.
    - intros [Hp Hv]. assert (certRoundPrefix `prefix_of` k) as Hp' by (by eapply prefix_app_l).
      apply (cr_index _ _ Hr k v Hp') in Hv as (c & Hm & -> & ->). destruct (cr_typed _ _ Hr _ _ Hm) as (_ & _ & ? & _).
      apply cert_round_prefix_key in Hp as ->; [|done|done]. by exists c.
    - intros (c & Hm & Er & -> & ->). split; [by apply cert_round_prefix_key|].
      apply (cr_index _ _ Hr); [apply cert_round_key_prefix|]. exists c. by rewrite Er. }
  eexists. split; [done|]. split.
  - revert Hnd. assert (∀ kv, kv ∈ l → ∃ c, m !! CDigest c = Some c ∧ CRound c = r ∧
      kv = (makeCertRoundValidatorKey r (CAuthor c), CDigest c)) as Hall.
    { intros [k v] (c & Hm & Er & -> & ->)%Hin. by exists c. }
    clear Hin Hl. induction l as [|kv l IH]; [constructor|]. rewrite fmap_cons, NoDup_cons. intros [Hni Hnd].
    destruct (Hall kv) as (c & Hm & Er & ->); [left|]. cbn [omap list_omap].
    rewrite (cert_of_entry_spec s m), fmap_cons, NoDup_cons by done.
    split; [|apply IH; [intros; apply Hall; by right|done]].
    intros (c' & Ec & (kv' & Hkv' & E')%list_elem_of_omap)%list_elem_of_fmap. apply Hni.
    destruct (Hall kv') as (c'' & Hm' & Er' & ->); [by right|]. rewrite (cert_of_entry_spec s m) in E' by done. simplify_eq.
    apply list_elem_of_fmap. eexists. split; [|exact Hkv']. cbn. rewrite Ec in Hm. congruence.
  - intros c. rewrite list_elem_of_omap. split.
    + intros ([k v] & (c' & Hm & Er & -> & ->)%Hin & E). rewrite (cert_of_entry_spec s m) in E by done. by simplify_eq.
    + intros [Hm Er]. exists (makeCertRoundValidatorKey r (CAuthor c), CDigest c).
      split; [apply Hin; by exists c|]. by apply (cert_of_entry_spec s m).
Qed.

(** The certificate of an author in a round. *)
Definition for_validator m (r v : Z) (res : result Certificate) : Prop :=
  (∃ c, m !! CDigest c = Some c ∧ CRound c = r ∧ CAuthor c = v ∧ res = Ok c) ∨
  (res = Err ErrCertificateNotFound ∧ ∀ c, m !! CDigest c = Some c → ¬ (CRound c = r ∧ CAuthor c = v)).

Lemma for_validator_unique m r v res res' :
  no_rivals (λ c, m !! CDigest c = Some c) → for_validator m r v res → for_validator m r v res' → res = res'.
Proof.
  intros Hno [(c & Hc & H1 & H2 & ->)|[-> Hn]] [(c' & Hc' & H1' & H2' & ->)|[-> Hn']].
  - assert (CDigest c = CDigest c') as E by (apply Hno; congruence). rewrite E in Hc. congruence.
  - by destruct (Hn' c Hc).
  - by destruct (Hn c' Hc').
  - done.
Qed.

Lemma lc_repr_validator s m r v :
  lc_repr s m → is_u64 r → is_u16 v → for_validator m r v (LevelDB_GetCertificateForValidator r v s).
Proof.
  intros Hr Hu Hv. unfold LevelDB_GetCertificateForValidator. rewrite (cr_open _ _ Hr), db_get_spec by apply Hr.
  pose proof (λ d, cr_index _ _ Hr _ d (cert_round_key_prefix r v)) as Hix.
  destruct (db_view (lc_db s) !! makeCertRoundValidatorKey r v) as [d|].
  - left. destruct (proj1 (Hix d) eq_refl) as (c & Hm & E & ->). destruct (cr_typed _ _ Hr _ _ Hm) as (_ & Hh & ? & ?).
    apply cert_round_key_inj in E as [-> ->]; try done. exists c. split_and!; try done.
    pose proof (is_hash_length _ Hh) as El. rewrite El, bool_decide_eq_false_2 by (unfold HashSize; lia).
    rewrite copy_hash_id by done. by rewrite (lc_repr_internal s m), Hm.
  - right. split; [done|]. intros c Hm [<- <-]. assert (None = Some (CDigest c)) as [=]. apply Hix. by exists c.
Qed.

Lemma elem_of_stale_cert_keys s m r l k :
  lc_repr s m →
  (∀ k v, (k, v) ∈ l ↔ certRoundPrefix `prefix_of` k ∧ db_view (lc_db s) !! k = Some v) →
  k ∈ concat (map (stale_cert_keys r) l) ↔
  ∃ c, m !! CDigest c = Some c ∧ CRound c < r ∧
    (k = makeCertKey (CDigest c) ∨ k = makeCertRoundValidatorKey (CRound c) (CAuthor c)).
Proof.
  intros Hr Hl.
  assert (∀ c, m !! CDigest c = Some c → stale_cert_keys r (makeCertRoundValidatorKey (CRound c) (CAuthor c), CDigest c) =
    if bool_decide (CRound c < r) then [makeCertKey (CDigest c); makeCertRoundValidatorKey (CRound c) (CAuthor c)] else []) as Hs.
  { intros c Hm. destruct (cr_typed _ _ Hr _ _ Hm) as (_ & Hh%is_hash_length & ? & _). unfold stale_cert_keys. cbn [fst snd].
    rewrite parse_cert_key by done. rewrite (bool_decide_eq_true_2 (zlen (CDigest c) = HashSize)) by (unfold HashSize; lia).
    by rewrite copy_hash_id. }
  rewrite list_elem_of_In, in_concat. split.
  - intros (ks & (kv & <- & Hkv%list_elem_of_In)%in_map_iff & Hk%list_elem_of_In). destruct kv as [k' v].
    apply Hl in Hkv as [Hp Hv]. apply (cr_index _ _ Hr _ _ Hp) in Hv as (c & Hm & -> & ->).
    rewrite Hs in Hk by done. case_bool_decide; [|by apply not_elem_of_nil in Hk].
    exists c. split_and!; [done|done|]. set_solver.
  - intros (c & Hm & Hlt & Hk). eexists. split.
    + apply in_map, list_elem_of_In, Hl. split; [apply cert_round_key_prefix|].
      apply (cr_index _ _ Hr); [apply cert_round_key_prefix|]. by exists c.
    + apply list_elem_of_In. rewrite Hs, bool_decide_eq_true_2 by done. set_solver.
Qed.

Lemma lc_repr_filter s m r (gone : list bytes) db :
  lc_repr s m → db_ok db →
  (∀ k, k ∈ gone ↔ ∃ c, m !! CDigest c = Some c ∧ CRound c < r ∧
    (k = makeCertKey (CDigest c) ∨ k = makeCertRoundValidatorKey (CRound c) (CAuthor c))) →
  (∀ k, db_view db !! k = if decide (k ∈ gone) then None else db_view (lc_db s) !! k) →
  lc_repr (mk_LevelDBCertificateStore db false) (filter (λ p, r ≤ CRound p.2) m).
Proof.
  intros Hr Hdb Hg Hv. split; cbn; [done|done| | |].
  - intros d c [Hm _]%map_lookup_filter_Some. by apply (cr_typed _ _ Hr).
  - intros d. pose proof (cr_cert _ _ Hr d) as Hb. rewrite Hv, map_lookup_filter.
    destruct (m !! d) as [c|] eqn:Em; cbn; [|by case_decide].
    destruct (cr_typed _ _ Hr _ _ Em) as [<- _]. case_guard as Hle; cbn.
    + rewrite decide_False; [done|]. intros (c' & Hm' & Hlt & [E%cert_key_inj|E])%Hg; [|by apply cert_key_round_key in E].
      assert (c' = c) as -> by congruence. lia.
    + rewrite decide_True; [done|]. apply Hg. exists c. split_and!; [done|lia|by left].
  - intros k v Hp. rewrite Hv. split.
    + destruct (decide (k ∈ gone)) as [|Hn]; [done|]. intros (c & Hm & -> & ->)%(cr_index _ _ Hr _ _ Hp).
      exists c. split_and!; [|done|done]. apply map_lookup_filter_Some. split; [done|]. cbn.
      destruct (decide (CRound c < r)); [|lia]. exfalso. apply Hn, Hg. exists c. split_and!; [done|done|by right].
    + intros (c & [Hm Hle]%map_lookup_filter_Some & -> & ->). cbn in Hle. rewrite decide_False.
      { apply (cr_index _ _ Hr); [done|]. by exists c. }
      destruct (cr_typed _ _ Hr _ _ Hm) as (_ & _ & ? & ?).
      intros (c' & Hm' & Hlt & [E|E])%Hg; [symmetry in E; by apply cert_key_round_key in E|].
      destruct (cr_typed _ _ Hr _ _ Hm') as (_ & _ & ? & ?). apply cert_round_key_inj in E as [? _]; try done. lia.
Qed.

Lemma lc_repr_delete s m r :
  lc_repr s m →
  let res := LevelDB_DeleteCertificatesBefore r s in
  res.2 = None ∧ lc_repr res.1 (filter (λ p, r ≤ CRound p.2) m).
Proof.
  intros Hr. unfold LevelDB_DeleteCertificatesBefore. rewrite (cr_open _ _ Hr).
  destruct (iterate_spec (lc_db s) certRoundPrefix (cr_db _ _ Hr)) as (l & -> & _ & Hl).
  pose proof (λ k, elem_of_stale_cert_keys _ _ r l k Hr Hl) as Hk. clear Hl. set (gone := concat _) in *.
  case_bool_decide as Hlen.
  - pose proof (db_write_spec (lc_db s) (Delete <$> gone) (cr_db _ _ Hr)) as Hw.
    destruct (db_Write _ _) as [db err]. cbn in Hw. destruct Hw as (-> & Hdb & Hv). split; [done|].
    apply (lc_repr_filter s m r gone); try done. intros k. by rewrite Hv, apply_deletes.
  - split; [done|]. destruct gone eqn:Eg; [|cbn in Hlen; lia]. destruct s as [db c].
    pose proof (cr_open _ _ Hr) as Hc. cbn in Hc. subst c.
    apply (lc_repr_filter (mk_LevelDBCertificateStore db false) m r []); [done|apply Hr|done|].
    intros k. rewrite decide_False; [done|apply not_elem_of_nil].
Qed.
End refinement.

(** ** Equivalence with the in-memory store *)
Inductive cert_op :=
  | CSave (c : Certificate) | CGet (d : Hash) | CHas (d : Hash) | CByRound (r : Z)
  | CForValidator (r v : Z) | CDelete (r : Z).
Inductive cert_out :=
  | CErr (e : option error) | CCert (r : result Certificate) | CBool (b : bool) | CCerts (r : result (list Certificate)).

Definition cert_step {S} `{CertificateStore S} (op : cert_op) (s : S) : S * cert_out :=
  match op with
  | CSave c => let '(s, e) := SaveCertificate c s in (s, CErr e)
  | CGet d => (s, CCert (GetCertificate d s))
  | CHas d => (s, CBool (HasCertificate d s))
  | CByRound r => (s, CCerts (GetCertificatesByRound r s))
  | CForValidator r v => (s, CCert (GetCertificateForValidator r v s))
  | CDelete r => let '(s, e) := DeleteCertificatesBefore r s in (s, CErr e)
  end.
Fixpoint cert_run {S} `{CertificateStore S} (ops : list cert_op) (s : S) : list cert_out :=
  match ops with
  | [] => []
  | op :: ops' => let '(s, o) := cert_step op s in o :: cert_run ops' s
  end.

Definition typed_cert_op (op : cert_op) : Prop :=
  match op with
  | CSave c => typed_Certificate c
  | CByRound r => is_u64 r
  | CForValidator r v => is_u64 r ∧ is_u16 v
  | _ => True
  end.
#[export] Instance typed_cert_op_dec op : Decision (typed_cert_op op).
Proof. destruct op; apply _. Defined.

Definition saved (ops : list cert_op) (c : Certificate) : Prop := CSave c ∈ ops.

Inductive cert_out_equiv : cert_out → cert_out → Prop :=
  | cert_same o : cert_out_equiv o o
  | cert_perm l l' : l ≡ₚ l' → cert_out_equiv (CCerts (Ok l)) (CCerts (Ok l')).

(** The in-memory store without equivocation. *)
Lemma memory_cert_list t r :
  mc_ok t → ∃ l, Memory_GetCertificatesByRound r t = Ok l ∧ cert_list (certs t) r l.
Proof.
  intros Hok. unfold Memory_GetCertificatesByRound. rewrite (mc_open _ Hok).
  pose proof (indexed_lookup_all _ _ _ _ r (mc_indexed _ Hok)) as Hl.
  exists (lookup_all (certs t) (default [] (c_byRound t !! r))). split; [by destruct (c_byRound t !! r)|exact Hl].
Qed.

Lemma memory_for_validator t r v : mc_ok t → for_validator (certs t) r v (Memory_GetCertificateForValidator r v t).
Proof.
  intros Hok. pose proof (mc_validator _ Hok r v) as Hv. unfold Memory_GetCertificateForValidator. rewrite (mc_open _ Hok).
  assert (default ∅ (byValidator t !! r) !! v = None → ∀ c, certs t !! CDigest c = Some c → ¬ (CRound c = r ∧ CAuthor c = v)) as Hn.
  { intros E c Hc [<- <-]. destruct (mc_author _ Hok _ _ Hc) as [d Hd]. congruence. }
  destruct (byValidator t !! r) as [vm|]; cbn in *; [|right; split; [done|apply Hn, lookup_empty]].
  destruct (vm !! v) as [d|]; [|right; split; [done|by apply Hn]]. left.
  destruct (Hv d eq_refl) as (c & Hc & Hr & Ha). exists c. rewrite Hc.
  assert (CDigest c = d) as -> by (by apply (ix_key _ _ _ _ (mc_indexed _ Hok))). done.
Qed.

Section equivalence.
Context {D : Type} `{LL : LevelDBLaws D} {CC : Codec Certificate} {CCL : CodecLaws Certificate typed_Certificate}.
Context (U : Certificate → Prop) (HU : no_rivals U).

Record cert_sim (s : LevelDBCertificateStore D) (t : MemoryCertificateStore) : Prop := {
  sim_repr : lc_repr s (certs t);
  sim_ok : mc_ok t;
  sim_universe d c : certs t !! d = Some c → U c
}.

Lemma sim_no_rivals s t : cert_sim s t → no_rivals (λ c, certs t !! CDigest c = Some c).
Proof using HU. intros Hs c c' Hc Hc'. apply HU; by eapply sim_universe. Qed.

Lemma cert_step_equiv op s t :
  typed_cert_op op → (∀ c, op = CSave c → U c) → cert_sim s t →
  let r := cert_step op s in let r' := cert_step op t in cert_out_equiv r.2 r'.2 ∧ cert_sim r.1 r'.1.
Proof using HU CCL.
  intros Ht Hu Hs. pose proof Hs as [Hr Hok HUt]. destruct op; cbn in Ht |- *.
  - destruct (lc_repr_save s _ c Hr Ht) as [E1 H1].
    { intros x y Hx Hy. apply HU; [destruct Hx as [->|]|destruct Hy as [->|]]; eauto. }
    pose proof (cs_save t c Hok) as (E2 & H2 & H3). cbn in E2, H2, H3.
    destruct (LevelDB_SaveCertificate c s), (Memory_SaveCertificate c t). cbn in *. subst. split; [constructor|].
    split; [by rewrite H3|done|]. intros d c'. rewrite H3. unfold insert_new. destruct (certs t !! CDigest c); [by apply HUt|].
    intros [[<- <-]|[_ ?]]%lookup_insert_Some; eauto.
  - rewrite (lc_repr_get _ _ d Hr). unfold Memory_GetCertificate. rewrite (mc_open _ Hok). split; [|done].
    destruct (certs t !! d); constructor.
  - rewrite (lc_repr_has _ _ d Hr). unfold Memory_HasCertificate. rewrite (mc_open _ Hok), lookup_isSome_bool.
    split; [constructor|done].
  - destruct (lc_repr_round _ _ r Hr Ht) as (l & -> & Hl). destruct (memory_cert_list t r Hok) as (l' & -> & Hl').
    split; [|done]. constructor. by eapply cert_list_unique.
  - destruct Ht as [Ht1 Ht2]. rewrite (for_validator_unique _ r v _ _ (sim_no_rivals _ _ Hs)
      (lc_repr_validator s _ r v Hr Ht1 Ht2) (memory_for_validator t r v Hok)). split; [constructor|done].
  - destruct (lc_repr_delete s _ r Hr) as [E1 H1]. destruct (mc_ok_delete t r Hok) as [H2 H3].
    pose proof (cs_delete t r Hok) as (E2 & _). cbn in E2.
    destruct (LevelDB_DeleteCertificatesBefore r s), (Memory_DeleteCertificatesBefore r t). cbn in *. subst.
    split; [constructor|]. split; [by rewrite H3|done|]. intros d c. rewrite H3, map_lookup_filter_Some. intros [? _]. eauto.
Qed.
End equivalence.

(** C38. Without equivocation the persistent certificate store is equivalent to
    the in-memory one: started empty, and as long as the database works, both
    give the same answer to each operation of any sequence of saves, queries (by
    digest, by round, by round and author) and deletions on values of the Go
    types, if no two of the certificates saved are of the same author and round
    (the certificates of a round up to order). *)
Theorem leveldb_certificate_store_equivalent {D} `{LevelDBLaws D} {CC : Codec Certificate}
    {CCL : CodecLaws Certificate typed_Certificate} ops (db : D) :
  Forall typed_cert_op ops → no_rivals (saved ops) → db_ok db → db_view db = ∅ →
  Forall2 cert_out_equiv (cert_run ops (mk_LevelDBCertificateStore db false)) (cert_run ops NewMemoryCertificateStore).
Proof.
  intros Ht Hno Hd E.
  assert (cert_sim (saved ops) (mk_LevelDBCertificateStore db false) NewMemoryCertificateStore) as Hs.
  { split; [by apply lc_repr_fresh|exact mc_ok_new|done]. }
  assert (∀ c, CSave c ∈ ops → saved ops c) as Hin by done. clear E Hd.
  revert Hs Hin. generalize (mk_LevelDBCertificateStore db false) NewMemoryCertificateStore. revert Hno. generalize (saved ops).
  induction Ht as [|op ops' Hop Ht IH]; intros U Hno s t Hs Hin; cbn [cert_run]; [constructor|].
  destruct (cert_step_equiv U Hno op s t Hop) as [Ho Hs']; [intros c ->; apply Hin; left|done|].
  destruct (cert_step op s), (cert_step op t). cbn in *. constructor; [done|].
  eapply IH; [exact Hno|done|]. intros x Hx. apply Hin. by right.
Qed.

(** ** Closed examples *)
#[local] Existing Instance toy_ed25519.
Module LevelDBCertExample.
#[local] Instance codec : Codec Certificate := count_codec Certificate.
#[local] Instance codec_laws : CodecLaws Certificate typed_Certificate := count_codec_laws Certificate typed_Certificate.
Definition digest (i : Z) : Hash := replicate 32 i.
Definition c0 : Certificate := Toy.cert 0 3 (digest 7) [] [0; 1; 2].
Definition c1 : Certificate := Toy.cert 1 4 (digest 8) [] [0; 1; 2].
Definition rival : Certificate := Toy.cert 0 3 (digest 9) [] [1; 2; 3].
Definition empty : LevelDBCertificateStore MemDB := mk_LevelDBCertificateStore (∅ : MemDB) false.
Definition ops : list cert_op :=
  [CSave c0; CSave c1; CSave c0; CByRound 3; CForValidator 3 0; CDelete 4; CHas (digest 7); CGet (digest 8)].
End LevelDBCertExample.
#[local] Existing Instance LevelDBCertExample.codec.
#[local] Existing Instance LevelDBCertExample.codec_laws.

Lemma leveldb_certificate_store_equivalent_witness :
  Forall2 cert_out_equiv (cert_run LevelDBCertExample.ops LevelDBCertExample.empty)
    (cert_run LevelDBCertExample.ops NewMemoryCertificateStore).
Proof.
  apply leveldb_certificate_store_equivalent; [|..|done|done].
  - apply (bool_decide_eq_true_1 (Forall typed_cert_op LevelDBCertExample.ops)). by vm_compute.
  - assert (∀ x, saved LevelDBCertExample.ops x → x = LevelDBCertExample.c0 ∨ x = LevelDBCertExample.c1) as Hin.
    { intros x. unfold saved, LevelDBCertExample.ops. rewrite !elem_of_cons, elem_of_nil. naive_solver. }
    intros c c' [-> | ->]%Hin [-> | ->]%Hin Hr Ha; first [done | by vm_compute in Hr].
Defined.

(** With equivocation the stores differ: the round index keeps the last
    certificate of an author, so a deletion leaves the first one in the database,
    where it is found by its digest, and no later deletion reaches it. *)
Example equivocation_survives_deletion :
  let ops := [CSave LevelDBCertExample.c0; CSave LevelDBCertExample.rival; CByRound 3; CDelete 10; CDelete 20;
              CHas (CDigest LevelDBCertExample.c0); CHas (CDigest LevelDBCertExample.rival)] in
  cert_run ops LevelDBCertExample.empty =
    [CErr None; CErr None; CCerts (Ok [LevelDBCertExample.rival]); CErr None; CErr None; CBool true; CBool false] ∧
  cert_run ops NewMemoryCertificateStore =
    [CErr None; CErr None; CCerts (Ok [LevelDBCertExample.c0; LevelDBCertExample.rival]); CErr None; CErr None;
     CBool false; CBool false].
Proof. split; by vm_compute. Qed.

(** The database keeps the highest round ever saved; the in-memory store
    recomputes it on deletion. *)
Example highest_round_after_deletion :
  let final {S} `{CertificateStore S} (s : S) :=
    HighestRound (DeleteCertificatesBefore 10 (SaveCertificate LevelDBCertExample.c1 s).1).1 in
  final LevelDBCertExample.empty = 4 ∧ final NewMemoryCertificateStore = 0.
Proof. split; by vm_compute. Qed.
