(* ===== verification/LevelDBTxIndex.v ===== *)
(** The persistent transaction index (store/leveldb_tx_index.go): the batch of
    each transaction, the transactions of each batch by slot, the round of each
    batch.  It cannot be told from the in-memory index while a digest names one
    batch and no transaction is in two batches; closed examples show what happens
    otherwise. *)
From S2P Require Import Prelude Bytes Sha256 Errors Types Batch Header BitSet Certificate Store TxIndex LevelDB.
Local Open Scope string_scope.
Local Open Scope list_scope.
Local Open Scope Z_scope.

Definition txToBatchPrefix : bytes := of_string "T:".
Definition batchToTxsPrefix : bytes := of_string "TB:".
Definition batchRoundIdxPrefix : bytes := of_string "TR:".

Definition makeTxKey (txHash : Hash) : bytes := txToBatchPrefix ++ txHash.
Definition makeBatchTxPrefix (batchHash : Hash) : bytes := batchToTxsPrefix ++ batchHash.
Definition makeBatchTxKey (batchHash : Hash) (slot : Z) : bytes := batchToTxsPrefix ++ batchHash ++ PutUint32 slot.
Definition makeBatchRoundIdxKey (batchHash : Hash) : bytes := batchRoundIdxPrefix ++ batchHash.

Record LevelDBTxIndex (D : Type) := mk_LevelDBTxIndex {
  lt_db : D;
  lt_closed : bool
}.
Arguments mk_LevelDBTxIndex {D}.
Arguments lt_db {D}.
Arguments lt_closed {D}.

Section index.
Context {D : Type} {LDB : LevelDB D}.
Implicit Types x : LevelDBTxIndex D.

(** [NewLevelDBTxIndex]; [opened] is the result of [leveldb.OpenFile]. *)
Definition NewLevelDBTxIndex (opened : result D) : result (LevelDBTxIndex D) :=
  match opened with
  | Err err => Err (Wrapf "failed to open leveldb" err)
  | Ok db => Ok (mk_LevelDBTxIndex db false)
  end.

(** The loop of [nextBatchTxSlot]: the largest slot seen so far. *)
Definition max_slot (prefix : bytes) (acc : option Z) (kv : bytes * bytes) : option Z :=
  if bool_decide (zlen kv.1 < zlen prefix + 4) then acc
  else
    let slot := Uint32 (drop (length prefix) kv.1) in
    match acc with
    | None => Some slot
    | Some max => if bool_decide (slot > max) then Some slot else Some max
    end.

Definition nextBatchTxSlot (batchHash : Hash) (db : D) : result Z :=
  let prefix := makeBatchTxPrefix batchHash in
  match db_Iterate prefix db with
  | (_, Some err) => Err (Wrapf "iteration error" err)
  | (entries, None) =>
      match fold_left (max_slot prefix) entries None with
      | None => Ok 0
      | Some max => Ok (u32 (max + 1))
      end
  end.

Definition LevelDB_AddTx (txHash batchHash : Hash) x : LevelDBTxIndex D * option error :=
  if lt_closed x then (x, Some ErrNotRunning)
  else
    let txKey := makeTxKey txHash in
    let add :=
      match nextBatchTxSlot batchHash (lt_db x) with
      | Err err => (x, Some err)
      | Ok slot =>
          match db_Write [Put txKey batchHash; Put (makeBatchTxKey batchHash slot) txHash] (lt_db x) with
          | (db, Some err) => (mk_LevelDBTxIndex db (lt_closed x), Some (Wrapf "failed to write tx index entry" err))
          | (db, None) => (mk_LevelDBTxIndex db (lt_closed x), None)
          end
      end in
    match db_Get txKey (lt_db x) with
    | Found existing =>
        if bool_decide (zlen existing = HashSize) then
          if Hash_Equal (copy_hash existing) batchHash then (x, None) else (x, Some ErrTxAlreadyExists)
        else add
    | NotFound => add
    | GetFailed err => (x, Some (Wrapf "failed to check tx existence" err))
    end.

(** The puts of [AddBatch] for the transactions from a slot on. *)
Fixpoint tx_puts (batchHash : Hash) (slot : Z) (txs : list Transaction) : list db_op :=
  match txs with
  | [] => []
  | tx :: txs' =>
      let txHash := Tx_Hash tx in
      Put (makeTxKey txHash) batchHash :: Put (makeBatchTxKey batchHash (u32 slot)) txHash ::
        tx_puts batchHash (slot + 1) txs'
  end.

Definition LevelDB_AddBatch (batch : Batch) x : LevelDBTxIndex D * option error :=
  if lt_closed x then (x, Some ErrNotRunning)
  else
    let batchHash := Batch_Digest batch in
    match db_Get (makeBatchRoundIdxKey batchHash) (lt_db x) with
    | Found _ => (x, None)
    | GetFailed err => (x, Some (Wrapf "failed to check batch index" err))
    | NotFound =>
        let wb := Put (makeBatchRoundIdxKey batchHash) (PutUint64 (Batch_Round batch)) ::
                  tx_puts batchHash 0 (Transactions batch) in
        match db_Write wb (lt_db x) with
        | (db, Some err) => (mk_LevelDBTxIndex db (lt_closed x), Some (Wrapf "failed to index batch" err))
        | (db, None) => (mk_LevelDBTxIndex db (lt_closed x), None)
        end
    end.

Definition LevelDB_GetBatchForTx (txHash : Hash) x : result Hash :=
  if lt_closed x then Err ErrNotRunning
  else match db_Get (makeTxKey txHash) (lt_db x) with
       | NotFound => Err ErrBatchNotFound
       | GetFailed err => Err (Wrapf "failed to read tx index" err)
       | Found data => if bool_decide (zlen data ≠ HashSize) then Err ErrBatchNotFound else Ok (copy_hash data)
       end.

Definition LevelDB_HasTx (txHash : Hash) x : bool :=
  if lt_closed x then false
  else match db_Has (makeTxKey txHash) (lt_db x) with Ok has => has | Err _ => false end.

(** The keys that [removeBatchLocked] deletes for one entry. *)
Definition tx_entry_keys (kv : bytes * bytes) : list bytes :=
  (if bool_decide (zlen kv.2 = HashSize) then [makeTxKey (copy_hash kv.2)] else []) ++ [kv.1].

Definition removeBatchLocked (batchHash : Hash) (db : D) : D * option error :=
  match db_Iterate (makeBatchTxPrefix batchHash) db with
  | (_, Some err) => (db, Some (Wrapf "iteration error" err))
  | (entries, None) =>
      let keys := concat (map tx_entry_keys entries) ++ [makeBatchRoundIdxKey batchHash] in
      match db_Write (Delete <$> keys) db with
      | (db, Some err) => (db, Some (Wrapf "failed to remove batch tx mappings" err))
      | (db, None) => (db, None)
      end
  end.

Definition LevelDB_RemoveTxsForBatch (batchHash : Hash) x : LevelDBTxIndex D * option error :=
  if lt_closed x then (x, Some ErrNotRunning)
  else let '(db, err) := removeBatchLocked batchHash (lt_db x) in (mk_LevelDBTxIndex db (lt_closed x), err).

(** The batch of one entry of the round index, if it is to be pruned. *)
Definition prunable (round : Z) (kv : bytes * bytes) : option Hash :=
  if bool_decide (zlen kv.1 < zlen batchRoundIdxPrefix + HashSize) || bool_decide (zlen kv.2 < 8) then None
  else if bool_decide (Uint64 kv.2 >= round) then None
  else Some (copy_hash (drop (length batchRoundIdxPrefix) kv.1)).

Fixpoint remove_batches (batches : list Hash) (db : D) : D * option error :=
  match batches with
  | [] => (db, None)
  | h :: batches' =>
      match removeBatchLocked h db with
      | (db, Some err) => (db, Some err)
      | (db, None) => remove_batches batches' db
      end
  end.

Definition LevelDB_PruneOlderThan (round : Z) x : LevelDBTxIndex D * result Z :=
  if lt_closed x then (x, Err ErrNotRunning)
  else
    match db_Iterate batchRoundIdxPrefix (lt_db x) with
    | (_, Some err) => (x, Err (Wrapf "iteration error" err))
    | (entries, None) =>
        let toPrune := omap (prunable round) entries in
        match remove_batches toPrune (lt_db x) with
        | (db, Some err) => (mk_LevelDBTxIndex db (lt_closed x), Err err)
        | (db, None) => (mk_LevelDBTxIndex db (lt_closed x), Ok (zlen toPrune))
        end
    end.

Definition LevelDB_TxIndex_Close x : LevelDBTxIndex D * option error :=
  if lt_closed x then (x, None)
  else let '(db, err) := db_Close (lt_db x) in (mk_LevelDBTxIndex db true, err).

Definition LevelDB_TxIndex_Len x : Z :=
  if lt_closed x then 0 else zlen (db_Iterate txToBatchPrefix (lt_db x)).1.

#[export] Instance leveldb_tx_index : TxIndex (LevelDBTxIndex D) := {|
  TI_HasTx := LevelDB_HasTx; TI_AddBatch := LevelDB_AddBatch; TI_GetBatchForTx := LevelDB_GetBatchForTx;
  TI_RemoveTxsForBatch := LevelDB_RemoveTxsForBatch; TI_PruneOlderThan := LevelDB_PruneOlderThan
|}.
End index.

Lemma NoDup_omap_key {K V W} (f : K * V → option W) (key : W → K) l :
  (∀ kv d, kv ∈ l → f kv = Some d → kv.1 = key d) → NoDup l.*1 → NoDup (omap f l).
Proof.
  induction l as [|kv l IH]; intros Hk Hnd; [constructor|]. cbn [fmap list_fmap] in Hnd.
  apply NoDup_cons in Hnd as [Hn Hnd].
  assert (NoDup (omap f l)) as H' by (apply IH; [intros kv' d Hin; apply Hk; by right|done]).
  cbn [omap list_omap]. destruct (f kv) as [d|] eqn:E; [|done]. constructor; [|done].
  intros (kv' & Hin & E')%list_elem_of_omap. apply Hn. rewrite (Hk kv d), <-(Hk kv' d); [|by right|done|by left|done].
  by apply list_elem_of_fmap_2.
Qed.

(** ** Keys *)
Lemma tx_key_inj t t' : makeTxKey t = makeTxKey t' → t = t'.
Proof. apply app_inv_head. Qed.
Lemma round_idx_key_inj d d' : makeBatchRoundIdxKey d = makeBatchRoundIdxKey d' → d = d'.
Proof. apply app_inv_head. Qed.

Lemma batch_tx_key_inj d d' i i' :
  length d = length d' → is_u32 i → is_u32 i' → makeBatchTxKey d i = makeBatchTxKey d' i' → d = d' ∧ i = i'.
Proof.
  intros El Hi Hi' E. apply app_inv_head in E. apply app_inj_1 in E as [-> E]; [|done]. split; [done|].
  by apply (be_bytes_inj 4).
Qed.

Lemma batch_tx_prefix_key d d' i :
  length d = length d' → makeBatchTxPrefix d `prefix_of` makeBatchTxKey d' i ↔ d = d'.
Proof.
  intros El. unfold makeBatchTxPrefix, makeBatchTxKey. split.
  - intros [k E]. rewrite <-app_assoc in E. apply app_inv_head in E. by apply app_inj_1 in E as [-> _].
  - intros ->. rewrite app_assoc. by apply prefix_app_r.
Qed.

(** ** The writes of a batch *)
Lemma elem_of_tx_puts d j txs op :
  op ∈ tx_puts d j txs ↔ ∃ i tx, txs !! i = Some tx ∧
    (op = Put (makeTxKey (Tx_Hash tx)) d ∨ op = Put (makeBatchTxKey d (u32 (j + Z.of_nat i))) (Tx_Hash tx)).
Proof.
  revert j. induction txs as [|tx txs IH]; intros j; cbn [tx_puts].
  { split; [by intros ?%not_elem_of_nil|]. intros (i & tx & E & _). by rewrite lookup_nil in E. }
  rewrite !elem_of_cons, IH. split.
  - intros [->|[->|(i & tx' & E & H)]].
    + exists 0%nat, tx. auto.
    + exists 0%nat, tx. split; [done|]. right. by rewrite Z.add_0_r.
    + exists (S i), tx'. split; [done|]. by replace (j + Z.of_nat (S i)) with (j + 1 + Z.of_nat i) by lia.
  - intros ([|i] & tx' & E & H); cbn in E.
    + injection E as <-. rewrite Z.add_0_r in H. tauto.
    + right. right. exists i, tx'. split; [done|]. by replace (j + 1 + Z.of_nat i) with (j + Z.of_nat (S i)) by lia.
Qed.

(** ** Representation of a set of indexed batches *)
Definition tx_hashes (b : Batch) : list Hash := map Tx_Hash (Transactions b).

(** The ranges of the Go types; slots are [uint32]. *)
Definition indexable (b : Batch) : Prop :=
  is_hash (Batch_Digest b) ∧ is_u64 (Batch_Round b) ∧ zlen (Transactions b) < 2 ^ 32.
#[export] Instance indexable_dec b : Decision (indexable b).
Proof. unfold indexable; apply _. Defined.

(** A digest names one batch, and no transaction is in two batches. *)
Record separate (U : Batch → Prop) : Prop := {
  sep_digest b b' : U b → U b' → Batch_Digest b = Batch_Digest b' → b = b';
  sep_txs b b' t : U b → U b' → t ∈ tx_hashes b → t ∈ tx_hashes b' → b = b'
}.

Lemma tx_hash_length tx : length (Tx_Hash tx) = 32%nat.
Proof. apply is_hash_length, HashBytes_is_hash. Qed.

Section refinement.
Context {D : Type} `{LL : LevelDBLaws D}.
Implicit Types (x : LevelDBTxIndex D) (m : gmap Hash Batch) (w : gmap bytes bytes).

(** What the database holds for the batches [m]. *)
Record tx_content w m : Prop := {
  tc_tx t v : w !! makeTxKey t = Some v ↔ ∃ b, m !! Batch_Digest b = Some b ∧ t ∈ tx_hashes b ∧ v = Batch_Digest b;
  tc_slot k v : batchToTxsPrefix `prefix_of` k →
    w !! k = Some v ↔ ∃ b i, m !! Batch_Digest b = Some b ∧ tx_hashes b !! i = Some v ∧
      k = makeBatchTxKey (Batch_Digest b) (Z.of_nat i);
  tc_round k v : batchRoundIdxPrefix `prefix_of` k →
    w !! k = Some v ↔ ∃ b, m !! Batch_Digest b = Some b ∧ k = makeBatchRoundIdxKey (Batch_Digest b) ∧
      v = PutUint64 (Batch_Round b)
}.

(** The batches come from a set [U] in which they are separate. *)
Record lt_repr (U : Batch → Prop) (db : D) m : Prop := {
  tr_db : db_ok db;
  tr_typed d b : m !! d = Some b → Batch_Digest b = d ∧ indexable b ∧ U b;
  tr_content : tx_content (db_view db) m
}.

Lemma lt_repr_fresh U db : db_ok db → db_view db = ∅ → lt_repr U db ∅.
Proof.
  intros Hd E. split; [done|intros ??; by rewrite lookup_empty|]. rewrite E.
  split; intros; rewrite lookup_empty; (split; [done|]); intros H'; destruct_and?;
    repeat match goal with H : ∃ _, _ |- _ => destruct H end; destruct_and?; by rewrite lookup_empty in *.
Qed.

(** Adding a batch that is not indexed. *)
Lemma elem_of_batch_puts b k v :
  indexable b →
  Put k v ∈ (Put (makeBatchRoundIdxKey (Batch_Digest b)) (PutUint64 (Batch_Round b)) ::
    tx_puts (Batch_Digest b) 0 (Transactions b)) ↔
  (k = makeBatchRoundIdxKey (Batch_Digest b) ∧ v = PutUint64 (Batch_Round b)) ∨
  (∃ t, t ∈ tx_hashes b ∧ k = makeTxKey t ∧ v = Batch_Digest b) ∨
  (∃ i, tx_hashes b !! i = Some v ∧ k = makeBatchTxKey (Batch_Digest b) (Z.of_nat i)).
Proof.
  intros (_ & _ & Hz). rewrite elem_of_cons, elem_of_tx_puts.
  assert (∀ i tx, Transactions b !! i = Some tx → u32 (0 + Z.of_nat i) = Z.of_nat i) as Hu.
  { intros i tx E%lookup_lt_Some. rewrite Z.add_0_l. apply wrap_id. unfold fits in *. lia. }
  assert (∀ i t, tx_hashes b !! i = Some t ↔ ∃ tx, t = Tx_Hash tx ∧ Transactions b !! i = Some tx) as Ht.
  { intros i t. apply list_lookup_fmap_Some. }
  split.
  - intros [[= -> ->]|(i & tx & E & Hop)]; [by left|right]. rewrite (Hu i tx E) in Hop.
    destruct Hop as [[= -> ->]|[= -> ->]]; [left|right].
    + exists (Tx_Hash tx). split; [|done]. apply (list_elem_of_lookup_2 _ i), Ht. eauto.
    + exists i. split; [|done]. apply Ht. eauto.
  - intros [[-> ->]|[(t & Hin & -> & ->)|(i & E & ->)]]; [by left|right..].
    + apply list_elem_of_lookup_1 in Hin as [i (tx & -> & E)%Ht]. exists i, tx. auto.
    + apply Ht in E as (tx & -> & E). exists i, tx. rewrite (Hu i tx E). auto.
Qed.

Lemma batch_puts_no_delete b k :
  Delete k ∉ (Put (makeBatchRoundIdxKey (Batch_Digest b)) (PutUint64 (Batch_Round b)) ::
    tx_puts (Batch_Digest b) 0 (Transactions b)).
Proof. rewrite elem_of_cons, elem_of_tx_puts. intros [|(i & tx & _ & [|])]; done. Qed.

Lemma slot_is_u32 b i t : indexable b → tx_hashes b !! i = Some t → is_u32 (Z.of_nat i).
Proof.
  intros (_ & _ & Hz) E%lookup_lt_Some. unfold tx_hashes in E. rewrite length_map in E. unfold fits in *. lia.
Qed.

(** The value that the write of a batch gives a key. *)
Lemma batch_puts_lookup b w k v :
  indexable b →
  apply_ops (Put (makeBatchRoundIdxKey (Batch_Digest b)) (PutUint64 (Batch_Round b)) ::
    tx_puts (Batch_Digest b) 0 (Transactions b)) w !! k = Some v ↔
  let new v := (k = makeBatchRoundIdxKey (Batch_Digest b) ∧ v = PutUint64 (Batch_Round b)) ∨
    (∃ t, t ∈ tx_hashes b ∧ k = makeTxKey t ∧ v = Batch_Digest b) ∨
    (∃ i, tx_hashes b !! i = Some v ∧ k = makeBatchTxKey (Batch_Digest b) (Z.of_nat i)) in
  new v ∨ ((∀ v', ¬ new v') ∧ w !! k = Some v).
Proof.
  intros Hb. cbn zeta. setoid_rewrite <-(elem_of_batch_puts b k _ Hb). apply apply_puts_lookup.
  - intros k'. apply batch_puts_no_delete.
  - intros v1 v2 H1%elem_of_batch_puts H2%elem_of_batch_puts; [|done..].
    destruct H1 as [[E1 ->]|[(t1 & _ & E1 & ->)|(i1 & L1 & E1)]], H2 as [[E2 ->]|[(t2 & _ & E2 & ->)|(i2 & L2 & E2)]];
      try done; rewrite E1 in E2; try discriminate.
    apply batch_tx_key_inj in E2 as [_ ->%Nat2Z.inj]; [congruence|done|by eapply slot_is_u32..].
Qed.

Lemma tx_content_add w m b :
  tx_content w m → indexable b → m !! Batch_Digest b = None → (∀ b', m !! Batch_Digest b' = Some b' → indexable b') →
  (∀ b' t, m !! Batch_Digest b' = Some b' → t ∈ tx_hashes b → t ∉ tx_hashes b') →
  tx_content (apply_ops (Put (makeBatchRoundIdxKey (Batch_Digest b)) (PutUint64 (Batch_Round b)) ::
    tx_puts (Batch_Digest b) 0 (Transactions b)) w) (<[Batch_Digest b := b]> m).
Proof.
  intros Hc Hb Hm Ht Hsep.
  assert (∀ b', <[Batch_Digest b := b]> m !! Batch_Digest b' = Some b' ↔ b' = b ∨ m !! Batch_Digest b' = Some b') as Hins.
  { intros b'. rewrite lookup_insert_Some. split; [naive_solver|]. intros [->|E]; [by left|right]. split; congruence. }
  split.
  - intros t v. rewrite batch_puts_lookup by done. cbn zeta. setoid_rewrite Hins. split.
    + intros [[[E _]|[(t' & Hin & ->%tx_key_inj & ->)|(i & _ & E)]]|[_ E]]; [done|by exists b; auto|done|].
      apply (tc_tx _ _ Hc) in E as (b' & ? & ? & ->). exists b'. auto.
    + intros (b' & [->|E] & Hin & ->); [by left; right; left; exists t|].
      right. split; [|apply (tc_tx _ _ Hc); eauto].
      intros v' [[? _]|[(t' & Hin' & <-%tx_key_inj & _)|(i & _ & ?)]]; [done| |done]. by apply (Hsep b' t).
  - intros k v Hk. rewrite batch_puts_lookup by done. cbn zeta. setoid_rewrite Hins. split.
    + intros [[[-> _]|[(t' & _ & -> & _)|(i & Hi & ->)]]|[_ E]];
        [by destruct Hk as [? [=]]..|by exists b, i; auto|].
      apply (tc_slot _ _ Hc) in E as (b' & i & ? & ? & ->); [|done]. exists b', i. auto.
    + intros (b' & i & [->|E] & Hi & ->); [by left; right; right; exists i|].
      right. split; [|apply (tc_slot _ _ Hc); eauto].
      intros v' [[? _]|[(t' & _ & ? & _)|(j & Hj & E')]]; [done..|].
      apply batch_tx_key_inj in E' as [E' _];
        [by rewrite <-E', E in Hm| |exact (slot_is_u32 _ _ _ (Ht b' E) Hi)|exact (slot_is_u32 _ _ _ Hb Hj)].
      by rewrite !is_hash_length by apply Ht, E || apply Hb.
  - intros k v Hk. rewrite batch_puts_lookup by done. cbn zeta. setoid_rewrite Hins. split.
    + intros [[[-> ->]|[(t' & _ & -> & _)|(i & Hi & ->)]]|[_ E]];
        [by exists b; auto|by destruct Hk as [? [=]]..|].
      apply (tc_round _ _ Hc) in E as (b' & ? & -> & ->); [|done]. exists b'. auto.
    + intros (b' & [->|E] & -> & ->); [by left; left|].
      right. split; [|apply (tc_round _ _ Hc); eauto].
      intros v' [[E' _]|[(t' & _ & ? & _)|(j & Hj & ?)]]; [|done..].
      apply round_idx_key_inj in E'. by rewrite <-E', E in Hm.
Qed.

(** The keys that removing a batch deletes. *)
Definition removed_key m (d : Hash) (k : bytes) : Prop :=
  k = makeBatchRoundIdxKey d ∨
  ∃ b i t, m !! d = Some b ∧ tx_hashes b !! i = Some t ∧ (k = makeTxKey t ∨ k = makeBatchTxKey d (Z.of_nat i)).

Lemma tx_content_remove w w' m d :
  tx_content w m → (∀ b b' t, m !! Batch_Digest b = Some b → m !! Batch_Digest b' = Some b' →
    t ∈ tx_hashes b → t ∈ tx_hashes b' → b = b') →
  (∀ d' b', m !! d' = Some b' → Batch_Digest b' = d' ∧ indexable b') → length d = 32%nat →
  (∀ k v, w' !! k = Some v ↔ w !! k = Some v ∧ ¬ removed_key m d k) →
  tx_content w' (delete d m).
Proof.
  intros Hc Hsep Ht Hd Hw. split.
  - intros t v. rewrite Hw, (tc_tx _ _ Hc). setoid_rewrite lookup_delete_Some. split.
    + intros [(b & E & Hin & ->) Hn]. exists b. split_and!; [|done..]. intros ->. apply Hn. right.
      apply list_elem_of_lookup_1 in Hin as [i ?]. exists b, i, t. auto.
    + intros (b & [Hne E] & Hin & ->). split; [by exists b|]. intros [?|(b' & i & t' & E' & Hi & [->%tx_key_inj|?])]; [done| |done].
      destruct (Ht d b' E') as [<- _]. apply Hne. f_equal.
      apply (Hsep b' b t'); [done..|by apply (list_elem_of_lookup_2 _ i)|done].
  - intros k v Hk. rewrite Hw, (tc_slot _ _ Hc) by done. setoid_rewrite lookup_delete_Some. split.
    + intros [(b & i & E & Hi & ->) Hn]. exists b, i. split_and!; [|done..]. intros ->. apply Hn. right.
      exists b, i, v. auto.
    + intros (b & i & [Hne E] & Hi & ->). split; [by exists b, i|].
      intros [?|(b' & i' & t' & E' & Hi' & [?|Ek])]; [done..|]. destruct (Ht _ _ E) as [_ Hb], (Ht _ _ E') as [_ Hb'].
      apply batch_tx_key_inj in Ek as [Ek _]; 
        [done| |exact (slot_is_u32 _ _ _ Hb Hi)|exact (slot_is_u32 _ _ _ Hb' Hi')].
      rewrite Hd. apply is_hash_length, Hb.
  - intros k v Hk. rewrite Hw, (tc_round _ _ Hc) by done. setoid_rewrite lookup_delete_Some. split.
    + intros [(b & E & -> & ->) Hn]. exists b. split_and!; [|done..]. intros ->. apply Hn. by left.
    + intros (b & [Hne E] & -> & ->). split; [by exists b|].
      intros [Ek%round_idx_key_inj|(b' & i' & t' & E' & Hi' & [?|?])]; done.
Qed.

Section universe.
Context (U : Batch → Prop) (Hsep : separate U).

Lemma repr_separate db m b b' t :
  lt_repr U db m → m !! Batch_Digest b = Some b → m !! Batch_Digest b' = Some b' →
  t ∈ tx_hashes b → t ∈ tx_hashes b' → b = b'.
Proof. intros Hr E E' Hin Hin'. apply (sep_txs _ Hsep b b' t); try done; by eapply (tr_typed _ _ _ Hr). Qed.

(** [removeBatchLocked] takes a batch out. *)
Lemma removeBatchLocked_spec db m d :
  lt_repr U db m → length d = 32%nat →
  let r := removeBatchLocked d db in r.2 = None ∧ lt_repr U r.1 (delete d m).
Proof.
  intros Hr Hd. pose proof (tr_content _ _ _ Hr) as Hc. unfold removeBatchLocked.
  destruct (iterate_spec db (makeBatchTxPrefix d) (tr_db _ _ _ Hr)) as (l & -> & _ & Hl).
  set (keys := concat (map tx_entry_keys l) ++ _).
  assert (∀ k, k ∈ keys ↔ removed_key m d k) as Hk.
  { assert (∀ k v, (k, v) ∈ l ↔ ∃ b i, m !! d = Some b ∧ tx_hashes b !! i = Some v ∧ k = makeBatchTxKey d (Z.of_nat i)) as Hl'.
    { intros k v. rewrite Hl. split.
      - intros [Hp E]. assert (batchToTxsPrefix `prefix_of` k) as Hp'.
        { etrans; [|exact Hp]. by apply prefix_app_r. }
        apply (tc_slot _ _ Hc) in E as (b & i & E & Hi & ->); [|done].
        apply batch_tx_prefix_key in Hp as ->; [by exists b, i|].
        rewrite Hd. symmetry. apply is_hash_length. by destruct (tr_typed _ _ _ Hr _ _ E) as (_ & [? _] & _).
      - intros (b & i & E & Hi & ->). split; [by apply batch_tx_prefix_key|].
        apply (tc_slot _ _ Hc); [by apply prefix_app_r|]. destruct (tr_typed _ _ _ Hr _ _ E) as [<- _]. by exists b, i. }
    assert (∀ k v, (k, v) ∈ l → tx_entry_keys (k, v) = [makeTxKey v; k]) as Hent.
    { intros k v (b & i & E & Hi & ->)%Hl'. unfold tx_hashes in Hi.
      apply list_lookup_fmap_Some in Hi as (tx & -> & _). unfold tx_entry_keys. cbn [fst snd].
      pose proof (tx_hash_length tx) as Hx.
      rewrite bool_decide_eq_true_2 by (unfold HashSize; lia). by rewrite copy_hash_id. }
    intros k. unfold keys. rewrite elem_of_app, list_elem_of_singleton. unfold removed_key.
    rewrite (or_comm (k ∈ _)). apply or_iff_compat_l. rewrite elem_of_concat. split.
    - intros (ks & Hin & ([k' v] & -> & Hkv)%list_elem_of_fmap).
      rewrite (Hent k' v Hkv) in Hin. apply Hl' in Hkv as (b & i & E & Hi & ->). exists b, i, v. set_solver.
    - intros (b & i & t & E & Hi & Hkk). assert ((makeBatchTxKey d (Z.of_nat i), t) ∈ l) as Hin by (apply Hl'; eauto).
      eexists. split; [|apply list_elem_of_fmap; eexists; split; [done|exact Hin]]. rewrite (Hent _ _ Hin). set_solver. }
  destruct (db_write_spec db (Delete <$> keys) (tr_db _ _ _ Hr)) as (E2 & Hok & Ev).
  destruct (db_Write _ _) as [db' err] eqn:E. cbn in *. subst err. cbn. split; [done|]. split; [done| |].
  - intros d' b (_ & Hb)%lookup_delete_Some. by apply (tr_typed _ _ _ Hr).
  - apply (tx_content_remove (db_view db) _ m d); [done|by intros ???; apply (repr_separate db m)| |done|].
    + intros d' b' E'. by destruct (tr_typed _ _ _ Hr _ _ E') as (? & ? & _).
    + intros k v. rewrite Ev, apply_deletes, <-Hk. case_decide; naive_solver.
Qed.
(** ** The operations on represented states *)
Lemma remove_batches_spec ds db m :
  lt_repr U db m → Forall (λ d : Hash, length d = 32%nat) ds →
  let r := remove_batches ds db in
  r.2 = None ∧ ∃ m', lt_repr U r.1 m' ∧ ∀ d, m' !! d = if decide (d ∈ ds) then None else m !! d.
Proof using Hsep.
  intros Hr Hds. revert db m Hr. induction Hds as [|d ds Hd Hds IH]; intros db m Hr; cbn [remove_batches].
  { split; [done|]. exists m. split; [done|]. intros d. rewrite decide_False; [done|apply not_elem_of_nil]. }
  destruct (removeBatchLocked_spec db m d Hr Hd) as [E Hr']. destruct (removeBatchLocked d db) as [db' err].
  cbn in *. subst err. destruct (IH db' _ Hr') as (E & m' & Hm' & Hl). split; [done|]. exists m'. split; [done|].
  intros d'. rewrite Hl. destruct (decide (d' ∈ ds)); [by rewrite decide_True by by right|].
  destruct (decide (d' = d)) as [->|Hne]; [by rewrite lookup_delete_eq, decide_True by left|].
  rewrite lookup_delete_ne by done. rewrite decide_False; [done|]. by intros [?|?]%elem_of_cons.
Qed.

Lemma elem_of_prunable db m (l : list (bytes * bytes)) round d :
  lt_repr U db m → (∀ k v, (k, v) ∈ l ↔ batchRoundIdxPrefix `prefix_of` k ∧ db_view db !! k = Some v) →
  d ∈ omap (prunable round) l ↔ ∃ b, m !! d = Some b ∧ Batch_Round b < round.
Proof.
  intros Hr Hl. rewrite list_elem_of_omap.
  assert (∀ b, m !! Batch_Digest b = Some b →
    prunable round (makeBatchRoundIdxKey (Batch_Digest b), PutUint64 (Batch_Round b)) =
      if decide (Batch_Round b < round) then Some (Batch_Digest b) else None) as Hp.
  { intros b Hb. destruct (tr_typed _ _ _ Hr _ _ Hb) as (_ & (Hh & Hu & _) & _). apply is_hash_length in Hh.
    pose proof (PutUint64_length (Batch_Round b)) as H8. unfold prunable, makeBatchRoundIdxKey, HashSize. cbn [fst snd].
    rewrite bool_decide_eq_false_2 by (rewrite length_app; lia). rewrite bool_decide_eq_false_2 by lia. cbn [orb].
    rewrite Uint64_Put_nil by done. rewrite drop_app_length, copy_hash_id by done.
    case_decide; [rewrite bool_decide_eq_false_2 by lia|rewrite bool_decide_eq_true_2 by lia]; done. }
  split.
  - intros ([k v] & [Hk E]%Hl & Hd). apply (tc_round _ _ (tr_content _ _ _ Hr)) in E as (b & E & -> & ->); [|done].
    rewrite (Hp b E) in Hd. case_decide; [|done]. injection Hd as <-. eauto.
  - intros (b & E & Hlt). destruct (tr_typed _ _ _ Hr _ _ E) as [<- _].
    exists (makeBatchRoundIdxKey (Batch_Digest b), PutUint64 (Batch_Round b)). split.
    + apply Hl. split; [by apply prefix_app_r|]. apply (tc_round _ _ (tr_content _ _ _ Hr)); [by apply prefix_app_r|eauto].
    + rewrite (Hp b E). by rewrite decide_True.
Qed.

Lemma NoDup_prunable db m (l : list (bytes * bytes)) round :
  lt_repr U db m → (∀ k v, (k, v) ∈ l → batchRoundIdxPrefix `prefix_of` k ∧ db_view db !! k = Some v) →
  NoDup l.*1 → NoDup (omap (prunable round) l).
Proof.
  intros Hr Hl. apply NoDup_omap_key with makeBatchRoundIdxKey. intros [k v] d Hin Hd.
  destruct (Hl _ _ Hin) as [Hk E]. apply (tc_round _ _ (tr_content _ _ _ Hr)) in E as (b & E & -> & ->); [|done].
  destruct (tr_typed _ _ _ Hr _ _ E) as (_ & (Hh & _) & _). apply is_hash_length in Hh.
  unfold prunable, makeBatchRoundIdxKey in Hd |- *. cbn [fst snd] in *. destruct (_ || _); [done|]. case_bool_decide; [done|].
  apply (inj Some) in Hd as <-. by rewrite drop_app_length, copy_hash_id.
Qed.

(** Pruning counts the indexed batches of smaller rounds. *)
Lemma prune_spec db m round :
  lt_repr U db m →
  let r := LevelDB_PruneOlderThan round (mk_LevelDBTxIndex db false) in
  (∃ ds, NoDup ds ∧ (∀ d, d ∈ ds ↔ ∃ b, m !! d = Some b ∧ Batch_Round b < round) ∧ r.2 = Ok (zlen ds)) ∧ ∃ db' m', r.1 = mk_LevelDBTxIndex db' false ∧ lt_repr U db' m' ∧
    ∀ d b, m' !! d = Some b ↔ m !! d = Some b ∧ round ≤ Batch_Round b.
Proof using Hsep.
  intros Hr. unfold LevelDB_PruneOlderThan. cbn [lt_closed lt_db].
  destruct (iterate_spec db batchRoundIdxPrefix (tr_db _ _ _ Hr)) as (l & -> & Hnd & Hl).
  pose proof (λ d, elem_of_prunable db m l round d Hr Hl) as Hin.
  apply (NoDup_prunable db m l round Hr (λ k v, proj1 (Hl k v))) in Hnd. set (ds := omap _ l) in *.
  assert (Forall (λ d : Hash, length d = 32%nat) ds) as Hds.
  { apply Forall_forall. intros d (b & E & _)%Hin. destruct (tr_typed _ _ _ Hr _ _ E) as (<- & [? _] & _).
    by apply is_hash_length. }
  destruct (remove_batches_spec ds db m Hr Hds) as (E & m' & Hr' & Hm'). destruct (remove_batches ds db) as [db' err].
  cbn in *. subst err. cbn. split; [by exists ds|]. exists db', m'. split_and!; [done..|].
  intros d b. rewrite Hm'. case_decide as Hd; rewrite Hin in Hd.
  - destruct Hd as (b' & E & Hlt). split; [done|]. intros [E' ?]. assert (b' = b) as -> by congruence. lia.
  - split; [|by intros [? _]]. intros E. split; [done|]. destruct (decide (round ≤ Batch_Round b)); [done|].
    destruct Hd. exists b. split; [done|lia].
Qed.

Lemma add_spec db m b :
  lt_repr U db m → indexable b → U b →
  let r := LevelDB_AddBatch b (mk_LevelDBTxIndex db false) in
  r.2 = None ∧ ∃ db', r.1 = mk_LevelDBTxIndex db' false ∧ lt_repr U db' (<[Batch_Digest b := b]> m).
Proof using Hsep.
  intros Hr Hb HU. pose proof (tr_content _ _ _ Hr) as Hc. unfold LevelDB_AddBatch. cbn [lt_closed lt_db].
  assert (∀ d b', m !! d = Some b' → Batch_Digest b' = d ∧ indexable b' ∧ U b') as Ht by apply Hr.
  rewrite (db_get_spec db _ (tr_db _ _ _ Hr)). destruct (db_view db !! _) as [v|] eqn:Ev.
  - apply (tc_round _ _ Hc) in Ev as (b' & E & Ek & _); [|by apply prefix_app_r]. apply round_idx_key_inj in Ek.
    assert (b' = b) as -> by (apply (sep_digest _ Hsep); [by apply (Ht _ _ E)|done|done]).
    split; [done|]. exists db. split; [done|]. by rewrite insert_id.
  - assert (m !! Batch_Digest b = None) as Hn.
    { destruct (m !! _) as [b'|] eqn:E; [|done]. destruct (Ht _ _ E) as [Ed _]. rewrite <-Ed in E.
      assert (db_view db !! makeBatchRoundIdxKey (Batch_Digest b) = Some (PutUint64 (Batch_Round b'))) as E'; [|congruence].
      apply (tc_round _ _ Hc); [by apply prefix_app_r|]. exists b'. split_and!; [done|by rewrite Ed|done]. }
    set (ops := Put _ _ :: _). destruct (db_write_spec db ops (tr_db _ _ _ Hr)) as (E2 & Hok & Ew).
    destruct (db_Write ops db) as [db' err] eqn:E.
    cbn in E2, Hok, Ew. subst err. split; [done|]. exists db'. split; [done|]. split; [done| |].
    + intros d b' [[<- <-]|[_ ?]]%lookup_insert_Some; auto.
    + rewrite Ew. apply tx_content_add; [done..|by intros b' Hb'; apply (Ht _ _ Hb')|].
      intros b' t Hb' Hin Hin'. assert (b' = b) as -> by (eapply (sep_txs _ Hsep); [by apply (Ht _ _ Hb')|done..]).
      congruence.
Qed.

Lemma get_spec db m t :
  lt_repr U db m → ∀ r, LevelDB_GetBatchForTx t (mk_LevelDBTxIndex db false) = r ↔
    (∃ b, m !! Batch_Digest b = Some b ∧ t ∈ tx_hashes b ∧ r = Ok (Batch_Digest b)) ∨
    ((∀ b, m !! Batch_Digest b = Some b → t ∉ tx_hashes b) ∧ r = Err ErrBatchNotFound).
Proof using Hsep.
  intros Hr r. unfold LevelDB_GetBatchForTx. cbn [lt_closed lt_db]. rewrite (db_get_spec db _ (tr_db _ _ _ Hr)).
  pose proof (tc_tx _ _ (tr_content _ _ _ Hr) t) as Hl. destruct (db_view db !! _) as [v|] eqn:E.
  - destruct (proj1 (Hl v) eq_refl) as (b & Hb & Hin & ->).
    destruct (tr_typed _ _ _ Hr _ _ Hb) as (_ & [Hh _] & _). apply is_hash_length in Hh.
    rewrite bool_decide_eq_false_2 by (unfold HashSize; lia). rewrite copy_hash_id by done. split.
    + intros <-. left. eauto.
    + intros [(b' & Hb' & Hin' & ->)|[Hn _]]; [|by destruct (Hn b)].
      by rewrite (repr_separate db m b b' t Hr).
  - assert (∀ b, m !! Batch_Digest b = Some b → t ∉ tx_hashes b) as Hn.
    { intros b Hb Hin. assert (None = Some (Batch_Digest b)); [|done]. apply Hl. eauto. }
    split; [intros <-; by right|]. intros [(b & Hb & Hin & _)|[_ ->]]; [by destruct (Hn b)|done].
Qed.

Lemma has_spec db m t :
  lt_repr U db m → LevelDB_HasTx t (mk_LevelDBTxIndex db false) = true ↔
    ∃ b, m !! Batch_Digest b = Some b ∧ t ∈ tx_hashes b.
Proof.
  intros Hr. unfold LevelDB_HasTx. cbn [lt_closed lt_db]. rewrite (db_has_spec db _ (tr_db _ _ _ Hr)).
  rewrite bool_decide_eq_true. unfold is_Some. setoid_rewrite (tc_tx _ _ (tr_content _ _ _ Hr) t). naive_solver.
Qed.
End universe.
End refinement.

(** ** The in-memory index on the same batches *)
Record mt_repr (idx : MemoryTxIndex) (m : gmap Hash Batch) : Prop := {
  mt_ok : ti_ok idx;
  mt_tx t d : txToBatch idx !! t = Some d ↔ ∃ b, m !! d = Some b ∧ t ∈ tx_hashes b;
  mt_round d b : m !! d = Some b → batchRounds idx !! d = Some (Batch_Round b)
}.

(** Only indexed batches have a round: this fails once [RemoveTxsForBatch], which
    keeps the round, has removed one. *)
Definition exact_rounds (idx : MemoryTxIndex) (m : gmap Hash Batch) : Prop :=
  ∀ d, is_Some (batchRounds idx !! d) → is_Some (m !! d).

Lemma mt_repr_new : mt_repr NewMemoryTxIndex ∅.
Proof.
  split; [exact ti_ok_new|intros t d|intros d b]; cbn; rewrite ?lookup_empty; [|done].
  split; [done|]. by intros (b & E & _).
Qed.

Lemma mt_repr_add idx m b :
  mt_repr idx m → (∀ d b', m !! d = Some b' → Batch_Digest b' = d) →
  (∀ b' t, m !! Batch_Digest b' = Some b' → t ∈ tx_hashes b → t ∈ tx_hashes b' → b' = b) →
  (∀ b', m !! Batch_Digest b = Some b' → b' = b) →
  let r := TxIndex_AddBatch b idx in
  r.2 = None ∧ mt_repr r.1 (<[Batch_Digest b := b]> m) ∧
  (exact_rounds idx m → exact_rounds r.1 (<[Batch_Digest b := b]> m)).
Proof.
  intros [Hok Htx Hro] Hd Hsep Hdig. unfold TxIndex_AddBatch. pose proof Hok as [Hc _]. rewrite Hc. split; [done|].
  cbn [fst]. edestruct (index_txs_spec (Batch_Digest b) (Transactions b)) as (E1 & _ & E3). split; [|].
  2: { intros He d. rewrite E1. cbn. rewrite !lookup_insert_is_Some. intros [?|[Hne Hs]]; [by left|right]. split; [done|]. by apply He. }
  split.
  - pose proof (index_step_ok idx (OpAddBatch b) Hok) as H. unfold index_step, TxIndex_AddBatch in H. by rewrite Hc in H.
  - intros t d. rewrite E3. cbn. fold (tx_hashes b). setoid_rewrite lookup_insert_Some.
    destruct (txToBatch idx !! t) as [d'|] eqn:Et.
    + apply Htx in Et as (b' & Hb' & Hin). pose proof (Hd _ _ Hb') as <-. split.
      * intros [= <-]. exists b'. split; [|done]. destruct (decide (Batch_Digest b = Batch_Digest b')) as [E|]; [|by right].
        left. split; [done|]. symmetry. apply Hdig. by rewrite E.
      * intros (b'' & [[<- <-]|[Hne Hb'']] & Hin'); [by rewrite (Hsep b' t)|].
        assert (txToBatch idx !! t = Some d) as E by (apply Htx; eauto).
        assert (txToBatch idx !! t = Some (Batch_Digest b')) as E' by (apply Htx; eauto). congruence.
    + case_decide as Hin.
      * split; [intros [= <-]; eauto|]. intros (b'' & [[<- <-]|[Hne Hb'']] & Hin'); [done|].
        assert (txToBatch idx !! t = Some d) by (apply Htx; eauto). congruence.
      * split; [done|]. intros (b'' & [[<- <-]|[Hne Hb'']] & Hin'); [done|].
        assert (txToBatch idx !! t = Some d) by (apply Htx; eauto). congruence.
  - intros d b' Hb'. rewrite E1. cbn. apply lookup_insert_Some in Hb' as [[<- <-]|[Hne Hb']];
      [by rewrite lookup_insert_eq|by rewrite lookup_insert_ne by done; apply Hro].
Qed.

Lemma mt_repr_remove idx m d :
  mt_repr idx m → let r := RemoveTxsForBatch d idx in r.2 = None ∧ mt_repr r.1 (delete d m).
Proof.
  intros [Hok Htx Hro]. destruct (RemoveTxsForBatch d idx) as [idx' err] eqn:E. cbn.
  assert (err = None ∧ batchRounds idx' = batchRounds idx) as [-> Eb].
  { revert E. unfold RemoveTxsForBatch. destruct Hok as [-> _]. by destruct (_ !! _); intros [= <- <-]. }
  split; [done|]. split.
  - pose proof (index_step_ok idx (OpRemove d) Hok) as H. cbn in H. by rewrite E in H.
  - intros t d'. pose proof (RemoveTxsForBatch_spec idx d t Hok) as Es. rewrite E in Es. cbn in Es. rewrite Es.
    rewrite bind_Some. setoid_rewrite Htx. setoid_rewrite lookup_delete_Some. split.
    + intros (d'' & (b & Hb & Hin) & E'). case_decide; [done|]. injection E' as ->. exists b. split; [|done]. split; [by apply not_eq_sym|done].
    + intros (b & [Hne Hb] & Hin). exists d'. split; [eauto|]. by rewrite decide_False by by apply not_eq_sym.
  - intros d' b [_ Hb]%lookup_delete_Some. rewrite Eb. by apply Hro.
Qed.

Lemma prune_batches_rounds bs idx d :
  batchRounds (fold_left prune_batch bs idx) !! d = if decide (d ∈ bs) then None else batchRounds idx !! d.
Proof.
  revert idx. induction bs as [|b bs IH]; intros idx; cbn [fold_left]; [done|]. rewrite IH.
  assert (batchRounds (prune_batch idx b) = delete b (batchRounds idx)) as ->
    by (unfold prune_batch; by destruct (batchToTxs idx !! b)).
  destruct (decide (d ∈ bs)); [by rewrite decide_True by by right|]. destruct (decide (d = b)) as [->|Hne].
  - by rewrite lookup_delete_eq, decide_True by left.
  - rewrite lookup_delete_ne by by apply not_eq_sym. rewrite decide_False; [done|]. by intros [?|?]%elem_of_cons.
Qed.

Lemma elem_of_batches_older round idx d :
  d ∈ batches_older round idx ↔ ∃ r, batchRounds idx !! d = Some r ∧ r < round.
Proof.
  unfold batches_older. rewrite list_elem_of_fmap. split.
  - intros ([d' r] & -> & [Hr Hin%elem_of_map_to_list]%list_elem_of_filter). cbn in *. eauto.
  - intros (r & E & Hlt). exists (d, r). split; [done|]. apply list_elem_of_filter. split; [done|]. by apply elem_of_map_to_list.
Qed.

Lemma NoDup_batches_older round idx : NoDup (batches_older round idx).
Proof.
  unfold batches_older. pose proof (NoDup_fst_map_to_list (batchRounds idx)) as H. revert H.
  generalize (map_to_list (batchRounds idx)). intros l. induction l as [|[d r] l IH]; intros H; [constructor|].
  cbn [fmap list_fmap fst] in H. apply NoDup_cons in H as [Hn H]. rewrite filter_cons. case_decide; [|by apply IH].
  constructor; [|by apply IH]. intros (p & E & [_ Hin]%list_elem_of_filter)%list_elem_of_fmap. apply Hn. cbn in E. rewrite E.
  by apply list_elem_of_fmap_2.
Qed.

Lemma mt_repr_prune idx m m' round :
  mt_repr idx m → (∀ d b, m' !! d = Some b ↔ m !! d = Some b ∧ round ≤ Batch_Round b) →
  let r := PruneOlderThan round idx in
  (∃ ds, NoDup ds ∧ (∀ d b, m !! d = Some b → Batch_Round b < round → d ∈ ds) ∧
     (exact_rounds idx m → ∀ d, d ∈ ds → ∃ b, m !! d = Some b ∧ Batch_Round b < round) ∧ r.2 = Ok (zlen ds)) ∧
  mt_repr r.1 m' ∧ (exact_rounds idx m → exact_rounds r.1 m').
Proof.
  intros [Hok Htx Hro] Hm. unfold PruneOlderThan. pose proof Hok as [-> _]. cbn [fst snd].
  destruct (prune_batches_spec (batches_older round idx) idx Hok) as [Hok' Hs].
  assert (∀ d b, m !! d = Some b → d ∈ batches_older round idx ↔ Batch_Round b < round) as Hold.
  { intros d b Hb%Hro. rewrite elem_of_batches_older, Hb. naive_solver. }
  split_and!.
  { exists (batches_older round idx). split_and!; [apply NoDup_batches_older|by intros d b Hb ?; apply (Hold d b Hb)| |done].
    intros He d Hin. pose proof Hin as (r & E & _)%elem_of_batches_older. destruct (He d) as [b Hb]; [by eexists|].
    exists b. split; [done|]. by apply (Hold d b Hb). }
  2: { intros He d. rewrite prune_batches_rounds. case_decide as Hd; [by intros [? ?]|]. intros Hr.
    destruct (He d Hr) as [b Hb]. exists b. apply Hm. split; [done|]. rewrite (Hold d b Hb) in Hd. lia. }
  split; [done| |].
  - intros t d. rewrite Hs. setoid_rewrite Hm. destruct (txToBatch idx !! t) as [d'|] eqn:Et.
    + apply Htx in Et as (b & Hb & Hin). case_decide as Hd; rewrite (Hold d' b Hb) in Hd.
      * split; [done|]. intros (b' & [Hb' Hr] & Hin').
        assert (txToBatch idx !! t = Some d) as E by (apply Htx; eauto).
        assert (txToBatch idx !! t = Some d') as E' by (apply Htx; eauto). assert (b = b') by congruence. subst. lia.
      * split; [intros [= <-]; exists b; split_and!; [done|lia|done]|]. intros (b' & [Hb' Hr] & Hin').
        assert (txToBatch idx !! t = Some d) as E by (apply Htx; eauto).
        assert (txToBatch idx !! t = Some d') as E' by (apply Htx; eauto). congruence.
    + split; [done|]. intros (b' & [Hb' Hr] & Hin'). assert (txToBatch idx !! t = Some d) by (apply Htx; eauto). congruence.
  - intros d b [Hb Hr]%Hm. rewrite prune_batches_rounds, decide_False; [by apply Hro|]. rewrite (Hold d b Hb). lia.
Qed.

Lemma mt_repr_get idx m t r :
  mt_repr idx m → (∀ d b', m !! d = Some b' → Batch_Digest b' = d) →
  (∃ b, m !! Batch_Digest b = Some b ∧ t ∈ tx_hashes b ∧ r = Ok (Batch_Digest b)) ∨
    ((∀ b, m !! Batch_Digest b = Some b → t ∉ tx_hashes b) ∧ r = Err ErrBatchNotFound) →
  GetBatchForTx t idx = r.
Proof.
  intros [[Hc _] Htx _] Hd H. unfold GetBatchForTx. rewrite Hc. destruct H as [(b & Hb & Hin & ->)|[Hn ->]].
  - assert (txToBatch idx !! t = Some (Batch_Digest b)) as -> by (apply Htx; eauto). done.
  - destruct (txToBatch idx !! t) as [d|] eqn:E; [|done]. apply Htx in E as (b & Hb & Hin).
    destruct (Hn b); [by rewrite (Hd _ _ Hb)|done].
Qed.

Lemma mt_repr_has idx m t :
  mt_repr idx m → (∀ d b', m !! d = Some b' → Batch_Digest b' = d) →
  HasTx t idx = true ↔ ∃ b, m !! Batch_Digest b = Some b ∧ t ∈ tx_hashes b.
Proof.
  intros [[Hc _] Htx _] Hd. unfold HasTx. rewrite Hc. split.
  - destruct (txToBatch idx !! t) as [d|] eqn:E; [|done]. intros _. apply Htx in E as (b & Hb & Hin). exists b.
    by rewrite (Hd _ _ Hb).
  - intros (b & Hb & Hin). assert (txToBatch idx !! t = Some (Batch_Digest b)) as -> by (apply Htx; eauto). done.
Qed.

(** ** Runs *)
Inductive index_cmd :=
  | CAddBatch (b : Batch) | CRemove (d : Hash) | CPrune (round : Z) | CHasTx (t : Hash) | CGetBatch (t : Hash).

(** What a command answers; [ACount] is the number of batches pruned. *)
Inductive index_out :=
  | AErr (err : option error) | ACount (r : result Z) | AHas (b : bool) | ABatch (r : result Hash).

Definition index_exec {I} `{TxIndex I} (c : index_cmd) (i : I) : I * index_out :=
  match c with
  | CAddBatch b => let r := TI_AddBatch b i in (r.1, AErr r.2)
  | CRemove d => let r := TI_RemoveTxsForBatch d i in (r.1, AErr r.2)
  | CPrune round => let r := TI_PruneOlderThan round i in (r.1, ACount r.2)
  | CHasTx t => (i, AHas (TI_HasTx t i))
  | CGetBatch t => (i, ABatch (TI_GetBatchForTx t i))
  end.

Fixpoint index_run {I} `{TxIndex I} (cs : list index_cmd) (i : I) : list index_out :=
  match cs with
  | [] => []
  | c :: cs' => let r := index_exec c i in r.2 :: index_run cs' r.1
  end.

(** The answers of two indexes agree, except that the second may count more
    batches when it prunes. *)
Definition agrees (a a' : index_out) : Prop :=
  match a, a' with
  | ACount (Ok n), ACount (Ok n') => n ≤ n'
  | _, _ => a = a'
  end.

Definition is_remove (c : index_cmd) : bool := match c with CRemove _ => true | _ => false end.

Definition typed_cmd (c : index_cmd) : Prop :=
  match c with CAddBatch b => indexable b | CRemove d => is_hash d | _ => True end.
#[export] Instance typed_cmd_dec c : Decision (typed_cmd c).
Proof. destruct c; apply _. Defined.

Section equivalence.
Context {D : Type} `{LL : LevelDBLaws D} (U : Batch → Prop) (Hsep : separate U).

Lemma index_exec_equiv c db idx m :
  typed_cmd c → (∀ b, c = CAddBatch b → U b) → lt_repr U db m → mt_repr idx m →
  let r := index_exec c (mk_LevelDBTxIndex db false) in let r' := index_exec c idx in
  agrees r.2 r'.2 ∧ (exact_rounds idx m → r.2 = r'.2) ∧
  ∃ db' m', r.1 = mk_LevelDBTxIndex db' false ∧ lt_repr U db' m' ∧ mt_repr r'.1 m' ∧
    (is_remove c = false → exact_rounds idx m → exact_rounds r'.1 m').
Proof using Hsep.
  intros Ht HU Hr Hm. pose proof (tr_typed _ _ _ Hr) as Hty.
  assert (∀ d b', m !! d = Some b' → Batch_Digest b' = d) as Hd by (intros d b' E; by apply (Hty _ _ E)).
  destruct c as [b|d|round|t|t]; cbn [typed_cmd] in Ht;
    cbn [index_exec fst snd TI_AddBatch TI_RemoveTxsForBatch TI_PruneOlderThan TI_HasTx TI_GetBatchForTx
         leveldb_tx_index memory_tx_index].
  - specialize (HU b eq_refl). destruct (add_spec U Hsep db m b Hr Ht HU) as (-> & db' & -> & Hr').
    destruct (mt_repr_add idx m b Hm Hd) as (-> & Hm' & He).
    + intros b' t Hb' Hin Hin'. apply (sep_txs _ Hsep b' b t); [by apply (Hty _ _ Hb')|done..].
    + intros b' Hb'. apply (sep_digest _ Hsep); [by apply (Hty _ _ Hb')|done|by apply Hd].
    + split_and!; [done..|]. eauto 10.
  - destruct (removeBatchLocked_spec U Hsep db m d Hr (is_hash_length _ Ht)) as [E Hr'].
    destruct (mt_repr_remove idx m d Hm) as [-> Hm']. unfold LevelDB_RemoveTxsForBatch. cbn [lt_closed lt_db].
    destruct (removeBatchLocked d db). cbn in *. subst. split_and!; [done..|]. eexists _, _. by split_and!.
  - destruct (prune_spec U Hsep db m round Hr) as ((ds & Hnd & Hds & ->) & db' & m' & -> & Hr' & Hm').
    destruct (mt_repr_prune idx m m' round Hm Hm') as ((ds' & Hnd' & Hin & He & ->) & Hmt & Hem). split_and!; [| |eauto 10].
    + assert (ds ⊆+ ds') as Hsub by (apply NoDup_submseteq; [done|]; intros d (b & ? & ?)%Hds; eauto).
      apply submseteq_length in Hsub. cbn. lia.
    + intros Hx. assert (ds ≡ₚ ds') as E; [|by apply Permutation_length in E; rewrite E].
      apply NoDup_Permutation; [done..|]. intros d. rewrite Hds. split; [intros (b & ? & ?); eauto|by apply He].
  - split_and!; [| |eauto 10]; [|intros _]; cbn; f_equal; apply Bool.eq_iff_eq_true; rewrite (has_spec U db m t Hr);
      by rewrite (mt_repr_has idx m t).
  - split_and!; [| |eauto 10]; [|intros _]; cbn; f_equal; symmetry; apply (mt_repr_get idx m t _ Hm Hd);
      by apply (get_spec U Hsep db m t Hr).
Qed.
End equivalence.

(** C39. The persistent transaction index is equivalent to the in-memory one:
    started empty, and as long as the database works, both give the same answer
    to each command of any sequence that adds batches, prunes them and asks for
    transactions, the number of batches pruned included, when equal digests mean
    equal batches and no two of the batches added share a transaction.  If the
    sequence also removes single batches, all answers are still the same except
    that the in-memory index may report a larger number when it prunes. *)
Theorem leveldb_tx_index_equivalent {D} `{LevelDBLaws D} cs db :
  Forall typed_cmd cs → separate (λ b, CAddBatch b ∈ cs) → db_ok db → db_view db = ∅ →
  let persistent := index_run cs (mk_LevelDBTxIndex db false) in
  let memory := index_run cs NewMemoryTxIndex in
  Forall2 agrees persistent memory ∧ (Forall (λ c, is_remove c = false) cs → persistent = memory).
Proof.
  intros Ht Hsep Hd E. cbv zeta. set (U := λ b, CAddBatch b ∈ cs) in *.
  assert (∀ b, CAddBatch b ∈ cs → U b) as HU by done. clearbody U.
  pose proof (lt_repr_fresh U db Hd E) as Hr. pose proof mt_repr_new as Hm.
  assert (exact_rounds NewMemoryTxIndex ∅) as He by (intros d [? [=]]). clear Hd E.
  revert Hr Hm He. generalize NewMemoryTxIndex (∅ : gmap Hash Batch). revert db.
  enough (∀ db idx m, lt_repr U db m → mt_repr idx m →
    Forall2 agrees (index_run cs (mk_LevelDBTxIndex db false)) (index_run cs idx) ∧
    (exact_rounds idx m → Forall (λ c, is_remove c = false) cs →
      index_run cs (mk_LevelDBTxIndex db false) = index_run cs idx)) as Hg.
  { intros db idx m Hr Hm He. destruct (Hg db idx m Hr Hm) as [H1 H2]. split; [done|by apply H2]. }
  induction Ht as [|c cs Hc Ht IH]; intros db idx m Hr Hm; cbn [index_run]; [by split; [constructor|]|].
  destruct (index_exec_equiv U Hsep c db idx m Hc) as (Ha & Hx & db' & m' & -> & Hr' & Hm' & He'); [|done..|].
  { intros b ->. apply HU. left. }
  destruct (IH (λ b H, HU b (list_elem_of_further _ _ _ H)) db' _ m' Hr' Hm') as [I1 I2]. split; [by constructor|].
  intros He (Hn & Hns)%Forall_cons. f_equal; [by apply Hx|]. apply I2; [by apply He'|done].
Qed.

(** ** Closed examples *)
Module LevelDBTxExample.
Definition b0 : Batch := NewBatch 1 2 3 [[7; 8]; [9]; [7; 8]] 9.
Definition b1 : Batch := NewBatch 1 2 4 [[7]; [8]] 9.
(** A second batch with a transaction of the first. *)
Definition b2 : Batch := NewBatch 1 3 4 [[9]; [1]] 9.
Definition cs : list index_cmd :=
  [CAddBatch b0; CAddBatch b1; CAddBatch b0; CHasTx (Tx_Hash [9]); CPrune 4; CHasTx (Tx_Hash [9]);
   CGetBatch (Tx_Hash [8]); CPrune 9; CGetBatch (Tx_Hash [8])].
Definition removing : list index_cmd :=
  [CAddBatch b0; CRemove (Batch_Digest b0); CHasTx (Tx_Hash [9]); CPrune 4; CPrune 4].
Definition shared : list index_cmd :=
  [CAddBatch b2; CAddBatch b0; CGetBatch (Tx_Hash [9]); CPrune 4; CHasTx (Tx_Hash [9]); CHasTx (Tx_Hash [1])].
End LevelDBTxExample.
Import LevelDBTxExample.

Lemma leveldb_tx_index_equivalent_witness :
  index_run cs (mk_LevelDBTxIndex (∅ : MemDB) false) = index_run cs NewMemoryTxIndex ∧
  index_run cs NewMemoryTxIndex =
    [AErr None; AErr None; AErr None; AHas true; ACount (Ok 1); AHas false; ABatch (Ok (Batch_Digest b1)); ACount (Ok 1);
     ABatch (Err ErrBatchNotFound)].
Proof.
  split; [|by vm_compute].
  apply leveldb_tx_index_equivalent; [|split|done|done|by repeat constructor].
  - apply (bool_decide_eq_true_1 (Forall typed_cmd cs)). by vm_compute.
  - assert (∀ b, CAddBatch b ∈ cs → b = b0 ∨ b = b1) as Hb.
    { intros b. unfold cs. rewrite !elem_of_cons, elem_of_nil. naive_solver. }
    assert (Batch_Digest b0 ≠ Batch_Digest b1) as Hne by (apply (bool_decide_eq_true_1 (_ ≠ _)); by vm_compute).
    intros b b' [->| ->]%Hb [->| ->]%Hb E;
      [reflexivity|destruct (Hne E)|destruct (Hne (eq_sym E))|reflexivity].
  - assert (∀ b, CAddBatch b ∈ cs → b = b0 ∨ b = b1) as Hb.
    { intros b. unfold cs. rewrite !elem_of_cons, elem_of_nil. naive_solver. }
    assert (∀ t, t ∈ tx_hashes b0 → t ∉ tx_hashes b1) as Hne.
    { apply Forall_forall. apply (bool_decide_eq_true_1 (Forall _ _)). by vm_compute. }
    intros b b' t [->| ->]%Hb [->| ->]%Hb Ht Ht';
      [reflexivity|destruct (Hne t Ht Ht')|destruct (Hne t Ht' Ht)|reflexivity].
Defined.

(** Two batches share a transaction: the persistent index names the batch that
    came last, and pruning that batch removes the transaction although the other
    batch is still indexed; the in-memory index keeps it. *)
Example shared_transaction :
  index_run shared (mk_LevelDBTxIndex (∅ : MemDB) false) =
    [AErr None; AErr None; ABatch (Ok (Batch_Digest b0)); ACount (Ok 1); AHas false; AHas true] ∧
  index_run shared NewMemoryTxIndex =
    [AErr None; AErr None; ABatch (Ok (Batch_Digest b2)); ACount (Ok 1); AHas true; AHas true].
Proof. split; by vm_compute. Qed.

(** A batch is removed and then pruned: the in-memory index has kept its round
    and counts it, the persistent index does not. *)
Example removed_batch_counted :
  index_run removing (mk_LevelDBTxIndex (∅ : MemDB) false) =
    [AErr None; AErr None; AHas false; ACount (Ok 0); ACount (Ok 0)] ∧
  index_run removing NewMemoryTxIndex =
    [AErr None; AErr None; AHas false; ACount (Ok 1); ACount (Ok 0)].
Proof. split; by vm_compute. Qed.
