(* ===== verification/Stores.v ===== *)
(** The stores of a node as the interface values of the source: in memory or
    persistent, chosen by the configuration when the node starts
    ([initializeStores] of looseberry.go). *)
From S2P Require Import Prelude Bytes Sha256 Errors Types Batch Header BitSet Certificate Store TxIndex.
From S2P Require Import Dag DagHistory VoteTracker Primary BatchFetcher Heap AckTracker Worker Pool Flow Gc Sync.
From S2P Require Import Config Scaler Looseberry Messages MockNetwork NodeRun Cluster.
From S2P Require Import LevelDB LevelDBBatch LevelDBCert LevelDBTxIndex.
Local Open Scope string_scope.
Local Open Scope list_scope.
Local Open Scope Z_scope.

(** A value of a store interface. *)
Inductive any_store (M P : Type) := InMem (m : M) | OnDisk (p : P).
Arguments InMem {M P}.
Arguments OnDisk {M P}.

(** A method with a receiver, dispatched on the implementation. *)
Definition on_store {M P A} (f : M → M * A) (g : P → P * A) (s : any_store M P) : any_store M P * A :=
  match s with
  | InMem m => let '(m, a) := f m in (InMem m, a)
  | OnDisk p => let '(p, a) := g p in (OnDisk p, a)
  end.
Definition ask_store {M P A} (f : M → A) (g : P → A) (s : any_store M P) : A :=
  match s with InMem m => f m | OnDisk p => g p end.

#[export] Instance any_batch_store {M P} `{BatchStore M, BatchStore P} : BatchStore (any_store M P) := {|
  SaveBatch b := on_store (SaveBatch b) (SaveBatch b);
  GetBatch d := ask_store (GetBatch d) (GetBatch d);
  HasBatch d := ask_store (HasBatch d) (HasBatch d);
  GetBatchesByRound r := ask_store (GetBatchesByRound r) (GetBatchesByRound r);
  DeleteBatchesBefore r := on_store (DeleteBatchesBefore r) (DeleteBatchesBefore r)
|}.
#[export] Instance any_certificate_store {M P} `{CertificateStore M, CertificateStore P} : CertificateStore (any_store M P) := {|
  SaveCertificate c := on_store (SaveCertificate c) (SaveCertificate c);
  Store.GetCertificate d := ask_store (Store.GetCertificate d) (Store.GetCertificate d);
  Store.HasCertificate d := ask_store (Store.HasCertificate d) (Store.HasCertificate d);
  GetCertificatesByRound r := ask_store (GetCertificatesByRound r) (GetCertificatesByRound r);
  Store.GetCertificateForValidator r v := ask_store (Store.GetCertificateForValidator r v) (Store.GetCertificateForValidator r v);
  DeleteCertificatesBefore r := on_store (DeleteCertificatesBefore r) (DeleteCertificatesBefore r);
  Store.HighestRound := ask_store Store.HighestRound Store.HighestRound
|}.
#[export] Instance any_tx_index {M P} `{TxIndex M, TxIndex P} : TxIndex (any_store M P) := {|
  TI_HasTx t := ask_store (TI_HasTx t) (TI_HasTx t);
  TI_AddBatch b := on_store (TI_AddBatch b) (TI_AddBatch b);
  TI_GetBatchForTx t := ask_store (TI_GetBatchForTx t) (TI_GetBatchForTx t);
  TI_RemoveTxsForBatch b := on_store (TI_RemoveTxsForBatch b) (TI_RemoveTxsForBatch b);
  TI_PruneOlderThan r := on_store (TI_PruneOlderThan r) (TI_PruneOlderThan r)
|}.

(** The interface value of two lawful stores is lawful, so what holds of a node
    over any lawful store holds whichever the configuration chose. *)
#[export] Instance any_batch_laws {M P} `{BatchStoreLaws M, BatchStoreLaws P} : BatchStoreLaws (any_store M P).
Proof.
  refine {| bs_ok := ask_store (bs_ok (S := M)) (bs_ok (S := P)); bs_view := ask_store (bs_view (S := M)) (bs_view (S := P)) |}.
  - intros [s|s]; exact (bs_key s).
  - intros [s|s] b Hok; pose proof (bs_save s b Hok) as Hs; cbn in *; by destruct (SaveBatch b s).
  - intros [s|s]; exact (bs_get s).
  - intros [s|s]; exact (bs_has s).
  - intros [s|s]; exact (bs_round s).
  - intros [s|s] r Hok; pose proof (bs_delete s r Hok) as Hs; cbn in *; by destruct (DeleteBatchesBefore r s).
Defined.
#[export] Instance any_certificate_laws {M P} `{CertificateStoreLaws M, CertificateStoreLaws P} : CertificateStoreLaws (any_store M P).
Proof.
  refine {| cs_ok := ask_store (cs_ok (S := M)) (cs_ok (S := P)); cs_view := ask_store (cs_view (S := M)) (cs_view (S := P)) |}.
  - intros [s|s]; exact (cs_key s).
  - intros [s|s] c Hok; pose proof (cs_save s c Hok) as Hs; cbn in *; by destruct (SaveCertificate c s).
  - intros [s|s]; exact (cs_get s).
  - intros [s|s]; exact (cs_has s).
  - intros [s|s]; exact (cs_round s).
  - intros [s|s] r Hok; pose proof (cs_delete s r Hok) as Hs; cbn in *; by destruct (DeleteCertificatesBefore r s).
Defined.
#[export] Instance any_index_laws {M P} `{TxIndexLaws M, TxIndexLaws P} : TxIndexLaws (any_store M P).
Proof.
  refine {| ix_ok := ask_store (ix_ok (I := M)) (ix_ok (I := P)); ix_view := ask_store (ix_view (I := M)) (ix_view (I := P)) |}.
  - intros [i|i]; exact (ix_has i).
  - intros [i|i] b Hok; pose proof (ix_add i b Hok) as Hs; cbn in *; by destruct (TI_AddBatch b i).
  - intros [i|i] b Hok; pose proof (ix_remove i b Hok) as Hs; cbn in *; by destruct (TI_RemoveTxsForBatch b i).
  - intros [i|i] r Hok; pose proof (ix_prune i r Hok) as Hs; cbn in *; by destruct (TI_PruneOlderThan r i).
Defined.

Section stores.
Context {D : Type} {DB : LevelDB D} {CB : Codec Batch} {CC : Codec Certificate}.

Definition AnyBatchStore : Type := any_store MemoryBatchStore (LevelDBBatchStore D).
Definition AnyCertificateStore : Type := any_store MemoryCertificateStore (LevelDBCertificateStore D).
Definition AnyTxIndex : Type := any_store MemoryTxIndex (LevelDBTxIndex D).

(** The store fields of the node; [None] is nil. *)
Record NodeStores := mk_NodeStores {
  ns_batchStore : option AnyBatchStore;
  ns_certStore : option AnyCertificateStore;
  ns_txIndex : option AnyTxIndex
}.

Definition SetStores (batches : AnyBatchStore) (certs : AnyCertificateStore) (index : AnyTxIndex) (st : NodeStores) : NodeStores :=
  mk_NodeStores (Some batches) (Some certs) (Some index).

(** [open] stands for [leveldb.OpenFile]. *)
Definition initializeStores (cfg : StorageConfig) (open : string → result D) (st : NodeStores) : NodeStores * option error :=
  let batches :=
    match ns_batchStore st with
    | Some s => Ok s
    | None =>
        if InMemory cfg then Ok (InMem NewMemoryBatchStore)
        else match NewLevelDBBatchStore (open (DataDir cfg ++ "/batches")%string) with
             | Err err => Err (Wrapf "create batch store" err)
             | Ok bs => Ok (OnDisk bs)
             end
    end in
  match batches with
  | Err err => (st, Some err)
  | Ok bs =>
      let st := mk_NodeStores (Some bs) (ns_certStore st) (ns_txIndex st) in
      let certs :=
        match ns_certStore st with
        | Some s => Ok s
        | None =>
            if InMemory cfg then Ok (InMem NewMemoryCertificateStore)
            else match NewLevelDBCertificateStore (open (DataDir cfg ++ "/certs")%string) with
                 | Err err => Err (Wrapf "create cert store" err)
                 | Ok cs => Ok (OnDisk cs)
                 end
        end in
      match certs with
      | Err err => (st, Some err)
      | Ok cs =>
          let st := mk_NodeStores (ns_batchStore st) (Some cs) (ns_txIndex st) in
          let index :=
            match ns_txIndex st with
            | Some i => Ok i
            | None =>
                if InMemory cfg then Ok (InMem NewMemoryTxIndex)
                else match NewLevelDBTxIndex (open (DataDir cfg ++ "/txindex")%string) with
                     | Err err => Err (Wrapf "create tx index" err)
                     | Ok ti => Ok (OnDisk ti)
                     end
            end in
          match index with
          | Err err => (st, Some err)
          | Ok ti => (mk_NodeStores (ns_batchStore st) (ns_certStore st) (Some ti), None)
          end
      end
  end.

(** What [Stop] does to each store that is set; errors are ignored. *)
Definition closeStores (st : NodeStores) : NodeStores :=
  mk_NodeStores
    ((λ s, (on_store Memory_BatchStore_Close LevelDB_BatchStore_Close s).1) <$> ns_batchStore st)
    ((λ s, (on_store Memory_CertificateStore_Close LevelDB_CertificateStore_Close s).1) <$> ns_certStore st)
    ((λ s, (on_store TxIndex_Close LevelDB_TxIndex_Close s).1) <$> ns_txIndex st).
End stores.
Arguments AnyBatchStore D : clear implicits.
Arguments AnyCertificateStore D : clear implicits.
Arguments AnyTxIndex D : clear implicits.
Arguments NodeStores D : clear implicits.

Section initialize.
Context {D : Type} {DB : LevelDB D}.
Implicit Types st : NodeStores D.

Definition all_set st : Prop := is_Some (ns_batchStore st) ∧ is_Some (ns_certStore st) ∧ is_Some (ns_txIndex st).
Definition kept {A} (x y : option A) : Prop := ∀ a, x = Some a → y = Some a.

(** A store that is set is never replaced, not even by a failing start; without an
    error all three are set; in memory there is no error; otherwise the error is
    that of a database that does not open. *)
Lemma initializeStores_spec cfg open st :
  let '(st', err) := initializeStores cfg open st in
  kept (ns_batchStore st) (ns_batchStore st') ∧ kept (ns_certStore st) (ns_certStore st') ∧
  kept (ns_txIndex st) (ns_txIndex st') ∧
  match err with
  | None => all_set st'
  | Some err => InMemory cfg = false ∧ ∃ path e what, open path = Err e ∧ err = Wrapf what (Wrapf "failed to open leveldb" e)
  end.
Proof.
  unfold initializeStores, NewLevelDBBatchStore, NewLevelDBCertificateStore, NewLevelDBTxIndex, kept, all_set.
  destruct st as [[b|] [c|] [i|]]; cbn [ns_batchStore ns_certStore ns_txIndex]; destruct (InMemory cfg);
    repeat match goal with |- context [open ?p] => destruct (open p) eqn:? end; cbn;
    split_and!; try done; eauto 10.
Qed.

(** A node that is stopped and started again runs on its closed stores. *)
Lemma restart_on_closed_stores cfg open st :
  all_set st → initializeStores cfg open (closeStores st) = (closeStores st, None).
Proof. by intros ([b Eb] & [c Ec] & [i Ei]); unfold initializeStores, closeStores; cbn; rewrite Eb, Ec, Ei. Qed.
End initialize.

(** ** Closed example: the life of a transaction on persistent stores *)
#[local] Existing Instance toy_ed25519.
#[local] Existing Instance Toy.laws.
#[local] Existing Instance range_sorted.

Import ClusterExample.
Module StoresExample.
#[local] Instance batch_codec : Codec Batch := count_codec Batch.
#[local] Instance cert_codec : Codec Certificate := count_codec Certificate.
Definition open (path : string) : result MemDB := Ok ∅.
Definition stores (inMemory : bool) : NodeStores MemDB :=
  (initializeStores (mk_StorageConfig "data" inMemory) open (mk_NodeStores None None None)).1.
Definition any_node : Type := Looseberry (AnyCertificateStore MemDB) (AnyBatchStore MemDB) (AnyTxIndex MemDB).

(** A node started on the stores that its configuration gives it. *)
Definition node_on (inMemory : bool) (i : Z) : option any_node :=
  match stores inMemory with
  | mk_NodeStores (Some batches) (Some certs) (Some index) =>
      Some (Looseberry_Start (NodeExample.config i) None 1 (fresh_node (NodeExample.config i) Toy.vs batches certs index)).1.1
  | _ => None
  end.
Definition nodes (inMemory : bool) : gmap Z any_node :=
  list_to_map (omap (λ i, (λ l, (i, l)) <$> node_on inMemory i) all).
Definition reaped_on (inMemory : bool) : list (option (list (list Transaction * Hash))) :=
  match cluster_run None (mk_cluster (fresh_net netCfg all) (nodes inMemory)) life_of_a_transaction with
  | None => []
  | Some c =>
      map (λ a, match cl_nodes c !! a with
                | Some l => map (λ cb, (Transactions (CB_Batch cb), CDigest (CB_Certificate cb))) <$> Reap 1000 l
                | None => None
                end) all
  end.
End StoresExample.
Import StoresExample.

(** The nodes reap the same on either kind of store. *)
Example life_on_either_store : reaped_on true = map (reaped final) all ∧ reaped_on false = map (reaped final) all.
Proof. split; vm_compute; reflexivity. Qed.
