(* ===== verification/Diagnostics.v ===== *)
(** What a node reports about itself: the metrics of its components and the
    round counts used to find out why a node is stuck, and the second reader of
    the sync channels, the sync manager's own message loop. *)
From Stdlib Require Import SpecFloat.
From S2P Require Import Prelude Bytes Sha256 Errors Types Batch Header BitSet Certificate Store TxIndex.
From S2P Require Import Dag DagHistory VoteTracker Primary BatchFetcher Heap AckTracker Worker Pool Flow Gc Sync.
From S2P Require Import Config Scaler Looseberry Messages MockNetwork NodeRun.
Local Open Scope Z_scope.

(** ** Components *)
Record FlowMetrics := mk_FlowMetrics {
  FM_CurrentRound : Z;
  FM_CommittedRound : Z;
  FM_UncommittedGap : Z;
  FM_PendingBatches : Z;
  FM_PendingHeaders : Z;
  FM_IsPaused : bool;
  FM_PauseCount : Z;
  FM_ResumeCount : Z;
  FM_MaxUncommittedRounds : Z;
  FM_MaxPendingBatches : Z;
  FM_MaxPendingHeaders : Z
}.
Definition Flow_Metrics (f : FlowController) : FlowMetrics :=
  {| FM_CurrentRound := fc_currentRound f; FM_CommittedRound := fc_committedRound f;
     FM_UncommittedGap := UncommittedGap f; FM_PendingBatches := pendingBatches f;
     FM_PendingHeaders := pendingHeaders f; FM_IsPaused := paused f; FM_PauseCount := pauseCount f;
     FM_ResumeCount := resumeCount f; FM_MaxUncommittedRounds := MaxUncommittedRounds (fc_cfg f);
     FM_MaxPendingBatches := MaxPendingBatches (fc_cfg f); FM_MaxPendingHeaders := MaxPendingHeaders (fc_cfg f) |}.

Record BatchFetcherMetrics := mk_BatchFetcherMetrics {
  BM_PendingHeaders : Z;
  BM_PendingRequests : Z;
  BM_BatchesRequested : Z;
  BM_BatchesReceived : Z;
  BM_RequestTimeouts : Z;
  BM_HeadersReady : Z
}.
Definition Fetcher_Metrics (f : BatchFetcher) : BatchFetcherMetrics :=
  mk_BatchFetcherMetrics (zsize (bf_headers f)) (zsize (pendingRequests f)) (batchesRequested f) (batchesReceived f)
    (requestTimeouts f) (headersReady f).

(** The zero time is [None]. *)
Record ScalerMetrics := mk_ScalerMetrics {
  CurrentWorkers : Z;
  CurrentLoad : spec_float;
  ScaleUpCount : Z;
  ScaleDownCount : Z;
  LastScaleTime : option Z;
  RecentEvents : list ScaleEvent
}.
Definition Scaler_Metrics {I B} (p : Pool I B) (s : Scaler) : ScalerMetrics :=
  mk_ScalerMetrics (WorkerCount p) (CalculateLoad p) (scaleUpCount s) (scaleDownCount s) (lastScaleTime s) (Scaler.events s).

Record SyncDiagnostics := mk_SyncDiagnostics { SD_PeerHighest : gmap Z Z; SD_PendingReqs : gmap Z Z }.
Definition Sync_Diagnostics (s : SyncManager) : SyncDiagnostics :=
  mk_SyncDiagnostics (peerHighest s) (retryCount <$> pendingReqs s).

(** Metrics of looseberry.go; the three totals that no code sets are left at
    their zero. *)
Record Metrics := mk_Metrics {
  PendingTxCount : Z;
  PendingTxBytes : Z;
  TotalTxAdded : Z;
  TotalTxRejected : Z;
  TotalTxCommitted : Z;
  TotalBatches : Z;
  TotalBatchesCertified : Z;
  M_CurrentRound : Z;
  M_CommittedRound : Z;
  M_HighestRound : Z;
  M_WorkerCount : Z;
  WorkerLoad : spec_float;
  M_IsPaused : bool;
  M_PauseCount : Z;
  M_ResumeCount : Z;
  M_UncommittedGap : Z;
  TotalCertificates : Z;
  RebroadcastFires : Z;
  RebroadcastedBatches : Z;
  RebroadcastedHeaders : Z
}.

Section node.
Context {S B I : Type} {CS : CertificateStore S} {BS : BatchStore B} {TI : TxIndex I}.
Context {RC : RangeOrder Z Certificate}.
Implicit Types l : Looseberry S B I.

Definition Node_Metrics l : Metrics :=
  let flow := Flow_Metrics (flowController l) in
  {| PendingTxCount := Pool.PendingCount (workerPool l); PendingTxBytes := Pool.PendingBytes (workerPool l);
     TotalTxAdded := totalTxAdded l; TotalTxRejected := totalTxRejected l; TotalTxCommitted := 0;
     TotalBatches := totalBatches l; TotalBatchesCertified := 0;
     M_CurrentRound := currentRound (primaryNode l); M_CommittedRound := committedRound (nodeDag l);
     M_HighestRound := highestRound (nodeDag l); M_WorkerCount := WorkerCount (workerPool l);
     WorkerLoad := CurrentLoad (Scaler_Metrics (workerPool l) (workerScaler l));
     M_IsPaused := FM_IsPaused flow; M_PauseCount := FM_PauseCount flow; M_ResumeCount := FM_ResumeCount flow;
     M_UncommittedGap := FM_UncommittedGap flow; TotalCertificates := 0;
     RebroadcastFires := rebroadcastFires l; RebroadcastedBatches := rebroadcastedBatches l;
     RebroadcastedHeaders := rebroadcastedHeaders l |}.

Definition Node_SyncDiagnostics l : SyncDiagnostics := Sync_Diagnostics (syncManager l).

Definition CertStoreRoundCount (round : Z) l : Z :=
  match GetCertificatesByRound round (nodeCerts l) with Ok certs => zlen certs | Err _ => 0 end.
Definition DAGRoundCount (round : Z) l : Z := zlen (GetCertificatesForRound (dag_of l) round).
Definition DAGRoundAuthors (round : Z) l : list Z := CAuthor <$> GetCertificatesForRound (dag_of l) round.
End node.

(** ** The second reader of the sync channels *)
Section messages.
Context `{Ed : Ed25519} {S B I : Type} {CS : CertificateStore S} {BS : BatchStore B} {TI : TxIndex I}.
Context {RV : RangeOrder Z Vote} {RP : RangeOrder Hash PendingHeader} {RO : RangeOrder Hash Certificate}.
Context {RC : RangeOrder Z Certificate} {RH : RangeOrder Hash Z} {RB : RangeOrder Hash PendingBatch}.
Context {RS : RangeOrder Z pendingSyncRequest} {RF : RangeOrder Hash pendingBatchRequest}.
Implicit Types l : Looseberry S B I.

(** One iteration of [handleMessages] of the sync manager, which the node starts
    next to its own message loop. *)
Definition handleMessages (p : packet) l : option (Looseberry S B I * list message) :=
  match p with
  | PSyncRequest req =>
      match HandleSyncRequest (dag_of l) (batchStore l) req (syncManager l) with
      | None => None
      | Some (Err _) => Some (l, [])
      | Some (Ok resp) => Some (l, [SendSyncResponse (SR_Requester req) resp])
      end
  | PSyncResponse msg =>
      match SM_Response msg with
      | None => Some (l, [])
      | Some resp =>
          let '(s, store, certs, _) := HandleSyncResponse resp (SM_From msg) (batchStore l) (syncManager l) in
          (λ l, (l, [])) <$> deliver_certs certs (l <| syncManager := s |> <| batchStore := store |>)
      end
  | _ => Some (l, [])
  end.

(** Both loops read the sync channels, and it makes no difference which of them
    takes a message. *)
Lemma either_loop_may_read now p l :
  match p with PSyncRequest _ | PSyncResponse _ => True | _ => False end → messageLoop now p l = handleMessages p l.
Proof.
  destruct p as [| | | | | | |req|msg]; try done; intros _; cbn [messageLoop handleMessages].
  - unfold handleSyncRequest. destruct (HandleSyncRequest _ _ _ _) as [[resp|e]|]; done.
  - destruct (SM_Response msg) as [resp|]; [|done]. unfold handleSyncResponse.
    by destruct (HandleSyncResponse _ _ _ _) as [[[s store] certs] e].
Qed.
End messages.

(** ** What the counts say *)
Section counts.
Context `{Ed : Ed25519} {S B I : Type} {CS : CertificateStore S} {CL : CertificateStoreLaws S}.
Context {BS : BatchStore B} {BL : BatchStoreLaws B} {TI : TxIndex I} {TL : TxIndexLaws I} {RC : RangeOrder Z Certificate}.
Context (vs : ValidatorSet) {L : ValidatorSetLaws vs}.
Implicit Types l : Looseberry S B I.

(** The primary leaves its round exactly when the store's count of the round
    reaches the quorum: the count is the diagnosis of a node that is stuck. *)
Lemma stuck_below_quorum l :
  node_ok vs l →
  ((tryAdvanceRound (primary_of l)).2 = true ↔ Quorum vs ≤ CertStoreRoundCount (CurrentRound l) l) ∧
  currentRound (tryAdvanceRound (primary_of l)).1 =
    if bool_decide (Quorum vs ≤ CertStoreRoundCount (CurrentRound l) l) then u64 (CurrentRound l + 1) else CurrentRound l.
Proof.
  intros Hok. destruct (nd_store vs l Hok) as [Hs _]. destruct (cs_round _ (CurrentRound l) Hs) as (certs & E & _).
  unfold tryAdvanceRound, CertStoreRoundCount. cbn [primary_of p_certStore]. fold (CurrentRound l).
  change (p_certStore (primary_of l)) with (nodeCerts l). change (currentRound (primary_of l)) with (CurrentRound l).
  change (validatorSet (primary_of l)) with (validatorSet (primaryNode l)).
  rewrite E, (po_vs _ _ (nd_primary _ _ Hok)). repeat case_bool_decide; cbn [fst snd]; (split; [split; [done || lia|done || lia]|done || lia]).
Qed.

(** For a round held in memory, the authors reported are exactly those whose
    certificate the DAG has, without repetition, and the reported highest round
    bounds every round with certificates. *)
Lemma round_authors_exact r l :
  node_ok vs l → is_Some (rounds (nodeDag l) !! r) →
  DAGRoundCount r l = zlen (DAGRoundAuthors r l) ∧ NoDup (DAGRoundAuthors r l) ∧
  (∀ a, a ∈ DAGRoundAuthors r l ↔ is_Some (mem_cert (dag_of l) r a)) ∧
  (0 < DAGRoundCount r l → r ≤ M_HighestRound (Node_Metrics l)).
Proof.
  intros Hok Hr. pose proof (nd_dag _ _ Hok) as Hd.
  destruct (round_certs (dag_of l) r Hd (or_introl Hr)) as [Hnd Hin]. unfold DAGRoundCount, DAGRoundAuthors.
  split_and!; [unfold zlen; by rewrite length_fmap|done| |].
  - intros a. rewrite list_elem_of_fmap. split.
    + intros (c & -> & [_ Hc]%Hin). by eexists.
    + intros [c Hc]. destruct (ok_placed _ Hd r a c Hc) as (Hr' & <- & _). exists c. split; [done|]. by apply Hin.
  - destruct (GetCertificatesForRound (dag_of l) r) as [|c cs] eqn:E; [done|]. intros _.
    destruct (Hin c) as [[_ Hc] _]; [left|]. by apply (ok_placed _ Hd) in Hc as (_ & _ & ?).
Qed.
End counts.
